(* ===== verification/_CoqProject ===== *)
-Q . S2P
Prelude.v
Errors.v
Effects.v
JsonText.v
GoTime.v
Api.v
Storage.v
Runtime.v
Reference.v
Names.v
GoPath.v
Ledger.v
EmbeddedEtcd.v
Process.v
Registry.v
PodRegistry.v
NodeRegistry.v
ReplicaSetRegistry.v
Scheduler.v
Controller.v
Handlers.v
ApiServer.v
Retry.v
Kubelet.v
KubeletRuntime.v
KubeletProtocol.v
KubeletSafety.v
Commands.v
EtcdHistory.v
StorageWatch.v
Metrics.v
ListWatch.v
GoRuntime.v
ListWatchProtocol.v
ListWatchRuntime.v
Concurrency.v
Linearizability.v
ConcurrentRegistry.v
ControlPlane.v
Cluster.v
Deployment.v
Examples.v
