(* ===== verification/Prelude.v ===== *)
(** * Gokube: a verification development of the gokube container orchestrator

    Gokube (src/) is a small container orchestrator.  Objects (nodes, pods, ReplicaSets)
    are kept in etcd.  The API server serves them over HTTP; the scheduler assigns pending
    pods to nodes; the ReplicaSet controller creates missing pods; on every node a kubelet
    polls the API server, starts the containers of its pods through Docker and reports
    their status.  Handlers, scheduler and controller reach etcd through three registries
    and the storage interface; a list-watch package follows a prefix of etcd.

    ** How programs are modelled

    A Go function without effects is a Rocq function.  One with effects is a [prog]
    ([Effects]): a tree of external calls, lock operations and exits that reads like the
    code.  Everything outside the repository is reached by an external call: the etcd and
    Docker clients, HTTP, the random sources, contexts, timers, channels, the operating
    system.  The world that answers is a parameter with a handler ([World]); what the code
    relies on is stated as laws of the handler ([RandLaws], [EtcdLaws], [DockerLaws]), never
    built in.  [run] executes a program, [twp] says that it returns (no exit, no endless
    loop) with a postcondition, [behaves] speaks of every behaviour whatever the world
    answers.  [Ledger] adds a ghost state: [tracks] accounts for resources over every answer,
    [obeys] says that a program follows a protocol at every step.  Errors are values
    ([Errors]) with the wrapping that [errors.Is] walks through.  Slices keep the difference
    between nil and empty, int32 conversions wrap around, float64 is rounded as IEEE
    binary64.

    Concurrency has four semantics: [Concurrency] interleaves goroutines and processes that
    share a store and mutexes, call by call; [GoRuntime] adds channels, [select], contexts,
    goroutines that start goroutines, and crashes; [KubeletRuntime] has pointers and a map
    that goroutines share without a lock; [Process] runs a [main] function and its goroutines
    until one of them ends the process.  Components on the two ends of HTTP are put
    together in [Cluster], which interprets the requests of one by the programs of the other.

    ** The files

    - [Prelude]: results, slices, machine integers, strings, lists, tactics, hints.
    - [Errors], [Effects]: Go errors; programs, worlds and the proof rules for them.
    - [JsonText], [GoTime]: JSON texts and timestamps as packages json and time write and
      read them, down to the bytes.
    - [Api]: src/pkg/api/types.go, pod.go, node.go: objects, validation, ownership.
    - [Storage]: src/pkg/storage/storage.go and etcd_storage.go: the interface as a record
      of operations, its laws ([StorageLaws]), the etcd implementation and the proof that
      it keeps the laws.  The other components see the encoding through the class [Object];
      [Runtime] (src/pkg/runtime/object.go and the json tags) is the encoding itself.
    - [Reference]: a concrete world, codec and validator that satisfy every law; used to
      show that the hypotheses of the theorems can hold.
    - [Names]: src/pkg/registry/names/generate.go.  [GoPath]: [path.Join].
    - [Ledger]: resources and protocols.  [EmbeddedEtcd]: src/pkg/storage/etcd.go, helper.go.
      [Process]: a process with the goroutines its [go] statements start, any of which can
      end it.
    - [Registry]: the store as a finite map of objects ([view]), shared by [PodRegistry],
      [NodeRegistry] and [ReplicaSetRegistry] (src/pkg/registry).
    - [Scheduler] (src/pkg/scheduler), [Controller] (src/pkg/controller).
    - [Handlers] (src/pkg/api/handlers, response.go, server/server.go): every HTTP handler
      and the route table; [ApiServer]: the contract of the API and its refinement.
    - [Retry] (src/pkg/retry), [Commands] (src/cmd).
    - [Kubelet] (src/pkg/kubelet): what runs in one goroutine; [KubeletRuntime]: its
      goroutines and the memory they share; [KubeletProtocol], [KubeletSafety]: what each of
      them does to it, and what holds in every interleaving.
    - [EtcdHistory]: the revisions, reads and watches of etcd as a parameter with the
      documented laws; [StorageWatch] (the watch half of etcd_storage.go).
    - [Metrics], [ListWatch] (src/pkg/listwatch); [GoRuntime], [ListWatchProtocol],
      [ListWatchRuntime]: its goroutines running together.
    - [Concurrency], [Linearizability], [ConcurrentRegistry]: goroutines that use one
      registry; [ControlPlane]: any number of API servers, schedulers and controllers.
    - [Cluster]: the kubelet linked with the API server over HTTP; [Deployment]: a ReplicaSet
      on its way through controller, scheduler, API server and kubelets.
    - [Examples] (src/pkg/listwatch/examples): the two example programs.

    ** What is shown

    - Encoding: every object with UTF-8 strings, int32 numbers and representable times
      survives the round trip; whatever was decoded can be encoded again.
    - Storage: the etcd storage keeps every promise of the interface, also when etcd fails
      before or after a write took effect.
    - Registries: over a store that answers, sequences of operations refine functions on a
      finite map; the pods stay well-formed; errors are classified; reading back.  The
      clients' theorems are proved against [StorageLaws], so they hold for any storage.
    - API server: sequences of requests refine one contract, stated once for the three
      kinds of objects; in any world every request gets one answer, with one exception.
    - Scheduler: one pass schedules every pending pod on an existing node and changes
      nothing else.  Controller: the outcome of [Reconcile] on every branch, when repeating
      it converges and when it never does, what a whole round preserves.
    - Names: the bit-slicing loop computes the first letters of the generator's stream.
    - Retry: exactly when the loops return and with what, after which delays, in closed form
      for the default options and with their bound for any.
    - Kubelet: the status table; in every interleaving of its goroutines the pods started are
      those of a reference function for the pods received, reports are about pods that were
      received, and the crashes and data races are exactly the ones listed.
    - Cluster: what starting a kubelet, a poll after a scheduling pass and a status report
      come to on the store of the API server.
    - Deployment: one round of controller, scheduler and kubelets brings a ReplicaSet to the
      number of pods it wants, each of them run by the kubelet of its node.
    - Watches: what a watch of the storage and a list followed by a watch deliver for every
      history of etcd: every change after the start, once, in order, with the type and the
      value it has; which changes the list-watch loses, and where compaction shows.
    - Concurrency: the pod and the ReplicaSet registry are linearizable and their clients
      finish; the node registry loses creations; the invariant of the store holds under every interleaving of the
      whole control plane.
    - List-watch: in every interleaving of its goroutines stopping cleans up and can always
      finish, and the caller receives well-formed events; the one crash there is, a goroutine
      that stays behind, and the panic without a logger.
    - Processes: what the embedded etcd, the four commands and the two examples hold when
      they end, in every behaviour of the operating system and with every goroutine of theirs
      that can end the process first.
    - Several theorems state behaviour that contradicts a comment or an evident intention
      (a conflict answered twice, node names that leave their key space, reports that are
      not repeated, ReplicaSets that never converge).

    ** Bounds

    Unbounded loops take fuel and end in [Halt NoFuel] when it is used up, which [twp] and
    [run ... = (Val _, _)] exclude.  The name generator needs twelve units for every
    integer drawn; that some number of draws yields five letters is the hypothesis
    [RandFair].  [WithExponentialBackoff] and the loops of the list-watch look at their fuel
    only after the context has answered that it is alive: a stopped context ends them
    whatever the fuel, and their outcomes are characterised for every amount.
    The ticker loops ([Start]) take a number of rounds.  The loops of the kubelet take fuel; its
    theorems hold for every amount.  The JSON reader takes twice the length of its input and one
    more, which is proved to be enough ([JsonText.parse_total]).  Loops over slices and counters are
    structural.

    ** What is not modelled

    The matching of paths to routes (go-restful, a parameter with laws in [Cluster]) and the
    parsing of command lines (cobra), which are libraries; elapsed times; the texts of JSON
    errors; log output of the standard logger, except in the examples, where it is what they
    are for.  Of the files, the mock of the storage (mocks/), which mockgen generates, and
    src/pkg/api/handlers/helper.go, which only wraps the modelled test helper of the embedded
    etcd for tests.  Kubelets and control plane are composed in sequence ([Cluster],
    [Deployment]) and interleaved each on their own side ([KubeletSafety], [ControlPlane]),
    not interleaved with each other over HTTP.  For the commands and examples
    [Process] over-approximates channels and locks, which is enough for how a process ends;
    the process of the kubelet command is covered by [KubeletSafety] and its [main] function
    on its own.  A panic that is not recovered ends the process; nothing in the repository
    recovers. *)

From stdpp Require Export base gmap strings list fin_maps sorting.
From Stdlib Require Export ZArith Lia.

#[global] Open Scope string_scope.
#[global] Open Scope list_scope.
#[global] Open Scope Z_scope.
#[export] Set Default Goal Selector "!".

Declare Scope gokube_scope.
Delimit Scope gokube_scope with gokube.
#[global] Open Scope gokube_scope.

Create HintDb gokube discriminated.
Create Rewrite HintDb gokube.
Create Rewrite HintDb str_app.

(** ** Go results: a value or a non-nil error *)

(** The pair [(value, error)] of a Go function that returns exactly one of the two. *)
Inductive res (E A : Type) : Type :=
| Ok (a : A)
| Err (e : E).
Arguments Ok {E A} _.
Arguments Err {E A} _.

#[export] Instance Ok_inj {E A} : Inj (=) (=) (@Ok E A).
Proof. by intros a b [= ->]. Qed.

Definition is_Ok {E A} (r : res E A) : bool :=
  match r with Ok _ => true | Err _ => false end.

(** ** Slices: [nil] is not the empty slice *)

(** Go distinguishes a nil slice from an empty one (so do [encoding/json] and the
    validator's [required] tag): [None] is nil. *)
Definition slice (A : Type) : Type := option (list A).

(** [for _, x := range s]: ranging over nil is ranging over nothing. *)
Definition elems {A} (s : slice A) : list A := default [] s.

Lemma elems_Some {A} (l : list A) : elems (Some l) = l.
Proof. done. Qed.

(** [append(s, xs...)]: appending nothing leaves nil nil. *)
Definition append_slice {A} (s : slice A) (xs : list A) : slice A :=
  match xs with
  | [] => s
  | _ => Some (elems s ++ xs)
  end.

Lemma elems_append_slice {A} (s : slice A) xs :
  elems (append_slice s xs) = elems s ++ xs.
Proof. destruct xs; cbn; [by rewrite app_nil_r | done]. Qed.

(** ** 32-bit integers *)

Definition int32_min : Z := - 2 ^ 31.
Definition int32_max : Z := 2 ^ 31 - 1.
Definition int32_range (z : Z) : Prop := int32_min <= z <= int32_max.

(** The Go conversion [int32(z)] of an [int]: it wraps around. *)
Definition int32 (z : Z) : Z := (z + 2 ^ 31) mod 2 ^ 32 - 2 ^ 31.

Lemma int32_id z : int32_range z -> int32 z = z.
Proof.
  unfold int32_range, int32_min, int32_max, int32. intros Hz.
  rewrite Z.mod_small; lia.
Qed.

Lemma int32_in_range z : int32_range (int32 z).
Proof.
  unfold int32_range, int32_min, int32_max, int32.
  pose proof (Z.mod_pos_bound (z + 2 ^ 31) (2 ^ 32)). lia.
Qed.

(** ** Strings as byte sequences *)

(** A Go string is a sequence of bytes; so is a [string].  [str_take n s] is the
    slice expression [s[:n]] for [n <= len(s)]. *)
Fixpoint str_take (n : nat) (s : string) : string :=
  match n, s with
  | S n, String c s => String c (str_take n s)
  | _, _ => EmptyString
  end.

(** [strings.HasPrefix(s, p)]. *)
Definition HasPrefix (s p : string) : bool := String.prefix p s.

(** Every byte of [s] satisfies [P]. *)
Fixpoint str_forall (P : Ascii.ascii -> bool) (s : string) : bool :=
  match s with
  | EmptyString => true
  | String c s => P c && str_forall P s
  end.

Lemma str_app_cons x a b : String x a +:+ b = String x (a +:+ b).
Proof. done. Qed.

Lemma str_app_nil_l a : "" +:+ a = a.
Proof. done. Qed.

#[export] Hint Rewrite str_app_cons str_app_nil_l : str_app.
Ltac str_simpl := autorewrite with str_app in *; cbn in *.

Lemma str_app_assoc a b c : (a +:+ b) +:+ c = a +:+ (b +:+ c).
Proof. induction a as [|x a IH]; str_simpl; [done | by rewrite IH]. Qed.

Lemma str_app_nil_r a : a +:+ "" = a.
Proof. induction a as [|x a IH]; str_simpl; [done | by rewrite IH]. Qed.

Lemma str_app_inj_l p a b : p +:+ a = p +:+ b -> a = b.
Proof. induction p as [|x p IH]; str_simpl; [done | by intros [= ?%IH]]. Qed.

Lemma str_app_length a b :
  String.length (a +:+ b) = (String.length a + String.length b)%nat.
Proof. induction a as [|x a IH]; str_simpl; [done | by rewrite IH]. Qed.

Lemma str_take_length n s :
  String.length (str_take n s) = Nat.min n (String.length s).
Proof.
  revert s; induction n as [|n IH]; intros [|c s]; cbn; auto.
Qed.

Lemma str_take_ge n s : (String.length s <= n)%nat -> str_take n s = s.
Proof.
  revert s; induction n as [|n IH]; intros [|c s]; cbn; intros; try done; [lia|].
  f_equal. apply IH. lia.
Qed.

(** A cut after a prefix keeps the prefix. *)
Lemma str_take_app n p s :
  (String.length p <= n)%nat -> str_take n (p +:+ s) = p +:+ str_take (n - String.length p) s.
Proof.
  revert n; induction p as [|c p IH]; intros n Hn; rewrite ?str_app_cons, ?str_app_nil_l.
  { by rewrite Nat.sub_0_r. }
  cbn [String.length] in *. destruct n as [|n]; [lia|]. cbn [str_take]. rewrite IH by lia. done.
Qed.

Lemma HasPrefix_spec s p : HasPrefix s p = true <-> exists t, s = p +:+ t.
Proof.
  unfold HasPrefix. revert s; induction p as [|c p IH]; intros s; cbn.
  { split; [by exists s | by destruct s]. }
  setoid_rewrite str_app_cons. destruct s as [|d s]; cbn.
  { split; [done | by intros [t [=]]]. }
  destruct (Ascii.ascii_dec c d) as [->|Hne].
  - rewrite IH. split; intros [t Ht]; exists t; congruence.
  - split; [done | intros [t [=]]; congruence].
Qed.

Lemma HasPrefix_app p t : HasPrefix (p +:+ t) p = true.
Proof. apply HasPrefix_spec. by exists t. Qed.

Lemma HasPrefix_length s p :
  HasPrefix s p = true -> (String.length p <= String.length s)%nat.
Proof. intros [t ->]%HasPrefix_spec. rewrite str_app_length. lia. Qed.

(** If two prefixes of one string are given, one is a prefix of the other. *)
Lemma HasPrefix_comparable a b s t :
  a +:+ s = b +:+ t -> HasPrefix a b = true \/ HasPrefix b a = true.
Proof.
  revert b; induction a as [|x a IH]; intros [|y b];
    rewrite ?str_app_cons, ?str_app_nil_l; auto.
  intros [= -> H]. destruct (IH _ H) as [H'|H']; [left|right];
    apply HasPrefix_spec in H' as [u ->]; apply HasPrefix_spec; by exists u.
Qed.

#[export] Hint Rewrite str_app_length str_take_length str_app_nil_r : gokube.
#[export] Hint Resolve HasPrefix_app int32_in_range : gokube.

(** ** Lists *)

(** The elements a [filter] keeps, as a boolean test in a Go loop selects them. *)
Lemma filter_bool_app {A} (f : A -> bool) (l k : list A) :
  List.filter f (l ++ k) = List.filter f l ++ List.filter f k.
Proof. apply List.filter_app. Qed.

Lemma filter_bool_Permutation {A} (f : A -> bool) (l k : list A) :
  l ≡ₚ k -> List.filter f l ≡ₚ List.filter f k.
Proof.
  induction 1 as [|x l k _ IH|x y l|l k m _ IH1 _ IH2]; cbn; auto.
  - destruct (f x); auto.
  - destruct (f x), (f y); auto using perm_swap.
  - by etrans.
Qed.

Lemma elem_of_filter_bool {A} (f : A -> bool) (l : list A) x :
  x ∈ List.filter f l <-> x ∈ l /\ f x = true.
Proof. rewrite !list_elem_of_In. apply List.filter_In. Qed.

(** ** Proof steps of the development *)

(** Case analysis on every [match] of the goal and of the context, closing the cases
    that contradict an equation. *)
Ltac split_matches := repeat (case_match; simplify_eq/=).

Ltac solve_bool :=
  repeat match goal with
  | H : _ && _ = true |- _ => apply andb_prop in H as [? ?]
  | |- _ && _ = true => apply andb_true_intro; split
  | H : bool_decide _ = true |- _ => apply bool_decide_eq_true_1 in H
  | H : bool_decide _ = false |- _ => apply bool_decide_eq_false_1 in H
  | |- bool_decide _ = true => apply bool_decide_eq_true_2
  | |- bool_decide _ = false => apply bool_decide_eq_false_2
  end.
