(* ===== verification/Errors.v ===== *)
(** * Errors: Go error values and [errors.Is]

    Error values as the packages build them: package-level sentinels made with
    [errors.New] (or [fmt.Errorf] without arguments), errors with a text only, and
    errors that wrap another one through the [%w] verb. *)

From S2P Require Import Prelude.

(** A package-level error variable.  Go compares such values by identity; two distinct
    variables are distinct values, so the qualified name of the variable identifies it. *)
Record sentinel := Sentinel { sentinel_var : string; sentinel_text : string }.

#[export] Instance sentinel_eq_dec : EqDecision sentinel.
Proof. solve_decision. Defined.

Inductive error : Type :=
| ErrVar (s : sentinel)                     (* a package-level variable *)
| ErrText (msg : string)                    (* a text, wrapping nothing *)
| ErrWrap (msg : string) (inner : error).   (* [fmt.Errorf] with a [%w] verb *)

#[export] Instance error_eq_dec : EqDecision error.
Proof. solve_decision. Defined.

(** [err.Error()]. *)
Definition Error (e : error) : string :=
  match e with
  | ErrVar s => sentinel_text s
  | ErrText m => m
  | ErrWrap m _ => m
  end.

(** [fmt.Errorf("%w" + rest, s)] where [rest] is the already formatted remainder. *)
Definition Errorf_w (s : sentinel) (rest : string) : error :=
  ErrWrap (sentinel_text s +:+ rest) (ErrVar s).

(** [errors.Is(err, target)]: walk the chain of wrapped errors. *)
Fixpoint errors_Is (e : error) (target : sentinel) : bool :=
  match e with
  | ErrVar s => bool_decide (s = target)
  | ErrText _ => false
  | ErrWrap _ inner => errors_Is inner target
  end.

(** The results of this program: a value or an error. *)
Abbreviation result := (res error).

Lemma errors_Is_Errorf_w s rest t :
  errors_Is (Errorf_w s rest) t = bool_decide (s = t).
Proof. done. Qed.

#[export] Hint Rewrite errors_Is_Errorf_w : gokube.
