(* ===== verification/Effects.v ===== *)
(** * Effects: programs over the outside world

    Code outside the repository (the etcd client, the Docker client, the HTTP transport,
    the random sources, timers and contexts) is reached through external calls.  A Go
    function with effects is a [prog]: a tree of external calls, lock operations and
    early exits that reads like the code.  The outside world is a parameter: any type
    with a handler for the external calls; what the code relies on is stated as laws of
    that handler ([RandLaws] here, the etcd laws in [Storage]). *)

From S2P Require Import Prelude Errors.

(** ** The external calls *)

(** [mvccpb.KeyValue], the fields the code reads. *)
Record KeyValue := mkKeyValue {
  kv_key : string;
  kv_value : string;
  kv_create_revision : Z;
  kv_mod_revision : Z }.

(** [clientv3.GetResponse]: the header's revision and the key-value pairs. *)
Record GetResponse := mkGetResponse {
  resp_revision : Z;
  resp_kvs : list KeyValue }.

(** The fields of a Docker container summary the kubelet reads. *)
Record ContainerSummary := mkContainerSummary {
  cs_id : string;
  cs_state : string;
  cs_labels : gmap string string }.

(** [clientv3.Event] and the fields of [clientv3.WatchResponse] the code reads. *)
Inductive mvcc_type := EvPut | EvDelete | EvOther.

Record EtcdEvent := mkEtcdEvent {
  ev_type : mvcc_type;
  ev_kv : KeyValue;
  ev_prev : option KeyValue }.

Record WatchResponse := mkWatchResponse {
  wr_events : list EtcdEvent;
  wr_canceled : bool;
  wr_err : option error }.

(** What travels on the channels of the list-watch and of the storage's watch. *)
Record ChanMsg := mkChanMsg {
  msg_type : string;
  msg_key : string;
  msg_value : string;
  msg_old : option string;                   (* [None]: nil *)
  msg_prefix : string }.

(** The outcome of a [select] that sends or watches the context; with a [default] branch it
    can also find the channel full.  The outcome of one that receives. *)
Inductive sending := Sent | SendDone (ctx_err : error) | SendFull.
Inductive receiving (A : Type) := Received (a : A) | Closed | RecvDone (ctx_err : error).
Arguments Received {A} a.
Arguments Closed {A}.
Arguments RecvDone {A} ctx_err.

(** What [ContainerInspect] reports: the container's state, that there is no such
    container ([client.IsErrNotFound]), or another error. *)
Inductive InspectResult :=
| Inspected (running : bool) (exit_code : Z)
| InspectNotFound
| InspectError (e : error).

(** [url.URL] and [embed.Config], the fields the code sets. *)
Record URL := mkURL { url_Scheme : string; url_Host : string }.

Record EtcdConfig := mkEtcdConfig {
  cfg_Dir : string;
  cfg_ListenPeerUrls : list URL;
  cfg_ListenClientUrls : list URL;
  cfg_Logger : string;
  cfg_LogOutputs : list string }.

(** The calls by which a process deals with the operating system and with the servers it
    starts.  A listener, an etcd server and an etcd client are named by numbers. *)
Inductive os :=
| MkdirTemp (pattern : string)               (* [os.MkdirTemp("", pattern)] *)
| Getwd
| RemoveAll (path : string)
| ListenTCP (addr : string)                  (* [net.Listen("tcp", addr)] *)
| ListenerPort (ln : nat)                    (* [ln.Addr().( *net.TCPAddr).Port] *)
| ListenerClose (ln : nat)
| StartEtcd (cfg : EtcdConfig)               (* [embed.StartEtcd] *)
| ReadyWithin (server : nat) (d : Z)         (* [select] on [ReadyNotify] and a timer *)
| ServerStop (server : nat)                  (* [e.Server.Stop()] *)
| ServerClose (server : nat)                 (* [e.Close()] *)
| ListenAndServe (addr : string)             (* [http.ListenAndServe] *)
| SignalNotify                               (* [signal.Notify(stopCh, ...)] *)
| SignalWait                                 (* [<-stopCh] *)
| ServedOrSignal                             (* [select] on [errCh] and [stopCh] *)
| Printf (to_stderr : bool) (msg : string).

Definition os_resp (o : os) : Type :=
  match o with
  | MkdirTemp _ | Getwd => result string
  | RemoveAll _ | ListenerClose _ => result unit
  | ListenTCP _ | StartEtcd _ => result nat
  | ListenerPort _ => Z
  | ReadyWithin _ _ => bool
  | ListenAndServe _ => error
  | ServedOrSignal => option error             (* [None]: a signal *)
  | ServerStop _ | ServerClose _ | SignalNotify | SignalWait | Printf _ _ => unit
  end.

(** The [go] statements of the commands and of the list-watch, with what the goroutine
    captures; channels and contexts are named by numbers. *)
Inductive go_stmt :=
| GoServe (address : string)                 (* [errCh <- apiServer.Start(address)] *)
| GoSchedule (ctx : nat)                     (* [sched.Start(ctx)] *)
| GoControl (ctx : nat)                      (* [rsController.Start(ctx)] *)
| GoListWatch (ctx ch done : nat)            (* [lw.runListWatchLoop(ctx, ch, done)] *)
| GoWatch (ch : nat)                         (* the goroutine of [lw.Watch] *)
| GoMonitor (watchCtx ch : nat)              (* that of [lw.watchAndForwardEvents] *)
| GoStorageWatch (ch : nat)                  (* [s.handleWatchEvents(ctx, watcher, ch)] *)
| GoChanges (ctx client : nat)               (* the writer of the examples *)
| GoMetricsServer.

(** An update of a metric. *)
Inductive metric_op :=
| MetricInc (name : string) (labels : list string)
| MetricSet (name : string) (value : Z)
| MetricObserve (name : string).

Inductive ext : Type :=
| EtcdPut (key val : string)
| EtcdGet (key : string)
| EtcdGetPrefix (prefix : string)
| EtcdDelete (key : string)
| EtcdDeletePrefix (prefix : string)
| RandInt63                                  (* [rng.rand.Int63()] of package names *)
| RandIntn (n : Z)                           (* [rand.Intn(n)] *)
| CtxErr                                     (* [ctx.Err()] *)
| CtxOrTimer (d : Z)                         (* [select] on [ctx.Done()] and a timer *)
| HttpDo (method url body : string)
| ImagePull (image : string)
| ImageCopy (image : string)
| ContainerCreate (name image : string) (labels : gmap string string)
| ContainerStart (id : string)
| ContainerList (all : bool)
| ContainerInspect (name : string)
| ContainerRemove (id : string)
| EtcdConnect (endpoints : list string) (dialTimeout : Z)   (* [clientv3.New] *)
| EtcdClose (client : nat)                   (* [cli.Close()] *)
| ClientGet                                  (* reads the field [lw.etcdCli] *)
| ClientSet (client : option nat)            (* assigns it *)
| EtcdWatch (prefix : string) (rev : Z) (prevKV : bool)   (* starts a watch; 0: from now *)
| WatchNext (with_ctx : bool)                (* receives from the watch *)
| ChanMake (cap : Z)
| ChanSend (ch : nat) (m : ChanMsg)          (* [select] on the send and [ctx.Done()] *)
| ChanTrySend (ch : nat) (m : ChanMsg)       (* the same with a [default] branch *)
| ChanPush (ch : nat) (m : ChanMsg)          (* a plain send *)
| ChanRecv (ch : nat)                        (* [select] on a receive and [ctx.Done()] *)
| ChanTake (ch : nat)                        (* a plain receive *)
| ChanClose (ch : nat)
| CtxWithCancel                              (* [context.WithCancel(ctx)] *)
| CtxWithTimeout (d : Z)                     (* [context.WithTimeout(ctx, d)] *)
| CtxCancel (c : nat)                        (* the cancel function of either *)
| CtxWait (c : nat)                          (* [<-c.Done()] *)
| Go (g : go_stmt)
| Sleep (d : Z)
| TickerNext (d : Z)                         (* receives from a [time.Ticker] *)
| Log (level msg : string)                   (* [lw.logger.Info], [lw.logger.Error] *)
| Metric (m : metric_op)
| MetricRegister (name : string)             (* [prometheus.Register] *)
| Os (o : os).

Definition resp (e : ext) : Type :=
  match e with
  | EtcdPut _ _ | EtcdDelete _ | EtcdDeletePrefix _ => result unit
  | EtcdGet _ | EtcdGetPrefix _ => result GetResponse
  | RandInt63 | RandIntn _ => Z
  | CtxErr | CtxOrTimer _ => option error
  | HttpDo _ _ _ => result (Z * string)
  | ImagePull _ | ImageCopy _ | ContainerStart _ | ContainerRemove _ => result unit
  | ContainerCreate _ _ _ => result string
  | ContainerList _ => result (list ContainerSummary)
  | ContainerInspect _ => InspectResult
  | EtcdConnect _ _ => result nat
  | EtcdClose _ => result unit
  | ClientSet _ | EtcdWatch _ _ _ | ChanPush _ _ | ChanClose _ | Sleep _ => unit
  | ClientGet => option nat
  | WatchNext _ => receiving WatchResponse
  | ChanSend _ _ | ChanTrySend _ _ => sending
  | ChanRecv _ => receiving ChanMsg
  | ChanTake _ => option ChanMsg                (* [None]: closed *)
  | ChanMake _ | CtxWithCancel | CtxWithTimeout _ => nat
  | CtxCancel _ | CtxWait _ | Go _ | Log _ _ | Metric _ | TickerNext _ => unit
  | MetricRegister _ => result unit
  | Os o => os_resp o
  end.

(** ** Programs *)

(** A [sync.RWMutex] by its identity, and how it is held. *)
Inductive mode := Reader | Writer.

#[export] Instance mode_eq_dec : EqDecision mode.
Proof. solve_decision. Defined.

(** Exits that do not return to the caller: [log.Fatalf] and [os.Exit] end the process,
    [panic] unwinds the goroutine and then ends the process, [runtime.Goexit] (by which
    [t.Fatalf] stops a test) unwinds and ends the goroutine, [Blocked] is [select {}], and
    [NoFuel] marks a loop cut off by its bound. *)
Inductive halt :=
| Fatal (msg : string)
| Exit (code : Z)
| Panic (msg : string)
| Goexit
| Blocked
| NoFuel.

Inductive prog (A : Type) : Type :=
| Ret (a : A)
| Call (e : ext) (k : resp e -> prog A)
| Lock (m : nat) (md : mode) (k : prog A)
| Unlock (m : nat) (md : mode) (k : prog A)
| Halt (h : halt).
Arguments Ret {A} a.
Arguments Call {A} e k.
Arguments Lock {A} m md k.
Arguments Unlock {A} m md k.
Arguments Halt {A} h.

Fixpoint prog_bind {A B} (f : A -> prog B) (p : prog A) : prog B :=
  match p with
  | Ret a => f a
  | Call e k => Call e (fun r => prog_bind f (k r))
  | Lock m md k => Lock m md (prog_bind f k)
  | Unlock m md k => Unlock m md (prog_bind f k)
  | Halt h => Halt h
  end.

#[export] Instance prog_mret : MRet prog := @Ret.
#[export] Instance prog_mbind : MBind prog := @prog_bind.

(** One external call. *)
Definition call (e : ext) : prog (resp e) := Call e Ret.

(** [mu.Lock(); defer mu.Unlock(); body]. *)
Definition locked {A} (m : nat) (md : mode) (body : prog A) : prog A :=
  Lock m md (a ← body; Unlock m md (Ret a)).

(** [defer d; body]: [d] runs when the body returns and when it is unwound. *)
Fixpoint deferred {A} (d : prog unit) (body : prog A) : prog A :=
  match body with
  | Ret a => prog_bind (fun _ => Ret a) d
  | Call e k => Call e (fun r => deferred d (k r))
  | Lock m md k => Lock m md (deferred d k)
  | Unlock m md k => Unlock m md (deferred d k)
  | Halt (Panic msg) => prog_bind (fun _ => Halt (Panic msg)) d
  | Halt Goexit => prog_bind (fun _ => Halt Goexit) d
  | Halt h => Halt h
  end.

(** ** Running a program against a world *)

Class World (W : Type) := handle : forall e : ext, W -> resp e * W.

Inductive outcome (A : Type) := Val (a : A) | Halted (h : halt).
Arguments Val {A} a.
Arguments Halted {A} h.

Section run.
Context `{World W}.

(** Sequential execution: locks are free, so taking one does not block. *)
Fixpoint run {A} (p : prog A) (w : W) : outcome A * W :=
  match p with
  | Ret a => (Val a, w)
  | Call e k => let '(r, w') := handle e w in run (k r) w'
  | Lock _ _ k | Unlock _ _ k => run k w
  | Halt h => (Halted h, w)
  end.

(** [p] run from [w] returns a value, which with the final world satisfies [Q]. *)
Definition twp {A} (p : prog A) (Q : A -> W -> Prop) (w : W) : Prop :=
  match run p w with
  | (Val a, w') => Q a w'
  | (Halted _, _) => False
  end.

(** The same, allowing the loop bound to be reached. *)
Definition wlp {A} (p : prog A) (Q : A -> W -> Prop) (w : W) : Prop :=
  match run p w with
  | (Val a, w') => Q a w'
  | (Halted NoFuel, _) => True
  | (Halted _, _) => False
  end.

Lemma run_bind {A B} (p : prog A) (f : A -> prog B) w :
  run (p ≫= f) w =
  match run p w with
  | (Val a, w') => run (f a) w'
  | (Halted h, w') => (Halted h, w')
  end.
Proof.
  unfold mbind, prog_mbind.
  revert w; induction p as [a|e k IH|m md k IH|m md k IH|h]; intros w; cbn; auto.
  destruct (handle e w). apply IH.
Qed.

Lemma twp_ret {A} (a : A) Q w : twp (Ret a) Q w <-> Q a w.
Proof. done. Qed.

Lemma twp_bind {A B} (p : prog A) (f : A -> prog B) Q w :
  twp (p ≫= f) Q w <-> twp p (fun a w' => twp (f a) Q w') w.
Proof.
  unfold twp. rewrite run_bind. by destruct (run p w) as [[a|h] w'].
Qed.

Lemma twp_call e Q w :
  twp (call e) Q w <-> Q (handle e w).1 (handle e w).2.
Proof. unfold twp, call. cbn. by destruct (handle e w). Qed.

Lemma twp_locked {A} m md (p : prog A) Q w : twp (locked m md p) Q w <-> twp p Q w.
Proof.
  unfold locked, twp at 1. cbn [run]. rewrite run_bind. unfold twp.
  by destruct (run p w) as [[a|h] w'].
Qed.

Lemma twp_mono {A} (p : prog A) (Q Q' : A -> W -> Prop) w :
  twp p Q w -> (forall a w', Q a w' -> Q' a w') -> twp p Q' w.
Proof. unfold twp. destruct (run p w) as [[a|h] w']; eauto. Qed.

Lemma twp_run {A} (p : prog A) Q w :
  twp p Q w <-> exists a w', run p w = (Val a, w') /\ Q a w'.
Proof.
  unfold twp. destruct (run p w) as [[a|h] w']; split; try naive_solver.
Qed.

Lemma wlp_bind {A B} (p : prog A) (f : A -> prog B) Q w :
  wlp (p ≫= f) Q w <-> wlp p (fun a w' => wlp (f a) Q w') w.
Proof.
  unfold wlp. rewrite run_bind. by destruct (run p w) as [[a|[]] w'].
Qed.

Lemma wlp_mono {A} (p : prog A) (Q Q' : A -> W -> Prop) w :
  wlp p Q w -> (forall a w', Q a w' -> Q' a w') -> wlp p Q' w.
Proof. unfold wlp. destruct (run p w) as [[a|[]] w']; eauto. Qed.
End run.

#[global] Arguments twp : simpl never.
#[global] Arguments wlp : simpl never.

(** ** Every behaviour of a program *)

(** Whatever the outside world answers: every call satisfies [P] and every value returned
    satisfies [Q]. *)
Fixpoint behaves {A} (P : ext -> Prop) (Q : A -> Prop) (p : prog A) : Prop :=
  match p with
  | Ret a => Q a
  | Call e k => P e /\ forall r, behaves P Q (k r)
  | Lock _ _ k | Unlock _ _ k => behaves P Q k
  | Halt _ => True
  end.

Lemma behaves_bind {A B} P (Q : A -> Prop) (R : B -> Prop) p f :
  behaves P Q p -> (forall a, Q a -> behaves P R (f a)) -> behaves P R (p ≫= f).
Proof.
  unfold mbind, prog_mbind. intros Hp Hf.
  induction p as [a|e k IH|m md k IH|m md k IH|h]; cbn in *; auto.
  destruct Hp as [He Hk]. eauto.
Qed.

Lemma behaves_mono {A} (P P' : ext -> Prop) (Q Q' : A -> Prop) p :
  behaves P Q p -> (forall e, P e -> P' e) -> (forall a, Q a -> Q' a) -> behaves P' Q' p.
Proof.
  intros Hp HP HQ. induction p as [a|e k IH|m md k IH|m md k IH|h]; cbn in *; auto.
  destruct Hp. eauto.
Qed.

Lemma behaves_call (P : ext -> Prop) e : P e -> behaves P (fun _ => True) (call e).
Proof. done. Qed.

Lemma behaves_locked {A} P (Q : A -> Prop) m md p :
  behaves P Q p -> behaves P Q (locked m md p).
Proof. intros Hp. cbn. by eapply behaves_bind. Qed.

Lemma behaves_deferred {A} P (Q : A -> Prop) d p :
  behaves P (fun _ => True) d -> behaves P Q p -> behaves P Q (deferred d p).
Proof.
  intros Hd Hp. assert (Hdef : forall q : prog A, behaves P Q q ->
    behaves P Q (prog_bind (fun _ => q) d)).
  { intros q Hq. by eapply (behaves_bind P (fun _ => True)). }
  induction p as [a|e k IH|m md k IH|m md k IH|h]; cbn [deferred behaves] in *; auto.
  - destruct Hp as [He Hk]. auto.
  - destruct h; auto; by apply Hdef.
Qed.

(** Whatever the outside world answers, the only exits are those of [H]. *)
Fixpoint stops {A} (H : halt -> Prop) (p : prog A) : Prop :=
  match p with
  | Ret _ => True
  | Call e k => forall r, stops H (k r)
  | Lock _ _ k | Unlock _ _ k => stops H k
  | Halt h => H h
  end.

Lemma stops_bind {A B} H (p : prog A) (f : A -> prog B) :
  stops H p -> (forall a, stops H (f a)) -> stops H (p ≫= f).
Proof.
  unfold mbind, prog_mbind. intros Hp Hf.
  induction p as [a|e k IH|m md k IH|m md k IH|h]; cbn in *; auto.
Qed.

Lemma stops_mono {A} (H H' : halt -> Prop) (p : prog A) :
  stops H p -> (forall h, H h -> H' h) -> stops H' p.
Proof. intros Hp HH. induction p as [a|e k IH|m md k IH|m md k IH|h]; cbn in *; auto. Qed.

Lemma stops_locked {A} H m md (p : prog A) : stops H p -> stops H (locked m md p).
Proof. intros Hp. cbn. by apply stops_bind. Qed.

Lemma stops_deferred {A} (H : halt -> Prop) d (p : prog A) :
  stops H d -> stops H p -> stops H (deferred d p).
Proof.
  intros Hd Hp. induction p as [a|e k IH|m md k IH|m md k IH|h]; cbn [deferred stops] in *; auto.
  - by apply (stops_bind H d (fun _ => Ret a)).
  - destruct h as [| |msg| | |]; try done;
      [by apply (stops_bind H d (fun _ => Halt (Panic msg)))
      |by apply (stops_bind H d (fun _ => Halt Goexit))].
Qed.

(** ** The bound of a loop *)

(** Answers by which the context is not done yet, or something to do has arrived. *)
Definition live (e : ext) : resp e -> bool :=
  match e with
  | CtxErr | CtxOrTimer _ => fun r => match r with None => true | Some _ => false end
  | ChanRecv _ => fun r => match r with Received _ => true | _ => false end
  | _ => fun _ => false
  end.

(** The bound of the model is met only directly after such an answer: as long as there is
    none, the program goes on to its end. *)
Fixpoint patient {A} (p : prog A) : Prop :=
  match p with
  | Ret _ => True
  | Call e k => forall r, (live e r = true /\ k r = Halt NoFuel) \/ patient (k r)
  | Lock _ _ k | Unlock _ _ k => patient k
  | Halt h => h <> NoFuel
  end.

Lemma patient_bind {A B} (p : prog A) (f : A -> prog B) :
  patient p -> (forall a, patient (f a)) -> patient (p ≫= f).
Proof.
  unfold mbind, prog_mbind. intros Hp Hf.
  induction p as [a|e k IH|m md k IH|m md k IH|h]; cbn in *; auto.
  intros r. destruct (Hp r) as [[Hl ->]|Hk]; [by left|right; auto].
Qed.

Lemma patient_deferred {A} d (p : prog A) : patient d -> patient p -> patient (deferred d p).
Proof.
  intros Hd Hp. induction p as [a|e k IH|m md k IH|m md k IH|h]; cbn [deferred patient] in *; auto.
  - by apply (patient_bind d (fun _ => Ret a)).
  - intros r. destruct (Hp r) as [[Hl ->]|Hk]; [by left|right; auto].
  - destruct h as [| |msg| | |]; try done;
      [by apply (patient_bind d (fun _ => Halt (Panic msg)))
      |by apply (patient_bind d (fun _ => Halt Goexit))].
Qed.

(** A call whose live answers may meet the bound. *)
Lemma patient_call e {A} (f : resp e -> prog A) :
  (forall r, (live e r = true /\ f r = Halt NoFuel) \/ patient (f r)) -> patient (call e ≫= f).
Proof. done. Qed.

(** A preorder on worlds that every allowed call respects is respected by the run. *)
Lemma behaves_run `{World W} {A} (R : relation W) `{!PreOrder R} P (Q : A -> Prop) p w :
  behaves P Q p -> (forall e w, P e -> R w (handle e w).2) ->
  R w (run p w).2 /\ (forall a, (run p w).1 = Val a -> Q a).
Proof.
  intros Hp HP. revert w; induction p as [a|e k IH|m md k IH|m md k IH|h]; intros w;
    cbn [behaves run] in *; [|..|done]; auto.
  - split; [done|]. by intros b [= <-].
  - destruct Hp as [He Hk]. specialize (HP e w He). destruct (handle e w) as [r w1].
    destruct (IH r (Hk r) w1) as [H1 H2]. split; [by etrans|done].
Qed.

(** A program step in a goal: split a sequence, open a lock scope. *)
Ltac prog_step :=
  first
    [ rewrite twp_bind | rewrite twp_locked
    | lazymatch goal with
      | |- twp (call ?e) _ _ => apply (proj2 (twp_call e _ _))
      end
    | rewrite wlp_bind | rewrite twp_ret ]; cbn beta.

(** ** What the code relies on of [math/rand] *)

(** The calls that only read or advance local state of the process. *)
Definition is_local (e : ext) : bool :=
  match e with
  | RandInt63 | RandIntn _ | CtxErr | CtxOrTimer _ => true
  | _ => false
  end.

(** [rng.rand] is a [*rand.Rand] private to package names: a deterministic generator
    whose state only [Int63] advances; [Int63] returns a non-negative 63-bit integer and
    [Intn(n)], for [n > 0], an integer of [[0,n)]. *)
Class RandLaws (W : Type) `{World W} := {
  rng_state : Type;
  rng : W -> rng_state;
  next63 : rng_state -> Z * rng_state;
  next63_range : forall s, 0 <= (next63 s).1 < 2 ^ 63;
  rand_int63 : forall w,
    (handle RandInt63 w).1 = (next63 (rng w)).1 /\
    rng (handle RandInt63 w).2 = (next63 (rng w)).2;
  rand_intn : forall n w, 0 < n -> 0 <= (handle (RandIntn n) w).1 < n;
  rng_frame : forall e w, e <> RandInt63 -> rng (handle e w).2 = rng w }.
