(* ===== verification/JsonText.v ===== *)
(** * JsonText: the text of JSON as package encoding/json writes and reads it

    The syntax tree of a JSON value, the writer ([json.Marshal]'s compact form, with its
    escapes, HTML-safe and safe for U+2028/2029, and the replacement of bytes that are not
    UTF-8) and the reader (the scanner of [json.Unmarshal]: white space, escapes with
    surrogate pairs, the number grammar, the nesting limit).  The reader is bounded by the
    length of its input, which is proved to be enough ([parse_total]); what the writer
    writes is read back ([parse_print]).  The repository reaches this through
    src/pkg/runtime/object.go. *)

From Stdlib Require Import Ascii ZifyN.
From S2P Require Import Prelude Errors.

Module JsonText.

(** ** Bytes and UTF-8 *)

Definition code (c : ascii) : N := N_of_ascii c.
Definition between (lo hi : N) (c : ascii) : bool := (lo <=? code c)%N && (code c <=? hi)%N.

Definition is_ascii (c : ascii) : bool := (code c <? 128)%N.
Definition cont : ascii -> bool := between 128 191.

(** The first two bytes of a three- or four-byte sequence: neither overlong nor a surrogate
    nor beyond U+10FFFF. *)
Definition lead3 (a b : ascii) : bool :=
  ((code a =? 224)%N && between 160 191 b) ||
  ((between 225 236 a || between 238 239 a) && cont b) ||
  ((code a =? 237)%N && between 128 159 b).
Definition lead4 (a b : ascii) : bool :=
  ((code a =? 240)%N && between 144 191 b) || (between 241 243 a && cont b) ||
  ((code a =? 244)%N && between 128 143 b).

(** What [utf8.DecodeRune] finds at the front: nothing, an ASCII byte, a longer sequence, or
    a byte that does not start one. *)
Inductive rune := REnd | RAscii (c : ascii) (rest : string)
| RMulti (chunk rest : string) | RBad (rest : string).

Definition next_rune (s : string) : rune :=
  match s with
  | EmptyString => REnd
  | String a s1 =>
      if is_ascii a then RAscii a s1 else
      match s1 with
      | String b s2 =>
          if between 194 223 a && cont b then RMulti (String a (String b "")) s2 else
          match s2 with
          | String c s3 =>
              if lead3 a b && cont c
              then RMulti (String a (String b (String c ""))) s3 else
              match s3 with
              | String d s4 =>
                  if lead4 a b && cont c && cont d
                  then RMulti (String a (String b (String c (String d "")))) s4
                  else RBad s1
              | EmptyString => RBad s1
              end
          | EmptyString => RBad s1
          end
      | EmptyString => RBad s1
      end
  end.

(** [utf8.AppendRune] of a code point below U+110000. *)
Definition byte (n : N) : ascii := ascii_of_N n.
Definition encode_rune (n : N) : string :=
  if (n <? 128)%N then String (byte n) ""
  else if (n <? 2048)%N
  then String (byte (192 + n / 64)) (String (byte (128 + n mod 64)) "")
  else if (n <? 65536)%N
  then String (byte (224 + n / 4096))
         (String (byte (128 + (n / 64) mod 64)) (String (byte (128 + n mod 64)) ""))
  else String (byte (240 + n / 262144))
         (String (byte (128 + (n / 4096) mod 64))
            (String (byte (128 + (n / 64) mod 64)) (String (byte (128 + n mod 64)) ""))).

(** U+FFFD, which replaces what is not UTF-8. *)
Definition replacement : string := encode_rune 65533.

(** [s] is valid UTF-8; [fuel] bounds the number of runes. *)
Fixpoint valid_runes (fuel : nat) (s : string) : bool :=
  match fuel, next_rune s with
  | _, REnd => true
  | S fuel, RAscii _ s | S fuel, RMulti _ s => valid_runes fuel s
  | _, _ => false
  end.
Definition utf8 (s : string) : bool := valid_runes (String.length s) s.

(** ** Writing strings *)

Definition dquote : ascii := "034".
Definition backslash : ascii := "092".

Definition hex_digit (n : N) : ascii :=
  if (n <? 10)%N then byte (48 + n) else byte (87 + n).

(** A byte below 128: the safe ones stand for themselves, the others are escaped. *)
Definition escape (c : ascii) : string :=
  let esc x := String backslash (String x "") in
  if Ascii.eqb c dquote || Ascii.eqb c backslash then esc c
  else if (code c =? 8)%N then esc "b"%char
  else if (code c =? 12)%N then esc "f"%char
  else if (code c =? 10)%N then esc "n"%char
  else if (code c =? 13)%N then esc "r"%char
  else if (code c =? 9)%N then esc "t"%char
  else if (code c <? 32)%N || Ascii.eqb c "<" || Ascii.eqb c ">" || Ascii.eqb c "&"
  then String backslash "u00" +:+
       String (hex_digit (code c / 16)) (String (hex_digit (code c mod 16)) "")
  else String c "".

(** U+2028 and U+2029, which are line ends in JavaScript, are written as escapes. *)
Definition line_separator : string := encode_rune 8232.
Definition paragraph_separator : string := encode_rune 8233.

Definition write_chunk (chunk : string) : string :=
  if bool_decide (chunk = line_separator) then String backslash "u2028"
  else if bool_decide (chunk = paragraph_separator) then String backslash "u2029"
  else chunk.

Fixpoint quote_runes (fuel : nat) (s : string) : string :=
  match fuel with
  | O => ""
  | S fuel =>
      match next_rune s with
      | REnd => ""
      | RAscii c s => escape c +:+ quote_runes fuel s
      | RMulti chunk s => write_chunk chunk +:+ quote_runes fuel s
      | RBad s => String backslash "ufffd" +:+ quote_runes fuel s
      end
  end.

(** A string value without its quotes, and with them. *)
Definition quoted (s : string) : string := quote_runes (String.length s) s.
Definition quote (s : string) : string := String dquote (quoted s +:+ String dquote "").

(** ** Reading strings *)

(** Outcomes of the readers: a value and the rest of the input, a syntax error, or the bound
    on the recursion was reached. *)
Inductive parsed (A : Type) := POk (a : A) (rest : string) | PErr | PFuel.
Arguments POk {A} a rest.
Arguments PErr {A}.
Arguments PFuel {A}.

(** The rest of a successful reading. *)
Definition pbind {A B} (r : parsed A) (f : A -> string -> parsed B) : parsed B :=
  match r with
  | POk a rest => f a rest
  | PErr => PErr
  | PFuel => PFuel
  end.

Definition hex_value (c : ascii) : option N :=
  if between 48 57 c then Some (code c - 48)%N
  else if between 97 102 c then Some (code c - 87)%N
  else if between 65 70 c then Some (code c - 55)%N
  else None.

Definition hex4 (s : string) : option (N * string) :=
  match s with
  | String a (String b (String c (String d rest))) =>
      match hex_value a, hex_value b, hex_value c, hex_value d with
      | Some a, Some b, Some c, Some d => Some (4096 * a + 256 * b + 16 * c + d, rest)%N
      | _, _, _, _ => None
      end
  | _ => None
  end.

(** [getu4]: the code unit of an escape "\uXXXX" at the front. *)
Definition unicode_escape (s : string) : option (N * string) :=
  match s with
  | String a (String b rest) =>
      if Ascii.eqb a backslash && Ascii.eqb b "u" then hex4 rest else None
  | _ => None
  end.

(** A character of a string literal: the closing quote, decoded text, or an error. *)
Inductive piece := Close (rest : string) | Text (t rest : string) | Wrong.

(** After "\u": a pair of surrogates is one rune, a lone one is replaced. *)
Definition unicode (s : string) : piece :=
  match hex4 s with
  | None => Wrong
  | Some (n, s) =>
      if (55296 <=? n)%N && (n <? 57344)%N then
        match unicode_escape s with
        | Some (n2, s2) =>
            if (n <? 56320)%N && (56320 <=? n2)%N && (n2 <? 57344)%N
            then Text (encode_rune ((n - 55296) * 1024 + (n2 - 56320) + 65536)) s2
            else Text replacement s
        | None => Text replacement s
        end
      else Text (encode_rune n) s
  end.

(** After a backslash. *)
Definition unescape (s : string) : piece :=
  match s with
  | EmptyString => Wrong
  | String e s =>
      if Ascii.eqb e dquote || Ascii.eqb e backslash || Ascii.eqb e "/" then Text (String e "") s
      else if Ascii.eqb e "b" then Text (String (byte 8) "") s
      else if Ascii.eqb e "f" then Text (String (byte 12) "") s
      else if Ascii.eqb e "n" then Text (String (byte 10) "") s
      else if Ascii.eqb e "r" then Text (String (byte 13) "") s
      else if Ascii.eqb e "t" then Text (String (byte 9) "") s
      else if Ascii.eqb e "u" then unicode s
      else Wrong
  end.

Definition unquote_step (s : string) : piece :=
  match next_rune s with
  | REnd => Wrong
  | RAscii c rest =>
      if Ascii.eqb c dquote then Close rest
      else if Ascii.eqb c backslash then unescape rest
      else if (code c <? 32)%N then Wrong
      else Text (String c "") rest
  | RMulti chunk rest => Text chunk rest
  | RBad rest => Text replacement rest
  end.

Fixpoint unquote (fuel : nat) (s : string) : parsed string :=
  match fuel with
  | O => PFuel
  | S fuel =>
      match unquote_step s with
      | Close rest => POk "" rest
      | Wrong => PErr
      | Text t rest =>
          pbind (unquote fuel rest) (fun u rest => POk (t +:+ u) rest)
      end
  end.
(** ** Numbers *)

Definition is_digit : ascii -> bool := between 48 57.

Fixpoint span_digits (s : string) : string * string :=
  match s with
  | String c s' =>
      if is_digit c then let '(ds, rest) := span_digits s' in (String c ds, rest) else ("", s)
  | EmptyString => ("", "")
  end.

(** One or more digits. *)
Definition lex_digits (s : string) : option (string * string) :=
  match span_digits s with
  | ("", _) => None
  | (ds, rest) => Some (ds, rest)
  end.

(** The integer part: no digit follows a leading zero. *)
Definition lex_int (s : string) : option (string * string) :=
  match s with
  | String c rest => if Ascii.eqb c "0" then Some ("0", rest) else lex_digits s
  | EmptyString => None
  end.

(** A part of the literal that may be missing, introduced by a character. *)
Definition lex_fraction (s : string) : option (string * string) :=
  match s with
  | String c rest =>
      if Ascii.eqb c "." then
        match lex_digits rest with Some (ds, rest) => Some (String c ds, rest) | None => None end
      else Some ("", s)
  | EmptyString => Some ("", "")
  end.

Definition lex_exponent (s : string) : option (string * string) :=
  match s with
  | String c rest =>
      if Ascii.eqb c "e" || Ascii.eqb c "E" then
        let '(sign, rest) :=
          match rest with
          | String d rest' =>
              if Ascii.eqb d "+" || Ascii.eqb d "-" then (String d "", rest') else ("", rest)
          | EmptyString => ("", "")
          end in
        match lex_digits rest with
        | Some (ds, rest) => Some (String c (sign +:+ ds), rest)
        | None => None
        end
      else Some ("", s)
  | EmptyString => Some ("", "")
  end.

(** The literal of a number, as text, and the rest of the input. *)
Definition lex_number (s : string) : option (string * string) :=
  let '(sign, s) :=
    match s with
    | String c rest => if Ascii.eqb c "-" then ("-", rest) else ("", s)
    | EmptyString => ("", "")
    end in
  match lex_int s with
  | None => None
  | Some (i, s) =>
      match lex_fraction s with
      | None => None
      | Some (f, s) =>
          match lex_exponent s with
          | None => None
          | Some (e, s) => Some (sign +:+ i +:+ f +:+ e, s)
          end
      end
  end.

(** ** Values *)

#[local] Unset Elimination Schemes.

(** Numbers and strings are kept as their literals (a string without its quotes): what they
    are depends on the type they are read into. *)
Inductive json :=
| JNull
| JBool (b : bool)
| JNumber (literal : string)
| JString (literal : string)
| JArray (l : list json)
| JObject (kvs : list (string * json)).

#[local] Set Elimination Schemes.

(** The induction principle with the hypotheses for the elements. *)
Fixpoint json_ind' (P : json -> Prop)
    (Hnull : P JNull) (Hbool : forall b, P (JBool b)) (Hnum : forall n, P (JNumber n))
    (Hstr : forall s, P (JString s)) (Harr : forall l, Forall P l -> P (JArray l))
    (Hobj : forall kvs, Forall (fun kv => P kv.2) kvs -> P (JObject kvs)) (j : json) : P j :=
  let rec := json_ind' P Hnull Hbool Hnum Hstr Harr Hobj in
  match j with
  | JNull => Hnull
  | JBool b => Hbool b
  | JNumber n => Hnum n
  | JString s => Hstr s
  | JArray l =>
      Harr l ((fix go (l : list json) : Forall P l := match l with
               | [] => Forall_nil_2 _
               | x :: l => Forall_cons_2 _ x l (rec x) (go l)
               end) l)
  | JObject kvs =>
      Hobj kvs ((fix go (kvs : list (string * json)) : Forall (fun kv => P kv.2) kvs :=
                 match kvs with
                 | [] => Forall_nil_2 _
                 | kv :: kvs => Forall_cons_2 _ kv kvs (rec kv.2) (go kvs)
                 end) kvs)
  end.

(** ** Writing *)

(** Elements with commas between them. *)
Fixpoint comma_sep (l : list string) : string :=
  match l with
  | [] => ""
  | [x] => x
  | x :: l => x +:+ String "," (comma_sep l)
  end.

Fixpoint print (j : json) : string :=
  match j with
  | JNull => "null"
  | JBool true => "true"
  | JBool false => "false"
  | JNumber n => n
  | JString l => String dquote (l +:+ String dquote "")
  | JArray l => String "[" (comma_sep (print <$> l) +:+ "]")
  | JObject kvs =>
      String "{" (comma_sep ((fun kv => quote kv.1 +:+ String ":" (print kv.2)) <$> kvs) +:+ "}")
  end.

(** ** Reading *)

Definition is_space (c : ascii) : bool :=
  Ascii.eqb c " " || (code c =? 9)%N || (code c =? 10)%N || (code c =? 13)%N.

Fixpoint skip_space (s : string) : string :=
  match s with
  | String c s' => if is_space c then skip_space s' else s
  | EmptyString => ""
  end.

(** [maxNestingDepth] of the scanner. *)
Definition maxNestingDepth : Z := 10000.

(** The text [t] at the front of [s]. *)
Fixpoint strip (t s : string) : option string :=
  match t, s with
  | EmptyString, _ => Some s
  | String a t, String b s => if Ascii.eqb a b then strip t s else None
  | _, _ => None
  end.

Definition literal (t : string) (j : json) (s : string) : parsed json :=
  match strip t s with Some rest => POk j rest | None => PErr end.

(** A string literal whose opening quote has been read. *)
Definition parse_string (s : string) : parsed string := unquote (S (String.length s)) s.

(** The character [c] after white space. *)
Definition take_char (c : ascii) (s : string) : option string :=
  match skip_space s with
  | String d rest => if Ascii.eqb c d then Some rest else None
  | EmptyString => None
  end.

(** A value that is neither an array nor an object. *)
Definition parse_scalar (c : ascii) (rest : string) : parsed json :=
  if Ascii.eqb c dquote then
    pbind (parse_string rest) (fun _ rest' =>
      POk (JString (str_take (String.length rest - S (String.length rest')) rest)) rest')
  else if Ascii.eqb c "n" then literal "null" JNull (String c rest)
  else if Ascii.eqb c "t" then literal "true" (JBool true) (String c rest)
  else if Ascii.eqb c "f" then literal "false" (JBool false) (String c rest)
  else match lex_number (String c rest) with
       | Some (n, rest) => POk (JNumber n) rest
       | None => PErr
       end.

(** The key of a member and its colon. *)
Definition parse_key (s : string) : parsed string :=
  match take_char dquote s with
  | None => PErr
  | Some rest =>
      pbind (parse_string rest) (fun k rest =>
        match take_char ":" rest with Some rest => POk k rest | None => PErr end)
  end.

(** [parse_value] reads a value; [parse_elements] the elements of an array after its
    bracket or a comma; [parse_members] the members of an object likewise. *)
Fixpoint parse_value (fuel : nat) (depth : Z) (s : string) {struct fuel} : parsed json :=
  match fuel with
  | O => PFuel
  | S fuel =>
      match skip_space s with
      | EmptyString => PErr
      | String c rest =>
          if Ascii.eqb c "{" then
            if maxNestingDepth <=? depth then PErr else
            match take_char "}" rest with
            | Some rest => POk (JObject []) rest
            | None =>
                pbind (parse_members fuel (depth + 1) rest) (fun kvs rest =>
                  POk (JObject kvs) rest)
            end
          else if Ascii.eqb c "[" then
            if maxNestingDepth <=? depth then PErr else
            match take_char "]" rest with
            | Some rest => POk (JArray []) rest
            | None =>
                pbind (parse_elements fuel (depth + 1) rest) (fun l rest => POk (JArray l) rest)
            end
          else parse_scalar c rest
      end
  end
with parse_elements (fuel : nat) (depth : Z) (s : string) {struct fuel} : parsed (list json) :=
  match fuel with
  | O => PFuel
  | S fuel =>
      pbind (parse_value fuel depth s) (fun j rest =>
        match take_char "]" rest with
        | Some rest => POk [j] rest
        | None =>
            match take_char "," rest with
            | Some rest =>
                pbind (parse_elements fuel depth rest) (fun l rest => POk (j :: l) rest)
            | None => PErr
            end
        end)
  end
with parse_members (fuel : nat) (depth : Z) (s : string) {struct fuel}
  : parsed (list (string * json)) :=
  match fuel with
  | O => PFuel
  | S fuel =>
      pbind (parse_key s) (fun k rest =>
        pbind (parse_value fuel depth rest) (fun j rest =>
          match take_char "}" rest with
          | Some rest => POk [(k, j)] rest
          | None =>
              match take_char "," rest with
              | Some rest =>
                  pbind (parse_members fuel depth rest) (fun kvs rest => POk ((k, j) :: kvs) rest)
              | None => PErr
              end
          end))
  end.

(** A whole text: one value, then nothing but white space.  The bound is twice the length
    of the text: a value and the list it is in each take one unit per character. *)
Definition parse (s : string) : parsed json :=
  pbind (parse_value (2 * String.length s + 1) 0 s) (fun j rest =>
    match skip_space rest with EmptyString => POk j "" | _ => PErr end).
(** ** The bound is enough *)

#[local] Abbreviation len := String.length.

(** The reading ended, with less than [n] bytes left if it succeeded. *)
Definition fits {A} (n : nat) (r : parsed A) : Prop :=
  match r with
  | POk _ rest => (len rest < n)%nat
  | PErr => True
  | PFuel => False
  end.

Lemma fits_bind {A B} n k (r : parsed A) (f : A -> string -> parsed B) :
  fits n r -> (forall a rest, (len rest < n)%nat -> fits k (f a rest)) -> fits k (pbind r f).
Proof. destruct r; cbn; auto. Qed.

Lemma fits_mono {A} n k (r : parsed A) : fits n r -> (n <= k)%nat -> fits k r.
Proof. destruct r; cbn; auto. lia. Qed.

Lemma skip_space_len s : (len (skip_space s) <= len s)%nat.
Proof. induction s as [|c s IH]; cbn; [done|]. destruct (is_space c); cbn; lia. Qed.

Lemma take_char_len c s rest : take_char c s = Some rest -> (len rest < len s)%nat.
Proof.
  unfold take_char. pose proof (skip_space_len s). destruct (skip_space s) as [|d r]; [done|].
  destruct (Ascii.eqb c d); [|done]. intros [= <-]. cbn in *. lia.
Qed.

Lemma span_digits_len s : (len (span_digits s).2 <= len s)%nat.
Proof.
  induction s as [|c s IH]; cbn; [done|]. destruct (is_digit c); cbn; [|lia].
  destruct (span_digits s); cbn in *; lia.
Qed.

Lemma lex_digits_len s ds rest : lex_digits s = Some (ds, rest) -> (len rest < len s)%nat.
Proof.
  unfold lex_digits. destruct s as [|c s]; cbn; [done|]. destruct (is_digit c); [|done].
  pose proof (span_digits_len s). destruct (span_digits s). intros [= <- <-]. cbn in *. lia.
Qed.

Lemma lex_int_len s i rest : lex_int s = Some (i, rest) -> (len rest < len s)%nat.
Proof.
  destruct s as [|c s]; cbn [lex_int]; [done|]. destruct (Ascii.eqb c "0").
  - intros [= <- <-]. cbn. lia.
  - apply lex_digits_len.
Qed.

Lemma lex_fraction_len s f rest : lex_fraction s = Some (f, rest) -> (len rest <= len s)%nat.
Proof.
  destruct s as [|c s]; cbn [lex_fraction]; [by intros [= <- <-]|]. destruct (Ascii.eqb c ".").
  - destruct (lex_digits s) as [[ds r]|] eqn:Hd; [|done]. apply lex_digits_len in Hd.
    intros [= <- <-]. cbn. lia.
  - by intros [= <- <-].
Qed.

Lemma lex_exponent_len s f rest : lex_exponent s = Some (f, rest) -> (len rest <= len s)%nat.
Proof.
  destruct s as [|c s]; cbn [lex_exponent]; [by intros [= <- <-]|].
  destruct (Ascii.eqb c "e" || Ascii.eqb c "E"); [|by intros [= <- <-]].
  set (p := match s with EmptyString => _ | String _ _ => _ end).
  assert (Hp : (len p.2 <= len s)%nat).
  { subst p. destruct s as [|d s]; [done|]. destruct (_ || _); cbn; lia. }
  destruct p as [sg s']. cbn in Hp.
  destruct (lex_digits s') as [[ds r]|] eqn:Hd; [|done]. apply lex_digits_len in Hd.
  intros [= <- <-]. cbn. lia.
Qed.

Lemma lex_number_len s n rest : lex_number s = Some (n, rest) -> (len rest < len s)%nat.
Proof.
  unfold lex_number.
  set (p := match s with EmptyString => _ | String _ _ => _ end).
  assert (Hp : (len p.2 <= len s)%nat).
  { subst p. destruct s as [|d s]; [done|]. destruct (Ascii.eqb _ _); cbn; lia. }
  destruct p as [sg s1]. cbn in Hp.
  destruct (lex_int s1) as [[i s2]|] eqn:H1; [|done].
  destruct (lex_fraction s2) as [[f s3]|] eqn:H2; [|done].
  destruct (lex_exponent s3) as [[e s4]|] eqn:H3; [|done]. intros [= _ <-].
  apply lex_int_len in H1. apply lex_fraction_len in H2. apply lex_exponent_len in H3. lia.
Qed.

(** How much of the input a rune takes. *)
Lemma next_rune_len s :
  match next_rune s with
  | REnd => s = ""
  | RAscii c r => s = String c r /\ is_ascii c = true
  | RMulti ch r => s = ch +:+ r /\ (2 <= len ch)%nat
  | RBad r => exists a, s = String a r
  end.
Proof.
  destruct s as [|a s1]; cbn; [done|]. destruct (is_ascii a) eqn:Ha; [done|].
  destruct s1 as [|b s2]; [by eexists|]. destruct (_ && _).
  { split; [done|cbn; lia]. }
  destruct s2 as [|c s3]; [by eexists|]. destruct (_ && _).
  { split; [done|cbn; lia]. }
  destruct s3 as [|d s4]; [by eexists|]. destruct (_ && _); [|by eexists].
  split; [done|cbn; lia].
Qed.

Lemma hex4_len s n rest : hex4 s = Some (n, rest) -> (len rest < len s)%nat.
Proof.
  unfold hex4. destruct s as [|a [|b [|c [|d s]]]]; try done.
  destruct (hex_value a), (hex_value b), (hex_value c), (hex_value d); try done.
  intros [= _ <-]. cbn. lia.
Qed.

Lemma unicode_escape_len s n rest : unicode_escape s = Some (n, rest) -> (len rest < len s)%nat.
Proof.
  unfold unicode_escape. destruct s as [|a [|b s]]; try done. destruct (_ && _); [|done].
  intros H%hex4_len. cbn. lia.
Qed.

Lemma unicode_len s t rest : unicode s = Text t rest -> (len rest < len s)%nat.
Proof.
  unfold unicode. destruct (hex4 s) as [[n s1]|] eqn:H1; [|done]. apply hex4_len in H1.
  destruct (_ && _); [|by intros [= _ <-]].
  destruct (unicode_escape s1) as [[n2 s2]|] eqn:H2; [|by intros [= _ <-]].
  apply unicode_escape_len in H2. destruct (_ && _); intros [= _ <-]; lia.
Qed.

Lemma unescape_len s :
  match unescape s with
  | Text _ rest => (len rest < len s)%nat
  | Close _ => False
  | Wrong => True
  end.
Proof.
  destruct s as [|e s]; cbn [unescape]; [done|].
  destruct (_ || _); [cbn; lia|]. repeat (destruct (Ascii.eqb e _); [cbn [len]; lia || idtac|]); [|done].
  pose proof (unicode_len s) as Hu. destruct (unicode s) eqn:Hs; [| |done].
  - unfold unicode in Hs. by repeat case_match.
  - specialize (Hu _ _ eq_refl). cbn. lia.
Qed.

Lemma unquote_step_len s :
  match unquote_step s with
  | Close rest | Text _ rest => (len rest < len s)%nat
  | Wrong => True
  end.
Proof.
  unfold unquote_step. pose proof (next_rune_len s) as Hr.
  destruct (next_rune s) as [|c r|ch r|r]; [done|destruct Hr as [-> _]|destruct Hr as [-> ?]|].
  - destruct (Ascii.eqb c dquote); [cbn; lia|]. destruct (Ascii.eqb c backslash).
    + pose proof (unescape_len r). destruct (unescape r); cbn; [done|lia|done].
    + destruct (_ <? _)%N; cbn; [done|lia].
  - rewrite str_app_length. lia.
  - destruct Hr as [a ->]. cbn. lia.
Qed.

Lemma unquote_fits fuel s : (len s < fuel)%nat -> fits (len s) (unquote fuel s).
Proof.
  revert s; induction fuel as [|fuel IH]; intros s Hs; [lia|]. cbn [unquote].
  pose proof (unquote_step_len s) as Hl. destruct (unquote_step s) as [rest|t rest|]; [done| |done].
  eapply fits_bind; [apply (IH rest); lia|]. intros u r Hr. cbn. lia.
Qed.

Lemma parse_string_fits s : fits (len s) (parse_string s).
Proof. apply unquote_fits. lia. Qed.

Lemma strip_len t s rest : strip t s = Some rest -> (len rest <= len s)%nat.
Proof.
  revert s; induction t as [|a t IH]; intros s; cbn; [by intros [= <-]|].
  destruct s as [|b s]; [done|]. destruct (Ascii.eqb a b); [|done]. intros ?%IH. cbn. lia.
Qed.

Lemma literal_fits a t j s : fits (len s) (literal (String a t) j s).
Proof.
  unfold literal. destruct (strip (String a t) s) as [r|] eqn:Hr; [|done]. cbn in *.
  destruct s as [|b s]; [done|]. destruct (Ascii.eqb a b); [|done].
  apply strip_len in Hr. cbn. lia.
Qed.

Lemma parse_scalar_fits c s : fits (S (len s)) (parse_scalar c s).
Proof.
  unfold parse_scalar. destruct (Ascii.eqb c dquote).
  { eapply fits_bind; [apply parse_string_fits|]. intros t r Hr. cbn. lia. }
  repeat (destruct (Ascii.eqb c _); [apply (literal_fits _ _ _ (String c s))|]).
  destruct (lex_number (String c s)) as [[n r]|] eqn:Hn; [|done].
  by apply lex_number_len in Hn.
Qed.

Lemma parse_key_fits s : fits (len s) (parse_key s).
Proof.
  unfold parse_key. destruct (take_char dquote s) as [r|] eqn:Hr; [|done].
  apply take_char_len in Hr. eapply fits_bind; [apply parse_string_fits|].
  intros k r2 Hr2. destruct (take_char ":" r2) as [r3|] eqn:Hr3; [|done].
  apply take_char_len in Hr3. cbn. lia.
Qed.

Lemma parse_fits fuel :
  (forall d s, (2 * len s < fuel)%nat -> fits (len s) (parse_value fuel d s)) /\
  (forall d s, (2 * len s + 1 < fuel)%nat -> fits (len s) (parse_elements fuel d s)) /\
  (forall d s, (2 * len s + 1 < fuel)%nat -> fits (len s) (parse_members fuel d s)).
Proof.
  induction fuel as [|fuel (IHv & IHe & IHm)]; [split; [|split]; intros; lia|].
  split; [|split]; intros d s Hs.
  - cbn [parse_value]. pose proof (skip_space_len s) as Hk.
    destruct (skip_space s) as [|c r]; [done|]. cbn [len] in Hk.
    assert (Hlim : forall p : parsed json, fits (len s) p ->
      fits (len s) (if maxNestingDepth <=? d then PErr else p)) by (intros; by case_match).
    destruct (Ascii.eqb c "{"); [|destruct (Ascii.eqb c "[")].
    + apply Hlim. destruct (take_char "}" r) as [r2|] eqn:Hr2.
      { apply take_char_len in Hr2. cbn. lia. }
      eapply fits_bind; [apply IHm; lia|]. intros kvs r3 Hr3. cbn. lia.
    + apply Hlim. destruct (take_char "]" r) as [r2|] eqn:Hr2.
      { apply take_char_len in Hr2. cbn. lia. }
      eapply fits_bind; [apply IHe; lia|]. intros l r3 Hr3. cbn. lia.
    + eapply fits_mono; [apply parse_scalar_fits|lia].
  - cbn [parse_elements]. eapply fits_bind; [apply IHv; lia|]. intros j r Hr.
    destruct (take_char "]" r) as [r2|] eqn:Hr2.
    { apply take_char_len in Hr2. cbn. lia. }
    destruct (take_char "," r) as [r3|] eqn:Hr3; [|done]. apply take_char_len in Hr3.
    eapply fits_bind; [apply IHe; lia|]. intros l r4 Hr4. cbn. lia.
  - cbn [parse_members]. eapply fits_bind; [apply parse_key_fits|]. intros k r0 Hr0.
    eapply fits_bind; [apply IHv; lia|]. intros j r Hr.
    destruct (take_char "}" r) as [r2|] eqn:Hr2.
    { apply take_char_len in Hr2. cbn. lia. }
    destruct (take_char "," r) as [r3|] eqn:Hr3; [|done]. apply take_char_len in Hr3.
    eapply fits_bind; [apply IHm; lia|]. intros l r4 Hr4. cbn. lia.
Qed.

(** The reader always ends: with a value or with a syntax error. *)
Lemma parse_total s : parse s <> PFuel.
Proof.
  unfold parse. destruct (parse_fits (2 * len s + 1)) as (Hv & _ & _).
  specialize (Hv 0 s ltac:(lia)). destruct (parse_value _ 0 s) as [j r| |]; [|done|done].
  cbn. by destruct (skip_space r).
Qed.

(** A value read is the whole input. *)
Lemma parse_rest s j r : parse s = POk j r -> r = "".
Proof.
  unfold parse. destruct (parse_value _ 0 s) as [j' r'| |]; cbn [pbind]; [|done|done].
  destruct (skip_space r'); [|done]. by intros [= _ <-].
Qed.
(** ** What is written is read back *)

(** *** Strings *)

Lemma escape_read c X :
  is_ascii c = true -> unquote_step (escape c +:+ X) = Text (String c "") X.
Proof. destruct c as [[] [] [] [] [] [] [] []]; intros H; try discriminate H; reflexivity. Qed.

(** A sequence is recognised whatever follows it. *)
Lemma next_rune_multi s ch r X :
  next_rune s = RMulti ch r -> next_rune (ch +:+ X) = RMulti ch X.
Proof.
  destruct s as [|a s1]; cbn [next_rune]; [done|]. destruct (is_ascii a) eqn:Ha; [done|].
  destruct s1 as [|b s2]; [done|]. destruct (between 194 223 a && cont b) eqn:H2.
  { intros [= <- _]. rewrite !str_app_cons, str_app_nil_l. cbn [next_rune]. by rewrite Ha, H2. }
  destruct s2 as [|c s3]; [done|]. destruct (lead3 a b && cont c) eqn:H3.
  { intros [= <- _]. rewrite !str_app_cons, str_app_nil_l. cbn [next_rune]. by rewrite Ha, H2, H3. }
  destruct s3 as [|d s4]; [done|]. destruct (lead4 a b && cont c && cont d) eqn:H4; [|done].
  intros [= <- _]. rewrite !str_app_cons, str_app_nil_l. cbn [next_rune]. by rewrite Ha, H2, H3, H4.
Qed.

Lemma write_chunk_read s ch r X :
  next_rune s = RMulti ch r -> unquote_step (write_chunk ch +:+ X) = Text ch X.
Proof.
  intros Hr. unfold write_chunk. case_bool_decide as H1; [by subst ch|].
  case_bool_decide as H2; [by subst ch|]. unfold unquote_step.
  by rewrite (next_rune_multi _ _ _ X Hr).
Qed.

Lemma unquote_quote_runes n s fuel rest :
  valid_runes n s = true -> (n < fuel)%nat ->
  unquote fuel (quote_runes n s +:+ String dquote rest) = POk s rest.
Proof.
  revert s fuel; induction n as [|n IH]; intros s fuel Hv Hf.
  { pose proof (next_rune_len s) as Hr. cbn in Hv. destruct (next_rune s); try done.
    subst s. by destruct fuel; [lia|]. }
  destruct fuel as [|fuel]; [lia|]. cbn [valid_runes quote_runes] in *.
  pose proof (next_rune_len s) as Hr. destruct (next_rune s) as [|c r|ch r|r] eqn:Hs; [| | |done].
  - by subst s.
  - destruct Hr as [-> Hc]. rewrite str_app_assoc. cbn [unquote].
    rewrite escape_read by done. rewrite IH by (done || lia). done.
  - destruct Hr as [-> _]. rewrite str_app_assoc. cbn [unquote].
    rewrite (write_chunk_read _ _ _ _ Hs). rewrite IH by (done || lia). done.
Qed.

Lemma escape_len c : (1 <= len (escape c))%nat.
Proof. destruct c as [[] [] [] [] [] [] [] []]; vm_compute; lia. Qed.

Lemma write_chunk_len ch : (len ch <= len (write_chunk ch))%nat.
Proof.
  unfold write_chunk. case_bool_decide as H1; [subst; vm_compute; lia|].
  case_bool_decide; [subst; vm_compute; lia|lia].
Qed.

Lemma quote_runes_len n s :
  valid_runes n s = true -> (len s <= len (quote_runes n s))%nat.
Proof.
  revert s; induction n as [|n IH]; intros s Hv; cbn [valid_runes quote_runes] in *;
    pose proof (next_rune_len s) as Hr; destruct (next_rune s) as [|c r|ch r|r]; try done;
    try (subst s; done).
  - destruct Hr as [-> _]. pose proof (escape_len c). rewrite str_app_length. cbn.
    specialize (IH r Hv). lia.
  - destruct Hr as [-> _]. pose proof (write_chunk_len ch). rewrite !str_app_length.
    specialize (IH r Hv). lia.
Qed.

Lemma parse_string_quoted s rest :
  utf8 s = true -> parse_string (quoted s +:+ String dquote rest) = POk s rest.
Proof.
  intros Hs. apply unquote_quote_runes; [done|]. rewrite str_app_length.
  pose proof (quote_runes_len _ _ Hs). unfold quoted. lia.
Qed.

(** The text consumed by a string literal. *)
Lemma str_take_literal l rest :
  str_take (len (l +:+ String dquote rest) - S (len rest)) (l +:+ String dquote rest) = l.
Proof.
  rewrite str_app_length. cbn [len].
  replace (len l + S (len rest) - S (len rest))%nat with (len l) by lia.
  rewrite str_take_app by lia. by rewrite Nat.sub_diag, str_app_nil_r.
Qed.

(** The value of a string literal ([unquote] of package json). *)
Definition string_value (l : string) : option string :=
  match parse_string (l +:+ String dquote "") with
  | POk s "" => Some s
  | _ => None
  end.

Lemma string_value_quoted s : utf8 s = true -> string_value (quoted s) = Some s.
Proof. intros Hs. unfold string_value. by rewrite parse_string_quoted. Qed.

(** *** Values *)

(** The text after a value: nothing, or a character that ends a number. *)
Definition delimited (s : string) : Prop :=
  s = "" \/ exists c t, s = String c t /\ (c = "," \/ c = "]" \/ c = "}")%char.

(** The literal of a number: read as such, and recognised by its first character. *)
Definition number_ok (n : string) : Prop :=
  (exists c t, n = String c t /\ (is_digit c = true \/ c = "-"%char)) /\
  forall rest, delimited rest -> lex_number (n +:+ rest) = Some (n, rest).

(** The values that survive: string literals are written ones, keys are UTF-8, literals are numbers, and the
    nesting is at most [h]. *)
Fixpoint printable (h : Z) (j : json) : Prop :=
  match j with
  | JNull | JBool _ => True
  | JNumber n => number_ok n
  | JString l => exists s, utf8 s = true /\ l = quoted s
  | JArray l => 0 < h /\ foldr (fun x P => printable (h - 1) x /\ P) True l
  | JObject kvs =>
      0 < h /\
      foldr (fun kv P => (utf8 kv.1 = true /\ printable (h - 1) kv.2) /\ P) True kvs
  end.

Lemma foldr_Forall {X} (P : X -> Prop) l : foldr (fun x Q => P x /\ Q) True l <-> Forall P l.
Proof.
  induction l as [|x l IH]; cbn; [by split|]. rewrite IH. split.
  - intros [? ?]. by constructor.
  - by inversion 1.
Qed.

(** The first character of a value is no white space and no closing bracket. *)
Lemma print_head h j :
  printable h j ->
  exists c t, print j = String c t /\ is_space c = false /\
    Ascii.eqb "]" c = false /\ Ascii.eqb "}" c = false.
Proof.
  destruct j as [|[]|n|s|l|kvs]; cbn; try (by intros; eexists _, _).
  intros [(c & t & -> & Hc) _]. exists c, t. split; [done|].
  assert (is_digit c || Ascii.eqb c "-" = true) as H.
  { destruct Hc as [-> | ->]; [done|by destruct (is_digit _)]. }
  clear -H. destruct c as [[] [] [] [] [] [] [] []]; try discriminate H; done.
Qed.

Lemma skip_space_no c t : is_space c = false -> skip_space (String c t) = String c t.
Proof. cbn. by intros ->. Qed.

Lemma take_char_hit c rest : is_space c = false -> take_char c (String c rest) = Some rest.
Proof. unfold take_char. intros Hc. by rewrite skip_space_no, Ascii.eqb_refl. Qed.

Lemma take_char_miss c d t :
  is_space d = false -> Ascii.eqb c d = false -> take_char c (String d t) = None.
Proof. unfold take_char. intros Hd Hc. by rewrite skip_space_no, Hc. Qed.

Lemma delimited_char c t : (c = "," \/ c = "]" \/ c = "}")%char -> delimited (String c t).
Proof. intros Hc. right. eauto. Qed.

(** The elements of an array and the members of an object, given the round trip of the
    values in them. *)
Definition reads_back (h : Z) (j : json) : Prop :=
  forall fuel depth rest, printable h j -> depth + h <= maxNestingDepth ->
    (2 * len (print j) < fuel)%nat -> delimited rest ->
    parse_value fuel depth (print j +:+ rest) = POk j rest.

Lemma elements_read_back h l fuel depth rest :
  Forall (reads_back h) l -> Forall (printable h) l -> l <> [] ->
  depth + h <= maxNestingDepth ->
  (2 * len (comma_sep (print <$> l)) + 1 < fuel)%nat ->
  parse_elements fuel depth (comma_sep (print <$> l) +:+ String "]" rest) = POk l rest.
Proof.
  intros Hl Hp Hne Hd. revert fuel. induction Hl as [|x l Hx Hl IH]; intros fuel Hf; [done|].
  apply Forall_cons in Hp as [Hpx Hp]. destruct fuel as [|fuel]; [lia|].
  cbn [parse_elements]. destruct l as [|y l].
  - cbn [fmap list_fmap comma_sep] in *.
    rewrite Hx by (done || lia || (apply delimited_char; eauto)). cbn [pbind].
    by rewrite take_char_hit.
  - change (comma_sep (print <$> x :: y :: l)) with
      (print x +:+ String "," (comma_sep (print <$> y :: l))) in *.
    rewrite str_app_length in Hf. cbn [len] in Hf.
    rewrite str_app_assoc, str_app_cons.
    rewrite Hx by (done || lia || (apply delimited_char; eauto)). cbn [pbind].
    rewrite take_char_miss, take_char_hit by done.
    rewrite IH by (done || lia). done.
Qed.

(** A member as written. *)
Definition member (kv : string * json) : string := quote kv.1 +:+ String ":" (print kv.2).

Lemma parse_key_member k X :
  utf8 k = true -> parse_key (quote k +:+ String ":" X) = POk k X.
Proof.
  intros Hk. unfold parse_key, quote. rewrite str_app_cons, str_app_assoc.
  rewrite take_char_hit by done. rewrite str_app_cons, str_app_nil_l.
  rewrite parse_string_quoted by done. cbn [pbind]. by rewrite take_char_hit.
Qed.

Lemma members_read_back h kvs fuel depth rest :
  Forall (fun kv => reads_back h kv.2) kvs ->
  Forall (fun kv => utf8 kv.1 = true /\ printable h kv.2) kvs -> kvs <> [] ->
  depth + h <= maxNestingDepth ->
  (2 * len (comma_sep (member <$> kvs)) + 1 < fuel)%nat ->
  parse_members fuel depth (comma_sep (member <$> kvs) +:+ String "}" rest) = POk kvs rest.
Proof.
  intros Hl Hp Hne Hd. revert fuel. induction Hl as [|x l Hx Hl IH]; intros fuel Hf; [done|].
  apply Forall_cons in Hp as [[Hk Hpx] Hp]. destruct fuel as [|fuel]; [lia|].
  cbn [parse_members]. destruct x as [k j]. cbn [fst snd] in *. destruct l as [|y l].
  - cbn [fmap list_fmap comma_sep] in *. unfold member in *. cbn [fst snd] in *.
    rewrite str_app_length in Hf. cbn [len] in Hf.
    rewrite str_app_assoc, str_app_cons, parse_key_member by done. cbn [pbind].
    rewrite Hx by (done || lia || (apply delimited_char; eauto)). cbn [pbind].
    by rewrite take_char_hit.
  - change (comma_sep (member <$> (k, j) :: y :: l)) with
      (member (k, j) +:+ String "," (comma_sep (member <$> y :: l))) in *.
    rewrite str_app_length in Hf. cbn [len] in Hf. unfold member at 1 in Hf.
    rewrite str_app_length in Hf. cbn [len fst snd] in Hf.
    rewrite str_app_assoc, str_app_cons. unfold member at 1. cbn [fst snd].
    rewrite str_app_assoc, str_app_cons, parse_key_member by done. cbn [pbind].
    rewrite Hx by (done || lia || (apply delimited_char; eauto)). cbn [pbind].
    rewrite take_char_miss, take_char_hit by done.
    rewrite IH by (done || lia). done.
Qed.
Lemma parse_value_scalar fuel depth c t :
  is_space c = false -> Ascii.eqb c "{" = false -> Ascii.eqb c "[" = false ->
  parse_value (S fuel) depth (String c t) = parse_scalar c t.
Proof. intros Hs H1 H2. cbn [parse_value]. by rewrite skip_space_no, H1, H2. Qed.

Lemma number_read_back h n : reads_back h (JNumber n).
Proof.
  intros [|fuel] depth rest Hp Hd Hf Hrest; [lia|].
  cbn [printable print] in *. destruct Hp as [(c & t & -> & Hc) Hlex].
  assert (H : is_digit c || Ascii.eqb c "-" = true).
  { destruct Hc as [-> | ->]; [done|by destruct (is_digit _)]. }
  assert (Hother : is_space c = false /\ forall x, x ∈ ["{"; "["; dquote; "n"; "t"; "f"]%char ->
            Ascii.eqb c x = false).
  { clear -H. split; [|intros x Hx; repeat (apply elem_of_cons in Hx as [->|Hx]); [..|by inversion Hx]];
      destruct c as [[] [] [] [] [] [] [] []]; try discriminate H; done. }
  destruct Hother as [Hs Hx]. rewrite str_app_cons.
  rewrite parse_value_scalar; [|done|apply Hx; by repeat constructor..].
  unfold parse_scalar. rewrite !Hx by (by repeat constructor).
  specialize (Hlex rest Hrest). rewrite str_app_cons in Hlex. by rewrite Hlex.
Qed.

(** Writing then reading: every value whose strings are UTF-8, whose numbers are
    literals and whose nesting is within the limit of the scanner is read back from its
    text, and the text after it is left over. *)
Lemma print_reads_back j h : reads_back h j.
Proof.
  revert h. induction j as [|b|n|s|l IH|kvs IH] using json_ind'; intros h.
  - intros [|fuel] depth rest _ _ Hf _; [lia|]. done.
  - intros [|fuel] depth rest _ _ Hf _; [lia|]. by destruct b.
  - apply number_read_back.
  - intros [|fuel] depth rest (s' & Hs & ->) _ Hf _; [lia|]. cbn [print] in *.
    rewrite str_app_cons, parse_value_scalar by done.
    rewrite str_app_assoc, str_app_cons, str_app_nil_l. unfold parse_scalar.
    rewrite Ascii.eqb_refl, parse_string_quoted by done. cbn [pbind].
    by rewrite str_take_literal.
  - intros [|fuel] depth rest Hp Hd Hf Hrest; [lia|]. cbn [printable print] in *.
    destruct Hp as [Hh Hp%foldr_Forall]. cbn [len] in Hf. rewrite str_app_length in Hf.
    rewrite str_app_cons, str_app_assoc, str_app_cons, str_app_nil_l. cbn [parse_value].
    rewrite skip_space_no by done. cbn [Ascii.eqb Bool.eqb].
    replace (maxNestingDepth <=? depth) with false by (symmetry; apply Z.leb_gt; lia).
    destruct l as [|x l]; [done|].
    assert (Hmiss : forall X, take_char "]" (comma_sep (print <$> x :: l) +:+ X) = None).
    { intros X. apply Forall_cons in Hp as [Hx _].
      destruct (print_head _ _ Hx) as (c & t & Hc & Hs & Hb & _).
      destruct l; cbn [fmap list_fmap comma_sep]; rewrite Hc, !str_app_cons;
        by apply take_char_miss. }
    rewrite Hmiss. rewrite (elements_read_back (h - 1)); [done| |done|done|lia|cbn in Hf |- *; lia].
    eapply Forall_impl; [exact IH|]. auto.
  - intros [|fuel] depth rest Hp Hd Hf Hrest; [lia|]. cbn [printable print] in *.
    destruct Hp as [Hh Hp%foldr_Forall]. cbn [len] in Hf. rewrite str_app_length in Hf.
    rewrite str_app_cons, str_app_assoc, str_app_cons, str_app_nil_l. cbn [parse_value].
    rewrite skip_space_no by done. cbn [Ascii.eqb Bool.eqb].
    replace (maxNestingDepth <=? depth) with false by (symmetry; apply Z.leb_gt; lia).
    destruct kvs as [|x kvs]; [done|]. fold member in *.
    assert (Hmiss : forall X, take_char "}" (comma_sep (member <$> x :: kvs) +:+ X) = None).
    { intros X. destruct kvs; cbn [fmap list_fmap comma_sep]; unfold member, quote;
        rewrite !str_app_cons; by apply take_char_miss. }
    rewrite Hmiss. rewrite (members_read_back (h - 1)); [done| |done|done|lia|cbn in Hf |- *; lia].
    eapply Forall_impl; [exact IH|]. auto.
Qed.

Lemma parse_print j : printable maxNestingDepth j -> parse (print j) = POk j "".
Proof.
  intros Hp. unfold parse.
  pose proof (print_reads_back j maxNestingDepth (2 * len (print j) + 1)%nat 0 "" Hp) as H.
  rewrite str_app_nil_r in H. rewrite H by (lia || by left). done.
Qed.
(** ** What is read from a string literal is UTF-8 *)

(** [t] is one rune: it is recognised as such whatever follows. *)
Definition one_rune (t : string) : Prop :=
  t <> "" /\ forall X,
    (exists c, t = String c "" /\ next_rune (t +:+ X) = RAscii c X) \/
    next_rune (t +:+ X) = RMulti t X.

Lemma code_byte n : (n < 256)%N -> code (byte n) = n.
Proof. apply N_ascii_embedding. Qed.

Lemma between_byte lo hi n : (n < 256)%N -> (lo <= n <= hi)%N -> between lo hi (byte n) = true.
Proof.
  intros Hn [H1 H2]. unfold between. rewrite code_byte by done.
  apply N.leb_le in H1 as ->. by apply N.leb_le in H2 as ->.
Qed.

Lemma is_ascii_byte n : (128 <= n < 256)%N -> is_ascii (byte n) = false.
Proof. intros [H1 H2]. unfold is_ascii. rewrite code_byte by done. by apply N.ltb_ge. Qed.

Lemma between_false lo hi n : (n < 256)%N -> (hi < n)%N -> between lo hi (byte n) = false.
Proof.
  intros Hn Hh. unfold between. rewrite code_byte by done.
  rewrite andb_comm. by rewrite (proj2 (N.leb_gt n hi)).
Qed.

Lemma cont_byte n : cont (byte (128 + n mod 64)) = true.
Proof. pose proof (N.mod_lt n 64 ltac:(lia)). apply between_byte; lia. Qed.

Lemma eqb_byte n k : (n < 256)%N -> (code (byte n) =? k)%N = (n =? k)%N.
Proof. intros Hn. by rewrite code_byte. Qed.

Lemma lead3_bytes x y :
  (x < 16)%N -> (y < 64)%N -> (x = 0 -> 32 <= y)%N -> (x = 13 -> y < 32)%N ->
  lead3 (byte (224 + x)) (byte (128 + y)) = true.
Proof.
  intros Hx Hy H0 H13. unfold lead3. rewrite !eqb_byte by lia.
  destruct (N.eq_dec x 0) as [->|]; [|destruct (N.eq_dec x 13) as [->|]].
  - by rewrite (between_byte 160 191 (128 + y)) by lia.
  - rewrite (between_byte 128 159 (128 + y)) by lia. by rewrite !orb_true_r.
  - rewrite !orb_true_iff, !andb_true_iff, orb_true_iff. left. right.
    split; [|apply between_byte; lia].
    destruct (N.le_gt_cases x 12); [left|right]; apply between_byte; lia.
Qed.

Lemma lead4_bytes x y :
  (x < 5)%N -> (y < 64)%N -> (x = 0 -> 16 <= y)%N -> (x = 4 -> y < 16)%N ->
  lead4 (byte (240 + x)) (byte (128 + y)) = true.
Proof.
  intros Hx Hy H0 H4. unfold lead4. rewrite !eqb_byte by lia.
  destruct (N.eq_dec x 0) as [->|]; [|destruct (N.eq_dec x 4) as [->|]].
  - by rewrite (between_byte 144 191 (128 + y)) by lia.
  - rewrite (between_byte 128 143 (128 + y)) by lia. by rewrite !orb_true_r.
  - rewrite !orb_true_iff, !andb_true_iff. left. right. split; apply between_byte; lia.
Qed.

(** A code point that is no surrogate is encoded as one rune. *)
Lemma encode_rune_one n :
  (n < 55296 \/ 57344 <= n < 1114112)%N -> one_rune (encode_rune n).
Proof.
  intros Hn. unfold encode_rune. pose proof (N.mod_lt n 64 ltac:(lia)).
  destruct (N.ltb_spec n 128); [|destruct (N.ltb_spec n 2048); [|destruct (N.ltb_spec n 65536)]].
  - split; [done|]. intros X. left. eexists. split; [done|]. rewrite str_app_cons, str_app_nil_l.
    cbn [next_rune]. unfold is_ascii. rewrite code_byte by lia. by rewrite (proj2 (N.ltb_lt n 128)).
  - split; [done|]. intros X. right. rewrite !str_app_cons, str_app_nil_l. cbn [next_rune].
    rewrite is_ascii_byte by lia. rewrite (between_byte 194 223) by lia. by rewrite cont_byte.
  - split; [done|]. intros X. right. rewrite !str_app_cons, str_app_nil_l. cbn [next_rune].
    rewrite is_ascii_byte by lia. rewrite (between_false 194 223) by lia. cbn [andb].
    rewrite lead3_bytes by lia. by rewrite cont_byte.
  - split; [done|]. intros X. right. rewrite !str_app_cons, str_app_nil_l. cbn [next_rune].
    rewrite is_ascii_byte by lia. rewrite (between_false 194 223) by lia. cbn [andb].
    replace (lead3 _ _) with false.
    { cbn [andb]. rewrite lead4_bytes by lia. by rewrite !cont_byte. }
    symmetry. unfold lead3. rewrite !eqb_byte by lia.
    rewrite (between_false 225 236), (between_false 238 239) by lia.
    rewrite (proj2 (N.eqb_neq _ 224)), (proj2 (N.eqb_neq _ 237)) by lia. done.
Qed.

Lemma valid_runes_mono n k s : valid_runes n s = true -> (n <= k)%nat -> valid_runes k s = true.
Proof.
  revert k s; induction n as [|n IH]; intros k s Hv Hk; cbn [valid_runes] in Hv.
  - destruct k; cbn [valid_runes]; by destruct (next_rune s).
  - destruct k as [|k]; [lia|]. cbn [valid_runes]. destruct (next_rune s); try done;
      apply IH; (done || lia).
Qed.

Lemma utf8_app t u : one_rune t -> utf8 u = true -> utf8 (t +:+ u) = true.
Proof.
  intros [Hne Ht] Hu. unfold utf8. destruct t as [|c t]; [done|].
  rewrite str_app_cons. cbn [len]. rewrite str_app_length.
  cbn [valid_runes]. rewrite <- str_app_cons.
  destruct (Ht u) as [(d & _ & ->)| ->]; eapply valid_runes_mono; (exact Hu || lia).
Qed.

Lemma hex_value_lt c n : hex_value c = Some n -> (n < 16)%N.
Proof.
  unfold hex_value, between. intros H. repeat case_match; simplify_eq;
    repeat match goal with
    | H : _ && _ = true |- _ => apply andb_prop in H as [? ?]
    | H : (_ <=? _)%N = true |- _ => apply N.leb_le in H
    end; lia.
Qed.

Lemma hex4_lt s n rest : hex4 s = Some (n, rest) -> (n < 65536)%N.
Proof.
  unfold hex4. destruct s as [|a [|b [|c [|d s]]]]; try done.
  destruct (hex_value a) eqn:Ha; [|done]. destruct (hex_value b) eqn:Hb; [|done].
  destruct (hex_value c) eqn:Hc; [|done]. destruct (hex_value d) eqn:Hd; [|done].
  apply hex_value_lt in Ha, Hb, Hc, Hd. intros [= <- _]. lia.
Qed.

Lemma replacement_one : one_rune replacement.
Proof. apply encode_rune_one. lia. Qed.

Lemma unicode_one s t rest : unicode s = Text t rest -> one_rune t.
Proof.
  unfold unicode. destruct (hex4 s) as [[n s1]|] eqn:H1; [|done]. apply hex4_lt in H1.
  destruct ((55296 <=? n)%N && (n <? 57344)%N) eqn:Hs.
  - apply andb_prop in Hs as [Ha%N.leb_le Hb%N.ltb_lt].
    destruct (unicode_escape s1) as [[n2 s2]|]; [|by intros [= <- _]; apply replacement_one].
    destruct (_ && _) eqn:Hp; [|by intros [= <- _]; apply replacement_one].
    apply andb_prop in Hp as [[Hp1%N.ltb_lt Hp2%N.leb_le]%andb_prop Hp3%N.ltb_lt].
    intros [= <- _]. apply encode_rune_one. lia.
  - intros [= <- _]. apply encode_rune_one.
    apply andb_false_iff in Hs as [Hs%N.leb_gt|Hs%N.ltb_ge]; lia.
Qed.

Lemma ascii_one c : is_ascii c = true -> one_rune (String c "").
Proof.
  intros Hc. split; [done|]. intros X. left. exists c. split; [done|].
  rewrite str_app_cons, str_app_nil_l. cbn [next_rune]. by rewrite Hc.
Qed.

Lemma unquote_step_one s t rest : unquote_step s = Text t rest -> one_rune t.
Proof.
  unfold unquote_step. pose proof (next_rune_len s) as Hl.
  destruct (next_rune s) as [|c r|ch r|r] eqn:Hr; [done| | |].
  - destruct Hl as [_ Hc]. destruct (Ascii.eqb c dquote); [done|].
    destruct (Ascii.eqb c backslash).
    + destruct r as [|e r]; cbn [unescape]; [done|].
      destruct (_ || _) eqn:He.
      { intros [= <- _]. apply ascii_one.
        apply orb_prop in He as [[He|He]%orb_prop|He]; apply Ascii.eqb_eq in He as ->; done. }
      destruct (Ascii.eqb e "b"); [intros [= <- _]; by apply ascii_one|].
      destruct (Ascii.eqb e "f"); [intros [= <- _]; by apply ascii_one|].
      destruct (Ascii.eqb e "n"); [intros [= <- _]; by apply ascii_one|].
      destruct (Ascii.eqb e "r"); [intros [= <- _]; by apply ascii_one|].
      destruct (Ascii.eqb e "t"); [intros [= <- _]; by apply ascii_one|].
      destruct (Ascii.eqb e "u"); [apply unicode_one|done].
    + destruct (_ <? _)%N; [done|]. intros [= <- _]. by apply ascii_one.
  - intros [= <- _]. split; [by destruct ch; cbn in Hl; [lia|]|].
    intros X. right. by apply (next_rune_multi _ _ _ X Hr).
  - intros [= <- _]. apply replacement_one.
Qed.

Lemma unquote_utf8 fuel s t rest : unquote fuel s = POk t rest -> utf8 t = true.
Proof.
  revert s t rest; induction fuel as [|fuel IH]; intros s t rest; cbn [unquote]; [done|].
  destruct (unquote_step s) as [r|u r|] eqn:Hs; [by intros [= <- _]| |done].
  destruct (unquote fuel r) as [v r'| |] eqn:Hu; cbn [pbind]; [|done|done].
  intros [= <- _]. apply utf8_app; [exact (unquote_step_one _ _ _ Hs)|exact (IH _ _ _ Hu)].
Qed.

Lemma string_value_utf8 l s : string_value l = Some s -> utf8 s = true.
Proof.
  unfold string_value, parse_string.
  destruct (unquote _ _) as [t [|]| |] eqn:Hu; try done. intros [= <-]. by eapply unquote_utf8.
Qed.

(** The keys of every object in a value are UTF-8. *)
Fixpoint keys_utf8 (j : json) : Prop :=
  match j with
  | JArray l => foldr (fun x P => keys_utf8 x /\ P) True l
  | JObject kvs => foldr (fun kv P => (utf8 kv.1 = true /\ keys_utf8 kv.2) /\ P) True kvs
  | _ => True
  end.

Lemma pbind_POk {A B} (r : parsed A) (f : A -> string -> parsed B) b rest :
  pbind r f = POk b rest -> exists a rest', r = POk a rest' /\ f a rest' = POk b rest.
Proof. destruct r; cbn; try done. eauto. Qed.

Lemma parse_key_utf8 s k rest : parse_key s = POk k rest -> utf8 k = true.
Proof.
  unfold parse_key. destruct (take_char dquote s) as [r|]; [|done].
  intros (k' & r' & Hk & Hr)%pbind_POk. destruct (take_char ":" r'); [|done].
  injection Hr as -> _. by eapply unquote_utf8.
Qed.

Lemma parse_scalar_keys c r j rest : parse_scalar c r = POk j rest -> keys_utf8 j.
Proof.
  unfold parse_scalar, literal. intros H. repeat case_match; simplify_eq; try done.
  apply pbind_POk in H as (t & r' & _ & [= <- _]). done.
Qed.

Lemma parse_keys fuel :
  (forall d s j rest, parse_value fuel d s = POk j rest -> keys_utf8 j) /\
  (forall d s l rest, parse_elements fuel d s = POk l rest -> keys_utf8 (JArray l)) /\
  (forall d s kvs rest, parse_members fuel d s = POk kvs rest -> keys_utf8 (JObject kvs)).
Proof.
  induction fuel as [|fuel (IHv & IHe & IHm)]; [done|]. split; [|split]; intros d s.
  - intros j rest. cbn [parse_value]. destruct (skip_space s) as [|c r]; [done|].
    destruct (Ascii.eqb c "{"); [|destruct (Ascii.eqb c "["); [|apply parse_scalar_keys]];
      (destruct (maxNestingDepth <=? d); [done|]).
    + destruct (take_char "}" r); [by intros [= <- _]|].
      intros (kvs & r' & Hk & [= <- _])%pbind_POk. by eapply IHm.
    + destruct (take_char "]" r); [by intros [= <- _]|].
      intros (l & r' & Hl & [= <- _])%pbind_POk. by eapply IHe.
  - intros l rest. cbn [parse_elements]. intros (j & r & Hj & Hl)%pbind_POk. apply IHv in Hj.
    destruct (take_char "]" r); [by injection Hl as <- _|].
    destruct (take_char "," r) as [r2|]; [|done].
    apply pbind_POk in Hl as (l' & r' & Hl' & [= <- _]). split; [done|]. by eapply IHe.
  - intros kvs rest. cbn [parse_members]. intros (k & r0 & Hk & H0)%pbind_POk.
    apply parse_key_utf8 in Hk. apply pbind_POk in H0 as (j & r & Hj & Hl). apply IHv in Hj.
    destruct (take_char "}" r); [by injection Hl as <- _|].
    destruct (take_char "," r) as [r2|]; [|done].
    apply pbind_POk in Hl as (l' & r' & Hl' & [= <- _]). split; [done|]. by eapply IHm.
Qed.

Lemma parse_keys_utf8 s j rest : parse s = POk j rest -> keys_utf8 j.
Proof.
  unfold parse. intros (j' & r & Hj & Hr)%pbind_POk. destruct (skip_space r); [|done].
  injection Hr as <- _. destruct (parse_keys (2 * len s + 1)) as (Hv & _ & _). by eapply Hv.
Qed.

(** ** Integers *)

Definition digit (z : Z) : ascii := byte (Z.to_N (48 + z)).

(** The decimal digits of [z >= 0] before [acc]; [fuel] bounds their number. *)
Fixpoint to_decimal (fuel : nat) (z : Z) (acc : string) : string :=
  match fuel with
  | O => acc
  | S fuel =>
      let acc := String (digit (z mod 10)) acc in
      if z <? 10 then acc else to_decimal fuel (z / 10) acc
  end.

(** [strconv.AppendInt(_, z, 10)] of an integer of at most 20 digits. *)
Definition print_int (z : Z) : string :=
  if z <? 0 then String "-" (to_decimal 20 (- z) "") else to_decimal 20 z "".

(** The value of decimal digits, after [v]. *)
Fixpoint digits_value (s : string) (v : Z) : option Z :=
  match s with
  | EmptyString => Some v
  | String c s => if is_digit c then digits_value s (10 * v + (Z.of_N (code c) - 48)) else None
  end.

(** [strconv.ParseInt(s, 10, 64)] of a JSON literal, range apart: digits after an optional
    sign; a fraction or an exponent is an error. *)
Definition parse_int (s : string) : option Z :=
  match s with
  | EmptyString => None
  | String c t =>
      if Ascii.eqb c "-"
      then match t with EmptyString => None | _ => Z.opp <$> digits_value t 0 end
      else digits_value s 0
  end.

Lemma digit_cases z :
  0 <= z < 10 ->
  is_digit (digit z) = true /\ Z.of_N (code (digit z)) - 48 = z /\
  Ascii.eqb (digit z) "-" = false /\ (Ascii.eqb (digit z) "0" = true -> z = 0).
Proof.
  intros Hz. assert (Hall : Forall (fun z => is_digit (digit z) = true /\
    Z.of_N (code (digit z)) - 48 = z /\ Ascii.eqb (digit z) "-" = false /\
    (Ascii.eqb (digit z) "0" = true -> z = 0)) [0; 1; 2; 3; 4; 5; 6; 7; 8; 9]).
  { by repeat constructor. }
  rewrite Forall_forall in Hall. apply Hall.
  assert (z = 0 \/ z = 1 \/ z = 2 \/ z = 3 \/ z = 4 \/ z = 5 \/ z = 6 \/ z = 7 \/ z = 8 \/ z = 9)
    as Hc by lia.
  repeat destruct Hc as [->|Hc]; subst; by repeat constructor.
Qed.

Lemma to_decimal_value fuel z acc :
  0 <= z < 10 ^ Z.of_nat fuel ->
  exists k, forall v, digits_value (to_decimal fuel z acc) v = digits_value acc (k * v + z).
Proof.
  revert z acc; induction fuel as [|fuel IH]; intros z acc Hz.
  { exists 1. intros v. cbn. f_equal. change (10 ^ Z.of_nat 0) with 1 in Hz. lia. }
  rewrite Nat2Z.inj_succ, Z.pow_succ_r in Hz by lia. cbn [to_decimal].
  destruct (digit_cases (z mod 10)) as (Hd & Hv & _); [apply Z.mod_pos_bound; lia|].
  pose proof (Z.div_mod z 10). pose proof (Z.mod_pos_bound z 10).
  destruct (Z.ltb_spec z 10).
  - exists 10. intros v. cbn [digits_value]. rewrite Hd, Hv. f_equal.
    rewrite Z.mod_small by lia. lia.
  - destruct (IH (z / 10) (String (digit (z mod 10)) acc)) as [k Hk].
    { split; [apply Z.div_pos; lia|apply Z.div_lt_upper_bound; lia]. }
    exists (10 * k). intros v. rewrite Hk. cbn [digits_value]. rewrite Hd, Hv. f_equal. lia.
Qed.

Lemma to_decimal_digits fuel z acc :
  str_forall is_digit acc = true -> str_forall is_digit (to_decimal fuel z acc) = true.
Proof.
  revert z acc; induction fuel as [|fuel IH]; intros z acc Ha; [done|]. cbn [to_decimal].
  destruct (digit_cases (z mod 10)) as (Hd & _); [apply Z.mod_pos_bound; lia|].
  assert (str_forall is_digit (String (digit (z mod 10)) acc) = true) by (cbn; by rewrite Hd).
  destruct (z <? 10); auto.
Qed.

Lemma to_decimal_head fuel z acc :
  0 < z < 10 ^ Z.of_nat fuel -> exists c t, to_decimal fuel z acc = String c t /\
    is_digit c = true /\ Ascii.eqb c "0" = false /\ Ascii.eqb c "-" = false.
Proof.
  revert z acc; induction fuel as [|fuel IH]; intros z acc Hz.
  { change (10 ^ Z.of_nat 0) with 1 in Hz. lia. }
  rewrite Nat2Z.inj_succ, Z.pow_succ_r in Hz by lia. cbn [to_decimal].
  destruct (Z.ltb_spec z 10).
  - destruct (digit_cases (z mod 10)) as (Hd & _ & Hm & H0); [apply Z.mod_pos_bound; lia|].
    eexists _, _. split; [done|]. split; [done|]. split; [|done].
    destruct (Ascii.eqb (digit (z mod 10)) "0"); [|done].
    rewrite Z.mod_small in H0 by lia. specialize (H0 eq_refl). lia.
  - apply IH. pose proof (Z.div_mod z 10). pose proof (Z.mod_pos_bound z 10).
    split; [apply Z.div_str_pos; lia|apply Z.div_lt_upper_bound; lia].
Qed.

Lemma span_digits_app ds rest :
  str_forall is_digit ds = true -> delimited rest -> span_digits (ds +:+ rest) = (ds, rest).
Proof.
  intros Hds Hrest. induction ds as [|c ds IH]; rewrite ?str_app_cons, ?str_app_nil_l.
  - destruct Hrest as [->|(c & t & -> & [-> | [-> | ->]])]; done.
  - cbn [str_forall span_digits] in *. apply andb_prop in Hds as [Hc Hds].
    rewrite Hc. by rewrite IH.
Qed.

Lemma lex_tail_delimited i rest :
  delimited rest ->
  match lex_fraction rest with
  | None => None
  | Some (f, s) =>
      match lex_exponent s with
      | None => None
      | Some (e, s) => Some (i +:+ f +:+ e, s)
      end
  end = Some (i, rest).
Proof.
  intros [->|(c & t & -> & [-> | [-> | ->]])]; cbn; by rewrite str_app_nil_r.
Qed.

Lemma lex_int_decimal z rest :
  0 <= z < 10 ^ 20 -> delimited rest ->
  lex_int (to_decimal 20 z "" +:+ rest) = Some (to_decimal 20 z "", rest).
Proof.
  intros Hz Hrest. destruct (decide (z = 0)) as [->|Hne]; [done|].
  destruct (to_decimal_head 20 z "") as (c & t & Heq & Hd & H0 & _);
    [change (Z.of_nat 20) with 20; lia|].
  pose proof (to_decimal_digits 20 z "" eq_refl) as Hall. rewrite Heq in *.
  rewrite str_app_cons. cbn [lex_int]. rewrite H0. unfold lex_digits.
  rewrite <- str_app_cons, span_digits_app by done. done.
Qed.

Lemma print_int_number z : - 10 ^ 20 < z < 10 ^ 20 -> number_ok (print_int z).
Proof.
  intros Hz. unfold print_int. destruct (Z.ltb_spec z 0).
  - split; [by eexists _, _; eauto|]. intros rest Hrest. rewrite str_app_cons.
    unfold lex_number. cbn [Ascii.eqb Bool.eqb].
    rewrite lex_int_decimal by (done || lia). generalize (to_decimal 20 (- z) "") as ds.
    intros ds. pose proof (lex_tail_delimited ds rest Hrest) as Ht.
    destruct (lex_fraction rest) as [[f s]|]; [|done].
    destruct (lex_exponent s) as [[e s']|]; [|done]. injection Ht as Ht ->.
    by rewrite Ht.
  - assert (Hh : exists c t, to_decimal 20 z "" = String c t /\ is_digit c = true /\
      Ascii.eqb c "-" = false).
    { destruct (decide (z = 0)) as [->|]; [by eexists _, _|].
      destruct (to_decimal_head 20 z "") as (c & t & ? & ? & _ & ?);
        [change (Z.of_nat 20) with 20; lia|]. eauto. }
    destruct Hh as (c & t & Heq & Hd & Hm). split; [rewrite Heq; eauto|].
    intros rest Hrest. unfold lex_number.
    pose proof (lex_int_decimal z rest ltac:(lia) Hrest) as Hi. rewrite Heq in *.
    rewrite str_app_cons in *. rewrite Hm, Hi.
    pose proof (lex_tail_delimited (String c t) rest Hrest) as Ht.
    destruct (lex_fraction rest) as [[f s]|]; [|done].
    destruct (lex_exponent s) as [[e s']|]; [|done]. injection Ht as Ht ->.
    by rewrite str_app_nil_l, str_app_cons, Ht.
Qed.

Lemma parse_print_int z : - 10 ^ 20 < z < 10 ^ 20 -> parse_int (print_int z) = Some z.
Proof.
  intros Hz. unfold print_int. destruct (Z.ltb_spec z 0).
  - destruct (to_decimal_head 20 (- z) "") as (c & t & Heq & _);
      [change (Z.of_nat 20) with 20; lia|].
    destruct (to_decimal_value 20 (- z) "") as [k Hk]; [change (Z.of_nat 20) with 20; lia|].
    specialize (Hk 0). cbn [parse_int Ascii.eqb Bool.eqb]. rewrite Heq in *. rewrite Hk.
    cbn. f_equal. lia.
  - destruct (to_decimal_value 20 z "") as [k Hk]; [change (Z.of_nat 20) with 20; lia|].
    specialize (Hk 0). destruct (decide (z = 0)) as [->|]; [done|].
    destruct (to_decimal_head 20 z "") as (c & t & Heq & _ & _ & Hm);
      [change (Z.of_nat 20) with 20; lia|].
    rewrite Heq in *. cbn [parse_int]. rewrite Hm, Hk. cbn. f_equal. lia.
Qed.
End JsonText.
