(* ===== verification/GoTime.v ===== *)
(** * GoTime: [time.Time] and its JSON form

    A [time.Time] as the program uses it: a date and a time of day in some zone, stored,
    returned and encoded but never computed with.  [MarshalJSON] writes RFC 3339 with
    nanoseconds; [UnmarshalJSON] reads with [time.Parse], which is laxer: an hour of one
    digit, a comma before the fraction, and offsets up to 24 hours and 60 minutes pass. *)

From Stdlib Require Import Ascii.
From S2P Require Import Prelude Errors JsonText.

Module GoTime.
Import JsonText.

(** The fields in the value's zone; the zone's offset in seconds east of UTC. *)
Record Time := mkTime {
  t_year : Z; t_month : Z; t_day : Z;
  t_hour : Z; t_min : Z; t_sec : Z; t_nsec : Z;
  t_offset : Z }.

#[global] Instance Time_eq_dec : EqDecision Time.
Proof. solve_decision. Defined.

(** The zero value: January 1, year 1, 00:00:00 UTC. *)
Definition zero_time : Time := mkTime 1 1 1 0 0 0 0 0.

Definition leap (y : Z) : bool := (y mod 4 =? 0) && (negb (y mod 100 =? 0) || (y mod 400 =? 0)).

Definition daysIn (month year : Z) : Z :=
  if month =? 2 then (if leap year then 29 else 28)
  else if (month =? 4) || (month =? 6) || (month =? 9) || (month =? 11) then 30
  else 31.

(** ** Writing *)

(** [z] in [n] decimal digits. *)
Fixpoint pad (n : nat) (z : Z) : string :=
  match n with
  | O => ""
  | S n => pad n (z / 10) +:+ String (digit (z mod 10)) ""
  end.

Fixpoint trim_zeros (s : string) : string :=
  match s with
  | EmptyString => ""
  | String c s =>
      let t := trim_zeros s in
      if Ascii.eqb c "0" && bool_decide (t = "") then "" else String c t
  end.

Definition format_nsec (n : Z) : string :=
  if n =? 0 then "" else String "." (trim_zeros (pad 9 n)).

(** The zone in minutes, truncated. *)
Definition zone_minutes (t : Time) : Z := Z.quot (t_offset t) 60.

Definition format_zone (t : Time) : string :=
  if t_offset t =? 0 then "Z"
  else
    let z := zone_minutes t in
    let a := Z.abs z in
    String (if z <? 0 then "-"%char else "+"%char) (pad 2 (a / 60) +:+ String ":" (pad 2 (a mod 60))).

(** The layout "2006-01-02T15:04:05.999999999Z07:00" for a year of four digits. *)
Definition format (t : Time) : string :=
  pad 4 (t_year t) +:+ String "-" (pad 2 (t_month t) +:+ String "-" (pad 2 (t_day t) +:+
  String "T" (pad 2 (t_hour t) +:+ String ":" (pad 2 (t_min t) +:+ String ":"
  (pad 2 (t_sec t) +:+ (format_nsec (t_nsec t) +:+ format_zone t)))))).

(** [MarshalJSON], without the quotes. *)
Definition MarshalJSON (t : Time) : result string :=
  if (t_year t <? 0) || (9999 <? t_year t)
  then Err (ErrText "Time.MarshalJSON: year outside of range [0,9999]")
  else if 24 <=? Z.abs (zone_minutes t) / 60
  then Err (ErrText "Time.MarshalJSON: timezone hour outside of range [0,23]")
  else Ok (format t).

(** ** Reading *)

(** The character [c]. *)
Definition skip (c : ascii) (s : string) : option string :=
  match s with
  | String d s => if Ascii.eqb c d then Some s else None
  | EmptyString => None
  end.

Definition digit_of (c : ascii) : option Z :=
  if is_digit c then Some (Z.of_N (code c) - 48) else None.

(** [getnum(s, true)]: two digits. *)
Definition num2 (s : string) : option (Z * string) :=
  match s with
  | String a (String b s) =>
      match digit_of a, digit_of b with
      | Some a, Some b => Some (10 * a + b, s)
      | _, _ => None
      end
  | _ => None
  end.

(** [getnum(s, false)]: two digits or one. *)
Definition num12 (s : string) : option (Z * string) :=
  match s with
  | String a s' =>
      match digit_of a with
      | None => None
      | Some a => match num2 s with Some r => Some r | None => Some (a, s') end
      end
  | EmptyString => None
  end.

Definition num4 (s : string) : option (Z * string) :=
  match num2 s with
  | Some (hi, s) => match num2 s with Some (lo, s) => Some (100 * hi + lo, s) | None => None end
  | None => None
  end.

(** A number within bounds. *)
Definition in_range (lo hi : Z) (r : option (Z * string)) : option (Z * string) :=
  match r with
  | Some (z, s) => if (lo <=? z) && (z <=? hi) then Some (z, s) else None
  | None => None
  end.

(** The fraction after the seconds: digits after the ninth are dropped. *)
Definition parse_nsec (s : string) : option (Z * string) :=
  match s with
  | String c s' =>
      if Ascii.eqb c "." || Ascii.eqb c "," then
        match span_digits s' with
        | ("", _) => Some (0, s)
        | (ds, rest) =>
            let ds := str_take 9 ds in
            match digits_value ds 0 with
            | Some v => Some (v * 10 ^ (9 - Z.of_nat (String.length ds)), rest)
            | None => None
            end
        end
      else Some (0, s)
  | EmptyString => Some (0, "")
  end.

(** The zone: "Z", or a sign, hours and minutes. *)
Definition parse_zone (s : string) : option (Z * string) :=
  match s with
  | String c s =>
      if Ascii.eqb c "Z" then Some (0, s)
      else
        match in_range 0 24 (num2 s) with
        | None => None
        | Some (hr, s) =>
            match skip ":" s with
            | None => None
            | Some s =>
                match in_range 0 60 (num2 s) with
                | None => None
                | Some (mm, s) =>
                    let off := (hr * 60 + mm) * 60 in
                    if Ascii.eqb c "+" then Some (off, s)
                    else if Ascii.eqb c "-" then Some (- off, s)
                    else None
                end
            end
        end
  | EmptyString => None
  end.

(** [time.Parse(time.RFC3339, s)]. *)
Definition parse_time (s : string) : option Time :=
  '(year, s) ← num4 s;
  s ← skip "-" s;
  '(month, s) ← in_range 1 12 (num2 s);
  s ← skip "-" s;
  '(day, s) ← num2 s;
  s ← skip "T" s;
  '(hour, s) ← in_range 0 23 (num12 s);
  s ← skip ":" s;
  '(minute, s) ← in_range 0 59 (num2 s);
  s ← skip ":" s;
  '(sec, s) ← in_range 0 59 (num2 s);
  '(nsec, s) ← parse_nsec s;
  '(off, s) ← parse_zone s;
  if bool_decide (s = "") && (1 <=? day) && (day <=? daysIn month year)
  then Some (mkTime year month day hour minute sec nsec off) else None.

(** ** Round trip *)

(** The times Go can hold and [MarshalJSON] keeps: a real date with a year of four digits,
    in a zone of whole minutes less than a day from UTC. *)
Definition time_ok (t : Time) : bool :=
  (0 <=? t_year t) && (t_year t <=? 9999) && (1 <=? t_month t) && (t_month t <=? 12) &&
  (1 <=? t_day t) && (t_day t <=? daysIn (t_month t) (t_year t)) &&
  (0 <=? t_hour t) && (t_hour t <=? 23) && (0 <=? t_min t) && (t_min t <=? 59) &&
  (0 <=? t_sec t) && (t_sec t <=? 59) && (0 <=? t_nsec t) && (t_nsec t <? 10 ^ 9) &&
  (t_offset t mod 60 =? 0) && (Z.abs (t_offset t) <? 86400).

Lemma digit_of_digit z : 0 <= z < 10 -> digit_of (digit z) = Some z.
Proof. intros Hz. unfold digit_of. destruct (digit_cases z Hz) as (-> & -> & _). done. Qed.

Lemma pad2 z X : pad 2 z +:+ X =
  String (digit (z / 10 mod 10)) (String (digit (z mod 10)) X).
Proof. done. Qed.

Lemma num2_pad_mod z X : num2 (pad 2 z +:+ X) = Some (z mod 100, X).
Proof.
  rewrite pad2. cbn [num2].
  pose proof (Z.mod_pos_bound z 10). pose proof (Z.mod_pos_bound (z / 10) 10).
  rewrite !digit_of_digit by lia. change 100 with (10 * 10).
  rewrite Z.rem_mul_r by lia. do 2 f_equal. lia.
Qed.

Lemma num2_pad z X : 0 <= z < 100 -> num2 (pad 2 z +:+ X) = Some (z, X).
Proof. intros Hz. by rewrite num2_pad_mod, Z.mod_small. Qed.

Lemma num12_pad z X : 0 <= z < 100 -> num12 (pad 2 z +:+ X) = Some (z, X).
Proof.
  intros Hz. pose proof (num2_pad z X Hz) as Hn. rewrite pad2 in *. cbn [num12].
  pose proof (Z.mod_pos_bound (z / 10) 10). rewrite digit_of_digit by lia. by rewrite Hn.
Qed.

Lemma num4_pad z X : 0 <= z < 10000 -> num4 (pad 4 z +:+ X) = Some (z, X).
Proof.
  intros Hz. unfold num4.
  change (pad 4 z +:+ X) with (pad 2 (z / 10 / 10) +:+ (pad 2 z +:+ X)).
  rewrite Z.div_div by lia. change (10 * 10) with 100.
  rewrite num2_pad by (split; [apply Z.div_pos|apply Z.div_lt_upper_bound]; lia).
  rewrite num2_pad_mod. do 2 f_equal. pose proof (Z.div_mod z 100). lia.
Qed.

Lemma in_range_ok lo hi z X : lo <= z <= hi -> in_range lo hi (Some (z, X)) = Some (z, X).
Proof.
  intros Hz. cbn. by rewrite (proj2 (Z.leb_le lo z)), (proj2 (Z.leb_le z hi)) by lia.
Qed.

(** The digits of the fraction. *)
Lemma pad_digits n z : str_forall is_digit (pad n z) = true.
Proof.
  revert z; induction n as [|n IH]; intros z; cbn [pad]; [done|].
  specialize (IH (z / 10)). destruct (digit_cases (z mod 10)) as (Hd & _).
  { apply Z.mod_pos_bound. lia. }
  induction (pad n (z / 10)) as [|c s IHs]; rewrite ?str_app_cons, ?str_app_nil_l;
    cbn [str_forall] in *; [by rewrite Hd|].
  apply andb_prop in IH as [-> IH]. by apply IHs.
Qed.

Lemma pad_length n z : String.length (pad n z) = n.
Proof.
  revert z; induction n as [|n IH]; intros z; cbn [pad]; [done|].
  rewrite str_app_length, IH. cbn. lia.
Qed.

Lemma digits_value_app a b v :
  str_forall is_digit a = true ->
  digits_value (a +:+ b) v = match digits_value a v with Some u => digits_value b u | None => None end.
Proof.
  revert v; induction a as [|c a IH]; intros v Ha; [done|]. rewrite str_app_cons.
  cbn [digits_value str_forall] in *. apply andb_prop in Ha as [-> Ha]. by apply IH.
Qed.

Lemma pad_value n z :
  0 <= z < 10 ^ Z.of_nat n -> forall v, digits_value (pad n z) v = Some (10 ^ Z.of_nat n * v + z).
Proof.
  revert z; induction n as [|n IH]; intros z Hz v.
  { change (10 ^ Z.of_nat 0) with 1 in *. cbn. f_equal. lia. }
  rewrite Nat2Z.inj_succ, Z.pow_succ_r in * by lia. cbn [pad].
  pose proof (Z.div_mod z 10). pose proof (Z.mod_pos_bound z 10).
  rewrite digits_value_app by apply pad_digits.
  rewrite IH by (split; [apply Z.div_pos|apply Z.div_lt_upper_bound]; lia).
  cbn [digits_value]. destruct (digit_cases (z mod 10)) as (-> & -> & _); [lia|]. f_equal. lia.
Qed.

(** Trimming drops zeros from the end only. *)
Lemma trim_zeros_spec s :
  str_forall is_digit s = true ->
  exists k, String.length s = (String.length (trim_zeros s) + k)%nat /\
    str_forall is_digit (trim_zeros s) = true /\
    forall v, digits_value s v =
      match digits_value (trim_zeros s) v with
      | Some u => Some (u * 10 ^ Z.of_nat k)
      | None => None
      end.
Proof.
  induction s as [|c s IH]; intros Hs.
  { exists 0%nat. split; [done|]. split; [done|]. intros v. cbn. f_equal. lia. }
  cbn [str_forall] in Hs. apply andb_prop in Hs as [Hc Hs].
  destruct (IH Hs) as (k & Hl & Hd & Hv). cbn [trim_zeros String.length].
  destruct (Ascii.eqb c "0" && bool_decide (trim_zeros s = "")) eqn:Hz.
  - apply andb_prop in Hz as [H0 Ht%bool_decide_eq_true_1]. rewrite Ht in *.
    apply Ascii.eqb_eq in H0 as ->. exists (S k). split; [cbn in *; lia|]. split; [done|].
    intros v. cbn [digits_value is_digit between]. rewrite Hv. cbn [digits_value].
    rewrite Nat2Z.inj_succ, Z.pow_succ_r by lia. cbn. f_equal. lia.
  - exists k. split; [cbn; lia|]. split; [cbn; by rewrite Hc|].
    intros v. cbn [digits_value]. rewrite Hc. apply Hv.
Qed.

Definition no_digit (s : string) : Prop :=
  match s with String c _ => is_digit c = false | EmptyString => True end.

Lemma span_digits_until ds rest :
  str_forall is_digit ds = true -> no_digit rest -> span_digits (ds +:+ rest) = (ds, rest).
Proof.
  intros Hds Hr. induction ds as [|c ds IH]; rewrite ?str_app_cons, ?str_app_nil_l.
  - destruct rest as [|c rest]; [done|]. cbn in *. by rewrite Hr.
  - cbn [str_forall span_digits] in *. apply andb_prop in Hds as [-> Hds]. by rewrite IH.
Qed.

(** What follows the seconds, or the fraction, does not look like one. *)
Definition zone_start (s : string) : Prop :=
  exists c t, s = String c t /\ is_digit c = false /\
    Ascii.eqb c "." = false /\ Ascii.eqb c "," = false.

Lemma parse_nsec_format n X :
  0 <= n < 10 ^ 9 -> zone_start X -> parse_nsec (format_nsec n +:+ X) = Some (n, X).
Proof.
  intros Hn (c & t & -> & Hd & H1 & H2). unfold format_nsec.
  destruct (Z.eqb_spec n 0) as [->|Hne].
  { rewrite str_app_nil_l. cbn [parse_nsec]. by rewrite H1, H2. }
  destruct (trim_zeros_spec (pad 9 n) (pad_digits 9 n)) as (k & Hl & Hds & Hv).
  specialize (Hv 0). rewrite (pad_value 9 n Hn) in Hv. rewrite pad_length in Hl.
  set (ds := trim_zeros (pad 9 n)) in *. clearbody ds.
  rewrite str_app_cons. cbn [parse_nsec Ascii.eqb Bool.eqb orb].
  rewrite span_digits_until by done.
  destruct ds as [|d ds]; [cbn in Hv; injection Hv as Hv; lia|].
  rewrite str_take_ge by lia.
  destruct (digits_value (String d ds) 0) as [u|]; [|done]. injection Hv as Hv.
  replace (9 - Z.of_nat (String.length (String d ds))) with (Z.of_nat k) by lia.
  do 2 f_equal. lia.
Qed.

Lemma zone_start_format t : zone_start (format_zone t).
Proof.
  unfold format_zone. destruct (t_offset t =? 0); [by eexists _, _|].
  destruct (zone_minutes t <? 0); by eexists _, _.
Qed.

Lemma whole_minutes off : off mod 60 = 0 -> off = 60 * Z.quot off 60.
Proof.
  intros Hm. pose proof (Z.quot_rem off 60 ltac:(lia)).
  assert (Z.rem off 60 = 0); [|lia]. apply Z.rem_divide; [lia|]. by apply Z.mod_divide.
Qed.

Lemma parse_zone_format t :
  t_offset t mod 60 = 0 -> Z.abs (t_offset t) < 86400 ->
  parse_zone (format_zone t) = Some (t_offset t, "").
Proof.
  intros Hm Ha. unfold format_zone, zone_minutes.
  destruct (Z.eqb_spec (t_offset t) 0) as [->|Hne]; [done|].
  pose proof (whole_minutes _ Hm) as Hq.
  set (z := Z.quot (t_offset t) 60) in *. clearbody z.
  assert (0 <= Z.abs z < 1440) by lia.
  pose proof (Z.div_mod (Z.abs z) 60). pose proof (Z.mod_pos_bound (Z.abs z) 60).
  assert (0 <= Z.abs z / 60 < 24).
  { split; [apply Z.div_pos|apply Z.div_lt_upper_bound]; lia. }
  assert (Hrest : forall c, parse_zone (String c (pad 2 (Z.abs z / 60) +:+
      String ":" (pad 2 (Z.abs z mod 60)))) =
    if Ascii.eqb c "Z" then Some (0, pad 2 (Z.abs z / 60) +:+ String ":" (pad 2 (Z.abs z mod 60)))
    else if Ascii.eqb c "+" then Some (60 * Z.abs z, "")
    else if Ascii.eqb c "-" then Some (- (60 * Z.abs z), "") else None).
  { intros c. cbn [parse_zone]. destruct (Ascii.eqb c "Z"); [done|].
    rewrite num2_pad, in_range_ok by lia. cbn [skip Ascii.eqb Bool.eqb].
    rewrite <- (str_app_nil_r (pad 2 (Z.abs z mod 60))), num2_pad, in_range_ok by lia.
    replace ((Z.abs z / 60 * 60 + Z.abs z mod 60) * 60) with (60 * Z.abs z) by lia. done. }
  destruct (Z.ltb_spec z 0); rewrite Hrest; cbn [Ascii.eqb Bool.eqb]; do 2 f_equal; lia.
Qed.

Lemma MarshalJSON_ok t : time_ok t = true -> MarshalJSON t = Ok (format t).
Proof.
  unfold time_ok, MarshalJSON, zone_minutes. intros H.
  rewrite !andb_true_iff, !Z.leb_le, !Z.ltb_lt, Z.eqb_eq in H.
  rewrite (proj2 (Z.ltb_ge (t_year t) 0)), (proj2 (Z.ltb_ge 9999 (t_year t))) by lia.
  cbn [orb]. destruct (Z.leb_spec 24 (Z.abs (Z.quot (t_offset t) 60) / 60)) as [Hbad|]; [|done].
  exfalso. pose proof (whole_minutes (t_offset t) ltac:(lia)).
  assert (Z.abs (Z.quot (t_offset t) 60) / 60 < 24); [|lia].
  apply Z.div_lt_upper_bound; lia.
Qed.

(** [UnmarshalJSON] gives back the time [MarshalJSON] wrote. *)
Lemma parse_format t : time_ok t = true -> parse_time (format t) = Some t.
Proof.
  unfold time_ok. intros H. rewrite !andb_true_iff, !Z.leb_le, !Z.ltb_lt, Z.eqb_eq in H.
  destruct t as [year month day hour minute sec nsec off]. cbn [t_year t_month t_day t_hour
    t_min t_sec t_nsec t_offset] in H.
  assert (Hday : day <= 31).
  { unfold daysIn in H. repeat case_match; lia. }
  unfold parse_time, format. cbn [t_year t_month t_day t_hour t_min t_sec t_nsec].
  rewrite num4_pad by lia. cbn [mbind option_bind skip Ascii.eqb Bool.eqb].
  rewrite num2_pad, in_range_ok by lia. cbn [mbind option_bind skip Ascii.eqb Bool.eqb].
  rewrite num2_pad by lia. cbn [mbind option_bind skip Ascii.eqb Bool.eqb].
  rewrite num12_pad, in_range_ok by lia. cbn [mbind option_bind skip Ascii.eqb Bool.eqb].
  rewrite num2_pad, in_range_ok by lia. cbn [mbind option_bind skip Ascii.eqb Bool.eqb].
  rewrite num2_pad, in_range_ok by lia. cbn [mbind option_bind].
  rewrite parse_nsec_format by (lia || apply zone_start_format). cbn [mbind option_bind].
  rewrite parse_zone_format by (cbn; lia). cbn [mbind option_bind t_offset].
  rewrite (proj2 (Z.leb_le 1 day)), (proj2 (Z.leb_le day (daysIn month year))) by lia. done.
Qed.
(** ** What is read is a time [MarshalJSON] can write, but for the zone *)

Lemma digit_of_range c z : digit_of c = Some z -> 0 <= z <= 9.
Proof.
  unfold digit_of, is_digit, between. destruct (_ && _) eqn:H; [|done].
  apply andb_prop in H as [H1%N.leb_le H2%N.leb_le]. intros [= <-]. lia.
Qed.

Lemma num2_range s z r : num2 s = Some (z, r) -> 0 <= z <= 99.
Proof.
  unfold num2. destruct s as [|a [|b s]]; try done.
  destruct (digit_of a) eqn:Ha; [|done]. destruct (digit_of b) eqn:Hb; [|done].
  apply digit_of_range in Ha, Hb. intros [= <- _]. lia.
Qed.

Lemma num4_range s z r : num4 s = Some (z, r) -> 0 <= z <= 9999.
Proof.
  unfold num4. destruct (num2 s) as [[hi s1]|] eqn:H1; [|done].
  destruct (num2 s1) as [[lo s2]|] eqn:H2; [|done].
  apply num2_range in H1, H2. intros [= <- _]. lia.
Qed.

Lemma in_range_inv lo hi o z r : in_range lo hi o = Some (z, r) -> lo <= z <= hi.
Proof.
  destruct o as [[z' r']|]; cbn; [|done]. destruct (_ && _) eqn:H; [|done].
  apply andb_prop in H as [H1%Z.leb_le H2%Z.leb_le]. intros [= <- _]. lia.
Qed.

Lemma digits_value_bound s v u :
  digits_value s v = Some u -> 0 <= v -> 0 <= u < (v + 1) * 10 ^ Z.of_nat (String.length s).
Proof.
  revert v; induction s as [|c s IH]; intros v; cbn [digits_value String.length].
  { change (10 ^ Z.of_nat 0) with 1. intros [= <-]. lia. }
  destruct (is_digit c) eqn:Hc; [|done]. intros Hu Hv.
  unfold is_digit, between in Hc. apply andb_prop in Hc as [H1%N.leb_le H2%N.leb_le].
  apply IH in Hu; [|lia]. rewrite Nat2Z.inj_succ, Z.pow_succ_r by lia.
  pose proof (Z.pow_nonneg 10 (Z.of_nat (String.length s))). nia.
Qed.

Lemma parse_nsec_range s z r : parse_nsec s = Some (z, r) -> 0 <= z < 10 ^ 9.
Proof.
  unfold parse_nsec. destruct s as [|c s]; [intros [= <- _]; lia|].
  destruct (_ || _); [|intros [= <- _]; lia].
  destruct (span_digits s) as [[|d ds] rest]; [intros [= <- _]; lia|].
  destruct (digits_value _ 0) as [v|] eqn:Hv; [|done]. intros [= <- _].
  apply digits_value_bound in Hv; [|lia]. rewrite Z.add_0_l, Z.mul_1_l in Hv.
  pose proof (str_take_length 9 (String d ds)) as Hl.
  set (n := String.length (str_take 9 (String d ds))) in *.
  assert (Hn : (n <= 9)%nat) by lia.
  replace (10 ^ 9) with (10 ^ Z.of_nat n * 10 ^ (9 - Z.of_nat n)).
  2: { rewrite <- Z.pow_add_r by lia. f_equal. lia. }
  pose proof (Z.pow_pos_nonneg 10 (9 - Z.of_nat n) ltac:(lia) ltac:(lia)).
  split; [apply Z.mul_nonneg_nonneg; lia|apply Z.mul_lt_mono_pos_r; lia].
Qed.

Lemma parse_zone_minutes s z r : parse_zone s = Some (z, r) -> z mod 60 = 0.
Proof.
  unfold parse_zone. intros H. repeat case_match; simplify_eq; try done.
  - apply Z_mod_mult.
  - rewrite <- Z.mul_opp_l. apply Z_mod_mult.
Qed.

Lemma parse_time_ok s t :
  parse_time s = Some t -> Z.abs (t_offset t) < 86400 -> time_ok t = true.
Proof.
  unfold parse_time. intros H Hz.
  apply bind_Some in H as ([year s0] & E0 & H). apply bind_Some in H as (s1 & _ & H).
  apply bind_Some in H as ([month s2] & E1 & H). apply bind_Some in H as (s3 & _ & H).
  apply bind_Some in H as ([day s4] & _ & H). apply bind_Some in H as (s5 & _ & H).
  apply bind_Some in H as ([hour s6] & E2 & H). apply bind_Some in H as (s7 & _ & H).
  apply bind_Some in H as ([minute s8] & E3 & H). apply bind_Some in H as (s9 & _ & H).
  apply bind_Some in H as ([sec s10] & E4 & H). apply bind_Some in H as ([nsec s11] & E5 & H).
  apply bind_Some in H as ([off s12] & E6 & H).
  destruct (_ && _) eqn:Hd; [|done]. injection H as <-. cbn [t_offset] in Hz.
  apply andb_prop in Hd as [[_ Hd1%Z.leb_le]%andb_prop Hd2%Z.leb_le].
  apply num4_range in E0. apply in_range_inv in E1, E2, E3, E4.
  apply parse_nsec_range in E5. apply parse_zone_minutes in E6.
  unfold time_ok. cbn [t_year t_month t_day t_hour t_min t_sec t_nsec t_offset].
  rewrite !andb_true_iff, !Z.leb_le, !Z.ltb_lt, Z.eqb_eq. repeat split; lia.
Qed.
End GoTime.
