(* ===== verification/Api.v ===== *)
(** * Api: the objects of the system (src/pkg/api)

    Nodes, pods and ReplicaSets as the Go structs have them, their validation through
    the struct tags, and the predicates the controller uses.  A Go string type
    ([PodStatus], [NodeStatus]) stays a string: a request may carry any text. *)

From S2P Require Import Prelude Errors GoTime.

(** ** Data *)

(** The code stores and returns timestamps and never computes with them. *)
Abbreviation Time := GoTime.Time.

Definition PodStatus : Type := string.
Definition PodPending : PodStatus := "Pending".
Definition PodRunning : PodStatus := "Running".
Definition PodSucceeded : PodStatus := "Succeeded".
Definition PodFailed : PodStatus := "Failed".
Definition PodScheduled : PodStatus := "Scheduled".

Definition ErrInvalidNodeSpec : sentinel :=
  Sentinel "api.ErrInvalidNodeSpec" "invalid node spec".
Definition ErrInvalidPodSpec : sentinel :=
  Sentinel "api.ErrInvalidPodSpec" "invalid pod spec".

Record Container := mkContainer { Container_Name : string; Image : string }.

Record ObjectMeta := mkObjectMeta {
  Name : string;
  Namespace : string;
  UID : string;
  ResourceVersion : string;
  CreationTimestamp : Time }.

Record NodeSpec := mkNodeSpec { Unschedulable : bool; ProviderID : string }.

Definition NodeStatus : Type := string.
Definition NodeNotReady : NodeStatus := "NotReady".
Definition NodeReady : NodeStatus := "Ready".
Definition NodeMemoryPressure : NodeStatus := "MemoryPressure".
Definition NodeDiskPressure : NodeStatus := "DiskPressure".

Record Node := mkNode {
  Node_ObjectMeta : ObjectMeta;
  Node_Spec : NodeSpec;
  Node_Status : NodeStatus }.

Record PodSpec := mkPodSpec {
  Containers : slice Container;
  PodSpec_Replicas : Z }.

Record Pod := mkPod {
  Pod_ObjectMeta : ObjectMeta;
  Pod_Spec : PodSpec;
  NodeName : string;
  Pod_Status : PodStatus }.

Record PodTemplateSpec := mkPodTemplateSpec {
  Template_ObjectMeta : ObjectMeta;
  Template_Spec : PodSpec }.

(** [Selector] is a Go map, which may be nil. *)
Record ReplicaSetSpec := mkReplicaSetSpec {
  RSSpec_Replicas : Z;
  Selector : option (gmap string string);
  Template : PodTemplateSpec }.

Record ReplicaSetStatus := mkReplicaSetStatus {
  RSStatus_Replicas : Z;
  FullyLabeledReplicas : Z;
  ReadyReplicas : Z;
  AvailableReplicas : Z }.

Record ReplicaSet := mkReplicaSet {
  RS_ObjectMeta : ObjectMeta;
  RS_Spec : ReplicaSetSpec;
  RS_Status : ReplicaSetStatus }.

#[export] Instance Container_eq_dec : EqDecision Container.
Proof. solve_decision. Defined.
#[export] Instance ObjectMeta_eq_dec : EqDecision ObjectMeta.
Proof. solve_decision. Defined.
#[export] Instance NodeSpec_eq_dec : EqDecision NodeSpec.
Proof. solve_decision. Defined.
#[export] Instance Node_eq_dec : EqDecision Node.
Proof. unfold NodeStatus. solve_decision. Defined.
#[export] Instance PodSpec_eq_dec : EqDecision PodSpec.
Proof. unfold slice. solve_decision. Defined.
#[export] Instance Pod_eq_dec : EqDecision Pod.
Proof. unfold PodStatus. solve_decision. Defined.

(** The promoted field [x.Name] of the structs that embed [ObjectMeta]. *)
Definition Pod_Name (p : Pod) : string := Name (Pod_ObjectMeta p).
Definition Node_Name (n : Node) : string := Name (Node_ObjectMeta n).
Definition RS_Name (rs : ReplicaSet) : string := Name (RS_ObjectMeta rs).

(** The zero [ObjectMeta] with a name, as a composite literal [ObjectMeta{Name: n}]. *)
Definition meta_named (n : string) : ObjectMeta := mkObjectMeta n "" "" "" GoTime.zero_time.

(** Assignments [pod.Status = s] and [pod.NodeName = n]. *)
Definition set_status (s : PodStatus) (p : Pod) : Pod :=
  mkPod (Pod_ObjectMeta p) (Pod_Spec p) (NodeName p) s.
Definition set_node (n : string) (p : Pod) : Pod :=
  mkPod (Pod_ObjectMeta p) (Pod_Spec p) n (Pod_Status p).

(** ** Struct tags *)

(** The [validate] tags of the structs.  [required] on a string excludes the empty one,
    on a slice it excludes nil (not the empty slice); on a struct [validator.New()]
    ignores it and checks the struct's own fields; [dive] checks every element. *)
Definition required_string (s : string) : bool := bool_decide (s <> "").

Definition Container_tags (c : Container) : bool :=
  required_string (Container_Name c) && required_string (Image c).

Definition ObjectMeta_tags (m : ObjectMeta) : bool := required_string (Name m).

Definition PodSpec_tags (s : PodSpec) : bool :=
  match Containers s with
  | None => false
  | Some cs => forallb Container_tags cs
  end && (0 <=? PodSpec_Replicas s).

Definition Pod_tags (p : Pod) : bool :=
  ObjectMeta_tags (Pod_ObjectMeta p) && PodSpec_tags (Pod_Spec p).

Definition Node_tags (n : Node) : bool := ObjectMeta_tags (Node_ObjectMeta n).

(** The tags of [ReplicaSet] ([gte=0] on the replica counts, [required] on the names and
    the template's containers). *)
Definition ReplicaSet_tags (rs : ReplicaSet) : bool :=
  ObjectMeta_tags (RS_ObjectMeta rs) && (0 <=? RSSpec_Replicas (RS_Spec rs)) &&
  ObjectMeta_tags (Template_ObjectMeta (Template (RS_Spec rs))) &&
  PodSpec_tags (Template_Spec (Template (RS_Spec rs))).

(** [validator.New().Struct(x)] of go-playground/validator, a parameter: [None] is nil. *)
Class Validator := {
  Struct_Node : Node -> option error;
  Struct_Pod : Pod -> option error }.

(** Its documentation: it returns nil exactly when every tag holds. *)
Class ValidatorLaws `{Validator} := {
  Struct_Node_tags : forall n, Struct_Node n = None <-> Node_tags n = true;
  Struct_Pod_tags : forall p, Struct_Pod p = None <-> Pod_tags p = true }.

(** [func (n *Node) Validate() error]. *)
Definition Node_Validate `{Validator} (n : Node) : option error :=
  match Struct_Node n with
  | Some _ => Some (ErrVar ErrInvalidNodeSpec)
  | None => None
  end.

(** [func (p *Pod) Validate() error]. *)
Definition Pod_Validate `{Validator} (p : Pod) : option error :=
  match Struct_Pod p with
  | Some err => Some (Errorf_w ErrInvalidPodSpec (": " +:+ Error err))
  | None => None
  end.

(** ** Activity and ownership *)

(** [func (p *Pod) IsActive() bool]. *)
Definition IsActive (p : Pod) : bool := bool_decide (Pod_Status p <> PodFailed).

(** [func IsOwnedBy(pod *Pod, meta *ObjectMeta) bool]. *)
Definition IsOwnedBy (pod : Pod) (meta : ObjectMeta) : bool :=
  HasPrefix (Pod_Name pod) (Name meta).

(** [func IsPodActiveAndOwnedBy(pod *Pod, meta *ObjectMeta) bool]. *)
Definition IsPodActiveAndOwnedBy (pod : Pod) (meta : ObjectMeta) : bool :=
  IsOwnedBy pod meta && IsActive pod.

(** ** Lemmas *)

Section validation.
Context `{ValidatorLaws}.

Lemma Pod_Validate_None p : Pod_Validate p = None <-> Pod_tags p = true.
Proof.
  rewrite <- Struct_Pod_tags. unfold Pod_Validate. by destruct (Struct_Pod p).
Qed.

Lemma Pod_Validate_cases p :
  (Pod_tags p = true /\ Pod_Validate p = None) \/
  (Pod_tags p = false /\ exists e, Pod_Validate p = Some e).
Proof.
  pose proof (Pod_Validate_None p) as [H1 H2].
  destruct (Pod_Validate p); [right | left; eauto].
  split; [|by eexists]. destruct (Pod_tags p); [by discriminate H2 | done].
Qed.

Lemma Node_tags_unnamed n : Node_Name n = "" -> Node_tags n = false.
Proof.
  unfold Node_Name, Node_tags, ObjectMeta_tags, required_string. intros ->.
  by rewrite bool_decide_eq_false_2 by (intros Hn; by apply Hn).
Qed.

Lemma Node_Validate_None n : Node_Validate n = None <-> Node_tags n = true.
Proof.
  rewrite <- Struct_Node_tags. unfold Node_Validate. by destruct (Struct_Node n).
Qed.

Lemma Node_Validate_cases n :
  (Node_tags n = true /\ Node_Validate n = None) \/
  (Node_tags n = false /\ exists e, Node_Validate n = Some e).
Proof.
  pose proof (Node_Validate_None n) as [H1 H2].
  destruct (Node_Validate n); [right | left; eauto].
  split; [|by eexists]. destruct (Node_tags n); [by discriminate H2 | done].
Qed.
End validation.

(** The tags do not look at the fields the scheduler and the kubelet assign. *)
Lemma Pod_tags_set_status s p : Pod_tags (set_status s p) = Pod_tags p.
Proof. done. Qed.
Lemma Pod_tags_set_node n p : Pod_tags (set_node n p) = Pod_tags p.
Proof. done. Qed.
Lemma Pod_Name_set_status s p : Pod_Name (set_status s p) = Pod_Name p.
Proof. done. Qed.
Lemma Pod_Name_set_node n p : Pod_Name (set_node n p) = Pod_Name p.
Proof. done. Qed.

#[export] Hint Rewrite Pod_tags_set_status Pod_tags_set_node
  Pod_Name_set_status Pod_Name_set_node : gokube.
