(* ===== verification/Storage.v ===== *)
(** * Storage: the storage interface and its etcd implementation (src/pkg/storage)

    [Storage] is the Go interface as a record of operations; [StorageLaws] is what the
    registries may assume of an implementation.  [EtcdStorage] is the implementation of
    etcd_storage.go over the etcd client's calls; it satisfies [StorageLaws] in every
    world whose etcd client satisfies [EtcdLaws]. *)

From S2P Require Import Prelude Errors Effects.

(** ** Objects and their encoding (src/pkg/runtime/object.go) *)

(** [runtime.Encode]/[runtime.Decode] ([json.Marshal]/[json.Unmarshal]) at the type of
    one kind of object.  Decoding is always into a fresh zero object. *)
Class Object (A : Type) := {
  Encode : A -> result string;
  Decode : string -> result A }.

(** The objects that survive the encoding, and that they do. *)
Class ObjectLaws (A : Type) `{Object A} := {
  storable : A -> Prop;
  Decode_Encode : forall a, storable a -> exists d, Encode a = Ok d /\ Decode d = Ok a }.

(** ** The interface (storage.go) *)

(** The [listObj interface{}] argument of [List]: a pointer to a slice of pointers to
    objects, whose current value is [s], or anything else. *)
Inductive ListObj (A : Type) := PtrToSlice (s : slice A) | NotPtrToSlice.
Arguments PtrToSlice {A} s.
Arguments NotPtrToSlice {A}.

(** [Get] and [List] write through a pointer; here they return what they write.  On an
    error the callers drop the target. *)
Record Storage := mkStorage {
  Create : forall A, Object A -> string -> A -> prog (result unit);
  Get : forall A, Object A -> string -> prog (result A);
  Update : forall A, Object A -> string -> A -> prog (result unit);
  Delete : string -> prog (result unit);
  DeletePrefix : string -> prog (result unit);
  List : forall A, Object A -> string -> ListObj A -> prog (result (slice A)) }.
Arguments Create _ {A _} key obj.
Arguments Get _ {A _} key.
Arguments Update _ {A _} key obj.
Arguments List _ {A _} prefix listObj.

Definition ErrEncoding : sentinel := Sentinel "storage.ErrEncoding" "error encoding object".
Definition ErrDecoding : sentinel := Sentinel "storage.ErrDecoding" "error decoding object".
Definition ErrNotFound : sentinel := Sentinel "storage.ErrNotFound" "object not found".
Definition ErrEtcdClient : sentinel := Sentinel "storage.ErrEtcdClient" "etcd client error".

(** ** The etcd implementation (etcd_storage.go) *)

Module EtcdStorage.

Definition Create {A} `{Object A} (key : string) (obj : A) : prog (result unit) :=
  match Encode obj with
  | Err err => mret (Err (Errorf_w ErrEncoding (": " +:+ Error err)))
  | Ok data =>
      r ← call (EtcdPut key data);
      match r with
      | Err err => mret (Err (Errorf_w ErrEtcdClient (": " +:+ Error err)))
      | Ok _ => mret (Ok ())
      end
  end.

Definition Get {A} `{Object A} (key : string) : prog (result A) :=
  r ← call (EtcdGet key);
  match r with
  | Err err => mret (Err (Errorf_w ErrEtcdClient (": " +:+ Error err)))
  | Ok resp =>
      match resp_kvs resp with
      | [] => mret (Err (Errorf_w ErrNotFound (": " +:+ key)))
      | kv :: _ =>
          match Decode (kv_value kv) with
          | Err err => mret (Err (Errorf_w ErrDecoding (": " +:+ Error err)))
          | Ok obj => mret (Ok obj)
          end
      end
  end.

Definition Update {A} `{Object A} (key : string) (obj : A) : prog (result unit) :=
  match Encode obj with
  | Err err => mret (Err (Errorf_w ErrEncoding (": " +:+ Error err)))
  | Ok data =>
      r ← call (EtcdPut key data);
      match r with
      | Err err => mret (Err (Errorf_w ErrEtcdClient (": " +:+ Error err)))
      | Ok _ => mret (Ok ())
      end
  end.

Definition Delete (key : string) : prog (result unit) :=
  r ← call (EtcdDelete key);
  match r with
  | Err err => mret (Err (Errorf_w ErrEtcdClient (": " +:+ Error err)))
  | Ok _ => mret (Ok ())
  end.

(** The loop of [List] over [resp.Kvs]: decode each value and append it. *)
Fixpoint decode_all {A} `{Object A} (kvs : list KeyValue) (sliceValue : slice A)
  : result (slice A) :=
  match kvs with
  | [] => Ok sliceValue
  | kv :: kvs =>
      match Decode (kv_value kv) with
      | Err err => Err (Errorf_w ErrDecoding (": " +:+ Error err))
      | Ok obj => decode_all kvs (append_slice sliceValue [obj])
      end
  end.

Definition List {A} `{Object A} (prefix : string) (listObj : ListObj A)
  : prog (result (slice A)) :=
  r ← call (EtcdGetPrefix prefix);
  match r with
  | Err err => mret (Err (Errorf_w ErrEtcdClient (": " +:+ Error err)))
  | Ok resp =>
      match listObj with
      | NotPtrToSlice => mret (Err (ErrText "listObj must be a pointer to a slice"))
      | PtrToSlice sliceValue => mret (decode_all (resp_kvs resp) sliceValue)
      end
  end.

Definition DeletePrefix (prefix : string) : prog (result unit) :=
  r ← call (EtcdDeletePrefix prefix);
  match r with
  | Err err => mret (Err (Errorf_w ErrEtcdClient (": " +:+ Error err)))
  | Ok _ => mret (Ok ())
  end.

Definition NewEtcdStorage : Storage :=
  mkStorage (@Create) (@Get) (@Update) Delete DeletePrefix (@List).

End EtcdStorage.

(** ** What the code relies on of the etcd client *)

(** What a world holds in etcd (keys and values), and that etcd answers every call. *)
Class StoreView (W : Type) := {
  stored : W -> gmap string string;
  up : W -> Prop }.

Definition with_prefix (prefix : string) (m : gmap string string) : gmap string string :=
  filter (fun kv => HasPrefix kv.1 prefix = true) m.

Definition without_prefix (prefix : string) (m : gmap string string) : gmap string string :=
  filter (fun kv => ~ HasPrefix kv.1 prefix = true) m.

(** The etcd client: a call that returns no error has its documented effect; a call that
    fails may or may not have taken effect (a timeout does not tell); reads change
    nothing; a range read returns every key with the prefix once.  A world that is [up]
    stays up and its calls do not fail. *)
Class EtcdLaws (W : Type) `{World W, StoreView W} := {
  etcd_put : forall k v w,
    match handle (EtcdPut k v) w with
    | (Ok _, w') => stored w' = <[k:=v]> (stored w)
    | (Err _, w') => ~ up w /\ (stored w' = stored w \/ stored w' = <[k:=v]> (stored w))
    end;
  etcd_get : forall k w,
    match handle (EtcdGet k) w with
    | (Ok r, w') =>
        stored w' = stored w /\
        kv_value <$> resp_kvs r = option_list (stored w !! k)
    | (Err _, w') => ~ up w /\ stored w' = stored w
    end;
  etcd_get_prefix : forall p w,
    match handle (EtcdGetPrefix p) w with
    | (Ok r, w') =>
        stored w' = stored w /\
        (fun kv => (kv_key kv, kv_value kv)) <$> resp_kvs r
          ≡ₚ map_to_list (with_prefix p (stored w))
    | (Err _, w') => ~ up w /\ stored w' = stored w
    end;
  etcd_delete : forall k w,
    match handle (EtcdDelete k) w with
    | (Ok _, w') => stored w' = delete k (stored w)
    | (Err _, w') => ~ up w /\ (stored w' = stored w \/ stored w' = delete k (stored w))
    end;
  etcd_delete_prefix : forall p w,
    match handle (EtcdDeletePrefix p) w with
    | (Ok _, w') => stored w' = without_prefix p (stored w)
    | (Err _, w') =>
        ~ up w /\ (stored w' = stored w \/ stored w' = without_prefix p (stored w))
    end;
  etcd_up : forall e w, up w -> up (handle e w).2;
  etcd_local : forall e w, is_local e = true -> stored (handle e w).2 = stored w }.

(** ** What an implementation of [Storage] promises *)

Definition wraps (e : error) (s : sentinel) : Prop := exists rest, e = Errorf_w s rest.

Lemma wraps_Errorf_w s rest : wraps (Errorf_w s rest) s.
Proof. by exists rest. Qed.

Lemma wraps_Is e s t : wraps e s -> errors_Is e t = bool_decide (s = t).
Proof. by intros [rest ->]. Qed.

#[export] Hint Resolve wraps_Errorf_w : gokube.

Section posts.
Context `{StoreView W, World W} {RL : RandLaws W}.

(** No call of the store touches the random source, and a healthy store stays so. *)
Definition frame (w w' : W) : Prop := (up w -> up w') /\ rng w' = rng w.

Lemma frame_refl w : frame w w.
Proof. done. Qed.

Lemma frame_trans w1 w2 w3 : frame w1 w2 -> frame w2 w3 -> frame w1 w3.
Proof. intros [U1 R1] [U2 R2]. split; [auto | by rewrite R2]. Qed.

Lemma frame_up w w' : frame w w' -> up w -> up w'.
Proof. by intros [? _]. Qed.

Definition put_post `{Object A} (key : string) (obj : A) (w : W)
    (r : result unit) (w' : W) : Prop :=
  frame w w' /\
  match r with
  | Ok _ => exists d, Encode obj = Ok d /\ stored w' = <[key:=d]> (stored w)
  | Err e =>
      (wraps e ErrEncoding /\ (exists e', Encode obj = Err e') /\ stored w' = stored w) \/
      (wraps e ErrEtcdClient /\ ~ up w /\
       exists d, Encode obj = Ok d /\
         (stored w' = stored w \/ stored w' = <[key:=d]> (stored w)))
  end.

Definition get_post `{Object A} (key : string) (w : W) (r : result A) (w' : W) : Prop :=
  frame w w' /\ stored w' = stored w /\
  match r with
  | Ok a => exists d, stored w !! key = Some d /\ Decode d = Ok a
  | Err e =>
      (wraps e ErrNotFound /\ stored w !! key = None) \/
      (wraps e ErrDecoding /\
       exists d e', stored w !! key = Some d /\ Decode (A:=A) d = Err e') \/
      (wraps e ErrEtcdClient /\ ~ up w)
  end.

Definition delete_post (key : string) (w : W) (r : result unit) (w' : W) : Prop :=
  frame w w' /\
  match r with
  | Ok _ => stored w' = delete key (stored w)
  | Err e =>
      wraps e ErrEtcdClient /\ ~ up w /\
      (stored w' = stored w \/ stored w' = delete key (stored w))
  end.

Definition delete_prefix_post (p : string) (w : W) (r : result unit) (w' : W) : Prop :=
  frame w w' /\
  match r with
  | Ok _ => stored w' = without_prefix p (stored w)
  | Err e =>
      wraps e ErrEtcdClient /\ ~ up w /\
      (stored w' = stored w \/ stored w' = without_prefix p (stored w))
  end.

Definition list_post `{Object A} (p : string) (init : slice A) (w : W)
    (r : result (slice A)) (w' : W) : Prop :=
  frame w w' /\ stored w' = stored w /\
  match r with
  | Ok s =>
      exists kvs objs,
        kvs ≡ₚ map_to_list (with_prefix p (stored w)) /\
        Forall2 (fun kv a => Decode kv.2 = Ok a) kvs objs /\
        s = append_slice init objs
  | Err e =>
      (wraps e ErrDecoding /\
       exists k d e', stored w !! k = Some d /\ HasPrefix k p = true /\
         Decode (A:=A) d = Err e') \/
      (wraps e ErrEtcdClient /\ ~ up w)
  end.
End posts.

#[export] Hint Resolve frame_refl : gokube.
#[export] Hint Immediate frame_up : gokube.

Class StorageLaws (S : Storage) (W : Type) `{StoreView W, World W, !RandLaws W} := {
  Create_law : forall `{Object A} key (obj : A) w,
    twp (Create S key obj) (put_post key obj w) w;
  Get_law : forall `{Object A} key w,
    twp (Get S (A:=A) key) (get_post key w) w;
  Update_law : forall `{Object A} key (obj : A) w,
    twp (Update S key obj) (put_post key obj w) w;
  Delete_law : forall key w, twp (Delete S key) (delete_post key w) w;
  DeletePrefix_law : forall p w, twp (DeletePrefix S p) (delete_prefix_post p w) w;
  List_law : forall `{Object A} p (init : slice A) w,
    twp (List S p (PtrToSlice init)) (list_post p init w) w;
  local_stored : forall e w, is_local e = true -> stored (handle e w).2 = stored w;
  local_up : forall e w, is_local e = true -> up w -> up (handle e w).2 }.

(** ** The etcd implementation keeps the promise *)

Lemma append_slice_cons {A} (s : slice A) a l :
  append_slice (append_slice s [a]) l = append_slice s (a :: l).
Proof. destruct l; [done|]. cbn. by rewrite <- app_assoc. Qed.

Lemma decode_all_ok `{Object A} kvs (s s' : slice A) :
  EtcdStorage.decode_all kvs s = Ok s' <->
  exists objs, Forall2 (fun kv a => Decode (kv_value kv) = Ok a) kvs objs /\
    s' = append_slice s objs.
Proof.
  revert s; induction kvs as [|kv kvs IH]; intros s; cbn.
  { split; [intros [= <-]; by exists [] | intros (objs & Hf & ->)].
    by inversion Hf. }
  destruct (Decode (kv_value kv)) as [a|e] eqn:Hd.
  - rewrite IH. split.
    + intros (objs & Hf & ->). exists (a :: objs).
      split; [by constructor | apply append_slice_cons].
    + intros (objs & Hf & ->). inversion Hf as [|? b ? objs' Hb Hf']; subst.
      rewrite Hd in Hb. simplify_eq. exists objs'.
      split; [done | symmetry; apply append_slice_cons].
  - split; [done|]. intros (objs & Hf & _). inversion Hf; subst; congruence.
Qed.

Lemma decode_all_err `{Object A} kvs (s : slice A) e :
  EtcdStorage.decode_all kvs s = Err e ->
  wraps e ErrDecoding /\
  exists kv e', kv ∈ kvs /\ Decode (A:=A) (kv_value kv) = Err e'.
Proof.
  revert s; induction kvs as [|kv kvs IH]; intros s; cbn; [done|].
  destruct (Decode (kv_value kv)) as [a|e'] eqn:Hd.
  - intros (Hw & kv' & e' & Hin & He)%IH. split; [done|].
    exists kv', e'. by split; [right|].
  - intros [= <-]. split; [by eexists|]. exists kv, e'. by split; [left|].
Qed.

Section etcd_storage.
Context `{EtcdLaws W} `{!RandLaws W}.

Lemma etcd_frame e w : is_local e = false -> frame w (handle e w).2.
Proof.
  intros He. split; [apply etcd_up|]. apply rng_frame. by intros ->.
Qed.

(** [Create] and [Update] have the same body. *)
Lemma etcd_Create_law `{Object A} key (obj : A) w :
  twp (EtcdStorage.Create key obj) (put_post key obj w) w.
Proof.
  unfold EtcdStorage.Create, put_post.
  destruct (Encode obj) as [d|e] eqn:Henc.
  2: { rewrite twp_ret. repeat split; [done|]. left. eauto with gokube. }
  do 2 prog_step. pose proof (etcd_frame (EtcdPut key d) w eq_refl).
  pose proof (etcd_put key d w) as Hput.
  destruct (handle (EtcdPut key d) w) as [[[]|e] w']; cbn in *.
  - apply twp_ret. eauto.
  - apply twp_ret. split; [done|]. destruct Hput. right. eauto 10 with gokube.
Qed.

Lemma etcd_Get_law `{Object A} key w :
  twp (EtcdStorage.Get (A:=A) key) (get_post key w) w.
Proof.
  unfold EtcdStorage.Get, get_post. do 2 prog_step.
  pose proof (etcd_frame (EtcdGet key) w eq_refl) as Hfr.
  pose proof (etcd_get key w) as Hget.
  destruct (handle (EtcdGet key) w) as [[r|e] w']; cbn in Hfr, Hget |- *.
  2: { apply twp_ret. destruct Hget. eauto 10 with gokube. }
  destruct Hget as [Hst Hkvs], (resp_kvs r) as [|kv kvs]; cbn in Hkvs |- *.
  { apply twp_ret. destruct (stored w !! key) eqn:Hk; [done|]. eauto 10 with gokube. }
  destruct (stored w !! key) as [v|] eqn:Hk; [|done].
  cbn in Hkvs; simplify_eq.
  destruct (Decode (kv_value kv)) as [a|e] eqn:Hd; apply twp_ret; eauto 12 with gokube.
Qed.

Lemma etcd_Delete_law key w : twp (EtcdStorage.Delete key) (delete_post key w) w.
Proof.
  unfold EtcdStorage.Delete, delete_post. do 2 prog_step.
  pose proof (etcd_frame (EtcdDelete key) w eq_refl) as Hfr.
  pose proof (etcd_delete key w) as Hdel.
  destruct (handle (EtcdDelete key) w) as [[[]|e] w']; cbn in Hfr, Hdel |- *;
    apply twp_ret; [by split | destruct Hdel; eauto 10 with gokube].
Qed.

Lemma etcd_DeletePrefix_law p w :
  twp (EtcdStorage.DeletePrefix p) (delete_prefix_post p w) w.
Proof.
  unfold EtcdStorage.DeletePrefix, delete_prefix_post. do 2 prog_step.
  pose proof (etcd_frame (EtcdDeletePrefix p) w eq_refl) as Hfr.
  pose proof (etcd_delete_prefix p w) as Hdel.
  destruct (handle (EtcdDeletePrefix p) w) as [[[]|e] w']; cbn in Hfr, Hdel |- *;
    apply twp_ret; [by split | destruct Hdel; eauto 10 with gokube].
Qed.

Lemma etcd_List_law `{Object A} p (init : slice A) w :
  twp (EtcdStorage.List p (PtrToSlice init)) (list_post p init w) w.
Proof.
  unfold EtcdStorage.List, list_post. do 2 prog_step.
  pose proof (etcd_frame (EtcdGetPrefix p) w eq_refl) as Hfr.
  pose proof (etcd_get_prefix p w) as Hget.
  destruct (handle (EtcdGetPrefix p) w) as [[r|e] w']; cbn in Hfr, Hget |- *.
  2: { apply twp_ret. destruct Hget. eauto 10 with gokube. }
  destruct Hget as [Hst Hkvs]. apply twp_ret. split; [done|]. split; [done|].
  destruct (EtcdStorage.decode_all (resp_kvs r) init) as [s|e] eqn:Hd.
  - apply decode_all_ok in Hd as (objs & Hf & ->).
    exists ((fun kv => (kv_key kv, kv_value kv)) <$> resp_kvs r), objs.
    split; [done|]. split; [|done]. by apply Forall2_fmap_l.
  - left. apply decode_all_err in Hd as (Hw & kv & e' & Hin & He).
    split; [done|].
    apply (list_elem_of_fmap_2 (fun kv => (kv_key kv, kv_value kv))) in Hin.
    rewrite Hkvs, elem_of_map_to_list in Hin.
    apply map_lookup_filter_Some in Hin as [Hin Hp].
    by exists (kv_key kv), (kv_value kv), e'.
Qed.

#[export] Instance EtcdStorage_laws : StorageLaws EtcdStorage.NewEtcdStorage W := {
  Create_law A _ := etcd_Create_law;
  Get_law A _ := etcd_Get_law;
  Update_law A _ := etcd_Create_law;
  Delete_law := etcd_Delete_law;
  DeletePrefix_law := etcd_DeletePrefix_law;
  List_law A _ := etcd_List_law;
  local_stored := etcd_local;
  local_up e w _ := etcd_up e w }.

(** C16: the etcd storage implements the storage interface.  Over an etcd client with its
    documented behaviour, failures included, each operation returns and does what the
    interface promises: writes and deletions take effect or report [ErrEtcdClient],
    objects that do not encode or decode give [ErrEncoding] and [ErrDecoding], a missing
    key [ErrNotFound], and listing returns every object under the prefix once. *)
Theorem EtcdStorage_implements_Storage : StorageLaws EtcdStorage.NewEtcdStorage W.
Proof. apply EtcdStorage_laws. Qed.
End etcd_storage.
