(* ===== verification/Runtime.v ===== *)
(** * Runtime: encoding and decoding of the API objects (src/pkg/runtime/object.go)

    [runtime.Encode] is [json.Marshal] and [runtime.Decode] is [json.Unmarshal] into a fresh
    zero object, at the structs of src/pkg/api with their [json] tags.  The encoders follow
    the tags field by field ([omitempty], nil slices and maps as null, map keys sorted); the
    decoders follow package json: fields are found by their exact names and then ignoring
    case, unknown members are skipped, null leaves scalars and structs as they are, the last
    of several members with one name wins and structs are merged.  (A slice that occurs a
    third time may see elements of an earlier, longer occurrence in Go; here it does not.)

    The objects whose strings are UTF-8, whose integers fit int32 and whose times are in
    range survive the round trip ([objects_roundtrip]), so the encoding satisfies the laws the
    storage relies on. *)

From Stdlib Require Import Ascii.
From S2P Require Import Prelude Errors Effects JsonText GoTime Api Storage.

Module Runtime.
Import JsonText.

(** ** Encoding *)

Definition jstring (s : string) : json := JString (quoted s).
Definition jint (z : Z) : json := JNumber (print_int z).

(** The members of a struct: a field, and one with the option [omitempty]. *)
Definition member (k : string) (j : json) : list (string * json) := [(k, j)].
Definition omit_string (k s : string) : list (string * json) :=
  if bool_decide (s = "") then [] else member k (jstring s).
Definition omit_bool (k : string) (b : bool) : list (string * json) :=
  if b then member k (JBool b) else [].
Definition omit_int (k : string) (z : Z) : list (string * json) :=
  if z =? 0 then [] else member k (jint z).

Definition slice_json {A} (f : A -> json) (s : slice A) : json :=
  match s with None => JNull | Some l => JArray (f <$> l) end.

(** A map with its keys in order. *)
Definition map_json (m : option (gmap string string)) : json :=
  match m with
  | None => JNull
  | Some m =>
      JObject ((fun k => (k, jstring (default "" (m !! k))))
               <$> merge_sort String.le (map_to_list m).*1)
  end.

(** A time in a struct; [omitempty] has no effect on structs. *)
Definition Time_json (t : Time) : result json :=
  match GoTime.MarshalJSON t with
  | Ok s => Ok (JString s)
  | Err e => Err (ErrText ("json: error calling MarshalJSON for type time.Time: " +:+ Error e))
  end.

Definition Container_json (c : Container) : json :=
  JObject (member "name" (jstring (Container_Name c)) ++ member "image" (jstring (Image c))).

Definition ObjectMeta_json (m : ObjectMeta) : result json :=
  match Time_json (CreationTimestamp m) with
  | Err e => Err e
  | Ok t =>
      Ok (JObject (
        member "name" (jstring (Name m)) ++
        omit_string "namespace" (Namespace m) ++
        omit_string "uid" (UID m) ++
        omit_string "resourceVersion" (ResourceVersion m) ++
        member "creationTimestamp" t))
  end.

Definition NodeSpec_json (s : NodeSpec) : json :=
  JObject (omit_bool "unschedulable" (Unschedulable s) ++ omit_string "providerID" (ProviderID s)).

Definition Node_json (n : Node) : result json :=
  match ObjectMeta_json (Node_ObjectMeta n) with
  | Err e => Err e
  | Ok meta =>
      Ok (JObject (
        member "metadata" meta ++ member "spec" (NodeSpec_json (Node_Spec n)) ++
        omit_string "status" (Node_Status n)))
  end.

Definition PodSpec_json (s : PodSpec) : json :=
  JObject (member "containers" (slice_json Container_json (Containers s)) ++
           member "replicas" (jint (PodSpec_Replicas s))).

Definition Pod_json (p : Pod) : result json :=
  match ObjectMeta_json (Pod_ObjectMeta p) with
  | Err e => Err e
  | Ok meta =>
      Ok (JObject (
        member "metadata" meta ++ member "spec" (PodSpec_json (Pod_Spec p)) ++
        omit_string "nodeName" (NodeName p) ++ member "status" (jstring (Pod_Status p))))
  end.

Definition PodTemplateSpec_json (t : PodTemplateSpec) : result json :=
  match ObjectMeta_json (Template_ObjectMeta t) with
  | Err e => Err e
  | Ok meta =>
      Ok (JObject (member "metadata" meta ++ member "spec" (PodSpec_json (Template_Spec t))))
  end.

Definition ReplicaSetSpec_json (s : ReplicaSetSpec) : result json :=
  match PodTemplateSpec_json (Template s) with
  | Err e => Err e
  | Ok template =>
      Ok (JObject (
        member "replicas" (jint (RSSpec_Replicas s)) ++
        member "selector" (map_json (Selector s)) ++ member "template" template))
  end.

Definition ReplicaSetStatus_json (s : ReplicaSetStatus) : json :=
  JObject (
    member "replicas" (jint (RSStatus_Replicas s)) ++
    omit_int "fullyLabeledReplicas" (FullyLabeledReplicas s) ++
    omit_int "readyReplicas" (ReadyReplicas s) ++
    omit_int "availableReplicas" (AvailableReplicas s)).

Definition ReplicaSet_json (rs : ReplicaSet) : result json :=
  match ObjectMeta_json (RS_ObjectMeta rs) with
  | Err e => Err e
  | Ok meta =>
      match ReplicaSetSpec_json (RS_Spec rs) with
      | Err e => Err e
      | Ok spec =>
          Ok (JObject (member "metadata" meta ++ member "spec" spec ++
                       member "status" (ReplicaSetStatus_json (RS_Status rs))))
      end
  end.

(** [json.Marshal]. *)
Definition Marshal (j : result json) : result string :=
  match j with Ok j => Ok (print j) | Err e => Err e end.

(** ** Decoding *)

(** A decoder takes the value the target has before; [None] is a type error. *)
Definition decoder (A : Type) : Type := json -> A -> option A.

Definition dec_string : decoder string := fun j old =>
  match j with
  | JNull => Some old
  | JString l => string_value l
  | _ => None
  end.

Definition dec_bool : decoder bool := fun j old =>
  match j with
  | JNull => Some old
  | JBool b => Some b
  | _ => None
  end.

Definition dec_int32 : decoder Z := fun j old =>
  match j with
  | JNull => Some old
  | JNumber l =>
      match parse_int l with
      | Some z => if (int32_min <=? z) && (z <=? int32_max) then Some z else None
      | None => None
      end
  | _ => None
  end.

(** [Time.UnmarshalJSON] sees the literal with its escapes. *)
Definition dec_time : decoder Time := fun j old =>
  match j with
  | JNull => Some old
  | JString l => GoTime.parse_time l
  | _ => None
  end.

(** The elements are decoded into those of the old slice as long as there are any. *)
Fixpoint dec_elems {A} (d : decoder A) (zero : A) (l : list json) (old : list A)
  : option (list A) :=
  match l with
  | [] => Some []
  | j :: l =>
      match d j (default zero (head old)), dec_elems d zero l (tail old) with
      | Some a, Some l => Some (a :: l)
      | _, _ => None
      end
  end.

Definition dec_slice {A} (d : decoder A) (zero : A) : decoder (slice A) := fun j old =>
  match j with
  | JNull => Some None
  | JArray l => Some <$> dec_elems d zero l (elems old)
  | _ => None
  end.

Fixpoint dec_entries (kvs : list (string * json)) (m : gmap string string)
  : option (gmap string string) :=
  match kvs with
  | [] => Some m
  | (k, j) :: kvs =>
      match dec_string j "" with
      | Some v => dec_entries kvs (<[k:=v]> m)
      | None => None
      end
  end.

Definition dec_map : decoder (option (gmap string string)) := fun j old =>
  match j with
  | JNull => Some None
  | JObject kvs => Some <$> dec_entries kvs (default ∅ old)
  | _ => None
  end.

(** [foldName] for comparison with ASCII names: small letters become capitals, and so do
    the long s (U+017F) and the Kelvin sign (U+212A). *)
Fixpoint foldName (s : string) : string :=
  match s with
  | EmptyString => ""
  | String a s1 =>
      if between 97 122 a then String (byte (code a - 32)) (foldName s1)
      else match s1 with
           | String b s2 =>
               if (code a =? 197)%N && (code b =? 191)%N then String "S" (foldName s2)
               else match s2 with
                    | String c s3 =>
                        if (code a =? 226)%N && (code b =? 132)%N && (code c =? 170)%N
                        then String "K" (foldName s3) else String a (foldName s1)
                    | EmptyString => String a (foldName s1)
                    end
           | EmptyString => String a (foldName s1)
           end
  end.

(** A field of a struct: its name and how to decode into it. *)
Definition field (A : Type) : Type := string * decoder A.

Definition fld {A B} (name : string) (d : decoder B) (get : A -> B) (set : B -> A -> A)
  : field A :=
  (name, fun j a => match d j (get a) with Some b => Some (set b a) | None => None end).

Fixpoint find_by {A} (f : string -> bool) (fs : list (field A)) : option (decoder A) :=
  match fs with
  | [] => None
  | (n, d) :: fs => if f n then Some d else find_by f fs
  end.

(** The field of a member: by its exact name, else ignoring case. *)
Definition find_field {A} (fs : list (field A)) (k : string) : option (decoder A) :=
  match find_by (String.eqb k) fs with
  | Some d => Some d
  | None => find_by (fun n => String.eqb (foldName k) (foldName n)) fs
  end.

Fixpoint dec_members {A} (fs : list (field A)) (kvs : list (string * json)) (a : A)
  : option A :=
  match kvs with
  | [] => Some a
  | (k, j) :: kvs =>
      match find_field fs k with
      | None => dec_members fs kvs a
      | Some d => match d j a with Some a => dec_members fs kvs a | None => None end
      end
  end.

Definition dec_struct {A} (fs : list (field A)) : decoder A := fun j a =>
  match j with
  | JNull => Some a
  | JObject kvs => dec_members fs kvs a
  | _ => None
  end.

Definition zero_Container : Container := mkContainer "" "".
Definition Container_fields : list (field Container) :=
  [ fld "name" dec_string Container_Name (fun x c => mkContainer x (Image c));
    fld "image" dec_string Image (fun x c => mkContainer (Container_Name c) x) ].

Definition zero_ObjectMeta : ObjectMeta := meta_named "".
Definition ObjectMeta_fields : list (field ObjectMeta) :=
  [ fld "name" dec_string Name (fun x m =>
      mkObjectMeta x (Namespace m) (UID m) (ResourceVersion m) (CreationTimestamp m));
    fld "namespace" dec_string Namespace (fun x m =>
      mkObjectMeta (Name m) x (UID m) (ResourceVersion m) (CreationTimestamp m));
    fld "uid" dec_string UID (fun x m =>
      mkObjectMeta (Name m) (Namespace m) x (ResourceVersion m) (CreationTimestamp m));
    fld "resourceVersion" dec_string ResourceVersion (fun x m =>
      mkObjectMeta (Name m) (Namespace m) (UID m) x (CreationTimestamp m));
    fld "creationTimestamp" dec_time CreationTimestamp (fun x m =>
      mkObjectMeta (Name m) (Namespace m) (UID m) (ResourceVersion m) x) ].

Definition zero_NodeSpec : NodeSpec := mkNodeSpec false "".
Definition NodeSpec_fields : list (field NodeSpec) :=
  [ fld "unschedulable" dec_bool Unschedulable (fun x s => mkNodeSpec x (ProviderID s));
    fld "providerID" dec_string ProviderID (fun x s => mkNodeSpec (Unschedulable s) x) ].

Definition zero_Node : Node := mkNode zero_ObjectMeta zero_NodeSpec "".
Definition Node_fields : list (field Node) :=
  [ fld "metadata" (dec_struct ObjectMeta_fields) Node_ObjectMeta (fun x n =>
      mkNode x (Node_Spec n) (Node_Status n));
    fld "spec" (dec_struct NodeSpec_fields) Node_Spec (fun x n =>
      mkNode (Node_ObjectMeta n) x (Node_Status n));
    fld "status" dec_string Node_Status (fun x n =>
      mkNode (Node_ObjectMeta n) (Node_Spec n) x) ].

Definition zero_PodSpec : PodSpec := mkPodSpec None 0.
Definition PodSpec_fields : list (field PodSpec) :=
  [ fld "containers" (dec_slice (dec_struct Container_fields) zero_Container) Containers
      (fun x s => mkPodSpec x (PodSpec_Replicas s));
    fld "replicas" dec_int32 PodSpec_Replicas (fun x s => mkPodSpec (Containers s) x) ].

Definition zero_Pod : Pod := mkPod zero_ObjectMeta zero_PodSpec "" "".
Definition Pod_fields : list (field Pod) :=
  [ fld "metadata" (dec_struct ObjectMeta_fields) Pod_ObjectMeta (fun x p =>
      mkPod x (Pod_Spec p) (NodeName p) (Pod_Status p));
    fld "spec" (dec_struct PodSpec_fields) Pod_Spec (fun x p =>
      mkPod (Pod_ObjectMeta p) x (NodeName p) (Pod_Status p));
    fld "nodeName" dec_string NodeName (fun x p =>
      mkPod (Pod_ObjectMeta p) (Pod_Spec p) x (Pod_Status p));
    fld "status" dec_string Pod_Status (fun x p =>
      mkPod (Pod_ObjectMeta p) (Pod_Spec p) (NodeName p) x) ].

Definition zero_PodTemplateSpec : PodTemplateSpec :=
  mkPodTemplateSpec zero_ObjectMeta zero_PodSpec.
Definition PodTemplateSpec_fields : list (field PodTemplateSpec) :=
  [ fld "metadata" (dec_struct ObjectMeta_fields) Template_ObjectMeta (fun x t =>
      mkPodTemplateSpec x (Template_Spec t));
    fld "spec" (dec_struct PodSpec_fields) Template_Spec (fun x t =>
      mkPodTemplateSpec (Template_ObjectMeta t) x) ].

Definition zero_ReplicaSetSpec : ReplicaSetSpec :=
  mkReplicaSetSpec 0 None zero_PodTemplateSpec.
Definition ReplicaSetSpec_fields : list (field ReplicaSetSpec) :=
  [ fld "replicas" dec_int32 RSSpec_Replicas (fun x s =>
      mkReplicaSetSpec x (Selector s) (Template s));
    fld "selector" dec_map Selector (fun x s =>
      mkReplicaSetSpec (RSSpec_Replicas s) x (Template s));
    fld "template" (dec_struct PodTemplateSpec_fields) Template (fun x s =>
      mkReplicaSetSpec (RSSpec_Replicas s) (Selector s) x) ].

Definition zero_ReplicaSetStatus : ReplicaSetStatus := mkReplicaSetStatus 0 0 0 0.
Definition ReplicaSetStatus_fields : list (field ReplicaSetStatus) :=
  [ fld "replicas" dec_int32 RSStatus_Replicas (fun x s => mkReplicaSetStatus x
      (FullyLabeledReplicas s) (ReadyReplicas s) (AvailableReplicas s));
    fld "fullyLabeledReplicas" dec_int32 FullyLabeledReplicas (fun x s => mkReplicaSetStatus
      (RSStatus_Replicas s) x (ReadyReplicas s) (AvailableReplicas s));
    fld "readyReplicas" dec_int32 ReadyReplicas (fun x s => mkReplicaSetStatus
      (RSStatus_Replicas s) (FullyLabeledReplicas s) x (AvailableReplicas s));
    fld "availableReplicas" dec_int32 AvailableReplicas (fun x s => mkReplicaSetStatus
      (RSStatus_Replicas s) (FullyLabeledReplicas s) (ReadyReplicas s) x) ].

Definition zero_ReplicaSet : ReplicaSet :=
  mkReplicaSet zero_ObjectMeta zero_ReplicaSetSpec zero_ReplicaSetStatus.
Definition ReplicaSet_fields : list (field ReplicaSet) :=
  [ fld "metadata" (dec_struct ObjectMeta_fields) RS_ObjectMeta (fun x rs =>
      mkReplicaSet x (RS_Spec rs) (RS_Status rs));
    fld "spec" (dec_struct ReplicaSetSpec_fields) RS_Spec (fun x rs =>
      mkReplicaSet (RS_ObjectMeta rs) x (RS_Status rs));
    fld "status" (dec_struct ReplicaSetStatus_fields) RS_Status (fun x rs =>
      mkReplicaSet (RS_ObjectMeta rs) (RS_Spec rs) x) ].

(** [json.Unmarshal] into the value [zero]; the texts of the errors are not modelled. *)
Definition Unmarshal {A} (d : decoder A) (data : string) (zero : A) : result A :=
  match parse data with
  | POk j _ =>
      match d j zero with
      | Some a => Ok a
      | None => Err (ErrText "json: cannot unmarshal")
      end
  | PErr => Err (ErrText "invalid character")
  | PFuel => Err (ErrText "out of fuel")
  end.

(** The objects of the API with this encoding. *)
Definition Node_Object : Object Node := {|
  Encode n := Marshal (Node_json n);
  Decode data := Unmarshal (dec_struct Node_fields) data zero_Node |}.

Definition Pod_Object : Object Pod := {|
  Encode p := Marshal (Pod_json p);
  Decode data := Unmarshal (dec_struct Pod_fields) data zero_Pod |}.

Definition ReplicaSet_Object : Object ReplicaSet := {|
  Encode rs := Marshal (ReplicaSet_json rs);
  Decode data := Unmarshal (dec_struct ReplicaSet_fields) data zero_ReplicaSet |}.

(** [GetObjectKind]: the verb %T prints the dynamic type of the object, [None] an interface
    that holds nothing. *)
Inductive go_type := TNamed (pkg name : string) | TPtr (t : go_type).

Fixpoint type_string (t : go_type) : string :=
  match t with
  | TNamed pkg name => pkg +:+ "." +:+ name
  | TPtr t => "*" +:+ type_string t
  end.

Definition GetObjectKind (t : option go_type) : string :=
  match t with None => "<nil>" | Some t => type_string t end.
(** ** The objects that survive *)

Definition meta_ok (m : ObjectMeta) : bool :=
  utf8 (Name m) && utf8 (Namespace m) && utf8 (UID m) && utf8 (ResourceVersion m) &&
  GoTime.time_ok (CreationTimestamp m).

Definition container_ok (c : Container) : bool := utf8 (Container_Name c) && utf8 (Image c).

Definition int32_ok (z : Z) : bool := (int32_min <=? z) && (z <=? int32_max).

Definition podspec_ok (s : PodSpec) : bool :=
  forallb container_ok (elems (Containers s)) && int32_ok (PodSpec_Replicas s).

Definition Node_ok (n : Node) : bool :=
  meta_ok (Node_ObjectMeta n) && utf8 (ProviderID (Node_Spec n)) && utf8 (Node_Status n).

Definition Pod_ok (p : Pod) : bool :=
  meta_ok (Pod_ObjectMeta p) && podspec_ok (Pod_Spec p) && utf8 (NodeName p) &&
  utf8 (Pod_Status p).

Definition selector_ok (m : option (gmap string string)) : Prop :=
  map_Forall (fun k v => utf8 k = true /\ utf8 v = true) (default ∅ m).

Definition status_ok (s : ReplicaSetStatus) : bool :=
  int32_ok (RSStatus_Replicas s) && int32_ok (FullyLabeledReplicas s) &&
  int32_ok (ReadyReplicas s) && int32_ok (AvailableReplicas s).

Definition ReplicaSet_ok (rs : ReplicaSet) : Prop :=
  meta_ok (RS_ObjectMeta rs) = true /\ int32_ok (RSSpec_Replicas (RS_Spec rs)) = true /\
  selector_ok (Selector (RS_Spec rs)) /\
  meta_ok (Template_ObjectMeta (Template (RS_Spec rs))) = true /\
  podspec_ok (Template_Spec (Template (RS_Spec rs))) = true /\ status_ok (RS_Status rs) = true.

(** ** The text is printable *)

(** ASCII letters, digits and punctuation that stand for themselves in a string literal. *)
Definition plain_char (c : ascii) : bool := between 43 58 c || between 84 90 c.

Lemma plain_char_escape c : plain_char c = true -> escape c = String c "" /\ is_ascii c = true.
Proof. destruct c as [[] [] [] [] [] [] [] []]; intros H; try discriminate H; done. Qed.

Lemma plain_literal s :
  str_forall plain_char s = true -> utf8 s = true /\ quoted s = s.
Proof.
  unfold utf8, quoted. induction s as [|c s IH]; cbn [str_forall]; [done|].
  intros [[He Ha]%plain_char_escape Hs]%andb_prop. destruct (IH Hs) as [Hu Hq].
  cbn [String.length valid_runes quote_runes next_rune]. rewrite Ha, He.
  split; [done|]. by rewrite Hq.
Qed.

Lemma str_forall_app P a b :
  str_forall P a = true -> str_forall P b = true -> str_forall P (a +:+ b) = true.
Proof.
  intros Ha Hb. induction a as [|c a IH]; [done|]. rewrite str_app_cons.
  cbn [str_forall] in *. apply andb_prop in Ha as [-> Ha]. by apply IH.
Qed.

Lemma str_forall_impl (P Q : ascii -> bool) s :
  (forall c, P c = true -> Q c = true) -> str_forall P s = true -> str_forall Q s = true.
Proof.
  intros HPQ. induction s as [|c s IH]; cbn; [done|].
  intros [Hc Hs]%andb_prop. by rewrite HPQ, IH.
Qed.

Lemma pad_plain n z : str_forall plain_char (GoTime.pad n z) = true.
Proof.
  eapply str_forall_impl; [|apply GoTime.pad_digits].
  intros c. destruct c as [[] [] [] [] [] [] [] []]; done.
Qed.

Lemma trim_plain s : str_forall plain_char s = true -> str_forall plain_char (GoTime.trim_zeros s) = true.
Proof.
  induction s as [|c s IH]; cbn; [done|]. intros [Hc Hs]%andb_prop.
  destruct (_ && _); [done|]. cbn. rewrite Hc. auto.
Qed.

Create HintDb json discriminated.
#[local] Hint Resolve str_forall_app pad_plain trim_plain : json.

Lemma str_forall_cons P c s :
  P c = true -> str_forall P s = true -> str_forall P (String c s) = true.
Proof. cbn. by intros -> ->. Qed.

Lemma format_plain t : str_forall plain_char (GoTime.format t) = true.
Proof.
  assert (Hn : str_forall plain_char (GoTime.format_nsec (GoTime.t_nsec t)) = true).
  { unfold GoTime.format_nsec. destruct (_ =? 0); [done|].
    apply str_forall_cons; auto with json. }
  assert (Hz : str_forall plain_char (GoTime.format_zone t) = true).
  { unfold GoTime.format_zone. destruct (_ =? 0); [done|].
    apply str_forall_cons; [by destruct (_ <? 0)|]. apply str_forall_app; [apply pad_plain|].
    apply str_forall_cons; auto with json. }
  unfold GoTime.format.
  repeat first [apply str_forall_app; [by auto with json|] | apply str_forall_cons; [done|]].
  done.
Qed.

Lemma printable_jstring h s : utf8 s = true -> printable h (jstring s).
Proof. intros Hs. by exists s. Qed.

Lemma int32_ok_range z : int32_ok z = true -> - 10 ^ 20 < z < 10 ^ 20.
Proof.
  unfold int32_ok, int32_min, int32_max. rewrite andb_true_iff, !Z.leb_le. lia.
Qed.

Lemma printable_jint h z : int32_ok z = true -> printable h (jint z).
Proof. intros Hz%int32_ok_range. by apply print_int_number. Qed.

Lemma printable_time h t : printable h (JString (GoTime.format t)).
Proof.
  destruct (plain_literal _ (format_plain t)) as [Hu Hq]. exists (GoTime.format t). by rewrite Hq.
Qed.

(** The members of a struct, one level down. *)
Definition members_ok (h : Z) (kvs : list (string * json)) : Prop :=
  Forall (fun kv => utf8 kv.1 = true /\ printable h kv.2) kvs.

Lemma printable_object h kvs : 0 < h -> members_ok (h - 1) kvs -> printable h (JObject kvs).
Proof. intros Hh Hk. split; [done|]. by apply foldr_Forall. Qed.

Lemma printable_array h l : 0 < h -> Forall (printable (h - 1)) l -> printable h (JArray l).
Proof. intros Hh Hk. split; [done|]. by apply foldr_Forall. Qed.

Lemma members_app h l k : members_ok h l -> members_ok h k -> members_ok h (l ++ k).
Proof. apply Forall_app_2. Qed.

Lemma members_member h k j : utf8 k = true -> printable h j -> members_ok h (member k j).
Proof. intros Hk Hj. by apply Forall_singleton. Qed.

Lemma members_omit_string h k s : utf8 k = true -> utf8 s = true -> members_ok h (omit_string k s).
Proof.
  intros Hk Hs. unfold omit_string. case_bool_decide; [by apply Forall_nil_2|].
  by apply members_member, printable_jstring.
Qed.

Lemma members_omit_bool h k b : utf8 k = true -> members_ok h (omit_bool k b).
Proof. intros Hk. destruct b; [by apply members_member|by apply Forall_nil_2]. Qed.

Lemma members_omit_int h k z : utf8 k = true -> int32_ok z = true -> members_ok h (omit_int k z).
Proof.
  intros Hk Hz. unfold omit_int. destruct (z =? 0); [by apply Forall_nil_2|].
  by apply members_member, printable_jint.
Qed.

#[local] Hint Resolve printable_jstring printable_jint printable_time printable_object
  members_app members_member members_omit_string members_omit_bool members_omit_int : json.

Ltac split_ok :=
  repeat match goal with
  | H : _ && _ = true |- _ => apply andb_prop in H as [? ?]
  end.

Lemma Time_json_ok t : GoTime.time_ok t = true -> Time_json t = Ok (JString (GoTime.format t)).
Proof. intros Ht. unfold Time_json. by rewrite GoTime.MarshalJSON_ok. Qed.

Lemma printable_container h c : 0 < h -> container_ok c = true -> printable h (Container_json c).
Proof.
  unfold container_ok. intros Hh Hc. split_ok. apply printable_object; [done|]. auto 10 with json.
Qed.

Lemma printable_podspec h s : 2 < h -> podspec_ok s = true -> printable h (PodSpec_json s).
Proof.
  unfold podspec_ok. intros Hh Hs. split_ok. apply printable_object; [lia|].
  apply members_app; [|by auto with json]. apply members_member; [done|].
  destruct (Containers s) as [cs|]; cbn [slice_json elems default] in *; [|done].
  apply printable_array; [lia|]. apply Forall_fmap, Forall_forall. intros c Hc.
  apply printable_container; [lia|]. apply list_elem_of_In in Hc.
  by eapply forallb_forall in H.
Qed.

Lemma printable_meta h m :
  0 < h -> meta_ok m = true -> exists j, ObjectMeta_json m = Ok j /\ printable h j.
Proof.
  unfold meta_ok. intros Hh Hm. split_ok. unfold ObjectMeta_json. rewrite Time_json_ok by done.
  eexists. split; [done|]. apply printable_object; [done|]. auto 20 with json.
Qed.
(** ** What was encoded is decoded *)

Lemma dec_string_jstring s old : utf8 s = true -> dec_string (jstring s) old = Some s.
Proof. apply string_value_quoted. Qed.

Lemma dec_int32_jint z old : int32_ok z = true -> dec_int32 (jint z) old = Some z.
Proof.
  intros Hz. cbn [dec_int32 jint]. rewrite parse_print_int by by apply int32_ok_range.
  unfold int32_ok in Hz. by rewrite Hz.
Qed.

Lemma dec_time_format t old :
  GoTime.time_ok t = true -> dec_time (JString (GoTime.format t)) old = Some t.
Proof. apply GoTime.parse_format. Qed.

Create Rewrite HintDb json.
#[local] Hint Rewrite dec_string_jstring dec_int32_jint dec_time_format using done : json.

#[local] Arguments dec_string : simpl never.
#[local] Arguments dec_int32 : simpl never.
#[local] Arguments dec_time : simpl never.
#[local] Arguments jstring : simpl never.
#[local] Arguments jint : simpl never.

(** Members in turn: each finds its field and sets it; an omitted one leaves the zero. *)
Ltac decode :=
  cbn [dec_struct member app];
  unfold omit_string, omit_int, omit_bool;
  repeat (case_bool_decide || case_match);
  repeat (progress (cbn; autorewrite with json));
  try congruence.

Lemma dec_container c old :
  container_ok c = true -> dec_struct Container_fields (Container_json c) old = Some c.
Proof. unfold container_ok. intros Hc. split_ok. destruct c; decode. Qed.

Lemma dec_elems_containers cs :
  forallb container_ok cs = true ->
  dec_elems (dec_struct Container_fields) zero_Container (Container_json <$> cs) [] = Some cs.
Proof.
  induction cs as [|c cs IH]; cbn [forallb]; [done|]. intros [Hc Hcs]%andb_prop.
  cbn [fmap list_fmap dec_elems tail head default]. rewrite dec_container by done.
  by rewrite IH.
Qed.

Lemma dec_podspec s :
  podspec_ok s = true -> dec_struct PodSpec_fields (PodSpec_json s) zero_PodSpec = Some s.
Proof.
  unfold podspec_ok. intros Hs. split_ok. destruct s as [cs n].
  cbn [Containers PodSpec_Replicas] in *.
  assert (Hsl : dec_slice (dec_struct Container_fields) zero_Container
    (slice_json Container_json cs) None = Some cs).
  { destruct cs as [cs|]; [|done]. cbn [slice_json dec_slice elems default] in *.
    by rewrite dec_elems_containers. }
  unfold PodSpec_json. cbn [Containers PodSpec_Replicas]. cbn [dec_struct member app].
  cbn [dec_members]. cbn -[dec_slice slice_json dec_struct]. rewrite Hsl.
  cbn -[dec_slice slice_json dec_struct]. by rewrite dec_int32_jint.
Qed.

Lemma dec_meta h m :
  0 < h -> meta_ok m = true -> exists j, ObjectMeta_json m = Ok j /\ printable h j /\
    dec_struct ObjectMeta_fields j zero_ObjectMeta = Some m.
Proof.
  intros Hh Hm. destruct (printable_meta h m) as (j & Hj & Hp); [done|done|].
  exists j. split; [done|]. split; [done|]. unfold meta_ok in Hm. split_ok.
  unfold ObjectMeta_json in Hj. rewrite Time_json_ok in Hj by done. injection Hj as <-.
  clear Hp. destruct m as [n ns u rv t]. cbn [Name Namespace UID ResourceVersion CreationTimestamp] in *.
  cbn [dec_struct member app]. unfold omit_string.
  repeat case_bool_decide; subst; cbn -[GoTime.format]; rewrite !dec_string_jstring by done;
    cbn -[GoTime.format]; rewrite ?dec_string_jstring by done; cbn -[GoTime.format];
    rewrite ?dec_string_jstring by done; cbn -[GoTime.format];
    rewrite ?dec_string_jstring by done; cbn -[GoTime.format];
    by rewrite dec_time_format.
Qed.
(** Decoding one member of a struct with the decoder of its field. *)
Lemma dec_members_step {A B} (fs : list (field A)) k (d : decoder B) get set j kvs a b :
  find_field fs k = Some (fld k d get set).2 -> d j (get a) = Some b ->
  dec_members fs ((k, j) :: kvs) a = dec_members fs kvs (set b a).
Proof. intros Hf Hd. cbn [dec_members]. rewrite Hf. cbn. by rewrite Hd. Qed.

Lemma Unmarshal_print {A} (d : decoder A) j zero a :
  printable maxNestingDepth j -> d j zero = Some a -> Unmarshal d (print j) zero = Ok a.
Proof. intros Hp Hd. unfold Unmarshal. by rewrite parse_print, Hd. Qed.

Lemma Node_roundtrip n :
  Node_ok n = true -> exists data, Marshal (Node_json n) = Ok data /\
    Unmarshal (dec_struct Node_fields) data zero_Node = Ok n.
Proof.
  unfold Node_ok. intros Hn. split_ok.
  destruct (dec_meta 9999 (Node_ObjectMeta n)) as (jm & Hjm & Hpm & Hdm); [lia|done|].
  unfold Node_json. rewrite Hjm. eexists. split; [done|]. apply Unmarshal_print.
  - apply printable_object; [done|]. apply members_app; [by auto with json|].
    apply members_app; [|by auto with json]. apply members_member; [done|].
    apply printable_object; [done|]. auto 10 with json.
  - destruct n as [m [u p] st]. cbn [Node_ObjectMeta Node_Spec Node_Status ProviderID
      Unschedulable] in *. unfold member; cbn [dec_struct app].
    erewrite dec_members_step; [|reflexivity|exact Hdm].
    rewrite (dec_members_step _ _ (dec_struct NodeSpec_fields) Node_Spec
      (fun x n => mkNode (Node_ObjectMeta n) x (Node_Status n)) _ _ _ (mkNodeSpec u p));
      [|reflexivity|].
    + unfold omit_string. case_bool_decide; subst; [done|]. unfold member.
            erewrite dec_members_step; [|reflexivity|by apply dec_string_jstring]. done.
    + unfold NodeSpec_json, omit_string, omit_bool. cbn [Unschedulable ProviderID].
      case_bool_decide; destruct u; subst; cbn; rewrite ?dec_string_jstring by done; done.
Qed.

Lemma Pod_roundtrip p :
  Pod_ok p = true -> exists data, Marshal (Pod_json p) = Ok data /\
    Unmarshal (dec_struct Pod_fields) data zero_Pod = Ok p.
Proof.
  unfold Pod_ok. intros Hp. split_ok.
  destruct (dec_meta 9999 (Pod_ObjectMeta p)) as (jm & Hjm & Hpm & Hdm); [lia|done|].
  unfold Pod_json. rewrite Hjm. eexists. split; [done|]. apply Unmarshal_print.
  - apply printable_object; [done|]. apply members_app; [by auto with json|].
    apply members_app; [|by auto 10 with json]. apply members_member; [done|].
    by apply printable_podspec.
  - destruct p as [m sp nn st]. cbn [Pod_ObjectMeta Pod_Spec NodeName Pod_Status] in *.
    unfold member; cbn [dec_struct app].
    erewrite dec_members_step; [|reflexivity|exact Hdm].
    erewrite dec_members_step; [|reflexivity|by apply dec_podspec].
    unfold omit_string. case_bool_decide; subst; unfold member; cbn [app];
      repeat (erewrite dec_members_step; [|reflexivity|by apply dec_string_jstring]); done.
Qed.

(** Maps: the members are the entries in some order. *)
Lemma dec_entries_map (m : gmap string string) (ks : list string) (acc : gmap string string) :
  Forall (fun k => exists v, m !! k = Some v /\ utf8 v = true) ks ->
  dec_entries ((fun k => (k, jstring (default "" (m !! k)))) <$> ks) acc =
  Some (foldl (fun acc k => <[k := default "" (m !! k)]> acc) acc ks).
Proof.
  intros Hks. revert acc. induction Hks as [|k ks (v & Hk & Hv) _ IH]; intros acc; [done|].
  cbn [fmap list_fmap dec_entries foldl]. rewrite Hk. cbn [default].
  by rewrite dec_string_jstring, IH.
Qed.

Lemma foldl_insert_lookup (m : gmap string string) ks (acc : gmap string string) k :
  foldl (fun acc k => <[k := default "" (m !! k)]> acc) acc ks !! k =
  if decide (k ∈ ks) then Some (default "" (m !! k)) else acc !! k.
Proof.
  revert acc; induction ks as [|k' ks IH]; intros acc; cbn [foldl].
  { by rewrite decide_False by by intros ?%not_elem_of_nil. }
  rewrite IH. destruct (decide (k ∈ ks)) as [Hin|Hin].
  - rewrite decide_True by by right. done.
  - destruct (decide (k = k')) as [->|Hne].
    + rewrite lookup_insert_eq, decide_True by by left. done.
    + rewrite lookup_insert_ne, decide_False by (done || by rewrite elem_of_cons; intros [?|?]).
      done.
Qed.

Lemma dec_map_json h m old :
  0 < h -> selector_ok m -> default ∅ old = (∅ : gmap string string) ->
  printable h (map_json m) /\ dec_map (map_json m) old = Some m.
Proof.
  intros Hh Hm Hold. destruct m as [m|]; [|done]. unfold selector_ok in Hm. cbn [default] in Hm.
  set (ks := merge_sort String.le (map_to_list m).*1).
  assert (Hks : forall k, k ∈ ks <-> is_Some (m !! k)).
  { intros k. unfold ks. rewrite merge_sort_Permutation, list_elem_of_fmap. split.
    - intros ([k' v] & -> & Hkv%elem_of_map_to_list). by eexists.
    - intros [v Hv]. exists (k, v). by rewrite elem_of_map_to_list. }
  assert (Hall : Forall (fun k => exists v, m !! k = Some v /\ utf8 v = true) ks).
  { apply Forall_forall. intros k [v Hv]%Hks. exists v. split; [done|]. by apply Hm in Hv as [_ ?]. }
  cbn [map_json]. fold ks. split.
  - apply printable_object; [done|]. apply Forall_fmap, Forall_forall.
    intros k [v Hv]%Hks. unfold compose. cbn [fst snd]. rewrite Hv. apply Hm in Hv as [Hk Hv].
    split; [done|]. by apply printable_jstring.
  - cbn [dec_map]. rewrite Hold, dec_entries_map by done. cbn. do 2 f_equal.
    apply map_eq. intros k. rewrite foldl_insert_lookup, lookup_empty.
    destruct (decide (k ∈ ks)) as [[v Hv]%Hks|Hn]; [by rewrite Hv|].
    destruct (m !! k) eqn:Hk; [|done]. destruct Hn. apply Hks. by eexists.
Qed.
Lemma dec_template h t :
  3 < h -> meta_ok (Template_ObjectMeta t) = true -> podspec_ok (Template_Spec t) = true ->
  exists j, PodTemplateSpec_json t = Ok j /\ printable h j /\
    dec_struct PodTemplateSpec_fields j zero_PodTemplateSpec = Some t.
Proof.
  intros Hh Hm Hs. destruct (dec_meta (h - 1) (Template_ObjectMeta t)) as (jm & Hjm & Hpm & Hdm);
    [lia|done|].
  unfold PodTemplateSpec_json. rewrite Hjm. eexists. split; [done|]. split.
  - apply printable_object; [lia|]. apply members_app; [by auto with json|].
    apply members_member; [done|]. apply printable_podspec; [lia|done].
  - destruct t as [m sp]. cbn [Template_ObjectMeta Template_Spec] in *.
    unfold member; cbn [dec_struct app].
    erewrite dec_members_step; [|reflexivity|exact Hdm].
    by erewrite dec_members_step; [|reflexivity|by apply dec_podspec].
Qed.

Lemma dec_rsspec h s :
  4 < h -> int32_ok (RSSpec_Replicas s) = true -> selector_ok (Selector s) ->
  meta_ok (Template_ObjectMeta (Template s)) = true ->
  podspec_ok (Template_Spec (Template s)) = true ->
  exists j, ReplicaSetSpec_json s = Ok j /\ printable h j /\
    dec_struct ReplicaSetSpec_fields j zero_ReplicaSetSpec = Some s.
Proof.
  intros Hh Hr Hsel Hm Hs.
  destruct (dec_template (h - 1) (Template s)) as (jt & Hjt & Hpt & Hdt); [lia|done|done|].
  destruct (dec_map_json (h - 1) (Selector s) None) as [Hpm Hdm]; [lia|done|done|].
  unfold ReplicaSetSpec_json. rewrite Hjt. eexists. split; [done|]. split.
  - apply printable_object; [lia|]. auto 10 with json.
  - destruct s as [r sel t]. cbn [RSSpec_Replicas Selector Template] in *.
    unfold member; cbn [dec_struct app].
    erewrite dec_members_step; [|reflexivity|by apply dec_int32_jint].
    erewrite dec_members_step; [|reflexivity|exact Hdm].
    by erewrite dec_members_step; [|reflexivity|exact Hdt].
Qed.

Lemma dec_status h s :
  0 < h -> status_ok s = true ->
  printable h (ReplicaSetStatus_json s) /\
  dec_struct ReplicaSetStatus_fields (ReplicaSetStatus_json s) zero_ReplicaSetStatus = Some s.
Proof.
  unfold status_ok. intros Hh Hs. split_ok. split.
  - apply printable_object; [done|]. auto 10 with json.
  - destruct s as [a b c d]. unfold ReplicaSetStatus_json, omit_int.
    cbn [RSStatus_Replicas FullyLabeledReplicas ReadyReplicas AvailableReplicas] in *.
    destruct (Z.eqb_spec b 0), (Z.eqb_spec c 0), (Z.eqb_spec d 0); subst;
      unfold member; cbn [dec_struct app];
      repeat (erewrite dec_members_step; [|reflexivity|by apply dec_int32_jint]); done.
Qed.

Lemma ReplicaSet_roundtrip rs :
  ReplicaSet_ok rs -> exists data, Marshal (ReplicaSet_json rs) = Ok data /\
    Unmarshal (dec_struct ReplicaSet_fields) data zero_ReplicaSet = Ok rs.
Proof.
  intros (Hm & Hr & Hsel & Htm & Hts & Hst).
  destruct (dec_meta 9999 (RS_ObjectMeta rs)) as (jm & Hjm & Hpm & Hdm); [lia|done|].
  destruct (dec_rsspec 9999 (RS_Spec rs)) as (js & Hjs & Hps & Hds); try done.
  destruct (dec_status 9999 (RS_Status rs)) as [Hpt Hdt]; [lia|done|].
  unfold ReplicaSet_json. rewrite Hjm, Hjs. eexists. split; [done|]. apply Unmarshal_print.
  - apply printable_object; [done|]. auto 10 with json.
  - destruct rs as [m sp st]. cbn [RS_ObjectMeta RS_Spec RS_Status] in *.
    unfold member; cbn [dec_struct app].
    erewrite dec_members_step; [|reflexivity|exact Hdm].
    erewrite dec_members_step; [|reflexivity|exact Hds].
    by erewrite dec_members_step; [|reflexivity|exact Hdt].
Qed.

(** ** What was decoded can be encoded *)

(** A decoder that keeps an invariant of its target. *)
Definition keeps {A} (d : decoder A) (I : A -> Prop) : Prop :=
  forall j a a', keys_utf8 j -> d j a = Some a' -> I a -> I a'.

Lemma keeps_fld {A B} name (d : decoder B) get set (I : A -> Prop) (J : B -> Prop) :
  keeps d J -> (forall a, I a -> J (get a)) -> (forall a b, I a -> J b -> I (set b a)) ->
  keeps (fld name d get set).2 I.
Proof.
  intros Hd Hget Hset j a a' Hj. cbn. destruct (d j (get a)) as [b|] eqn:Hb; [|done].
  intros [= <-] Ha. apply Hset; [done|]. eapply Hd; eauto.
Qed.

Lemma find_by_elem {A} f (fs : list (field A)) d : find_by f fs = Some d -> exists n, (n, d) ∈ fs.
Proof.
  induction fs as [|[n d'] fs IH]; cbn; [done|]. destruct (f n).
  - intros [= ->]. exists n. by left.
  - intros [m Hm]%IH. exists m. by right.
Qed.

Lemma keeps_struct {A} (fs : list (field A)) (I : A -> Prop) :
  Forall (fun f => keeps f.2 I) fs -> keeps (dec_struct fs) I.
Proof.
  intros Hfs j a a'. destruct j as [| | | | |kvs]; cbn; [by intros _ [= <-]|done..|].
  revert a; induction kvs as [|[k j] kvs IH]; intros a; cbn [dec_members foldr fst snd].
  { by intros _ [= <-]. }
  intros [[_ Hj] Hkvs]. destruct (find_field fs k) as [d|] eqn:Hf; [|by apply IH].
  destruct (d j a) as [a1|] eqn:Hd; [|done]. intros Hr Ha. eapply IH; [done|done|].
  assert (Hin : exists n, (n, d) ∈ fs).
  { unfold find_field in Hf. destruct (find_by (String.eqb k) fs) eqn:H1.
    - injection Hf as <-. by eapply find_by_elem.
    - by eapply find_by_elem. }
  destruct Hin as [n Hn]. rewrite Forall_forall in Hfs. by eapply (Hfs (n, d)).
Qed.

Lemma keeps_string : keeps dec_string (fun s => utf8 s = true).
Proof.
  intros [| | |l| |] s s'; unfold dec_string; try done; [by intros _ [= <-]|].
  by intros _ ?%string_value_utf8.
Qed.

Lemma keeps_bool : keeps dec_bool (fun _ => True).
Proof. done. Qed.

Lemma keeps_int32 : keeps dec_int32 (fun z => int32_ok z = true).
Proof.
  intros [| |l| | |] z z'; unfold dec_int32; try done; intros _; [by intros [= <-]|].
  destruct (parse_int l) as [x|]; [|done]. unfold int32_ok.
  destruct (_ && _) eqn:Hx; [|done]. by intros [= <-].
Qed.

(** The time zone of a decoded time can be a day or more away from UTC, which
    [MarshalJSON] refuses; everything else about it is in order. *)
Definition time_read (t : Time) : Prop :=
  Z.abs (GoTime.t_offset t) < 86400 -> GoTime.time_ok t = true.

Lemma keeps_time : keeps dec_time time_read.
Proof.
  intros [| | |l| |] t t'; unfold dec_time; try done; intros _; [by intros [= <-]|].
  intros Hp _ Hz. by eapply GoTime.parse_time_ok.
Qed.

Lemma keeps_slice {A} (d : decoder A) zero (I : A -> Prop) :
  keeps d I -> I zero -> keeps (dec_slice d zero) (fun s => Forall I (elems s)).
Proof.
  intros Hd Hz [| | | |l|] s s'; cbn; try done; [by intros _ [= <-]|].
  intros Hl (r & Hr & ->)%fmap_Some Hs. cbn. revert Hs Hr. generalize (elems s) as old.
  revert r. induction l as [|j l IH]; intros r old Hold; cbn [dec_elems foldr] in *.
  { intros [= <-]. constructor. }
  destruct Hl as [Hj Hl]. destruct (d j (default zero (head old))) as [a|] eqn:Ha; [|done].
  destruct (dec_elems d zero l (tail old)) as [r'|] eqn:Hr'; [|done]. intros [= <-].
  constructor.
  - eapply Hd; [done|done|]. by destruct Hold.
  - eapply IH; [done| |done]. by destruct Hold; [constructor|].
Qed.

Lemma keeps_map :
  keeps dec_map selector_ok.
Proof.
  intros [| | | | |kvs] m m'; cbn; try done.
  { intros _ [= <-] _. apply map_Forall_empty. }
  unfold selector_ok. intros Hk (r & Hr & ->)%fmap_Some Hm. cbn. revert Hm Hr. generalize (default ∅ m) as acc.
  induction kvs as [|[k j] kvs IH]; intros acc Hacc; cbn [dec_entries foldr fst snd] in *.
  { by intros [= <-]. }
  destruct Hk as [[Hk Hj] Hkvs].
  destruct (dec_string j "") as [v|] eqn:Hv; [|done]. apply IH; [done|].
  apply map_Forall_insert_2; [|done]. split; [done|]. by eapply (keeps_string j "").
Qed.

(** The objects that decoding can give. *)
Definition meta_read (m : ObjectMeta) : Prop :=
  utf8 (Name m) = true /\ utf8 (Namespace m) = true /\ utf8 (UID m) = true /\
  utf8 (ResourceVersion m) = true /\ time_read (CreationTimestamp m).

Definition container_read (c : Container) : Prop := container_ok c = true.

Definition podspec_read (s : PodSpec) : Prop :=
  Forall container_read (elems (Containers s)) /\ int32_ok (PodSpec_Replicas s) = true.

Definition pod_read (p : Pod) : Prop :=
  meta_read (Pod_ObjectMeta p) /\ podspec_read (Pod_Spec p) /\
  utf8 (NodeName p) = true /\ utf8 (Pod_Status p) = true.

Definition node_read (n : Node) : Prop :=
  meta_read (Node_ObjectMeta n) /\ utf8 (ProviderID (Node_Spec n)) = true /\
  utf8 (Node_Status n) = true.

Lemma keeps_meta : keeps (dec_struct ObjectMeta_fields) meta_read.
Proof.
  apply keeps_struct. repeat (apply Forall_cons; split); [..|apply Forall_nil_2];
    (eapply keeps_fld; [first [apply keeps_string|apply keeps_time]|..]);
    unfold meta_read; cbn; tauto.
Qed.

Lemma keeps_container : keeps (dec_struct Container_fields) container_read.
Proof.
  apply keeps_struct. repeat (apply Forall_cons; split); [..|apply Forall_nil_2];
    (eapply keeps_fld; [apply keeps_string|..]);
    unfold container_read, container_ok; cbn; intros; rewrite ?andb_true_iff in *; tauto.
Qed.

Lemma keeps_podspec : keeps (dec_struct PodSpec_fields) podspec_read.
Proof.
  apply keeps_struct. repeat (apply Forall_cons; split); [..|apply Forall_nil_2].
  - eapply keeps_fld; [apply keeps_slice; [apply keeps_container|done]|..];
      unfold podspec_read; cbn; tauto.
  - eapply keeps_fld; [apply keeps_int32|..]; unfold podspec_read; cbn; tauto.
Qed.

Lemma keeps_pod : keeps (dec_struct Pod_fields) pod_read.
Proof.
  apply keeps_struct. repeat (apply Forall_cons; split); [..|apply Forall_nil_2];
    (eapply keeps_fld; [first [apply keeps_string|apply keeps_meta|apply keeps_podspec]|..]);
    unfold pod_read; cbn; tauto.
Qed.

Lemma keeps_nodespec :
  keeps (dec_struct NodeSpec_fields) (fun s => utf8 (ProviderID s) = true).
Proof.
  apply keeps_struct. repeat (apply Forall_cons; split); [..|apply Forall_nil_2].
  - eapply keeps_fld; [apply keeps_bool|..]; cbn; tauto.
  - eapply keeps_fld; [apply keeps_string|..]; cbn; tauto.
Qed.

Lemma keeps_node : keeps (dec_struct Node_fields) node_read.
Proof.
  apply keeps_struct. repeat (apply Forall_cons; split); [..|apply Forall_nil_2];
    (eapply keeps_fld; [first [apply keeps_string|apply keeps_meta|apply keeps_nodespec]|..]);
    unfold node_read; cbn; tauto.
Qed.

Definition template_read (t : PodTemplateSpec) : Prop :=
  meta_read (Template_ObjectMeta t) /\ podspec_read (Template_Spec t).

Definition rsspec_read (s : ReplicaSetSpec) : Prop :=
  int32_ok (RSSpec_Replicas s) = true /\ selector_ok (Selector s) /\ template_read (Template s).

Definition rs_read (rs : ReplicaSet) : Prop :=
  meta_read (RS_ObjectMeta rs) /\ rsspec_read (RS_Spec rs) /\ status_ok (RS_Status rs) = true.

Lemma keeps_template : keeps (dec_struct PodTemplateSpec_fields) template_read.
Proof.
  apply keeps_struct. repeat (apply Forall_cons; split); [..|apply Forall_nil_2];
    (eapply keeps_fld; [first [apply keeps_meta|apply keeps_podspec]|..]);
    unfold template_read; cbn; tauto.
Qed.

Lemma keeps_rsspec : keeps (dec_struct ReplicaSetSpec_fields) rsspec_read.
Proof.
  apply keeps_struct. repeat (apply Forall_cons; split); [..|apply Forall_nil_2];
    (eapply keeps_fld; [first [apply keeps_int32|apply keeps_map|apply keeps_template]|..]);
    unfold rsspec_read; cbn; tauto.
Qed.

Lemma keeps_status : keeps (dec_struct ReplicaSetStatus_fields) (fun s => status_ok s = true).
Proof.
  apply keeps_struct. repeat (apply Forall_cons; split); [..|apply Forall_nil_2];
    (eapply keeps_fld; [apply keeps_int32|..]);
    unfold status_ok; cbn; intros; rewrite ?andb_true_iff in *; tauto.
Qed.

Lemma keeps_rs : keeps (dec_struct ReplicaSet_fields) rs_read.
Proof.
  apply keeps_struct. repeat (apply Forall_cons; split); [..|apply Forall_nil_2];
    (eapply keeps_fld; [first [apply keeps_meta|apply keeps_rsspec|apply keeps_status]|..]);
    unfold rs_read; cbn; tauto.
Qed.

Lemma Unmarshal_keeps {A} (d : decoder A) I data zero a :
  keeps d I -> I zero -> Unmarshal d data zero = Ok a -> I a.
Proof.
  intros Hd Hz. unfold Unmarshal. destruct (parse data) as [j r| |] eqn:Hp; [|done|done].
  destruct (d j zero) as [b|] eqn:Hb; [|done]. intros [= <-].
  eapply Hd; [by eapply parse_keys_utf8|done|done].
Qed.

Lemma meta_read_ok m :
  meta_read m -> Z.abs (GoTime.t_offset (CreationTimestamp m)) < 86400 -> meta_ok m = true.
Proof. intros (H1 & H2 & H3 & H4 & H5) Hz. unfold meta_ok. by rewrite H1, H2, H3, H4, H5. Qed.

Lemma zero_meta_read : meta_read zero_ObjectMeta.
Proof. by repeat split. Qed.

Lemma podspec_read_ok s : podspec_read s -> podspec_ok s = true.
Proof.
  intros [Hc Hr]. unfold podspec_ok. rewrite Hr, andb_true_r. apply forallb_forall.
  intros c Hin%list_elem_of_In. rewrite Forall_forall in Hc. by apply Hc.
Qed.

(** ** The encoding the storage relies on *)

Definition Node_Laws : @ObjectLaws Node Node_Object :=
  @Build_ObjectLaws Node Node_Object (fun n => Node_ok n = true) Node_roundtrip.
Definition Pod_Laws : @ObjectLaws Pod Pod_Object :=
  @Build_ObjectLaws Pod Pod_Object (fun p => Pod_ok p = true) Pod_roundtrip.
Definition ReplicaSet_Laws : @ObjectLaws ReplicaSet ReplicaSet_Object :=
  @Build_ObjectLaws ReplicaSet ReplicaSet_Object ReplicaSet_ok ReplicaSet_roundtrip.

(** C15: encoding then decoding gives back the object.  For every node, pod and ReplicaSet
    whose strings are UTF-8, whose integers fit int32 and whose timestamps are dates of years
    0 to 9999 in a zone of whole minutes, [runtime.Encode] succeeds and [runtime.Decode] of
    its output returns the object, nil and empty slices and maps kept apart. *)
Theorem objects_roundtrip :
  (forall n, Node_ok n = true -> exists d,
     @Encode _ Node_Object n = Ok d /\ @Decode _ Node_Object d = Ok n) /\
  (forall p, Pod_ok p = true -> exists d,
     @Encode _ Pod_Object p = Ok d /\ @Decode _ Pod_Object d = Ok p) /\
  (forall rs, ReplicaSet_ok rs -> exists d,
     @Encode _ ReplicaSet_Object rs = Ok d /\ @Decode _ ReplicaSet_Object d = Ok rs).
Proof. split; [exact Node_roundtrip|]. split; [exact Pod_roundtrip|exact ReplicaSet_roundtrip]. Qed.

(** A timestamp within a day of UTC: the zones [MarshalJSON] writes. *)
Definition zone_ok (m : ObjectMeta) : Prop :=
  Z.abs (GoTime.t_offset (CreationTimestamp m)) < 86400.

(** C26: what was decoded can be stored again.  Every pod, node and ReplicaSet that
    [runtime.Decode] returns, from any bytes at all, is encoded and decoded back to itself,
    provided its timestamps are less than a day away from UTC (a zone of 24 hours is read
    but not written). *)
Theorem decoded_is_storable data :
  (forall p, @Decode _ Pod_Object data = Ok p -> zone_ok (Pod_ObjectMeta p) ->
     exists d, @Encode _ Pod_Object p = Ok d /\ @Decode _ Pod_Object d = Ok p) /\
  (forall n, @Decode _ Node_Object data = Ok n -> zone_ok (Node_ObjectMeta n) ->
     exists d, @Encode _ Node_Object n = Ok d /\ @Decode _ Node_Object d = Ok n) /\
  (forall rs, @Decode _ ReplicaSet_Object data = Ok rs -> zone_ok (RS_ObjectMeta rs) ->
     zone_ok (Template_ObjectMeta (Template (RS_Spec rs))) ->
     exists d, @Encode _ ReplicaSet_Object rs = Ok d /\ @Decode _ ReplicaSet_Object d = Ok rs).
Proof.
  assert (Hz : podspec_read zero_PodSpec) by by repeat split; constructor.
  pose proof zero_meta_read as Hm0. split; [|split].
  - intros p Hp Hzone. apply Pod_roundtrip.
    apply (Unmarshal_keeps _ _ _ _ _ keeps_pod) in Hp as (Hm & Hs & Hn & Hst); [|done].
    unfold Pod_ok. by rewrite meta_read_ok, podspec_read_ok, Hn, Hst.
  - intros n Hn Hzone. apply Node_roundtrip.
    apply (Unmarshal_keeps _ _ _ _ _ keeps_node) in Hn as (Hm & Hp & Hst); [|done].
    unfold Node_ok. by rewrite meta_read_ok, Hp, Hst.
  - intros rs Hrs Hz1 Hz2. apply ReplicaSet_roundtrip.
    apply (Unmarshal_keeps _ _ _ _ _ keeps_rs) in Hrs as (Hm & (Hr & Hsel & Htm & Hts) & Hst).
    2: { split; [done|]. split; [|done]. split; [done|]. split; [apply map_Forall_empty|done]. }
    split; [by apply meta_read_ok|]. split; [done|]. split; [done|].
    split; [by apply meta_read_ok|]. split; [by apply podspec_read_ok|done].
Qed.

(** A pod read from a text with an unknown member, a field in another case and a timestamp
    with fractions and a zone. *)
Definition sample_text : string :=
  "{'metadata':{'name':'web','creationTimestamp':'2024-02-29T10:20:30.5+05:30'},'SPEC':{'containers':[{'name':'c','image':'nginx'}],'replicas':2},'extra':[1,{}],'status':'Pending'}".

Fixpoint double_quotes (s : string) : string :=
  match s with
  | EmptyString => EmptyString
  | String c s => String (if Ascii.eqb c "'" then ascii_of_nat 34 else c) (double_quotes s)
  end.

Definition sample_data : string := double_quotes sample_text.

Definition sample_Pod : Pod :=
  match @Decode _ Pod_Object sample_data with Ok p => p | Err _ => zero_Pod end.

Lemma sample_decodes : @Decode _ Pod_Object sample_data = Ok sample_Pod.
Proof. vm_compute. reflexivity. Qed.

Definition sample_RS : ReplicaSet :=
  mkReplicaSet (Pod_ObjectMeta sample_Pod)
    (mkReplicaSetSpec 3 (Some {["app" := "web"]})
       (mkPodTemplateSpec (Pod_ObjectMeta sample_Pod) (Pod_Spec sample_Pod)))
    (mkReplicaSetStatus 0 0 0 0).

Lemma objects_roundtrip_witness :
  Pod_Name sample_Pod = "web" /\
  (exists d, @Encode _ Pod_Object sample_Pod = Ok d /\ @Decode _ Pod_Object d = Ok sample_Pod) /\
  (exists d, @Encode _ ReplicaSet_Object sample_RS = Ok d /\
     @Decode _ ReplicaSet_Object d = Ok sample_RS).
Proof.
  split; [vm_compute; reflexivity|]. split.
  - apply (proj1 (proj2 objects_roundtrip)). vm_compute. reflexivity.
  - apply (proj2 (proj2 objects_roundtrip)).
    split; [vm_compute; reflexivity|]. split; [vm_compute; reflexivity|].
    split; [|repeat split; vm_compute; reflexivity].
    apply map_Forall_singleton. split; vm_compute; reflexivity.
Defined.

Lemma decoded_is_storable_witness :
  exists d, @Encode _ Pod_Object sample_Pod = Ok d /\ @Decode _ Pod_Object d = Ok sample_Pod.
Proof.
  apply (proj1 (decoded_is_storable sample_data)); [exact sample_decodes|].
  unfold zone_ok. replace (GoTime.t_offset _) with 19800 by (vm_compute; reflexivity). lia.
Defined.

(** The zone must be bounded: a timestamp with the offset +24:00 is read, and the node it
    belongs to cannot be written. *)
Lemma full_day_zone_not_storable :
  exists n, @Decode _ Node_Object (double_quotes
      "{'metadata':{'name':'n1','creationTimestamp':'2024-01-01T00:00:00+24:00'}}") = Ok n /\
    exists e, @Encode _ Node_Object n = Err e.
Proof. eexists. split; [vm_compute; reflexivity|]. eexists. vm_compute. reflexivity. Qed.

(** Decoding always ends.  Whatever bytes are read and whatever they are decoded into,
    either the reader has read the whole input as one value and the result is what the
    decoder makes of it, or the input is not JSON and the result is a syntax error; the
    reader never exhausts its bound, twice the length of the input. *)
Theorem Decode_terminates {A} (d : decoder A) (data : string) (zero : A) :
  (exists j, parse data = POk j "" /\
     Unmarshal d data zero =
       match d j zero with Some a => Ok a | None => Err (ErrText "json: cannot unmarshal") end) \/
  (parse data = PErr /\ Unmarshal d data zero = Err (ErrText "invalid character")).
Proof.
  unfold Unmarshal. destruct (parse data) as [j r| |] eqn:Hp; [left|by right|].
  - assert (r = "") as -> by (eapply parse_rest; exact Hp). eauto.
  - by destruct (parse_total data).
Qed.
End Runtime.
