(* ===== verification/Reference.v ===== *)
(** * Reference: a concrete outside world

    A small executable world that satisfies the laws the development assumes of the etcd
    client, the random sources, the validator and the object encoding.  It models no code
    of the repository: it instantiates the parameters, so that every theorem that
    assumes their laws can be evaluated on concrete inputs. *)

From Stdlib Require Import Ascii.
From S2P Require Import Prelude Errors Effects GoTime Api Storage.

#[local] Unset Program Cases.

(** ** A self-delimiting encoding of the API objects *)

(** [put a rest] prepends the encoding of [a]; [get] reads one value off the front. *)
Class Ser (A : Type) := {
  ser_put : A -> string -> string;
  ser_get : string -> option (A * string);
  ser_law : forall a rest, ser_get (ser_put a rest) = Some (a, rest) }.

Fixpoint string_put (s rest : string) : string :=
  match s with
  | EmptyString => String "."%char rest
  | String c s => String ":"%char (String c (string_put s rest))
  end.

Fixpoint string_get (s : string) : option (string * string) :=
  match s with
  | String "."%char rest => Some ("", rest)
  | String ":"%char (String c rest) =>
      match string_get rest with
      | Some (t, rest) => Some (String c t, rest)
      | None => None
      end
  | _ => None
  end.

#[export] Program Instance string_ser : Ser string := {
  ser_put := string_put; ser_get := string_get }.
Next Obligation. induction a as [|c a IH]; intros rest; cbn; [done | by rewrite IH]. Qed.

#[export] Program Instance prod_ser `{Ser A, Ser B} : Ser (A * B) := {
  ser_put p rest := ser_put p.1 (ser_put p.2 rest);
  ser_get s :=
    match ser_get s with
    | Some (a, s) =>
        match ser_get s with Some (b, s) => Some ((a, b), s) | None => None end
    | None => None
    end }.
Next Obligation. intros A ? B ? [a b] rest; cbn. by rewrite !ser_law. Qed.

#[export] Program Instance bool_ser : Ser bool := {
  ser_put b rest := String (if b then "t" else "f")%char rest;
  ser_get s :=
    match s with
    | String "t"%char s => Some (true, s) | String "f"%char s => Some (false, s) | _ => None
    end }.
Next Obligation. by intros [] rest. Qed.

(** A value through another type it embeds into. *)
Program Definition inj_ser {A B} `{Ser B} (to : A -> B) (from : B -> A)
    (Hinj : forall a, from (to a) = a) : Ser A := {|
  ser_put a := ser_put (to a);
  ser_get s := match ser_get s with Some (b, s) => Some (from b, s) | None => None end |}.
Next Obligation. intros A B ? to from Hinj a rest; cbn. by rewrite ser_law, Hinj. Qed.

Fixpoint list_put `{Ser A} (l : list A) (rest : string) : string :=
  match l with
  | [] => String "]"%char rest
  | a :: l => String ","%char (ser_put a (list_put l rest))
  end.

Fixpoint list_get `{Ser A} (fuel : nat) (s : string) : option (list A * string) :=
  match fuel, s with
  | _, String "]"%char s => Some ([], s)
  | S fuel, String ","%char s =>
      match ser_get s with
      | Some (a, s) =>
          match list_get fuel s with Some (l, s) => Some (a :: l, s) | None => None end
      | None => None
      end
  | _, _ => None
  end.

Lemma list_get_put `{Ser A} (l : list A) fuel rest :
  (length l <= fuel)%nat -> list_get fuel (list_put l rest) = Some (l, rest).
Proof.
  revert fuel; induction l as [|a l IH]; intros [|fuel]; cbn; intros Hle;
    [done|done|lia|]. rewrite ser_law, IH; [done|lia].
Qed.

(** The length comes first, in unary. *)
Fixpoint nat_put (n : nat) (rest : string) : string :=
  match n with O => String "0"%char rest | S n => String "1"%char (nat_put n rest) end.

Fixpoint nat_get (s : string) : option (nat * string) :=
  match s with
  | String "0"%char s => Some (O, s)
  | String "1"%char s => match nat_get s with Some (n, s) => Some (S n, s) | None => None end
  | _ => None
  end.

#[export] Program Instance nat_ser : Ser nat := { ser_put := nat_put; ser_get := nat_get }.
Next Obligation. induction a as [|n IH]; intros rest; cbn; [done | by rewrite IH]. Qed.

#[export] Program Instance list_ser `{Ser A} : Ser (list A) := {
  ser_put l rest := ser_put (length l) (list_put l rest);
  ser_get s := match ser_get s with Some (n, s) => list_get n s | None => None end }.
Next Obligation.
  intros A ? l rest; cbn beta. rewrite ser_law. by apply list_get_put.
Qed.

#[export] Program Instance option_ser `{Ser A} : Ser (option A) :=
  inj_ser (fun o => option_list o) (fun l => head l) _.
Next Obligation. by intros A ? []. Qed.

Fixpoint pos_put (p : positive) (rest : string) : string :=
  match p with
  | xH => String "."%char rest
  | xO p => String "0"%char (pos_put p rest)
  | xI p => String "1"%char (pos_put p rest)
  end.

Fixpoint pos_get (s : string) : option (positive * string) :=
  match s with
  | String "."%char s => Some (xH, s)
  | String "0"%char s => match pos_get s with Some (p, s) => Some (xO p, s) | None => None end
  | String "1"%char s => match pos_get s with Some (p, s) => Some (xI p, s) | None => None end
  | _ => None
  end.

#[export] Program Instance pos_ser : Ser positive := {
  ser_put := pos_put; ser_get := pos_get }.
Next Obligation. induction a as [p IH|p IH|]; intros rest; cbn; by rewrite ?IH. Qed.

#[export] Program Instance Z_ser : Ser Z :=
  inj_ser (fun z => (z <? 0, Z.to_pos (Z.abs z + 1)))
          (fun '(neg, p) => if neg : bool then - (Z.pos p - 1) else Z.pos p - 1) _.
Next Obligation. intros z; cbn. destruct (Z.ltb_spec z 0); lia. Qed.

#[export] Program Instance gmap_ser : Ser (gmap string string) :=
  inj_ser map_to_list list_to_map list_to_map_to_list.

#[export] Program Instance Container_ser : Ser Container :=
  inj_ser (fun c => (Container_Name c, Image c)) (fun '(n, i) => mkContainer n i) _.
Next Obligation. by intros []. Qed.

#[export] Program Instance Time_ser : Ser Time :=
  inj_ser (B := Z * Z * Z * Z * Z * Z * Z * Z)
    (fun t => (GoTime.t_year t, GoTime.t_month t, GoTime.t_day t, GoTime.t_hour t,
               GoTime.t_min t, GoTime.t_sec t, GoTime.t_nsec t, GoTime.t_offset t))
    (fun '(y, mo, d, h, mi, s, n, o) => GoTime.mkTime y mo d h mi s n o) _.
Next Obligation. by intros []. Qed.

#[export] Program Instance ObjectMeta_ser : Ser ObjectMeta :=
  inj_ser (B := string * string * string * string * Time)
    (fun m => (Name m, Namespace m, UID m, ResourceVersion m, CreationTimestamp m))
    (fun '(n, ns, u, rv, t) => mkObjectMeta n ns u rv t) _.
Next Obligation. by intros []. Qed.

#[export] Program Instance Node_ser : Ser Node :=
  inj_ser (B := ObjectMeta * bool * string * string)
    (fun n => (Node_ObjectMeta n, Unschedulable (Node_Spec n),
               ProviderID (Node_Spec n), Node_Status n))
    (fun '(m, u, p, s) => mkNode m (mkNodeSpec u p) s) _.
Next Obligation. by intros [? [] ?]. Qed.

#[export] Program Instance PodSpec_ser : Ser PodSpec :=
  inj_ser (B := option (list Container) * Z)
    (fun s => (Containers s, PodSpec_Replicas s)) (fun '(c, r) => mkPodSpec c r) _.
Next Obligation. by intros []. Qed.

#[export] Program Instance Pod_ser : Ser Pod :=
  inj_ser (B := ObjectMeta * PodSpec * string * string)
    (fun p => (Pod_ObjectMeta p, Pod_Spec p, NodeName p, Pod_Status p))
    (fun '(m, s, n, st) => mkPod m s n st) _.
Next Obligation. by intros []. Qed.

#[export] Program Instance ReplicaSet_ser : Ser ReplicaSet :=
  inj_ser (B := ObjectMeta * (Z * option (gmap string string) * ObjectMeta * PodSpec) *
                (Z * Z * Z * Z))
    (fun rs =>
      (RS_ObjectMeta rs,
       (RSSpec_Replicas (RS_Spec rs), Selector (RS_Spec rs),
        Template_ObjectMeta (Template (RS_Spec rs)), Template_Spec (Template (RS_Spec rs))),
       (RSStatus_Replicas (RS_Status rs), FullyLabeledReplicas (RS_Status rs),
        ReadyReplicas (RS_Status rs), AvailableReplicas (RS_Status rs))))
    (fun '(m, (r, sel, tm, ts), (a, b, c, d)) =>
      mkReplicaSet m (mkReplicaSetSpec r sel (mkPodTemplateSpec tm ts))
        (mkReplicaSetStatus a b c d)) _.
Next Obligation. by intros [? [? ? []] []]. Qed.

#[export] Instance ser_object `{Ser A} : Object A := {
  Encode a := Ok (ser_put a "");
  Decode s :=
    match ser_get s with
    | Some (a, "") => Ok a
    | _ => Err (ErrText "cannot decode")
    end }.

#[export] Program Instance ser_object_laws `{Ser A} : ObjectLaws A := {
  storable _ := True }.
Next Obligation. intros A ? a _. eexists. split; [done|]. cbn. by rewrite ser_law. Qed.

(** ** A validator that checks the tags *)

#[export] Instance ref_validator : Validator := {
  Struct_Node n := if Node_tags n then None else Some (ErrText "validation failed");
  Struct_Pod p := if Pod_tags p then None else Some (ErrText "validation failed") }.

#[export] Instance ref_validator_laws : ValidatorLaws.
Proof. split; intros x; cbn; by case_match. Qed.

(** ** The world *)

(** What the next etcd call does: answer, or fail without or after its effect. *)
Inductive fault := Answer | FailBefore | FailAfter.

Record ref_world := mkRefWorld {
  rw_kv : gmap string string;
  rw_faults : list fault;
  rw_seed : Z;
  rw_rolls : Z;
  rw_ctx : list (option error);
  rw_docker : gmap string (bool * Z);
  rw_http : list (result (Z * string)) }.

Definition empty_world : ref_world := mkRefWorld ∅ [] 0 0 [] ∅ [].
Definition world_with (m : gmap string string) : ref_world := mkRefWorld m [] 0 0 [] ∅ [].

Definition set_kv (m : gmap string string) (w : ref_world) : ref_world :=
  mkRefWorld m (tail (rw_faults w)) (rw_seed w) (rw_rolls w) (rw_ctx w) (rw_docker w)
    (rw_http w).

Definition set_docker (d : gmap string (bool * Z)) (w : ref_world) : ref_world :=
  mkRefWorld (rw_kv w) (rw_faults w) (rw_seed w) (rw_rolls w) (rw_ctx w) d (rw_http w).

Definition next_fault (w : ref_world) : fault := default Answer (head (rw_faults w)).

(** A call with effect [m'] on the store and answer [r]. *)
Definition etcd_step {A} (w : ref_world) (m' : gmap string string) (r : A)
  : result A * ref_world :=
  match next_fault w with
  | Answer => (Ok r, set_kv m' w)
  | FailBefore => (Err (ErrText "etcdserver: request timed out"), set_kv (rw_kv w) w)
  | FailAfter => (Err (ErrText "etcdserver: request timed out"), set_kv m' w)
  end.

Definition kv_of (p : string * string) : KeyValue := mkKeyValue p.1 p.2 1 1.

(** Twelve letters of five bits, each a valid index: the base-27 digits of the seed. *)
Fixpoint pack (n : nat) (c : Z) : Z :=
  match n with
  | O => 0
  | S n => c mod 27 + 32 * pack n (c / 27)
  end.

(** An operating system on which everything succeeds. *)
Definition ref_os (o : os) : os_resp o :=
  match o return os_resp o with
  | MkdirTemp pattern => Ok ("/tmp/" +:+ pattern +:+ "1")
  | Getwd => Ok "/"
  | RemoveAll _ | ListenerClose _ => Ok ()
  | ListenTCP _ | StartEtcd _ => Ok 0%nat
  | ListenerPort _ => 40000
  | ReadyWithin _ _ => true
  | ListenAndServe _ => ErrText "http: Server closed"
  | ServedOrSignal => None
  | ServerStop _ | ServerClose _ | SignalNotify | SignalWait | Printf _ _ => ()
  end.

Definition ref_handle (e : ext) (w : ref_world) : resp e * ref_world :=
  match e return resp e * ref_world with
  | EtcdPut k v => etcd_step w (<[k:=v]> (rw_kv w)) ()
  | EtcdGet k =>
      etcd_step w (rw_kv w)
        (mkGetResponse 1 (kv_of <$> option_list ((k,.) <$> rw_kv w !! k)))
  | EtcdGetPrefix p =>
      etcd_step w (rw_kv w)
        (mkGetResponse 1 (kv_of <$> map_to_list (with_prefix p (rw_kv w))))
  | EtcdDelete k => etcd_step w (delete k (rw_kv w)) ()
  | EtcdDeletePrefix p => etcd_step w (without_prefix p (rw_kv w)) ()
  | RandInt63 =>
      (pack 12 (rw_seed w),
       mkRefWorld (rw_kv w) (rw_faults w) (rw_seed w + 1) (rw_rolls w) (rw_ctx w)
         (rw_docker w) (rw_http w))
  | RandIntn n =>
      (rw_rolls w mod n,
       mkRefWorld (rw_kv w) (rw_faults w) (rw_seed w) (rw_rolls w + 1) (rw_ctx w)
         (rw_docker w) (rw_http w))
  | CtxErr => (default None (head (rw_ctx w)), w)
  | CtxOrTimer _ =>
      (default None (head (rw_ctx w)),
       mkRefWorld (rw_kv w) (rw_faults w) (rw_seed w) (rw_rolls w) (tail (rw_ctx w))
         (rw_docker w) (rw_http w))
  | HttpDo _ _ _ =>
      (default (Err (ErrText "connection refused")) (head (rw_http w)),
       mkRefWorld (rw_kv w) (rw_faults w) (rw_seed w) (rw_rolls w) (rw_ctx w)
         (rw_docker w) (tail (rw_http w)))
  | ImagePull _ | ImageCopy _ => (Ok (), w)
  | ContainerCreate name _ _ => (Ok name, set_docker (<[name:=(false, 0)]> (rw_docker w)) w)
  | ContainerStart id => (Ok (), set_docker (alter (fun _ => (true, 0)) id (rw_docker w)) w)
  | ContainerRemove id => (Ok (), set_docker (delete id (rw_docker w)) w)
  | ContainerList _ => (Ok [], w)
  | ContainerInspect name =>
      (match rw_docker w !! name with
       | Some (running, code) => Inspected running code
       | None => InspectNotFound
       end, w)
  | EtcdConnect _ _ => (Ok 0%nat, w)
  | EtcdClose _ | MetricRegister _ => (Ok (), w)
  | ClientSet _ | EtcdWatch _ _ _ | ChanPush _ _ | ChanClose _ | Sleep _ => ((), w)
  | CtxCancel _ | CtxWait _ | Go _ | Log _ _ | Metric _ | TickerNext _ => ((), w)
  | ClientGet => (Some 0%nat, w)
  | ChanMake _ | CtxWithCancel | CtxWithTimeout _ => (0%nat, w)
  | ChanTake _ => (None, w)
  | Os o => (ref_os o, w)
  | WatchNext _ => (Closed, w)
  | ChanSend _ _ | ChanTrySend _ _ => (Sent, w)
  | ChanRecv _ => (Closed, w)
  end.

#[export] Instance ref_World : World ref_world := ref_handle.

#[export] Instance ref_StoreView : StoreView ref_world := {
  stored := rw_kv;
  up w := Forall (eq Answer) (rw_faults w) }.

(** ** The laws hold *)

Lemma next_fault_up w : up w -> next_fault w = Answer.
Proof. cbn. unfold next_fault. by destruct 1 as [|f fs <- _]. Qed.

Lemma up_set_kv m w : up w -> up (set_kv m w).
Proof. cbn. by destruct 1. Qed.

#[export] Instance ref_EtcdLaws : EtcdLaws ref_world.
Proof.
  split.
  - intros k v w. pose proof (next_fault_up w). unfold handle; cbn; unfold etcd_step.
    destruct (next_fault w); naive_solver.
  - intros k w. pose proof (next_fault_up w). unfold handle; cbn; unfold etcd_step.
    destruct (next_fault w); cbn; [|naive_solver..].
    split; [done|]. by destruct (rw_kv w !! k).
  - intros p w. pose proof (next_fault_up w). unfold handle; cbn; unfold etcd_step.
    destruct (next_fault w); cbn; [|naive_solver..].
    split; [done|]. rewrite <- list_fmap_compose.
    rewrite <- (list_fmap_id (map_to_list _)) at 2.
    apply reflexive_eq, list_fmap_ext. by intros ? [].
  - intros k w. pose proof (next_fault_up w). unfold handle; cbn; unfold etcd_step.
    destruct (next_fault w); naive_solver.
  - intros p w. pose proof (next_fault_up w). unfold handle; cbn; unfold etcd_step.
    destruct (next_fault w); naive_solver.
  - intros e w Hw. pose proof (next_fault_up w Hw) as Hf.
    unfold handle; destruct e; cbn; unfold etcd_step; rewrite ?Hf; try done;
      by apply up_set_kv.
  - intros e w. by destruct e.
Qed.

Lemma pack_range n c : 0 <= pack n c < 32 ^ Z.of_nat n.
Proof.
  revert c; induction n as [|n IH]; intros c; [done|].
  rewrite Nat2Z.inj_succ, Z.pow_succ_r by lia. cbn [pack].
  specialize (IH (c / 27)). pose proof (Z.mod_pos_bound c 27). lia.
Qed.

#[export] Program Instance ref_RandLaws : RandLaws ref_world := {
  rng_state := Z;
  rng := rw_seed;
  next63 s := (pack 12 s, s + 1) }.
Next Obligation.
  intros s; cbn [fst]. pose proof (pack_range 12 s).
  change (32 ^ Z.of_nat 12) with (2 ^ 60) in *. lia.
Qed.
Next Obligation. done. Qed.
Next Obligation. intros n w Hn; cbn. apply Z.mod_pos_bound. lia. Qed.
Next Obligation.
  intros [] w He; cbn; unfold etcd_step; try done; by destruct (next_fault w).
Qed.

Lemma EtcdStorage_implements_Storage_witness :
  StorageLaws EtcdStorage.NewEtcdStorage ref_world.
Proof. apply (EtcdStorage_implements_Storage (W:=ref_world)). Defined.
