(* ===== verification/Names.v ===== *)
(** * Names: random name suffixes (src/pkg/registry/names/generate.go)

    [String] draws 63-bit integers and cuts them into five-bit letters, dropping the
    indexes that fall outside the alphabet.  The reference definition [pick] says which
    string that is: the first [n] valid letters of the generator's letter stream.  The
    loop has no bound in the code; here it takes fuel, and [String] is shown to return
    with twelve units of fuel for every integer it has to draw. *)

From S2P Require Import Prelude Errors Effects Reference.

Module Names.

Definition maxNameLength : nat := 63.
Definition randomLength : Z := 5.
Definition MaxGeneratedNameLength : nat := maxNameLength - Z.to_nat randomLength.

Definition alphanums : string := "bcdfghjklmnpqrstvwxz2456789".
Definition alphanumsIdxBits : Z := 5.
Definition alphanumsIdxMask : Z := Z.shiftl 1 alphanumsIdxBits - 1.
Definition maxAlphanumsPerInt : nat := Z.to_nat (63 / alphanumsIdxBits).

(** The mutex embedded in [rng]. *)
Definition rng_mutex : nat := 0.

(** [alphanums[idx]]. *)
Definition letter (idx : Z) : Ascii.ascii :=
  default Ascii.zero (String.get (Z.to_nat idx) alphanums).

Definition valid (idx : Z) : bool := idx <? Z.of_nat (String.length alphanums).

(** The loop of [String]: [b] holds the [i] letters found so far. *)
Fixpoint String_loop (fuel n i : nat) (b : string) (randomInt63 : Z) (remaining : nat)
  : prog string :=
  if (i <? n)%nat then
    match fuel with
    | O => Halt NoFuel
    | S fuel =>
        '(randomInt63, remaining) ←
          (if (remaining =? 0)%nat
           then x ← call RandInt63; mret (x, maxAlphanumsPerInt)
           else mret (randomInt63, remaining));
        let idx := Z.land randomInt63 alphanumsIdxMask in
        let '(b, i) :=
          if valid idx then (b +:+ String.String (letter idx) "", S i) else (b, i) in
        String_loop fuel n i b (Z.shiftr randomInt63 alphanumsIdxBits) (remaining - 1)
    end
  else mret b.

(** [make] panics on a negative length. *)
Definition String (fuel : nat) (n : Z) : prog string :=
  if n <? 0 then Halt (Panic "makeslice: len out of range")
  else locked rng_mutex Writer (
    randomInt63 ← call RandInt63;
    String_loop fuel (Z.to_nat n) 0 "" randomInt63 maxAlphanumsPerInt).

(** [func (simpleNameGenerator) GenerateName(base string) string]. *)
Definition GenerateName (fuel : nat) (base : string) : prog string :=
  let base :=
    if (MaxGeneratedNameLength <? String.length base)%nat
    then str_take MaxGeneratedNameLength base else base in
  suffix ← String fuel randomLength;
  mret (base +:+ suffix).

(** ** Reference definition *)

(** The low [k] letters of an integer. *)
Fixpoint letters (k : nat) (r : Z) : list Z :=
  match k with
  | O => []
  | S k => Z.land r alphanumsIdxMask :: letters k (Z.shiftr r alphanumsIdxBits)
  end.

(** The first [n] valid letters of a list, if it has as many. *)
Fixpoint pick (l : list Z) (n : nat) : option string :=
  match n, l with
  | O, _ => Some ""
  | S _, [] => None
  | S n', c :: l' =>
      if valid c then String.String (letter c) <$> pick l' n' else pick l' n
  end.

Section stream.
Context `{RandLaws W}.

(** The letters of the next [k] integers of the generator. *)
Fixpoint candidates (k : nat) (s : rng_state) : list Z :=
  match k with
  | O => []
  | S k => letters maxAlphanumsPerInt (next63 s).1 ++ candidates k (next63 s).2
  end.

(** The world after [j] draws. *)
Fixpoint after_draws (j : nat) (w : W) : W :=
  match j with
  | O => w
  | S j => after_draws j (handle RandInt63 w).2
  end.

Lemma pick_0 l : pick l 0 = Some "".
Proof. by destruct l. Qed.

Lemma loop_done fuel n b r remaining (w : W) :
  run (String_loop fuel n n b r remaining) w = (Val b, w).
Proof. destruct fuel; cbn [String_loop]; by rewrite Nat.ltb_irrefl. Qed.

Lemma loop_refill fuel n i b r (w : W) :
  (i < n)%nat ->
  run (String_loop (S fuel) n i b r 0) w =
  run (String_loop (S fuel) n i b (handle RandInt63 w).1 maxAlphanumsPerInt)
    (handle RandInt63 w).2.
Proof.
  intros Hlt%Nat.ltb_lt. cbn [String_loop]. rewrite Hlt, !run_bind.
  cbn -[String_loop]. by destruct (handle RandInt63 w) as [x w1].
Qed.

(** One letter consumed: kept if it is valid, dropped if not. *)
Lemma loop_letter fuel n i b r remaining (w : W) :
  (i < n)%nat ->
  run (String_loop (S fuel) n i b r (S remaining)) w =
  (if valid (Z.land r alphanumsIdxMask)
   then run (String_loop fuel n (S i)
               (b +:+ String.String (letter (Z.land r alphanumsIdxMask)) "")
               (Z.shiftr r alphanumsIdxBits) remaining) w
   else run (String_loop fuel n i b (Z.shiftr r alphanumsIdxBits) remaining) w).
Proof.
  intros Hlt%Nat.ltb_lt. cbn [String_loop].
  rewrite Hlt, run_bind. cbn -[String_loop]. rewrite Nat.sub_0_r.
  by destruct (valid _).
Qed.

Lemma String_loop_pick fuel n i b r remaining k (w : W) str :
  (i <= n)%nat -> (remaining + 12 * k <= fuel)%nat ->
  pick (letters remaining r ++ candidates k (rng w)) (n - i) = Some str ->
  exists j, (j <= k)%nat /\
    run (String_loop fuel n i b r remaining) w = (Val (b +:+ str), after_draws j w).
Proof.
  revert i b r remaining k w str.
  induction fuel as [|fuel IH]; intros i b r remaining k w str Hi Hfuel Hpick;
    (destruct (decide (i = n)) as [->|Hne];
      [exists 0%nat; rewrite Nat.sub_diag, pick_0 in Hpick; injection Hpick as <-;
       rewrite loop_done, str_app_nil_r; split; [lia|done] | ]).
  { assert (remaining = 0%nat) as -> by lia. assert (k = 0%nat) as -> by lia.
    destruct (n - i)%nat eqn:?; [lia|done]. }
  assert (Hsome : forall r remaining k w str, (S remaining + 12 * k <= S fuel)%nat ->
    pick (letters (S remaining) r ++ candidates k (rng w)) (n - i) = Some str ->
    exists j, (j <= k)%nat /\
      run (String_loop (S fuel) n i b r (S remaining)) w = (Val (b +:+ str), after_draws j w)).
  { clear -IH Hi Hne. intros r remaining k w str Hfuel Hpick.
    rewrite loop_letter by lia. destruct (n - i)%nat as [|m] eqn:Hm; [lia|].
    cbn [letters app pick] in Hpick. destruct (valid _).
    - destruct (pick (letters remaining _ ++ _) m) as [t|] eqn:Ht; [|done].
      injection Hpick as <-. replace m with (n - S i)%nat in Ht by lia.
      edestruct IH as (j & Hj & Hr); [| |exact Ht|]; [lia..|].
      exists j. split; [done|]. rewrite Hr. by rewrite str_app_assoc.
    - rewrite <- Hm in Hpick. apply IH; [lia..|done]. }
  destruct remaining as [|remaining]; [|by apply Hsome].
  destruct k as [|k]; [by destruct (n - i)%nat eqn:?; [lia|]|].
  cbn [letters candidates app] in Hpick.
  destruct (rand_int63 w) as [Hx Hs]. rewrite <- Hx, <- Hs in Hpick.
  rewrite loop_refill by lia. change maxAlphanumsPerInt with 12%nat in *.
  edestruct Hsome as (j & Hj & Hr); [|exact Hpick|]; [lia|].
  exists (S j). split; [lia|done].
Qed.

(** [String] returns the first [n] valid letters of the generator's stream. *)
Lemma String_pick fuel n k (w : W) str :
  0 <= n -> (12 * k <= fuel)%nat ->
  pick (candidates k (rng w)) (Z.to_nat n) = Some str ->
  exists j, (1 <= j <= Nat.max 1 k)%nat /\
    run (String fuel n) w = (Val str, after_draws j w).
Proof.
  intros Hn Hfuel Hpick. unfold String.
  destruct (Z.ltb_spec n 0) as [?|_]; [lia|].
  unfold locked. cbn [run]. rewrite run_bind. cbn [run call].
  destruct (rand_int63 w) as [Hx Hs].
  assert (Hgo : exists j, (j <= Nat.max 1 k - 1)%nat /\
    run (String_loop fuel (Z.to_nat n) 0 "" (handle RandInt63 w).1 maxAlphanumsPerInt)
      (handle RandInt63 w).2 = (Val ("" +:+ str), after_draws j (handle RandInt63 w).2)).
  { destruct k as [|k].
    - cbn in Hpick. destruct (Z.to_nat n) as [|n'] eqn:Hn'; [|done]. exists 0%nat.
      split; [lia|]. injection Hpick as <-. by destruct fuel.
    - cbn [candidates] in Hpick. rewrite <- Hx, <- Hs in Hpick.
      destruct (String_loop_pick fuel (Z.to_nat n) 0 "" (handle RandInt63 w).1
        maxAlphanumsPerInt k (handle RandInt63 w).2 str) as (j & Hj & Hr);
        [lia | change maxAlphanumsPerInt with 12%nat; lia | by rewrite Nat.sub_0_r |].
      exists j. split; [lia|done]. }
  destruct Hgo as (j & Hj & Hr). exists (S j). split; [lia|].
  rewrite run_bind. cbn [run call].
  destruct (handle RandInt63 w) as [x w1] eqn:Hw. cbn in Hr |- *.
  unfold call; cbn. rewrite Hw. cbn in *. by rewrite Hr.
Qed.
End stream.

(** ** Shape of the result *)

(** A character of the alphabet. *)
Fixpoint occurs (c : Ascii.ascii) (s : string) : bool :=
  match s with
  | EmptyString => false
  | String.String d s => Ascii.eqb c d || occurs c s
  end.

Definition alphanumeric (c : Ascii.ascii) : bool := occurs c alphanums.

Lemma mask_range r : 0 <= Z.land r alphanumsIdxMask < 32.
Proof.
  change alphanumsIdxMask with (Z.ones 5). rewrite Z.land_ones by lia.
  apply Z.mod_pos_bound. lia.
Qed.

Lemma letter_alphanumeric c : 0 <= c < 32 -> valid c = true -> alphanumeric (letter c) = true.
Proof.
  intros Hc Hv. assert (Hin : c ∈ (Z.of_nat <$> seq 0 32)).
  { apply list_elem_of_fmap. exists (Z.to_nat c). split; [lia|]. apply elem_of_seq. lia. }
  revert c Hin Hc Hv.
  assert (Hall : forallb (fun c => negb (valid c) || alphanumeric (letter c))
                   (Z.of_nat <$> seq 0 32) = true) by (vm_compute; reflexivity).
  intros c Hin _ Hv. rewrite forallb_forall in Hall.
  apply list_elem_of_In, Hall in Hin. by rewrite Hv in Hin.
Qed.

Section shape.
Context `{World W}.

Lemma String_loop_shape fuel n i b r remaining (w : W) :
  (i <= n)%nat ->
  wlp (String_loop fuel n i b r remaining) (fun s _ =>
    exists t, s = b +:+ t /\ String.length t = (n - i)%nat /\
      str_forall alphanumeric t = true) w.
Proof.
  revert i b r remaining w; induction fuel as [|fuel IH]; intros i b r remaining w Hi;
    cbn [String_loop]; destruct (Nat.ltb_spec i n) as [Hlt|Hge].
  - done.
  - exists "". rewrite str_app_nil_r. cbn. split; [done|]. split; [lia|done].
  - rewrite wlp_bind.
    assert (Hnext : forall r remaining w,
      wlp (let idx := Z.land r alphanumsIdxMask in
           let '(b, i) :=
             if valid idx then (b +:+ String.String (letter idx) "", S i) else (b, i) in
           String_loop fuel n i b (Z.shiftr r alphanumsIdxBits) remaining)
        (fun s _ => exists t, s = b +:+ t /\ String.length t = (n - i)%nat /\
           str_forall alphanumeric t = true) w).
    { clear r remaining w. intros r remaining w. cbn zeta.
      destruct (valid _) eqn:Hv; [|by apply IH].
      eapply wlp_mono; [apply IH; lia|]. intros s _ (t & -> & Hlen & Hall).
      exists (String.String (letter (Z.land r alphanumsIdxMask)) t).
      rewrite str_app_assoc. split; [done|].
      cbn [String.length str_forall]. split; [lia|].
      by rewrite letter_alphanumeric by (done || apply mask_range). }
    destruct (remaining =? 0)%nat; [|apply Hnext].
    rewrite wlp_bind. unfold wlp at 1, call. cbn [run].
    destruct (handle RandInt63 w) as [x w']. apply Hnext.
  - exists "". rewrite str_app_nil_r. cbn. split; [done|]. split; [lia|done].
Qed.

Lemma String_shape_wlp fuel n (w : W) :
  0 <= n ->
  wlp (String fuel n) (fun s _ =>
    String.length s = Z.to_nat n /\ str_forall alphanumeric s = true) w.
Proof.
  intros Hn. unfold String. destruct (Z.ltb_spec n 0) as [?|_]; [lia|].
  unfold locked, wlp. cbn [run]. rewrite run_bind. rewrite run_bind.
  unfold call. cbn [run]. destruct (handle RandInt63 w) as [x w'].
  pose proof (String_loop_shape fuel (Z.to_nat n) 0 "" x maxAlphanumsPerInt w') as Hs.
  unfold wlp in Hs. destruct (run (String_loop _ _ _ _ _ _) w') as [[s|[]] w''];
    cbn; try (by apply Hs; lia).
  destruct Hs as (t & -> & Hlen & Hall); [lia|]. rewrite str_app_nil_l.
  split; [lia|done].
Qed.
End shape.

(** [base] as [GenerateName] cuts it. *)
Definition cut (base : string) : string := str_take MaxGeneratedNameLength base.

Lemma GenerateName_cut fuel base :
  GenerateName fuel base = (suffix ← String fuel randomLength; mret (cut base +:+ suffix)).
Proof.
  unfold GenerateName, cut. destruct (Nat.ltb_spec MaxGeneratedNameLength (String.length base));
    [done|]. by rewrite str_take_ge.
Qed.

(** The generator draws integers and does nothing else, and this is the shape of what it
    returns, whatever it draws. *)
Lemma String_loop_behaves fuel n i b r remaining :
  (i <= n)%nat ->
  behaves (eq RandInt63) (fun s => exists t, s = b +:+ t /\ String.length t = (n - i)%nat)
    (String_loop fuel n i b r remaining).
Proof.
  revert i b r remaining; induction fuel as [|fuel IH]; intros i b r remaining Hi;
    cbn [String_loop]; destruct (Nat.ltb_spec i n) as [Hlt|Hge]; try done;
    try (exists ""; rewrite str_app_nil_r; split; [done|cbn; lia]).
  eapply (behaves_bind _ (fun _ => True)); [by destruct (remaining =? 0)%nat|].
  intros [x rem] _. destruct (valid _); [|by apply IH].
  eapply behaves_mono; [apply IH; lia|done|]. intros s (t & -> & Ht).
  eexists. rewrite str_app_assoc. split; [done|].
  rewrite str_app_cons, str_app_nil_l. cbn [String.length]. lia.
Qed.

Lemma GenerateName_behaves fuel base :
  behaves (eq RandInt63) (fun name => exists suffix,
    name = cut base +:+ suffix /\ String.length suffix = 5%nat) (GenerateName fuel base).
Proof.
  rewrite GenerateName_cut. eapply behaves_bind.
  - apply behaves_locked. eapply (behaves_bind _ (fun _ => True)); [by apply behaves_call|].
    intros x _. apply (String_loop_behaves fuel 5 0). lia.
  - intros s (t & -> & Ht). rewrite str_app_nil_l. exists t. done.
Qed.

(** The only exit is the bound of the loop. *)
Lemma GenerateName_stops fuel base : stops (eq NoFuel) (GenerateName fuel base).
Proof.
  apply stops_bind; [|done]. apply stops_locked, stops_bind; [done|]. intros x.
  generalize 0%nat as i, ""%string as b, maxAlphanumsPerInt as remaining. revert x.
  induction fuel as [|fuel IH]; intros x i b remaining; cbn [String_loop];
    destruct (_ <? _)%nat; try done.
  apply stops_bind; [by destruct (remaining =? 0)%nat|]. intros [y rem]. destruct (valid _); apply IH.
Qed.

(** ** A fair generator *)

(** Some number of draws always yields five valid letters: the loop cannot skip letters
    forever.  (The code relies on this; it is a property of the seed, not of the loop.) *)
Class RandFair (W : Type) `{RandLaws W} := {
  fair_draws : nat;
  fair : forall s, exists str, pick (candidates fair_draws s) 5 = Some str }.

(** The reference world's generator is fair: its letters are base-27 digits. *)
Lemma letters_pack k n c :
  (k <= n)%nat -> Forall (fun d => valid d = true) (letters k (pack n c)).
Proof.
  revert n c; induction k as [|k IH]; intros [|n] c Hk; cbn [letters]; try constructor; try lia.
  - change alphanumsIdxMask with (Z.ones 5). rewrite Z.land_ones by lia. cbn [pack].
    change (2 ^ 5) with 32. pose proof (Z.mod_pos_bound c 27).
    rewrite (Z.mul_comm 32), Z.mod_add, Z.mod_small by lia. 
    unfold valid. apply Z.ltb_lt. change (Z.of_nat (String.length alphanums)) with 27. lia.
  - replace (Z.shiftr (pack (S n) c) alphanumsIdxBits) with (pack n (c / 27)).
    { apply IH. lia. }
    unfold alphanumsIdxBits. rewrite Z.shiftr_div_pow2 by lia. cbn [pack].
    pose proof (Z.mod_pos_bound c 27). change (2 ^ 5) with 32.
    rewrite (Z.mul_comm 32), Z.div_add, (Z.div_small (c mod 27)) by lia. lia.
Qed.

Lemma letters_length k r : length (letters k r) = k.
Proof. revert r; induction k as [|k IH]; intros r; cbn; by rewrite ?IH. Qed.

Lemma pick_valid l n :
  Forall (fun d => valid d = true) l -> (n <= length l)%nat -> is_Some (pick l n).
Proof.
  intros Hl. revert n; induction Hl as [|c l Hc _ IH]; intros [|n] Hn;
    cbn in *; try done; [lia|].
  rewrite Hc. destruct (IH n) as [t ->]; [lia|]. by eexists.
Qed.

#[global] Program Instance ref_RandFair : RandFair ref_world := { fair_draws := 1 }.
Next Obligation.
  intros s. destruct (pick_valid (candidates (W:=ref_world) 1 s) 5) as [t Ht]; [| |eauto].
  - cbn [candidates]. rewrite app_nil_r. by apply letters_pack.
  - cbn [candidates]. rewrite app_nil_r, letters_length.
    change maxAlphanumsPerInt with 12%nat. lia.
Qed.

Lemma GenerateName_run `{RandLaws W} fuel base k (w : W) str :
  (12 * k <= fuel)%nat -> pick (candidates k (rng w)) 5 = Some str ->
  exists j, (1 <= j)%nat /\
    run (GenerateName fuel base) w = (Val (cut base +:+ str), after_draws j w).
Proof.
  intros Hf Hp. rewrite GenerateName_cut, run_bind.
  destruct (String_pick fuel randomLength k w str) as (j & Hj & Hr); [done|done|done|].
  exists j. rewrite Hr. split; [lia|done].
Qed.

(** ** Properties *)

(** C25: [String] computes the reference string.  If the next [k] integers of the generator
    hold [n] valid letters, then with twelve units of fuel for each the loop ends,
    returns exactly the first [n] valid letters of the stream, and has drawn between one
    and [k] integers and done nothing else to the world. *)
Theorem String_returns_first_letters `{RandLaws W} (fuel : nat) (n : Z) (k : nat) (w : W)
    (str : string) :
  0 <= n -> (12 * k <= fuel)%nat ->
  pick (candidates k (rng w)) (Z.to_nat n) = Some str ->
  exists j, (1 <= j <= Nat.max 1 k)%nat /\
    run (String fuel n) w = (Val str, after_draws j w).
Proof. apply String_pick. Qed.

Lemma String_returns_first_letters_witness :
  exists j, (1 <= j <= Nat.max 1 1)%nat /\
    run (String 12 10) (mkRefWorld ∅ [] 123456 0 [] ∅ []) =
      (Val "qmkjbbbbbb", after_draws j (mkRefWorld ∅ [] 123456 0 [] ∅ [])).
Proof.
  apply (String_returns_first_letters 12 10 1 (mkRefWorld ∅ [] 123456 0 [] ∅ []));
    [lia | lia | vm_compute; reflexivity].
Defined.

(** Whatever the generator draws, [String(n)] never panics for [n >= 0], and what it
    returns has [n] characters, all of the vowel-free alphabet. *)
Theorem String_shape `{World W} (fuel : nat) (n : Z) (w : W) :
  0 <= n ->
  wlp (String fuel n) (fun s _ =>
    String.length s = Z.to_nat n /\ str_forall alphanumeric s = true) w.
Proof. apply String_shape_wlp. Qed.

Lemma String_shape_witness :
  wlp (String 24 13) (fun s _ =>
    String.length s = 13%nat /\ str_forall alphanumeric s = true) empty_world.
Proof. apply (String_shape 24 13 empty_world). lia. Defined.

(** C35: a generated name is at most 63 bytes long, has the base (cut to 58 bytes) as a
    proper prefix, and five alphanumeric characters after it. *)
Theorem GenerateName_bounds `{World W} (fuel : nat) (base : string) (w : W) :
  wlp (GenerateName fuel base) (fun name _ =>
    exists suffix, name = cut base +:+ suffix /\ String.length suffix = 5%nat /\
      str_forall alphanumeric suffix = true /\
      (String.length name <= maxNameLength)%nat /\
      ((String.length base <= MaxGeneratedNameLength)%nat -> HasPrefix name base = true)) w.
Proof.
  rewrite GenerateName_cut, wlp_bind.
  eapply wlp_mono; [by apply String_shape_wlp|]. intros s w' [Hlen Hall].
  unfold wlp. cbn. exists s. split; [done|]. split; [done|]. split; [done|].
  unfold cut. rewrite str_app_length, str_take_length, Hlen.
  change MaxGeneratedNameLength with 58%nat. change maxNameLength with 63%nat.
  change (Z.to_nat randomLength) with 5%nat. split; [lia|].
  intros Hb. rewrite str_take_ge by done. apply HasPrefix_app.
Qed.

Lemma GenerateName_bounds_witness :
  wlp (GenerateName 12 "web-") (fun name _ =>
    exists suffix, name = cut "web-" +:+ suffix /\ String.length suffix = 5%nat /\
      str_forall alphanumeric suffix = true /\
      (String.length name <= maxNameLength)%nat /\
      ((String.length "web-" <= MaxGeneratedNameLength)%nat ->
       HasPrefix name "web-" = true)) empty_world.
Proof. apply (GenerateName_bounds 12 "web-" empty_world). Defined.

End Names.
