(* ===== verification/GoPath.v ===== *)
(** * GoPath: [path.Clean] and [path.Join] of the Go standard library

    The node registry builds its keys with [path.Join], which cleans the result: empty
    and "." elements disappear and ".." removes the element before it.  The functions
    follow the package's documented rules, element by element. *)

From Stdlib Require Import Ascii.
From S2P Require Import Prelude.

Definition slash : ascii := "/"%char.

(** The elements between slashes; there is always at least one. *)
Fixpoint split_slash (s : string) : list string :=
  match s with
  | EmptyString => [""]
  | String c s =>
      if Ascii.eqb c slash then "" :: split_slash s
      else match split_slash s with
           | e :: es => String c e :: es
           | [] => [String c ""]
           end
  end.

(** The elements joined with slashes. *)
Fixpoint join_slash (es : list string) : string :=
  match es with
  | [] => ""
  | [e] => e
  | e :: es => e +:+ String slash (join_slash es)
  end.

(** One element of a path applied to the elements kept so far, last first. *)
Definition clean_step (rooted : bool) (stack : list string) (e : string) : list string :=
  if bool_decide (e = "") then stack
  else if bool_decide (e = ".") then stack
  else if bool_decide (e = "..") then
    match stack with
    | [] => if rooted then [] else [".."]
    | top :: rest => if bool_decide (top = "..") then ".." :: stack else rest
    end
  else e :: stack.

(** [path.Clean]. *)
Definition Clean (p : string) : string :=
  let rooted := HasPrefix p "/" in
  let es := reverse (foldl (clean_step rooted) [] (split_slash p)) in
  if rooted then String slash (join_slash es)
  else match es with [] => "." | _ => join_slash es end.

(** [path.Join(a, b)] for a non-empty [a]. *)
Definition Join (a b : string) : string := Clean (a +:+ String slash b).

(** A name that is one ordinary path element. *)
Definition no_slash (c : ascii) : bool := negb (Ascii.eqb c slash).

Definition plain (s : string) : Prop :=
  s <> "" /\ s <> "." /\ s <> ".." /\ str_forall no_slash s = true.

#[export] Instance plain_dec s : Decision (plain s).
Proof. unfold plain. apply _. Defined.

Lemma split_slash_plain s : str_forall no_slash s = true -> split_slash s = [s].
Proof.
  induction s as [|c s IH]; cbn; [done|]. unfold no_slash at 1.
  destruct (Ascii.eqb c slash); [done|]. cbn. intros Hs. by rewrite IH.
Qed.

Lemma clean_step_plain rooted stack e : plain e -> clean_step rooted stack e = e :: stack.
Proof.
  intros (H1 & H2 & H3 & _). unfold clean_step.
  by rewrite !bool_decide_eq_false_2.
Qed.
