(* ===== verification/Ledger.v ===== *)
(** * Ledger: what a program holds, whatever the outside answers

    A ledger is a ghost state updated by every external call and its answer: the temporary
    directories that exist, the servers that run, the channels that are closed.  [tracks]
    says that in every behaviour of a program, started with some ledger, its outcome and its
    final ledger satisfy a postcondition.  The answers range over all that the ledger
    allows (a new directory is not one that exists already). *)

From S2P Require Import Prelude Errors Effects.

Section ledger.
Context {G : Type}.
Variable answers : G -> forall e : ext, resp e -> Prop.
Variable update : forall e : ext, resp e -> G -> G.

Fixpoint tracks {A} (Q : outcome A -> G -> Prop) (p : prog A) (g : G) : Prop :=
  match p with
  | Ret a => Q (Val a) g
  | Call e k => forall r, answers g e r -> tracks Q (k r) (update e r g)
  | Lock _ _ k | Unlock _ _ k => tracks Q k g
  | Halt h => Q (Halted h) g
  end.

Lemma tracks_mono {A} (Q Q' : outcome A -> G -> Prop) p g :
  tracks Q p g -> (forall o g', Q o g' -> Q' o g') -> tracks Q' p g.
Proof.
  intros Hp HQ. revert g Hp; induction p as [a|e k IH|m md k IH|m md k IH|h];
    cbn [tracks]; auto.
Qed.

Lemma tracks_any {A} (p : prog A) g : tracks (fun _ _ => True) p g.
Proof. revert g; induction p; cbn [tracks]; auto. Qed.

(** What [p ≫= f] does after [p]. *)
Definition continue {A B} (Q : outcome B -> G -> Prop) (f : A -> prog B) (o : outcome A) (g : G)
  : Prop :=
  match o with Val a => tracks Q (f a) g | Halted h => Q (Halted h) g end.

Lemma tracks_bind {A B} (Q : outcome B -> G -> Prop) (p : prog A) f g :
  tracks Q (p ≫= f) g <-> tracks (continue Q f) p g.
Proof.
  unfold mbind, prog_mbind. revert g; induction p as [a|e k IH|m md k IH|m md k IH|h];
    intros g; cbn [prog_bind tracks]; try done.
 
  split; intros Hk r Hr; by apply IH, Hk.
Qed.

Lemma tracks_call e (Q : outcome (resp e) -> G -> Prop) g :
  tracks Q (call e) g <-> forall r, answers g e r -> Q (Val r) (update e r g).
Proof. done. Qed.

(** After the body the deferred call, unless the process has ended. *)
Definition after_body {A} (Q : outcome A -> G -> Prop) (d : prog unit) (o : outcome A) (g : G)
  : Prop :=
  match o with
  | Val a => tracks Q (d ≫= fun _ => Ret a) g
  | Halted (Panic msg) => tracks Q (d ≫= fun _ => Halt (Panic msg)) g
  | Halted Goexit => tracks Q (d ≫= fun _ => Halt Goexit) g
  | Halted h => Q (Halted h) g
  end.

Lemma tracks_deferred {A} (Q : outcome A -> G -> Prop) d p g :
  tracks Q (deferred d p) g <-> tracks (after_body Q d) p g.
Proof.
  revert g; induction p as [a|e k IH|m md k IH|m md k IH|h];
    intros g; cbn [deferred tracks]; try done; [|by destruct h].
 
  split; intros Hk r Hr; by apply IH, Hk.
Qed.

Lemma tracks_and {A} (Q1 Q2 : outcome A -> G -> Prop) p g :
  tracks Q1 p g -> tracks Q2 p g -> tracks (fun o g' => Q1 o g' /\ Q2 o g') p g.
Proof. revert g; induction p as [a|e k IH|m md k IH|m md k IH|h]; cbn [tracks]; auto. Qed.

Lemma tracks_stops {A} (H : halt -> Prop) (p : prog A) g :
  stops H p -> tracks (fun o _ => match o with Val _ => True | Halted h => H h end) p g.
Proof. revert g; induction p as [a|e k IH|m md k IH|m md k IH|h]; cbn [tracks stops]; auto. Qed.

(** The ledger of a world: what is tracked is what happens. *)
Lemma tracks_run `{World W} (ghost : W -> G) {A} (Q : outcome A -> G -> Prop) p w :
  (forall e w, answers (ghost w) e (handle e w).1) ->
  (forall e w, ghost (handle e w).2 = update e (handle e w).1 (ghost w)) ->
  tracks Q p (ghost w) -> Q (run p w).1 (ghost (run p w).2).
Proof.
  intros Ha Hu. revert w; induction p as [a|e k IH|m md k IH|m md k IH|h]; intros w;
    cbn [tracks run]; auto.
  intros Hk. specialize (Hk _ (Ha e w)). rewrite <- Hu in Hk. specialize (IH _ _ Hk).
  by destruct (handle e w) as [r w'].
Qed.
End ledger.

(** The ledger that remembers whether the last answer was a live one: a patient program
    meets its bound only then. *)
Lemma patient_tracks {A} (p : prog A) b :
  patient p \/ b = true /\ p = Halt NoFuel ->
  tracks (fun (_ : bool) _ _ => True) (fun e r _ => live e r)
    (fun o last => o = Halted NoFuel -> last = true) p b.
Proof.
  intros Hp. revert b Hp.
  induction p as [a|e k IH|m md k IH|m md k IH|h]; intros b [Hp|[-> Hp]]; try done;
    cbn [tracks patient] in *; auto.
  - intros r _. apply IH. destruct (Hp r) as [[Hl Hk]|Hk]; auto.
  - by intros [= ->].
Qed.

#[global] Arguments tracks : simpl never.

(** ** Protocols *)

(** Every call of a program is permitted by the ledger at that moment, and its outcome
    satisfies a postcondition.  The ledger is then the state of a protocol the program
    follows, at every moment of its execution. *)
Section protocol.
Context {G : Type}.
Variable permitted : G -> ext -> Prop.
Variable answers : G -> forall e : ext, resp e -> Prop.
Variable update : forall e : ext, resp e -> G -> G.

Fixpoint obeys {A} (Q : outcome A -> G -> Prop) (p : prog A) (g : G) : Prop :=
  match p with
  | Ret a => Q (Val a) g
  | Call e k => permitted g e /\ forall r, answers g e r -> obeys Q (k r) (update e r g)
  | Lock _ _ k | Unlock _ _ k => obeys Q k g
  | Halt h => Q (Halted h) g
  end.

Lemma obeys_mono {A} (Q Q' : outcome A -> G -> Prop) p g :
  obeys Q p g -> (forall o g', Q o g' -> Q' o g') -> obeys Q' p g.
Proof.
  intros Hp HQ. revert g Hp; induction p as [a|e k IH|m md k IH|m md k IH|h];
    cbn [obeys]; auto. intros g [He Hk]. split; [done|]. eauto.
Qed.

Definition obeys_then {A B} (Q : outcome B -> G -> Prop) (f : A -> prog B) (o : outcome A) (g : G)
  : Prop :=
  match o with Val a => obeys Q (f a) g | Halted h => Q (Halted h) g end.

Lemma obeys_bind {A B} (Q : outcome B -> G -> Prop) (p : prog A) f g :
  obeys Q (p ≫= f) g <-> obeys (obeys_then Q f) p g.
Proof.
  unfold mbind, prog_mbind. revert g; induction p as [a|e k IH|m md k IH|m md k IH|h];
    intros g; cbn [prog_bind obeys]; try done.
  split; intros [He Hk]; (split; [done|]); intros r Hr; by apply IH, Hk.
Qed.

Lemma obeys_call e (Q : outcome (resp e) -> G -> Prop) g :
  obeys Q (call e) g <-> permitted g e /\ forall r, answers g e r -> Q (Val r) (update e r g).
Proof. done. Qed.

Definition obeys_after {A} (Q : outcome A -> G -> Prop) (d : prog unit) (o : outcome A) (g : G)
  : Prop :=
  match o with
  | Val a => obeys Q (d ≫= fun _ => Ret a) g
  | Halted (Panic msg) => obeys Q (d ≫= fun _ => Halt (Panic msg)) g
  | Halted Goexit => obeys Q (d ≫= fun _ => Halt Goexit) g
  | Halted h => Q (Halted h) g
  end.

Lemma obeys_deferred {A} (Q : outcome A -> G -> Prop) d p g :
  obeys Q (deferred d p) g <-> obeys (obeys_after Q d) p g.
Proof.
  revert g; induction p as [a|e k IH|m md k IH|m md k IH|h];
    intros g; cbn [deferred obeys]; try done; [|by destruct h].
  split; intros [He Hk]; (split; [done|]); intros r Hr; by apply IH, Hk.
Qed.

(** A program whose calls are all permitted and leave the ledger alone. *)
Lemma obeys_steady {A} (P : ext -> Prop) (Q : A -> Prop) (H : halt -> Prop) p g :
  behaves P Q p -> stops H p ->
  (forall e, P e -> permitted g e /\ forall r, update e r g = g) ->
  obeys (fun o g' => g' = g /\ match o with Val a => Q a | Halted h => H h end) p g.
Proof.
  intros Hp Hs HP. induction p as [a|e k IH|m md k IH|m md k IH|h];
    cbn [obeys behaves stops] in *; auto.
  destruct Hp as [He Hk]. destruct (HP e He) as [Hperm Hsame]. split; [done|].
  intros r _. rewrite Hsame. auto.
Qed.
End protocol.

#[global] Arguments obeys : simpl never.

(** One step of a program in a goal [tracks _ _ _ p g]. *)
Ltac track :=
  first
    [ rewrite tracks_bind
    | rewrite tracks_deferred
    | lazymatch goal with
      | |- tracks _ _ _ (call _) _ => apply tracks_call
      | |- tracks _ _ _ (mret _) _ => unfold tracks, mret, prog_mret
      | |- tracks _ _ _ (Ret _) _ => unfold tracks
      | |- tracks _ _ _ (Halt _) _ => unfold tracks
      end ]; cbn beta.
