(* ===== verification/EmbeddedEtcd.v ===== *)
(** * EmbeddedEtcd: the etcd server a process starts (src/pkg/storage/etcd.go, helper.go)

    Starting and stopping the embedded server as programs over the operating system, and a
    ledger of what the process holds: temporary directories, sockets, running servers with
    their listeners, and etcd clients.  The theorems account for every resource in every
    behaviour of the operating system: a start that succeeds holds one server and its
    directory, which a stop gives back ([start_stop_releases]); a start that fails runs no
    server, but leaves the directory behind ([StartEmbeddedEtcdWithPort_outcome]). *)

From stdpp Require Import pretty.
From S2P Require Import Prelude Errors Effects GoPath Ledger Reference.

Module EmbeddedEtcd.

Definition Second : Z := 1000000000.

(** [*embed.Etcd]: a server and its configuration. *)
Record Etcd := mkEtcd { etcd_server : nat; etcd_config : EtcdConfig }.

Definition os_call (o : os) : prog (os_resp o) := call (Os o).

(** ** Temporary directories and ports *)

(** [filepath.Abs] on Unix. *)
Definition Abs (path : string) : prog (result string) :=
  if HasPrefix path "/" then mret (Ok (Clean path))
  else
    wd ← os_call Getwd;
    match wd with
    | Err err => mret (Err err)
    | Ok wd => mret (Ok (Join wd path))
    end.

Definition createTempDir : prog (result string) :=
  made ← os_call (MkdirTemp "gokube-test-");
  match made with
  | Err err =>
      mret (Err (ErrWrap ("failed to create temp directory: " +:+ Error err) err))
  | Ok tempDir => Abs tempDir
  end.

Definition PickAvailableRandomPort : prog (result Z) :=
  listening ← os_call (ListenTCP "127.0.0.1:0");
  match listening with
  | Err err => mret (Err err)
  | Ok ln =>
      port ← os_call (ListenerPort ln);
      closed ← os_call (ListenerClose ln);
      match closed with
      | Err err => mret (Err err)
      | Ok _ => mret (Ok port)
      end
  end.

(** The port that was asked for, or a random one for 0. *)
Definition choose_port (port : Z) : prog (result Z) :=
  if port =? 0 then PickAvailableRandomPort else mret (Ok port).

(** ** Starting and stopping *)

Definition local_url (port : Z) : URL := mkURL "http" ("127.0.0.1:" +:+ pretty port).

Definition StartEmbeddedEtcdWithPort (peerPort clientPort : Z) : prog (result (Etcd * Z)) :=
  dir ← createTempDir;
  match dir with
  | Err err => mret (Err err)
  | Ok dir =>
      peerPort ← choose_port peerPort;
      match peerPort with
      | Err err => mret (Err err)
      | Ok peerPort =>
          clientPort ← choose_port clientPort;
          match clientPort with
          | Err err => mret (Err err)
          | Ok clientPort =>
              let cfg := mkEtcdConfig dir [local_url peerPort] [local_url clientPort]
                           "zap" ["stderr"] in
              started ← os_call (StartEtcd cfg);
              match started with
              | Err err => mret (Err err)
              | Ok server =>
                  ready ← os_call (ReadyWithin server (10 * Second));
                  if (ready : bool) then
                    _ ← os_call (Printf false
                          ("Embedded etcd is ready with peer port " +:+ pretty peerPort +:+
                           " and client port " +:+ pretty clientPort +:+ "!"));
                    mret (Ok (mkEtcd server cfg, clientPort))
                  else
                    _ ← os_call (ServerStop server);
                    mret (Err (ErrText "server took too long to start"))
              end
          end
      end
  end.

Definition StartEmbeddedEtcd : prog (result (Etcd * Z)) := StartEmbeddedEtcdWithPort 0 0.

Definition StopEmbeddedEtcd (e : Etcd) : prog unit :=
  _ ← os_call (ServerClose (etcd_server e));
  _ ← os_call (RemoveAll (cfg_Dir (etcd_config e)));
  os_call (Printf false "Embedded etcd server stopped and data directory removed").

(** ** The helper of the tests (helper.go) *)

(** [t.Fatalf]: the test is marked as failed and its goroutine unwound. *)
Definition Fatalf {A} (msg : string) : prog A := _ ← os_call (Printf false msg); Halt Goexit.

Definition TestWithEmbeddedEtcd (test : nat -> prog unit) : prog unit :=
  started ← StartEmbeddedEtcd;
  match started with
  | Err err => Fatalf ("Failed to start embedded etcd: " +:+ Error err)
  | Ok (etcdServer, port) =>
      deferred (StopEmbeddedEtcd etcdServer) (
        connected ← call (EtcdConnect ["http://localhost:" +:+ pretty port] (5 * Second));
        match connected with
        | Err err => Fatalf ("Failed to create etcd client: " +:+ Error err)
        | Ok cli =>
            deferred (closed ← call (EtcdClose cli);
                      match closed with
                      | Err err => Fatalf ("Failed to close etcd client: " +:+ Error err)
                      | Ok _ => mret ()
                      end)
              (test cli)
        end)
  end.

(** ** The ledger *)

(** What the process holds.  [running] are the servers themselves, [serving] the listeners
    they opened: [e.Close()] shuts down "all servers/listeners", [Server.Stop()] only the
    server.  [contexts] are the contexts not cancelled yet, [spawned] the goroutines started
    so far, last first, and [early] the clients that were closed before the contexts. *)
Record held := mkHeld {
  dirs : list string;
  sockets : list nat;
  running : list nat;
  serving : list nat;
  clients : list nat;
  contexts : list nat;
  spawned : list go_stmt;
  early : list nat }.

Definition nothing_held : held := mkHeld [] [] [] [] [] [] [] [].

Definition set_dirs (x : list string) (g : held) : held :=
  mkHeld x (sockets g) (running g) (serving g) (clients g) (contexts g) (spawned g) (early g).
Definition set_sockets (x : list nat) (g : held) : held :=
  mkHeld (dirs g) x (running g) (serving g) (clients g) (contexts g) (spawned g) (early g).
Definition set_servers (x y : list nat) (g : held) : held :=
  mkHeld (dirs g) (sockets g) x y (clients g) (contexts g) (spawned g) (early g).
Definition set_clients (x y : list nat) (g : held) : held :=
  mkHeld (dirs g) (sockets g) (running g) (serving g) x (contexts g) (spawned g) y.
Definition set_contexts (x : list nat) (g : held) : held :=
  mkHeld (dirs g) (sockets g) (running g) (serving g) (clients g) x (spawned g) (early g).
Definition set_spawned (x : list go_stmt) (g : held) : held :=
  mkHeld (dirs g) (sockets g) (running g) (serving g) (clients g) (contexts g) x (early g).

Definition remove {A} `{EqDecision A} (a : A) (l : list A) : list A :=
  filter (fun b => b <> a) l.
#[global] Arguments remove : simpl never.

Definition os_update (o : os) : os_resp o -> held -> held :=
  match o with
  | MkdirTemp _ => fun r g =>
      match r with
      | Ok d => set_dirs (d :: dirs g) g
      | Err _ => g
      end
  | RemoveAll d => fun r g =>
      match r with
      | Ok _ => set_dirs (remove d (dirs g)) g
      | Err _ => g
      end
  | ListenTCP _ => fun r g =>
      match r with
      | Ok ln => set_sockets (ln :: sockets g) g
      | Err _ => g
      end
  | ListenerClose ln => fun r g =>
      match r with
      | Ok _ => set_sockets (remove ln (sockets g)) g
      | Err _ => g
      end
  | StartEtcd _ => fun r g =>
      match r with
      | Ok s => set_servers (s :: running g) (s :: serving g) g
      | Err _ => g
      end
  | ServerStop s => fun _ g =>
      set_servers (remove s (running g)) (serving g) g
  | ServerClose s => fun _ g =>
      set_servers (remove s (running g)) (remove s (serving g)) g
  | _ => fun _ g => g
  end.

Definition update (e : ext) : resp e -> held -> held :=
  match e with
  | EtcdConnect _ _ => fun r g =>
      match r with
      | Ok c => set_clients (c :: clients g) (early g) g
      | Err _ => g
      end
  | EtcdClose c => fun _ g =>
      set_clients (remove c (clients g))
        (match contexts g with [] => early g | _ => c :: early g end) g
  | CtxWithCancel | CtxWithTimeout _ => fun c g => set_contexts (c :: contexts g) g
  | CtxCancel c => fun _ g => set_contexts (remove c (contexts g)) g
  | Go stmt => fun _ g => set_spawned (stmt :: spawned g) g
  | Os o => os_update o
  | _ => fun _ g => g
  end.

(** New names are new; the directory for temporary files is an absolute path without
    superfluous elements, and so are the directories made in it. *)
Definition os_answers (g : held) (o : os) : os_resp o -> Prop :=
  match o with
  | MkdirTemp _ => fun r =>
      match r with Ok d => HasPrefix d "/" = true /\ Clean d = d /\ (d ∉ dirs g) | Err _ => True end
  | ListenTCP _ => fun r => match r with Ok ln => ln ∉ sockets g | Err _ => True end
  | StartEtcd _ => fun r =>
      match r with Ok s => (s ∉ running g) /\ (s ∉ serving g) | Err _ => True end
  | _ => fun _ => True
  end.

Definition answers (g : held) (e : ext) : resp e -> Prop :=
  match e with
  | EtcdConnect _ _ => fun r => match r with Ok c => c ∉ clients g | Err _ => True end
  | CtxWithCancel | CtxWithTimeout _ => fun c => c ∉ contexts g
  | Os o => os_answers g o
  | _ => fun _ => True
  end.

#[local] Abbreviation accounts := (tracks answers update).

(** ** Lemmas *)

Lemma remove_fresh {A} `{EqDecision A} (a : A) l : a ∉ l -> remove a (a :: l) = l.
Proof.
  intros Ha. unfold remove. rewrite filter_cons_False by tauto.
  induction l as [|b l IH]; [done|]. apply not_elem_of_cons in Ha as [Hb Ha].
  by rewrite filter_cons_True, IH.
Qed.

Definition with_dir (d : string) (g : held) : held :=
  set_dirs (d :: dirs g) g.
Definition with_server (s : nat) (g : held) : held :=
  set_servers (s :: running g) (s :: serving g) g.
Definition with_client (c : nat) (g : held) : held :=
  set_clients (c :: clients g) (early g) g.

(** A directory is made, or nothing changes. *)
Definition dir_made (g : held) (o : outcome (result string)) (g' : held) : Prop :=
  match o with
  | Val (Ok d) => (d ∉ dirs g) /\ g' = with_dir d g
  | Val (Err err) =>
      g' = g /\ exists e, err = ErrWrap ("failed to create temp directory: " +:+ Error e) e
  | Halted _ => False
  end.

Lemma createTempDir_tracks g : accounts (dir_made g) createTempDir g.
Proof.
  unfold createTempDir, os_call. track. track. intros [d|err] Ha; cbn [continue].
  - destruct Ha as (Hp & Hc & Hd). unfold Abs. rewrite Hp, Hc. track. done.
  - track. split; [done|]. by eexists.
Qed.

(** A socket is left over only when closing it failed. *)
Definition port_chosen (port : Z) (g : held) (o : outcome (result Z)) (g' : held) : Prop :=
  match o with
  | Val (Ok p) => g' = g /\ (port <> 0 -> p = port)
  | Val (Err _) => exists l, g' = set_sockets l g
  | Halted _ => False
  end.

Lemma choose_port_tracks port g : accounts (port_chosen port g) (choose_port port) g.
Proof.
  unfold choose_port. destruct (Z.eqb_spec port 0) as [->|Hne]; [|by track].
  unfold PickAvailableRandomPort, os_call. track. track. intros [ln|err] Hln; cbn [continue].
  2: { track. exists (sockets g). by destruct g. }
  track. track. intros p _. cbn [continue]. track. track. intros [[]|err] _; cbn [continue];
    track; [|by eexists].
  split; [|done]. destruct g. cbn. by rewrite remove_fresh.
Qed.

(** A start: a server with its directory and the ports asked for, or an error. *)
Definition started (peerPort clientPort : Z) (g : held) (o : outcome (result (Etcd * Z)))
    (g' : held) : Prop :=
  match o with
  | Val (Ok (e, port)) =>
      g' = with_server (etcd_server e) (with_dir (cfg_Dir (etcd_config e)) g) /\
      (etcd_server e ∉ running g) /\ (etcd_server e ∉ serving g) /\
      (cfg_Dir (etcd_config e) ∉ dirs g) /\
      cfg_ListenClientUrls (etcd_config e) = [local_url port] /\
      (clientPort <> 0 -> port = clientPort) /\
      (peerPort <> 0 -> cfg_ListenPeerUrls (etcd_config e) = [local_url peerPort])
  | Val (Err err) =>
      running g' = running g /\ clients g' = clients g /\
      contexts g' = contexts g /\ spawned g' = spawned g /\ early g' = early g /\
      (serving g' = serving g \/
       err = ErrText "server took too long to start" /\ exists s, serving g' = s :: serving g) /\
      ((exists e, err = ErrWrap ("failed to create temp directory: " +:+ Error e) e /\ g' = g) \/
       exists d, dirs g' = d :: dirs g)
  | Halted _ => False
  end.

Lemma start_tracks peerPort clientPort g :
  accounts (started peerPort clientPort g) (StartEmbeddedEtcdWithPort peerPort clientPort) g.
Proof.
  unfold StartEmbeddedEtcdWithPort. track. eapply tracks_mono; [apply createTempDir_tracks|].
  intros [[d|err]|h] g1 Hd; cbn [dir_made continue] in *; [| |done].
  2: { destruct Hd as [-> [e ->]]. track. split_and!; eauto. }
  destruct Hd as [Hd ->]. track. eapply tracks_mono; [apply choose_port_tracks|].
  intros [[peer|err]|h] g1 Hp; cbn [port_chosen continue] in *; [| |done].
  2: { destruct Hp as [l ->]. track. split_and!; [done..|by left|]. right. by exists d. }
  destruct Hp as [-> Hpeer]. track. eapply tracks_mono; [apply choose_port_tracks|].
  intros [[client|err]|h] g1 Hp; cbn [port_chosen continue] in *; [| |done].
  2: { destruct Hp as [l ->]. track. split_and!; [done..|by left|]. right. by exists d. }
  destruct Hp as [-> Hclient]. unfold os_call. track. track.
  intros [s|err] Hs; cbn [continue].
  2: { track. split_and!; [done..|by left|]. right. by exists d. }
  destruct Hs as [Hs1 Hs2]. track. track. intros [] _; cbn [continue].
  - track. track. intros [] _. cbn [continue]. track. cbn. repeat split; try done.
    intros Hne. by rewrite Hpeer.
  - track. track. intros [] _. cbn [continue]. track. cbn.
    rewrite remove_fresh by done. split_and!; [done..|right; eauto|]. right. by exists d.
Qed.

(** A stop gives back the server and its directory; the directory stays when it cannot be
    removed, which is not reported. *)
Definition stopped (g : held) (e : Etcd) (g' : held) : Prop :=
  g' = g \/ g' = with_dir (cfg_Dir (etcd_config e)) g.

Lemma stop_tracks e g :
  etcd_server e ∉ running g -> etcd_server e ∉ serving g -> cfg_Dir (etcd_config e) ∉ dirs g ->
  accounts (fun o g' => o = Val () /\ stopped g e g') (StopEmbeddedEtcd e)
    (with_server (etcd_server e) (with_dir (cfg_Dir (etcd_config e)) g)).
Proof.
  intros Hr Hs Hd. unfold StopEmbeddedEtcd, os_call. track. track. intros [] _. cbn [continue].
  track. track. intros [[]|err] _; cbn [continue]; track; intros [] _; split; try done;
    unfold stopped; destruct g; cbn; rewrite !remove_fresh by done; eauto.
Qed.

(** The process goes on: it was not ended by [os.Exit] or [log.Fatalf], and no loop was cut
    off. *)
Definition unwound {A} (o : outcome A) : Prop :=
  match o with Val _ | Halted (Panic _) | Halted Goexit => True | _ => False end.

(** Unwinding through a deferred call that returns or unwinds itself. *)
Lemma deferred_tracks {A} (I J : held -> Prop) (d : prog unit) (p : prog A) g :
  accounts (fun o g' => unwound o /\ I g') p g ->
  (forall g', I g' -> accounts (fun o g'' => unwound o /\ J g'') d g') ->
  accounts (fun o g' => unwound o /\ J g') (deferred d p) g.
Proof.
  intros Hp Hd. track. eapply tracks_mono; [exact Hp|]. intros o g1 [Ho HI].
  specialize (Hd g1 HI).
  destruct o as [a|[]]; cbn [unwound after_body] in *; try done; track;
    (eapply tracks_mono; [exact Hd|]); intros [[]|[]] g2 [Ho' HJ]; cbn [continue unwound] in *;
    try done; by track.
Qed.

Lemma Fatalf_tracks {A} msg (I : held -> Prop) g :
  I g -> accounts (fun o g' => unwound o /\ I g') (Fatalf (A:=A) msg) g.
Proof. intros Hg. unfold Fatalf, os_call. track. track. intros [] _. cbn [continue]. by track. Qed.

(** ** Properties *)

(** What a start of the embedded server leaves.  In every behaviour of the operating
    system it returns; when it succeeds exactly one server runs, with its listeners and its
    data directory, on the ports asked for (a random one for 0), and the port returned is
    the one clients can connect to.  When it fails no server runs, but the data directory
    is left behind in every case except that it could not be made, and a server that was
    not ready in time keeps its listeners. *)
Theorem StartEmbeddedEtcdWithPort_outcome (peerPort clientPort : Z) (g : held) :
  tracks answers update (started peerPort clientPort g)
    (StartEmbeddedEtcdWithPort peerPort clientPort) g.
Proof. apply start_tracks. Qed.

(** Starting and stopping give everything back.  A start that succeeds, anything that
    leaves the ledger as it is, and a stop end with what was held before, except that the
    data directory stays when it cannot be removed. *)
Theorem start_stop_releases {A} (peerPort clientPort : Z) (body : Etcd -> Z -> prog A) (g : held) :
  (forall e port g', tracks answers update (fun o g'' => (exists a, o = Val a) /\ g'' = g')
     (body e port) g') ->
  tracks answers update (fun o g' =>
      match o with
      | Val (Ok _) => g' = g \/ exists d, g' = with_dir d g
      | Val (Err _) => running g' = running g
      | Halted _ => False
      end)
    (r ← StartEmbeddedEtcdWithPort peerPort clientPort;
     match r with
     | Err err => mret (Err err)
     | Ok (e, port) => a ← body e port; _ ← StopEmbeddedEtcd e; mret (Ok a)
     end) g.
Proof.
  intros Hbody. track. eapply tracks_mono; [apply start_tracks|].
  intros [[[e port]|err]|h] g1 Hs; cbn [started continue] in *; [| |done].
  2: { track. tauto. }
  destruct Hs as (-> & Hr & Hv & Hd & _). track. eapply tracks_mono; [apply Hbody|].
  intros o g1 [[a ->] ->]. cbn [continue]. track.
  eapply tracks_mono; [by apply stop_tracks|]. intros o g1 [-> Hg]. cbn [continue]. track.
  destruct Hg as [->| ->]; eauto.
Qed.

(** The helper of the tests gives everything back.  Whether the server or the client
    cannot be started, or the test returns, fails or panics, or the client cannot be closed:
    afterwards no server and no client of the helper is left. *)
Theorem TestWithEmbeddedEtcd_releases (test : nat -> prog unit) (g : held) :
  (forall cli g', tracks answers update (fun o g'' => unwound o /\ g'' = g') (test cli) g') ->
  tracks answers update
    (fun o g' => unwound o /\ running g' = running g /\ clients g' = clients g)
    (TestWithEmbeddedEtcd test) g.
Proof.
  intros Htest. unfold TestWithEmbeddedEtcd. track. eapply tracks_mono; [apply start_tracks|].
  intros [[[e port]|err]|h] g1 Hs; cbn [started continue] in *; [| |done].
  2: { apply (Fatalf_tracks _ (fun g' => running g' = running g /\ clients g' = clients g)).
       tauto. }
  destruct Hs as (-> & Hr & Hv & Hd & _).
  set (I := fun g' => exists l, g' = with_server (etcd_server e)
              (with_dir (cfg_Dir (etcd_config e)) (set_clients (clients g) l g))).
  apply (deferred_tracks I (fun g' => running g' = running g /\ clients g' = clients g)).
  2: { intros g' [l ->]. eapply tracks_mono; [by apply stop_tracks|].
       intros o g2 [-> [->| ->]]; done. }
  assert (HI : I (with_server (etcd_server e) (with_dir (cfg_Dir (etcd_config e)) g)))
    by by exists (early g).
  track. track. intros [cli|err] Hc; cbn [continue]; [|by apply Fatalf_tracks].
  apply (deferred_tracks (eq (with_client cli
           (with_server (etcd_server e) (with_dir (cfg_Dir (etcd_config e)) g)))) I).
  { eapply tracks_mono; [apply Htest|]. by intros o g2 [Ho ->]. }
  intros g' <-. track. track. intros r _.
  assert (HI' : I (update (EtcdClose cli) r (with_client cli
           (with_server (etcd_server e) (with_dir (cfg_Dir (etcd_config e)) g))))).
  { eexists. cbn. by rewrite remove_fresh. }
  destruct r as [[]|err]; cbn [continue]; [by track|by apply Fatalf_tracks].
Qed.

(** ** The properties at concrete inputs *)

(** A body that makes no call: the ledger is as before. *)
Lemma start_stop_releases_witness :
  tracks answers update (fun o g' =>
      match o with
      | Val (Ok _) => g' = nothing_held \/ exists d, g' = with_dir d nothing_held
      | Val (Err _) => running g' = []
      | Halted _ => False
      end)
    (r ← StartEmbeddedEtcdWithPort 0 2379;
     match r with
     | Err err => mret (Err err)
     | Ok (e, port) => a ← call (EtcdPut "/k" (pretty port)); _ ← StopEmbeddedEtcd e; mret (Ok a)
     end) nothing_held.
Proof.
  apply (start_stop_releases 0 2379 (fun _ port => call (EtcdPut "/k" (pretty port)))).
  intros e port g'. track. intros r _. cbn. eauto.
Defined.

(** A test that reads a key and panics when it cannot. *)
Definition sample_test (cli : nat) : prog unit :=
  got ← call (EtcdGet "/pods/a");
  match got with Ok _ => mret () | Err err => Halt (Panic (Error err)) end.

Lemma TestWithEmbeddedEtcd_releases_witness :
  tracks answers update
    (fun o g' => unwound o /\ running g' = [] /\ clients g' = [])
    (TestWithEmbeddedEtcd sample_test) nothing_held.
Proof.
  apply (TestWithEmbeddedEtcd_releases sample_test nothing_held).
  intros cli g'. unfold sample_test. track. track. intros [got|err] _; cbn [continue]; by track.
Defined.

(** A failed start leaves its directory: here no socket can be opened. *)
Lemma failed_start_leaks_directory :
  exists e, tracks (fun g e r => answers g e r /\
                     match e return resp e -> Prop with
                     | Os (ListenTCP _) => fun r => r = Err (ErrText "no ports")
                     | Os (MkdirTemp _) => fun r => r = Ok "/tmp/gokube-test-1"
                     | _ => fun _ => True
                     end r)
    update (fun o g' => o = Val (Err e) /\ dirs g' = ["/tmp/gokube-test-1"])
    StartEmbeddedEtcd nothing_held.
Proof.
  eexists. unfold StartEmbeddedEtcd, StartEmbeddedEtcdWithPort, createTempDir, os_call.
  track. track. track. intros r [_ ->]. cbn [continue]. unfold Abs. cbn. intros r [_ ->]. done.
Qed.
End EmbeddedEtcd.
