(* ===== verification/Process.v ===== *)
(** * Process: a program with the goroutines it starts, until it ends

    The commands and the examples start goroutines that can end the whole process: a Go
    process ends when [main] returns, when any goroutine calls [os.Exit] or [log.Fatal], and
    when any goroutine panics without recovering.  [step] runs the goroutine of [main] and
    the others in any order, one call at a time; [p_held] is the ledger of what [main] holds,
    which says what is held when the process ends.  Mutexes are granted whenever they are
    asked for and the calls of the goroutines are answered in any way the outside allows
    ([lawful]), so that every execution of the code is one of these.

    [process_ends] reduces the process to its parts: what [tracks] shows of [main] and of each
    goroutine holds of every way the process can end. *)

From stdpp Require Import relations.
From S2P Require Import Prelude Errors Effects Ledger.

(** What the outside answers to any goroutine: [rand.Intn(n)] is in its range. *)
Definition lawful (e : ext) : resp e -> Prop :=
  match e with RandIntn n => fun r => 0 <= r < n | _ => fun _ => True end.

(** The exits that end the process and not only the goroutine. *)
Definition ends_process (h : halt) : bool :=
  match h with Fatal _ | Exit _ | Panic _ => true | Goexit | Blocked | NoFuel => false end.

Section process.
Context {G : Type}.
Variable answers : G -> forall e : ext, resp e -> Prop.
Variable update : forall e : ext, resp e -> G -> G.
(** The program of the goroutine of a [go] statement. *)
Variable body : go_stmt -> prog unit.

Record process := mkProcess {
  p_main : prog unit;
  p_others : list (prog unit);
  p_held : G;
  p_end : option (outcome unit) }.

Definition launch (main : prog unit) (g : G) : process := mkProcess main [] g None.

(** The goroutine a call starts. *)
Definition spawn (e : ext) : list (prog unit) :=
  match e with Go stmt => [body stmt] | _ => [] end.

Inductive step : process -> process -> Prop :=
| main_call e k r ps g :
    answers g e r ->
    step (mkProcess (Call e k) ps g None) (mkProcess (k r) (ps ++ spawn e) (update e r g) None)
| main_lock m md k ps g : step (mkProcess (Lock m md k) ps g None) (mkProcess k ps g None)
| main_unlock m md k ps g : step (mkProcess (Unlock m md k) ps g None) (mkProcess k ps g None)
| main_returns ps g :
    step (mkProcess (Ret ()) ps g None) (mkProcess (Ret ()) ps g (Some (Val ())))
| main_halts h ps g :
    ends_process h = true ->
    step (mkProcess (Halt h) ps g None) (mkProcess (Halt h) ps g (Some (Halted h)))
| other_call p ps i e k r g :
    ps !! i = Some (Call e k) -> lawful e r ->
    step (mkProcess p ps g None) (mkProcess p (<[i := k r]> ps ++ spawn e) g None)
| other_lock p ps i m md k g :
    ps !! i = Some (Lock m md k) \/ ps !! i = Some (Unlock m md k) ->
    step (mkProcess p ps g None) (mkProcess p (<[i := k]> ps) g None)
| other_halts p ps i h g :
    ps !! i = Some (Halt h) -> ends_process h = true ->
    step (mkProcess p ps g None) (mkProcess p ps g (Some (Halted h))).

(** How a goroutine other than [main]'s may stop. *)
Definition goroutine_stops (H : halt -> Prop) (p : prog unit) : Prop :=
  tracks (fun (_ : unit) => lawful) (fun _ _ g => g)
    (fun o _ => match o with Val _ => True | Halted h => H h end) p ().

Lemma stops_goroutine H p : stops H p -> goroutine_stops H p.
Proof. apply tracks_stops. Qed.

Variables (main : prog unit) (g0 : G) (Q : outcome unit -> G -> Prop) (H : halt -> Prop).
Hypothesis main_ok : tracks answers update Q main g0.
Hypothesis bodies_ok : forall stmt, goroutine_stops H (body stmt).

Lemma spawn_ok e : Forall (goroutine_stops H) (spawn e).
Proof. destruct e; cbn; by repeat constructor. Qed.

(** What holds at every moment. *)
Definition process_ok (s : process) : Prop :=
  Forall (goroutine_stops H) (p_others s) /\
  match p_end s with
  | None => tracks answers update Q (p_main s) (p_held s)
  | Some o => Q o (p_held s) \/ exists h, o = Halted h /\ ends_process h = true /\ H h
  end.

Lemma step_ok s s' : process_ok s -> step s s' -> process_ok s'.
Proof.
  intros [Hps Hend] Hs. destruct Hs as [e k r ps g Ha|m md k ps g|m md k ps g|ps g|h ps g Hh
    |p ps i e k r g Hi Hr|p ps i m md k g Hi|p ps i h g Hi Hh];
    cbn [p_others p_end p_main p_held] in *; (split; cbn [p_others p_end p_main p_held]);
    try done; try (by left).
  - apply Forall_app. split; [done|apply spawn_ok].
  - by apply Hend.
  - apply Forall_app. split; [|apply spawn_ok]. apply Forall_insert; [done|].
    by apply (Forall_lookup_1 _ _ _ _ Hps Hi).
  - apply Forall_insert; [done|]. destruct Hi as [Hi|Hi]; apply (Forall_lookup_1 _ _ _ _ Hps Hi).
  - right. exists h. split; [done|]. split; [done|]. apply (Forall_lookup_1 _ _ _ _ Hps Hi).
Qed.

(** The process ends as [main] does, or by an exit of one of the goroutines. *)
Lemma process_ends s o :
  rtc step (launch main g0) s -> p_end s = Some o ->
  Q o (p_held s) \/ exists h, o = Halted h /\ ends_process h = true /\ H h.
Proof.
  intros Hr He. assert (Hok : process_ok s).
  { refine (rtc_ind_r process_ok _ _ _ _ Hr); [by split|].
    intros s1 s2 _ H12 Hs1. by eapply step_ok. }
  destruct Hok as [_ Hok]. by rewrite He in Hok.
Qed.
End process.
