(* ===== verification/Registry.v ===== *)
(** * Registry: what the three registries share (src/pkg/registry)

    A registry keeps the objects of one kind under keys made from their names.  [view]
    relates a world to the finite map of objects its store represents; the abstract
    specifications of the registries are functions on such maps. *)

From S2P Require Import Prelude Errors Effects Storage.

(** types.go *)
Definition ErrInternal : sentinel := Sentinel "registry.ErrInternal" "internal error".

(** A registry call returned the outcome the specification names: nil, or an error that
    wraps the given package-level error. *)
Definition agrees {A} (r : result A) (o : option sentinel) : Prop :=
  match r, o with
  | Ok _, None => True
  | Err e, Some s => wraps e s
  | _, _ => False
  end.

(** [w'] is [w] but for the keys that satisfy [P]. *)
Definition unchanged_outside `{StoreView W} (P : string -> Prop) (w w' : W) : Prop :=
  forall k, ~ P k -> stored w' !! k = stored w !! k.

Section unchanged.
Context `{StoreView W}.

Lemma unchanged_same P (w w' : W) : stored w' = stored w -> unchanged_outside P w w'.
Proof. intros Hs k _. by rewrite Hs. Qed.

Lemma unchanged_trans P (w1 w2 w3 : W) :
  unchanged_outside P w1 w2 -> unchanged_outside P w2 w3 -> unchanged_outside P w1 w3.
Proof. intros H12 H23 k Hk. by rewrite H23, H12. Qed.

Lemma unchanged_mono (P Q : string -> Prop) (w w' : W) :
  unchanged_outside P w w' -> (forall k, P k -> Q k) -> unchanged_outside Q w w'.
Proof. intros Hu HPQ k Hk. apply Hu. auto. Qed.

Lemma unchanged_insert key d (w w' : W) :
  stored w' = <[key:=d]> (stored w) -> unchanged_outside (eq key) w w'.
Proof. intros Hs k Hk. rewrite Hs. by apply lookup_insert_ne. Qed.

Lemma unchanged_delete key (w w' : W) :
  stored w' = delete key (stored w) -> unchanged_outside (eq key) w w'.
Proof. intros Hs k Hk. rewrite Hs. by apply lookup_delete_ne. Qed.
End unchanged.

Section view.
Context `{StoreView W, Object A} (key : string -> string).

(** The store at the keys [key n] is the map [m]: what is stored there decodes to
    the objects of [m], and nothing else is stored there. *)
Definition view (w : W) (m : gmap string A) : Prop :=
  forall n, Decode (A:=A) <$> stored w !! key n = Ok <$> m !! n.

Lemma view_None w m n : view w m -> m !! n = None <-> stored w !! key n = None.
Proof.
  intros Hv. specialize (Hv n). by destruct (stored w !! key n), (m !! n).
Qed.

Lemma view_Some w m n a :
  view w m -> m !! n = Some a <-> exists d, stored w !! key n = Some d /\ Decode d = Ok a.
Proof.
  intros Hv. specialize (Hv n). split.
  - intros Hm. rewrite Hm in Hv. destruct (stored w !! key n) as [d|]; [|done].
    cbn in Hv. exists d. split; congruence.
  - intros (d & Hd & Ha). rewrite Hd in Hv. cbn in Hv. rewrite Ha in Hv.
    destruct (m !! n); cbn in Hv; congruence.
Qed.

(** What is stored under a key of the view decodes. *)
Lemma view_decodes w m n d e :
  view w m -> stored w !! key n = Some d -> Decode (A:=A) d = Err e -> False.
Proof.
  intros Hv Hd He. specialize (Hv n). rewrite Hd in Hv. cbn in Hv.
  destruct (m !! n); cbn in Hv; congruence.
Qed.

Lemma view_same w w' m : view w m -> stored w' = stored w -> view w' m.
Proof. intros Hv Hs n. by rewrite Hs. Qed.

Lemma view_unchanged P w w' m :
  view w m -> unchanged_outside P w w' -> (forall n, ~ P (key n)) -> view w' m.
Proof. intros Hv Hu HP n. by rewrite Hu. Qed.

Context `{!Inj (=) (=) key}.

Lemma view_insert w w' m n a d :
  view w m -> stored w' = <[key n:=d]> (stored w) -> Decode d = Ok a ->
  view w' (<[n:=a]> m).
Proof.
  intros Hv Hs Hd n'. rewrite Hs. destruct (decide (n = n')) as [->|Hne].
  - rewrite !lookup_insert_eq. cbn. by rewrite Hd.
  - rewrite !lookup_insert_ne; [apply Hv | done | by intros ?%(inj key)].
Qed.

Lemma view_delete w w' m n :
  view w m -> stored w' = delete (key n) (stored w) -> view w' (delete n m).
Proof.
  intros Hv Hs n'. rewrite Hs. destruct (decide (n = n')) as [->|Hne].
  - by rewrite !lookup_delete_eq.
  - rewrite !lookup_delete_ne; [apply Hv | done | by intros ?%(inj key)].
Qed.

(** Listing by a prefix that selects the keys of the view and no other stored key. *)
Section list.
Context (p : string) (Hp : forall n, HasPrefix (key n) p = true).
Context (w : W) (m : gmap string A) (Hv : view w m).
Context (Hkeys : forall k, is_Some (stored w !! k) -> HasPrefix k p = true ->
                   exists n, k = key n).

Lemma view_with_prefix :
  Decode (A:=A) <$> with_prefix p (stored w) = Ok <$> kmap key m.
Proof.
  apply map_eq. intros k. rewrite !lookup_fmap.
  unfold with_prefix. destruct (filter _ (stored w) !! k) as [d|] eqn:Hk.
  - apply map_lookup_filter_Some in Hk as [Hk Hpk]; cbn in Hpk.
    destruct (Hkeys k) as [n ->]; [by eexists|done|].
    rewrite lookup_kmap by apply _. rewrite <- (Hv n). by rewrite Hk.
  - destruct (kmap key m !! k) as [a|] eqn:Ha; [|done].
    apply lookup_kmap_Some in Ha as (n & -> & Ha); [|apply _].
    apply (view_Some _ _ _ _ Hv) in Ha as (d & Hd & _).
    rewrite (map_lookup_filter_Some_2 _ _ (key n) d) in Hk; [done|done|].
    apply Hp.
Qed.

Lemma view_list kvs objs :
  kvs ≡ₚ map_to_list (with_prefix p (stored w)) ->
  Forall2 (fun kv a => Decode kv.2 = Ok a) kvs objs ->
  objs ≡ₚ (map_to_list m).*2.
Proof.
  intros Hkvs Hf.
  assert (Hok : (fun kv => Decode kv.2) <$> kvs = Ok (E:=error) <$> objs).
  { clear Hkvs. induction Hf as [|kv a kvs objs Hd _ IH]; cbn; [done|].
    by rewrite Hd, IH. }
  assert (Hperm : Ok (E:=error) <$> objs ≡ₚ Ok <$> (map_to_list m).*2).
  { rewrite <- Hok, Hkvs.
    transitivity ((map_to_list (Decode (A:=A) <$> with_prefix p (stored w))).*2).
    { rewrite map_to_list_fmap, <- list_fmap_compose. done. }
    rewrite view_with_prefix, map_to_list_fmap, <- list_fmap_compose.
    rewrite (map_to_list_kmap key m), <- !list_fmap_compose. done. }
  symmetry in Hperm. apply Permutation_map_inv in Hperm as (l & Heq & Hl).
  by apply (inj (fmap (M:=list) Ok)) in Heq as ->.
Qed.

Lemma view_list_decodes k d e :
  stored w !! k = Some d -> HasPrefix k p = true -> Decode (A:=A) d = Err e -> False.
Proof.
  intros Hk Hpk He. destruct (Hkeys k) as [n ->]; [by eexists|done|].
  by eapply view_decodes.
Qed.
End list.
End view.

(** ** The store operations on a view *)

(** What each operation of a store that answers does to the view it works on; the
    registries are proved from these. *)
Section store.
Context {St : Storage} `{StorageLaws St W} `{ObjectLaws A}.
Context (key : string -> string) `{!Inj (=) (=) key}.

#[local] Abbreviation viewed := (view (A:=A) key).

Lemma store_Get w m n :
  up w -> viewed w m ->
  twp (Get St (key n)) (fun got w' =>
    frame w w' /\ stored w' = stored w /\
    match m !! n with
    | Some a => got = Ok a
    | None => agrees got (Some ErrNotFound)
    end) w.
Proof.
  intros Hup Hv. eapply twp_mono; [apply Get_law|].
  intros [a|e] w' (Hfr & Hs & Hgot); (split; [done|]; split; [done|]).
  - apply (view_Some _ _ _ _ _ Hv) in Hgot as ->. done.
  - destruct Hgot as [[Hw Hn]|[(_ & d & e' & Hd & He)|[_ Hdown]]]; [|exfalso|done].
    + by rewrite (proj2 (view_None _ _ _ _ Hv) Hn).
    + by eapply view_decodes.
Qed.

(** [Create] and [Update] promise the same. *)
Lemma store_put (p : prog (result unit)) w m n (a : A) :
  up w -> viewed w m -> storable a -> twp p (put_post (key n) a w) w ->
  twp p (fun out w' =>
    out = Ok () /\ viewed w' (<[n:=a]> m) /\ frame w w' /\
    unchanged_outside (eq (key n)) w w') w.
Proof.
  intros Hup Hv Hst Hp. eapply twp_mono; [exact Hp|].
  destruct (Decode_Encode _ Hst) as (d & Henc & Hdec).
  intros [[]|e] w' (Hfr & Hput).
  - destruct Hput as (d' & Hd' & Hs). assert (d' = d) as -> by congruence.
    eauto 10 using view_insert, unchanged_insert.
  - exfalso. destruct Hput as [(_ & [e' He] & _)|(_ & ? & _)]; [congruence|done].
Qed.

Lemma store_Create w m n (a : A) :
  up w -> viewed w m -> storable a ->
  twp (Create St (key n) a) (fun out w' =>
    out = Ok () /\ viewed w' (<[n:=a]> m) /\ frame w w' /\
    unchanged_outside (eq (key n)) w w') w.
Proof. intros. apply store_put; try done. apply Create_law. Qed.

Lemma store_Update w m n (a : A) :
  up w -> viewed w m -> storable a ->
  twp (Update St (key n) a) (fun out w' =>
    out = Ok () /\ viewed w' (<[n:=a]> m) /\ frame w w' /\
    unchanged_outside (eq (key n)) w w') w.
Proof. intros. apply store_put; try done. apply Update_law. Qed.

Lemma store_Delete w m n :
  up w -> viewed w m ->
  twp (Delete St (key n)) (fun out w' =>
    out = Ok () /\ viewed w' (delete n m) /\ frame w w' /\
    unchanged_outside (eq (key n)) w w') w.
Proof.
  intros Hup Hv. eapply twp_mono; [apply Delete_law|].
  intros [[]|e] w' (Hfr & Hdel).
  - eauto 10 using view_delete, unchanged_delete.
  - by destruct Hdel as (_ & ? & _).
Qed.

Lemma store_List p init w m :
  up w -> viewed w m -> (forall n, HasPrefix (key n) p = true) ->
  (forall k, is_Some (stored w !! k) -> HasPrefix k p = true -> exists n, k = key n) ->
  twp (List St p (PtrToSlice init)) (fun out w' =>
    frame w w' /\ stored w' = stored w /\
    exists objs, objs ≡ₚ (map_to_list m).*2 /\ out = Ok (append_slice init objs)) w.
Proof.
  intros Hup Hv Hp Hkeys. eapply twp_mono; [apply List_law|].
  intros [s|e] w' (Hfr & Hs & Hl); (split; [done|]; split; [done|]).
  - destruct Hl as (kvs & objs & Hkvs & Hf & ->). exists objs. split; [|done].
    by eapply view_list.
  - exfalso. destruct Hl as [(_ & k & d & e' & Hk & Hpk & He)|[_ ?]]; [|done].
    by eapply view_list_decodes.
Qed.
End store.
