(* ===== verification/PodRegistry.v ===== *)
(** * PodRegistry: the pod registry (src/pkg/registry/pod_registry.go)

    The operations as written, over the [Storage] interface; the abstract specification,
    functions on a finite map from names to pods; and the refinement: in a world whose
    store answers, each operation returns what the specification says and leaves the
    store representing the specification's map.  Behaviour with a failing store comes
    from the same lemmas without the assumption. *)

From S2P Require Import Prelude Errors Effects Api Storage Registry Reference.

Module PodRegistry.

Definition podPrefix : string := "/pods/".

Definition ErrPodAlreadyExists : sentinel :=
  Sentinel "registry.ErrPodAlreadyExists" "pod already exists".
Definition ErrPodNotFound : sentinel :=
  Sentinel "registry.ErrPodNotFound" "pod not found".
Definition ErrListPodsFailed : sentinel :=
  Sentinel "registry.ErrListPodsFailed" "failed to list pods".
Definition ErrPodInvalid : sentinel := Sentinel "registry.ErrPodInvalid" "invalid pod".

Record PodRegistry := mkPodRegistry { storage : Storage; mutex : nat }.

(** The mutex is a new one for every registry: [m] is its identity. *)
Definition NewPodRegistry (s : Storage) (m : nat) : PodRegistry := mkPodRegistry s m.

Definition generateKey (podName : string) : string := podPrefix +:+ podName.

Section ops.
Context `{Validator, Object Pod}.
Variable r : PodRegistry.

(** [CreatePod] assigns to [pod.Status] through its pointer argument: it returns its
    error and the pod as the caller sees it afterwards. *)
Definition CreatePod (pod : Pod) : prog (result unit * Pod) :=
  locked (mutex r) Writer (
    let key := generateKey (Pod_Name pod) in
    existing ← Get (storage r) (A:=Pod) key;
    match existing with
    | Ok _ => mret (Err (Errorf_w ErrPodAlreadyExists (": " +:+ Pod_Name pod)), pod)
    | Err _ =>
        let pod :=
          if bool_decide (Pod_Status pod = "") then set_status PodPending pod else pod in
        match Pod_Validate pod with
        | Some err => mret (Err (Errorf_w ErrPodInvalid (": " +:+ Error err)), pod)
        | None => err ← Create (storage r) key pod; mret (err, pod)
        end
    end).

Definition GetPod (name : string) : prog (result Pod) :=
  locked (mutex r) Reader (
    let key := generateKey name in
    got ← Get (storage r) key;
    match got with
    | Err err =>
        if errors_Is err ErrNotFound
        then mret (Err (Errorf_w ErrPodNotFound (": " +:+ name)))
        else mret (Err (Errorf_w ErrInternal (": failed to get pod: " +:+ Error err)))
    | Ok pod => mret (Ok pod)
    end).

Definition UpdatePod (pod : Pod) : prog (result unit) :=
  locked (mutex r) Writer (
    let key := generateKey (Pod_Name pod) in
    match Pod_Validate pod with
    | Some err => mret (Err (Errorf_w ErrPodInvalid (": " +:+ Error err)))
    | None => Update (storage r) key pod
    end).

Definition DeletePod (name : string) : prog (result unit) :=
  locked (mutex r) Writer (
    let key := generateKey name in
    Delete (storage r) key).

Definition ListPods : prog (result (slice Pod)) :=
  locked (mutex r) Reader (
    got ← List (storage r) podPrefix (PtrToSlice None);
    match got with
    | Err err => mret (Err (Errorf_w ErrListPodsFailed (": " +:+ Error err)))
    | Ok pods => mret (Ok pods)
    end).

Definition listPodsByStatus (status : PodStatus) : prog (result (slice Pod)) :=
  got ← ListPods;
  match got with
  | Err err => mret (Err (Errorf_w ErrListPodsFailed (": " +:+ Error err)))
  | Ok pods =>
      mret (Ok (Some (List.filter (fun pod => bool_decide (Pod_Status pod = status))
                        (elems pods))))
  end.

Definition ListUnassignedPods : prog (result (slice Pod)) := listPodsByStatus PodPending.

Definition ListPendingPods : prog (result (slice Pod)) := listPodsByStatus PodPending.
End ops.

(** ** Abstract specification: a finite map from names to pods *)

(** The status a pod is created with. *)
Definition default_status (pod : Pod) : Pod :=
  if bool_decide (Pod_Status pod = "") then set_status PodPending pod else pod.

Definition spec_CreatePod (pod : Pod) (m : gmap string Pod)
  : option sentinel * Pod * gmap string Pod :=
  match m !! Pod_Name pod with
  | Some _ => (Some ErrPodAlreadyExists, pod, m)
  | None =>
      if Pod_tags pod
      then (None, default_status pod, <[Pod_Name pod := default_status pod]> m)
      else (Some ErrPodInvalid, default_status pod, m)
  end.

Definition spec_UpdatePod (pod : Pod) (m : gmap string Pod)
  : option sentinel * gmap string Pod :=
  if Pod_tags pod then (None, <[Pod_Name pod := pod]> m) else (Some ErrPodInvalid, m).

(** The pods a world's store represents. *)
Abbreviation pods_view := (view (A:=Pod) generateKey).

(** The keys of the pod registry. *)
Definition pod_key (k : string) : Prop := HasPrefix k podPrefix = true.

(** Every pod is stored under its own name and passed validation. *)
Definition pods_wf (m : gmap string Pod) : Prop :=
  map_Forall (fun n p => Pod_Name p = n /\ Pod_tags p = true) m.

(** ** Lemmas *)

#[export] Instance generateKey_inj : Inj (=) (=) generateKey.
Proof. intros a b Heq. by apply str_app_inj_l in Heq. Qed.

Lemma pod_key_generateKey n : pod_key (generateKey n).
Proof. apply HasPrefix_app. Qed.

Lemma pod_key_inv k : pod_key k -> exists n, k = generateKey n.
Proof. apply HasPrefix_spec. Qed.

Lemma default_status_name p : Pod_Name (default_status p) = Pod_Name p.
Proof. unfold default_status. by case_bool_decide. Qed.

Lemma default_status_tags p : Pod_tags (default_status p) = Pod_tags p.
Proof. unfold default_status. by case_bool_decide. Qed.

Lemma pods_wf_insert m n p :
  pods_wf m -> Pod_Name p = n -> Pod_tags p = true -> pods_wf (<[n:=p]> m).
Proof. intros Hm Hn Ht. by apply map_Forall_insert_2. Qed.

#[export] Hint Resolve pod_key_generateKey pods_wf_insert : gokube.
#[export] Hint Rewrite default_status_name default_status_tags : gokube.

Lemma pods_wf_spec_CreatePod pod m : pods_wf m -> pods_wf (spec_CreatePod pod m).2.
Proof.
  intros Hm. unfold spec_CreatePod. destruct (m !! Pod_Name pod); [done|].
  destruct (Pod_tags pod) eqn:Ht; [|done]. cbn.
  apply pods_wf_insert; autorewrite with gokube; done.
Qed.

Lemma pods_wf_spec_UpdatePod pod m : pods_wf m -> pods_wf (spec_UpdatePod pod m).2.
Proof.
  intros Hm. unfold spec_UpdatePod. destruct (Pod_tags pod) eqn:Ht; cbn; eauto with gokube.
Qed.

Lemma pods_wf_delete m n : pods_wf m -> pods_wf (delete n m).
Proof. apply map_Forall_delete. Qed.

#[export] Hint Resolve pods_wf_spec_CreatePod pods_wf_spec_UpdatePod pods_wf_delete : gokube.

(** Distinct pods of a well-formed map have distinct names. *)
Lemma pods_wf_names m : pods_wf m -> NoDup (Pod_Name <$> (map_to_list m).*2).
Proof.
  intros Hm.
  replace (Pod_Name <$> (map_to_list m).*2) with ((map_to_list m).*1).
  { apply NoDup_fst_map_to_list. }
  rewrite <- list_fmap_compose. apply Forall_fmap_ext_1, Forall_forall.
  intros [n p] Hin. rewrite elem_of_map_to_list in Hin.
  apply Hm in Hin as [Hn _]. by symmetry.
Qed.

Section correctness.
Context {St : Storage} `{StorageLaws St W} `{ValidatorLaws} `{ObjectLaws Pod}.
Variable mu : nat.

#[local] Abbreviation reg := (NewPodRegistry St mu).

Lemma unchanged_pod n (w w' : W) :
  unchanged_outside (eq (generateKey n)) w w' -> unchanged_outside pod_key w w'.
Proof. intros Hu. eapply unchanged_mono; [done|]. intros k <-. apply pod_key_generateKey. Qed.

Lemma GetPod_spec w m name :
  up w -> pods_view w m ->
  twp (GetPod reg name) (fun got w' =>
    frame w w' /\ stored w' = stored w /\
    match m !! name with
    | Some p => got = Ok p
    | None => agrees got (Some ErrPodNotFound)
    end) w.
Proof.
  intros Hup Hv. unfold GetPod. do 2 prog_step.
  eapply twp_mono; [by apply (store_Get generateKey w m name)|].
  intros got w' (Hfr & Hs & Hgot). destruct (m !! name) as [p|].
  { subst got. by rewrite twp_ret. }
  destruct got as [p|e]; [done|]. rewrite (wraps_Is _ _ _ Hgot), bool_decide_eq_true_2 by done.
  rewrite twp_ret. cbn. eauto with gokube.
Qed.

Lemma CreatePod_spec w m pod :
  up w -> pods_view w m -> storable (default_status pod) ->
  twp (CreatePod reg pod) (fun out w' =>
    let '(o, pod', m') := spec_CreatePod pod m in
    agrees out.1 o /\ out.2 = pod' /\ pods_view w' m' /\
    frame w w' /\ unchanged_outside pod_key w w') w.
Proof.
  intros Hup Hv Hst. unfold CreatePod, spec_CreatePod. do 2 prog_step.
  eapply twp_mono; [by apply (store_Get generateKey w m)|]. intros got w1 (Hfr & Hs & Hgot).
  pose proof (view_same _ _ _ _ Hv Hs) as Hv1. pose proof (unchanged_same pod_key _ _ Hs).
  destruct (m !! Pod_Name pod) as [p|].
  { subst got. rewrite twp_ret. cbn. eauto 10 with gokube. }
  destruct got as [p|e]; [done|]. fold (default_status pod).
  destruct (Pod_Validate_cases (default_status pod)) as [[Ht ->]|[Ht [err ->]]];
    rewrite default_status_tags in Ht; rewrite Ht.
  2: { rewrite twp_ret. cbn. eauto 10 with gokube. }
  prog_step. eapply twp_mono.
  { apply (store_Create generateKey w1 m (Pod_Name pod)); eauto with gokube. }
  intros err w2 (-> & Hv2 & Hfr2 & Hu2). rewrite twp_ret. cbn.
  eauto 10 using frame_trans, unchanged_trans, unchanged_pod.
Qed.

Lemma UpdatePod_spec w m pod :
  up w -> pods_view w m -> storable pod ->
  twp (UpdatePod reg pod) (fun out w' =>
    let '(o, m') := spec_UpdatePod pod m in
    agrees out o /\ pods_view w' m' /\ frame w w' /\ unchanged_outside pod_key w w') w.
Proof.
  intros Hup Hv Hst. unfold UpdatePod, spec_UpdatePod. prog_step.
  destruct (Pod_Validate_cases pod) as [[-> ->]|[-> [err ->]]].
  2: { rewrite twp_ret. cbn. eauto 10 using unchanged_same with gokube. }
  eapply twp_mono; [by apply (store_Update generateKey w m)|].
  intros err w2 (-> & Hv2 & Hfr2 & Hu2). cbn. eauto using unchanged_pod.
Qed.

Lemma DeletePod_spec w m name :
  up w -> pods_view w m ->
  twp (DeletePod reg name) (fun out w' =>
    out = Ok () /\ pods_view w' (delete name m) /\
    frame w w' /\ unchanged_outside pod_key w w') w.
Proof.
  intros Hup Hv. unfold DeletePod. prog_step.
  eapply twp_mono; [by apply (store_Delete generateKey w m name)|].
  intros out w' (-> & Hv' & Hfr & Hu). eauto using unchanged_pod.
Qed.

Lemma ListPods_spec w m :
  up w -> pods_view w m ->
  twp (ListPods reg) (fun out w' =>
    frame w w' /\ stored w' = stored w /\
    exists objs, objs ≡ₚ (map_to_list m).*2 /\ out = Ok (append_slice None objs)) w.
Proof.
  intros Hup Hv. unfold ListPods. do 2 prog_step. eapply twp_mono.
  { apply (store_List generateKey podPrefix None w m Hup Hv pod_key_generateKey).
    intros k _ Hk. by apply pod_key_inv. }
  intros out w' (Hfr & Hs & objs & Hperm & ->). rewrite twp_ret. eauto.
Qed.

Lemma listPodsByStatus_spec w m status :
  up w -> pods_view w m ->
  twp (listPodsByStatus reg status) (fun out w' =>
    frame w w' /\ stored w' = stored w /\
    exists objs, objs ≡ₚ (map_to_list m).*2 /\
      out = Ok (Some (List.filter (fun p => bool_decide (Pod_Status p = status)) objs))) w.
Proof.
  intros Hup Hv. unfold listPodsByStatus. prog_step.
  eapply twp_mono; [by apply ListPods_spec|].
  intros out w' (Hfr & Hs & objs & Hperm & ->). rewrite twp_ret.
  split; [done|]. split; [done|]. exists objs. split; [done|].
  by rewrite elems_append_slice.
Qed.
End correctness.

(** ** Sequences of operations *)

Inductive pod_op :=
| OpCreate (pod : Pod)
| OpGet (name : string)
| OpUpdate (pod : Pod)
| OpDelete (name : string)
| OpList
| OpListByStatus (status : PodStatus).

Inductive pod_result :=
| RCreated (out : result unit * Pod)
| RGot (out : result Pod)
| RDone (out : result unit)
| RListed (out : result (slice Pod)).

Section exec.
Context `{Validator, Object Pod}.
Variable r : PodRegistry.

Definition exec_op (op : pod_op) : prog pod_result :=
  match op with
  | OpCreate pod => out ← CreatePod r pod; mret (RCreated out)
  | OpGet name => out ← GetPod r name; mret (RGot out)
  | OpUpdate pod => out ← UpdatePod r pod; mret (RDone out)
  | OpDelete name => out ← DeletePod r name; mret (RDone out)
  | OpList => out ← ListPods r; mret (RListed out)
  | OpListByStatus status => out ← listPodsByStatus r status; mret (RListed out)
  end.

Fixpoint exec_ops (ops : list pod_op) : prog (list pod_result) :=
  match ops with
  | [] => mret []
  | op :: ops => out ← exec_op op; outs ← exec_ops ops; mret (out :: outs)
  end.
End exec.

(** The map after an operation. *)
Definition spec_step (op : pod_op) (m : gmap string Pod) : gmap string Pod :=
  match op with
  | OpCreate pod => (spec_CreatePod pod m).2
  | OpUpdate pod => (spec_UpdatePod pod m).2
  | OpDelete name => delete name m
  | OpGet _ | OpList | OpListByStatus _ => m
  end.

(** The answers the specification allows to an operation on the map [m]: lists come in
    the store's order, and listing by status always gives a non-nil slice. *)
Definition spec_answer (op : pod_op) (m : gmap string Pod) (out : pod_result) : Prop :=
  match op, out with
  | OpCreate pod, RCreated out =>
      agrees out.1 (spec_CreatePod pod m).1.1 /\ out.2 = (spec_CreatePod pod m).1.2
  | OpGet name, RGot out =>
      match m !! name with
      | Some p => out = Ok p
      | None => agrees out (Some ErrPodNotFound)
      end
  | OpUpdate pod, RDone out => agrees out (spec_UpdatePod pod m).1
  | OpDelete name, RDone out => out = Ok ()
  | OpList, RListed out =>
      exists s, out = Ok s /\ elems s ≡ₚ (map_to_list m).*2 /\ (s = None <-> m = ∅)
  | OpListByStatus st, RListed out =>
      exists l, out = Ok (Some l) /\
        l ≡ₚ List.filter (fun p => bool_decide (Pod_Status p = st)) (map_to_list m).*2
  | _, _ => False
  end.

Fixpoint spec_answers (ops : list pod_op) (m : gmap string Pod) (outs : list pod_result)
  : Prop :=
  match ops, outs with
  | [], [] => True
  | op :: ops, out :: outs => spec_answer op m out /\ spec_answers ops (spec_step op m) outs
  | _, _ => False
  end.

Definition spec_run (ops : list pod_op) (m : gmap string Pod) : gmap string Pod :=
  fold_left (fun m op => spec_step op m) ops m.

(** The pods an operation writes survive the encoding. *)
Definition op_storable `{ObjectLaws Pod} (op : pod_op) : Prop :=
  match op with
  | OpCreate pod => storable (default_status pod)
  | OpUpdate pod => storable pod
  | _ => True
  end.

Lemma append_slice_None {A} (l : list A) : append_slice None l = None <-> l = [].
Proof. by destruct l. Qed.

Lemma map_values_nil (m : gmap string Pod) : (map_to_list m).*2 = [] <-> m = ∅.
Proof.
  split; [|intros ->; by rewrite map_to_list_empty].
  intros Hnil%fmap_nil_inv. by apply map_to_list_empty_iff.
Qed.

Section sequences.
Context {St : Storage} `{StorageLaws St W} `{ValidatorLaws} `{ObjectLaws Pod}.
Variable mu : nat.

#[local] Abbreviation reg := (NewPodRegistry St mu).

Lemma exec_op_spec w m op :
  up w -> pods_view w m -> op_storable op ->
  twp (exec_op reg op) (fun out w' =>
    spec_answer op m out /\ pods_view w' (spec_step op m) /\
    frame w w' /\ unchanged_outside pod_key w w') w.
Proof.
  intros Hup Hv Hst.
  destruct op as [pod|name|pod|name| |status]; cbn [exec_op spec_step]; prog_step.
  - eapply twp_mono; [by apply (CreatePod_spec mu w m)|]. intros out w' Hout.
    rewrite twp_ret. cbn. destruct (spec_CreatePod pod m) as [[o p] m']; cbn; tauto.
  - eapply twp_mono; [by apply (GetPod_spec mu w m)|]. intros out w' (Hfr & Hs & Hout).
    rewrite twp_ret. cbn. eauto 10 using view_same, unchanged_same.
  - eapply twp_mono; [by apply (UpdatePod_spec mu w m)|]. intros out w' Hout.
    rewrite twp_ret. cbn. destruct (spec_UpdatePod pod m) as [o m']; cbn; tauto.
  - eapply twp_mono; [by apply (DeletePod_spec mu w m)|]. intros out w' Hout.
    by rewrite twp_ret.
  - eapply twp_mono; [by apply (ListPods_spec mu w m)|].
    intros out w' (Hfr & Hs & objs & Hperm & ->). rewrite twp_ret. cbn.
    split; [|eauto 10 using view_same, unchanged_same]. eexists. split; [done|].
    rewrite elems_append_slice. split; [done|].
    rewrite append_slice_None, <- map_values_nil.
    split; intros Hnil; rewrite Hnil in Hperm; by apply Permutation_nil_r in Hperm ||
      apply Permutation_nil_l in Hperm.
  - eapply twp_mono; [by apply (listPodsByStatus_spec mu w m)|].
    intros out w' (Hfr & Hs & objs & Hperm & ->). rewrite twp_ret. cbn.
    split; [|eauto 10 using view_same, unchanged_same].
    eexists. split; [done|]. by apply filter_bool_Permutation.
Qed.

Lemma exec_ops_spec w m ops :
  up w -> pods_view w m -> Forall op_storable ops ->
  twp (exec_ops reg ops) (fun outs w' =>
    spec_answers ops m outs /\ pods_view w' (spec_run ops m) /\
    frame w w' /\ unchanged_outside pod_key w w') w.
Proof.
  intros Hup Hv Hst. revert w m Hup Hv.
  induction Hst as [|op ops Hop _ IH]; intros w m Hup Hv; cbn [exec_ops].
  { rewrite twp_ret. cbn. eauto using unchanged_same with gokube. }
  prog_step. eapply twp_mono; [by apply (exec_op_spec w m)|].
  intros out w1 (Hout & Hv1 & Hfr1 & Hu1). prog_step.
  eapply twp_mono; [by apply (IH w1 _ (frame_up _ _ Hfr1 Hup) Hv1)|].
  intros outs w2 (Houts & Hv2 & Hfr2 & Hu2). rewrite twp_ret. cbn.
  split; [done|]. split; [done|]. split; [by eapply frame_trans|].
  intros k Hk. by rewrite Hu2, Hu1.
Qed.
End sequences.

Lemma pods_wf_step op m : pods_wf m -> pods_wf (spec_step op m).
Proof. destruct op; cbn; eauto with gokube. Qed.

(** ** Properties *)

(** A read that follows an attempt to create [pod]: if the attempt returned nil, the read
    gives the pod with its defaulted status or reports an internal error. *)
Definition read_back (pod : Pod) (out : result unit * Pod) (got : result Pod) : Prop :=
  out.1 = Ok () ->
  out.2 = default_status pod /\
  (got = Ok (default_status pod) \/ exists e, got = Err e /\ wraps e ErrInternal).

Section properties.
Context {St : Storage} `{StorageLaws St W} `{ValidatorLaws} `{ObjectLaws Pod}.
Variable mu : nat.

#[local] Abbreviation reg := (NewPodRegistry St mu).

Lemma GetPod_cases (name : string) (w : W) :
  twp (GetPod reg name) (fun got w' =>
    stored w' = stored w /\
    match got with
    | Ok pod => exists d, stored w !! generateKey name = Some d /\ Decode d = Ok pod
    | Err e =>
        (wraps e ErrPodNotFound /\ stored w !! generateKey name = None) \/
        (wraps e ErrInternal /\
         (~ up w \/ exists d e', stored w !! generateKey name = Some d /\
                                 Decode (A:=Pod) d = Err e'))
    end) w.
Proof.
  unfold GetPod. do 2 prog_step. eapply twp_mono; [apply Get_law|].
  intros got w' (_ & Hs & Hgot). destruct got as [pod|e]; [by rewrite twp_ret|].
  destruct Hgot as [[Hw Hn]|[(Hw & Hd)|[Hw Hdown]]];
    rewrite (wraps_Is _ _ _ Hw); case_bool_decide; try done;
    rewrite twp_ret; eauto 10 with gokube.
Qed.

(** Reading [pod] back after an attempt to create it that ended with [out]. *)
Lemma GetPod_read_back pod d out (w : W) :
  Decode d = Ok (default_status pod) ->
  (out.1 = Ok () -> out.2 = default_status pod /\
     stored w !! generateKey (Pod_Name pod) = Some d) ->
  twp (got ← GetPod reg (Pod_Name pod); mret (out, got))
    (fun '(out, got) _ => read_back pod out got) w.
Proof.
  intros Hdec Hout. prog_step. eapply twp_mono; [apply GetPod_cases|].
  intros got w' (_ & Hgot). rewrite twp_ret. intros [Hp Hs]%Hout. split; [done|].
  destruct got as [p|e]; [left|right]; [destruct Hgot as (d' & ? & ?); congruence|].
  destruct Hgot as [[_ ?]|[? _]]; [congruence|eauto].
Qed.

(** C2: the pod registry refines its specification.  Over a store that answers and
    represents the map [m], every sequence of create, get, update, delete and list
    operations returns (no exit, no endless loop), gives the answers the map
    specification gives, leaves a store that represents the specification's final
    map, and touches no key outside "/pods/". *)
Theorem PodRegistry_refines_spec (ops : list pod_op) (w : W) (m : gmap string Pod) :
  up w -> pods_view w m -> Forall op_storable ops ->
  exists outs w', run (exec_ops reg ops) w = (Val outs, w') /\
    spec_answers ops m outs /\ pods_view w' (spec_run ops m) /\
    unchanged_outside pod_key w w'.
Proof.
  intros Hup Hv Hst. pose proof (exec_ops_spec mu w m ops Hup Hv Hst) as Hrun.
  apply twp_run in Hrun as (outs & w' & Hrun & Hans & Hv' & _ & Hu). eauto 10.
Qed.

(** The pod registry's invariant.  Every pod the store holds passed validation and
    is kept under its own name; every sequence of registry operations preserves this. *)
Theorem PodRegistry_preserves_wf (ops : list pod_op) (w : W) (m : gmap string Pod) :
  up w -> pods_view w m -> pods_wf m -> Forall op_storable ops ->
  exists outs w' m', run (exec_ops reg ops) w = (Val outs, w') /\
    pods_view w' m' /\ pods_wf m'.
Proof.
  intros Hup Hv Hwf Hst. pose proof (exec_ops_spec mu w m ops Hup Hv Hst) as Hrun.
  apply twp_run in Hrun as (outs & w' & Hrun & _ & Hv' & _).
  exists outs, w', (spec_run ops m). split; [done|]. split; [done|].
  clear -Hwf. unfold spec_run. revert m Hwf.
  induction ops as [|op ops IH]; cbn; auto using pods_wf_step.
Qed.

(** The errors of [GetPod], whatever the store does.  It leaves the store alone; it
    returns a pod only if that pod is what is stored under the name, [ErrPodNotFound]
    only if nothing is stored there, and [ErrInternal] when the stored bytes do not
    decode or etcd failed; it returns no other error. *)
Theorem GetPod_errors (name : string) (w : W) :
  twp (GetPod reg name) (fun got w' =>
    stored w' = stored w /\
    match got with
    | Ok pod => exists d, stored w !! generateKey name = Some d /\ Decode d = Ok pod
    | Err e =>
        (wraps e ErrPodNotFound /\ stored w !! generateKey name = None) \/
        (wraps e ErrInternal /\
         (~ up w \/ exists d e', stored w !! generateKey name = Some d /\
                                 Decode (A:=Pod) d = Err e'))
    end) w.
Proof. apply GetPod_cases. Qed.

(** What is created can be read back.  In any world, when [CreatePod] returns nil, a
    [GetPod] of that name right after returns the pod with its defaulted status, or
    reports that etcd failed; never another pod and never not-found. *)
Theorem CreatePod_GetPod_roundtrip (pod : Pod) (w : W) :
  storable (default_status pod) ->
  twp (out ← CreatePod reg pod; got ← GetPod reg (Pod_Name pod); mret (out, got))
    (fun '(out, got) _ => read_back pod out got) w.
Proof.
  intros Hst. destruct (Decode_Encode _ Hst) as (d & Henc & Hdec).
  prog_step. unfold CreatePod. do 2 prog_step. eapply twp_mono; [apply Get_law|].
  intros [p|e] w1 (_ & Hs & _); [rewrite twp_ret; by apply (GetPod_read_back _ d)|].
  fold (default_status pod). destruct (Pod_Validate (default_status pod)).
  { rewrite twp_ret. by apply (GetPod_read_back _ d). }
  prog_step. eapply twp_mono; [apply Create_law|]. intros err w2 (_ & Hput).
  rewrite twp_ret. apply (GetPod_read_back _ d); [done|]. intros Hok. cbn in Hok. subst err.
  destruct Hput as (d' & Hd' & Hs2). split; [done|].
  rewrite Hs2, lookup_insert_eq. congruence.
Qed.

(** [CreatePod] takes every failed read for absence.  Whenever the lookup that guards
    the creation returns an error, of any kind, a valid pod is written: the guard does
    not distinguish "not found" from an etcd failure or undecodable data. *)
Theorem CreatePod_writes_after_any_read_error (pod : Pod) (w w1 : W) (e : error) :
  run (Get St (A:=Pod) (generateKey (Pod_Name pod))) w = (Val (Err e), w1) ->
  Pod_tags pod = true ->
  run (CreatePod reg pod) w =
  run (err ← Create St (generateKey (Pod_Name pod)) (default_status pod);
       mret (err, default_status pod)) w1.
Proof.
  intros Hget Ht. unfold CreatePod, locked. cbn [run].
  rewrite run_bind, run_bind. cbn [storage NewPodRegistry]. rewrite Hget.
  fold (default_status pod).
  destruct (Pod_Validate_cases (default_status pod)) as [[_ ->]|[Hf _]].
  2: { rewrite default_status_tags in Hf. congruence. }
  cbn [mutex]. destruct (run _ w1) as [[a|h] w2]; done.
Qed.
End properties.

(** ** The properties at concrete inputs *)

Module Witness.
Definition c1 : Container := mkContainer "web" "nginx".
Definition p1 : Pod := mkPod (meta_named "a") (mkPodSpec (Some [c1]) 1) "" "".
Definition p2 : Pod := mkPod (meta_named "a") (mkPodSpec (Some [c1]) 2) "n" "Running".
Definition bad : Pod := mkPod (meta_named "b") (mkPodSpec None 1) "" "".
Definition ops : list pod_op :=
  [OpCreate p1; OpCreate p2; OpCreate bad; OpGet "a"; OpUpdate p2; OpList;
   OpListByStatus "Pending"; OpDelete "a"; OpGet "a"].

(** The world above with pod [p1] stored and the next read failing. *)
Definition flaky : ref_world :=
  mkRefWorld {[ generateKey "a" := ser_put p1 "" ]} [FailBefore] 0 0 [] ∅ [].
End Witness.

Lemma empty_pods_view : pods_view empty_world ∅.
Proof. intros n. by rewrite !lookup_empty. Qed.

Lemma PodRegistry_refines_spec_witness :
  exists outs w',
    run (exec_ops (NewPodRegistry EtcdStorage.NewEtcdStorage 0) Witness.ops) empty_world
      = (Val outs, w') /\
    spec_answers Witness.ops ∅ outs /\ pods_view w' (spec_run Witness.ops ∅) /\
    unchanged_outside pod_key empty_world w'.
Proof.
  apply (PodRegistry_refines_spec 0 Witness.ops empty_world ∅);
    [apply Forall_nil_2 | apply empty_pods_view | by repeat constructor].
Defined.

Lemma PodRegistry_preserves_wf_witness :
  exists outs w' m',
    run (exec_ops (NewPodRegistry EtcdStorage.NewEtcdStorage 0) Witness.ops) empty_world
      = (Val outs, w') /\ pods_view w' m' /\ pods_wf m'.
Proof.
  apply (PodRegistry_preserves_wf 0 Witness.ops empty_world ∅);
    [apply Forall_nil_2 | apply empty_pods_view | apply map_Forall_empty
    | by repeat constructor].
Defined.

Lemma GetPod_errors_witness :
  twp (GetPod (NewPodRegistry EtcdStorage.NewEtcdStorage 0) "zz") (fun got w' =>
    stored w' = stored empty_world /\
    match got with
    | Ok pod => exists d, stored empty_world !! generateKey "zz" = Some d /\ Decode d = Ok pod
    | Err e =>
        (wraps e ErrPodNotFound /\ stored empty_world !! generateKey "zz" = None) \/
        (wraps e ErrInternal /\
         (~ up empty_world \/ exists d e', stored empty_world !! generateKey "zz" = Some d /\
                                           Decode (A:=Pod) d = Err e'))
    end) empty_world.
Proof. apply (GetPod_errors 0 "zz" empty_world). Defined.

Lemma CreatePod_GetPod_roundtrip_witness :
  twp (out ← CreatePod (NewPodRegistry EtcdStorage.NewEtcdStorage 0) Witness.p1;
       got ← GetPod (NewPodRegistry EtcdStorage.NewEtcdStorage 0) "a"; mret (out, got))
    (fun '(out, got) _ => read_back Witness.p1 out got) empty_world.
Proof. apply (CreatePod_GetPod_roundtrip 0 Witness.p1 empty_world). exact I. Defined.

(** The stored pod "a" is replaced although it exists: the read failed. *)
Lemma CreatePod_writes_after_any_read_error_witness :
  stored Witness.flaky !! generateKey "a" = Some (ser_put Witness.p1 "") /\
  exists w', run (CreatePod (NewPodRegistry EtcdStorage.NewEtcdStorage 0) Witness.p2)
               Witness.flaky = (Val (Ok (), Witness.p2), w') /\
    stored w' !! generateKey "a" = Some (ser_put Witness.p2 "").
Proof.
  split; [vm_compute; reflexivity|]. eexists. split.
  - rewrite (CreatePod_writes_after_any_read_error (St:=EtcdStorage.NewEtcdStorage) 0
      Witness.p2 Witness.flaky (set_kv (rw_kv Witness.flaky) Witness.flaky)
      (Errorf_w ErrEtcdClient ": etcdserver: request timed out"));
      vm_compute; reflexivity.
  - vm_compute; reflexivity.
Defined.

End PodRegistry.
