(* ===== verification/NodeRegistry.v ===== *)
(** * NodeRegistry: the node registry (src/pkg/registry/node_registry.go)

    The node registry takes no lock and makes its keys with [path.Join].  For a name that
    is one ordinary path element the key is the prefix followed by the name, and the
    registry refines a finite map from names to nodes; other names can leave the
    registry's part of the key space. *)

From S2P Require Import Prelude Errors Effects Api Storage Registry Reference GoPath.
From S2P Require Import PodRegistry.

Module NodeRegistry.

Definition nodePrefix : string := "/registry/nodes/".

Definition ErrNodeNotFound : sentinel :=
  Sentinel "registry.ErrNodeNotFound" "node not found".
Definition ErrNodeAlreadyExists : sentinel :=
  Sentinel "registry.ErrNodeAlreadyExists" "node already exists".
Definition ErrListNodesFailed : sentinel :=
  Sentinel "registry.ErrListNodesFailed" "failed to list nodes".
Definition ErrNodeInvalid : sentinel := Sentinel "registry.ErrNodeInvalid" "invalid node".

Record NodeRegistry := mkNodeRegistry { storage : Storage }.

Definition NewNodeRegistry (s : Storage) : NodeRegistry := mkNodeRegistry s.

(** [func generateKey(prefix, name string) string]. *)
Definition generateKey (prefix name : string) : string := Join prefix name.

Section ops.
Context `{Validator, Object Node}.
Variable r : NodeRegistry.

Definition CreateNode (node : Node) : prog (result unit) :=
  let key := generateKey nodePrefix (Node_Name node) in
  existing ← Get (storage r) (A:=Node) key;
  match existing with
  | Ok _ => mret (Err (Errorf_w ErrNodeAlreadyExists (": " +:+ Node_Name node)))
  | Err _ =>
      match Node_Validate node with
      | Some err => mret (Err (Errorf_w ErrNodeInvalid (": " +:+ Error err)))
      | None => Create (storage r) key node
      end
  end.

Definition GetNode (name : string) : prog (result Node) :=
  let key := generateKey nodePrefix name in
  got ← Get (storage r) key;
  match got with
  | Err err =>
      if errors_Is err ErrNotFound
      then mret (Err (Errorf_w ErrNodeNotFound (": " +:+ name)))
      else mret (Err (Errorf_w ErrInternal (": failed to get node: " +:+ Error err)))
  | Ok node => mret (Ok node)
  end.

Definition UpdateNode (node : Node) : prog (result unit) :=
  let key := generateKey nodePrefix (Node_Name node) in
  match Node_Validate node with
  | Some err => mret (Err (Errorf_w ErrNodeInvalid (": " +:+ Error err)))
  | None => Update (storage r) key node
  end.

Definition DeleteNode (name : string) : prog (result unit) :=
  let key := generateKey nodePrefix name in
  Delete (storage r) key.

(** The slice handed to [List] is [make([]*api.Node, 0)], not nil. *)
Definition ListNodes : prog (result (slice Node)) :=
  got ← List (storage r) nodePrefix (PtrToSlice (Some []));
  match got with
  | Err err => mret (Err (Errorf_w ErrListNodesFailed (": " +:+ Error err)))
  | Ok nodes => mret (Ok nodes)
  end.
End ops.

(** ** Abstract specification *)

(** The key of an ordinary name. *)
Definition node_key_of (name : string) : string := nodePrefix +:+ name.

Abbreviation nodes_view := (view (A:=Node) node_key_of).

Definition node_key (k : string) : Prop := HasPrefix k nodePrefix = true.

Definition spec_CreateNode (node : Node) (m : gmap string Node)
  : option sentinel * gmap string Node :=
  match m !! Node_Name node with
  | Some _ => (Some ErrNodeAlreadyExists, m)
  | None =>
      if Node_tags node then (None, <[Node_Name node := node]> m)
      else (Some ErrNodeInvalid, m)
  end.

Definition spec_UpdateNode (node : Node) (m : gmap string Node)
  : option sentinel * gmap string Node :=
  if Node_tags node then (None, <[Node_Name node := node]> m) else (Some ErrNodeInvalid, m).

(** ** Lemmas *)

#[export] Instance node_key_of_inj : Inj (=) (=) node_key_of.
Proof. intros a b Heq. by apply str_app_inj_l in Heq. Qed.

Lemma node_key_node_key_of n : node_key (node_key_of n).
Proof. apply HasPrefix_app. Qed.

Lemma generateKey_split name :
  generateKey nodePrefix name =
  String slash (join_slash (reverse
    (foldl (clean_step true) ["nodes"; "registry"] (split_slash name)))).
Proof. done. Qed.

Lemma generateKey_plain name : plain name -> generateKey nodePrefix name = node_key_of name.
Proof.
  intros Hp. rewrite generateKey_split, split_slash_plain by apply Hp.
  cbn [foldl]. by rewrite clean_step_plain.
Qed.

Section correctness.
Context {St : Storage} `{StorageLaws St W} `{ValidatorLaws} `{ObjectLaws Node}.

#[local] Abbreviation reg := (NewNodeRegistry St).

Lemma unchanged_node n (w w' : W) :
  unchanged_outside (eq (node_key_of n)) w w' -> unchanged_outside node_key w w'.
Proof. intros Hu. eapply unchanged_mono; [done|]. intros k <-. apply node_key_node_key_of. Qed.

Lemma GetNode_spec w m name :
  up w -> nodes_view w m -> plain name ->
  twp (GetNode reg name) (fun got w' =>
    frame w w' /\ stored w' = stored w /\
    match m !! name with
    | Some n => got = Ok n
    | None => agrees got (Some ErrNodeNotFound)
    end) w.
Proof.
  intros Hup Hv Hp. unfold GetNode. rewrite generateKey_plain by done. prog_step.
  eapply twp_mono; [by apply (store_Get node_key_of w m name)|].
  intros got w' (Hfr & Hs & Hgot). destruct (m !! name) as [n|].
  { subst got. by rewrite twp_ret. }
  destruct got as [n|e]; [done|].
  rewrite (wraps_Is _ _ _ Hgot), bool_decide_eq_true_2 by done.
  rewrite twp_ret. cbn. eauto with gokube.
Qed.

Lemma CreateNode_spec w m node :
  up w -> nodes_view w m -> plain (Node_Name node) -> storable node ->
  twp (CreateNode reg node) (fun out w' =>
    let '(o, m') := spec_CreateNode node m in
    agrees out o /\ nodes_view w' m' /\ frame w w' /\ unchanged_outside node_key w w') w.
Proof.
  intros Hup Hv Hp Hst. unfold CreateNode, spec_CreateNode.
  rewrite generateKey_plain by done. prog_step.
  eapply twp_mono; [by apply (store_Get node_key_of w m)|]. intros got w1 (Hfr & Hs & Hgot).
  pose proof (view_same _ _ _ _ Hv Hs) as Hv1. pose proof (unchanged_same node_key _ _ Hs).
  destruct (m !! Node_Name node) as [n|].
  { subst got. rewrite twp_ret. cbn. eauto 10 with gokube. }
  destruct got as [n|e]; [done|].
  destruct (Node_Validate_cases node) as [[-> ->]|[-> [err ->]]].
  2: { rewrite twp_ret. cbn. eauto 10 with gokube. }
  eapply twp_mono.
  { apply (store_Create node_key_of w1 m (Node_Name node)); eauto with gokube. }
  intros err w2 (-> & Hv2 & Hfr2 & Hu2). cbn.
  eauto 10 using frame_trans, unchanged_trans, unchanged_node.
Qed.

(** A node without a name is refused by its validation: the lookup that comes first is
    of the key "/registry/nodes", under which no node is stored. *)
Lemma CreateNode_unnamed (w : W) node :
  Node_Name node = "" -> stored w !! generateKey nodePrefix "" = None ->
  twp (CreateNode reg node) (fun out w' =>
    agrees out (Some ErrNodeInvalid) /\ frame w w' /\ stored w' = stored w) w.
Proof.
  intros Hn Hnone. unfold CreateNode. rewrite Hn. prog_step.
  eapply twp_mono; [apply Get_law|]. intros got w1 (Hfr & Hs & Hgot).
  destruct got as [n|e]; [destruct Hgot as (d & ? & _); congruence|].
  destruct (Node_Validate_cases node) as [[Ht _]|[_ [err ->]]].
  - exfalso. unfold Node_tags, ObjectMeta_tags, required_string in Ht.
    by apply bool_decide_eq_true in Ht.
  - rewrite twp_ret. cbn. eauto with gokube.
Qed.

Lemma UpdateNode_spec w m node :
  up w -> nodes_view w m -> plain (Node_Name node) -> storable node ->
  twp (UpdateNode reg node) (fun out w' =>
    let '(o, m') := spec_UpdateNode node m in
    agrees out o /\ nodes_view w' m' /\ frame w w' /\ unchanged_outside node_key w w') w.
Proof.
  intros Hup Hv Hp Hst. unfold UpdateNode, spec_UpdateNode.
  rewrite generateKey_plain by done.
  destruct (Node_Validate_cases node) as [[-> ->]|[-> [err ->]]].
  2: { rewrite twp_ret. cbn. eauto 10 using unchanged_same with gokube. }
  eapply twp_mono; [by apply (store_Update node_key_of w m)|].
  intros err w2 (-> & Hv2 & Hfr2 & Hu2). cbn. eauto using unchanged_node.
Qed.

Lemma DeleteNode_spec w m name :
  up w -> nodes_view w m -> plain name ->
  twp (DeleteNode reg name) (fun out w' =>
    out = Ok () /\ nodes_view w' (delete name m) /\
    frame w w' /\ unchanged_outside node_key w w') w.
Proof.
  intros Hup Hv Hp. unfold DeleteNode. rewrite generateKey_plain by done.
  eapply twp_mono; [by apply (store_Delete node_key_of w m name)|].
  intros out w' (-> & Hv' & Hfr & Hu). eauto using unchanged_node.
Qed.

Lemma ListNodes_spec w m :
  up w -> nodes_view w m ->
  twp (ListNodes reg) (fun out w' =>
    frame w w' /\ stored w' = stored w /\
    exists objs, objs ≡ₚ (map_to_list m).*2 /\ out = Ok (Some objs)) w.
Proof.
  intros Hup Hv. unfold ListNodes. prog_step. eapply twp_mono.
  { apply (store_List node_key_of nodePrefix (Some []) w m Hup Hv node_key_node_key_of).
    intros k _ Hk. by apply HasPrefix_spec. }
  intros out w' (Hfr & Hs & objs & Hperm & ->). rewrite twp_ret.
  split; [done|]. split; [done|]. exists objs. split; [done|]. by destruct objs.
Qed.
End correctness.

(** ** Properties *)

(** ".." elements climb out of the registry's prefix. *)
Lemma generateKey_climbs x :
  plain x -> generateKey nodePrefix ("../../pods/" +:+ x) = PodRegistry.generateKey x.
Proof.
  intros Hp. rewrite generateKey_split.
  assert (Hs : split_slash ("../../pods/" +:+ x) = [".."; ".."; "pods"; x]).
  { rewrite !str_app_cons, str_app_nil_l. cbn. by rewrite split_slash_plain by apply Hp. }
  rewrite Hs. cbn [foldl]. by rewrite (clean_step_plain _ _ x).
Qed.

Section properties.
Context {St : Storage} `{StorageLaws St W} `{ValidatorLaws} `{ObjectLaws Node}.

#[local] Abbreviation reg := (NewNodeRegistry St).

(** C17: the node registry refines a finite map, for names that are one ordinary path
    element and a store that answers: create (refusing duplicates and invalid nodes),
    get, update (which creates missing nodes), delete and list give the map's answers,
    leave a store that represents the map's new value, and keep to the keys under
    "/registry/nodes/". *)
Theorem NodeRegistry_refines_spec (w : W) (m : gmap string Node) (node : Node) (name : string) :
  up w -> nodes_view w m -> plain (Node_Name node) -> plain name -> storable node ->
  twp (CreateNode reg node) (fun out w' =>
    agrees out (spec_CreateNode node m).1 /\ nodes_view w' (spec_CreateNode node m).2 /\
    unchanged_outside node_key w w') w /\
  twp (GetNode reg name) (fun got w' =>
    stored w' = stored w /\
    match m !! name with
    | Some n => got = Ok n
    | None => agrees got (Some ErrNodeNotFound)
    end) w /\
  twp (UpdateNode reg node) (fun out w' =>
    agrees out (spec_UpdateNode node m).1 /\ nodes_view w' (spec_UpdateNode node m).2 /\
    unchanged_outside node_key w w') w /\
  twp (DeleteNode reg name) (fun out w' =>
    out = Ok () /\ nodes_view w' (delete name m) /\ unchanged_outside node_key w w') w /\
  twp (ListNodes reg) (fun out w' =>
    stored w' = stored w /\
    exists objs, objs ≡ₚ (map_to_list m).*2 /\ out = Ok (Some objs)) w.
Proof.
  intros Hup Hv Hpn Hp Hst. repeat split.
  - eapply twp_mono; [by apply (CreateNode_spec w m)|]. intros out w'.
    destruct (spec_CreateNode node m); tauto.
  - eapply twp_mono; [by apply (GetNode_spec w m)|]. by intros out w' (_ & ?).
  - eapply twp_mono; [by apply (UpdateNode_spec w m)|]. intros out w'.
    destruct (spec_UpdateNode node m); tauto.
  - eapply twp_mono; [by apply (DeleteNode_spec w m)|]. by intros out w' (? & ? & _ & ?).
  - eapply twp_mono; [by apply (ListNodes_spec w m)|]. by intros out w' (_ & ?).
Qed.

(** Node names are not confined to the node keys.  A node named "../../pods/x" passes
    validation, and creating it writes the node's bytes under the key of the pod "x". *)
Theorem CreateNode_escapes_prefix (w : W) (node : Node) (x : string) :
  up w -> plain x -> Node_Name node = "../../pods/" +:+ x -> storable node ->
  stored w !! PodRegistry.generateKey x = None ->
  twp (CreateNode reg node) (fun out w' =>
    out = Ok () /\
    exists d, Encode node = Ok d /\ stored w' !! PodRegistry.generateKey x = Some d) w.
Proof.
  intros Hup Hp Hn Hst Hnone. unfold CreateNode. rewrite Hn, generateKey_climbs by done.
  prog_step. eapply twp_mono; [apply Get_law|]. intros got w1 (Hfr & Hs & Hgot).
  destruct got as [n|e]; [destruct Hgot as (d & ? & _); congruence|].
  destruct (Node_Validate_cases node) as [[_ ->]|[Hf _]].
  2: { exfalso. unfold Node_tags, ObjectMeta_tags, required_string in Hf.
       apply bool_decide_eq_false in Hf. unfold Node_Name in Hn. apply Hf. by rewrite Hn. }
  eapply twp_mono; [apply Create_law|]. intros err w2 (Hfr2 & Hput).
  destruct (Decode_Encode _ Hst) as (d & Henc & _), err as [[]|e'].
  - destruct Hput as (d' & Hd' & ->). split; [done|]. exists d'. by rewrite lookup_insert_eq.
  - exfalso. destruct Hput as [(_ & [e'' He] & _)|(_ & Hd & _)]; [congruence|].
    by apply Hd, Hfr.
Qed.
End properties.

(** ** The properties at concrete inputs *)

Module Witness.
Definition n1 : Node := mkNode (meta_named "node-1") (mkNodeSpec false "") NodeReady.
Definition climber : Node := mkNode (meta_named "../../pods/x") (mkNodeSpec false "") NodeReady.
Definition w1 : ref_world := world_with {[ node_key_of "node-1" := ser_put n1 "" ]}.
End Witness.

Lemma w1_nodes_view : nodes_view Witness.w1 {[ "node-1" := Witness.n1 ]}.
Proof.
  intros n. change (stored Witness.w1) with
    ({[ node_key_of "node-1" := ser_put Witness.n1 "" ]} : gmap string string).
  destruct (decide (n = "node-1")) as [->|Hne].
  - rewrite !lookup_singleton_eq. vm_compute. reflexivity.
  - rewrite !lookup_singleton_ne; [done | done | by intros ?%(inj node_key_of)].
Qed.

Lemma NodeRegistry_refines_spec_witness :
  twp (CreateNode (NewNodeRegistry EtcdStorage.NewEtcdStorage) Witness.n1) (fun out w' =>
    agrees out (Some ErrNodeAlreadyExists) /\ nodes_view w' {[ "node-1" := Witness.n1 ]} /\
    unchanged_outside node_key Witness.w1 w') Witness.w1.
Proof.
  destruct (NodeRegistry_refines_spec (St:=EtcdStorage.NewEtcdStorage) Witness.w1
    {[ "node-1" := Witness.n1 ]} Witness.n1 "node-2") as [Hc _];
    [apply Forall_nil_2 | apply w1_nodes_view | refine (bool_decide_unpack (plain _) _); vm_compute; exact I
    | refine (bool_decide_unpack (plain _) _); vm_compute; exact I | exact I | exact Hc].
Defined.

Lemma CreateNode_escapes_prefix_witness :
  twp (CreateNode (NewNodeRegistry EtcdStorage.NewEtcdStorage) Witness.climber) (fun out w' =>
    out = Ok () /\
    exists d, Encode Witness.climber = Ok d /\
      stored w' !! PodRegistry.generateKey "x" = Some d) Witness.w1.
Proof.
  apply (CreateNode_escapes_prefix Witness.w1 Witness.climber "x");
    [apply Forall_nil_2 | refine (bool_decide_unpack (plain _) _); vm_compute; exact I | reflexivity | exact I
    | vm_compute; reflexivity].
Defined.

End NodeRegistry.
