(* ===== verification/ReplicaSetRegistry.v ===== *)
(** * ReplicaSetRegistry: the ReplicaSet registry
      (src/pkg/registry/replicaset_registry.go)

    As the other registries, with three differences the specification shows: nothing is
    validated, every failed read counts as "not found", and updates require the object to
    exist.  Listing uses the prefix without the final slash. *)

From S2P Require Import Prelude Errors Effects Api Storage Registry Reference.

Module ReplicaSetRegistry.

Definition replicaSetPrefix : string := "/replicasets".

Definition ErrReplicaSetExists : sentinel :=
  Sentinel "registry.ErrReplicaSetExists" "replicaset already exists".
Definition ErrReplicaSetNotFound : sentinel :=
  Sentinel "registry.ErrReplicaSetNotFound" "replicaset not found".
Definition ErrListReplicaSets : sentinel :=
  Sentinel "registry.ErrListReplicaSets" "error listing replicasets".

Record ReplicaSetRegistry := mkReplicaSetRegistry { storage : Storage; mutex : nat }.

Definition NewReplicaSetRegistry (s : Storage) (m : nat) : ReplicaSetRegistry :=
  mkReplicaSetRegistry s m.

Definition generateKey (name : string) : string := replicaSetPrefix +:+ "/" +:+ name.

Section ops.
Context `{Object ReplicaSet}.
Variable r : ReplicaSetRegistry.

Definition Create (rs : ReplicaSet) : prog (result unit) :=
  locked (mutex r) Writer (
    let key := generateKey (RS_Name rs) in
    existing ← Storage.Get (storage r) (A:=ReplicaSet) key;
    match existing with
    | Ok _ => mret (Err (Errorf_w ErrReplicaSetExists (": " +:+ RS_Name rs)))
    | Err _ => Storage.Create (storage r) key rs
    end).

Definition Get (name : string) : prog (result ReplicaSet) :=
  locked (mutex r) Reader (
    let key := generateKey name in
    got ← Storage.Get (storage r) key;
    match got with
    | Err _ => mret (Err (Errorf_w ErrReplicaSetNotFound (": " +:+ name)))
    | Ok rs => mret (Ok rs)
    end).

Definition Update (rs : ReplicaSet) : prog (result unit) :=
  locked (mutex r) Writer (
    let key := generateKey (RS_Name rs) in
    existing ← Storage.Get (storage r) (A:=ReplicaSet) key;
    match existing with
    | Err _ => mret (Err (Errorf_w ErrReplicaSetNotFound (": " +:+ RS_Name rs)))
    | Ok _ => Storage.Update (storage r) key rs
    end).

Definition Delete (name : string) : prog (result unit) :=
  locked (mutex r) Writer (
    let key := generateKey name in
    Storage.Delete (storage r) key).

Definition List : prog (result (slice ReplicaSet)) :=
  locked (mutex r) Reader (
    got ← Storage.List (storage r) replicaSetPrefix (PtrToSlice None);
    match got with
    | Err _ => mret (Err (Errorf_w ErrListReplicaSets ""))
    | Ok replicaSets => mret (Ok replicaSets)
    end).
End ops.

(** ** Abstract specification *)

Abbreviation rs_view := (view (A:=ReplicaSet) generateKey).

Definition rs_key (k : string) : Prop := HasPrefix k (replicaSetPrefix +:+ "/") = true.

(** No stored key has the listing prefix without being the key of a ReplicaSet. *)
Definition no_stray_rs_keys `{StoreView W} (w : W) : Prop :=
  forall k, is_Some (stored w !! k) -> HasPrefix k replicaSetPrefix = true -> rs_key k.

Definition spec_Create (rs : ReplicaSet) (m : gmap string ReplicaSet)
  : option sentinel * gmap string ReplicaSet :=
  match m !! RS_Name rs with
  | Some _ => (Some ErrReplicaSetExists, m)
  | None => (None, <[RS_Name rs := rs]> m)
  end.

Definition spec_Update (rs : ReplicaSet) (m : gmap string ReplicaSet)
  : option sentinel * gmap string ReplicaSet :=
  match m !! RS_Name rs with
  | Some _ => (None, <[RS_Name rs := rs]> m)
  | None => (Some ErrReplicaSetNotFound, m)
  end.

(** ** Lemmas *)

#[export] Instance generateKey_inj : Inj (=) (=) generateKey.
Proof. intros a b Heq. by do 2 apply str_app_inj_l in Heq. Qed.

Lemma rs_key_generateKey n : rs_key (generateKey n).
Proof. unfold rs_key, generateKey. rewrite <- str_app_assoc. apply HasPrefix_app. Qed.

Lemma rs_key_inv k : rs_key k -> exists n, k = generateKey n.
Proof. intros [n ->]%HasPrefix_spec. exists n. by rewrite str_app_assoc. Qed.

Section correctness.
Context {St : Storage} `{StorageLaws St W} `{ObjectLaws ReplicaSet}.
Variable mu : nat.

#[local] Abbreviation reg := (NewReplicaSetRegistry St mu).

Lemma unchanged_rs n (w w' : W) :
  unchanged_outside (eq (generateKey n)) w w' -> unchanged_outside rs_key w w'.
Proof. intros Hu. eapply unchanged_mono; [done|]. intros k <-. apply rs_key_generateKey. Qed.

Lemma Get_spec w m name :
  up w -> rs_view w m ->
  twp (Get reg name) (fun got w' =>
    frame w w' /\ stored w' = stored w /\
    match m !! name with
    | Some rs => got = Ok rs
    | None => agrees got (Some ErrReplicaSetNotFound)
    end) w.
Proof.
  intros Hup Hv. unfold Get. do 2 prog_step.
  eapply twp_mono; [by apply (store_Get generateKey w m name)|].
  intros got w' (Hfr & Hs & Hgot). destruct (m !! name) as [rs|].
  { subst got. by rewrite twp_ret. }
  destruct got as [rs|e]; [done|]. rewrite twp_ret. cbn. eauto with gokube.
Qed.

Lemma Create_spec w m rs :
  up w -> rs_view w m -> storable rs ->
  twp (Create reg rs) (fun out w' =>
    let '(o, m') := spec_Create rs m in
    agrees out o /\ rs_view w' m' /\ frame w w' /\ unchanged_outside rs_key w w') w.
Proof.
  intros Hup Hv Hst. unfold Create, spec_Create. do 2 prog_step.
  eapply twp_mono; [by apply (store_Get generateKey w m)|]. intros got w1 (Hfr & Hs & Hgot).
  pose proof (view_same _ _ _ _ Hv Hs) as Hv1. pose proof (unchanged_same rs_key _ _ Hs).
  destruct (m !! RS_Name rs) as [rs'|].
  { subst got. rewrite twp_ret. cbn. eauto 10 with gokube. }
  destruct got as [rs'|e]; [done|]. eapply twp_mono.
  { apply (store_Create generateKey w1 m (RS_Name rs)); eauto with gokube. }
  intros err w2 (-> & Hv2 & Hfr2 & Hu2). cbn.
  eauto 10 using frame_trans, unchanged_trans, unchanged_rs.
Qed.

Lemma Update_spec w m rs :
  up w -> rs_view w m -> storable rs ->
  twp (Update reg rs) (fun out w' =>
    let '(o, m') := spec_Update rs m in
    agrees out o /\ rs_view w' m' /\ frame w w' /\ unchanged_outside rs_key w w') w.
Proof.
  intros Hup Hv Hst. unfold Update, spec_Update. do 2 prog_step.
  eapply twp_mono; [by apply (store_Get generateKey w m)|]. intros got w1 (Hfr & Hs & Hgot).
  pose proof (view_same _ _ _ _ Hv Hs) as Hv1. pose proof (unchanged_same rs_key _ _ Hs).
  destruct (m !! RS_Name rs) as [rs'|].
  2: { destruct got as [rs'|e]; [done|]. rewrite twp_ret. cbn. eauto 10 with gokube. }
  subst got. eapply twp_mono.
  { apply (store_Update generateKey w1 m (RS_Name rs)); eauto with gokube. }
  intros err w2 (-> & Hv2 & Hfr2 & Hu2). cbn.
  eauto 10 using frame_trans, unchanged_trans, unchanged_rs.
Qed.

Lemma Delete_spec w m name :
  up w -> rs_view w m ->
  twp (Delete reg name) (fun out w' =>
    out = Ok () /\ rs_view w' (delete name m) /\
    frame w w' /\ unchanged_outside rs_key w w') w.
Proof.
  intros Hup Hv. unfold Delete. prog_step.
  eapply twp_mono; [by apply (store_Delete generateKey w m name)|].
  intros out w' (-> & Hv' & Hfr & Hu). eauto using unchanged_rs.
Qed.

Lemma List_spec w m :
  up w -> rs_view w m -> no_stray_rs_keys w ->
  twp (List reg) (fun out w' =>
    frame w w' /\ stored w' = stored w /\
    exists objs, objs ≡ₚ (map_to_list m).*2 /\ out = Ok (append_slice None objs)) w.
Proof.
  intros Hup Hv Hkeys. unfold List. do 2 prog_step. eapply twp_mono.
  { apply (store_List generateKey replicaSetPrefix None w m Hup Hv).
    - intros n. apply HasPrefix_app.
    - intros k Hk Hp. by apply rs_key_inv, Hkeys. }
  intros out w' (Hfr & Hs & objs & Hperm & ->). rewrite twp_ret. eauto.
Qed.
End correctness.

(** ** The operations as values *)

Inductive rs_op :=
| OpCreate (rs : ReplicaSet)
| OpGet (name : string)
| OpUpdate (rs : ReplicaSet)
| OpDelete (name : string)
| OpList.

Inductive rs_result :=
| Done (r : result unit)
| Got (r : result ReplicaSet)
| Listed (r : result (slice ReplicaSet)).

Definition exec_op `{Object ReplicaSet} (r : ReplicaSetRegistry) (op : rs_op) : prog rs_result :=
  match op with
  | OpCreate rs => out ← Create r rs; mret (Done out)
  | OpGet name => out ← Get r name; mret (Got out)
  | OpUpdate rs => out ← Update r rs; mret (Done out)
  | OpDelete name => out ← Delete r name; mret (Done out)
  | OpList => out ← List r; mret (Listed out)
  end.

(** The finite map after an operation, and the answers it may give. *)
Definition spec_step (op : rs_op) (m : gmap string ReplicaSet) : gmap string ReplicaSet :=
  match op with
  | OpCreate rs => (spec_Create rs m).2
  | OpUpdate rs => (spec_Update rs m).2
  | OpDelete name => delete name m
  | OpGet _ | OpList => m
  end.

Definition spec_answer (op : rs_op) (m : gmap string ReplicaSet) (out : rs_result) : Prop :=
  match op, out with
  | OpCreate rs, Done r => agrees r (spec_Create rs m).1
  | OpUpdate rs, Done r => agrees r (spec_Update rs m).1
  | OpDelete _, Done r => r = Ok ()
  | OpGet name, Got r =>
      match m !! name with
      | Some rs => r = Ok rs
      | None => agrees r (Some ErrReplicaSetNotFound)
      end
  | OpList, Listed r =>
      exists objs, objs ≡ₚ (map_to_list m).*2 /\ r = Ok (append_slice None objs)
  | _, _ => False
  end.

Definition op_storable `{ObjectLaws ReplicaSet} (op : rs_op) : Prop :=
  match op with
  | OpCreate rs | OpUpdate rs => storable rs
  | _ => True
  end.

Lemma no_stray_step `{StoreView W} (w w' : W) :
  no_stray_rs_keys w -> unchanged_outside rs_key w w' -> no_stray_rs_keys w'.
Proof.
  intros Hw Hu k Hk Hp. destruct (decide (rs_key k)) as [|Hn]; [done|].
  apply Hw; [|done]. by rewrite <- (Hu k Hn).
Qed.

Lemma rs_exec_op_spec {St : Storage} `{StorageLaws St W} `{ObjectLaws ReplicaSet} mu (w : W) m op :
  up w -> rs_view w m -> no_stray_rs_keys w -> op_storable op ->
  twp (exec_op (NewReplicaSetRegistry St mu) op) (fun out w' =>
    spec_answer op m out /\ rs_view w' (spec_step op m) /\ frame w w' /\
    unchanged_outside rs_key w w') w.
Proof.
  intros Hup Hv Hk Hst. destruct op as [rs|name|rs|name|]; cbn [exec_op spec_step]; prog_step.
  - eapply twp_mono; [by apply (Create_spec mu w m)|]. intros out w'.
    rewrite twp_ret. cbn [spec_answer]. by destruct (spec_Create rs m).
  - eapply twp_mono; [by apply (Get_spec mu w m)|]. intros out w' (Hfr & Hs & Hout).
    rewrite twp_ret. split; [exact Hout|]. split; [by eapply view_same|].
    split; [done|by apply unchanged_same].
  - eapply twp_mono; [by apply (Update_spec mu w m)|]. intros out w'.
    rewrite twp_ret. cbn [spec_answer]. by destruct (spec_Update rs m).
  - eapply twp_mono; [by apply (Delete_spec mu w m)|]. intros out w' Hout. by rewrite twp_ret.
  - eapply twp_mono; [by apply (List_spec mu w m)|]. intros out w' (Hfr & Hs & Hout).
    rewrite twp_ret. split; [exact Hout|]. split; [by eapply view_same|].
    split; [done|by apply unchanged_same].
Qed.

(** ** Properties *)

Section properties.
Context {St : Storage} `{StorageLaws St W} `{ObjectLaws ReplicaSet}.
Variable mu : nat.

#[local] Abbreviation reg := (NewReplicaSetRegistry St mu).

(** The ReplicaSet registry refines a finite map over a store that answers.  Create
    refuses an existing name, update requires one, get and delete behave as on the map,
    every listed object is of the map exactly once (nil when there is none), and only
    keys under "/replicasets/" change.  No operation validates what it stores. *)
Theorem ReplicaSetRegistry_refines_spec (w : W) (m : gmap string ReplicaSet)
    (rs : ReplicaSet) (name : string) :
  up w -> rs_view w m -> no_stray_rs_keys w -> storable rs ->
  twp (Create reg rs) (fun out w' =>
    agrees out (spec_Create rs m).1 /\ rs_view w' (spec_Create rs m).2 /\
    unchanged_outside rs_key w w') w /\
  twp (Get reg name) (fun got w' =>
    stored w' = stored w /\
    match m !! name with
    | Some rs => got = Ok rs
    | None => agrees got (Some ErrReplicaSetNotFound)
    end) w /\
  twp (Update reg rs) (fun out w' =>
    agrees out (spec_Update rs m).1 /\ rs_view w' (spec_Update rs m).2 /\
    unchanged_outside rs_key w w') w /\
  twp (Delete reg name) (fun out w' =>
    out = Ok () /\ rs_view w' (delete name m) /\ unchanged_outside rs_key w w') w /\
  twp (List reg) (fun out w' =>
    stored w' = stored w /\
    exists objs, objs ≡ₚ (map_to_list m).*2 /\ out = Ok (append_slice None objs)) w.
Proof.
  intros Hup Hv Hk Hst. repeat split.
  - eapply twp_mono; [by apply (Create_spec mu w m)|]. intros out w'.
    destruct (spec_Create rs m); tauto.
  - eapply twp_mono; [by apply (Get_spec mu w m)|]. by intros out w' (_ & ?).
  - eapply twp_mono; [by apply (Update_spec mu w m)|]. intros out w'.
    destruct (spec_Update rs m); tauto.
  - eapply twp_mono; [by apply (Delete_spec mu w m)|]. by intros out w' (? & ? & _ & ?).
  - eapply twp_mono; [by apply (List_spec mu w m)|]. by intros out w' (_ & ?).
Qed.

(** The ReplicaSet registry reports every failed read as "not found".  When etcd does
    not answer, or the stored bytes do not decode, [Get] returns [ErrReplicaSetNotFound]
    although the object may exist; it never returns an internal error. *)
Theorem ReplicaSet_Get_conflates_errors (w : W) (name : string) :
  twp (Get reg name) (fun got w' =>
    stored w' = stored w /\
    match got with
    | Ok rs => exists d, stored w !! generateKey name = Some d /\ Decode d = Ok rs
    | Err e =>
        wraps e ErrReplicaSetNotFound /\
        (stored w !! generateKey name = None \/ ~ up w \/
         exists d e', stored w !! generateKey name = Some d /\
           Decode (A:=ReplicaSet) d = Err e')
    end) w.
Proof.
  unfold Get. do 2 prog_step. eapply twp_mono; [apply Get_law|].
  intros got w' (_ & Hs & Hgot). destruct got as [rs|e]; rewrite twp_ret; [done|].
  destruct Hgot as [[_ Hn]|[(_ & Hd)|[_ Hdown]]]; eauto 10 with gokube.
Qed.
End properties.

(** ** The properties at concrete inputs *)

Module Witness.
Definition rs1 : ReplicaSet :=
  mkReplicaSet (meta_named "web")
    (mkReplicaSetSpec (-1) None (mkPodTemplateSpec (meta_named "") (mkPodSpec None 0)))
    (mkReplicaSetStatus 0 0 0 0).
Definition flaky : ref_world :=
  mkRefWorld {[ generateKey "web" := ser_put rs1 "" ]} [FailBefore] 0 0 [] ∅ [].
End Witness.

Lemma ReplicaSetRegistry_refines_spec_witness :
  twp (Create (NewReplicaSetRegistry EtcdStorage.NewEtcdStorage 1) Witness.rs1)
    (fun out w' => agrees out None /\ rs_view w' {[ "web" := Witness.rs1 ]} /\
       unchanged_outside rs_key empty_world w') empty_world.
Proof.
  destruct (ReplicaSetRegistry_refines_spec (St:=EtcdStorage.NewEtcdStorage) 1
    empty_world ∅ Witness.rs1 "web") as [Hc _];
    [apply Forall_nil_2 | intros n; by rewrite !lookup_empty
    | intros k [d Hd]; cbn in Hd; by rewrite lookup_empty in Hd | exact I | exact Hc].
Defined.

Lemma ReplicaSet_Get_conflates_errors_witness :
  stored Witness.flaky !! generateKey "web" = Some (ser_put Witness.rs1 "") /\
  twp (Get (NewReplicaSetRegistry EtcdStorage.NewEtcdStorage 1) "web")
    (fun got w' =>
      stored w' = stored Witness.flaky /\
      match got with
      | Ok rs => exists d, stored Witness.flaky !! generateKey "web" = Some d /\ Decode d = Ok rs
      | Err e =>
          wraps e ErrReplicaSetNotFound /\
          (stored Witness.flaky !! generateKey "web" = None \/ ~ up Witness.flaky \/
           exists d e', stored Witness.flaky !! generateKey "web" = Some d /\
             Decode (A:=ReplicaSet) d = Err e')
      end) Witness.flaky.
Proof.
  split; [vm_compute; reflexivity|].
  apply (ReplicaSet_Get_conflates_errors 1 Witness.flaky "web").
Defined.

End ReplicaSetRegistry.
