(* ===== verification/Scheduler.v ===== *)
(** * Scheduler: assigning pending pods to nodes (src/pkg/scheduler/scheduler.go)

    One pass lists the pending pods and the nodes and writes each pod back with a random
    node and the status "Scheduled".  The pass is proved to schedule every pending pod to
    an existing node and to touch nothing else. *)

From S2P Require Import Prelude Errors Effects Api Storage Registry Reference PodRegistry.
From S2P Require Import NodeRegistry.

Module Scheduler.

Record Scheduler := mkScheduler {
  podRegistry : PodRegistry.PodRegistry;
  nodeRegistry : NodeRegistry.NodeRegistry;
  schedulingRate : Z }.

Definition NewScheduler := mkScheduler.

Section ops.
Context `{Validator, Object Pod, Object Node}.
Variable s : Scheduler.

(** [pod.NodeName = node.Name; pod.Status = api.PodScheduled]. *)
Definition assign (node : Node) (pod : Pod) : Pod :=
  set_status PodScheduled (set_node (Node_Name node) pod).

(** The loop over the pending pods; [nodes] is not empty. *)
Fixpoint schedule_loop (nodes : list Node) (pods : list Pod) : prog (result unit) :=
  match pods with
  | [] => mret (Ok ())
  | pod :: pods =>
      i ← call (RandIntn (Z.of_nat (length nodes)));
      match nodes !! Z.to_nat i with
      | None => Halt (Panic "index out of range")
      | Some node =>
          let pod := assign node pod in
          out ← PodRegistry.UpdatePod (podRegistry s) pod;
          match out with
          | Err err =>
              mret (Err (ErrText ("failed to update pod " +:+ Pod_Name pod +:+ ": "
                                  +:+ Error err)))
          | Ok _ => schedule_loop nodes pods
          end
      end
  end.

Definition schedulePendingPods : prog (result unit) :=
  pods ← PodRegistry.ListPendingPods (podRegistry s);
  match pods with
  | Err err => mret (Err (ErrText ("failed to list pending pods: " +:+ Error err)))
  | Ok pods =>
      nodes ← NodeRegistry.ListNodes (nodeRegistry s);
      match nodes with
      | Err err => mret (Err (ErrText ("failed to list nodes: " +:+ Error err)))
      | Ok nodes =>
          if (length (elems nodes) =? 0)%nat
          then mret (Err (ErrText "no nodes available for scheduling"))
          else schedule_loop (elems nodes) (elems pods)
      end
  end.

(** The scheduling loop: each round waits for the ticker or the end of the context. *)
Fixpoint Start (fuel : nat) : prog unit :=
  match fuel with
  | O => Halt NoFuel
  | S fuel =>
      done ← call (CtxOrTimer (schedulingRate s));
      match done with
      | Some _ => mret ()
      | None => _ ← schedulePendingPods; Start fuel
      end
  end.
End ops.

(** ** Specification *)

Definition pending (p : Pod) : bool := bool_decide (Pod_Status p = PodPending).

(** [m'] is [m] with every pending pod assigned to some node of [nodes]. *)
Definition scheduled (nodes : gmap string Node) (m m' : gmap string Pod) : Prop :=
  forall name,
    match m !! name with
    | None => m' !! name = None
    | Some p =>
        if pending p
        then exists nn node, nodes !! nn = Some node /\ m' !! name = Some (assign node p)
        else m' !! name = Some p
    end.

(** ** Lemmas *)

Lemma node_key_not_pod n : ~ PodRegistry.pod_key (NodeRegistry.node_key_of n).
Proof. by unfold PodRegistry.pod_key. Qed.

Section correctness.
Context {St : Storage} `{StorageLaws St W} `{ValidatorLaws} `{ObjectLaws Pod} `{ObjectLaws Node}.
Variable mu : nat.
Variable rate : Z.

#[local] Abbreviation sched :=
  (NewScheduler (PodRegistry.NewPodRegistry St mu) (NodeRegistry.NewNodeRegistry St) rate).
#[local] Abbreviation pods_view := (view (A:=Pod) PodRegistry.generateKey).
#[local] Abbreviation nodes_view := (view (A:=Node) NodeRegistry.node_key_of).

(** A call of the random source leaves the store as it is. *)
Lemma intn_frame n (w : W) :
  stored (handle (RandIntn n) w).2 = stored w /\ (up w -> up (handle (RandIntn n) w).2).
Proof. split; [by apply local_stored | by apply local_up]. Qed.

Lemma schedule_loop_spec nodes pods (w : W) m :
  up w -> pods_view w m -> nodes <> [] ->
  NoDup (Pod_Name <$> pods) ->
  Forall (fun p => Pod_tags p = true /\ forall node, node ∈ nodes -> storable (assign node p)) pods ->
  twp (schedule_loop sched nodes pods) (fun out w' =>
    out = Ok () /\ up w' /\ unchanged_outside PodRegistry.pod_key w w' /\
    exists m', pods_view w' m' /\
      (forall p, p ∈ pods -> exists node, node ∈ nodes /\
         m' !! Pod_Name p = Some (assign node p)) /\
      (forall n, n ∉ Pod_Name <$> pods -> m' !! n = m !! n)) w.
Proof.
  intros Hup Hv Hne. revert w m Hup Hv.
  induction pods as [|p pods IH]; intros w m Hup Hv Hnd Hall; cbn [schedule_loop].
  { rewrite twp_ret. split; [done|]. split; [done|]. split; [by apply unchanged_same|].
    exists m. split; [done|]. split; [by intros p Hp%not_elem_of_nil | done]. }
  do 2 prog_step. destruct (intn_frame (Z.of_nat (length nodes)) w) as [Hs Hup'].
  pose proof (rand_intn (Z.of_nat (length nodes)) w) as Hi.
  destruct (lookup_lt_is_Some_2 nodes
    (Z.to_nat (handle (RandIntn (Z.of_nat (length nodes))) w).1)) as [node Hnode].
  { destruct nodes; [done|]. cbn [length] in *. lia. }
  rewrite Hnode. prog_step.
  apply Forall_cons in Hall as [[Htags Hst] Hall].
  rewrite fmap_cons in Hnd. apply NoDup_cons in Hnd as [Hnotin Hnd].
  eapply twp_mono.
  { apply (PodRegistry.UpdatePod_spec mu _ m (assign node p)); [by apply Hup'| |].
    - by eapply view_same.
    - apply Hst. by eapply list_elem_of_lookup_2. }
  intros out w1 Hout. unfold PodRegistry.spec_UpdatePod in Hout.
  change (Pod_tags (assign node p)) with (Pod_tags p) in Hout. rewrite Htags in Hout.
  destruct Hout as (Hok & Hv1 & Hfr1 & Hu1). destruct out as [[]|e]; [|done].
  eapply twp_mono; [by apply (IH w1 _ (frame_up _ _ Hfr1 (Hup' Hup)) Hv1)|].
  intros out w2 (-> & Hup2 & Hu2 & m' & Hv2 & Hin & Hout). split; [done|]. split; [done|].
  split.
  { eapply unchanged_trans; [|done]. eapply unchanged_trans; [by apply unchanged_same|done]. }
  exists m'. split; [done|].
  change (Pod_Name (assign node p)) with (Pod_Name p) in Hout. split.
  - intros p' [->|Hp']%elem_of_cons; [|by apply Hin].
    exists node. split; [by eapply list_elem_of_lookup_2|].
    rewrite Hout by done. by rewrite lookup_insert_eq.
  - intros n Hn. rewrite fmap_cons, not_elem_of_cons in Hn. destruct Hn as [Hn1 Hn2].
    rewrite Hout by done. by rewrite lookup_insert_ne.
Qed.
Lemma elem_of_values {A} (m : gmap string A) (l : list A) a :
  l ≡ₚ (map_to_list m).*2 -> a ∈ l <-> exists n, m !! n = Some a.
Proof.
  intros ->. rewrite list_elem_of_fmap. setoid_rewrite elem_of_map_to_list'. split.
  - intros ([n b] & -> & Hn). by exists n.
  - intros [n Hn]. by exists (n, a).
Qed.

(** The pods of a well-formed map that satisfy a test, as a loop lists them. *)
Lemma filtered_pods (m : gmap string Pod) objs f :
  PodRegistry.pods_wf m -> objs ≡ₚ (map_to_list m).*2 ->
  NoDup (Pod_Name <$> List.filter f objs) /\
  (forall p, p ∈ List.filter f objs <-> m !! Pod_Name p = Some p /\ f p = true).
Proof.
  intros Hwf Hperm. split.
  - assert (Hnd : NoDup (Pod_Name <$> objs)).
    { rewrite Hperm. by apply PodRegistry.pods_wf_names. }
    clear -Hnd. induction objs as [|p objs IH]; [constructor|].
    rewrite fmap_cons in Hnd. apply NoDup_cons in Hnd as [Hnotin Hnd]. cbn.
    destruct (f p); [|by apply IH]. rewrite fmap_cons. constructor; [|by apply IH].
    rewrite list_elem_of_fmap in Hnotin |- *. intros (q & Hq & Hin%elem_of_filter_bool).
    apply Hnotin. exists q. by split; [|apply Hin].
  - intros p. rewrite elem_of_filter_bool, (elem_of_values m) by done.
    split; intros [Hn Hf]; (split; [|done]).
    + destruct Hn as [n Hn]. by destruct (Hwf _ _ Hn) as [-> _].
    + by exists (Pod_Name p).
Qed.

Lemma schedulePendingPods_spec (w : W) m nodes :
  up w -> pods_view w m -> nodes_view w nodes ->
  PodRegistry.pods_wf m -> nodes <> ∅ ->
  (forall n p nn node, m !! n = Some p -> pending p = true -> nodes !! nn = Some node ->
     storable (assign node p)) ->
  twp (schedulePendingPods sched) (fun out w' =>
    out = Ok () /\ up w' /\ unchanged_outside PodRegistry.pod_key w w' /\
    exists m', pods_view w' m' /\ scheduled nodes m m') w.
Proof.
  intros Hup Hv Hnv Hwf Hne Hst. unfold schedulePendingPods. prog_step.
  eapply twp_mono; [by apply (PodRegistry.listPodsByStatus_spec mu w m)|].
  intros pods w1 (Hfr1 & Hs1 & objs & Hperm & ->). prog_step.
  eapply twp_mono.
  { apply (NodeRegistry.ListNodes_spec w1 nodes); [by eauto with gokube|].
    by eapply view_same. }
  intros out w2 (Hfr2 & Hs2 & ns & Hns & ->). rewrite !elems_Some.
  change (fun p => bool_decide (Pod_Status p = PodPending)) with pending.
  assert (Hns0 : ns <> []).
  { intros ->. apply Hne. symmetry in Hns. apply Permutation_nil_r, fmap_nil_inv in Hns.
    by apply map_to_list_empty_iff. }
  destruct (Nat.eqb_spec (length ns) 0) as [Hlen|_].
  { by apply nil_length_inv in Hlen. }
  destruct (filtered_pods m objs pending Hwf Hperm) as [Hnd Hin].
  eapply twp_mono.
  { apply (schedule_loop_spec ns _ w2 m); [exact (frame_up _ _ Hfr2 (frame_up _ _ Hfr1 Hup))| |done|done|].
    - by eapply view_same; [|by rewrite Hs2].
    - apply Forall_forall. intros p [Hp Hpend]%Hin. split; [by apply (Hwf _ _ Hp)|].
      intros node [nn Hnode]%(elem_of_values nodes); [|done]. by eapply Hst. }
  intros out w3 (-> & Hup3 & Hu3 & m' & Hv3 & Hdone & Hkeep). split; [done|].
  split; [done|]. split.
  { eapply unchanged_trans; [|done]. apply unchanged_same. by rewrite Hs2, Hs1. }
  exists m'. split; [done|]. intros name. destruct (m !! name) as [p|] eqn:Hm.
  - destruct (Hwf _ _ Hm) as [Hname _]. destruct (pending p) eqn:Hpend.
    + destruct (Hdone p) as (node & Hnode & Hm'); [apply Hin; by rewrite Hname|].
      apply (elem_of_values nodes) in Hnode as [nn Hnode]; [|done].
      exists nn, node. by rewrite <- Hname.
    + rewrite Hkeep; [done|]. intros (q & Hq & [Hmq Hq']%Hin)%list_elem_of_fmap.
      rewrite <- Hq in Hmq. congruence.
  - rewrite Hkeep; [done|]. intros (q & Hq & [Hmq Hq']%Hin)%list_elem_of_fmap.
    rewrite <- Hq in Hmq. congruence.
Qed.

Lemma scheduled_none_pending nodes m m' :
  scheduled nodes m m' -> map_Forall (fun _ p => pending p = false) m'.
Proof.
  intros Hs n p' Hp'. specialize (Hs n). destruct (m !! n) as [p|]; [|congruence].
  destruct (pending p) eqn:Hp.
  - destruct Hs as (nn & node & _ & Hm'). rewrite Hm' in Hp'. by simplify_eq.
  - congruence.
Qed.

Lemma scheduled_wf nodes m m' :
  scheduled nodes m m' -> PodRegistry.pods_wf m -> PodRegistry.pods_wf m'.
Proof.
  intros Hs Hwf n p' Hp'. specialize (Hs n). destruct (m !! n) as [p|] eqn:Hm; [|congruence].
  specialize (Hwf _ _ Hm). destruct (pending p).
  - destruct Hs as (nn & node & _ & Hm'). rewrite Hm' in Hp'. by simplify_eq.
  - by rewrite Hs in Hp'; simplify_eq.
Qed.
End correctness.

(** ** Properties *)

Section properties.
Context {St : Storage} `{StorageLaws St W} `{ValidatorLaws} `{ObjectLaws Pod} `{ObjectLaws Node}.
Variable mu : nat.
Variable rate : Z.

#[local] Abbreviation sched :=
  (NewScheduler (PodRegistry.NewPodRegistry St mu) (NodeRegistry.NewNodeRegistry St) rate).
#[local] Abbreviation pods_view := (view (A:=Pod) PodRegistry.generateKey).
#[local] Abbreviation nodes_view := (view (A:=Node) NodeRegistry.node_key_of).

(** C4: one scheduling pass schedules everything.  Over a store that answers, holds
    well-formed pods and at least one node, the pass returns nil; every pending pod is
    then "Scheduled" on a node of the registry and otherwise as before, every other pod,
    every node and every ReplicaSet is untouched, no pod is pending any more, and the
    pods are still well-formed. *)
Theorem schedulePendingPods_schedules_all (w : W) (m : gmap string Pod)
    (nodes : gmap string Node) :
  up w -> pods_view w m -> nodes_view w nodes ->
  PodRegistry.pods_wf m -> nodes <> ∅ ->
  (forall n p nn node, m !! n = Some p -> pending p = true -> nodes !! nn = Some node ->
     storable (assign node p)) ->
  exists w' m', run (schedulePendingPods sched) w = (Val (Ok ()), w') /\
    pods_view w' m' /\ scheduled nodes m m' /\ nodes_view w' nodes /\
    unchanged_outside PodRegistry.pod_key w w' /\
    map_Forall (fun _ p => pending p = false) m' /\ PodRegistry.pods_wf m'.
Proof.
  intros Hup Hv Hnv Hwf Hne Hst.
  pose proof (schedulePendingPods_spec mu rate w m nodes Hup Hv Hnv Hwf Hne Hst) as Hrun.
  apply twp_run in Hrun as (out & w' & Hrun & -> & _ & Hu & m' & Hv' & Hs).
  exists w', m'. split; [done|]. split; [done|]. split; [done|]. split.
  { eapply view_unchanged; [done|done|apply node_key_not_pod]. }
  split; [done|]. split; [by eapply scheduled_none_pending | by eapply scheduled_wf].
Qed.

(** Without nodes the pass changes nothing and reports the error; the pods stay
    pending for a later pass. *)
Theorem schedulePendingPods_without_nodes (w : W) (m : gmap string Pod) :
  up w -> pods_view w m -> nodes_view w ∅ ->
  exists w', run (schedulePendingPods sched) w =
      (Val (Err (ErrText "no nodes available for scheduling")), w') /\
    stored w' = stored w.
Proof.
  intros Hup Hv Hnv.
  assert (Hrun : twp (schedulePendingPods sched) (fun out w' =>
    out = Err (ErrText "no nodes available for scheduling") /\ stored w' = stored w) w).
  { unfold schedulePendingPods. prog_step.
    eapply twp_mono; [by apply (PodRegistry.listPodsByStatus_spec mu w m)|].
    intros pods w1 (Hfr1 & Hs1 & objs & Hperm & ->). prog_step. eapply twp_mono.
    { apply (NodeRegistry.ListNodes_spec w1 ∅); [by eauto with gokube|].
      by eapply view_same. }
    intros out w2 (Hfr2 & Hs2 & ns & Hns & ->).
    rewrite map_to_list_empty in Hns. apply Permutation_nil_r in Hns as ->.
    rewrite elems_Some. cbn [length Nat.eqb]. rewrite twp_ret. split; [done|]. by rewrite Hs2. }
  apply twp_run in Hrun as (out & w' & Hrun & -> & Hs). eauto.
Qed.
End properties.

(** ** The properties at concrete inputs *)

Module Witness.
Definition c1 : Container := mkContainer "web" "nginx".
Definition p1 : Pod := mkPod (meta_named "a") (mkPodSpec (Some [c1]) 1) "" PodPending.
Definition p2 : Pod := mkPod (meta_named "b") (mkPodSpec (Some [c1]) 1) "n9" PodRunning.
Definition n1 : Node := mkNode (meta_named "node-1") (mkNodeSpec false "") NodeReady.
Definition pods : gmap string Pod := <["a" := p1]> {[ "b" := p2 ]}.
Definition nodes : gmap string Node := {[ "node-1" := n1 ]}.
Definition w0 : ref_world := world_with
  (<[PodRegistry.generateKey "a" := ser_put p1 ""]>
   (<[NodeRegistry.node_key_of "node-1" := ser_put n1 ""]>
    {[ PodRegistry.generateKey "b" := ser_put p2 "" ]})).
Definition w_nodeless : ref_world := world_with {[ PodRegistry.generateKey "a" := ser_put p1 "" ]}.
End Witness.

Lemma w0_pods : view PodRegistry.generateKey Witness.w0 Witness.pods.
Proof.
  unfold Witness.w0, Witness.pods. eapply (view_insert _ (world_with
    (<[NodeRegistry.node_key_of "node-1" := ser_put Witness.n1 ""]>
     {[ PodRegistry.generateKey "b" := ser_put Witness.p2 "" ]}))); [|reflexivity|reflexivity].
  eapply (view_unchanged _ NodeRegistry.node_key (world_with
    {[ PodRegistry.generateKey "b" := ser_put Witness.p2 "" ]})).
  - eapply (view_insert _ empty_world _ ∅ "b"); [|reflexivity|reflexivity].
    intros n. by rewrite !lookup_empty.
  - eapply unchanged_mono; [by eapply unchanged_insert|]. intros k <-. reflexivity.
  - intros n. done.
Qed.

Lemma w0_nodes : view NodeRegistry.node_key_of Witness.w0 Witness.nodes.
Proof.
  eapply (view_unchanged _ PodRegistry.pod_key (world_with
    {[ NodeRegistry.node_key_of "node-1" := ser_put Witness.n1 "" ]})).
  - eapply (view_insert _ empty_world _ ∅ "node-1"); [|reflexivity|reflexivity].
    intros n. by rewrite !lookup_empty.
  - intros k Hk. cbn. destruct (decide (k = NodeRegistry.node_key_of "node-1")) as [->|Hne].
    + reflexivity.
    + rewrite lookup_insert_ne, lookup_insert_ne, !lookup_singleton_ne; try done;
        intros <-; by apply Hk.
  - apply node_key_not_pod.
Qed.

Lemma schedulePendingPods_schedules_all_witness :
  exists w' m',
    run (schedulePendingPods (NewScheduler
           (PodRegistry.NewPodRegistry EtcdStorage.NewEtcdStorage 1)
           (NodeRegistry.NewNodeRegistry EtcdStorage.NewEtcdStorage) 10)) Witness.w0
      = (Val (Ok ()), w') /\
    view (A:=Pod) PodRegistry.generateKey w' m' /\
    scheduled Witness.nodes Witness.pods m' /\
    view (A:=Node) NodeRegistry.node_key_of w' Witness.nodes /\
    unchanged_outside PodRegistry.pod_key Witness.w0 w' /\
    map_Forall (fun _ p => pending p = false) m' /\ PodRegistry.pods_wf m'.
Proof.
  apply (schedulePendingPods_schedules_all (St:=EtcdStorage.NewEtcdStorage) 1 10
    Witness.w0 Witness.pods Witness.nodes);
    [apply Forall_nil_2 | apply w0_pods | apply w0_nodes
    | apply map_Forall_insert_2; [by vm_compute|]; by apply map_Forall_singleton
    | done | by intros].
Defined.

Lemma schedulePendingPods_without_nodes_witness :
  exists w',
    run (schedulePendingPods (NewScheduler
           (PodRegistry.NewPodRegistry EtcdStorage.NewEtcdStorage 1)
           (NodeRegistry.NewNodeRegistry EtcdStorage.NewEtcdStorage) 10)) Witness.w_nodeless
      = (Val (Err (ErrText "no nodes available for scheduling")), w') /\
    stored w' = stored Witness.w_nodeless.
Proof.
  apply (schedulePendingPods_without_nodes (St:=EtcdStorage.NewEtcdStorage) 1 10
    Witness.w_nodeless {[ "a" := Witness.p1 ]});
    [apply Forall_nil_2
    | eapply (view_insert _ empty_world _ ∅ "a");
        [intros n; by rewrite !lookup_empty | reflexivity | reflexivity]
    | intros n; cbn; rewrite lookup_singleton_ne, lookup_empty; done].
Defined.

End Scheduler.
