(* ===== verification/Controller.v ===== *)
(** * Controller: the ReplicaSet controller (src/pkg/controller/replica_set_controller.go)

    [Reconcile] compares the active pods whose names start with the ReplicaSet's name with
    the desired count and creates the missing ones, one pod per container of the template
    and missing replica, under generated names.  The relation [creates] says which pods a
    scale-up may leave; the theorems give the whole outcome of [Reconcile] on each of its
    branches and when repeating it converges. *)

From S2P Require Import Prelude Errors Effects Api Storage Registry Reference Names.
From S2P Require Import PodRegistry ReplicaSetRegistry.

Module Controller.

Record ReplicaSetController := mkReplicaSetController {
  replicaSetRegistry : ReplicaSetRegistry.ReplicaSetRegistry;
  podRegistry : PodRegistry.PodRegistry }.

Definition NewReplicaSetController := mkReplicaSetController.

(** [fuel] bounds the loop of the name generator. *)
Definition generatePodNameFromReplicaSet (fuel : nat) (replicaSetName : string)
  : prog string :=
  Names.GenerateName fuel replicaSetName.

Section ops.
Context `{Validator, Object Pod, Object ReplicaSet}.
Variable rsc : ReplicaSetController.
Variable fuel : nat.

Definition getPodsForReplicaSet (rs : ReplicaSet) (allPods : slice Pod)
    (condition : Pod -> ObjectMeta -> bool) : result (slice Pod) :=
  Ok (append_slice None
        (List.filter (fun pod => condition pod (RS_ObjectMeta rs)) (elems allPods))).

Definition getPodsOwnedBy (rs : ReplicaSet) (pods : slice Pod) : result (slice Pod) :=
  getPodsForReplicaSet rs pods IsOwnedBy.

(** The pod literal of the inner loop. *)
Definition new_pod (name : string) (container : Container) : Pod :=
  mkPod (meta_named name) (mkPodSpec (Some [container]) 0) "" "".

(** The inner loop: one pod per container of the template. *)
Fixpoint create_pods (rsName : string) (containers : list Container) : prog (result unit) :=
  match containers with
  | [] => mret (Ok ())
  | container :: containers =>
      name ← generatePodNameFromReplicaSet fuel rsName;
      out ← PodRegistry.CreatePod (podRegistry rsc) (new_pod name container);
      match out.1 with
      | Err err => mret (Err err)
      | Ok _ => create_pods rsName containers
      end
  end.

(** The outer loop, [n] rounds from [currentPodCount] to [desiredPodCount]. *)
Fixpoint create_replicas (rsName : string) (containers : list Container) (n : nat)
  : prog (result unit) :=
  match n with
  | O => mret (Ok ())
  | S n =>
      out ← create_pods rsName containers;
      match out with
      | Err err => mret (Err err)
      | Ok _ => create_replicas rsName containers n
      end
  end.

(** [currentRS.Status.Replicas = n]. *)
Definition set_status_replicas (n : Z) (rs : ReplicaSet) : ReplicaSet :=
  let st := RS_Status rs in
  mkReplicaSet (RS_ObjectMeta rs) (RS_Spec rs)
    (mkReplicaSetStatus n (FullyLabeledReplicas st) (ReadyReplicas st)
       (AvailableReplicas st)).

Definition Reconcile (rs : ReplicaSet) : prog (result unit) :=
  got ← ReplicaSetRegistry.Get (replicaSetRegistry rsc) (RS_Name rs);
  match got with
  | Err err => mret (Err err)
  | Ok currentRS =>
      allPods ← PodRegistry.ListPods (podRegistry rsc);
      match allPods with
      | Err err => mret (Err err)
      | Ok allPods =>
          match getPodsForReplicaSet currentRS allPods IsPodActiveAndOwnedBy with
          | Err err => mret (Err err)
          | Ok activePods =>
              let currentPodCount := Z.of_nat (length (elems activePods)) in
              let desiredPodCount := RSSpec_Replicas (RS_Spec currentRS) in
              if currentPodCount <? desiredPodCount then
                out ← create_replicas (RS_Name currentRS)
                        (elems (Containers (Template_Spec (Template (RS_Spec currentRS)))))
                        (Z.to_nat (desiredPodCount - currentPodCount));
                match out with
                | Err err => mret (Err err)
                | Ok _ =>
                    ReplicaSetRegistry.Update (replicaSetRegistry rsc)
                      (set_status_replicas (int32 desiredPodCount) currentRS)
                end
              else if desiredPodCount <? currentPodCount then
                ReplicaSetRegistry.Update (replicaSetRegistry rsc)
                  (set_status_replicas (int32 desiredPodCount) currentRS)
              else mret (Ok ())
          end
      end
  end.

(** The loop of [Run] over the listed ReplicaSets. *)
Fixpoint reconcile_all (rscList : list ReplicaSet) : prog (result unit) :=
  match rscList with
  | [] => mret (Ok ())
  | rs :: rscList =>
      out ← Reconcile rs;
      match out with
      | Err err => Halt (Fatal ("failed to reconcile: " +:+ Error err))
      | Ok _ => reconcile_all rscList
      end
  end.

Definition Run : prog (result unit) :=
  got ← ReplicaSetRegistry.List (replicaSetRegistry rsc);
  match got with
  | Err err => Halt (Fatal ("failed to list replicaSets: " +:+ Error err))
  | Ok rscList => reconcile_all (elems rscList)
  end.

(** [Start]: [rounds] bounds the number of ticks. *)
Fixpoint Start (rounds : nat) : prog unit :=
  match rounds with
  | O => Halt NoFuel
  | S rounds =>
      done ← call (CtxOrTimer (1 * 1000000000));     (* time.Second *)
      match done with
      | Some _ => mret ()
      | None => _ ← Run; Start rounds
      end
  end.
End ops.

(** ** Specification *)

(** The active pods of [m] that belong to a ReplicaSet, by the prefix rule. *)
Definition active (rs : ReplicaSet) (m : gmap string Pod) : list Pod :=
  List.filter (fun pod => IsPodActiveAndOwnedBy pod (RS_ObjectMeta rs)) (map_to_list m).*2.

Definition active_count (rs : ReplicaSet) (m : gmap string Pod) : Z :=
  Z.of_nat (length (active rs m)).

Definition template_containers (rs : ReplicaSet) : list Container :=
  elems (Containers (Template_Spec (Template (RS_Spec rs)))).

Definition random_suffix (s : string) : Prop :=
  String.length s = 5%nat /\ str_forall Names.alphanumeric s = true.

(** The pod stored for a container: pending, unassigned, with that container alone. *)
Definition pending_pod (name : string) (c : Container) : Pod :=
  mkPod (meta_named name) (mkPodSpec (Some [c]) 0) "" PodPending.

(** [creates base cs m ok m']: pods for the containers [cs] are added to [m] one after the
    other, under names made of [base] and random suffixes; [ok] is false when a name was
    taken, which ends the creation. *)
Inductive creates (base : string)
  : list Container -> gmap string Pod -> bool -> gmap string Pod -> Prop :=
| creates_done m : creates base [] m true m
| creates_next c cs suffix m ok m' :
    random_suffix suffix ->
    m !! (Names.cut base +:+ suffix) = None ->
    creates base cs
      (<[Names.cut base +:+ suffix := pending_pod (Names.cut base +:+ suffix) c]> m) ok m' ->
    creates base (c :: cs) m ok m'
| creates_clash c cs suffix m :
    random_suffix suffix ->
    is_Some (m !! (Names.cut base +:+ suffix)) ->
    creates base (c :: cs) m false m.

(** The pods created for [cs] survive the encoding. *)
Definition pods_storable `{ObjectLaws Pod} (base : string) (cs : list Container) : Prop :=
  forall s c, random_suffix s -> c ∈ cs -> storable (pending_pod (Names.cut base +:+ s) c).

(** The containers the pods of [n] replicas are made from, in order. *)
Definition replica_containers (n : nat) (cs : list Container) : list Container :=
  concat (replicate n cs).

(** ** Lemmas on the specification *)

Lemma creates_app base cs1 cs2 m1 m2 ok m3 :
  creates base cs1 m1 true m2 -> creates base cs2 m2 ok m3 ->
  creates base (cs1 ++ cs2) m1 ok m3.
Proof.
  intros H1 H2. remember true as b eqn:Hb.
  induction H1 as [m|c cs s m b m' Hs Hn _ IH|]; [done| |done].
  cbn. eapply creates_next; eauto.
Qed.

Lemma creates_app_fail base cs1 cs2 m1 m2 :
  creates base cs1 m1 false m2 -> creates base (cs1 ++ cs2) m1 false m2.
Proof.
  intros H1. remember false as b eqn:Hb.
  induction H1 as [m|c cs s m b m' Hs Hn _ IH|c cs s m Hs Hn]; [done| |].
  - cbn. eapply creates_next; eauto.
  - cbn. by eapply creates_clash.
Qed.

Lemma replica_containers_length n cs :
  length (replica_containers n cs) = (n * length cs)%nat.
Proof.
  unfold replica_containers. induction n as [|n IH]; cbn; [done|].
  rewrite length_app, IH. done.
Qed.

(** Creation adds pods and changes none. *)
Lemma creates_keeps base cs m ok m' : creates base cs m ok m' -> m ⊆ m'.
Proof.
  induction 1 as [m|c cs s m ok m' _ Hn _ IH|]; [done| |done].
  etrans; [|exact IH]. by apply insert_subseteq.
Qed.

Lemma creates_size base cs m m' :
  creates base cs m true m' -> Z.of_nat (size m') = Z.of_nat (size m) + Z.of_nat (length cs).
Proof.
  intros Hc. remember true as b eqn:Hb.
  induction Hc as [m|c cs s m b m' _ Hn _ IH|]; [cbn; lia| |done].
  rewrite IH by done. rewrite map_size_insert_None by done. cbn [length]. lia.
Qed.

Lemma suffixed_name_nonempty base s : random_suffix s -> Names.cut base +:+ s <> "".
Proof.
  intros [Hlen _] Heq. apply (f_equal String.length) in Heq.
  rewrite str_app_length, Hlen in Heq. cbn in Heq. lia.
Qed.

Lemma pending_pod_tags name c :
  name <> "" -> Container_tags c = true -> Pod_tags (pending_pod name c) = true.
Proof.
  intros Hn Hc. unfold Pod_tags, ObjectMeta_tags, required_string, PodSpec_tags. cbn.
  rewrite Hc, bool_decide_eq_true_2 by done. done.
Qed.

Lemma creates_wf base cs m ok m' :
  creates base cs m ok m' -> Forall (fun c => Container_tags c = true) cs ->
  PodRegistry.pods_wf m -> PodRegistry.pods_wf m'.
Proof.
  induction 1 as [m|c cs s m ok m' Hs Hn _ IH|]; intros Hcs Hwf; [done| |done].
  apply Forall_cons in Hcs as [Hc Hcs]. apply IH; [done|].
  apply PodRegistry.pods_wf_insert; [done|done|].
  apply pending_pod_tags; [by apply suffixed_name_nonempty | done].
Qed.

(** One more pod under a new name adds one to the count if the pod is active and owned. *)
Lemma active_count_insert rs m n p :
  m !! n = None ->
  active_count rs (<[n:=p]> m) =
  active_count rs m + (if IsPodActiveAndOwnedBy p (RS_ObjectMeta rs) then 1 else 0).
Proof.
  intros Hn. unfold active_count, active.
  assert (Hperm : (map_to_list (<[n:=p]> m)).*2 ≡ₚ p :: (map_to_list m).*2).
  { by rewrite map_to_list_insert. }
  rewrite (filter_bool_Permutation _ _ _ Hperm). cbn.
  destruct (IsPodActiveAndOwnedBy _ _); cbn [length]; lia.
Qed.

Lemma pending_pod_owned rs name c :
  IsPodActiveAndOwnedBy (pending_pod name c) (RS_ObjectMeta rs) =
  HasPrefix name (RS_Name rs).
Proof.
  unfold IsPodActiveAndOwnedBy, IsActive. rewrite bool_decide_eq_true_2 by done.
  apply andb_true_r.
Qed.

(** Every pod a scale-up adds is active, and all or none of them count. *)
Lemma creates_count rs base cs m m' (owned : bool) :
  (forall s, random_suffix s -> HasPrefix (Names.cut base +:+ s) (RS_Name rs) = owned) ->
  creates base cs m true m' ->
  active_count rs m' = active_count rs m + (if owned then Z.of_nat (length cs) else 0).
Proof.
  intros Hown Hc. remember true as b eqn:Hb.
  induction Hc as [m|c cs s m b m' Hs Hn _ IH|]; [destruct owned; cbn; lia| |done].
  rewrite IH by done. rewrite active_count_insert by done.
  rewrite pending_pod_owned, (Hown _ Hs).
  destruct owned; cbn [length]; lia.
Qed.

(** Names of at most 58 bytes stay a prefix of the generated ones. *)
Lemma generated_owned base s :
  (String.length base <= Names.MaxGeneratedNameLength)%nat ->
  HasPrefix (Names.cut base +:+ s) base = true.
Proof. intros Hb. unfold Names.cut. rewrite str_take_ge by done. apply HasPrefix_app. Qed.

(** Generated names have at most 63 bytes, so longer names are never a prefix. *)
Lemma generated_not_owned base s :
  (Names.maxNameLength < String.length base)%nat -> random_suffix s ->
  HasPrefix (Names.cut base +:+ s) base = false.
Proof.
  intros Hb [Hlen _]. apply not_true_iff_false. intros Hp%HasPrefix_length.
  unfold Names.cut in Hp. rewrite str_app_length, str_take_length, Hlen in Hp.
  change Names.MaxGeneratedNameLength with 58%nat in Hp.
  change Names.maxNameLength with 63%nat in Hb. lia.
Qed.

Section correctness.
Context {St : Storage} `{StorageLaws St W} `{!Names.RandFair W} `{ValidatorLaws}
  `{ObjectLaws Pod} `{ObjectLaws ReplicaSet}.
Variables mu_rs mu_pod fuel : nat.
Hypothesis Hfuel : (12 * Names.fair_draws <= fuel)%nat.

#[local] Abbreviation rsc :=
  (NewReplicaSetController (ReplicaSetRegistry.NewReplicaSetRegistry St mu_rs)
     (PodRegistry.NewPodRegistry St mu_pod)).
#[local] Abbreviation pods_view := (view (A:=Pod) PodRegistry.generateKey).
#[local] Abbreviation rs_view := (view (A:=ReplicaSet) ReplicaSetRegistry.generateKey).

(** A store change confined to the pods keeps the ReplicaSets, and the other way round. *)
Lemma rs_view_pods (w w' : W) m :
  rs_view w m -> unchanged_outside PodRegistry.pod_key w w' -> rs_view w' m.
Proof. intros Hv Hu. eapply view_unchanged; [done..|]. by intros n. Qed.

Lemma pods_view_rs (w w' : W) m :
  pods_view w m -> unchanged_outside ReplicaSetRegistry.rs_key w w' -> pods_view w' m.
Proof. intros Hv Hu. eapply view_unchanged; [done..|]. by intros n. Qed.

Lemma after_draws_store j (w : W) :
  stored (Names.after_draws j w) = stored w /\ (up w -> up (Names.after_draws j w)).
Proof.
  revert w; induction j as [|j IH]; intros w; cbn [Names.after_draws]; [done|].
  destruct (IH (handle RandInt63 w).2) as [Hs Hu]. split.
  - rewrite Hs. by apply local_stored.
  - intros Hup. by apply Hu, local_up.
Qed.

Lemma generate_spec base (w : W) :
  twp (generatePodNameFromReplicaSet fuel base) (fun name w' =>
    stored w' = stored w /\ (up w -> up w') /\
    exists s, random_suffix s /\ name = Names.cut base +:+ s) w.
Proof.
  destruct (Names.fair (rng w)) as [s Hs].
  destruct (Names.GenerateName_run fuel base _ w s Hfuel Hs) as (j & _ & Hrun).
  apply twp_run. exists (Names.cut base +:+ s), (Names.after_draws j w).
  split; [done|]. destruct (after_draws_store j w) as [Hst Hup].
  split; [done|]. split; [done|]. exists s. split; [|done].
  destruct (Names.String_pick fuel 5 Names.fair_draws w s) as (j' & _ & Hstr); [lia|done|done|].
  pose proof (Names.String_shape_wlp fuel 5 w) as Hshape. unfold wlp in Hshape.
  rewrite Hstr in Hshape. apply Hshape. lia.
Qed.

Lemma create_pods_spec base cs (w : W) m :
  up w -> pods_view w m -> Forall (fun c => Container_tags c = true) cs ->
  pods_storable base cs ->
  twp (create_pods rsc fuel base cs) (fun out w' =>
    up w' /\ unchanged_outside PodRegistry.pod_key w w' /\
    exists ok m', creates base cs m ok m' /\ pods_view w' m' /\
      if ok then out = Ok () else agrees out (Some PodRegistry.ErrPodAlreadyExists)) w.
Proof.
  intros Hup Hv Hcs Hst. revert w m Hup Hv.
  induction Hcs as [|c cs Hc _ IH]; intros w m Hup Hv; cbn [create_pods].
  { rewrite twp_ret. split; [done|]. split; [by apply unchanged_same|].
    exists true, m. eauto using creates. }
  prog_step. eapply twp_mono; [apply generate_spec|].
  intros name w1 (Hs1 & Hup1 & s & Hs & ->). prog_step. eapply twp_mono.
  { apply (PodRegistry.CreatePod_spec mu_pod w1 m); [by apply Hup1|by eapply view_same|].
    apply Hst; [done|by left]. }
  intros [out p] w2. unfold PodRegistry.spec_CreatePod.
  change (PodRegistry.default_status (new_pod ?n c)) with (pending_pod n c).
  change (Pod_Name (new_pod ?n c)) with n.
  destruct (m !! (Names.cut base +:+ s)) as [q|] eqn:Hm.
  { intros (Hout & _ & Hv2 & Hfr & Hu). cbn [fst] in *. destruct out as [|e]; [done|].
    rewrite twp_ret. split; [by eapply frame_up; [|by apply Hup1]|]. split.
    { eapply unchanged_trans; [by apply unchanged_same|done]. }
    exists false, m. split; [by eapply creates_clash|done]. }
  change (Pod_tags (new_pod ?n c)) with (Pod_tags (pending_pod n c)).
  rewrite pending_pod_tags by (done || by apply suffixed_name_nonempty).
  intros (Hout & _ & Hv2 & Hfr & Hu). cbn [fst] in *. destruct out as [[]|e]; [|done].
  assert (Hst' : pods_storable base cs) by (intros t d ? ?; apply Hst; [done|by right]).
  eapply twp_mono; [apply (IH Hst' w2 _ (frame_up _ _ Hfr (Hup1 Hup)) Hv2)|].
  intros out w3 (Hup3 & Hu3 & ok & m' & Hcr & Hv3 & Hout'). split; [done|]. split.
  { eapply unchanged_trans; [|done]. eapply unchanged_trans; [by apply unchanged_same|done]. }
  exists ok, m'. split; [by eapply creates_next|done].
Qed.

Lemma create_replicas_spec base cs n (w : W) m :
  up w -> pods_view w m -> Forall (fun c => Container_tags c = true) cs ->
  pods_storable base cs ->
  twp (create_replicas rsc fuel base cs n) (fun out w' =>
    up w' /\ unchanged_outside PodRegistry.pod_key w w' /\
    exists ok m', creates base (replica_containers n cs) m ok m' /\ pods_view w' m' /\
      if ok then out = Ok () else agrees out (Some PodRegistry.ErrPodAlreadyExists)) w.
Proof.
  intros Hup Hv Hcs Hst. revert w m Hup Hv.
  induction n as [|n IH]; intros w m Hup Hv; cbn [create_replicas].
  { rewrite twp_ret. split; [done|]. split; [by apply unchanged_same|].
    exists true, m. eauto using creates. }
  prog_step. eapply twp_mono; [by apply (create_pods_spec base cs w m)|].
  intros out w1 (Hup1 & Hu1 & ok & m1 & Hcr & Hv1 & Hout). destruct ok.
  - subst out. eapply twp_mono; [by apply (IH w1 m1)|].
    intros out w2 (Hup2 & Hu2 & ok & m' & Hcr' & Hv2 & Hout). split; [done|].
    split; [by eapply unchanged_trans|]. exists ok, m'.
    split; [by eapply creates_app|done].
  - destruct out as [|e]; [done|]. rewrite twp_ret. split; [done|]. split; [done|].
    exists false, m1. split; [by apply creates_app_fail|done].
Qed.

(** The reads of [Reconcile]: the stored ReplicaSet and its active pods. *)
Lemma Reconcile_reads rs cur (w : W) m rsm Q :
  up w -> pods_view w m -> rs_view w rsm -> rsm !! RS_Name rs = Some cur ->
  (forall w1, up w1 -> stored w1 = stored w ->
    let n := active_count cur m in
    let desired := RSSpec_Replicas (RS_Spec cur) in
    let cur' := set_status_replicas (int32 desired) cur in
    twp (if n <? desired then
           out ← create_replicas rsc fuel (RS_Name cur) (template_containers cur)
                   (Z.to_nat (desired - n));
           match out with
           | Err err => mret (Err err)
           | Ok _ => ReplicaSetRegistry.Update (replicaSetRegistry rsc) cur'
           end
         else if desired <? n then ReplicaSetRegistry.Update (replicaSetRegistry rsc) cur'
         else mret (Ok ())) Q w1) ->
  twp (Reconcile rsc fuel rs) Q w.
Proof.
  intros Hup Hv Hrv Hcur Hrest. unfold Reconcile. prog_step.
  eapply twp_mono; [by apply (ReplicaSetRegistry.Get_spec mu_rs w rsm)|].
  rewrite Hcur. intros got w1 (Hfr1 & Hs1 & ->). prog_step. eapply twp_mono.
  { apply (PodRegistry.ListPods_spec mu_pod w1 m); [by eauto with gokube|].
    by eapply view_same. }
  intros got w2 (Hfr2 & Hs2 & objs & Hperm & ->).
  unfold getPodsForReplicaSet. rewrite !elems_append_slice. cbn [app elems default].
  change (elems None ++ ?l) with l.
  assert (Hlen : length (List.filter (fun pod =>
    IsPodActiveAndOwnedBy pod (RS_ObjectMeta cur)) objs) = length (active cur m)).
  { by rewrite (filter_bool_Permutation _ _ _ Hperm). }
  rewrite !Hlen. apply (Hrest w2); [|by rewrite Hs2].
  exact (frame_up _ _ Hfr2 (frame_up _ _ Hfr1 Hup)).
Qed.

Lemma Update_status cur n (w : W) rsm :
  up w -> rs_view w rsm -> rsm !! RS_Name cur = Some cur -> storable (set_status_replicas n cur) ->
  twp (ReplicaSetRegistry.Update (replicaSetRegistry rsc) (set_status_replicas n cur))
    (fun out w' => out = Ok () /\ up w' /\
       rs_view w' (<[RS_Name cur := set_status_replicas n cur]> rsm) /\
       unchanged_outside ReplicaSetRegistry.rs_key w w') w.
Proof.
  intros Hup Hv Hcur Hst. eapply twp_mono.
  { by apply (ReplicaSetRegistry.Update_spec mu_rs w rsm). }
  intros out w'. unfold ReplicaSetRegistry.spec_Update.
  change (RS_Name (set_status_replicas n cur)) with (RS_Name cur). rewrite Hcur.
  intros (Hout & Hv' & Hfr & Hu). destruct out as [[]|]; [|done].
  eauto using frame_up.
Qed.

(** ** One reconciliation of a stored ReplicaSet *)

(** The ReplicaSet with the status [Reconcile] records. *)
Definition recorded (cur : ReplicaSet) : ReplicaSet :=
  set_status_replicas (RSSpec_Replicas (RS_Spec cur)) cur.

(** A ReplicaSet [Reconcile] can work on: its count is an int32, its template's containers
    are valid, and what is written for it survives the encoding. *)
Definition reconcilable (cur : ReplicaSet) : Prop :=
  int32_range (RSSpec_Replicas (RS_Spec cur)) /\
  Forall (fun c => Container_tags c = true) (template_containers cur) /\
  pods_storable (RS_Name cur) (template_containers cur) /\
  storable (recorded cur).

Definition gap (cur : ReplicaSet) (m : gmap string Pod) : nat :=
  Z.to_nat (RSSpec_Replicas (RS_Spec cur) - active_count cur m).

(** The keys the controller writes. *)
Definition controller_key (k : string) : Prop :=
  PodRegistry.pod_key k \/ ReplicaSetRegistry.rs_key k.

(** What one [Reconcile] may do to the pods [m] and the ReplicaSets [rsm]. *)
Definition reconciled (cur : ReplicaSet) (m : gmap string Pod)
    (rsm : gmap string ReplicaSet) (out : result unit) (m' : gmap string Pod)
    (rsm' : gmap string ReplicaSet) : Prop :=
  match Z.compare (active_count cur m) (RSSpec_Replicas (RS_Spec cur)) with
  | Lt => exists ok,
      creates (RS_Name cur) (replica_containers (gap cur m) (template_containers cur)) m ok m' /\
      if ok then out = Ok () /\ rsm' = <[RS_Name cur := recorded cur]> rsm
      else agrees out (Some PodRegistry.ErrPodAlreadyExists) /\ rsm' = rsm
  | Eq => out = Ok () /\ m' = m /\ rsm' = rsm
  | Gt => out = Ok () /\ m' = m /\ rsm' = <[RS_Name cur := recorded cur]> rsm
  end.

Lemma unchanged_controller (w w' : W) :
  unchanged_outside PodRegistry.pod_key w w' \/
  unchanged_outside ReplicaSetRegistry.rs_key w w' ->
  unchanged_outside controller_key w w'.
Proof. intros [Hu|Hu]; (eapply unchanged_mono; [done|]); unfold controller_key; auto. Qed.

Lemma Reconcile_spec rs cur (w : W) m rsm :
  up w -> pods_view w m -> rs_view w rsm -> rsm !! RS_Name rs = Some cur ->
  RS_Name cur = RS_Name rs -> reconcilable cur ->
  twp (Reconcile rsc fuel rs) (fun out w' =>
    up w' /\ unchanged_outside controller_key w w' /\
    (active_count cur m = RSSpec_Replicas (RS_Spec cur) -> stored w' = stored w) /\
    exists m' rsm', pods_view w' m' /\ rs_view w' rsm' /\
      reconciled cur m rsm out m' rsm') w.
Proof.
  intros Hup Hv Hrv Hcur Hname (Hr & Hcs & Hps & Hst).
  eapply Reconcile_reads; [done..|]. intros w1 Hup1 Hs1. cbn zeta.
  rewrite int32_id by done. fold (recorded cur). unfold reconciled, gap.
  pose proof (view_same _ _ _ _ Hv Hs1) as Hv1. pose proof (view_same _ _ _ _ Hrv Hs1) as Hrv1.
  rewrite <- Hname in Hcur.
  pose proof (unchanged_same controller_key _ _ Hs1) as Hu1.
  destruct (Z.compare_spec (active_count cur m) (RSSpec_Replicas (RS_Spec cur)))
    as [Heq|Hlt|Hgt].
  - rewrite Heq, Z.ltb_irrefl, twp_ret. eauto 10.
  - rewrite (proj2 (Z.ltb_lt _ _) Hlt). prog_step. eapply twp_mono.
    { by apply (create_replicas_spec (RS_Name cur) _ _ w1 m). }
    intros out w2 (Hup2 & Hu2 & ok & m' & Hcr & Hv2 & Hout).
    pose proof (unchanged_trans _ _ _ _ Hu1
      (unchanged_controller _ _ (or_introl Hu2))) as Hu.
    pose proof (rs_view_pods _ _ _ Hrv1 Hu2) as Hrv2. destruct ok.
    + subst out. eapply twp_mono; [by apply (Update_status cur _ w2 rsm)|].
      intros out w3 (-> & Hup3 & Hrv3 & Hu3). split; [done|]. split.
      { eapply unchanged_trans; [done|]. apply unchanged_controller. by right. }
      split; [lia|]. exists m', (<[RS_Name cur := recorded cur]> rsm).
      split; [by eapply pods_view_rs|]. split; [done|]. by exists true.
    + destruct out as [|e]; [done|]. rewrite twp_ret. split; [done|]. split; [done|].
      split; [lia|]. exists m', rsm. split; [done|]. split; [done|]. by exists false.
  - rewrite (proj2 (Z.ltb_ge _ _)) by lia. rewrite (proj2 (Z.ltb_lt _ _) Hgt).
    eapply twp_mono; [by apply (Update_status cur _ w1 rsm)|].
    intros out w2 (-> & Hup2 & Hrv2 & Hu2). split; [done|]. split.
    { eapply unchanged_trans; [done|]. apply unchanged_controller. by right. }
    split; [lia|]. exists m, (<[RS_Name cur := recorded cur]> rsm).
    split; [by eapply pods_view_rs|]. done.
Qed.
End correctness.

(** ** Properties *)

Section properties.
Context {St : Storage} `{StorageLaws St W} `{!Names.RandFair W} `{ValidatorLaws}
  `{ObjectLaws Pod} `{ObjectLaws ReplicaSet}.
Variables mu_rs mu_pod fuel : nat.
Hypothesis Hfuel : (12 * Names.fair_draws <= fuel)%nat.

#[local] Abbreviation rsc :=
  (NewReplicaSetController (ReplicaSetRegistry.NewReplicaSetRegistry St mu_rs)
     (PodRegistry.NewPodRegistry St mu_pod)).
#[local] Abbreviation pods_view := (view (A:=Pod) PodRegistry.generateKey).
#[local] Abbreviation rs_view := (view (A:=ReplicaSet) ReplicaSetRegistry.generateKey).

(** The world holds the pods [m] and the ReplicaSets [rsm], among them [cur] under the
    name of [rs]. *)
Definition holds (w : W) (m : gmap string Pod) (rsm : gmap string ReplicaSet)
    (rs cur : ReplicaSet) : Prop :=
  up w /\ pods_view w m /\ rs_view w rsm /\
  rsm !! RS_Name rs = Some cur /\ RS_Name cur = RS_Name rs.

Lemma Reconcile_holds w m rsm rs cur :
  holds w m rsm rs cur -> reconcilable cur ->
  twp (Reconcile rsc fuel rs) (fun out w' =>
    up w' /\ unchanged_outside controller_key w w' /\
    (active_count cur m = RSSpec_Replicas (RS_Spec cur) -> stored w' = stored w) /\
    exists m' rsm', pods_view w' m' /\ rs_view w' rsm' /\
      reconciled cur m rsm out m' rsm') w.
Proof. intros (? & ? & ? & ? & ?) Hok. by apply Reconcile_spec. Qed.

Lemma holds_recorded w m rsm rs cur (w' : W) m' :
  holds w m rsm rs cur -> up w' -> pods_view w' m' ->
  rs_view w' (<[RS_Name cur := recorded cur]> rsm) ->
  holds w' m' (<[RS_Name cur := recorded cur]> rsm) rs (recorded cur).
Proof.
  intros (_ & _ & _ & _ & Hname) Hup Hv Hrv. split; [done|]. split; [done|].
  split; [done|]. rewrite <- Hname. split; [apply lookup_insert_eq|done].
Qed.

(** The scale-up branch, when the creation did not fail. *)
Lemma reconciled_up cur m rsm m' rsm' :
  active_count cur m < RSSpec_Replicas (RS_Spec cur) ->
  reconciled cur m rsm (Ok ()) m' rsm' ->
  creates (RS_Name cur) (replica_containers (gap cur m) (template_containers cur)) m true m' /\
  rsm' = <[RS_Name cur := recorded cur]> rsm.
Proof.
  intros Hlt. unfold reconciled. rewrite (proj2 (Z.compare_lt_iff _ _) Hlt).
  intros ([] & Hcr & Hout); [|by destruct Hout]. by destruct Hout.
Qed.

Lemma replica_count cur m :
  active_count cur m < RSSpec_Replicas (RS_Spec cur) ->
  Z.of_nat (length (replica_containers (gap cur m) (template_containers cur))) =
  (RSSpec_Replicas (RS_Spec cur) - active_count cur m) *
  Z.of_nat (length (template_containers cur)).
Proof. clear Hfuel. intros Hlt. rewrite replica_containers_length. unfold gap. lia. Qed.

Lemma active_count_recorded cur m : active_count (recorded cur) m = active_count cur m.
Proof. done. Qed.

(** C3: the outcome of [Reconcile] on every branch.  On a stored, well-formed ReplicaSet
    it always returns.  With too few active pods it creates one pending pod for each
    container and missing replica, under the ReplicaSet's name cut to 58 bytes and a
    random suffix, then records the desired count; if a name is taken it stops with
    [ErrPodAlreadyExists], the status unrecorded and the earlier pods kept.  With too many
    it changes no pod and records the desired count; with the right number it changes
    nothing.  Keys other than pods and ReplicaSets never change. *)
Theorem Reconcile_outcome (w : W) m rsm rs cur :
  holds w m rsm rs cur -> reconcilable cur ->
  exists out w' m' rsm', run (Reconcile rsc fuel rs) w = (Val out, w') /\
    pods_view w' m' /\ rs_view w' rsm' /\ reconciled cur m rsm out m' rsm' /\
    unchanged_outside controller_key w w'.
Proof.
  intros Hw Hok. pose proof (Reconcile_holds w m rsm rs cur Hw Hok) as Hrun.
  apply twp_run in Hrun as (out & w' & Hrun & _ & Hu & _ & m' & rsm' & Hv & Hrv & Hr).
  eauto 10.
Qed.

(** C19: [Reconcile] converges for templates with one container and names of at most 58
    bytes.  A scale-up that returns nil leaves exactly the desired number of active
    pods, records that number, and a second [Reconcile] returns nil and changes nothing. *)
Theorem Reconcile_converges (w : W) m rsm rs cur :
  holds w m rsm rs cur -> reconcilable cur ->
  (String.length (RS_Name cur) <= Names.MaxGeneratedNameLength)%nat ->
  length (template_containers cur) = 1%nat ->
  active_count cur m < RSSpec_Replicas (RS_Spec cur) ->
  twp (Reconcile rsc fuel rs) (fun out w1 =>
    out = Ok () ->
    (exists m1, pods_view w1 m1 /\ active_count cur m1 = RSSpec_Replicas (RS_Spec cur)) /\
    rs_view w1 (<[RS_Name cur := recorded cur]> rsm) /\
    twp (Reconcile rsc fuel rs) (fun out w2 => out = Ok () /\ stored w2 = stored w1) w1) w.
Proof.
  intros Hw Hok Hlen Hone Hlt. eapply twp_mono; [by apply Reconcile_holds|].
  intros out w1 (Hup & _ & _ & m1 & rsm1 & Hv1 & Hrv1 & Hr) ->.
  apply reconciled_up in Hr as [Hcr ->]; [|done].
  assert (Hcount : active_count cur m1 = RSSpec_Replicas (RS_Spec cur)).
  { rewrite (creates_count cur _ _ _ _ true) with (2:=Hcr).
    - rewrite replica_count, Hone by done. lia.
    - intros s _. by apply generated_owned. }
  split; [by exists m1|]. split; [done|].
  pose proof (holds_recorded _ _ _ _ _ _ _ Hw Hup Hv1 Hrv1) as Hw1.
  eapply twp_mono; [by apply (Reconcile_holds _ _ _ _ _ Hw1)|].
  intros out w2 (_ & _ & Hs & m2 & rsm2 & _ & _ & Hr2). split; [|by apply Hs].
  unfold reconciled in Hr2. rewrite active_count_recorded, Hcount in Hr2.
  change (RSSpec_Replicas (RS_Spec (recorded cur))) with (RSSpec_Replicas (RS_Spec cur)) in Hr2.
  rewrite Z.compare_refl in Hr2. by destruct Hr2.
Qed.

(** A scale-up creates a pod per container, not per replica.  For names of at most 58
    bytes the active pods become [current + (desired - current) * containers], so a
    template with two containers overshoots and one without containers creates nothing;
    the recorded status is the desired count in every case.  Pods that existed stay. *)
Theorem Reconcile_pod_count (w : W) m rsm rs cur :
  holds w m rsm rs cur -> reconcilable cur ->
  (String.length (RS_Name cur) <= Names.MaxGeneratedNameLength)%nat ->
  active_count cur m < RSSpec_Replicas (RS_Spec cur) ->
  twp (Reconcile rsc fuel rs) (fun out w' =>
    exists m', pods_view w' m' /\ m ⊆ m' /\
      (out = Ok () ->
       rs_view w' (<[RS_Name cur := recorded cur]> rsm) /\
       active_count cur m' = active_count cur m +
         (RSSpec_Replicas (RS_Spec cur) - active_count cur m) *
         Z.of_nat (length (template_containers cur)))) w.
Proof.
  intros Hw Hok Hlen Hlt. eapply twp_mono; [by apply Reconcile_holds|].
  intros out w1 (_ & _ & _ & m1 & rsm1 & Hv1 & Hrv1 & Hr). exists m1. split; [done|]. split.
  { unfold reconciled in Hr. rewrite (proj2 (Z.compare_lt_iff _ _) Hlt) in Hr.
    destruct Hr as (ok & Hcr & _). by eapply creates_keeps. }
  intros ->. apply reconciled_up in Hr as [Hcr ->]; [|done]. split; [done|].
  rewrite (creates_count cur _ _ _ _ true) with (2:=Hcr);
    [by rewrite replica_count | intros s _; by apply generated_owned].
Qed.

(** Names longer than 63 bytes never converge.  The generated pod names are cut, so no
    created pod counts as owned: after every successful [Reconcile] the pods of the
    ReplicaSet are as few as before, and the next one creates as many again. *)
Theorem Reconcile_long_name_diverges (w : W) m rsm rs cur :
  holds w m rsm rs cur -> reconcilable cur ->
  (Names.maxNameLength < String.length (RS_Name cur))%nat ->
  active_count cur m < RSSpec_Replicas (RS_Spec cur) ->
  twp (Reconcile rsc fuel rs) (fun out w' =>
    out = Ok () ->
    exists m', holds w' m' (<[RS_Name cur := recorded cur]> rsm) rs (recorded cur) /\
      active_count (recorded cur) m' = active_count cur m /\
      Z.of_nat (size m') = Z.of_nat (size m) +
        (RSSpec_Replicas (RS_Spec cur) - active_count cur m) *
        Z.of_nat (length (template_containers cur))) w.
Proof.
  intros Hw Hok Hlen Hlt. eapply twp_mono; [by apply Reconcile_holds|].
  intros out w1 (Hup & _ & _ & m1 & rsm1 & Hv1 & Hrv1 & Hr) ->.
  apply reconciled_up in Hr as [Hcr ->]; [|done]. exists m1.
  split; [by eapply holds_recorded|].
  rewrite active_count_recorded, (creates_count cur _ _ _ _ false) with (2:=Hcr).
  - split; [lia|]. rewrite <- replica_count by done. by apply creates_size in Hcr as ->.
  - intros s Hs. by apply generated_not_owned.
Qed.

(** ** All ReplicaSets *)

(** What [Reconcile] never changes of the ReplicaSets: everything but the status. *)
Definition rs_specs (rsm : gmap string ReplicaSet)
  : gmap string (ObjectMeta * ReplicaSetSpec) :=
  (fun rs => (RS_ObjectMeta rs, RS_Spec rs)) <$> rsm.

Definition rs_wf (rsm : gmap string ReplicaSet) : Prop :=
  map_Forall (fun n rs => RS_Name rs = n /\ reconcilable rs) rsm.

(** From [w], holding [m] and [rsm], the controller got to [w']. *)
Definition progressed (w : W) (m : gmap string Pod) (rsm : gmap string ReplicaSet)
    (w' : W) : Prop :=
  up w' /\ unchanged_outside controller_key w w' /\
  exists m' rsm', pods_view w' m' /\ rs_view w' rsm' /\
    m ⊆ m' /\ PodRegistry.pods_wf m' /\ rs_wf rsm' /\ rs_specs rsm' = rs_specs rsm.

Lemma rs_wf_recorded rsm cur :
  rs_wf rsm -> rsm !! RS_Name cur = Some cur ->
  rs_wf (<[RS_Name cur := recorded cur]> rsm) /\
  rs_specs (<[RS_Name cur := recorded cur]> rsm) = rs_specs rsm.
Proof.
  intros Hwf Hcur. split.
  - apply map_Forall_insert_2; [|done]. split; [done|]. by destruct (Hwf _ _ Hcur).
  - unfold rs_specs. rewrite fmap_insert. apply insert_id. by rewrite lookup_fmap, Hcur.
Qed.

Lemma reconciled_inv cur m rsm out m' rsm' :
  reconciled cur m rsm out m' rsm' -> rsm !! RS_Name cur = Some cur ->
  PodRegistry.pods_wf m -> rs_wf rsm ->
  m ⊆ m' /\ PodRegistry.pods_wf m' /\ rs_wf rsm' /\ rs_specs rsm' = rs_specs rsm.
Proof.
  intros Hr Hcur Hwf Hrwf. pose proof (rs_wf_recorded _ _ Hrwf Hcur) as [? ?].
  destruct (Hrwf _ _ Hcur) as [_ (_ & Hcs & _)]. unfold reconciled in Hr.
  destruct (Z.compare _ _).
  - by destruct Hr as (_ & -> & ->).
  - destruct Hr as (ok & Hcr & Hout). split; [by eapply creates_keeps|].
    assert (Hrep : Forall (fun c => Container_tags c = true)
                     (replica_containers (gap cur m) (template_containers cur))).
    { unfold replica_containers. apply Forall_concat, Forall_replicate. done. }
    split; [by eapply creates_wf|]. destruct ok; destruct Hout as [_ ->]; done.
  - by destruct Hr as (_ & -> & ->).
Qed.

Lemma Reconcile_progress rs (w : W) m rsm :
  up w -> pods_view w m -> rs_view w rsm -> PodRegistry.pods_wf m -> rs_wf rsm ->
  is_Some (rsm !! RS_Name rs) ->
  twp (Reconcile rsc fuel rs) (fun _ w' => progressed w m rsm w') w.
Proof.
  intros Hup Hv Hrv Hwf Hrwf [cur Hcur]. destruct (Hrwf _ _ Hcur) as [Hname Hok].
  eapply twp_mono; [by apply (Reconcile_holds w m rsm rs cur)|].
  intros out w' (Hup' & Hu & _ & m' & rsm' & Hv' & Hrv' & Hr). split; [done|].
  split; [done|]. exists m', rsm'. split; [done|]. split; [done|].
  eapply reconciled_inv; [done| |done|done]. by rewrite Hname.
Qed.

Lemma rs_specs_is_Some rsm rsm' n :
  rs_specs rsm' = rs_specs rsm -> is_Some (rsm !! n) -> is_Some (rsm' !! n).
Proof.
  intros Heq [rs Hrs]. apply (f_equal (lookup n)) in Heq. unfold rs_specs in Heq.
  rewrite !lookup_fmap, Hrs in Heq. by destruct (rsm' !! n).
Qed.

Lemma reconcile_all_progress l (w : W) m rsm :
  up w -> pods_view w m -> rs_view w rsm -> PodRegistry.pods_wf m -> rs_wf rsm ->
  Forall (fun rs => is_Some (rsm !! RS_Name rs)) l ->
  exists o w', run (reconcile_all rsc fuel l) w = (o, w') /\
    (o = Val (Ok ()) \/ exists msg, o = Halted (Fatal msg)) /\ progressed w m rsm w'.
Proof.
  intros Hup Hv Hrv Hwf Hrwf Hl. revert w m rsm Hup Hv Hrv Hwf Hrwf Hl.
  induction l as [|rs l IH]; intros w m rsm Hup Hv Hrv Hwf Hrwf Hl; cbn [reconcile_all].
  { exists (Val (Ok ())), w. split; [done|]. split; [by left|]. split; [done|].
    split; [by apply unchanged_same|]. eauto 10. }
  apply Forall_cons in Hl as [Hrs Hl].
  pose proof (Reconcile_progress rs w m rsm Hup Hv Hrv Hwf Hrwf Hrs) as Hrun.
  apply twp_run in Hrun as (out & w1 & Hrun & Hp). rewrite run_bind, Hrun.
  destruct out as [[]|e]; [|by eauto 10].
  destruct Hp as (Hup1 & Hu1 & m1 & rsm1 & Hv1 & Hrv1 & Hm1 & Hwf1 & Hrwf1 & Hsp1).
  destruct (IH w1 m1 rsm1 Hup1 Hv1 Hrv1 Hwf1 Hrwf1) as (o & w2 & Hrun2 & Ho & Hp2).
  { eapply Forall_impl; [exact Hl|]. intros r. by apply rs_specs_is_Some. }
  exists o, w2. split; [done|]. split; [done|].
  destruct Hp2 as (Hup2 & Hu2 & m2 & rsm2 & Hv2 & Hrv2 & Hm2 & Hwf2 & Hrwf2 & Hsp2).
  split; [done|]. split; [by eapply unchanged_trans|]. exists m2, rsm2.
  split; [done|]. split; [done|]. split; [by etrans|]. split; [done|].
  split; [done|]. by rewrite Hsp2.
Qed.

Lemma rs_wf_listed rsm objs :
  rs_wf rsm -> objs ≡ₚ (map_to_list rsm).*2 ->
  Forall (fun rs => is_Some (rsm !! RS_Name rs)) objs.
Proof.
  intros Hwf Hperm. rewrite Hperm. apply Forall_fmap, Forall_forall.
  intros [n rs] Hin%elem_of_map_to_list. cbn. destruct (Hwf _ _ Hin) as [-> _]. by eexists.
Qed.

(** C24: a round of the controller is safe.  Over a store that answers and holds
    well-formed objects, [Run] either returns nil or ends the process; either way no pod
    was removed or changed, the pods that were added are well-formed, of the ReplicaSets
    at most the status changed, and no other key did. *)
Theorem Run_preserves (w : W) m rsm :
  up w -> pods_view w m -> rs_view w rsm -> ReplicaSetRegistry.no_stray_rs_keys w ->
  PodRegistry.pods_wf m -> rs_wf rsm ->
  exists o w', run (Run rsc fuel) w = (o, w') /\
    (o = Val (Ok ()) \/ exists msg, o = Halted (Fatal msg)) /\ progressed w m rsm w'.
Proof.
  intros Hup Hv Hrv Hstray Hwf Hrwf.
  pose proof (ReplicaSetRegistry.List_spec mu_rs w rsm Hup Hrv Hstray) as Hlist.
  apply twp_run in Hlist as (out & w1 & Hlist & Hfr & Hs & objs & Hperm & ->).
  unfold Run. rewrite run_bind. cbn [replicaSetRegistry NewReplicaSetController].
  rewrite Hlist, elems_append_slice. change (elems None ++ objs) with objs.
  destruct (reconcile_all_progress objs w1 m rsm) as (o & w2 & Hrun & Ho & Hup2 & Hu2 & Hp);
    eauto using frame_up, view_same, rs_wf_listed.
  exists o, w2. split; [done|]. split; [done|]. split; [done|]. split; [|done].
  eapply unchanged_trans; [by apply unchanged_same|done].
Qed.

(** One failing ReplicaSet ends the controller.  If [Reconcile] of a listed
    ReplicaSet returns an error after the earlier ones succeeded, the process exits with
    that error in the state it left; the ReplicaSets after it are not visited and
    [Start]'s own error handling is never reached. *)
Theorem reconcile_all_fatal (l1 l2 : list ReplicaSet) rs (w w1 w2 : W) err :
  run (reconcile_all rsc fuel l1) w = (Val (Ok ()), w1) ->
  run (Reconcile rsc fuel rs) w1 = (Val (Err err), w2) ->
  run (reconcile_all rsc fuel (l1 ++ rs :: l2)) w =
  (Halted (Fatal ("failed to reconcile: " +:+ Error err)), w2).
Proof.
  revert w; induction l1 as [|r l1 IH]; intros w Hrun Herr;
    cbn [reconcile_all app] in Hrun |- *.
  { injection Hrun as ->. rewrite run_bind, Herr. done. }
  rewrite run_bind in Hrun |- *.
  destruct (run (Reconcile rsc fuel r) w) as [[[[]|e]|h] w']; [|done|done].
  by apply IH.
Qed.
End properties.

(** ** The properties at concrete inputs *)

Module Witness.
Definition c1 : Container := mkContainer "web" "nginx".
Definition c2 : Container := mkContainer "log" "fluent".
Definition template (cs : list Container) : PodTemplateSpec :=
  mkPodTemplateSpec (meta_named "t") (mkPodSpec (Some cs) 1).
Definition replica_set (name : string) (n : Z) (cs : list Container) : ReplicaSet :=
  mkReplicaSet (meta_named name) (mkReplicaSetSpec n None (template cs))
    (mkReplicaSetStatus 0 0 0 0).
Definition web : ReplicaSet := replica_set "web" 2 [c1].
Definition pair : ReplicaSet := replica_set "pair" 3 [c1; c2].
Definition long : ReplicaSet :=
  replica_set "a-name-that-takes-up-more-than-sixty-three-bytes-in-its-full-length" 1 [c1].
Definition world_of (rs : ReplicaSet) : ref_world :=
  world_with {[ ReplicaSetRegistry.generateKey (RS_Name rs) := ser_put rs "" ]}.
Definition rsc : ReplicaSetController :=
  NewReplicaSetController
    (ReplicaSetRegistry.NewReplicaSetRegistry EtcdStorage.NewEtcdStorage 1)
    (PodRegistry.NewPodRegistry EtcdStorage.NewEtcdStorage 2).
End Witness.

Lemma world_of_holds rs : holds (Witness.world_of rs) ∅ {[ RS_Name rs := rs ]} rs rs.
Proof.
  split; [apply Forall_nil_2|]. split.
  { intros n. cbn. rewrite lookup_singleton_ne, lookup_empty; done. }
  split.
  { eapply (view_insert _ empty_world _ ∅ (RS_Name rs)); [|reflexivity|].
    - intros n. by rewrite !lookup_empty.
    - destruct (Decode_Encode rs) as (d & [= <-] & Hd); [exact I | exact Hd]. }
  split; [apply lookup_singleton_eq | done].
Qed.

Lemma ref_fuel : (12 * Names.fair_draws (W:=ref_world) <= 12)%nat.
Proof. exact (le_n 12). Qed.

Lemma replica_set_reconcilable name n cs :
  int32_range n -> Forall (fun c => Container_tags c = true) cs ->
  reconcilable (Witness.replica_set name n cs).
Proof. by split. Qed.

Lemma web_reconcilable : reconcilable Witness.web.
Proof. apply replica_set_reconcilable; [done | by repeat constructor]. Qed.

Lemma Reconcile_outcome_witness :
  exists out w' m' rsm',
    run (Reconcile Witness.rsc 12 Witness.web) (Witness.world_of Witness.web) = (Val out, w') /\
    view (A:=Pod) PodRegistry.generateKey w' m' /\
    view (A:=ReplicaSet) ReplicaSetRegistry.generateKey w' rsm' /\
    reconciled Witness.web ∅ {[ "web" := Witness.web ]} out m' rsm' /\
    unchanged_outside controller_key (Witness.world_of Witness.web) w'.
Proof.
  apply (Reconcile_outcome (St:=EtcdStorage.NewEtcdStorage) 1 2 12 ref_fuel
    (Witness.world_of Witness.web) ∅ {[ "web" := Witness.web ]} Witness.web Witness.web);
    [apply world_of_holds | apply web_reconcilable].
Defined.

Lemma Reconcile_converges_witness :
  twp (Reconcile Witness.rsc 12 Witness.web) (fun out w1 =>
    out = Ok () ->
    (exists m1, view (A:=Pod) PodRegistry.generateKey w1 m1 /\
       active_count Witness.web m1 = 2) /\
    view (A:=ReplicaSet) ReplicaSetRegistry.generateKey w1
      (<[ "web" := recorded Witness.web ]> {[ "web" := Witness.web ]}) /\
    twp (Reconcile Witness.rsc 12 Witness.web)
      (fun out w2 => out = Ok () /\ stored w2 = stored w1) w1)
    (Witness.world_of Witness.web).
Proof.
  apply (Reconcile_converges (St:=EtcdStorage.NewEtcdStorage) 1 2 12 ref_fuel
    (Witness.world_of Witness.web) ∅ {[ "web" := Witness.web ]} Witness.web Witness.web);
    [apply world_of_holds | apply web_reconcilable | vm_compute; lia
    | reflexivity | reflexivity].
Defined.

Lemma Reconcile_pod_count_witness :
  twp (Reconcile Witness.rsc 12 Witness.pair) (fun out w' =>
    exists m', view (A:=Pod) PodRegistry.generateKey w' m' /\ ∅ ⊆ m' /\
      (out = Ok () ->
       view (A:=ReplicaSet) ReplicaSetRegistry.generateKey w'
         (<[ "pair" := recorded Witness.pair ]> {[ "pair" := Witness.pair ]}) /\
       active_count Witness.pair m' = active_count Witness.pair ∅ +
         (3 - active_count Witness.pair ∅) * 2))
    (Witness.world_of Witness.pair).
Proof.
  apply (Reconcile_pod_count (St:=EtcdStorage.NewEtcdStorage) 1 2 12 ref_fuel
    (Witness.world_of Witness.pair) ∅ {[ "pair" := Witness.pair ]} Witness.pair Witness.pair);
    [apply world_of_holds
    | apply replica_set_reconcilable; [done | by repeat constructor]
    | vm_compute; lia | reflexivity].
Defined.

Lemma Reconcile_long_name_diverges_witness :
  twp (Reconcile Witness.rsc 12 Witness.long) (fun out w' =>
    out = Ok () ->
    exists m', holds w' m'
        (<[ RS_Name Witness.long := recorded Witness.long ]>
           {[ RS_Name Witness.long := Witness.long ]}) Witness.long (recorded Witness.long) /\
      active_count (recorded Witness.long) m' = active_count Witness.long ∅ /\
      Z.of_nat (size m') = Z.of_nat (size (∅ : gmap string Pod)) +
        (RSSpec_Replicas (RS_Spec Witness.long) - active_count Witness.long ∅) *
        Z.of_nat (length (template_containers Witness.long)))
    (Witness.world_of Witness.long).
Proof.
  apply (Reconcile_long_name_diverges (St:=EtcdStorage.NewEtcdStorage) 1 2 12 ref_fuel
    (Witness.world_of Witness.long) ∅ {[ RS_Name Witness.long := Witness.long ]}
    Witness.long Witness.long);
    [apply world_of_holds
    | apply replica_set_reconcilable; [done | by repeat constructor]
    | vm_compute; lia | reflexivity].
Defined.

(** The scale-up of the examples above does succeed. *)
Lemma reconcile_web_ok :
  (run (Reconcile Witness.rsc 12 Witness.web) (Witness.world_of Witness.web)).1 = Val (Ok ()).
Proof. vm_compute. reflexivity. Qed.

Lemma reconcile_long_ok :
  (run (Reconcile Witness.rsc 12 Witness.long) (Witness.world_of Witness.long)).1 = Val (Ok ()).
Proof. vm_compute. reflexivity. Qed.

Lemma Run_preserves_witness :
  exists o w',
    run (Run Witness.rsc 12) (Witness.world_of Witness.web) = (o, w') /\
    (o = Val (Ok ()) \/ exists msg, o = Halted (Fatal msg)) /\
    progressed (Witness.world_of Witness.web) ∅ {[ "web" := Witness.web ]} w'.
Proof.
  destruct (world_of_holds Witness.web) as (Hup & Hv & Hrv & _).
  apply (Run_preserves (St:=EtcdStorage.NewEtcdStorage) 1 2 12 ref_fuel
    (Witness.world_of Witness.web) ∅ {[ "web" := Witness.web ]});
    [done | done | done | | apply map_Forall_empty
    | apply map_Forall_singleton; split; [done | apply web_reconcilable]].
  intros k [d Hd] _. cbn in Hd. apply lookup_singleton_Some in Hd as [<- _]. reflexivity.
Defined.

Lemma reconcile_all_fatal_witness :
  exists w2,
  run (reconcile_all Witness.rsc 12 [Witness.web; Witness.pair; Witness.long])
    (Witness.world_of Witness.web) =
  (Halted (Fatal "failed to reconcile: replicaset not found: pair"), w2).
Proof.
  eexists.
  apply (reconcile_all_fatal (St:=EtcdStorage.NewEtcdStorage) 1 2 12
    [Witness.web] [Witness.long] Witness.pair (Witness.world_of Witness.web)
    (run (reconcile_all Witness.rsc 12 [Witness.web]) (Witness.world_of Witness.web)).2 _
    (Errorf_w ReplicaSetRegistry.ErrReplicaSetNotFound ": pair"));
    vm_compute; reflexivity.
Defined.
End Controller.
