(* ===== verification/Handlers.v ===== *)
(** * Handlers: the HTTP API (src/pkg/api/handlers, src/pkg/api/response.go,
      src/pkg/api/server/server.go)

    The handlers of pods, nodes and ReplicaSets with the filters that load the named
    object, and the route table of the API server.  A response is the list of writes made
    to it.  The HTTP library is outside the repository: how it finds the route of a
    request is not modelled, and decoding a request body ([ReadEntity]) is a parameter. *)

From S2P Require Import Prelude Errors Effects Api Storage Registry Reference GoPath.
From S2P Require Import PodRegistry NodeRegistry ReplicaSetRegistry.

(** ** Requests and responses *)

(** What a filter leaves in the request for the handler. *)
Inductive attribute :=
| APod (p : Pod)
| ANode (n : Node)
| AReplicaSet (rs : ReplicaSet).

(** [body] is the HTTP request as received, headers included. *)
Record Request := mkRequest {
  pathParameters : gmap string string;
  queryParameters : gmap string string;
  body : string;
  attributes : gmap string attribute }.

Definition PathParameter (req : Request) (name : string) : string :=
  default "" (pathParameters req !! name).
Definition QueryParameter (req : Request) (name : string) : string :=
  default "" (queryParameters req !! name).
Definition SetAttribute (req : Request) (name : string) (a : attribute) : Request :=
  mkRequest (pathParameters req) (queryParameters req) (body req)
    (<[name:=a]> (attributes req)).

(** [request.ReadEntity(new(A))]: the object of the request's body. *)
Class EntityReader (A : Type) := read_entity : string -> result A.

Definition ReadEntity `{EntityReader A} (req : Request) : result A := read_entity (body req).

Inductive entity :=
| EPod (p : Pod) | EPods (ps : slice Pod)
| ENode (n : Node) | ENodes (ns : slice Node)
| EReplicaSet (rs : ReplicaSet) | EReplicaSets (rss : slice ReplicaSet).

Inductive write :=
| WriteHeader (status : Z)
| WriteHeaderAndEntity (status : Z) (e : entity)
| WriteErr (status : Z) (err : error).

Definition Response : Type := list write.

(** net/http statuses *)
Definition StatusOK : Z := 200.
Definition StatusCreated : Z := 201.
Definition StatusNoContent : Z := 204.
Definition StatusBadRequest : Z := 400.
Definition StatusNotFound : Z := 404.
Definition StatusConflict : Z := 409.
Definition StatusInternalServerError : Z := 500.

(** response.go; a failure to write is logged and dropped. *)
Definition WriteResponse (response : Response) (status : Z) (e : option entity) : Response :=
  match e with
  | Some e => response ++ [WriteHeaderAndEntity status e]
  | None => response ++ [WriteHeader status]
  end.

Definition WriteError (response : Response) (status : Z) (err : error) : Response :=
  response ++ [WriteErr status err].

(** A handler, and the rest of a filter chain. *)
Definition Handler : Type := Request -> Response -> prog Response.

(** ** Pod handlers (handlers/pod.go) *)

Module PodHandler.

Record PodHandler := NewPodHandler { podRegistry : PodRegistry.PodRegistry }.

Definition podAttributeKey : string := "pod".

Section ops.
Context `{Validator, Object Pod, EntityReader Pod}.
Variable h : PodHandler.

Definition LoadPodIntoRequest (chain : Handler) : Handler := fun req resp =>
  let name := PathParameter req "name" in
  got ← PodRegistry.GetPod (podRegistry h) name;
  match got with
  | Err err =>
      if errors_Is err PodRegistry.ErrPodNotFound
      then mret (WriteError resp StatusNotFound err)
      else mret (WriteError resp StatusInternalServerError err)
  | Ok pod => chain (SetAttribute req podAttributeKey (APod pod)) resp
  end.

(** The conflict branch has no [return]: the response to success follows. *)
Definition CreatePod : Handler := fun request response =>
  match ReadEntity request with
  | Err err => mret (WriteError response StatusBadRequest err)
  | Ok pod =>
      out ← PodRegistry.CreatePod (podRegistry h) pod;
      let pod := out.2 in
      match out.1 with
      | Err err =>
          if errors_Is err PodRegistry.ErrPodAlreadyExists then
            let response := WriteError response StatusConflict err in
            mret (WriteResponse response StatusCreated (Some (EPod pod)))
          else if errors_Is err PodRegistry.ErrPodInvalid then
            mret (WriteError response StatusBadRequest err)
          else mret (WriteError response StatusInternalServerError err)
      | Ok _ => mret (WriteResponse response StatusCreated (Some (EPod pod)))
      end
  end.

Definition ListPods : Handler := fun request response =>
  let nodeName := QueryParameter request "nodeName" in
  got ← PodRegistry.ListPods (podRegistry h);
  match got with
  | Err err => mret (WriteError response StatusInternalServerError err)
  | Ok pods =>
      let pods := match pods with None => Some [] | Some _ => pods end in
      let pods :=
        if bool_decide (nodeName <> "")
        then Some (List.filter (fun pod => bool_decide (NodeName pod = nodeName)) (elems pods))
        else pods in
      mret (WriteResponse response StatusOK (Some (EPods pods)))
  end.

Definition no_attribute : error := ErrText "failed to retrieve pod from request attributes".

Definition GetPod : Handler := fun request response =>
  match attributes request !! podAttributeKey with
  | Some (APod pod) => mret (WriteResponse response StatusOK (Some (EPod pod)))
  | _ => mret (WriteError response StatusInternalServerError no_attribute)
  end.

Definition UpdatePod : Handler := fun request response =>
  match attributes request !! podAttributeKey with
  | Some (APod existingPod) =>
      match ReadEntity request with
      | Err err => mret (WriteError response StatusBadRequest err)
      | Ok updatedPod =>
          if bool_decide (Pod_Name existingPod <> Pod_Name updatedPod) then
            mret (WriteError response StatusBadRequest
                    (ErrText "pod name in URL does not match pod name in request body"))
          else
            out ← PodRegistry.UpdatePod (podRegistry h) updatedPod;
            match out with
            | Err err =>
                if errors_Is err PodRegistry.ErrPodInvalid
                then mret (WriteError response StatusBadRequest err)
                else mret (WriteError response StatusInternalServerError err)
            | Ok _ => mret (WriteResponse response StatusOK (Some (EPod updatedPod)))
            end
      end
  | _ => mret (WriteError response StatusInternalServerError no_attribute)
  end.

Definition DeletePod : Handler := fun request response =>
  match attributes request !! podAttributeKey with
  | Some (APod pod) =>
      out ← PodRegistry.DeletePod (podRegistry h) (Pod_Name pod);
      match out with
      | Err err => mret (WriteError response StatusInternalServerError err)
      | Ok _ => mret (WriteResponse response StatusNoContent None)
      end
  | _ => mret (WriteError response StatusInternalServerError no_attribute)
  end.

Definition ListUnassignedPods : Handler := fun _ response =>
  got ← PodRegistry.ListUnassignedPods (podRegistry h);
  match got with
  | Err err => mret (WriteError response StatusInternalServerError err)
  | Ok pods => mret (WriteResponse response StatusOK (Some (EPods pods)))
  end.
End ops.
End PodHandler.

(** ** Node handlers (handlers/node.go) *)

Module NodeHandler.

Record NodeHandler := NewNodeHandler { nodeRegistry : NodeRegistry.NodeRegistry }.

Definition nodeAttributeKey : string := "node".

Section ops.
Context `{Validator, Object Node, EntityReader Node}.
Variable h : NodeHandler.

Definition LoadNodeIntoRequest (chain : Handler) : Handler := fun req resp =>
  let name := PathParameter req "name" in
  got ← NodeRegistry.GetNode (nodeRegistry h) name;
  match got with
  | Err err =>
      if errors_Is err NodeRegistry.ErrNodeNotFound
      then mret (WriteError resp StatusNotFound err)
      else mret (WriteError resp StatusInternalServerError err)
  | Ok node => chain (SetAttribute req nodeAttributeKey (ANode node)) resp
  end.

Definition CreateNode : Handler := fun request response =>
  match ReadEntity request with
  | Err err => mret (WriteError response StatusBadRequest err)
  | Ok node =>
      out ← NodeRegistry.CreateNode (nodeRegistry h) node;
      match out with
      | Err err =>
          if errors_Is err NodeRegistry.ErrNodeAlreadyExists then
            mret (WriteError response StatusConflict err)
          else if errors_Is err NodeRegistry.ErrNodeInvalid then
            mret (WriteError response StatusBadRequest err)
          else mret (WriteError response StatusInternalServerError err)
      | Ok _ => mret (WriteResponse response StatusCreated (Some (ENode node)))
      end
  end.

Definition no_attribute : error := ErrText "failed to retrieve node from request attributes".

Definition GetNode : Handler := fun request response =>
  match attributes request !! nodeAttributeKey with
  | Some (ANode node) => mret (WriteResponse response StatusOK (Some (ENode node)))
  | _ => mret (WriteError response StatusInternalServerError no_attribute)
  end.

Definition UpdateNode : Handler := fun request response =>
  match attributes request !! nodeAttributeKey with
  | Some (ANode existingNode) =>
      match ReadEntity request with
      | Err err => mret (WriteError response StatusBadRequest err)
      | Ok node =>
          if bool_decide (Node_Name existingNode <> Node_Name node) then
            mret (WriteError response StatusBadRequest
                    (ErrText "node name in URL does not match the name in the request body"))
          else
            out ← NodeRegistry.UpdateNode (nodeRegistry h) node;
            match out with
            | Err err =>
                if errors_Is err NodeRegistry.ErrNodeInvalid
                then mret (WriteError response StatusBadRequest err)
                else mret (WriteError response StatusInternalServerError err)
            | Ok _ => mret (WriteResponse response StatusOK (Some (ENode node)))
            end
      end
  | _ => mret (WriteError response StatusInternalServerError no_attribute)
  end.

Definition DeleteNode : Handler := fun request response =>
  match attributes request !! nodeAttributeKey with
  | Some (ANode node) =>
      out ← NodeRegistry.DeleteNode (nodeRegistry h) (Node_Name node);
      match out with
      | Err err => mret (WriteError response StatusInternalServerError err)
      | Ok _ => mret (WriteResponse response StatusNoContent None)
      end
  | _ => mret (WriteError response StatusInternalServerError no_attribute)
  end.

Definition ListNodes : Handler := fun _ response =>
  got ← NodeRegistry.ListNodes (nodeRegistry h);
  match got with
  | Err err => mret (WriteError response StatusInternalServerError err)
  | Ok nodes => mret (WriteResponse response StatusOK (Some (ENodes nodes)))
  end.
End ops.
End NodeHandler.

(** ** ReplicaSet handlers (handlers/replicaset.go) *)

Module ReplicasetHandler.

Record ReplicasetHandler := NewReplicasetHandler {
  replicasetRegistry : ReplicaSetRegistry.ReplicaSetRegistry }.

Definition replicasetAttributeKey : string := "replicaset".

Section ops.
Context `{Object ReplicaSet, EntityReader ReplicaSet}.
Variable h : ReplicasetHandler.

Definition LoadReplicasetIntoRequest (chain : Handler) : Handler := fun req resp =>
  let name := PathParameter req "name" in
  got ← ReplicaSetRegistry.Get (replicasetRegistry h) name;
  match got with
  | Err err =>
      if errors_Is err ReplicaSetRegistry.ErrReplicaSetNotFound
      then mret (WriteError resp StatusNotFound err)
      else mret (WriteError resp StatusInternalServerError err)
  | Ok rs => chain (SetAttribute req replicasetAttributeKey (AReplicaSet rs)) resp
  end.

Definition CreateReplicaset : Handler := fun request response =>
  match ReadEntity request with
  | Err err => mret (WriteError response StatusBadRequest err)
  | Ok replicaset =>
      out ← ReplicaSetRegistry.Create (replicasetRegistry h) replicaset;
      match out with
      | Err err =>
          if errors_Is err ReplicaSetRegistry.ErrReplicaSetExists
          then mret (WriteError response StatusConflict err)
          else mret (WriteError response StatusInternalServerError err)
      | Ok _ => mret (WriteResponse response StatusCreated (Some (EReplicaSet replicaset)))
      end
  end.

Definition no_attribute : error :=
  ErrText "failed to retrieve replicaset from request attributes".

Definition GetReplicaset : Handler := fun request response =>
  match attributes request !! replicasetAttributeKey with
  | Some (AReplicaSet rs) => mret (WriteResponse response StatusOK (Some (EReplicaSet rs)))
  | _ => mret (WriteError response StatusInternalServerError no_attribute)
  end.

Definition UpdateReplicaset : Handler := fun request response =>
  match attributes request !! replicasetAttributeKey with
  | Some (AReplicaSet existing) =>
      match ReadEntity request with
      | Err err => mret (WriteError response StatusBadRequest err)
      | Ok replicaset =>
          if bool_decide (RS_Name existing <> RS_Name replicaset) then
            mret (WriteError response StatusBadRequest (ErrText
              "replicaset name in URL does not match the replicaset in the request body"))
          else
            out ← ReplicaSetRegistry.Update (replicasetRegistry h) replicaset;
            match out with
            | Err err => mret (WriteError response StatusInternalServerError err)
            | Ok _ => mret (WriteResponse response StatusOK (Some (EReplicaSet replicaset)))
            end
      end
  | _ => mret (WriteError response StatusInternalServerError no_attribute)
  end.

Definition DeleteReplicaset : Handler := fun request response =>
  match attributes request !! replicasetAttributeKey with
  | Some (AReplicaSet rs) =>
      out ← ReplicaSetRegistry.Delete (replicasetRegistry h) (RS_Name rs);
      match out with
      | Err err => mret (WriteError response StatusInternalServerError err)
      | Ok _ => mret (WriteResponse response StatusNoContent None)
      end
  | _ => mret (WriteError response StatusInternalServerError no_attribute)
  end.

Definition ListReplicasets : Handler := fun _ response =>
  got ← ReplicaSetRegistry.List (replicasetRegistry h);
  match got with
  | Err err => mret (WriteError response StatusInternalServerError err)
  | Ok replicasets => mret (WriteResponse response StatusOK (Some (EReplicaSets replicasets)))
  end.
End ops.
End ReplicasetHandler.

(** ** The server and its routes (server/server.go) *)

Module APIServer.

Record Route := mkRoute { r_method : string; r_path : string; r_handler : Handler }.

Record APIServer := mkAPIServer {
  nodeRegistry : NodeRegistry.NodeRegistry;
  podRegistry : PodRegistry.PodRegistry;
  replicasetRegistry : ReplicaSetRegistry.ReplicaSetRegistry }.

(** [mu1] and [mu2] are the new mutexes of the registries that have one. *)
Definition NewAPIServer (storage : Storage) (mu1 mu2 : nat) : APIServer :=
  mkAPIServer (NodeRegistry.NewNodeRegistry storage) (PodRegistry.NewPodRegistry storage mu1)
    (ReplicaSetRegistry.NewReplicaSetRegistry storage mu2).

Definition healthz : Handler := fun _ response =>
  mret (WriteResponse response StatusOK None).

Section routes.
Context `{Validator, Object Pod, Object Node, Object ReplicaSet}.
Context `{EntityReader Pod, EntityReader Node, EntityReader ReplicaSet}.

Definition RegisterPodRoutes (h : PodHandler.PodHandler) : list Route :=
  let load := PodHandler.LoadPodIntoRequest h in
  [ mkRoute "POST" "/pods" (PodHandler.CreatePod h);
    mkRoute "GET" "/pods" (PodHandler.ListPods h);
    mkRoute "GET" "/pods/{name}" (load PodHandler.GetPod);
    mkRoute "PUT" "/pods/{name}" (load (PodHandler.UpdatePod h));
    mkRoute "DELETE" "/pods/{name}" (load (PodHandler.DeletePod h));
    mkRoute "GET" "/pods/unassigned" (PodHandler.ListUnassignedPods h) ].

Definition RegisterNodeRoutes (h : NodeHandler.NodeHandler) : list Route :=
  let load := NodeHandler.LoadNodeIntoRequest h in
  [ mkRoute "POST" "/nodes" (NodeHandler.CreateNode h);
    mkRoute "GET" "/nodes" (NodeHandler.ListNodes h);
    mkRoute "GET" "/nodes/{name}" (load NodeHandler.GetNode);
    mkRoute "PUT" "/nodes/{name}" (load (NodeHandler.UpdateNode h));
    mkRoute "DELETE" "/nodes/{name}" (load (NodeHandler.DeleteNode h)) ].

Definition RegisterReplicasetRoutes (h : ReplicasetHandler.ReplicasetHandler) : list Route :=
  let load := ReplicasetHandler.LoadReplicasetIntoRequest h in
  [ mkRoute "POST" "/replicasets" (ReplicasetHandler.CreateReplicaset h);
    mkRoute "GET" "/replicasets" (ReplicasetHandler.ListReplicasets h);
    mkRoute "GET" "/replicasets/{name}" (load ReplicasetHandler.GetReplicaset);
    mkRoute "PUT" "/replicasets/{name}" (load (ReplicasetHandler.UpdateReplicaset h));
    mkRoute "DELETE" "/replicasets/{name}" (load (ReplicasetHandler.DeleteReplicaset h)) ].

(** The routes of the web service, under the path "/api/v1". *)
Definition registerRoutes (s : APIServer) : list Route :=
  mkRoute "GET" "/healthz" healthz ::
  RegisterPodRoutes (PodHandler.NewPodHandler (podRegistry s)) ++
  RegisterNodeRoutes (NodeHandler.NewNodeHandler (nodeRegistry s)) ++
  RegisterReplicasetRoutes (ReplicasetHandler.NewReplicasetHandler (replicasetRegistry s)).
End routes.
End APIServer.
