(* ===== verification/ApiServer.v ===== *)
(** * ApiServer: what the HTTP API promises

    The contract of the API server, stated once for all three kinds of objects: what each
    verb answers and does to the map of objects of a kind.  Every route of the server is
    proved to implement it over a store that answers, and sequences of requests to
    implement their composition.  A further group of facts holds for every world. *)

From S2P Require Import Prelude Errors Effects Api Storage Registry Reference GoPath.
From S2P Require Import PodRegistry NodeRegistry ReplicaSetRegistry Handlers.

(** ** The contract *)

Inductive answer := Status (s : Z) | StatusWith (s : Z) (e : entity).

(** A write to the response that gives an answer; error texts are free. *)
Definition writes (wr : write) (a : answer) : Prop :=
  match wr, a with
  | WriteHeader s, Status s' => s = s'
  | WriteErr s _, Status s' => s = s'
  | WriteHeaderAndEntity s e, StatusWith s' e' => s = s' /\ e = e'
  | _, _ => False
  end.

(** What the contract depends on of a kind of objects. *)
Record Kind (A : Type) := mkKind {
  k_name : A -> string;
  k_valid : A -> bool;
  k_default : A -> A;
  k_entity : A -> entity;
  k_conflict : A -> list answer }.
Arguments k_name {A}.
Arguments k_valid {A}.
Arguments k_default {A}.
Arguments k_entity {A}.
Arguments k_conflict {A}.

Definition PodKind : Kind Pod :=
  mkKind _ Pod_Name Pod_tags PodRegistry.default_status EPod
    (fun pod => [Status StatusConflict; StatusWith StatusCreated (EPod pod)]).
Definition NodeKind : Kind Node :=
  mkKind _ Node_Name Node_tags id ENode (fun _ => [Status StatusConflict]).
Definition ReplicaSetKind : Kind ReplicaSet :=
  mkKind _ RS_Name (fun _ => true) id EReplicaSet (fun _ => [Status StatusConflict]).

Inductive verb := GET | PUT | DELETE.

Section contract.
Context {A : Type} (K : Kind A).

(** Creating the object of a request's body. *)
Definition spec_post (body : result A) (m : gmap string A)
  : list answer * gmap string A :=
  match body with
  | Err _ => ([Status StatusBadRequest], m)
  | Ok a =>
      match m !! k_name K a with
      | Some _ => (k_conflict K a, m)
      | None =>
          if k_valid K a
          then ([StatusWith StatusCreated (k_entity K (k_default K a))],
                <[k_name K a := k_default K a]> m)
          else ([Status StatusBadRequest], m)
      end
  end.

(** A request about the object with a given name. *)
Definition spec_named (v : verb) (name : string) (body : result A) (m : gmap string A)
  : list answer * gmap string A :=
  match m !! name with
  | None => ([Status StatusNotFound], m)
  | Some a =>
      match v with
      | GET => ([StatusWith StatusOK (k_entity K a)], m)
      | DELETE => ([Status StatusNoContent], delete name m)
      | PUT =>
          match body with
          | Err _ => ([Status StatusBadRequest], m)
          | Ok b =>
              if bool_decide (name <> k_name K b) then ([Status StatusBadRequest], m)
              else if k_valid K b
              then ([StatusWith StatusOK (k_entity K b)], <[name := b]> m)
              else ([Status StatusBadRequest], m)
          end
      end
  end.

(** Every object is stored under its own name. *)
Definition named_by (m : gmap string A) : Prop := map_Forall (fun n a => k_name K a = n) m.

Hypothesis default_name : forall a, k_name K (k_default K a) = k_name K a.

Lemma spec_post_named_by body m : named_by m -> named_by (spec_post body m).2.
Proof.
  intros Hm. unfold spec_post. destruct body as [a|]; [|done].
  destruct (m !! k_name K a); [done|]. destruct (k_valid K a); [|done].
  by apply map_Forall_insert_2.
Qed.

Lemma spec_named_named_by v name body m : named_by m -> named_by (spec_named v name body m).2.
Proof.
  intros Hm. unfold spec_named. destruct (m !! name), v; try done.
  - destruct body as [b|]; [|done]. case_bool_decide as Hn; [done|].
    destruct (k_valid K b); [|done]. apply map_Forall_insert_2; [|done].
    by destruct (decide (name = k_name K b)).
  - by apply map_Forall_delete.
Qed.
End contract.

(** ** Answering a request *)

Section answered.
Context `{StoreView W, World W} {RL : RandLaws W} `{Object A}.

(** The response got the writes of the contract's answer, the store represents the
    contract's map, and only keys of the kind changed. *)
Definition answered (key : string -> string) (P : string -> Prop) (w : W)
    (spec : list answer * gmap string A) (resp resp' : Response) (w' : W) : Prop :=
  frame w w' /\ unchanged_outside P w w' /\ view (A:=A) key w' spec.2 /\
  exists ws, resp' = resp ++ ws /\ Forall2 writes ws spec.1.

Lemma answered_one key P (w w' : W) ans m wr resp :
  frame w w' -> unchanged_outside P w w' -> view key w' m -> writes wr ans ->
  answered key P w ([ans], m) resp (resp ++ [wr]) w'.
Proof. intros. split; [done|]. split; [done|]. split; [done|]. exists [wr]. by repeat constructor. Qed.

(** The same after a read that left the store alone. *)
Lemma answered_read key P (w w1 w' : W) spec resp resp' :
  frame w w1 -> stored w1 = stored w ->
  answered key P w1 spec resp resp' w' -> answered key P w spec resp resp' w'.
Proof.
  intros Hfr Hs (Hfr' & Hu & Hrest). split; [by eapply frame_trans|]. split; [|done].
  eapply unchanged_trans; [by apply unchanged_same|done].
Qed.
End answered.

(** A failed registry call, for an error of a known kind. *)
Lemma agrees_Some_inv {B} (r : result B) s : agrees r (Some s) -> exists e, r = Err e /\ wraps e s.
Proof. destruct r; [done|]. eauto. Qed.

Lemma agrees_None_inv {B} (r : result B) : agrees r None -> exists b, r = Ok b.
Proof. destruct r; [|done]. eauto. Qed.
(** Resolve [errors.Is] of an error that wraps a known variable. *)
Ltac resolve_is :=
  repeat match goal with
  | H : wraps ?e ?s |- context [errors_Is ?e ?t] =>
      rewrite (wraps_Is e s t H);
      first [rewrite (bool_decide_eq_true_2 (s = t)) by done
            |rewrite (bool_decide_eq_false_2 (s = t)) by done]
  end.
(** The end of a handler: one write. *)
Ltac one_write :=
  rewrite twp_ret; unfold WriteError, WriteResponse; apply answered_one;
  eauto using unchanged_same with gokube; done.

Lemma ReadEntity_SetAttribute `{EntityReader A} req k a :
  ReadEntity (A:=A) (SetAttribute req k a) = ReadEntity req.
Proof. done. Qed.

(** The outcome of a registry call, as a value or an error of a known kind. *)
Ltac outcome :=
  match goal with
  | H : agrees ?r (Some _) |- _ => apply agrees_Some_inv in H as (? & -> & ?); resolve_is
  | H : agrees ?r None |- _ => apply agrees_None_inv in H as [? ->]
  end.
(** The object the filter put into the request. *)
Ltac loaded Hm :=
  rewrite Hm; cbn [attributes SetAttribute];
  rewrite lookup_insert_eq, ?ReadEntity_SetAttribute.
(** The stored object has the name it is stored under. *)
Ltac own_name Hnm Hm :=
  let Hname := fresh "Hname" in
  pose proof (Hnm _ _ Hm) as Hname;
  cbn [k_name k_valid PodKind NodeKind ReplicaSetKind] in Hname |- *; rewrite ?Hname.

Section loading.
Context `{StoreView W, World W} {RL : RandLaws W} `{Object A}.

(** The filters of the three kinds have this shape: the named object is loaded and handed
    to the rest of the chain; without it the answer is not-found. *)
Lemma load_answers (K : Kind A) key P (get : prog (result A)) nf v name body chain resp
    (w : W) m :
  up w -> view key w m ->
  twp get (fun got w' => frame w w' /\ stored w' = stored w /\
    match m !! name with
    | Some a => got = Ok a
    | None => agrees got (Some nf)
    end) w ->
  (forall a w1, m !! name = Some a -> up w1 -> view key w1 m ->
    twp (chain a) (answered key P w1 (spec_named K v name body m) resp) w1) ->
  twp (got ← get;
       match got with
       | Err err =>
           if errors_Is err nf then mret (WriteError resp StatusNotFound err)
           else mret (WriteError resp StatusInternalServerError err)
       | Ok a => chain a
       end) (answered key P w (spec_named K v name body m) resp) w.
Proof.
  intros Hup Hv Hget Hchain. prog_step. eapply twp_mono; [exact Hget|].
  intros got w1 (Hfr & Hs & Hgot). pose proof (view_same _ _ _ _ Hv Hs) as Hv1.
  destruct (m !! name) as [a|] eqn:Hm.
  - subst got. eapply twp_mono; [apply Hchain; [done|by eapply frame_up|done]|].
    intros resp' w2. by apply answered_read.
  - apply agrees_Some_inv in Hgot as (e & -> & He). resolve_is.
    unfold spec_named. rewrite Hm. by one_write.
Qed.
End loading.

(** ** Pods *)

Section pods.
Context {St : Storage} `{StorageLaws St W} `{ValidatorLaws} `{ObjectLaws Pod}
  `{EntityReader Pod}.
Variable mu : nat.

#[local] Abbreviation h := (PodHandler.NewPodHandler (PodRegistry.NewPodRegistry St mu)).
#[local] Abbreviation pods_view := (view (A:=Pod) PodRegistry.generateKey).
#[local] Abbreviation pod_answered := (answered PodRegistry.generateKey PodRegistry.pod_key).

Lemma CreatePod_answers req resp (w : W) m :
  up w -> pods_view w m ->
  (forall pod, ReadEntity req = Ok pod -> storable (PodRegistry.default_status pod)) ->
  twp (PodHandler.CreatePod h req resp)
    (pod_answered w (spec_post PodKind (ReadEntity req) m) resp) w.
Proof.
  intros Hup Hv Hst. unfold PodHandler.CreatePod, spec_post.
  destruct (ReadEntity req) as [pod|e]; [|by one_write].
  prog_step. eapply twp_mono; [by apply (PodRegistry.CreatePod_spec mu w m); auto|].
  intros [out p] w'. unfold PodRegistry.spec_CreatePod. cbn [fst snd k_name k_valid PodKind].
  destruct (m !! Pod_Name pod); [|destruct (Pod_tags pod)];
    intros (Hout & -> & Hv' & Hfr & Hu); outcome; [|by one_write..].
  rewrite twp_ret. unfold WriteResponse, WriteError. rewrite <- app_assoc.
  split; [done|]. split; [done|]. split; [done|]. eexists. split; [done|].
  by repeat constructor.
Qed.

Lemma GetPod_answers req resp (w : W) m :
  up w -> pods_view w m ->
  twp (PodHandler.LoadPodIntoRequest h PodHandler.GetPod req resp)
    (pod_answered w (spec_named PodKind GET (PathParameter req "name") (ReadEntity req) m)
       resp) w.
Proof.
  intros Hup Hv. apply load_answers; [done..|by apply PodRegistry.GetPod_spec|].
  intros pod w1 Hm Hup1 Hv1. unfold PodHandler.GetPod, spec_named. loaded Hm. by one_write.
Qed.

Lemma UpdatePod_answers req resp (w : W) m :
  up w -> pods_view w m -> named_by PodKind m ->
  (forall pod, ReadEntity req = Ok pod -> storable pod) ->
  twp (PodHandler.LoadPodIntoRequest h (PodHandler.UpdatePod h) req resp)
    (pod_answered w (spec_named PodKind PUT (PathParameter req "name") (ReadEntity req) m)
       resp) w.
Proof.
  intros Hup Hv Hnm Hst. apply load_answers; [done..|by apply PodRegistry.GetPod_spec|].
  intros pod w1 Hm Hup1 Hv1. unfold PodHandler.UpdatePod, spec_named. loaded Hm.
  destruct (ReadEntity req) as [b|e]; [|by one_write]. own_name Hnm Hm.
  case_bool_decide as Hn; [by one_write|]. prog_step.
  eapply twp_mono; [by apply (PodRegistry.UpdatePod_spec mu w1 m); auto|].
  intros out w2. unfold PodRegistry.spec_UpdatePod. rewrite Hn.
  destruct (Pod_tags b); intros (Hout & Hv2 & Hfr & Hu); outcome; by one_write.
Qed.

Lemma DeletePod_answers req resp (w : W) m :
  up w -> pods_view w m -> named_by PodKind m ->
  twp (PodHandler.LoadPodIntoRequest h (PodHandler.DeletePod h) req resp)
    (pod_answered w (spec_named PodKind DELETE (PathParameter req "name") (ReadEntity req) m)
       resp) w.
Proof.
  intros Hup Hv Hnm. apply load_answers; [done..|by apply PodRegistry.GetPod_spec|].
  intros pod w1 Hm Hup1 Hv1. unfold PodHandler.DeletePod, spec_named. loaded Hm.
  prog_step. own_name Hnm Hm. eapply twp_mono; [by apply (PodRegistry.DeletePod_spec mu w1 m)|].
  intros out w2 (-> & Hv2 & Hfr & Hu). by one_write.
Qed.

(** Listing: the pods of the map, each once; with a [nodeName], those of that node. *)
Lemma ListPods_answers req resp (w : W) m :
  up w -> pods_view w m ->
  twp (PodHandler.ListPods h req resp) (fun resp' w' =>
    frame w w' /\ stored w' = stored w /\
    exists l, l ≡ₚ (map_to_list m).*2 /\
      resp' = resp ++ [WriteHeaderAndEntity StatusOK (EPods (Some
        (if bool_decide (QueryParameter req "nodeName" <> "")
         then List.filter (fun p => bool_decide (NodeName p = QueryParameter req "nodeName")) l
         else l)))]) w.
Proof.
  intros Hup Hv. unfold PodHandler.ListPods. prog_step.
  eapply twp_mono; [by apply (PodRegistry.ListPods_spec mu w m)|].
  intros out w' (Hfr & Hs & objs & Hperm & ->). rewrite twp_ret.
  split; [done|]. split; [done|]. exists objs. split; [done|].
  destruct objs; by case_bool_decide.
Qed.

Lemma ListUnassignedPods_answers req resp (w : W) m :
  up w -> pods_view w m ->
  twp (PodHandler.ListUnassignedPods h req resp) (fun resp' w' =>
    frame w w' /\ stored w' = stored w /\
    exists l, l ≡ₚ (map_to_list m).*2 /\
      resp' = resp ++ [WriteHeaderAndEntity StatusOK (EPods (Some
        (List.filter (fun p => bool_decide (Pod_Status p = PodPending)) l)))]) w.
Proof.
  intros Hup Hv. unfold PodHandler.ListUnassignedPods. prog_step.
  eapply twp_mono; [by apply (PodRegistry.listPodsByStatus_spec mu w m)|].
  intros out w' (Hfr & Hs & objs & Hperm & ->). rewrite twp_ret. eauto 10.
Qed.
End pods.

(** ** Nodes *)

Section nodes.
Context {St : Storage} `{StorageLaws St W} `{ValidatorLaws} `{ObjectLaws Node}
  `{EntityReader Node}.

#[local] Abbreviation h := (NodeHandler.NewNodeHandler (NodeRegistry.NewNodeRegistry St)).
#[local] Abbreviation nodes_view := (view (A:=Node) NodeRegistry.node_key_of).
#[local] Abbreviation node_answered := (answered NodeRegistry.node_key_of NodeRegistry.node_key).

Lemma CreateNode_answers req resp (w : W) m :
  up w -> nodes_view w m ->
  stored w !! NodeRegistry.generateKey NodeRegistry.nodePrefix "" = None -> m !! "" = None ->
  (forall node, ReadEntity req = Ok node ->
     (Node_Name node = "" \/ plain (Node_Name node)) /\ storable node) ->
  twp (NodeHandler.CreateNode h req resp)
    (node_answered w (spec_post NodeKind (ReadEntity req) m) resp) w.
Proof.
  intros Hup Hv Hkey Hm Hst. unfold NodeHandler.CreateNode, spec_post.
  destruct (ReadEntity req) as [node|e]; [|by one_write].
  destruct (Hst node eq_refl) as [[Hn|Hn] Hs]; prog_step.
  { eapply twp_mono; [by apply (NodeRegistry.CreateNode_unnamed w)|].
    intros out w' (Hout & Hfr & Hs'). cbn [k_name k_valid NodeKind]. rewrite Hn, Hm.
    rewrite Node_tags_unnamed by done. pose proof (view_same _ _ _ _ Hv Hs').
    pose proof (unchanged_same NodeRegistry.node_key _ _ Hs'). outcome; by one_write. }
  eapply twp_mono; [by apply (NodeRegistry.CreateNode_spec w m)|].
  intros out w'. unfold NodeRegistry.spec_CreateNode. cbn [k_name k_valid NodeKind].
  destruct (m !! Node_Name node); [|destruct (Node_tags node)];
    intros (Hout & Hv' & Hfr & Hu); outcome; by one_write.
Qed.

Lemma GetNode_answers req resp (w : W) m :
  up w -> nodes_view w m -> plain (PathParameter req "name") ->
  twp (NodeHandler.LoadNodeIntoRequest h NodeHandler.GetNode req resp)
    (node_answered w (spec_named NodeKind GET (PathParameter req "name") (ReadEntity req) m)
       resp) w.
Proof.
  intros Hup Hv Hp. apply load_answers; [done..|by apply NodeRegistry.GetNode_spec|].
  intros node w1 Hm Hup1 Hv1. unfold NodeHandler.GetNode, spec_named. loaded Hm. by one_write.
Qed.

Lemma UpdateNode_answers req resp (w : W) m :
  up w -> nodes_view w m -> named_by NodeKind m -> plain (PathParameter req "name") ->
  (forall node, ReadEntity req = Ok node -> storable node) ->
  twp (NodeHandler.LoadNodeIntoRequest h (NodeHandler.UpdateNode h) req resp)
    (node_answered w (spec_named NodeKind PUT (PathParameter req "name") (ReadEntity req) m)
       resp) w.
Proof.
  intros Hup Hv Hnm Hp Hst. apply load_answers; [done..|by apply NodeRegistry.GetNode_spec|].
  intros node w1 Hm Hup1 Hv1. unfold NodeHandler.UpdateNode, spec_named. loaded Hm.
  destruct (ReadEntity req) as [b|e]; [|by one_write]. own_name Hnm Hm.
  case_bool_decide as Hn; [by one_write|]. prog_step. rewrite Hn in Hp.
  eapply twp_mono; [by apply (NodeRegistry.UpdateNode_spec w1 m); auto|].
  intros out w2. unfold NodeRegistry.spec_UpdateNode. rewrite Hn.
  destruct (Node_tags b); intros (Hout & Hv2 & Hfr & Hu); outcome; by one_write.
Qed.

Lemma DeleteNode_answers req resp (w : W) m :
  up w -> nodes_view w m -> named_by NodeKind m -> plain (PathParameter req "name") ->
  twp (NodeHandler.LoadNodeIntoRequest h (NodeHandler.DeleteNode h) req resp)
    (node_answered w (spec_named NodeKind DELETE (PathParameter req "name") (ReadEntity req) m)
       resp) w.
Proof.
  intros Hup Hv Hnm Hp. apply load_answers; [done..|by apply NodeRegistry.GetNode_spec|].
  intros node w1 Hm Hup1 Hv1. unfold NodeHandler.DeleteNode, spec_named. loaded Hm.
  prog_step. own_name Hnm Hm. eapply twp_mono; [by apply (NodeRegistry.DeleteNode_spec w1 m)|].
  intros out w2 (-> & Hv2 & Hfr & Hu). by one_write.
Qed.

Lemma ListNodes_answers req resp (w : W) m :
  up w -> nodes_view w m ->
  twp (NodeHandler.ListNodes h req resp) (fun resp' w' =>
    frame w w' /\ stored w' = stored w /\
    exists l, l ≡ₚ (map_to_list m).*2 /\
      resp' = resp ++ [WriteHeaderAndEntity StatusOK (ENodes (Some l))]) w.
Proof.
  intros Hup Hv. unfold NodeHandler.ListNodes. prog_step.
  eapply twp_mono; [by apply (NodeRegistry.ListNodes_spec w m)|].
  intros out w' (Hfr & Hs & objs & Hperm & ->). rewrite twp_ret. eauto 10.
Qed.
End nodes.

(** ** ReplicaSets *)

Section replicasets.
Context {St : Storage} `{StorageLaws St W} `{ObjectLaws ReplicaSet} `{EntityReader ReplicaSet}.
Variable mu : nat.

#[local] Abbreviation h :=
  (ReplicasetHandler.NewReplicasetHandler (ReplicaSetRegistry.NewReplicaSetRegistry St mu)).
#[local] Abbreviation rs_view := (view (A:=ReplicaSet) ReplicaSetRegistry.generateKey).
#[local] Abbreviation rs_answered :=
  (answered ReplicaSetRegistry.generateKey ReplicaSetRegistry.rs_key).

Lemma CreateReplicaset_answers req resp (w : W) m :
  up w -> rs_view w m -> (forall rs, ReadEntity req = Ok rs -> storable rs) ->
  twp (ReplicasetHandler.CreateReplicaset h req resp)
    (rs_answered w (spec_post ReplicaSetKind (ReadEntity req) m) resp) w.
Proof.
  intros Hup Hv Hst. unfold ReplicasetHandler.CreateReplicaset, spec_post.
  destruct (ReadEntity req) as [rs|e]; [|by one_write]. prog_step.
  eapply twp_mono; [by apply (ReplicaSetRegistry.Create_spec mu w m); auto|].
  intros out w'. unfold ReplicaSetRegistry.spec_Create. cbn [k_name k_valid ReplicaSetKind].
  destruct (m !! RS_Name rs); intros (Hout & Hv' & Hfr & Hu); outcome; by one_write.
Qed.

Lemma GetReplicaset_answers req resp (w : W) m :
  up w -> rs_view w m ->
  twp (ReplicasetHandler.LoadReplicasetIntoRequest h ReplicasetHandler.GetReplicaset req resp)
    (rs_answered w (spec_named ReplicaSetKind GET (PathParameter req "name") (ReadEntity req) m)
       resp) w.
Proof.
  intros Hup Hv. apply load_answers; [done..|by apply ReplicaSetRegistry.Get_spec|].
  intros rs w1 Hm Hup1 Hv1. unfold ReplicasetHandler.GetReplicaset, spec_named. loaded Hm.
  by one_write.
Qed.

Lemma UpdateReplicaset_answers req resp (w : W) m :
  up w -> rs_view w m -> named_by ReplicaSetKind m ->
  (forall rs, ReadEntity req = Ok rs -> storable rs) ->
  twp (ReplicasetHandler.LoadReplicasetIntoRequest h (ReplicasetHandler.UpdateReplicaset h)
         req resp)
    (rs_answered w (spec_named ReplicaSetKind PUT (PathParameter req "name") (ReadEntity req) m)
       resp) w.
Proof.
  intros Hup Hv Hnm Hst. apply load_answers; [done..|by apply ReplicaSetRegistry.Get_spec|].
  intros rs w1 Hm Hup1 Hv1. unfold ReplicasetHandler.UpdateReplicaset, spec_named. loaded Hm.
  destruct (ReadEntity req) as [b|e]; [|by one_write]. own_name Hnm Hm.
  case_bool_decide as Hn; [by one_write|]. prog_step.
  eapply twp_mono; [by apply (ReplicaSetRegistry.Update_spec mu w1 m); auto|].
  intros out w2. unfold ReplicaSetRegistry.spec_Update. rewrite <- Hn, Hm.
  intros (Hout & Hv2 & Hfr & Hu); outcome; by one_write.
Qed.

Lemma DeleteReplicaset_answers req resp (w : W) m :
  up w -> rs_view w m -> named_by ReplicaSetKind m ->
  twp (ReplicasetHandler.LoadReplicasetIntoRequest h (ReplicasetHandler.DeleteReplicaset h)
         req resp)
    (rs_answered w
       (spec_named ReplicaSetKind DELETE (PathParameter req "name") (ReadEntity req) m) resp) w.
Proof.
  intros Hup Hv Hnm. apply load_answers; [done..|by apply ReplicaSetRegistry.Get_spec|].
  intros rs w1 Hm Hup1 Hv1. unfold ReplicasetHandler.DeleteReplicaset, spec_named. loaded Hm.
  prog_step. own_name Hnm Hm.
  eapply twp_mono; [by apply (ReplicaSetRegistry.Delete_spec mu w1 m)|].
  intros out w2 (-> & Hv2 & Hfr & Hu). by one_write.
Qed.

(** Without ReplicaSets the answer is the nil slice, which is encoded as null. *)
Lemma ListReplicasets_answers req resp (w : W) m :
  up w -> rs_view w m -> ReplicaSetRegistry.no_stray_rs_keys w ->
  twp (ReplicasetHandler.ListReplicasets h req resp) (fun resp' w' =>
    frame w w' /\ stored w' = stored w /\
    exists l, l ≡ₚ (map_to_list m).*2 /\
      resp' = resp ++ [WriteHeaderAndEntity StatusOK (EReplicaSets (append_slice None l))]) w.
Proof.
  intros Hup Hv Hst. unfold ReplicasetHandler.ListReplicasets. prog_step.
  eapply twp_mono; [by apply (ReplicaSetRegistry.List_spec mu w m)|].
  intros out w' (Hfr & Hs & objs & Hperm & ->). rewrite twp_ret. eauto 10.
Qed.
End replicasets.

(** ** Sequences of requests to the whole server *)

Inductive kind := KPod | KNode | KReplicaSet.

Inductive api_op :=
| OpPost (k : kind) (req : Request)
| OpNamed (v : verb) (k : kind) (req : Request)
| OpListAll (k : kind) (req : Request)
| OpUnassigned (req : Request)
| OpHealthz (req : Request).

Definition collection (k : kind) : string :=
  match k with KPod => "/pods" | KNode => "/nodes" | KReplicaSet => "/replicasets" end.

Definition method (v : verb) : string :=
  match v with GET => "GET" | PUT => "PUT" | DELETE => "DELETE" end.

(** The method and path of a request's route, and the request. *)
Definition op_route (op : api_op) : string * string * Request :=
  match op with
  | OpPost k req => ("POST", collection k, req)
  | OpNamed v k req => (method v, collection k +:+ "/{name}", req)
  | OpListAll k req => ("GET", collection k, req)
  | OpUnassigned req => ("GET", "/pods/unassigned", req)
  | OpHealthz req => ("GET", "/healthz", req)
  end.

Definition find_route (routes : list APIServer.Route) (m p : string) : option Handler :=
  APIServer.r_handler <$>
    List.find (fun r => bool_decide (APIServer.r_method r = m /\ APIServer.r_path r = p)) routes.

Section serve.
Context `{Validator, Object Pod, Object Node, Object ReplicaSet}.
Context `{EntityReader Pod, EntityReader Node, EntityReader ReplicaSet}.

Definition serve (s : APIServer.APIServer) (op : api_op) : prog Response :=
  let '(m, p, req) := op_route op in
  match find_route (APIServer.registerRoutes s) m p with
  | Some h => h req []
  | None => Halt (Panic "no such route")
  end.

Fixpoint serve_all (s : APIServer.APIServer) (ops : list api_op) : prog (list Response) :=
  match ops with
  | [] => mret []
  | op :: ops => resp ← serve s op; resps ← serve_all s ops; mret (resp :: resps)
  end.
End serve.

(** The state of the contract. *)
Record cluster := mkCluster {
  c_pods : gmap string Pod;
  c_nodes : gmap string Node;
  c_rss : gmap string ReplicaSet }.

Section contract_ops.
Context `{EntityReader Pod, EntityReader Node, EntityReader ReplicaSet}.

Definition spec_kind {A} `{EntityReader A} (K : Kind A) (op : api_op) (m : gmap string A)
  : list answer * gmap string A :=
  match op with
  | OpPost _ req => spec_post K (ReadEntity req) m
  | OpNamed v _ req => spec_named K v (PathParameter req "name") (ReadEntity req) m
  | _ => ([], m)
  end.

Definition spec_next (op : api_op) (c : cluster) : cluster :=
  match op with
  | OpPost KPod _ | OpNamed _ KPod _ =>
      mkCluster (spec_kind PodKind op (c_pods c)).2 (c_nodes c) (c_rss c)
  | OpPost KNode _ | OpNamed _ KNode _ =>
      mkCluster (c_pods c) (spec_kind NodeKind op (c_nodes c)).2 (c_rss c)
  | OpPost KReplicaSet _ | OpNamed _ KReplicaSet _ =>
      mkCluster (c_pods c) (c_nodes c) (spec_kind ReplicaSetKind op (c_rss c)).2
  | _ => c
  end.

(** The responses the contract allows. *)
Definition spec_response (op : api_op) (c : cluster) (resp : Response) : Prop :=
  match op with
  | OpPost KPod _ | OpNamed _ KPod _ =>
      Forall2 writes resp (spec_kind PodKind op (c_pods c)).1
  | OpPost KNode _ | OpNamed _ KNode _ =>
      Forall2 writes resp (spec_kind NodeKind op (c_nodes c)).1
  | OpPost KReplicaSet _ | OpNamed _ KReplicaSet _ =>
      Forall2 writes resp (spec_kind ReplicaSetKind op (c_rss c)).1
  | OpListAll KPod req => exists l, l ≡ₚ (map_to_list (c_pods c)).*2 /\
      resp = [WriteHeaderAndEntity StatusOK (EPods (Some
        (if bool_decide (QueryParameter req "nodeName" <> "")
         then List.filter (fun p => bool_decide (NodeName p = QueryParameter req "nodeName")) l
         else l)))]
  | OpListAll KNode _ => exists l, l ≡ₚ (map_to_list (c_nodes c)).*2 /\
      resp = [WriteHeaderAndEntity StatusOK (ENodes (Some l))]
  | OpListAll KReplicaSet _ => exists l, l ≡ₚ (map_to_list (c_rss c)).*2 /\
      resp = [WriteHeaderAndEntity StatusOK (EReplicaSets (append_slice None l))]
  | OpUnassigned _ => exists l, l ≡ₚ (map_to_list (c_pods c)).*2 /\
      resp = [WriteHeaderAndEntity StatusOK (EPods (Some
        (List.filter (fun p => bool_decide (Pod_Status p = PodPending)) l)))]
  | OpHealthz _ => resp = [WriteHeader StatusOK]
  end.

Fixpoint spec_responses (ops : list api_op) (c : cluster) (resps : list Response) : Prop :=
  match ops, resps with
  | [], [] => True
  | op :: ops, resp :: resps =>
      spec_response op c resp /\ spec_responses ops (spec_next op c) resps
  | _, _ => False
  end.

Definition spec_final (ops : list api_op) (c : cluster) : cluster :=
  fold_left (fun c op => spec_next op c) ops c.

(** What is sent survives the encoding.  The name of a node to create is one ordinary path
    element, or empty; the name in the path of a request for one node is one ordinary path
    element. *)
Definition op_ok `{ObjectLaws Pod, ObjectLaws Node, ObjectLaws ReplicaSet} (op : api_op)
  : Prop :=
  match op with
  | OpPost KPod req =>
      forall pod, ReadEntity req = Ok pod -> storable (PodRegistry.default_status pod)
  | OpNamed _ KPod req => forall pod : Pod, ReadEntity req = Ok pod -> storable pod
  | OpPost KNode req =>
      forall node, ReadEntity req = Ok node ->
        (Node_Name node = "" \/ plain (Node_Name node)) /\ storable node
  | OpNamed _ KNode req =>
      plain (PathParameter req "name") /\
      forall node : Node, ReadEntity req = Ok node -> storable node
  | OpPost KReplicaSet req | OpNamed _ KReplicaSet req =>
      forall rs : ReplicaSet, ReadEntity req = Ok rs -> storable rs
  | _ => True
  end.
End contract_ops.

Section server.
Context {St : Storage} `{StorageLaws St W} `{ValidatorLaws}
  `{ObjectLaws Pod, ObjectLaws Node, ObjectLaws ReplicaSet}
  `{EntityReader Pod, EntityReader Node, EntityReader ReplicaSet}.
Variables mu1 mu2 : nat.

#[local] Abbreviation server := (APIServer.NewAPIServer St mu1 mu2).

(** No node is stored without a name: neither in the cluster nor under the key that
    [path.Join] makes of the empty name. *)
Definition nodes_have_names (w : W) (c : cluster) : Prop :=
  stored w !! NodeRegistry.generateKey NodeRegistry.nodePrefix "" = None /\
  c_nodes c !! "" = None.

(** The world's store is the cluster [c]. *)
Definition represents (w : W) (c : cluster) : Prop :=
  up w /\
  (view PodRegistry.generateKey w (c_pods c) /\ named_by PodKind (c_pods c)) /\
  (view NodeRegistry.node_key_of w (c_nodes c) /\ named_by NodeKind (c_nodes c)) /\
  (view ReplicaSetRegistry.generateKey w (c_rss c) /\ named_by ReplicaSetKind (c_rss c)) /\
  ReplicaSetRegistry.no_stray_rs_keys w /\
  nodes_have_names w c.

(** The key of the empty name is not under the prefix of any collection. *)
Lemma nodes_have_names_unchanged P (w w' : W) c c' :
  nodes_have_names w c -> unchanged_outside P w w' ->
  ~ P (NodeRegistry.generateKey NodeRegistry.nodePrefix "") -> c_nodes c' !! "" = None ->
  nodes_have_names w' c'.
Proof. intros [Hw _] Hu HP Hc. split; [by rewrite (Hu _ HP)|done]. Qed.

Lemma no_stray_unchanged P (w w' : W) :
  ReplicaSetRegistry.no_stray_rs_keys w -> unchanged_outside P w w' ->
  (forall k, P k -> HasPrefix k ReplicaSetRegistry.replicaSetPrefix = true ->
     ReplicaSetRegistry.rs_key k) ->
  (forall k, Decision (P k)) ->
  ReplicaSetRegistry.no_stray_rs_keys w'.
Proof.
  intros Hw Hu HP Hdec k Hk Hp. destruct (Hdec k) as [Hk'|Hk']; [by apply HP|].
  apply Hw; [|done]. by rewrite <- (Hu k Hk').
Qed.

(** Keys of two different collections have no common prefix. *)
Lemma keys_apart k a b :
  HasPrefix k a = true -> HasPrefix k b = true ->
  HasPrefix a b = false -> HasPrefix b a = false -> False.
Proof.
  intros [s ->]%HasPrefix_spec [t Ht]%HasPrefix_spec.
  destruct (HasPrefix_comparable a b s t Ht) as [->| ->]; done.
Qed.

Lemma represents_same (w w' : W) c :
  represents w c -> frame w w' -> stored w' = stored w -> represents w' c.
Proof.
  intros (Hup & [Hp ?] & [Hn ?] & [Hr ?] & Hst & [? ?]) Hfr Hs.
  split; [by eapply frame_up|]. split; [by split; [eapply view_same|]|].
  split; [by split; [eapply view_same|]|]. split; [by split; [eapply view_same|]|].
  split; [intros k; rewrite Hs; apply Hst|]. by split; [rewrite Hs|].
Qed.

Lemma represents_new_pods (w w' : W) c m :
  represents w c -> up w' -> unchanged_outside PodRegistry.pod_key w w' ->
  view PodRegistry.generateKey w' m -> named_by PodKind m ->
  represents w' (mkCluster m (c_nodes c) (c_rss c)).
Proof.
  intros (_ & _ & [Hn ?] & [Hr ?] & Hst & Hnn) Hup Hu Hv Hnm.
  split; [done|]. split; [done|].
  split; [split; [eapply view_unchanged; [done..|by intros n]|done]|].
  split; [split; [eapply view_unchanged; [done..|by intros n]|done]|].
  split; [|by eapply nodes_have_names_unchanged; [..|apply Hnn]].
  eapply no_stray_unchanged; [done..| |unfold PodRegistry.pod_key; apply _].
  intros k Hk Hp. destruct (keys_apart _ _ _ Hk Hp eq_refl eq_refl).
Qed.

Lemma represents_pods (w w' : W) c spec resp resp' :
  represents w c -> named_by PodKind spec.2 ->
  answered PodRegistry.generateKey PodRegistry.pod_key w spec resp resp' w' ->
  represents w' (mkCluster spec.2 (c_nodes c) (c_rss c)).
Proof.
  intros Hw Hnm (Hfr & Hu & Hv & _).
  eapply represents_new_pods; [done| |done..]. eapply frame_up; [done|]. by destruct Hw.
Qed.

Lemma represents_nodes (w w' : W) c spec resp resp' :
  represents w c -> named_by NodeKind spec.2 -> spec.2 !! "" = None ->
  answered NodeRegistry.node_key_of NodeRegistry.node_key w spec resp resp' w' ->
  represents w' (mkCluster (c_pods c) spec.2 (c_rss c)).
Proof.
  intros (Hup & [Hp ?] & _ & [Hr ?] & Hst & Hnn) Hnm He (Hfr & Hu & Hv & _).
  split; [by eapply frame_up|].
  split; [split; [eapply view_unchanged; [done..|by intros n]|done]|]. split; [done|].
  split; [split; [eapply view_unchanged; [done..|by intros n]|done]|].
  split; [|by eapply nodes_have_names_unchanged].
  eapply no_stray_unchanged; [done..| |unfold NodeRegistry.node_key; apply _].
  intros k Hk Hp'. destruct (keys_apart _ _ _ Hk Hp' eq_refl eq_refl).
Qed.

Lemma represents_rss (w w' : W) c spec resp resp' :
  represents w c -> named_by ReplicaSetKind spec.2 ->
  answered ReplicaSetRegistry.generateKey ReplicaSetRegistry.rs_key w spec resp resp' w' ->
  represents w' (mkCluster (c_pods c) (c_nodes c) spec.2).
Proof.
  intros (Hup & [Hp ?] & [Hn ?] & _ & Hst & Hnn) Hnm (Hfr & Hu & Hv & _).
  split; [by eapply frame_up|].
  split; [split; [eapply view_unchanged; [done..|by intros n]|done]|].
  split; [split; [eapply view_unchanged; [done..|by intros n]|done]|]. split; [done|].
  split; [|by eapply nodes_have_names_unchanged; [..|apply Hnn]].
  eapply no_stray_unchanged; [done..|done|unfold ReplicaSetRegistry.rs_key; apply _].
Qed.

(** The response to a request that starts from an empty response. *)
Lemma answered_nil `{Object A} key P (w : W) (spec : list answer * gmap string A) resp w' :
  answered key P w spec [] resp w' -> Forall2 writes resp spec.1.
Proof. by intros (_ & _ & _ & ws & -> & Hws). Qed.

Lemma serve_pods op (w : W) c :
  represents w c -> op_ok op ->
  match op with OpPost KPod _ | OpNamed _ KPod _ => True | _ => False end ->
  twp (serve server op)
    (answered PodRegistry.generateKey PodRegistry.pod_key w (spec_kind PodKind op (c_pods c))
       []) w.
Proof.
  intros (Hup & [Hp Hnm] & _) Hok Hop.
  destruct op as [[]|v []|[]| |]; try done; cbn in Hok;
    [apply (CreatePod_answers mu1); done|].
  destruct v; [apply (GetPod_answers mu1)|apply (UpdatePod_answers mu1)
              |apply (DeletePod_answers mu1)]; done.
Qed.

Lemma serve_nodes op (w : W) c :
  represents w c -> op_ok op ->
  match op with OpPost KNode _ | OpNamed _ KNode _ => True | _ => False end ->
  twp (serve server op)
    (answered NodeRegistry.node_key_of NodeRegistry.node_key w
       (spec_kind NodeKind op (c_nodes c)) []) w.
Proof.
  intros (Hup & _ & [Hp Hnm] & _ & _ & [? ?]) Hok Hop.
  destruct op as [[]|v []|[]| |]; try done; cbn in Hok;
    [by apply CreateNode_answers|]. destruct Hok.
  destruct v; [apply GetNode_answers|apply UpdateNode_answers|apply DeleteNode_answers]; done.
Qed.

Lemma serve_rss op (w : W) c :
  represents w c -> op_ok op ->
  match op with OpPost KReplicaSet _ | OpNamed _ KReplicaSet _ => True | _ => False end ->
  twp (serve server op)
    (answered ReplicaSetRegistry.generateKey ReplicaSetRegistry.rs_key w
       (spec_kind ReplicaSetKind op (c_rss c)) []) w.
Proof.
  intros (Hup & _ & _ & [Hp Hnm] & _) Hok Hop.
  destruct op as [[]|v []|[]| |]; try done; cbn in Hok;
    [apply (CreateReplicaset_answers mu2); done|].
  destruct v; [apply (GetReplicaset_answers mu2)|apply (UpdateReplicaset_answers mu2)
              |apply (DeleteReplicaset_answers mu2)]; done.
Qed.

Lemma spec_kind_named_by `{EntityReader A} (K : Kind A) op m :
  (forall a, k_name K (k_default K a) = k_name K a) ->
  named_by K m -> named_by K (spec_kind K op m).2.
Proof.
  intros Hd Hm. destruct op; cbn [spec_kind]; try done;
    [by apply spec_post_named_by | by apply spec_named_named_by].
Qed.

(** Only nodes with a name enter the cluster. *)
Lemma spec_nodes_have_names op m :
  m !! "" = None -> (spec_kind NodeKind op m).2 !! "" = None.
Proof.
  intros Hm. destruct op as [k req|v k req| | |]; cbn [spec_kind]; try done.
  - unfold spec_post. destruct (ReadEntity req) as [n|]; [|done].
    destruct (m !! k_name NodeKind n); [done|]. destruct (k_valid NodeKind n) eqn:Ht; [|done].
    cbn. rewrite lookup_insert_ne; [done|]. intros Hn. cbn in Ht.
    by rewrite Node_tags_unnamed in Ht.
  - unfold spec_named. destruct (m !! PathParameter req "name") as [old|] eqn:Hl; [|done].
    assert (PathParameter req "name" <> "") by congruence.
    destruct v; [done| |by apply lookup_delete_None; right].
    destruct (ReadEntity req) as [n|]; [|done]. case_bool_decide; [done|].
    destruct (k_valid NodeKind n); [|done]. cbn. by rewrite lookup_insert_ne.
Qed.

Lemma serve_spec op (w : W) c :
  represents w c -> op_ok op ->
  twp (serve server op) (fun resp w' =>
    spec_response op c resp /\ represents w' (spec_next op c)) w.
Proof.
  intros Hw Hok.
  assert (Hpods := fun H => serve_pods op w c Hw Hok H).
  assert (Hnodes := fun H => serve_nodes op w c Hw Hok H).
  assert (Hrss := fun H => serve_rss op w c Hw Hok H).
  assert (Hnm := Hw).
  destruct Hnm as (Hup & [Hpv Hp] & [Hnv Hn] & [Hrv Hr] & Hst & [_ Hnn]).
  pose proof (spec_nodes_have_names op _ Hnn) as Hnn'.
  pose proof (spec_kind_named_by PodKind op _ PodRegistry.default_status_name Hp) as Hp'.
  pose proof (spec_kind_named_by NodeKind op _ (fun _ => eq_refl) Hn) as Hn'.
  pose proof (spec_kind_named_by ReplicaSetKind op _ (fun _ => eq_refl) Hr) as Hr'.
  destruct op as [[]req|v [] req|[] req|req|req];
    try (eapply twp_mono; [first [exact (Hpods I)|exact (Hnodes I)|exact (Hrss I)]|];
         intros resp w' Ha; split; [by eapply answered_nil|];
         first [by eapply represents_pods|by eapply represents_nodes|by eapply represents_rss]).
  - eapply twp_mono; [by apply (ListPods_answers mu1 req [] w)|].
    intros resp w' (Hfr & Hs & Hl). split; [done|by eapply represents_same].
  - eapply twp_mono; [by apply (ListNodes_answers req [] w)|].
    intros resp w' (Hfr & Hs & Hl). split; [done|by eapply represents_same].
  - eapply twp_mono; [by apply (ListReplicasets_answers mu2 req [] w)|].
    intros resp w' (Hfr & Hs & Hl). split; [done|by eapply represents_same].
  - eapply twp_mono; [by apply (ListUnassignedPods_answers mu1 req [] w)|].
    intros resp w' (Hfr & Hs & Hl). split; [done|by eapply represents_same].
  - done.
Qed.

Lemma serve_all_spec ops (w : W) c :
  represents w c -> Forall op_ok ops ->
  twp (serve_all server ops) (fun resps w' =>
    spec_responses ops c resps /\ represents w' (spec_final ops c)) w.
Proof.
  intros Hw Hok. revert w c Hw.
  induction Hok as [|op ops Hop _ IH]; intros w c Hw; cbn [serve_all]; [done|].
  prog_step. eapply twp_mono; [by apply (serve_spec op w c)|].
  intros resp w1 [Hresp Hw1]. prog_step. eapply twp_mono; [by apply (IH w1)|].
  intros resps w2 [Hresps Hw2]. by rewrite twp_ret.
Qed.

(** ** In any world *)

(** The writes a route may leave: exactly one, but for the creation of an existing pod. *)
Definition one_response (r : APIServer.Route) (resp : Response) : Prop :=
  (exists wr, resp = [wr]) \/
  (APIServer.r_method r = "POST" /\ APIServer.r_path r = "/pods" /\
   exists e pod, resp = [WriteErr StatusConflict e;
                         WriteHeaderAndEntity StatusCreated (EPod pod)]).

(** Whatever a call of the store answers, it answers. *)
Ltac any_answer :=
  first
    [ prog_step
    | eapply twp_mono;
        [first [apply Get_law | apply Create_law | apply Update_law | apply Delete_law
               | apply List_law] | intros ? ? _]
    | case_match ].

Lemma routes_one_response :
  Forall (fun r => forall req (w : W),
    twp (APIServer.r_handler r req []) (fun resp _ => one_response r resp) w)
    (APIServer.registerRoutes server).
Proof.
  unfold one_response.
  repeat (apply List.Forall_cons;
    [cbn [APIServer.r_handler APIServer.r_method APIServer.r_path]; intros req w|]);
    [..|apply List.Forall_nil].
  all: cbv [APIServer.healthz
    PodHandler.CreatePod PodHandler.ListPods PodHandler.LoadPodIntoRequest PodHandler.GetPod
    PodHandler.UpdatePod PodHandler.DeletePod PodHandler.ListUnassignedPods
    NodeHandler.CreateNode NodeHandler.ListNodes NodeHandler.LoadNodeIntoRequest
    NodeHandler.GetNode NodeHandler.UpdateNode NodeHandler.DeleteNode
    ReplicasetHandler.CreateReplicaset ReplicasetHandler.ListReplicasets
    ReplicasetHandler.LoadReplicasetIntoRequest ReplicasetHandler.GetReplicaset
    ReplicasetHandler.UpdateReplicaset ReplicasetHandler.DeleteReplicaset
    PodRegistry.GetPod PodRegistry.CreatePod PodRegistry.ListPods PodRegistry.UpdatePod
    PodRegistry.DeletePod PodRegistry.ListUnassignedPods PodRegistry.listPodsByStatus
    NodeRegistry.GetNode NodeRegistry.CreateNode NodeRegistry.ListNodes
    NodeRegistry.UpdateNode NodeRegistry.DeleteNode
    ReplicaSetRegistry.Get ReplicaSetRegistry.Create ReplicaSetRegistry.Update
    ReplicaSetRegistry.Delete ReplicaSetRegistry.List].
  all: repeat any_answer; try (by left; eexists).
  all: right; split; [done|]; split; [done|]; by do 2 eexists.
Qed.
End server.

(** ** Properties *)

Section properties.
Context {St : Storage} `{StorageLaws St W} `{ValidatorLaws}
  `{ObjectLaws Pod, ObjectLaws Node, ObjectLaws ReplicaSet}
  `{EntityReader Pod, EntityReader Node, EntityReader ReplicaSet}.
Variables mu1 mu2 : nat.

#[local] Abbreviation server := (APIServer.NewAPIServer St mu1 mu2).

(** C1: the API server refines its contract.  Over a store that answers and represents a
    cluster, every sequence of requests (creating, reading, replacing, deleting and
    listing pods, nodes and ReplicaSets, and the health check) is answered through the
    registered routes with the statuses and objects of the contract, and leaves the store
    representing the contract's cluster; among them the 400 of a node without a name.
    Conditions ([op_ok]): every object sent survives its encoding, the name of a node to
    create is empty or one ordinary path element (no "/", not "." or ".."), and so is,
    without being empty, the name in the path of a request for one node.  Other node names
    are outside the contract: [NodeRegistry.CreateNode_escapes_prefix]. *)
Theorem APIServer_refines_contract (ops : list api_op) (w : W) (c : cluster) :
  represents w c -> Forall op_ok ops ->
  exists resps w', run (serve_all server ops) w = (Val resps, w') /\
    spec_responses ops c resps /\ represents w' (spec_final ops c).
Proof.
  intros Hw Hok. pose proof (serve_all_spec mu1 mu2 ops w c Hw Hok) as Hrun.
  apply twp_run in Hrun as (resps & w' & Hrun & Hresps & Hw'). eauto.
Qed.

(** C31: every request is answered once, in any world.  Whatever the store does, every route
    returns and writes exactly one answer to the response, except that the creation of
    pods may write a conflict followed by "201 Created". *)
Theorem APIServer_one_response :
  Forall (fun r => forall req (w : W),
    twp (APIServer.r_handler r req []) (fun resp _ => one_response r resp) w)
    (APIServer.registerRoutes server).
Proof. apply routes_one_response. Qed.

(** Creating an existing pod through the API writes two answers.  The conflict is
    written first, then the request's pod with "201 Created"; nothing is stored. *)
Theorem CreatePod_conflict_writes_twice (req : Request) (w : W) (m : gmap string Pod)
    (pod : Pod) :
  up w -> view PodRegistry.generateKey w m ->
  ReadEntity req = Ok pod -> is_Some (m !! Pod_Name pod) ->
  storable (PodRegistry.default_status pod) ->
  twp (serve server (OpPost KPod req))
    (fun resp w' => view PodRegistry.generateKey w' m /\
       exists e, resp = [WriteErr StatusConflict e;
                         WriteHeaderAndEntity StatusCreated (EPod pod)]) w.
Proof.
  intros Hup Hv Hread [old Hold] Hst.
  change (serve server (OpPost KPod req)) with (PodHandler.CreatePod
    (PodHandler.NewPodHandler (PodRegistry.NewPodRegistry St mu1)) req []).
  unfold PodHandler.CreatePod. rewrite Hread.
  prog_step. eapply twp_mono; [by apply (PodRegistry.CreatePod_spec mu1 w m)|].
  intros [out p] w'. unfold PodRegistry.spec_CreatePod. rewrite Hold.
  intros (Hout & Hp & Hv' & _). cbn [fst snd] in *. subst p. outcome. rewrite twp_ret.
  split; [done|]. by eexists.
Qed.

(** ReplicaSets are stored without validation.  Whatever its tags say (a negative count,
    an empty name, a template without containers), a ReplicaSet whose name is free is
    created through the API and answered with "201 Created". *)
Theorem CreateReplicaset_accepts_invalid (req : Request) (w : W)
    (m : gmap string ReplicaSet) (rs : ReplicaSet) :
  up w -> view ReplicaSetRegistry.generateKey w m ->
  ReadEntity req = Ok rs -> m !! RS_Name rs = None -> storable rs ->
  twp (serve server (OpPost KReplicaSet req))
    (fun resp w' =>
       resp = [WriteHeaderAndEntity StatusCreated (EReplicaSet rs)] /\
       view ReplicaSetRegistry.generateKey w' (<[RS_Name rs := rs]> m)) w.
Proof.
  intros Hup Hv Hread Hnone Hst.
  change (serve server (OpPost KReplicaSet req)) with (ReplicasetHandler.CreateReplicaset
    (ReplicasetHandler.NewReplicasetHandler
       (ReplicaSetRegistry.NewReplicaSetRegistry St mu2)) req []).
  unfold ReplicasetHandler.CreateReplicaset. rewrite Hread.
  prog_step. eapply twp_mono; [by apply (ReplicaSetRegistry.Create_spec mu2 w m)|].
  intros out w'. unfold ReplicaSetRegistry.spec_Create. rewrite Hnone.
  intros (Hout & Hv' & _). outcome. by rewrite twp_ret.
Qed.
End properties.

(** ** The properties at concrete inputs *)

Module Witness.
#[export] Instance reader `{Object A} : EntityReader A := Decode.

Definition c1 : Container := mkContainer "web" "nginx".
Definition p1 : Pod := mkPod (meta_named "a") (mkPodSpec (Some [c1]) 1) "" "".
Definition p2 : Pod := mkPod (meta_named "a") (mkPodSpec (Some [c1]) 1) "n1" "Running".
Definition n1 : Node := mkNode (meta_named "n1") (mkNodeSpec false "") NodeReady.
Definition unnamed : Node := mkNode (meta_named "") (mkNodeSpec false "") NodeReady.
Definition rs1 : ReplicaSet :=
  mkReplicaSet (meta_named "r") (mkReplicaSetSpec 1 None
    (mkPodTemplateSpec (meta_named "t") (mkPodSpec (Some [c1]) 1)))
    (mkReplicaSetStatus 0 0 0 0).
Definition request (name body : string) : Request := mkRequest {[ "name" := name ]} ∅ body ∅.
Definition ops : list api_op :=
  [OpPost KPod (request "" (ser_put p1 "")); OpPost KPod (request "" (ser_put p2 ""));
   OpNamed GET KPod (request "a" ""); OpNamed PUT KPod (request "a" (ser_put p2 ""));
   OpPost KNode (request "" (ser_put unnamed "")); OpPost KNode (request "" (ser_put n1 ""));
   OpNamed GET KNode (request "n2" "");
   OpListAll KReplicaSet (request "" ""); OpPost KReplicaSet (request "" (ser_put rs1 ""));
   OpListAll KPod (request "" ""); OpUnassigned (request "" "");
   OpNamed DELETE KPod (request "a" ""); OpHealthz (request "" "")].
Definition negative : ReplicaSet :=
  mkReplicaSet (meta_named "r") (mkReplicaSetSpec (-3) None
    (mkPodTemplateSpec (meta_named "") (mkPodSpec None 1))) (mkReplicaSetStatus 0 0 0 0).
Definition stored_pod : ref_world := world_with {[ PodRegistry.generateKey "a" := ser_put p1 "" ]}.
End Witness.
Import Witness.

Lemma empty_view `{Object A} key : view (A:=A) key empty_world ∅.
Proof. intros n. by rewrite !lookup_empty. Qed.

Lemma empty_represents : represents empty_world (mkCluster ∅ ∅ ∅).
Proof.
  split; [apply Forall_nil_2|].
  split; [split; [apply empty_view|apply map_Forall_empty]|].
  split; [split; [apply empty_view|apply map_Forall_empty]|].
  split; [split; [apply empty_view|apply map_Forall_empty]|].
  split; [|split; apply lookup_empty].
  intros k [d Hd]. change (stored empty_world) with (∅ : gmap string string) in Hd.
  by rewrite lookup_empty in Hd.
Qed.

Lemma plain_of (s : string) : bool_decide (plain s) = true -> plain s.
Proof. apply bool_decide_eq_true_1. Qed.

Lemma ops_ok : Forall op_ok Witness.ops.
Proof.
  repeat (apply List.Forall_cons; [try done|]); [..|apply List.Forall_nil].
  all: intros node Hread; (split; [|done]); vm_compute in Hread; injection Hread as <-.
  - by left.
  - by right; apply plain_of.
Qed.

Lemma APIServer_refines_contract_witness :
  exists resps w',
    run (serve_all (APIServer.NewAPIServer EtcdStorage.NewEtcdStorage 1 2) Witness.ops)
      empty_world = (Val resps, w') /\
    spec_responses Witness.ops (mkCluster ∅ ∅ ∅) resps /\
    represents w' (spec_final Witness.ops (mkCluster ∅ ∅ ∅)).
Proof.
  apply (APIServer_refines_contract (St:=EtcdStorage.NewEtcdStorage) 1 2 Witness.ops
    empty_world (mkCluster ∅ ∅ ∅)); [apply empty_represents | apply ops_ok].
Defined.

Lemma APIServer_one_response_witness :
  Forall (fun r => forall req (w : ref_world),
    twp (APIServer.r_handler r req []) (fun resp _ => one_response r resp) w)
    (APIServer.registerRoutes (APIServer.NewAPIServer EtcdStorage.NewEtcdStorage 1 2)).
Proof. apply (APIServer_one_response (St:=EtcdStorage.NewEtcdStorage) 1 2). Defined.

Lemma CreatePod_conflict_writes_twice_witness :
  twp (serve (APIServer.NewAPIServer EtcdStorage.NewEtcdStorage 1 2)
         (OpPost KPod (Witness.request "" (ser_put Witness.p2 ""))))
    (fun resp w' => view PodRegistry.generateKey w' {[ "a" := Witness.p1 ]} /\
       exists e, resp = [WriteErr StatusConflict e;
                         WriteHeaderAndEntity StatusCreated (EPod Witness.p2)])
    Witness.stored_pod.
Proof.
  apply (CreatePod_conflict_writes_twice (St:=EtcdStorage.NewEtcdStorage) 1 2
    (Witness.request "" (ser_put Witness.p2 "")) Witness.stored_pod
    {[ "a" := Witness.p1 ]} Witness.p2);
    [apply Forall_nil_2
    | eapply (view_insert _ empty_world _ ∅ "a");
        [intros n; by rewrite !lookup_empty | reflexivity | reflexivity]
    | vm_compute; reflexivity | by eexists | done].
Defined.

Lemma CreateReplicaset_accepts_invalid_witness :
  ReplicaSet_tags Witness.negative = false /\
  twp (serve (APIServer.NewAPIServer EtcdStorage.NewEtcdStorage 1 2)
         (OpPost KReplicaSet (Witness.request "" (ser_put Witness.negative ""))))
    (fun resp w' =>
       resp = [WriteHeaderAndEntity StatusCreated (EReplicaSet Witness.negative)] /\
       view ReplicaSetRegistry.generateKey w' (<["r" := Witness.negative]> ∅)) empty_world.
Proof.
  split; [reflexivity|].
  apply (CreateReplicaset_accepts_invalid (St:=EtcdStorage.NewEtcdStorage) 1 2
    (Witness.request "" (ser_put Witness.negative "")) empty_world ∅ Witness.negative);
    [apply Forall_nil_2 | apply empty_view | vm_compute; reflexivity | reflexivity
    | done].
Defined.
