(* ===== verification/Retry.v ===== *)
(** * Retry: repeating an operation (src/pkg/retry/retry.go)

    [WithExponentialBackoff] repeats an operation with growing delays until it succeeds or
    the context ends; [WithRetries] tries a fixed number of times.  An operation is any
    program; waiting is the external call that reports whether the context ended before
    the timer.  The delays are computed in 64-bit floating point, as in the code. *)

From Stdlib Require Import SpecFloat.
From S2P Require Import Prelude Errors Effects Reference.

Module Retry.

(** ** Durations and float64 *)

Definition Second : Z := 1000000000.

(** [float64(d)] of an integer: round to nearest, ties to even. *)
Definition float64_of_int (z : Z) : spec_float := binary_normalize 53 1024 z 0 false.

Definition float64_mul : spec_float -> spec_float -> spec_float := SFmul 53 1024.

Definition int64_min : Z := - 2 ^ 63.
Definition int64_max : Z := 2 ^ 63 - 1.

(** [time.Duration(f)]: truncation towards zero.  A value that does not fit is
    implementation-dependent in Go; amd64 gives the least integer. *)
Definition int64_of_float (f : spec_float) : Z :=
  match f with
  | S754_zero _ => 0
  | S754_finite s m e =>
      let v := if 0 <=? e then Zpos m * 2 ^ e else Zpos m / 2 ^ (- e) in
      let v := if s then - v else v in
      if (int64_min <=? v) && (v <=? int64_max) then v else int64_min
  | _ => int64_min
  end.

Record Options := mkOptions {
  InitialDelay : Z;
  MaxDelay : Z;
  Multiplier : spec_float }.

Definition DefaultOptions : Options :=
  mkOptions (1 * Second) (30 * Second) (float64_of_int 2).

(** ** The loops *)

Section ops.
Variable operation : prog (result unit).

(** The delay after [currentDelay]. *)
Definition next_delay (opts : Options) (currentDelay : Z) : Z :=
  let nextDelay := int64_of_float (float64_mul (float64_of_int currentDelay) (Multiplier opts)) in
  if MaxDelay opts <? nextDelay then MaxDelay opts else nextDelay.

(** [fuel] bounds the waits whose timer fired: the bound is met only there, never before
    the operation or the context was asked. *)
Fixpoint backoff_loop (fuel : nat) (opts : Options) (currentDelay : Z) : prog (result unit) :=
  err ← operation;
  match err with
  | Ok _ => mret (Ok ())
  | Err _ =>
      done ← call (CtxOrTimer currentDelay);
      match done with
      | Some ctx_err => mret (Err ctx_err)
      | None =>
          match fuel with
          | O => Halt NoFuel
          | S fuel => backoff_loop fuel opts (next_delay opts currentDelay)
          end
      end
  end.

Definition WithExponentialBackoff (fuel : nat) (opts : Options) : prog (result unit) :=
  backoff_loop fuel opts (InitialDelay opts).

(** [remaining] attempts are left. *)
Fixpoint retries_loop (remaining : nat) (delay : Z) : prog (result unit) :=
  match remaining with
  | O => mret (Ok ())
  | S remaining =>
      err ← operation;
      match err with
      | Ok _ => mret (Ok ())
      | Err e =>
          if (remaining =? 0)%nat then mret (Err e)
          else
            done ← call (CtxOrTimer delay);
            match done with
            | Some ctx_err => mret (Err ctx_err)
            | None => retries_loop remaining delay
            end
      end
  end.

Definition WithRetries (attempts delay : Z) : prog (result unit) :=
  retries_loop (Z.to_nat attempts) delay.
End ops.

(** ** Specification *)

(** The delay before attempt [k + 1]. *)
Fixpoint delay (opts : Options) (k : nat) : Z :=
  match k with
  | O => InitialDelay opts
  | S k => next_delay opts (delay opts k)
  end.

Lemma backoff_loop_unfold operation fuel opts currentDelay :
  backoff_loop operation fuel opts currentDelay =
  (err ← operation;
   match err with
   | Ok _ => mret (Ok ())
   | Err _ =>
       done ← call (CtxOrTimer currentDelay);
       match done with
       | Some ctx_err => mret (Err ctx_err)
       | None =>
           match fuel with
           | O => Halt NoFuel
           | S fuel => backoff_loop operation fuel opts (next_delay opts currentDelay)
           end
       end
   end).
Proof. by destruct fuel. Qed.

Section spec.
Context `{World W}.
Variable operation : prog (result unit).

(** The attempts that failed and were waited for, with the delays between them. *)
Inductive failed : list Z -> W -> W -> Prop :=
| failed_none w : failed [] w w
| failed_more d ds w w1 w2 e :
    run operation w = (Val (Err e), w1) ->
    (handle (CtxOrTimer d) w1).1 = None ->
    failed ds (handle (CtxOrTimer d) w1).2 w2 ->
    failed (d :: ds) w w2.

(** The last attempt: it succeeds, or it fails and the context ends in the wait of [d]. *)
Inductive last_attempt (d : Z) (w : W) : result unit -> W -> Prop :=
| last_ok w' : run operation w = (Val (Ok ()), w') -> last_attempt d w (Ok ()) w'
| last_cancelled e ctx_err w1 :
    run operation w = (Val (Err e), w1) ->
    (handle (CtxOrTimer d) w1).1 = Some ctx_err ->
    last_attempt d w (Err ctx_err) (handle (CtxOrTimer d) w1).2.

(** The delays after [d], as many as asked for. *)
Fixpoint delays_from (opts : Options) (d : Z) (n : nat) : list Z :=
  match n with
  | O => []
  | S n => d :: delays_from opts (next_delay opts d) n
  end.

Fixpoint iter_delay (opts : Options) (d : Z) (n : nat) : Z :=
  match n with
  | O => d
  | S n => iter_delay opts (next_delay opts d) n
  end.

Lemma iter_delay_delay opts n d k :
  d = delay opts k -> iter_delay opts d n = delay opts (k + n).
Proof.
  revert d k; induction n as [|n IH]; intros d k ->; cbn [iter_delay].
  { by rewrite Nat.add_0_r. }
  rewrite (IH _ (S k)) by done. f_equal. lia.
Qed.

Lemma delays_from_delay opts n d k :
  d = delay opts k -> delays_from opts d n = delay opts <$> seq k n.
Proof.
  revert d k; induction n as [|n IH]; intros d k ->; cbn [delays_from seq]; [done|].
  rewrite fmap_cons. f_equal. by apply (IH _ (S k)).
Qed.

(** One attempt of the loop, by its outcome. *)
Lemma backoff_loop_step fuel opts d (w : W) :
  run (backoff_loop operation fuel opts d) w =
  match run operation w with
  | (Val (Ok _), w1) => (Val (Ok ()), w1)
  | (Val (Err _), w1) =>
      match (handle (CtxOrTimer d) w1).1, fuel with
      | Some e, _ => (Val (Err e), (handle (CtxOrTimer d) w1).2)
      | None, O => (Halted NoFuel, (handle (CtxOrTimer d) w1).2)
      | None, S fuel =>
          run (backoff_loop operation fuel opts (next_delay opts d))
            (handle (CtxOrTimer d) w1).2
      end
  | (Halted h, w1) => (Halted h, w1)
  end.
Proof.
  rewrite backoff_loop_unfold, run_bind.
  destruct (run operation w) as [[[[]|e]|h] w1]; [done| |done].
  rewrite run_bind. unfold call. cbn [run].
  destruct (handle (CtxOrTimer d) w1) as [[e'|] w2], fuel; done.
Qed.

(** From attempts to the result. *)
Lemma backoff_loop_complete fuel opts d n (w w1 w' : W) out :
  (n <= fuel)%nat -> failed (delays_from opts d n) w w1 ->
  last_attempt (iter_delay opts d n) w1 out w' ->
  run (backoff_loop operation fuel opts d) w = (Val out, w').
Proof.
  revert fuel d w; induction n as [|n IH]; intros fuel d w Hn Hf Hl; inversion Hf; subst;
    rewrite backoff_loop_step.
  - destruct Hl as [w2 ->|e ce w2 -> Hc]; [done|]. cbn [iter_delay] in *. by rewrite Hc.
  - match goal with Hr : run operation w = _ |- _ => rewrite Hr end.
    match goal with Hc : (handle _ _).1 = None |- _ => rewrite Hc end.
    destruct fuel as [|fuel]; [lia|]. apply IH; [lia|done|done].
Qed.

(** From the result to attempts. *)
Lemma backoff_loop_sound fuel opts d (w w' : W) out :
  run (backoff_loop operation fuel opts d) w = (Val out, w') ->
  exists n w1, (n <= fuel)%nat /\ failed (delays_from opts d n) w w1 /\
    last_attempt (iter_delay opts d n) w1 out w'.
Proof.
  revert d w; induction fuel as [|fuel IH]; intros d w; rewrite backoff_loop_step;
    (destruct (run operation w) as [[[[]|e]|h] w1] eqn:Hop;
      [intros [= <- <-]; exists 0%nat, w; split; [lia|]; split; [constructor|by constructor]
      |destruct (handle (CtxOrTimer d) w1).1 as [ce|] eqn:Hc;
        [intros [= <- <-]; exists 0%nat, w; split; [lia|]; split; [constructor|];
         by eapply last_cancelled|]
      |done]); [done|].
  intros (n & w2 & Hn & Hf & Hl)%IH. exists (S n), w2. split; [lia|].
  split; [by eapply failed_more|done].
Qed.

Lemma backoff_loop_iff fuel opts d (w w' : W) out :
  run (backoff_loop operation fuel opts d) w = (Val out, w') <->
  exists n w1, (n <= fuel)%nat /\ failed (delays_from opts d n) w w1 /\
    last_attempt (iter_delay opts d n) w1 out w'.
Proof.
  split; [apply backoff_loop_sound|].
  intros (n & w1 & Hn & Hf & Hl). by eapply backoff_loop_complete.
Qed.

(** How the last of at most [n + 1] attempts with a fixed delay ends: the [n+1]-th one ends
    the loop with whatever it returns. *)
Definition final_attempt (d : Z) (is_last : bool) (w : W) (out : result unit) (w' : W) : Prop :=
  if is_last then run operation w = (Val out, w') else last_attempt d w out w'.

Lemma retries_loop_step n d (w : W) :
  run (retries_loop operation (S n) d) w =
  match run operation w with
  | (Val (Ok _), w1) => (Val (Ok ()), w1)
  | (Val (Err e), w1) =>
      if (n =? 0)%nat then (Val (Err e), w1)
      else match (handle (CtxOrTimer d) w1).1 with
           | Some e => (Val (Err e), (handle (CtxOrTimer d) w1).2)
           | None => run (retries_loop operation n d) (handle (CtxOrTimer d) w1).2
           end
  | (Halted h, w1) => (Halted h, w1)
  end.
Proof.
  cbn [retries_loop]. rewrite run_bind.
  destruct (run operation w) as [[[[]|e]|h] w1]; [done| |done].
  destruct (n =? 0)%nat; [done|]. rewrite run_bind. unfold call. cbn [run].
  destruct (handle (CtxOrTimer d) w1) as [[e'|] w2]; done.
Qed.

(** From attempts to the result. *)
Lemma retries_loop_complete n d k (w w1 w' : W) out :
  (k <= n)%nat -> failed (replicate k d) w w1 -> final_attempt d (k =? n)%nat w1 out w' ->
  run (retries_loop operation (S n) d) w = (Val out, w').
Proof.
  revert n w; induction k as [|k IH]; intros n w Hk Hf Hl; inversion Hf; subst;
    rewrite retries_loop_step.
  - unfold final_attempt in Hl. destruct n as [|n]; cbn [Nat.eqb] in *.
    { rewrite Hl. by destruct out as [[]|]. }
    destruct Hl as [w2 ->|e ce w2 -> Hc]; [done|]. by rewrite Hc.
  - match goal with Hr : run operation w = _ |- _ => rewrite Hr end.
    destruct n as [|n]; [lia|]. cbn [Nat.eqb] in *.
    match goal with Hc : (handle _ _).1 = None |- _ => rewrite Hc end.
    apply IH; [lia|done|done].
Qed.

(** From the result to attempts. *)
Lemma retries_loop_sound n d (w w' : W) out :
  run (retries_loop operation (S n) d) w = (Val out, w') ->
  exists k w1, (k <= n)%nat /\ failed (replicate k d) w w1 /\
    final_attempt d (k =? n)%nat w1 out w'.
Proof.
  revert w; induction n as [|n IH]; intros w; rewrite retries_loop_step.
  { intros Hrun. exists 0%nat, w. split; [lia|]. split; [constructor|]. cbn.
    destruct (run operation w) as [[[[]|e]|h] w1]; cbn in Hrun; congruence. }
  destruct (run operation w) as [[[[]|e]|h] w1] eqn:Hop; [| |done].
  { intros [= <- <-]. exists 0%nat, w. split; [lia|]. split; [constructor|].
    by apply last_ok. }
  cbn [Nat.eqb]. destruct (handle (CtxOrTimer d) w1).1 as [ce|] eqn:Hc.
  { intros [= <- <-]. exists 0%nat, w. split; [lia|]. split; [constructor|].
    by eapply last_cancelled. }
  intros (k & w2 & Hk & Hf & Hl)%IH. exists (S k), w2. split; [lia|].
  split; [by eapply failed_more|done].
Qed.
End spec.

Arguments failed {W _} operation _ _ _.
Arguments last_attempt {W _} operation d w _ _.

(** ** The delays *)

Lemma next_delay_le opts d : next_delay opts d <= MaxDelay opts.
Proof. unfold next_delay. destruct (Z.ltb_spec (MaxDelay opts) (int64_of_float
  (float64_mul (float64_of_int d) (Multiplier opts)))); lia. Qed.

(** The delays of the default options: 1, 2, 4, 8, 16 and then 30 seconds for ever. *)
Lemma delay_default k : delay DefaultOptions k = Z.min (2 ^ Z.of_nat k) 30 * Second.
Proof.
  assert (Hfix : forall k, delay DefaultOptions (5 + k) = 30 * Second).
  { intros j. induction j as [|j IH]; [vm_compute; reflexivity|].
    rewrite Nat.add_succ_r. cbn [delay]. rewrite IH. vm_compute. reflexivity. }
  do 5 (destruct k as [|k]; [vm_compute; reflexivity|]).
  replace (S (S (S (S (S k))))) with (5 + k)%nat by lia. rewrite Hfix.
  rewrite Z.min_r; [done|]. rewrite Nat2Z.inj_add, Z.pow_add_r by lia.
  change (2 ^ Z.of_nat 5) with 32. pose proof (Z.pow_pos_nonneg 2 (Z.of_nat k)). lia.
Qed.

(** The delays of a run, the last wait included: the first one is [InitialDelay], whatever
    [MaxDelay] is, and the later ones are limited by it. *)
Definition limited (opts : Options) (ds : list Z) : Prop :=
  head ds = Some (InitialDelay opts) /\ Forall (fun d => d <= MaxDelay opts) (tail ds).

Lemma delays_limited opts n :
  limited opts (delays_from opts (InitialDelay opts) n ++ [iter_delay opts (InitialDelay opts) n]).
Proof.
  assert (Hle : forall n d, d <= MaxDelay opts ->
    Forall (fun d => d <= MaxDelay opts) (delays_from opts d n ++ [iter_delay opts d n])).
  { intros m; induction m as [|m IH]; intros d Hd; cbn; [by repeat constructor|].
    constructor; [done|]. apply IH, next_delay_le. }
  destruct n as [|n]; (split; [done|]); cbn [delays_from iter_delay app tail]; [done|].
  apply Hle, next_delay_le.
Qed.

(** ** Properties *)

(** C34: what [WithExponentialBackoff] does.  With the default options it returns exactly
    when, after some number of failed attempts separated by waits of 1, 2, 4, 8, 16 and
    then always 30 seconds, an attempt succeeds (the result is nil) or fails and the
    context ends during the next wait of that sequence (the result is the context's
    error).  The bound of the model only has to be as large as the number of waits.  With
    any options (a multiplier that is not a number or infinite included) the first wait is
    [InitialDelay], even above [MaxDelay], and every later one is at most [MaxDelay]. *)
Theorem WithExponentialBackoff_outcome `{World W} operation fuel opts (w w' : W) out :
  (run (WithExponentialBackoff operation fuel DefaultOptions) w = (Val out, w') <->
   exists n w1, (n <= fuel)%nat /\
     failed operation ((fun k => Z.min (2 ^ Z.of_nat k) 30 * Second) <$> seq 0 n) w w1 /\
     last_attempt operation (Z.min (2 ^ Z.of_nat n) 30 * Second) w1 out w') /\
  (run (WithExponentialBackoff operation fuel opts) w = (Val out, w') ->
   exists ds d w1, (length ds <= fuel)%nat /\ limited opts (ds ++ [d]) /\
     failed operation ds w w1 /\ last_attempt operation d w1 out w').
Proof.
  unfold WithExponentialBackoff. split.
  - rewrite backoff_loop_iff.
    setoid_rewrite (fun n => delays_from_delay DefaultOptions n _ 0 eq_refl).
    setoid_rewrite (fun n => iter_delay_delay DefaultOptions n _ 0 eq_refl).
    setoid_rewrite delay_default. setoid_rewrite (list_fmap_ext _ _ _ (fun _ k _ => delay_default k)).
    done.
  - intros (n & w1 & Hn & Hf & Hl)%backoff_loop_iff.
    exists (delays_from opts (InitialDelay opts) n), (iter_delay opts (InitialDelay opts) n), w1.
    split; [|split; [apply (delays_limited opts n)|done]].
    rewrite (delays_from_delay opts n (InitialDelay opts) 0 eq_refl).
    by rewrite length_fmap, length_seq.
Qed.

(** What [WithRetries] does.  With a positive number of attempts it returns exactly
    when, after fewer than [attempts] failed attempts separated by the delay, an attempt
    succeeds, or the context ends during a wait, or the last allowed attempt fails, whose
    error it returns.  With zero or fewer attempts it returns nil without trying. *)
Theorem WithRetries_outcome `{World W} operation (attempts d : Z) (w w' : W) out :
  run (WithRetries operation attempts d) w = (Val out, w') <->
  if attempts <=? 0 then out = Ok () /\ w' = w
  else exists k w1, (Z.of_nat k < attempts) /\ failed operation (replicate k d) w w1 /\
    final_attempt operation d (Z.of_nat k =? attempts - 1) w1 out w'.
Proof.
  unfold WithRetries. destruct (Z.leb_spec attempts 0) as [Hle|Hlt].
  { replace (Z.to_nat attempts) with 0%nat by lia. cbn. split; [by intros [= <- <-]|].
    by intros [-> ->]. }
  destruct (Z.to_nat attempts) as [|n] eqn:Hn; [lia|].
  assert (Hlast : forall k, (Z.of_nat k =? attempts - 1) = (k =? n)%nat).
  { intros k. apply Bool.eq_true_iff_eq. rewrite Z.eqb_eq, Nat.eqb_eq. lia. }
  split.
  - intros (k & w1 & Hk & Hf & Hl)%retries_loop_sound. exists k, w1.
    rewrite Hlast. split; [lia|done].
  - intros (k & w1 & Hk & Hf & Hl). rewrite Hlast in Hl.
    eapply retries_loop_complete; [|done|done]. lia.
Qed.
End Retry.
