(* ===== verification/Kubelet.v ===== *)
(** * Kubelet: running the pods of a node (src/pkg/kubelet/kubelet.go)

    The kubelet registers its node, polls the API server for its pods, starts their
    containers through Docker and reports their status.  HTTP and Docker are external
    calls.  This file has the operations that run in one goroutine; the goroutines that
    poll and report, and the memory they share, are in KubeletRuntime.  Logging has no
    effect on the state and is left out. *)

From stdpp Require Import pretty.
From S2P Require Import Prelude Errors Effects Api Storage Reference Names.

Module Kubelet.

Record Kubelet := mkKubelet {
  nodeName : string;
  apiServerURL : string;
  pods : gmap string Pod }.

(** [dockerClient] is the outcome of creating the Docker client from the environment. *)
Definition NewKubelet (nodeName apiServerURL : string) (dockerClient : result unit)
  : result Kubelet :=
  match dockerClient with
  | Err err => Err (ErrText ("failed to create Docker client: " +:+ Error err))
  | Ok _ => Ok (mkKubelet nodeName apiServerURL ∅)
  end.

Definition GetNodeName (k : Kubelet) : string := nodeName k.

(** [fmt.Errorf(msg + ": %w", err)]. *)
Definition wrapf (msg : string) (err : error) : error :=
  ErrWrap (msg +:+ ": " +:+ Error err) err.

Definition StatusOK : Z := 200.
Definition StatusCreated : Z := 201.

(** [json.NewDecoder(body).Decode(&pods)] into a nil slice of pointers: an element may be
    [null], a nil pointer. *)
Class PodListDecoder := decode_pods : string -> result (slice (option Pod)).

(** ** Talking to the API server *)

Section api.
Context `{Object Node, Object Pod, PodListDecoder}.
Variable k : Kubelet.

Definition registerNode : prog (result unit) :=
  let node := mkNode (meta_named (nodeName k)) (mkNodeSpec false "") NodeReady in
  match Encode node with
  | Err err => mret (Err (wrapf "failed to marshal node data" err))
  | Ok jsonData =>
      resp ← call (HttpDo "POST" ("http://" +:+ apiServerURL k +:+ "/api/v1/nodes") jsonData);
      match resp with
      | Err err => mret (Err (wrapf "failed to send request to API server" err))
      | Ok (statusCode, _) =>
          if statusCode =? StatusCreated then mret (Ok ())
          else mret (Err (ErrText ("failed to register node, status code: "
                                   +:+ pretty statusCode)))
      end
  end.

(** The goroutines [Start] leaves running. *)
Inductive goroutine := WatchPods | UpdatePodStatuses.

Definition Start : prog (result (list goroutine)) :=
  err ← registerNode;
  match err with
  | Err err => mret (Err (wrapf "failed to register node" err))
  | Ok _ => mret (Ok [WatchPods; UpdatePodStatuses])
  end.

Definition getPodAssignments : prog (result (slice (option Pod))) :=
  resp ← call (HttpDo "GET" ("http://" +:+ apiServerURL k +:+ "/api/v1/pods?nodeName="
                             +:+ nodeName k) "");
  match resp with
  | Err err => mret (Err err)
  | Ok (_, body) =>
      match decode_pods body with
      | Err err => mret (Err err)
      | Ok pods => mret (Ok pods)
      end
  end.

(** The request's URL may fail to parse: [url_ok] is the outcome of [http.NewRequest]. *)
Definition updatePodStatus (url_ok : string -> result unit) (pod : Pod) : prog (result unit) :=
  let url := "http://" +:+ apiServerURL k +:+ "/api/v1/pods/" +:+ Pod_Name pod in
  match Encode pod with
  | Err err => mret (Err (wrapf "failed to marshal pod data" err))
  | Ok jsonData =>
      match url_ok url with
      | Err err => mret (Err (wrapf "failed to create request" err))
      | Ok _ =>
          resp ← call (HttpDo "PUT" url jsonData);
          match resp with
          | Err err => mret (Err (wrapf "failed to send request to API server" err))
          | Ok (statusCode, _) =>
              if statusCode =? StatusOK then mret (Ok ())
              else mret (Err (ErrText ("failed to update pod status, status code: "
                                       +:+ pretty statusCode)))
          end
      end
  end.
End api.

(** ** Starting pods *)

Definition set_pods (ps : gmap string Pod) (k : Kubelet) : Kubelet :=
  mkKubelet (nodeName k) (apiServerURL k) ps.

(** What a poll comes to, as a function: the kubelet afterwards and the pods for which a
    goroutine [runPod] is started, in order.  The loop itself, which shares the map with
    another goroutine, is [KubeletRuntime.runNewPods]; it is proved to agree with this in
    every interleaving. *)
Fixpoint runNewPods (k : Kubelet) (assigned : list Pod) : Kubelet * list Pod :=
  match assigned with
  | [] => (k, [])
  | pod :: assigned =>
      match pods k !! Pod_Name pod with
      | Some _ => runNewPods k assigned
      | None =>
          let k := set_pods (<[Pod_Name pod := pod]> (pods k)) k in
          let '(k, started) := runNewPods k assigned in
          (k, pod :: started)
      end
  end.

(** [StartContainer]; an image that cannot be pulled is a panic.  [fuel] bounds the name
    generator's loop. *)
Definition StartContainer (fuel : nat) (pod : Pod) (containerName imageName : string)
  : prog (result unit) :=
  out ← call (ImagePull imageName);
  match out with
  | Err err => Halt (Panic (Error err))
  | Ok _ =>
      copied ← call (ImageCopy imageName);
      match copied with
      | Err err =>
          mret (Err (ErrText ("failed to pull image " +:+ imageName +:+ ": " +:+ Error err)))
      | Ok _ =>
          let labels : gmap string string :=
            <["gokube.pod.name" := Pod_Name pod]>
            (<["gokube.pod.namespace" := Namespace (Pod_ObjectMeta pod)]>
             {[ "gokube.container.name" := containerName ]}) in
          uniqueContainerName ←
            Names.GenerateName fuel (Pod_Name pod +:+ "-" +:+ containerName);
          resp ← call (ContainerCreate uniqueContainerName imageName labels);
          match resp with
          | Err err =>
              mret (Err (ErrText ("failed to create container " +:+ containerName +:+ ": "
                                  +:+ Error err)))
          | Ok id =>
              out ← call (ContainerStart id);
              match out with
              | Err err =>
                  mret (Err (ErrText ("failed to start container " +:+ containerName +:+ ": "
                                      +:+ Error err)))
              | Ok _ => mret (Ok ())
              end
          end
      end
  end.

(** The loop of [runPod]: a container that does not start is logged and skipped. *)
Fixpoint run_containers (fuel : nat) (pod : Pod) (containers : list Container) : prog unit :=
  match containers with
  | [] => mret ()
  | c :: containers =>
      _ ← StartContainer fuel pod (Container_Name c) (Image c);
      run_containers fuel pod containers
  end.

Definition runPod (fuel : nat) (pod : Pod) : prog unit :=
  run_containers fuel pod (elems (Containers (Pod_Spec pod))).

(** ** The status of a pod *)

Record containerState := mkContainerState {
  exists_ : bool;
  running : bool;
  exitCode : Z }.

Definition getContainerState (containerName : string) : prog (result containerState) :=
  info ← call (ContainerInspect containerName);
  match info with
  | InspectNotFound => mret (Ok (mkContainerState false false 0))
  | InspectError err => mret (Err err)
  | Inspected r code => mret (Ok (mkContainerState true r code))
  end.

Fixpoint allContainersSucceeded (states : list containerState) : bool :=
  match states with
  | [] => true
  | state :: states =>
      if negb (exitCode state =? 0) then false else allContainersSucceeded states
  end.

Fixpoint anyContainerRunning (states : list containerState) : bool :=
  match states with
  | [] => false
  | state :: states => if running state then true else anyContainerRunning states
  end.

Fixpoint allContainersFailed (states : list containerState) : bool :=
  match states with
  | [] => true
  | state :: states =>
      if exists_ state && (exitCode state =? 0) then false else allContainersFailed states
  end.

Fixpoint anyContainerExists (states : list containerState) : bool :=
  match states with
  | [] => false
  | state :: states => if exists_ state then true else anyContainerExists states
  end.

Definition determinePodStatus (states : list containerState) : PodStatus :=
  if anyContainerRunning states then PodRunning
  else if allContainersFailed states && anyContainerExists states then PodFailed
  else if allContainersSucceeded states then PodSucceeded
  else PodScheduled.

(** The loop of [getPodStatus], collecting the states. *)
Fixpoint get_states (containers : list Container) (containerStates : list containerState)
  : prog (PodStatus * option error) :=
  match containers with
  | [] => mret (determinePodStatus containerStates, None)
  | c :: containers =>
      got ← getContainerState (Container_Name c);
      match got with
      | Err err =>
          mret (PodRunning, Some (wrapf ("failed to get state for container "
                                         +:+ Container_Name c) err))
      | Ok state => get_states containers (containerStates ++ [state])
      end
  end.

Definition getPodStatus (pod : Pod) : prog (PodStatus * option error) :=
  get_states (elems (Containers (Pod_Spec pod))) [].

(** ** Reporting *)

Section report.
Context `{Object Pod}.
Variable url_ok : string -> result unit.

(** What the body of the loop of [updatePodStatuses] comes to for the pod under one name,
    while no other goroutine runs.  The status is assigned in the kubelet's own map before
    it is sent. *)
Definition update_one (k : Kubelet) (name : string) : prog Kubelet :=
  match pods k !! name with
  | None => mret k
  | Some pod =>
      got ← getPodStatus pod;
      match got.2 with
      | Some _ => mret k
      | None =>
          if bool_decide (Pod_Status pod <> got.1) then
            let pod := set_status got.1 pod in
            let k := set_pods (<[name := pod]> (pods k)) k in
            _ ← updatePodStatus k url_ok pod;
            mret k
          else mret k
      end
  end.
End report.

(** ** Containers of this node *)

Record ContainerStatus := mkContainerStatus {
  PodName : string;
  ContainerName : string;
  ContainerID : string;
  CStatus : string }.

(** The pod of this node a container belongs to, by its label. *)
Definition own_pod (k : Kubelet) (c : ContainerSummary) : option (string * Pod) :=
  match cs_labels c !! "gokube.pod.name" with
  | None => None
  | Some podName =>
      match pods k !! podName with
      | Some pod => if bool_decide (NodeName pod <> nodeName k) then None else Some (podName, pod)
      | None => None
      end
  end.

(** The inner loop: the first container of the spec with the label's name. *)
Fixpoint find_spec (podName : string) (c : ContainerSummary) (specs : list Container)
  : list ContainerStatus :=
  match specs with
  | [] => []
  | spec :: specs =>
      if bool_decide (Container_Name spec =
                      default "" (cs_labels c !! "gokube.container.name"))
      then [mkContainerStatus podName (Container_Name spec) (cs_id c) (cs_state c)]
      else find_spec podName c specs
  end.

Fixpoint list_statuses (k : Kubelet) (containers : list ContainerSummary)
    (statuses : slice ContainerStatus) : slice ContainerStatus :=
  match containers with
  | [] => statuses
  | c :: containers =>
      match own_pod k c with
      | None => list_statuses k containers statuses
      | Some (podName, pod) =>
          list_statuses k containers
            (append_slice statuses (find_spec podName c (elems (Containers (Pod_Spec pod)))))
      end
  end.

Definition ListContainers (k : Kubelet) : prog (result (slice ContainerStatus)) :=
  got ← call (ContainerList false);
  match got with
  | Err err => mret (Err (ErrText ("failed to list containers: " +:+ Error err)))
  | Ok containers => mret (Ok (list_statuses k containers None))
  end.

Fixpoint remove_own (k : Kubelet) (containers : list ContainerSummary) : prog unit :=
  match containers with
  | [] => mret ()
  | c :: containers =>
      match own_pod k c with
      | None => remove_own k containers
      | Some _ => _ ← call (ContainerRemove (cs_id c)); remove_own k containers
      end
  end.

Definition CleanupContainers (k : Kubelet) : prog (result unit) :=
  got ← call (ContainerList true);
  match got with
  | Err err => mret (Err (ErrText ("error listing containers for cleanup: " +:+ Error err)))
  | Ok containers => _ ← remove_own k containers; mret (Ok ())
  end.

(** ** Lemmas on the status of a pod *)

Lemma allContainersSucceeded_spec states :
  allContainersSucceeded states = true <-> Forall (fun s => exitCode s = 0) states.
Proof.
  induction states as [|s states IH]; cbn; [done|].
  rewrite Forall_cons, <- IH. destruct (Z.eqb_spec (exitCode s) 0); cbn; intuition congruence.
Qed.

Lemma anyContainerRunning_spec states :
  anyContainerRunning states = true <-> Exists (fun s => running s = true) states.
Proof.
  induction states as [|s states IH]; cbn; [by rewrite Exists_nil|].
  rewrite Exists_cons, <- IH. destruct (running s); intuition congruence.
Qed.

Lemma allContainersFailed_spec states :
  allContainersFailed states = true <->
  Forall (fun s => exists_ s = true -> exitCode s <> 0) states.
Proof.
  induction states as [|s states IH]; cbn; [done|].
  rewrite Forall_cons, <- IH. destruct (exists_ s), (Z.eqb_spec (exitCode s) 0); cbn;
    intuition congruence.
Qed.

Lemma anyContainerExists_spec states :
  anyContainerExists states = true <-> Exists (fun s => exists_ s = true) states.
Proof.
  induction states as [|s states IH]; cbn; [by rewrite Exists_nil|].
  rewrite Exists_cons, <- IH. destruct (exists_ s); intuition congruence.
Qed.

(** A pod cannot be failed and succeeded at once. *)
Lemma failed_not_succeeded states :
  Forall (fun s => exists_ s = true -> exitCode s <> 0) states ->
  Exists (fun s => exists_ s = true) states ->
  ~ Forall (fun s => exitCode s = 0) states.
Proof.
  intros Hf (s & Hin & Hs)%Exists_exists Hz. rewrite Forall_forall in Hf, Hz.
  by apply (Hf s); auto.
Qed.

(** ** Starting pods *)

Lemma runNewPods_spec k assigned :
  let '(k', started) := runNewPods k assigned in
  nodeName k' = nodeName k /\
  NoDup (Pod_Name <$> started) /\
  Forall (fun pod => pods k !! Pod_Name pod = None /\ pod ∈ assigned) started /\
  (forall n, pods k' !! n =
     match pods k !! n with
     | Some p => Some p
     | None => List.find (fun p => bool_decide (Pod_Name p = n)) started
     end) /\
  Forall (fun pod => is_Some (pods k' !! Pod_Name pod)) assigned.
Proof.
  revert k; induction assigned as [|pod assigned IH]; intros k; cbn [runNewPods].
  { split; [done|]. split; [constructor|]. split; [constructor|]. split; [|constructor].
    intros n. by destruct (pods k !! n). }
  destruct (pods k !! Pod_Name pod) as [p|] eqn:Hp.
  - specialize (IH k). destruct (runNewPods k assigned) as [k' started].
    destruct IH as (Hn & Hnd & Hst & Hpods & Has). split; [done|]. split; [done|]. split.
    { eapply Forall_impl; [exact Hst|]. intros q [? ?]. split; [done|by right]. }
    split; [done|]. constructor; [|done]. rewrite Hpods, Hp. by eexists.
  - specialize (IH (set_pods (<[Pod_Name pod := pod]> (pods k)) k)).
    destruct (runNewPods _ assigned) as [k' started]. cbn [pods set_pods nodeName] in IH.
    destruct IH as (Hn & Hnd & Hst & Hpods & Has).
    assert (Hfresh : Forall (fun q => Pod_Name q <> Pod_Name pod /\ pods k !! Pod_Name q = None)
                       started).
    { eapply Forall_impl; [exact Hst|]. intros q [Hq _].
      apply lookup_insert_None in Hq as [? ?]. done. }
    split; [done|]. split.
    { rewrite fmap_cons. constructor; [|done]. intros (q & Hq & Hin)%list_elem_of_fmap.
      rewrite Forall_forall in Hfresh. by apply (Hfresh q Hin). }
    split.
    { constructor; [by split; [|left]|]. rewrite Forall_forall in Hst, Hfresh |- *.
      intros q Hq. split; [by apply Hfresh|right; by apply Hst]. }
    split; [|constructor; [rewrite Hpods, lookup_insert_eq; by eexists|done]].
    intros n. rewrite Hpods. cbn [List.find].
    destruct (decide (Pod_Name pod = n)) as [<-|Hne].
    { by rewrite lookup_insert_eq, Hp, bool_decide_eq_true_2. }
    by rewrite lookup_insert_ne, bool_decide_eq_false_2.
Qed.

(** The kubelet after several polls, and all pods started. *)
Fixpoint polls (k : Kubelet) (rounds : list (list Pod)) : Kubelet * list Pod :=
  match rounds with
  | [] => (k, [])
  | assigned :: rounds =>
      let '(k1, started) := runNewPods k assigned in
      let '(k2, more) := polls k1 rounds in
      (k2, started ++ more)
  end.

Lemma polls_spec k rounds :
  let '(k', started) := polls k rounds in
  NoDup (Pod_Name <$> started) /\
  Forall (fun pod => pods k !! Pod_Name pod = None) started /\
  (forall n p, pods k !! n = Some p -> pods k' !! n = Some p) /\
  Forall (fun pod => is_Some (pods k' !! Pod_Name pod)) (concat rounds).
Proof.
  revert k; induction rounds as [|assigned rounds IH]; intros k; cbn [polls concat].
  { split; [constructor|]. split; [constructor|]. split; [done|constructor]. }
  pose proof (runNewPods_spec k assigned) as H1. destruct (runNewPods k assigned) as [k1 st1].
  destruct H1 as (_ & Hnd1 & Hst1 & Hpods1 & Has1). specialize (IH k1).
  destruct (polls k1 rounds) as [k2 st2]. destruct IH as (Hnd2 & Hst2 & Hkeep2 & Has2).
  assert (Hkeep1 : forall n p, pods k !! n = Some p -> pods k1 !! n = Some p).
  { intros n p Hp. by rewrite Hpods1, Hp. }
  split; [|split; [|split]].
  - rewrite fmap_app. apply NoDup_app. split; [done|]. split; [|done].
    intros n (p & -> & Hp)%list_elem_of_fmap (q & Hq & Hin)%list_elem_of_fmap.
    rewrite Forall_forall in Hst1, Hst2. specialize (Hst2 q Hin). rewrite <- Hq in Hst2.
    rewrite Hpods1, (proj1 (Hst1 p Hp)) in Hst2.
    apply (List.find_none _ _) with (x:=p) in Hst2; [|by apply list_elem_of_In].
    by rewrite bool_decide_eq_true_2 in Hst2.
  - apply Forall_app. split; [eapply Forall_impl; [exact Hst1|]; by intros q [? _]|].
    eapply Forall_impl; [exact Hst2|]. cbn. intros q Hq.
    destruct (pods k !! Pod_Name q) as [p|] eqn:Hp; [|done].
    by rewrite (Hkeep1 _ _ Hp) in Hq.
  - intros n p Hp. by apply Hkeep2, Hkeep1.
  - apply Forall_app. split; [|done]. eapply Forall_impl; [exact Has1|].
    intros q [p Hp]. exists p. by apply Hkeep2.
Qed.

(** ** What starting a pod asks of Docker *)

(** The name under which a container of [pod] is created. *)
Definition created_name (pod : Pod) (c : Container) (name : string) : Prop :=
  exists suffix, String.length suffix = 5%nat /\
    name = Names.cut (Pod_Name pod +:+ "-" +:+ Container_Name c) +:+ suffix.

Definition created_labels (pod : Pod) (c : Container) : gmap string string :=
  <["gokube.pod.name" := Pod_Name pod]>
  (<["gokube.pod.namespace" := Namespace (Pod_ObjectMeta pod)]>
   {[ "gokube.container.name" := Container_Name c ]}).

(** The calls made to run a pod: images are pulled, and containers are created for the
    containers of the spec, with its image, and started. *)
Definition run_call (pod : Pod) (e : ext) : Prop :=
  match e with
  | RandInt63 | ImagePull _ | ImageCopy _ | ContainerStart _ => True
  | ContainerCreate name image labels =>
      exists c, c ∈ elems (Containers (Pod_Spec pod)) /\ image = Image c /\
        created_name pod c name /\ labels = created_labels pod c
  | _ => False
  end.

Lemma StartContainer_behaves fuel pod c :
  c ∈ elems (Containers (Pod_Spec pod)) ->
  behaves (run_call pod) (fun _ => True)
    (StartContainer fuel pod (Container_Name c) (Image c)).
Proof.
  intros Hc. unfold StartContainer.
  eapply behaves_bind; [by apply behaves_call|]. intros [[]|e] _; [|done].
  eapply behaves_bind; [by apply behaves_call|]. intros [[]|e] _; [|done].
  eapply behaves_bind.
  { eapply behaves_mono; [apply Names.GenerateName_behaves|by intros e <-|].
    intros name Hname. exact Hname. }
  intros name (suffix & Hname & Hlen). eapply behaves_bind.
  { apply behaves_call. exists c. split; [done|]. split; [done|]. split; [by exists suffix|done]. }
  intros [id|e] _; [|done].
  eapply behaves_bind; [by apply behaves_call|]. by intros [[]|e] _.
Qed.

Lemma run_containers_behaves fuel pod cs :
  (forall c, c ∈ cs -> c ∈ elems (Containers (Pod_Spec pod))) ->
  behaves (run_call pod) (fun _ => True) (run_containers fuel pod cs).
Proof.
  induction cs as [|c cs IH]; intros Hcs; cbn [run_containers]; [done|].
  eapply behaves_bind; [apply StartContainer_behaves, Hcs; by left|].
  intros _ _. apply IH. intros d Hd. apply Hcs. by right.
Qed.

Lemma runPod_behaves fuel pod : behaves (run_call pod) (fun _ => True) (runPod fuel pod).
Proof. by apply run_containers_behaves. Qed.

(** The inner loop of [ListContainers] finds the container a label names. *)
Lemma find_spec_listed podName c id state specs labels :
  c ∈ specs -> labels !! "gokube.container.name" = Some (Container_Name c) ->
  find_spec podName (mkContainerSummary id state labels) specs =
  [mkContainerStatus podName (Container_Name c) id state].
Proof.
  intros Hc Hl. induction specs as [|d specs IH]; [by apply not_elem_of_nil in Hc|].
  cbn [find_spec cs_labels cs_id cs_state]. rewrite Hl. cbn [default].
  case_bool_decide as Hd; cbn in Hd; [by rewrite Hd|].
  apply elem_of_cons in Hc as [->|Hc]; [done|by apply IH].
Qed.

(** ** What the code relies on of Docker *)

(** Container IDs are hexadecimal. *)
Definition hex_digit (c : Ascii.ascii) : bool :=
  Names.occurs c "0123456789abcdef".

(** Docker: [known w s] when [s] refers to a container (by name, with or without a leading
    slash, ID or a prefix of the ID).  The daemon answers: inspecting anything else reports
    that there is no such container.  It is the kubelet's own: only a container the kubelet
    creates makes new references, its name and its ID. *)
Class DockerLaws (W : Type) `{World W} := {
  known : W -> string -> Prop;
  docker_inspect : forall s w,
    ~ known w s -> (handle (ContainerInspect s) w).1 = InspectNotFound;
  docker_create : forall name image labels w s,
    known (handle (ContainerCreate name image labels) w).2 s ->
    known w s \/ s = name \/ s = "/" +:+ name \/ str_forall hex_digit s = true;
  docker_frame : forall e w s,
    match e with ContainerCreate _ _ _ => False | _ => True end ->
    known (handle e w).2 s -> known w s }.

#[export] Program Instance ref_DockerLaws : DockerLaws ref_world := {
  known w s := is_Some (rw_docker w !! s) \/ str_forall hex_digit s = true }.
Next Obligation.
  intros s w Hs. unfold handle; cbn. destruct (rw_docker w !! s) as [[]|] eqn:Hd; [|done].
  destruct Hs. left. by eexists.
Qed.
Next Obligation.
  intros name image labels w s [Hs|Hs]; [|tauto]. unfold handle in Hs; cbn in Hs.
  destruct (decide (s = name)) as [->|Hne]; [tauto|]. rewrite lookup_insert_ne in Hs by done. tauto.
Qed.
Next Obligation.
  intros e w s He [Hs|Hs]; [left|by right]. revert Hs.
  destruct e; unfold handle; cbn; unfold etcd_step; try done;
    try (destruct (next_fault w); done).
  - intros [x Hx]. destruct (decide (s = id)) as [->|Hne].
    + rewrite lookup_alter_eq in Hx. by destruct (rw_docker w !! id).
    + rewrite lookup_alter_ne in Hx by done. by eexists.
  - intros [x [_ Hx]%lookup_delete_Some]. by eexists.
Qed.

(** The references to containers only grow by what [runPod] creates. *)
Section docker.
Context `{DockerLaws W}.

(** From [w] to [w'] only references that satisfy [P] were added. *)
Definition only_new (P : string -> Prop) (w w' : W) : Prop :=
  forall s, known w' s -> known w s \/ P s.

#[local] Instance only_new_preorder P : PreOrder (only_new P).
Proof.
  split; [by left|]. intros w1 w2 w3 H12 H23 s Hs. destruct (H23 s Hs) as [Hs'|]; [|by right].
  by apply H12.
Qed.

(** What may refer to the containers of a pod: an ID, or a name it created. *)
Definition new_reference (pod : Pod) (s : string) : Prop :=
  str_forall hex_digit s = true \/
  (exists c, c ∈ elems (Containers (Pod_Spec pod)) /\ created_name pod c s) \/
  exists name, s = "/" +:+ name.

Lemma run_call_new pod e (w : W) :
  run_call pod e ->
  only_new (new_reference pod) w (handle e w).2.
Proof.
  intros He s Hs. destruct e; try done; try (left; by eapply docker_frame in Hs).
  destruct He as (c & Hc & _ & Hname & _).
  apply docker_create in Hs as [?|[->|[->|?]]];
    [by left|right; right; left; by exists c|right; right; right; by eexists|right; by left].
Qed.

Lemma runPod_new fuel pod (w : W) :
  only_new (new_reference pod) w (run (runPod fuel pod) w).2.
Proof.
  exact (proj1 (behaves_run (only_new _) _ _ _ w (runPod_behaves fuel pod) (run_call_new pod))).
Qed.

(** A container with such a name is not found under its name in the spec. *)
Lemma created_name_prefix pod c name :
  (String.length (Pod_Name pod) < Names.MaxGeneratedNameLength)%nat ->
  created_name pod c name -> HasPrefix name (Pod_Name pod +:+ "-") = true.
Proof.
  intros Hlen (suffix & _ & ->). unfold Names.cut.
  change Names.MaxGeneratedNameLength with 58%nat in *.
  rewrite <- str_app_assoc. rewrite str_take_app by (rewrite str_app_length; cbn; lia).
  rewrite str_app_assoc. apply HasPrefix_app.
Qed.

(** Inspecting unknown containers gives states of containers that do not exist. *)
Lemma get_states_unknown cs states (w : W) :
  Forall (fun c => ~ known w (Container_Name c)) cs ->
  exists w', run (get_states cs states) w =
    (Val (determinePodStatus (states ++ replicate (length cs) (mkContainerState false false 0)),
          None), w').
Proof.
  revert states w; induction cs as [|c cs IH]; intros states w Hcs; cbn [get_states].
  { exists w. cbn. by rewrite app_nil_r. }
  apply Forall_cons in Hcs as [Hc Hcs]. rewrite run_bind. unfold getContainerState.
  rewrite run_bind. unfold call. cbn [run].
  pose proof (docker_inspect (Container_Name c) w Hc) as Hi.
  pose proof (docker_frame (ContainerInspect (Container_Name c)) w) as Hfr.
  destruct (handle (ContainerInspect (Container_Name c)) w) as [info w1]. cbn in Hi, Hfr.
  subst info. cbn [run].
  destruct (IH (states ++ [mkContainerState false false 0]) w1) as [w' Hw'].
  { eapply Forall_impl; [exact Hcs|]. intros d Hd Hk. apply Hd. by apply Hfr. }
  exists w'. etrans; [exact Hw'|]. by rewrite <- app_assoc.
Qed.

Lemma status_nonexistent n :
  determinePodStatus (replicate n (mkContainerState false false 0)) = PodSucceeded.
Proof.
  unfold determinePodStatus.
  assert (anyContainerRunning (replicate n (mkContainerState false false 0)) = false) as ->
    by (by induction n).
  assert (anyContainerExists (replicate n (mkContainerState false false 0)) = false) as ->
    by (by induction n).
  assert (allContainersSucceeded (replicate n (mkContainerState false false 0)) = true) as ->
    by (by induction n).
  by rewrite andb_false_r.
Qed.
End docker.

(** ** Properties *)

(** The table of [determinePodStatus].  A pod is Running when some container runs; else
    Failed when some container exists and every existing one exited with an error; else
    Succeeded when every exit code is zero; else Scheduled. *)
Theorem determinePodStatus_table (states : list containerState) :
  let any_running := Exists (fun s => running s = true) states in
  let any_exists := Exists (fun s => exists_ s = true) states in
  let all_failed := Forall (fun s => exists_ s = true -> exitCode s <> 0) states in
  let all_zero := Forall (fun s => exitCode s = 0) states in
  (determinePodStatus states = PodRunning <-> any_running) /\
  (determinePodStatus states = PodFailed <-> ~ any_running /\ all_failed /\ any_exists) /\
  (determinePodStatus states = PodSucceeded <-> ~ any_running /\ all_zero) /\
  (determinePodStatus states = PodScheduled <->
     ~ any_running /\ ~ (all_failed /\ any_exists) /\ ~ all_zero).
Proof.
  cbn zeta. pose proof (failed_not_succeeded states) as Hfs. unfold determinePodStatus.
  pose proof (anyContainerRunning_spec states) as Hr.
  pose proof (anyContainerExists_spec states) as He.
  pose proof (allContainersFailed_spec states) as Hf.
  pose proof (allContainersSucceeded_spec states) as Hz.
  destruct (anyContainerRunning states), (anyContainerExists states),
    (allContainersFailed states), (allContainersSucceeded states); cbn;
    intuition (try congruence; try done).
Qed.

(** C36: the kubelet reports pods it has just started as Succeeded.  [runPod] creates the
    containers under generated names, [getPodStatus] looks for them under the names of
    the spec: when the pod's name has fewer than 58 bytes and no container of the spec has
    a name known to Docker before, hexadecimal, or starting with the pod's name and a
    dash or with a slash, every container counts as not existing, with exit code zero. *)
Theorem runPod_reports_succeeded `{DockerLaws W} fuel pod (w w' : W) :
  (String.length (Pod_Name pod) < Names.MaxGeneratedNameLength)%nat ->
  Forall (fun c => ~ known w (Container_Name c) /\
    str_forall hex_digit (Container_Name c) = false /\
    HasPrefix (Container_Name c) (Pod_Name pod +:+ "-") = false /\
    HasPrefix (Container_Name c) "/" = false)
    (elems (Containers (Pod_Spec pod))) ->
  run (runPod fuel pod) w = (Val (), w') ->
  exists w'', run (getPodStatus pod) w' = (Val (PodSucceeded, None), w'').
Proof.
  intros Hlen Hcs Hrun. pose proof (runPod_new fuel pod w) as Hnew. rewrite Hrun in Hnew.
  destruct (get_states_unknown (elems (Containers (Pod_Spec pod))) [] w') as [w'' Hw''].
  - eapply Forall_impl; [exact Hcs|]. intros c (Hk & Hhex & Hpre & Hslash) Hk'.
    destruct (Hnew _ Hk') as [?|[?|[(d & _ & Hd)|[name Hd]]]]; [done|congruence| |].
    + apply created_name_prefix in Hd; [congruence|done].
    + by rewrite Hd, HasPrefix_app in Hslash.
  - exists w''. unfold getPodStatus. rewrite Hw''. cbn [app]. by rewrite status_nonexistent.
Qed.

(** Every pod is started at most once.  Over any sequence of polls, the pods for which
    [runPod] is started have distinct names and were not known before; known pods keep
    the version first seen; and every assigned pod is known in the end. *)
Theorem polls_start_once (k : Kubelet) (rounds : list (list Pod)) :
  let '(k', started) := polls k rounds in
  NoDup (Pod_Name <$> started) /\
  Forall (fun pod => pods k !! Pod_Name pod = None) started /\
  (forall n p, pods k !! n = Some p -> pods k' !! n = Some p) /\
  Forall (fun pod => is_Some (pods k' !! Pod_Name pod)) (concat rounds).
Proof. apply polls_spec. Qed.

(** A status report that fails is not sent again.  The new status is recorded before it
    is sent; if sending fails, the next round sees no change and makes no request as long
    as the containers stay as they are. *)
Theorem failed_report_not_repeated `{World W, Object Pod} url_ok k name pod s e
    (w w1 w2 w3 : W) :
  let reported := set_status s pod in
  let k' := set_pods (<[name := reported]> (pods k)) k in
  pods k !! name = Some pod -> Pod_Status pod <> s ->
  run (getPodStatus pod) w = (Val (s, None), w1) ->
  run (updatePodStatus k' url_ok reported) w1 = (Val (Err e), w2) ->
  run (getPodStatus reported) w2 = (Val (s, None), w3) ->
  run (k1 ← update_one url_ok k name; update_one url_ok k1 name) w = (Val k', w3).
Proof.
  cbn zeta. intros Hpod Hne Hst Hput Hst2. rewrite run_bind. unfold update_one at 1.
  rewrite Hpod, run_bind, Hst. cbn [fst snd]. rewrite bool_decide_eq_true_2 by done.
  rewrite run_bind, Hput. cbn [run]. unfold mret, prog_mret. cbn [run].
  unfold update_one. cbn [pods set_pods]. rewrite lookup_insert_eq, run_bind, Hst2.
  cbn [fst snd]. rewrite bool_decide_eq_false_2; [done|]. intros Hd. by apply Hd.
Qed.

(** A started container is recognised again.  Whatever Docker answers, [runPod] only
    pulls images, and creates and starts containers for the containers of the spec; a
    listed container with the labels of such a creation is reported by [ListContainers]
    once, with the names of its pod and of its container. *)
Theorem runPod_containers_listed (k : Kubelet) (pod : Pod) (fuel : nat) :
  pods k !! Pod_Name pod = Some pod -> NodeName pod = nodeName k ->
  behaves (fun e => run_call pod e /\
    forall name image labels, e = ContainerCreate name image labels ->
      exists c, c ∈ elems (Containers (Pod_Spec pod)) /\ image = Image c /\
        forall id state,
          list_statuses k [mkContainerSummary id state labels] None =
          Some [mkContainerStatus (Pod_Name pod) (Container_Name c) id state])
    (fun _ => True) (runPod fuel pod).
Proof.
  intros Hpod Hnode. eapply behaves_mono; [apply runPod_behaves| |done].
  intros e He. split; [done|]. intros name image labels ->.
  destruct He as (c & Hc & Himg & _ & ->). exists c. split; [done|]. split; [done|].
  intros id state. cbn [list_statuses]. unfold own_pod. cbn [cs_labels].
  unfold created_labels. rewrite lookup_insert_eq, Hpod.
  rewrite bool_decide_eq_false_2 by (intros Hd; by apply Hd).
  by rewrite (find_spec_listed _ c).
Qed.

(** ** The properties at concrete inputs *)

Module Witness.
Definition c1 : Container := mkContainer "web" "nginx".
Definition p1 : Pod := mkPod (meta_named "a") (mkPodSpec (Some [c1]) 1) "n1" PodScheduled.
Definition k1 : Kubelet := mkKubelet "n1" "localhost:8080" {[ "a" := p1 ]}.
End Witness.

Lemma runPod_reports_succeeded_witness :
  exists w', run (runPod 12 Witness.p1) empty_world = (Val (), w') /\
  exists w'', run (getPodStatus Witness.p1) w' = (Val (PodSucceeded, None), w'').
Proof.
  exists (run (runPod 12 Witness.p1) empty_world).2.
  split; [vm_compute; reflexivity|].
  apply (runPod_reports_succeeded 12 Witness.p1 empty_world);
    [vm_compute; lia | | vm_compute; reflexivity].
  repeat constructor. intros [[x Hx]|Hhex]; [by vm_compute in Hx | done].
Defined.

(** The container of the pod is running all the while. *)
Lemma runPod_running :
  rw_docker (run (runPod 12 Witness.p1) empty_world).2 = {[ "a-webbbbbb" := (true, 0) ]}.
Proof. vm_compute. reflexivity. Qed.

Lemma failed_report_not_repeated_witness :
  run (k1 ← update_one (fun _ => Ok ()) Witness.k1 "a"; update_one (fun _ => Ok ()) k1 "a")
    empty_world =
  (Val (set_pods (<["a" := set_status PodSucceeded Witness.p1]> (pods Witness.k1)) Witness.k1),
   empty_world).
Proof.
  apply (failed_report_not_repeated (fun _ => Ok ()) Witness.k1 "a" Witness.p1 PodSucceeded
    (wrapf "failed to send request to API server" (ErrText "connection refused"))
    empty_world empty_world empty_world empty_world);
    [reflexivity | done | vm_compute; reflexivity..].
Defined.

Lemma runPod_containers_listed_witness :
  behaves (fun e => run_call Witness.p1 e /\
    forall name image labels, e = ContainerCreate name image labels ->
      exists c, c ∈ elems (Containers (Pod_Spec Witness.p1)) /\ image = Image c /\
        forall id state,
          list_statuses Witness.k1 [mkContainerSummary id state labels] None =
          Some [mkContainerStatus (Pod_Name Witness.p1) (Container_Name c) id state])
    (fun _ => True) (runPod 12 Witness.p1).
Proof. apply (runPod_containers_listed Witness.k1 Witness.p1 12); reflexivity. Defined.
End Kubelet.
