(* ===== verification/KubeletRuntime.v ===== *)
(** * KubeletRuntime: the goroutines of the kubelet and the memory they share
      (src/pkg/kubelet/kubelet.go)

    [Start] leaves two goroutines behind, [watchPods] and [updatePodStatuses]; the first
    starts a goroutine [runPod] for every new pod.  They share the map [k.pods] and the
    pods it points to, without a lock.  A program of this file is a tree of external
    calls, accesses to this memory and [go] statements.  A step of the semantics runs one
    goroutine for one of these; the schedule, the answers from outside and the order in
    which a map is ranged over are arguments ([action]), so that a schedule can be
    executed ([exec]) and "in every interleaving" means for all of them ([reachable]).

    Memory is as Go has it.  An assignment to a map takes time (two steps); the runtime
    ends the process when it notices another access to the map meanwhile, which is what the
    semantics does.  Ranging over a map yields every entry that was there at the beginning
    and may or may not yield later ones. *)

From stdpp Require Import relations.
From S2P Require Import Prelude Errors Effects Api Storage Reference Names Kubelet.

Module KubeletRuntime.
Export Kubelet(Kubelet, mkKubelet, nodeName, apiServerURL).

(** ** Programs over shared memory *)

(** A pointer to a pod. *)
Abbreviation ptr := nat (only parsing).

(** The fields of a pod that a read looks at: [Fixed] are those that no statement assigns
    after the pod was decoded (its metadata and its spec), [All] includes the status. *)
Inductive fields := Fixed | All.

Inductive access :=
| New (pod : Pod)                            (* the JSON decoder allocates a pod *)
| Load (f : fields) (p : ptr)                (* reads through [p]; a [Fixed] reader does
                                                not look at the status of the answer *)
| SetStatus (p : ptr) (s : PodStatus)        (* [p.Status = s] *)
| MapGet (name : string)                     (* [_, exists := k.pods[name]] *)
| MapAssign (name : string) (p : ptr)        (* [k.pods[name] = p] begins *)
| MapAssigned (name : string) (p : ptr)      (* and is done *)
| RangeStart                                 (* [range k.pods] begins *)
| RangeNext (keys seen : list string)        (* its next entry, [None] at the end *)
| Acquire (m : nat)                          (* a [sync.Mutex] *)
| Release (m : nat).

(** The goroutines: [Main] calls [Start]. *)
Inductive role := Main | Watch | Report | RunPod (p : ptr).

#[export] Instance role_eq_dec : EqDecision role.
Proof. solve_decision. Defined.

Inductive op := Outside (e : ext) | Inside (a : access) | Spawn (g : role).

Definition access_resp (a : access) : Type :=
  match a with
  | New _ => ptr
  | Load _ _ => Pod
  | MapGet _ => option ptr
  | RangeStart => list string
  | RangeNext _ _ => option (string * ptr)
  | SetStatus _ _ | MapAssign _ _ | MapAssigned _ _ | Acquire _ | Release _ => unit
  end.

Definition op_resp (o : op) : Type :=
  match o with
  | Outside e => resp e
  | Inside a => access_resp a
  | Spawn _ => unit
  end.

Inductive gprog (A : Type) : Type :=
| GRet (a : A)
| GCall (o : op) (k : op_resp o -> gprog A)
| GHalt (h : halt).
Arguments GRet {A} a.
Arguments GCall {A} o k.
Arguments GHalt {A} h.

Fixpoint gbind {A B} (f : A -> gprog B) (p : gprog A) : gprog B :=
  match p with
  | GRet a => f a
  | GCall o k => GCall o (fun r => gbind f (k r))
  | GHalt h => GHalt h
  end.

#[export] Instance gprog_mret : MRet gprog := @GRet.
#[export] Instance gprog_mbind : MBind gprog := @gbind.

Definition outside (e : ext) : gprog (resp e) := GCall (Outside e) GRet.
Definition inside (a : access) : gprog (access_resp a) := GCall (Inside a) GRet.
Definition go (g : role) : gprog unit := GCall (Spawn g) GRet.

(** A program without shared memory; the mutexes here are plain ones. *)
Fixpoint lift {A} (p : prog A) : gprog A :=
  match p with
  | Ret a => GRet a
  | Call e k => GCall (Outside e) (fun r => lift (k r))
  | Lock m _ k => GCall (Inside (Acquire m)) (fun _ => lift k)
  | Unlock m _ k => GCall (Inside (Release m)) (fun _ => lift k)
  | Halt h => GHalt h
  end.

(** ** The goroutines *)

Definition nil_dereference : halt :=
  Panic "runtime error: invalid memory address or nil pointer dereference".

Definition Second : Z := 10 ^ 9.

Section code.
Context `{Object Node, Object Pod, Kubelet.PodListDecoder}.
Variable url_ok : string -> result unit.
Variable k : Kubelet.

(** The pods an answer was decoded into; [null] gives a nil pointer. *)
Fixpoint new_pods (pods : list (option Pod)) : gprog (list (option ptr)) :=
  match pods with
  | [] => mret []
  | None :: pods => ps ← new_pods pods; mret (None :: ps)
  | Some pod :: pods => p ← inside (New pod); ps ← new_pods pods; mret (Some p :: ps)
  end.

Definition getPodAssignments : gprog (result (slice (option ptr))) :=
  got ← lift (Kubelet.getPodAssignments k);
  match got with
  | Err err => mret (Err err)
  | Ok None => mret (Ok None)
  | Ok (Some pods) => ps ← new_pods pods; mret (Ok (Some ps))
  end.

Fixpoint runNewPods (pods : list (option ptr)) : gprog (result unit) :=
  match pods with
  | [] => mret (Ok ())
  | None :: _ => GHalt nil_dereference
  | Some p :: pods =>
      pod ← inside (Load Fixed p);
      found ← inside (MapGet (Pod_Name pod));
      match found with
      | Some _ => runNewPods pods
      | None =>
          _ ← inside (MapAssign (Pod_Name pod) p);
          _ ← inside (MapAssigned (Pod_Name pod) p);
          _ ← go (RunPod p);
          runNewPods pods
      end
  end.

Fixpoint watchPods (fuel : nat) : gprog unit :=
  match fuel with
  | O => GHalt NoFuel
  | S fuel =>
      got ← getPodAssignments;
      match got with
      | Err _ => _ ← outside (Sleep (5 * Second)); watchPods fuel
      | Ok pods =>
          _ ← runNewPods (elems pods);
          _ ← outside (Sleep (10 * Second));
          watchPods fuel
      end
  end.

(** The loop over the map: [keys] were there when it began, [seen] were visited. *)
Fixpoint update_pods (fuel : nat) (keys seen : list string) : gprog unit :=
  match fuel with
  | O => GHalt NoFuel
  | S fuel =>
      next ← inside (RangeNext keys seen);
      match next with
      | None => mret ()
      | Some (name, p) =>
          pod ← inside (Load Fixed p);
          got ← lift (Kubelet.getPodStatus pod);
          match got.2 with
          | Some _ => update_pods fuel keys (name :: seen)
          | None =>
              pod ← inside (Load All p);
              if bool_decide (Pod_Status pod <> got.1) then
                _ ← inside (SetStatus p got.1);
                pod ← inside (Load All p);
                _ ← lift (Kubelet.updatePodStatus k url_ok pod);
                update_pods fuel keys (name :: seen)
              else update_pods fuel keys (name :: seen)
          end
      end
  end.

Fixpoint updatePodStatuses (fuel : nat) : gprog unit :=
  match fuel with
  | O => GHalt NoFuel
  | S fuel =>
      _ ← outside (TickerNext (10 * Second));
      keys ← inside RangeStart;
      _ ← update_pods fuel keys [];
      updatePodStatuses fuel
  end.

Definition runPod (fuel : nat) (p : ptr) : gprog unit :=
  pod ← inside (Load Fixed p);
  lift (Kubelet.runPod fuel pod).

(** [Start]; the goroutines it leaves behind. *)
Fixpoint go_all (gs : list Kubelet.goroutine) : gprog unit :=
  match gs with
  | [] => mret ()
  | Kubelet.WatchPods :: gs => _ ← go Watch; go_all gs
  | Kubelet.UpdatePodStatuses :: gs => _ ← go Report; go_all gs
  end.

Definition Start : gprog (result unit) :=
  got ← lift (Kubelet.Start k);
  match got with
  | Err err => mret (Err err)
  | Ok gs => _ ← go_all gs; mret (Ok ())
  end.

Definition body (fuel : nat) (g : role) : gprog unit :=
  match g with
  | Main => _ ← Start; mret ()
  | Watch => watchPods fuel
  | Report => updatePodStatuses fuel
  | RunPod p => runPod fuel p
  end.
End code.

(** ** The semantics *)

(** [writing]: an assignment to the map is going on. *)
Record memory := mkMemory {
  heap : list Pod;
  podmap : gmap string ptr;
  writing : bool;
  held : list nat }.

(** An external call and its answer. *)
Inductive event := Ev (e : ext) (r : resp e).

Record state := mkState {
  mem : memory;
  threads : list (role * gprog unit);
  log : list event;
  crashed : option string }.

Inductive after (R : Type) := Goes (r : R) (m : memory) | Crash (msg : string) | Stuck.
Arguments Goes {R} r m.
Arguments Crash {R} msg.
Arguments Stuck {R}.

(** [pick] is the next entry of a range. *)
Definition exec_access (m : memory) (pick : option string) (a : access) : after (access_resp a) :=
  match a return after (access_resp a) with
  | New pod =>
      Goes (length (heap m)) (mkMemory (heap m ++ [pod]) (podmap m) (writing m) (held m))
  | Load _ p =>
      match heap m !! p with
      | Some pod => Goes pod m
      | None => Crash "invalid memory address"
      end
  | SetStatus p s =>
      match heap m !! p with
      | Some pod =>
          Goes () (mkMemory (<[p := set_status s pod]> (heap m)) (podmap m) (writing m) (held m))
      | None => Crash "invalid memory address"
      end
  | MapGet name =>
      if writing m then Crash "concurrent map read and map write"
      else Goes (podmap m !! name) m
  | MapAssign name p =>
      if writing m then Crash "concurrent map writes"
      else Goes () (mkMemory (heap m) (podmap m) true (held m))
  | MapAssigned name p =>
      Goes () (mkMemory (heap m) (<[name := p]> (podmap m)) false (held m))
  | RangeStart => Goes (map_to_list (podmap m)).*1 m
  | RangeNext keys seen =>
      if bool_decide (keys = []) then Goes None m      (* empty when the range began *)
      else if writing m then Crash "concurrent map iteration and map write"
      else
        match pick with
        | Some name =>
            if bool_decide (name ∈ seen) then Stuck
            else
              match podmap m !! name with
              | Some p => Goes (Some (name, p)) m
              | None => Stuck
              end
        | None => if bool_decide (Forall (.∈ seen) keys) then Goes None m else Stuck
        end
  | Acquire x =>
      if bool_decide (x ∈ held m) then Stuck
      else Goes () (mkMemory (heap m) (podmap m) (writing m) (x :: held m))
  | Release x =>
      Goes () (mkMemory (heap m) (podmap m) (writing m) (List.remove Nat.eq_dec x (held m)))
  end.

Section semantics.
Variable code : role -> gprog unit.

Inductive action := Run (i : nat) (pick : option string) (ans : forall e, resp e).

Definition set_prog (i : nat) (p : gprog unit) (ts : list (role * gprog unit)) :=
  alter (fun t => (t.1, p)) i ts.

(** One step; [None] when the goroutine cannot go on.  Nothing happens after a crash. *)
Definition exec (a : action) (s : state) : option state :=
  let 'Run i pick ans := a in
  match crashed s, threads s !! i with
  | None, Some (_, p) =>
      match p with
      | GRet _ => None
      | GCall (Outside e) k =>
          Some (mkState (mem s) (set_prog i (k (ans e)) (threads s))
                  (log s ++ [Ev e (ans e)]) None)
      | GCall (Inside a) k =>
          match exec_access (mem s) pick a with
          | Goes r m => Some (mkState m (set_prog i (k r) (threads s)) (log s) None)
          | Crash msg => Some (mkState (mem s) (threads s) (log s) (Some msg))
          | Stuck => None
          end
      | GCall (Spawn g) k =>
          Some (mkState (mem s) (set_prog i (k ()) (threads s) ++ [(g, code g)]) (log s) None)
      | GHalt (Panic msg) => Some (mkState (mem s) (threads s) (log s) (Some msg))
      | GHalt _ => None
      end
  | _, _ => None
  end.

Definition step (s s' : state) : Prop := exists a, exec a s = Some s'.

Definition reachable : relation state := rtc step.

Fixpoint exec_all (l : list action) (s : state) : option state :=
  match l with
  | [] => Some s
  | a :: l => exec a s ≫= exec_all l
  end.

Lemma schedule_reachable l s s' : exec_all l s = Some s' -> reachable s s'.
Proof.
  revert s; induction l as [|a l IH]; intros s; cbn [exec_all].
  { intros [= <-]. apply rtc_refl. }
  destruct (exec a s) as [s1|] eqn:Ha; cbn; [|done].
  intros Hl. eapply rtc_l; [by exists a|by apply IH].
Qed.

(** The process when [Start] is called. *)
Definition initial : state :=
  mkState (mkMemory [] ∅ false []) [(Main, code Main)] [] None.
End semantics.

End KubeletRuntime.
