(* ===== verification/KubeletProtocol.v ===== *)
(** * KubeletProtocol: what each goroutine of the kubelet does to the shared memory

    Each goroutine follows a protocol: the accesses it makes to the shared memory and what
    it knows of it ([follows]).  The watching goroutine is the only one that changes the
    map and allocates pods, so it knows both exactly; the reporting one knows the pods of
    the pointers it got from the map; the one of a pod knows its pod.  How they run together
    is in KubeletSafety. *)

From S2P Require Import Prelude Errors Effects Ledger Api Storage Reference Names Kubelet.
From S2P Require Import KubeletRuntime.

Module KubeletProtocol.
Import KubeletRuntime.

(** ** Protocols *)

(** [permitted g o]: a goroutine that knows [g] may do [o]; [next g o r g']: after the
    answer [r] it may know [g'].  A program follows the protocol if whatever it does is
    permitted, for all answers. *)
Section protocol.
Context {G : Type}.
Variable permitted : G -> op -> Prop.
Variable next : G -> forall o : op, op_resp o -> G -> Prop.

Fixpoint follows {A} (Q : outcome A -> G -> Prop) (p : gprog A) (g : G) : Prop :=
  match p with
  | GRet a => Q (Val a) g
  | GCall o k => permitted g o /\ forall r g', next g o r g' -> follows Q (k r) g'
  | GHalt h => Q (Halted h) g
  end.

Lemma follows_mono {A} (Q Q' : outcome A -> G -> Prop) p g :
  follows Q p g -> (forall o g', Q o g' -> Q' o g') -> follows Q' p g.
Proof.
  intros Hp HQ. revert g Hp; induction p as [a|o k IH|h]; cbn [follows]; auto.
  intros g [Ho Hk]. split; [done|]. eauto.
Qed.

(** What [p ≫= f] does after [p]. *)
Definition then_follows {A B} (Q : outcome B -> G -> Prop) (f : A -> gprog B) (o : outcome A)
    (g : G) : Prop :=
  match o with Val a => follows Q (f a) g | Halted h => Q (Halted h) g end.

Lemma follows_bind {A B} (Q : outcome B -> G -> Prop) (p : gprog A) f g :
  follows Q (p ≫= f) g <-> follows (then_follows Q f) p g.
Proof.
  unfold mbind, gprog_mbind. revert g; induction p as [a|o k IH|h];
    intros g; cbn [gbind follows]; try done.
  split; intros [Ho Hk]; (split; [done|]); intros r g' Hr; by apply IH, (Hk r g').
Qed.

(** One operation in front of the rest. *)
Lemma follows_do {A} o (f : op_resp o -> gprog A) Q g :
  permitted g o -> (forall r g', next g o r g' -> follows Q (f r) g') ->
  follows Q (GCall o GRet ≫= f) g.
Proof. done. Qed.

(** A program without shared memory follows a protocol if it obeys a ledger that stands
    for what the goroutine knows. *)
Lemma follows_lift {A L} (permitted' : L -> ext -> Prop) (update' : forall e, resp e -> L -> L)
    (emb : L -> G) (Q : outcome A -> L -> Prop) (R : outcome A -> G -> Prop) p l :
  (forall l e, permitted' l e ->
     permitted (emb l) (Outside e) /\
     forall r g', next (emb l) (Outside e) r g' -> g' = emb (update' e r l)) ->
  (forall l m,
     (permitted (emb l) (Inside (Acquire m)) /\
      forall r g', next (emb l) (Inside (Acquire m)) r g' -> g' = emb l) /\
     (permitted (emb l) (Inside (Release m)) /\
      forall r g', next (emb l) (Inside (Release m)) r g' -> g' = emb l)) ->
  obeys permitted' (fun _ _ _ => True) update' Q p l ->
  (forall o l, Q o l -> R o (emb l)) -> follows R (lift p) (emb l).
Proof.
  intros He Hm Hp HQ. revert l Hp.
  induction p as [a|e k IH|m md k IH|m md k IH|h]; unfold obeys; cbn [lift follows];
    intros l Hp; auto.
  - destruct Hp as [Hpe Hk]. destruct (He l e Hpe) as [Hperm Hsame]. split; [done|].
    intros r g' ->%Hsame. by apply IH, Hk.
  - destruct (Hm l m) as [[Hperm Hsame] _]. split; [done|]. intros r g' ->%Hsame. by apply IH.
  - destruct (Hm l m) as [_ [Hperm Hsame]]. split; [done|]. intros r g' ->%Hsame. by apply IH.
Qed.
End protocol.

#[global] Arguments follows : simpl never.

(** ** Pods up to their status *)

(** A pod with its status erased. *)
Definition fixed (pod : Pod) : Pod := set_status "" pod.

Lemma fixed_set_status s pod : fixed (set_status s pod) = fixed pod.
Proof. done. Qed.

Lemma fixed_fixed pod : fixed (fixed pod) = fixed pod.
Proof. done. Qed.

Lemma fixed_name pod pod' : fixed pod = fixed pod' -> Pod_Name pod = Pod_Name pod'.
Proof. intros Heq. change (Pod_Name (fixed pod) = Pod_Name (fixed pod')). by rewrite Heq. Qed.

Lemma fixed_eq pod pod' : fixed pod = fixed pod' -> pod = set_status (Pod_Status pod) pod'.
Proof. destruct pod, pod'. cbn. intros [= -> -> ->]. done. Qed.

(** Running a pod does not look at its status. *)
Lemma runPod_fixed fuel pod pod' :
  fixed pod = fixed pod' -> Kubelet.runPod fuel pod = Kubelet.runPod fuel pod'.
Proof.
  intros ->%fixed_eq. unfold Kubelet.runPod. cbn.
  induction (elems (Containers (Pod_Spec pod'))) as [|c cs IH]; [done|].
  cbn [Kubelet.run_containers]. by rewrite IH.
Qed.

(** What the reporting goroutine knows: the pointers it got from the map, with their pods up
    to the status. *)
Abbreviation reporting := (gmap ptr Pod).

(** ** What was received and started *)

Section protocols.
Context `{Object Node, Object Pod, Kubelet.PodListDecoder}.
Variable url_ok : string -> result unit.
Variable k : Kubelet.

(** The pods an answer to the poll brings. *)
Definition pods_of (e : ext) : resp e -> list (option Pod) :=
  match e return resp e -> list (option Pod) with
  | HttpDo m _ _ => fun r =>
      if bool_decide (m = "GET") then
        match r with
        | Ok (_, b) => match Kubelet.decode_pods b with Ok l => elems l | Err _ => [] end
        | Err _ => []
        end
      else []
  | _ => fun _ => []
  end.

Definition received (l : list event) : list (option Pod) :=
  l ≫= fun '(Ev e r) => pods_of e r.

(** The pods whose goroutines were started, in order, among the goroutines of a process. *)
Definition started (rs : list role) : list ptr :=
  omap (fun g => match g with RunPod p => Some p | _ => None end) rs.

Definition count (g : role) (rs : list role) : nat :=
  length (List.filter (fun g' => bool_decide (g' = g)) rs).

(** The first version of a pod that was received. *)
Definition first_received (l : list (option Pod)) (pod : Pod) : Prop :=
  exists i pod', l !! i = Some (Some pod') /\ fixed pod' = fixed pod /\
    forall j pod'', (j < i)%nat -> l !! j = Some (Some pod'') -> Pod_Name pod'' <> Pod_Name pod.

Lemma first_received_app l l' pod : first_received l pod -> first_received (l ++ l') pod.
Proof.
  intros (i & pod' & Hi & Hf & Hfirst). exists i, pod'.
  pose proof (lookup_lt_Some _ _ _ Hi). split; [by rewrite lookup_app_l|]. split; [done|].
  intros j q Hj Hq. rewrite lookup_app_l in Hq by lia. eauto.
Qed.

Lemma first_received_fixed l pod pod' :
  fixed pod = fixed pod' -> first_received l pod -> first_received l pod'.
Proof.
  intros Hf (i & q & Hi & Hq & Hfirst). exists i, q. split; [done|]. split; [by rewrite Hq|].
  rewrite <- (fixed_name _ _ Hf). done.
Qed.

Lemma received_event l e r : received (l ++ [Ev e r]) = received l ++ pods_of e r.
Proof. unfold received. rewrite bind_app. cbn. by rewrite app_nil_r. Qed.

(** ** The watching goroutine *)

(** Between the end of an assignment to the map and the [go] statement a pod is
    [Inserted]. *)
Inductive phase := Idle | Writing (p : ptr) | Inserted (p : ptr).

(** The pods on the heap up to their status, the map, the goroutines started, the pods
    received and dealt with, and those still to be dealt with. *)
Record watching := mkWatching {
  w_heap : list Pod;
  w_map : gmap string ptr;
  w_started : list ptr;
  w_done : list Pod;
  w_pending : list (option Pod);
  w_phase : phase }.

Definition assignments_url : string :=
  "http://" +:+ apiServerURL k +:+ "/api/v1/pods?nodeName=" +:+ nodeName k.

Definition may_watch (g : watching) (o : op) : Prop :=
  match o with
  | Outside (HttpDo m url b) =>
      (m = "GET" /\ url = assignments_url /\ b = "") /\ w_pending g = [] /\ w_phase g = Idle
  | Outside (Sleep _) => w_pending g = [] /\ w_phase g = Idle
  | Inside (New _) => w_phase g = Idle
  | Inside (Load Fixed p) => is_Some (w_heap g !! p)
  | Inside (MapGet n) =>
      w_phase g = Idle /\ exists pod rest, w_pending g = Some pod :: rest /\ n = Pod_Name pod
  | Inside (MapAssign n p) =>
      w_phase g = Idle /\ w_map g !! n = None /\
      exists pod rest, w_pending g = Some pod :: rest /\ n = Pod_Name pod /\
        w_heap g !! p = Some (fixed pod)
  | Inside (MapAssigned n p) =>
      w_phase g = Writing p /\
      exists pod rest, w_pending g = Some pod :: rest /\ n = Pod_Name pod
  | Spawn (RunPod p) => w_phase g = Inserted p
  | _ => False
  end.

(** The next pending pod is dealt with. *)
Definition shift (g : watching) : watching :=
  match w_pending g with
  | Some pod :: rest =>
      mkWatching (w_heap g) (w_map g) (w_started g) (w_done g ++ [pod]) rest Idle
  | _ => g
  end.

Definition watched (g : watching) (o : op) : op_resp o -> watching -> Prop :=
  match o return op_resp o -> watching -> Prop with
  | Outside e => fun r g' =>
      g' = mkWatching (w_heap g) (w_map g) (w_started g) (w_done g)
             (w_pending g ++ pods_of e r) (w_phase g)
  | Inside (New pod) => fun r g' =>
      r = length (w_heap g) /\
      g' = mkWatching (w_heap g ++ [fixed pod]) (w_map g) (w_started g) (w_done g)
             (w_pending g) (w_phase g)
  | Inside (Load _ p) => fun r g' => w_heap g !! p = Some (fixed r) /\ g' = g
  | Inside (MapGet n) => fun r g' =>
      r = w_map g !! n /\ g' = match r with Some _ => shift g | None => g end
  | Inside (MapAssign n p) => fun _ g' =>
      g' = mkWatching (w_heap g) (w_map g) (w_started g) (w_done g) (w_pending g) (Writing p)
  | Inside (MapAssigned n p) => fun _ g' =>
      g' = mkWatching (w_heap g) (<[n := p]> (w_map g)) (w_started g) (w_done g) (w_pending g)
             (Inserted p)
  | Spawn (RunPod p) => fun _ g' =>
      g' = shift (mkWatching (w_heap g) (w_map g) (w_started g ++ [p]) (w_done g) (w_pending g)
             Idle)
  | _ => fun _ g' => g' = g
  end.

#[local] Abbreviation watch_follows := (follows may_watch watched).

(** It ends at the bound of the model, or at a nil pod. *)
Definition watch_ends {A} (o : outcome A) (g : watching) : Prop :=
  match o with
  | Val _ => w_pending g = [] /\ w_phase g = Idle
  | Halted h => h = NoFuel \/ h = nil_dereference /\ None ∈ w_pending g
  end.

(** A pointer the decoder returned, for an element of the list. *)
Definition points (h : list Pod) (p : option ptr) (pod : option Pod) : Prop :=
  match p, pod with
  | Some p, Some pod => h !! p = Some (fixed pod)
  | None, None => True
  | _, _ => False
  end.

Lemma points_app h h' p pod : points h p pod -> points (h ++ h') p pod.
Proof. destruct p, pod; cbn; try done. intros Hp. by apply lookup_app_l_Some. Qed.

(** Do the next operation: it is permitted, and this is what follows. *)
Ltac do_op := apply follows_do; [cbn; eauto 10|].

Lemma new_pods_follows l g (Q : outcome (list (option ptr)) -> watching -> Prop) :
  w_phase g = Idle ->
  (forall ps g', Forall2 (points (w_heap g')) ps l -> w_heap g `prefix_of` w_heap g' ->
     w_phase g' = Idle -> w_pending g' = w_pending g -> w_map g' = w_map g -> Q (Val ps) g') ->
  watch_follows Q (new_pods l) g.
Proof.
  revert g Q; induction l as [|[pod|] l IH]; intros g Q Hidle HQ; cbn [new_pods].
  - by apply HQ.
  - do_op. intros r g' [-> ->].
    apply follows_bind. apply IH; [done|]. intros ps g' Hps Hpre Hi Hpend Hmap.
    apply HQ; [|by etrans; [apply prefix_app_r|]|done..].
    constructor; [|done]. cbn. eapply prefix_lookup_Some; [|done].
    cbn [w_heap]. by rewrite list_lookup_middle.
  - apply follows_bind. apply IH; [done|]. intros ps g' Hps Hpre Hi Hpend Hmap.
    apply HQ; [|done..]. by constructor.
Qed.

Lemma runNewPods_follows ps l g :
  w_phase g = Idle -> w_pending g = l -> Forall2 (points (w_heap g)) ps l ->
  watch_follows watch_ends (runNewPods ps) g.
Proof.
  revert l g; induction ps as [|[p|] ps IH]; intros l g Hidle Hpend Hps.
  - apply Forall2_nil_inv_l in Hps as ->. done.
  - apply Forall2_cons_inv_l in Hps as ([pod|] & rest & Hp & Hps & ->); [|done].
    cbn [points] in Hp. cbn [runNewPods].
    do_op. intros q g' [Hq ->]. rewrite Hp in Hq.
    assert (Pod_Name pod = Pod_Name q) as <- by (apply fixed_name; congruence).
    do_op. intros r g' [-> ->]. destruct (w_map g !! Pod_Name pod) as [p'|] eqn:Hm.
    { apply (IH rest); unfold shift; by rewrite Hpend. }
    do_op. intros [] g' ->. do_op. intros [] g' ->. do_op. intros [] g' ->.
    unfold shift. cbn [w_pending]. rewrite Hpend. by apply (IH rest).
  - apply Forall2_cons_inv_l in Hps as ([pod|] & rest & Hp & Hps & ->); [done|].
    right. split; [done|]. rewrite Hpend. left.
Qed.

Lemma watchPods_follows n g :
  w_pending g = [] -> w_phase g = Idle -> watch_follows watch_ends (watchPods k n) g.
Proof.
  revert g; induction n as [|n IH]; intros g Hpend Hidle; [by left|]. cbn [watchPods].
  assert (Hsleep : forall d g, w_pending g = [] -> w_phase g = Idle ->
    watch_follows watch_ends (_ ← outside (Sleep d); watchPods k n) g).
  { intros d g1 Hp1 Hi1. do_op. intros [] g2 ->.
    apply IH; cbn [w_pending w_phase]; [by rewrite Hp1|done]. }
  apply follows_bind. unfold getPodAssignments. apply follows_bind.
  split; [done|]. intros r g' ->. cbn [pods_of]. rewrite Hpend, (bool_decide_eq_true_2 ("GET" = "GET")) by done.
  destruct r as [[code b]|err]; [|by apply Hsleep].
  cbn. destruct (Kubelet.decode_pods b) as [[l|]|err]; [|by apply Hsleep..].
  cbn. apply follows_bind, new_pods_follows; [done|]. cbn [w_pending w_heap w_map].
  intros ps g1 Hps _ Hidle1 Hpend1 _. cbn.
  apply follows_bind. eapply follows_mono; [by eapply (runNewPods_follows ps l)|].
  intros [a|h] g2 Hend; cbn [then_follows]; [|done]. destruct Hend. by apply Hsleep.
Qed.

(** ** The reporting goroutine *)

Definition pod_url (pod : Pod) : string :=
  "http://" +:+ apiServerURL k +:+ "/api/v1/pods/" +:+ Pod_Name pod.

Definition may_report (g : reporting) (o : op) : Prop :=
  match o with
  | Outside (TickerNext _) | Outside (ContainerInspect _) => True
  | Outside (HttpDo m url b) =>
      m = "PUT" /\ exists p pod s, g !! p = Some pod /\ url = pod_url pod /\
        Encode (set_status s pod) = Ok b
  | Inside (Load _ p) | Inside (SetStatus p _) => is_Some (g !! p)
  | Inside RangeStart | Inside (RangeNext _ _) => True
  | Inside (Acquire _) | Inside (Release _) => True
  | _ => False
  end.

Definition reported (g : reporting) (o : op) : op_resp o -> reporting -> Prop :=
  match o return op_resp o -> reporting -> Prop with
  | Inside (RangeNext _ _) => fun r g' =>
      match r with
      | Some (n, p) => exists pod, Pod_Name pod = n /\ g' = <[p := pod]> g
      | None => g' = g
      end
  | Inside (Load _ p) => fun r g' => g !! p = Some (fixed r) /\ g' = g
  | _ => fun _ g' => g' = g
  end.

#[local] Abbreviation report_follows := (follows may_report reported).

Definition report_ends {A} (o : outcome A) (g : reporting) : Prop :=
  match o with Val _ => True | Halted h => h = NoFuel end.

(** A program without shared memory in the reporting goroutine. *)
Lemma report_lift {A} (P : ext -> Prop) (p : prog A) (R : outcome A -> reporting -> Prop) g :
  behaves P (fun _ => True) p -> stops (fun _ => False) p ->
  (forall e, P e -> may_report g (Outside e)) -> (forall a, R (Val a) g) ->
  report_follows R (lift p) g.
Proof.
  intros Hp Hs HP HR.
  apply (follows_lift _ _ (fun _ e => P e) (fun _ _ u => u) (fun _ : unit => g)
    (fun o _ => match o with Val _ => True | Halted _ => False end) R p ()).
  - intros _ e He. split; [by apply HP|]. intros r g' Hg. destruct e; done.
  - intros _ m. split; (split; [done|]); intros r g' Hg; done.
  - eapply obeys_mono; [apply (obeys_steady _ _ _ P (fun _ => True) (fun _ => False)); [done..|]|].
    { intros e He. done. }
    intros [a|h] _ [_ Ho]; done.
  - intros [a|h] _ Ho; done.
Qed.

Lemma get_states_only cs states :
  behaves (fun e => exists n, e = ContainerInspect n) (fun _ => True)
    (Kubelet.get_states cs states) /\
  stops (fun _ => False) (Kubelet.get_states cs states).
Proof.
  revert states; induction cs as [|c cs IH]; intros states; [done|].
  cbn [Kubelet.get_states]. split.
  - apply (behaves_bind _ (fun _ => True)).
    { split; [by eexists|]. by intros [| |]. }
    intros [st|e] _; [apply IH|done].
  - apply stops_bind; [by intros [| |]|]. intros [st|e]; [apply IH|done].
Qed.

Lemma updatePodStatus_only pod :
  behaves (fun e => exists b, e = HttpDo "PUT" (pod_url pod) b /\ Encode pod = Ok b)
    (fun _ => True) (Kubelet.updatePodStatus k url_ok pod) /\
  stops (fun _ => False) (Kubelet.updatePodStatus k url_ok pod).
Proof.
  unfold Kubelet.updatePodStatus. destruct (Encode pod) as [b|e]; [|done].
  destruct (url_ok _) as [u|e]; [|done]. cbn.
  split; [split; [by eexists|]|]; intros [[st body]|e]; try done; by destruct (_ =? _).
Qed.

Lemma update_pods_follows n keys seen g :
  report_follows report_ends (update_pods url_ok k n keys seen) g.
Proof.
  revert seen g; induction n as [|n IH]; intros seen g; [done|]. cbn [update_pods].
  do_op. intros [[name p]|] g1; [|by intros ->]. intros (pod & Hname & ->). cbn [follows].
  assert (Hp : <[p:=pod]> g !! p = Some pod) by apply lookup_insert_eq.
  do_op. intros pod1 g1 [Hpod1 ->]. destruct (get_states_only (elems (Containers (Pod_Spec pod1))) [])
    as [Hb Hs].
  apply follows_bind, (report_lift _ _ _ _ Hb Hs); [by intros e [c ->]|].
  intros [status [err|]]; [apply IH|]. cbn [then_follows fst snd].
  do_op. intros pod2 g1 [Hpod2 ->]. case_bool_decide; [|apply IH].
  do_op. intros [] g1 ->. do_op. intros pod3 g1 [Hpod3 ->].
  destruct (updatePodStatus_only pod3) as [Hb3 Hs3].
  apply follows_bind, (report_lift _ _ _ _ Hb3 Hs3); [|intros a; apply IH].
  intros e (b & -> & Henc). split; [done|]. exists p, pod, (Pod_Status pod3).
  split; [done|]. rewrite Hp in Hpod3. injection Hpod3 as ->.
  split; [done|]. by destruct pod3.
Qed.

Lemma updatePodStatuses_follows n g :
  report_follows report_ends (updatePodStatuses url_ok k n) g.
Proof.
  revert g; induction n as [|n IH]; intros g; [done|]. cbn [updatePodStatuses].
  do_op. intros [] g1 ->. do_op. intros keys g1 ->.
  apply follows_bind. eapply follows_mono; [apply update_pods_follows|].
  intros [[]|h] g2 Ho; [apply IH|done].
Qed.

(** ** The goroutine of a pod *)

(** The pod it has read, and the error of its last pull. *)
Record running := mkRunning { r_pod : option Pod; r_err : option error }.

Definition may_run (p : ptr) (g : running) (o : op) : Prop :=
  match o with
  | Inside (Load Fixed q) => q = p
  | Inside (Acquire _) | Inside (Release _) => True
  | Outside e => exists pod, r_pod g = Some pod /\ Kubelet.run_call pod e
  | _ => False
  end.

Definition pull_error (e : ext) : resp e -> option error -> option error :=
  match e return resp e -> option error -> option error with
  | ImagePull _ => fun r _ => match r with Err err => Some err | Ok _ => None end
  | _ => fun _ o => o
  end.

Definition ran (g : running) (o : op) : op_resp o -> running -> Prop :=
  match o return op_resp o -> running -> Prop with
  | Outside e => fun r g' => g' = mkRunning (r_pod g) (pull_error e r (r_err g))
  | Inside (Load _ _) => fun r g' => g' = mkRunning (Some r) (r_err g)
  | _ => fun _ g' => g' = g
  end.

(** It ends, or panics with the error of a pull. *)
Definition run_ends {A} (o : outcome A) (err : option error) : Prop :=
  match o with
  | Val _ => True
  | Halted h => h = NoFuel \/ exists e, err = Some e /\ h = Panic (Error e)
  end.

#[local] Abbreviation run_obeys pod :=
  (obeys (fun _ => Kubelet.run_call pod) (fun _ _ _ => True) pull_error).

Lemma StartContainer_obeys n pod c err :
  c ∈ elems (Containers (Pod_Spec pod)) ->
  run_obeys pod run_ends (Kubelet.StartContainer n pod (Container_Name c) (Image c)) err.
Proof.
  intros Hc. unfold Kubelet.StartContainer.
  apply obeys_bind, obeys_call. split; [done|]. intros [[]|e] _; [|right; by eexists].
  apply obeys_bind, obeys_call. split; [done|]. intros [[]|e] _; [|done].
  apply obeys_bind. eapply obeys_mono.
  { eapply (obeys_steady _ _ _ (eq RandInt63) _ (eq NoFuel));
      [apply Names.GenerateName_behaves|apply Names.GenerateName_stops|]. by intros e <-. }
  intros [name|h] g' [-> Ho]; cbn [obeys_then]; [|by left].
  destruct Ho as (suffix & Hname & Hlen).
  apply obeys_bind, obeys_call. split.
  { exists c. split; [done|]. split; [done|]. split; [by exists suffix|done]. }
  intros [id|e] _; [|done].
  apply obeys_bind, obeys_call. split; [done|]. by intros [[]|e] _.
Qed.

Lemma run_containers_obeys n pod cs err :
  (forall c, c ∈ cs -> c ∈ elems (Containers (Pod_Spec pod))) ->
  run_obeys pod run_ends (Kubelet.run_containers n pod cs) err.
Proof.
  revert err; induction cs as [|c cs IH]; intros err Hcs; cbn [Kubelet.run_containers]; [done|].
  apply obeys_bind. eapply obeys_mono; [apply StartContainer_obeys, Hcs; by left|].
  intros [a|h] g' Ho; [|done]. apply IH. intros d Hd. apply Hcs. by right.
Qed.

Lemma runPod_follows n p g :
  follows (may_run p) ran (fun o g => run_ends o (r_err g)) (runPod n p) g.
Proof.
  do_op. intros pod g1 ->.
  apply (follows_lift _ _ (fun _ => Kubelet.run_call pod) pull_error
    (fun err => mkRunning (Some pod) err) run_ends _ _ (r_err g)).
  - intros err e He. split; [by exists pod|]. by intros r g' ->.
  - intros err m. split; (split; [done|]); intros r g' Hg; done.
  - by apply run_containers_obeys.
  - done.
Qed.

(** ** The goroutine that calls [Start] *)

(** Whether the watching and the reporting goroutines were started. *)
Definition may_start (g : bool * bool) (o : op) : Prop :=
  match o with
  | Outside (HttpDo m _ _) => m = "POST"
  | Spawn Watch => g.1 = false
  | Spawn Report => g.2 = false
  | _ => False
  end.

Definition starts (g : bool * bool) (o : op) : op_resp o -> bool * bool -> Prop :=
  match o return op_resp o -> bool * bool -> Prop with
  | Spawn Watch => fun _ g' => g' = (true, g.2)
  | Spawn Report => fun _ g' => g' = (g.1, true)
  | _ => fun _ g' => g' = g
  end.

Definition start_ends {A} (o : outcome A) (g : bool * bool) : Prop :=
  match o with Val _ => True | Halted _ => False end.

Lemma Start_follows :
  follows may_start starts start_ends (_ ← Start k; mret ()) (false, false).
Proof.
  unfold Start, Kubelet.Start, Kubelet.registerNode.
  destruct (Encode _) as [b|e]; [|done]. split; [done|].
  intros [[code b']|e] g ->; [|done]. cbn. destruct (code =? Kubelet.StatusCreated); [|done].
  split; [done|]. intros [] g ->. split; [done|]. by intros [] g ->.
Qed.
End protocols.

End KubeletProtocol.
