(* ===== verification/KubeletSafety.v ===== *)
(** * KubeletSafety: what holds in every interleaving of the kubelet's goroutines

    The protocols of KubeletProtocol put together: an invariant of the whole process
    ([Inv]), kept by every step of every schedule for every answer from outside, and what
    follows from it. *)

From stdpp Require Import relations.
From S2P Require Import Prelude Errors Effects Ledger Api Storage Reference Names Kubelet.
From S2P Require Import KubeletRuntime KubeletProtocol.

Module KubeletSafety.
Import KubeletRuntime KubeletProtocol.

(** ** The reference function on growing lists *)

Lemma runNewPods_snoc k l pod :
  Kubelet.runNewPods k (l ++ [pod]) =
  let '(k', st) := Kubelet.runNewPods k l in
  match Kubelet.pods k' !! Pod_Name pod with
  | Some _ => (k', st)
  | None => (Kubelet.set_pods (<[Pod_Name pod := pod]> (Kubelet.pods k')) k', st ++ [pod])
  end.
Proof.
  revert k; induction l as [|q l IH]; intros k; cbn [app Kubelet.runNewPods].
  { by destruct (Kubelet.pods k !! Pod_Name pod). }
  destruct (Kubelet.pods k !! Pod_Name q); [by rewrite IH|].
  rewrite IH. destruct (Kubelet.runNewPods _ l) as [k' st].
  by destruct (Kubelet.pods k' !! Pod_Name pod).
Qed.

Lemma runNewPods_absent k l pod :
  Kubelet.pods (Kubelet.runNewPods k l).1 !! Pod_Name pod = None ->
  Forall (fun q => Pod_Name q <> Pod_Name pod) l.
Proof.
  pose proof (Kubelet.runNewPods_spec k l) as Hspec. destruct (Kubelet.runNewPods k l) as [k' st].
  destruct Hspec as (_ & _ & _ & _ & Hall). cbn [fst]. intros Hnone.
  eapply Forall_impl; [exact Hall|]. cbn. intros q [x Hq] Heq. rewrite Heq in Hq. congruence.
Qed.

(** Started from no pods, the pod kept under a name is the first one with that name. *)
Lemma runNewPods_first k l n pod :
  Kubelet.pods k = ∅ -> Kubelet.pods (Kubelet.runNewPods k l).1 !! n = Some pod ->
  Pod_Name pod = n /\
  exists i, l !! i = Some pod /\
    forall j q, (j < i)%nat -> l !! j = Some q -> Pod_Name q <> n.
Proof.
  intros Hk. induction l as [|q l IH] using rev_ind.
  { cbn. by rewrite Hk, lookup_empty. }
  rewrite runNewPods_snoc. pose proof (runNewPods_absent k l q) as Habs.
  destruct (Kubelet.runNewPods k l) as [k' st]. cbn [fst] in *.
  assert (Hold : Kubelet.pods k' !! n = Some pod -> Pod_Name pod = n /\
    exists i, (l ++ [q]) !! i = Some pod /\
      forall j q', (j < i)%nat -> (l ++ [q]) !! j = Some q' -> Pod_Name q' <> n).
  { intros (Hn & i & Hi & Hfirst)%IH. split; [done|]. exists i.
    pose proof (lookup_lt_Some _ _ _ Hi). split; [by rewrite lookup_app_l|].
    intros j q' Hj. rewrite lookup_app_l by lia. by apply Hfirst. }
  destruct (Kubelet.pods k' !! Pod_Name q) eqn:Hq; cbn [fst]; [done|].
  cbn [Kubelet.pods Kubelet.set_pods]. intros Hl.
  apply lookup_insert_Some in Hl as [[<- <-]|[_ Hl]]; [|auto]. split; [done|].
  exists (length l). split; [by rewrite lookup_app_r, Nat.sub_diag|].
  intros j q' Hj. rewrite lookup_app_l by done. intros Hq'.
  apply (Forall_lookup_1 _ _ _ _ (Habs eq_refl) Hq').
Qed.

(** ** Small facts about the lists of the process *)

Lemma count_app g rs rs' : count g (rs ++ rs') = (count g rs + count g rs')%nat.
Proof. unfold count. by rewrite List.filter_app, length_app. Qed.

Lemma count_none g rs : g ∉ rs -> count g rs = 0%nat.
Proof.
  unfold count. induction rs as [|g' rs IH]; [done|].
  intros [Hne Hnot]%not_elem_of_cons. cbn. rewrite bool_decide_eq_false_2 by congruence.
  by apply IH.
Qed.

Lemma count_one g rs i j :
  (count g rs <= 1)%nat -> rs !! i = Some g -> rs !! j = Some g -> i = j.
Proof.
  revert i j; induction rs as [|g' rs IH]; intros i j; [done|].
  change (g' :: rs) with ([g'] ++ rs). rewrite count_app. intros Hc.
  assert (Hpos : forall i, rs !! i = Some g -> (1 <= count g rs)%nat).
  { clear. induction rs as [|g' rs IH]; intros i; [done|].
    change (g' :: rs) with ([g'] ++ rs). rewrite count_app. destruct i as [|i]; cbn.
    - intros [= ->]. unfold count at 1. cbn. rewrite bool_decide_eq_true_2 by done. cbn. lia.
    - intros Hi%IH. lia. }
  assert (Hhd : g' = g -> count g [g'] = 1%nat).
  { intros ->. unfold count. cbn. by rewrite bool_decide_eq_true_2. }
  destruct i as [|i], j as [|j]; cbn; try done.
  - intros [= ->] Hj%Hpos. rewrite Hhd in Hc by done. lia.
  - intros Hi%Hpos [= ->]. rewrite Hhd in Hc by done. lia.
  - intros Hi Hj. f_equal. apply IH; [lia|done..].
Qed.

Lemma started_app rs rs' : started (rs ++ rs') = started rs ++ started rs'.
Proof. apply omap_app. Qed.

Lemma set_prog_roles i p ts : (set_prog i p ts).*1 = ts.*1.
Proof.
  unfold set_prog. revert i. induction ts as [|t ts IH]; intros [|i]; try done.
  cbn. f_equal. apply IH.
Qed.

Lemma set_prog_app i p t ts ts' :
  ts !! i = Some t -> set_prog i p (ts ++ ts') = set_prog i p ts ++ ts'.
Proof.
  unfold set_prog. revert i; induction ts as [|t' ts IH]; intros [|i] Hi; try done.
  cbn. f_equal. by apply IH.
Qed.

Section safety.
Context `{Object Node, Object Pod, Kubelet.PodListDecoder}.
Variable url_ok : string -> result unit.
Variable k : Kubelet.
Variable fuel : nat.

#[local] Abbreviation code := (body url_ok k fuel).
#[local] Abbreviation k0 := (Kubelet.set_pods ∅ k).
#[local] Abbreviation roles s := ((threads s).*1).
#[local] Abbreviation fixed_heap s := (fixed <$> heap (mem s)).
#[local] Abbreviation rcv s := (received (log s)).

(** ** What the watching goroutine has done *)

(** The map of pointers stands for a map of pods. *)
Definition maps (h : list Pod) (m : gmap string ptr) (pods : gmap string Pod) : Prop :=
  forall n, match m !! n, pods !! n with
  | Some p, Some pod => h !! p = Some (fixed pod)
  | None, None => True
  | _, _ => False
  end.

Lemma maps_grow h h' m pods : maps h m pods -> h `prefix_of` h' -> maps h' m pods.
Proof.
  intros Hm Hpre n. specialize (Hm n). destruct (m !! n), (pods !! n); try done.
  by eapply prefix_lookup_Some.
Qed.

Lemma maps_insert h m pods n p pod :
  maps h m pods -> h !! p = Some (fixed pod) -> maps h (<[n := p]> m) (<[n := pod]> pods).
Proof.
  intros Hm Hp n'. destruct (decide (n = n')) as [<-|Hne]; [by rewrite !lookup_insert_eq|].
  rewrite !lookup_insert_ne by done. apply Hm.
Qed.

(** The goroutines started and the map are those of the reference function for the pods
    dealt with; a pod being inserted is the next one. *)
Definition agree (g : watching) : Prop :=
  let '(k', st) := Kubelet.runNewPods k0 (w_done g) in
  Forall2 (fun p pod => w_heap g !! p = Some (fixed pod)) (w_started g) st /\
  match w_phase g with
  | Idle => maps (w_heap g) (w_map g) (Kubelet.pods k')
  | Writing p =>
      maps (w_heap g) (w_map g) (Kubelet.pods k') /\
      exists pod rest, w_pending g = Some pod :: rest /\
        Kubelet.pods k' !! Pod_Name pod = None /\ w_heap g !! p = Some (fixed pod)
  | Inserted p =>
      exists pod rest, w_pending g = Some pod :: rest /\
        Kubelet.pods k' !! Pod_Name pod = None /\ w_heap g !! p = Some (fixed pod) /\
        maps (w_heap g) (w_map g) (<[Pod_Name pod := pod]> (Kubelet.pods k'))
  end.

Lemma agree_grow g h :
  agree g -> w_heap g `prefix_of` h ->
  agree (mkWatching h (w_map g) (w_started g) (w_done g) (w_pending g) (w_phase g)).
Proof.
  unfold agree. cbn [w_heap w_map w_started w_done w_pending w_phase].
  destruct (Kubelet.runNewPods k0 (w_done g)) as [k' st]. intros [Hst Hph] Hpre. split.
  { eapply Forall2_impl; [exact Hst|]. cbn. intros p pod Hp. by eapply prefix_lookup_Some. }
  destruct (w_phase g) as [|p|p].
  - by eapply maps_grow.
  - destruct Hph as (Hm & pod & rest & Hpend & Hnone & Hp). split; [by eapply maps_grow|].
    exists pod, rest. split; [done|]. split; [done|]. by eapply prefix_lookup_Some.
  - destruct Hph as (pod & rest & Hpend & Hnone & Hp & Hm). exists pod, rest.
    split; [done|]. split; [done|]. split; [by eapply prefix_lookup_Some|by eapply maps_grow].
Qed.

(** A pod whose name is known is dealt with without a trace. *)
Lemma agree_known g pod rest p :
  agree g -> w_phase g = Idle -> w_pending g = Some pod :: rest ->
  w_map g !! Pod_Name pod = Some p -> agree (shift g).
Proof.
  unfold agree, shift. intros Hg Hidle Hpend Hmap. rewrite Hpend.
  cbn [w_heap w_map w_started w_done w_phase]. rewrite runNewPods_snoc.
  destruct (Kubelet.runNewPods k0 (w_done g)) as [k' st]. rewrite Hidle in Hg.
  destruct Hg as [Hst Hm]. pose proof (Hm (Pod_Name pod)) as Hn. rewrite Hmap in Hn.
  by destruct (Kubelet.pods k' !! Pod_Name pod).
Qed.

(** The [go] statement finishes a new pod. *)
Lemma agree_spawn g p :
  agree g -> w_phase g = Inserted p ->
  agree (shift (mkWatching (w_heap g) (w_map g) (w_started g ++ [p]) (w_done g) (w_pending g)
    Idle)).
Proof.
  unfold agree, shift. cbn [w_pending]. intros Hg Hph.
  destruct (Kubelet.runNewPods k0 (w_done g)) as [k' st] eqn:Hrun. rewrite Hph in Hg.
  destruct Hg as (Hst & pod & rest & Hpend & Hnone & Hp & Hm). rewrite Hpend.
  cbn [w_heap w_map w_started w_done w_phase]. rewrite runNewPods_snoc, Hrun, Hnone.
  split; [|done]. apply Forall2_app; [done|]. by repeat constructor.
Qed.

Lemma agree_watched g o r g' : agree g -> may_watch k g o -> watched g o r g' -> agree g'.
Proof.
  intros Hg Ho Hr.
  destruct o as [e|[pod|[] p|p st|n|n p|n p| | | |]|[| | |p]]; cbn in Ho, Hr; try done.
  - subst g'. destruct e; cbn in Ho; try done; destruct Ho as (? & Hph); cycle 1;
      [|destruct Hph as [Hpend Hph]]; unfold agree in *; cbn [w_done w_heap w_started w_phase w_map];
      rewrite Hph in *; done.
  - destruct Hr as [-> ->]. apply (agree_grow _ _ Hg). by apply prefix_app_r.
  - by destruct Hr as [_ ->].
  - destruct Hr as [-> ->], Ho as (Hph & pod & rest & Hpend & ->).
    destruct (w_map g !! Pod_Name pod) eqn:Hm; [by eapply agree_known|done].
  - subst g'. destruct Ho as (Hph & Hnone & pod & rest & Hpend & -> & Hp).
    unfold agree in *. cbn [w_done w_heap w_started w_phase w_map w_pending].
    destruct (Kubelet.runNewPods k0 (w_done g)) as [k' st]. rewrite Hph in Hg.
    destruct Hg as [Hst Hm]. split; [done|]. split; [done|]. exists pod, rest.
    split; [done|]. split; [|done]. specialize (Hm (Pod_Name pod)). rewrite Hnone in Hm.
    by destruct (Kubelet.pods k' !! Pod_Name pod).
  - subst g'. destruct Ho as (Hph & pod & rest & Hpend & ->).
    unfold agree in *. cbn [w_done w_heap w_started w_phase w_map w_pending].
    destruct (Kubelet.runNewPods k0 (w_done g)) as [k' st]. rewrite Hph in Hg.
    destruct Hg as (Hst & Hm & pod' & rest' & Hpend' & Hnone & Hp). split; [done|].
    rewrite Hpend in Hpend'. injection Hpend' as <- <-. exists pod, rest.
    split; [done|]. split; [done|]. split; [done|]. by apply maps_insert.
  - subst g'. by apply agree_spawn.
Qed.

(** Where the pods of the map and of the goroutines come from. *)
Definition all_received (g : watching) : list (option Pod) := (Some <$> w_done g) ++ w_pending g.

Lemma done_first g n pod :
  Kubelet.pods (Kubelet.runNewPods k0 (w_done g)).1 !! n = Some pod ->
  Pod_Name pod = n /\ first_received (all_received g) pod.
Proof.
  intros Hn. apply runNewPods_first in Hn as (Hn & i & Hi & Hfirst); [|done]. split; [done|].
  apply first_received_app. exists i, pod. rewrite list_lookup_fmap, Hi. split; [done|].
  split; [done|]. intros j q Hj Hq. rewrite list_lookup_fmap in Hq.
  destruct (w_done g !! j) as [q'|] eqn:Hq'; [|done]. injection Hq as <-. rewrite Hn. eauto.
Qed.

Lemma next_first g pod rest :
  Kubelet.pods (Kubelet.runNewPods k0 (w_done g)).1 !! Pod_Name pod = None ->
  w_pending g = Some pod :: rest -> first_received (all_received g) pod.
Proof.
  intros Hnone%runNewPods_absent Hpend. unfold all_received. rewrite Hpend.
  exists (length (w_done g)), pod. split.
  { rewrite lookup_app_r; rewrite length_fmap; [by rewrite Nat.sub_diag|done]. }
  split; [done|]. intros j q Hj Hq. rewrite lookup_app_l in Hq by by rewrite length_fmap.
  rewrite list_lookup_fmap in Hq. destruct (w_done g !! j) as [q'|] eqn:Hq'; [|done].
  injection Hq as <-. apply (Forall_lookup_1 _ _ _ _ Hnone Hq').
Qed.

Lemma map_first g n p :
  agree g -> w_map g !! n = Some p ->
  exists pod, Pod_Name pod = n /\ w_heap g !! p = Some (fixed pod) /\
    first_received (all_received g) pod.
Proof.
  unfold agree. pose proof (done_first g) as Hdone. pose proof (next_first g) as Hnext.
  destruct (Kubelet.runNewPods k0 (w_done g)) as [k' st]. cbn [fst] in *.
  assert (Hold : maps (w_heap g) (w_map g) (Kubelet.pods k') -> w_map g !! n = Some p ->
    exists pod, Pod_Name pod = n /\ w_heap g !! p = Some (fixed pod) /\
      first_received (all_received g) pod).
  { intros Hm Hn. specialize (Hm n). rewrite Hn in Hm.
    destruct (Kubelet.pods k' !! n) as [pod|] eqn:Hpod; [|done].
    destruct (Hdone n pod Hpod). by exists pod. }
  intros [_ Hph]. destruct (w_phase g) as [|p'|p'].
  - by apply Hold.
  - by apply Hold, Hph.
  - destruct Hph as (pod & rest & Hpend & Hnone & Hp & Hm). intros Hn.
    specialize (Hm n). rewrite Hn in Hm.
    destruct (decide (Pod_Name pod = n)) as [Heq|Hne].
    + rewrite Heq, lookup_insert_eq in Hm. exists pod. eauto.
    + rewrite lookup_insert_ne in Hm by done.
      destruct (Kubelet.pods k' !! n) as [pod'|] eqn:Hpod; [|done].
      destruct (Hdone n pod' Hpod). by exists pod'.
Qed.

(** ** What each goroutine knows of the process *)

Definition watch_holds (g : watching) (s : state) : Prop :=
  fixed_heap s = w_heap g /\ podmap (mem s) = w_map g /\ started (roles s) = w_started g /\
  (writing (mem s) = true <-> exists p, w_phase g = Writing p) /\
  rcv s = all_received g /\ agree g.

Definition report_holds (g : reporting) (s : state) : Prop :=
  map_Forall (fun p pod => fixed_heap s !! p = Some pod /\ first_received (rcv s) pod) g.

Definition run_holds (p : ptr) (g : running) (s : state) : Prop :=
  exists pod, fixed_heap s !! p = Some pod /\ first_received (rcv s) pod /\
    (forall q, r_pod g = Some q -> fixed q = pod) /\
    (forall err, r_err g = Some err -> exists image, Ev (ImagePull image) (Err err) ∈ log s).

Definition start_holds (g : bool * bool) (s : state) : Prop :=
  count Watch (roles s) = Nat.b2n g.1 /\ count Report (roles s) = Nat.b2n g.2.

Definition knows (s : state) (t : role * gprog unit) : Prop :=
  match t.1 with
  | Main => exists g, follows may_start starts start_ends t.2 g /\ start_holds g s
  | Watch => exists g, follows (may_watch k) watched watch_ends t.2 g /\ watch_holds g s
  | Report => exists g, follows (may_report k) reported report_ends t.2 g /\ report_holds g s
  | RunPod p =>
      exists g, follows (may_run p) ran (fun o g => run_ends o (r_err g)) t.2 g /\ run_holds p g s
  end.

(** A call that is made, seen from what was received. *)
Definition event_ok (l : list (option Pod)) (ev : event) : Prop :=
  let 'Ev e _ := ev in
  match e with
  | HttpDo m url b =>
      m = "POST" \/
      (m = "GET" /\ url = assignments_url k /\ b = "") \/
      (m = "PUT" /\ exists pod st, first_received l pod /\ url = pod_url k pod /\
         Encode (set_status st pod) = Ok b)
  | ContainerCreate _ _ _ => exists pod, first_received l pod /\ Kubelet.run_call pod e
  | _ => True
  end.

Definition crash_ok (s : state) (msg : string) : Prop :=
  (msg = "concurrent map iteration and map write" /\ writing (mem s) = true) \/
  (exists image err, Ev (ImagePull image) (Err err) ∈ log s /\ msg = Error err) \/
  (Panic msg = nil_dereference /\ None ∈ rcv s).

Record Inv (s : state) : Prop := {
  inv_threads : Forall (knows s) (threads s);
  inv_main : (count Main (roles s) <= 1)%nat;
  inv_watch : (count Watch (roles s) <= 1)%nat;
  inv_report : (count Report (roles s) <= 1)%nat;
  inv_before : count Watch (roles s) = 0%nat ->
    watch_holds (mkWatching [] ∅ [] [] [] Idle) s;
  inv_map : forall n p, podmap (mem s) !! n = Some p ->
    exists pod, Pod_Name pod = n /\ fixed_heap s !! p = Some (fixed pod) /\
      first_received (rcv s) pod;
  inv_log : Forall (event_ok (rcv s)) (log s);
  inv_crash : forall msg, crashed s = Some msg -> crash_ok s msg }.

(** ** What the steps of one goroutine leave alone *)

(** Nothing is forgotten. *)
Definition grows (s s' : state) : Prop :=
  fixed_heap s `prefix_of` fixed_heap s' /\ log s `prefix_of` log s'.

Definition same_watch (s s' : state) : Prop :=
  fixed_heap s' = fixed_heap s /\ podmap (mem s') = podmap (mem s) /\
  started (roles s') = started (roles s) /\ writing (mem s') = writing (mem s) /\
  rcv s' = rcv s.

Definition same_start (s s' : state) : Prop :=
  count Watch (roles s') = count Watch (roles s) /\
  count Report (roles s') = count Report (roles s).

Lemma grows_same s s' : fixed_heap s' = fixed_heap s -> log s' = log s -> grows s s'.
Proof. intros Hh Hl. split; [by rewrite Hh|by rewrite Hl]. Qed.

Lemma grows_rcv s s' : grows s s' -> exists l, rcv s' = rcv s ++ l.
Proof.
  intros [_ [l Hl]]. rewrite Hl. exists (received l). unfold received. by rewrite bind_app.
Qed.

Lemma grows_first s s' pod : grows s s' -> first_received (rcv s) pod -> first_received (rcv s') pod.
Proof. intros [l ->]%grows_rcv. apply first_received_app. Qed.

Lemma grows_heap s s' p pod :
  grows s s' -> fixed_heap s !! p = Some pod -> fixed_heap s' !! p = Some pod.
Proof. intros [Hpre _] Hp. by eapply prefix_lookup_Some. Qed.

Lemma grows_log s s' ev : grows s s' -> ev ∈ log s -> ev ∈ log s'.
Proof. intros [_ [l ->]] Hin. apply elem_of_app. by left. Qed.

Lemma watch_holds_same g s s' : watch_holds g s -> same_watch s s' -> watch_holds g s'.
Proof.
  intros (Hh & Hm & Hs & Hw & Hr & Ha) (Eh & Em & Es & Ew & Er).
  unfold watch_holds. by rewrite Eh, Em, Es, Ew, Er.
Qed.

Lemma report_holds_grows g s s' : report_holds g s -> grows s s' -> report_holds g s'.
Proof.
  intros Hg Hs p pod Hp. destruct (Hg p pod Hp) as [Hh Hf].
  split; [by eapply grows_heap|by eapply grows_first].
Qed.

Lemma run_holds_grows p g s s' : run_holds p g s -> grows s s' -> run_holds p g s'.
Proof.
  intros (pod & Hh & Hf & Hq & He) Hs. exists pod.
  split; [by eapply grows_heap|]. split; [by eapply grows_first|]. split; [done|].
  intros err Herr. destruct (He err Herr) as [image Hin]. exists image. by eapply grows_log.
Qed.

Lemma knows_frame s s' t :
  knows s t -> grows s s' -> (t.1 = Watch -> same_watch s s') -> (t.1 = Main -> same_start s s') ->
  knows s' t.
Proof.
  destruct t as [[| | |p] q]; cbn [knows fst]; intros (g & Hq & Hg) Hs Hw Hm; exists g;
    (split; [done|]).
  - destruct (Hm eq_refl) as [Ew Er]. unfold start_holds. by rewrite Ew, Er.
  - by apply (watch_holds_same g s); [|apply Hw].
  - by eapply report_holds_grows.
  - by eapply run_holds_grows.
Qed.

Lemma event_ok_grows s s' ev : grows s s' -> event_ok (rcv s) ev -> event_ok (rcv s') ev.
Proof.
  intros Hs. destruct ev as [e r]. cbn [event_ok]. destruct e; try done.
  - intros [?|[?|(? & pod & st & Hf & ?)]]; [by left|by right; left|].
    right; right. split; [done|]. exists pod, st. split; [by eapply grows_first|done].
  - intros (pod & Hf & ?). exists pod. split; [by eapply grows_first|done].
Qed.

(** ** The steps *)

(** The process after an operation, before its goroutine goes on. *)
Definition effect (s : state) (o : op) : op_resp o -> state -> Prop :=
  match o return op_resp o -> state -> Prop with
  | Outside e => fun r s0 => s0 = mkState (mem s) (threads s) (log s ++ [Ev e r]) None
  | Inside a => fun r s0 =>
      exists pick m, exec_access (mem s) pick a = Goes r m /\
        s0 = mkState m (threads s) (log s) None
  | Spawn g => fun _ s0 =>
      s0 = mkState (mem s) (threads s ++ [(g, code g)]) (log s) None
  end.

Lemma shift_received g : all_received (shift g) = all_received g.
Proof.
  unfold shift, all_received. destruct (w_pending g) as [|[pod|] rest] eqn:Hp; cbn; rewrite ?Hp;
    try done. by rewrite fmap_app, <- app_assoc.
Qed.

Lemma roles_snoc s g :
  (threads s ++ [(g, code g)]).*1 = roles s ++ [g].
Proof. by rewrite fmap_app. Qed.

(** The watching goroutine: what it knows afterwards holds. *)
Lemma watch_step s g o r s0 :
  watch_holds g s -> may_watch k g o -> effect s o r s0 ->
  exists g', watched g o r g' /\ watch_holds g' s0 /\ grows s s0.
Proof.
  intros (Hh & Hm & Hs & Hw & Hr & Ha) Ho He.
  assert (Hagree := fun g' => agree_watched g o r g' Ha Ho).
  destruct o as [e|[pod|[] p|p st|n|n p|n p| | | |]|[| | |p]]; cbn in Ho, He; try done.
  - subst s0. eexists. split; [done|]. split; [|by split; [|apply prefix_app_r]].
    split; [done|]. split; [done|]. split; [done|]. split; [done|]. split; [|by apply Hagree].
    cbn [log]. rewrite received_event, Hr. unfold all_received. cbn [w_done w_pending].
    by rewrite app_assoc.
  - destruct He as (pick & m & [= <- <-] & ->).
    assert (Hl : length (heap (mem s)) = length (w_heap g)) by by rewrite <- Hh, length_fmap.
    eexists. split; [done|].
    split; [|split; [cbn [mem heap]; rewrite fmap_app; by apply prefix_app_r|done]].
    split; [cbn [mem heap w_heap]; by rewrite fmap_app, Hh|]. split; [done|]. split; [done|].
    split; [done|]. split; [done|]. by apply Hagree.
  - destruct He as (pick & m & He & ->). cbn in He.
    destruct (heap (mem s) !! p) as [pod|] eqn:Hp; [|done]. injection He as <- <-.
    exists g. split; [split; [|done]|split; [repeat (split; [done|]); done|by apply grows_same]].
    rewrite <- Hh. by rewrite list_lookup_fmap, Hp.
  - destruct He as (pick & m & He & ->). cbn in He.
    destruct (writing (mem s)) eqn:Hwr; [done|]. injection He as <- <-.
    rewrite Hm in *. eexists. split; [by split|].
    split; [|by apply grows_same]. destruct Ho as (Hph & pod & rest & Hpend & ->).
    split; [|split; [|split; [|split; [|split; [|by apply Hagree]]]]];
      destruct (w_map g !! Pod_Name pod); cbn [mem threads log] in *;
      rewrite ?shift_received; unfold shift; rewrite ?Hpend; try done.
    all: rewrite Hwr; (split; [done|]); intros [p' Hp']; cbn in Hp'; congruence.
  - destruct He as (pick & m & He & ->). cbn in He.
    destruct (writing (mem s)) eqn:Hwr; [done|]. injection He as <- <-.
    eexists. split; [done|]. split; [|by apply grows_same].
    split; [done|]. split; [done|]. split; [done|]. split; [|split; [done|by apply Hagree]].
    cbn. split; [by eexists|done].
  - destruct He as (pick & m & [= <- <-] & ->).
    eexists. split; [done|]. split; [|by apply grows_same].
    split; [done|]. split; [cbn; by rewrite Hm|]. split; [done|].
    split; [|split; [done|by apply Hagree]]. cbn. split; [done|]. by intros [p' Hp'].
  - subst s0. eexists. split; [done|]. split; [|by apply grows_same].
    assert (Hph := Ha). unfold agree in Hph.
    destruct (Kubelet.runNewPods k0 (w_done g)) as [k' st]. rewrite Ho in Hph.
    destruct Hph as (_ & pod & rest & Hpend & _).
    split; [|split; [|split; [|split; [|split; [|by apply Hagree]]]]];
      cbn [mem threads log] in *; rewrite ?shift_received; unfold shift; cbn [w_pending];
      rewrite ?Hpend; cbn [w_heap w_map w_started w_phase]; try done.
    + by rewrite roles_snoc, started_app, Hs.
    + rewrite Ho in Hw. rewrite Hw. split; by intros [p' Hp'].
    + rewrite Hr. unfold all_received. by rewrite Hpend.
Qed.

Lemma log_ok s o r s0 :
  Inv s -> effect s o r s0 -> grows s s0 ->
  match o return op_resp o -> Prop with
  | Outside e => fun r => event_ok (rcv s) (Ev e r)
  | _ => fun _ => True
  end r ->
  Forall (event_ok (rcv s0)) (log s0).
Proof.
  intros Hi He Hg Hev.
  assert (Hold : Forall (event_ok (rcv s0)) (log s)).
  { eapply Forall_impl; [exact (inv_log s Hi)|]. intros ev. by apply event_ok_grows. }
  destruct o as [e|a|g]; cbn in He.
  - assert (Hl : log s0 = log s ++ [Ev e r]) by by subst s0.
    rewrite Hl at 2. apply Forall_app. split; [done|]. constructor; [|done].
    by apply (event_ok_grows s).
  - destruct He as (pick & m & _ & ->). done.
  - by subst s0.
Qed.

(** An operation that neither starts a goroutine nor touches the map or the heap, but for
    the status of a pod. *)
Definition quiet (s s0 : state) : Prop :=
  grows s s0 /\ same_watch s s0 /\ threads s0 = threads s.

Lemma quiet_outside s e r s0 :
  effect s (Outside e) r s0 -> pods_of e r = [] -> quiet s s0.
Proof.
  cbn. intros -> Hp. split; [by split; [|apply prefix_app_r]|]. split; [|done].
  split; [done|]. split; [done|]. split; [done|]. split; [done|].
  cbn [log]. by rewrite received_event, Hp, app_nil_r.
Qed.

Lemma quiet_memory s m :
  fixed <$> heap m = fixed_heap s -> podmap m = podmap (mem s) -> writing m = writing (mem s) ->
  quiet s (mkState m (threads s) (log s) None).
Proof. intros Hh Hm Hw. split; [by apply grows_same|]. split; [by repeat split|done]. Qed.

Lemma quiet_held s a r s0 :
  match a with Acquire _ | Release _ | RangeStart | RangeNext _ _ | Load _ _ => True
             | _ => False end ->
  effect s (Inside a) r s0 -> quiet s s0.
Proof.
  intros Ha (pick & m & He & ->). destruct a; cbn in Ha, He; try done; repeat case_match;
    try done; injection He as <- <-; by apply quiet_memory.
Qed.

Lemma report_step s g o r s0 :
  Inv s -> report_holds g s -> may_report k g o -> effect s o r s0 ->
  (exists g', reported g o r g' /\ report_holds g' s0) /\ quiet s s0 /\
  Forall (event_ok (rcv s0)) (log s0).
Proof.
  intros Hi Hg Ho He.
  assert (Hq : quiet s s0).
  { destruct o as [e|a|g']; cbn in Ho; [| |done].
    - apply (quiet_outside s e r); [done|]. destruct e; try done. cbn.
      destruct Ho as [-> _]. by rewrite bool_decide_eq_false_2.
    - destruct a as [pod|f p|p st|n|n p|n p| | | |]; try done;
        try (by apply (quiet_held s _ r s0)).
      destruct He as (pick & m & He & ->). cbn in He.
      destruct (heap (mem s) !! p) as [pod|] eqn:Hp; [|done]. injection He as <- <-.
      apply quiet_memory; [|done..]. cbn [heap]. rewrite list_fmap_insert, fixed_set_status.
      apply list_insert_id. by rewrite list_lookup_fmap, Hp. }
  split; [|split; [done|]].
  - pose proof (report_holds_grows g s s0 Hg (proj1 Hq)) as Hg0.
    destruct o as [e|[pod|f p|p st|n|n p|n p| |keys seen| |]|g']; try done;
      try (by exists g).
    + destruct He as (pick & m & He & ->). cbn in He.
      destruct (heap (mem s) !! p) as [pod|] eqn:Hp; [|done]. injection He as <- <-.
      exists g. split; [|done]. split; [|done]. destruct Ho as [q Hq']. rewrite Hq'.
      destruct (Hg p q Hq') as [Hh _]. rewrite list_lookup_fmap, Hp in Hh. done.
    + destruct He as (pick & m & He & ->). cbn in He.
      case_bool_decide; [injection He as <- <-; by exists g|].
      destruct (writing (mem s)); [done|]. destruct pick as [name|].
      * case_bool_decide; [done|]. destruct (podmap (mem s) !! name) as [p|] eqn:Hp; [|done].
        injection He as <- <-. destruct (inv_map s Hi name p Hp) as (pod & Hn & Hh & Hf).
        exists (<[p := fixed pod]> g). split; [by exists (fixed pod)|].
        apply map_Forall_insert_2; [|done]. split; [done|].
        by apply (first_received_fixed _ pod).
      * case_bool_decide; [|done]. injection He as <- <-. by exists g.
  - apply (log_ok s o r s0 Hi He (proj1 Hq)). destruct o as [e|a|g']; try done.
    destruct e; try done. cbn in Ho |- *. destruct Ho as (-> & p & pod & st & Hp & -> & Henc).
    right; right. split; [done|]. exists pod, st. destruct (Hg p pod Hp). done.
Qed.

Lemma run_step p s g o r s0 :
  Inv s -> run_holds p g s -> may_run p g o -> effect s o r s0 ->
  (exists g', ran g o r g' /\ run_holds p g' s0) /\ quiet s s0 /\
  Forall (event_ok (rcv s0)) (log s0).
Proof.
  intros Hi Hg Ho He.
  assert (Hq : quiet s s0).
  { destruct o as [e|a|g']; cbn in Ho; [| |by destruct g'].
    - apply (quiet_outside s e r); [done|]. destruct Ho as (pod & _ & Hc). by destruct e.
    - destruct a as [pod|[] q|q st|n|n q|n q| | | |]; try done; by apply (quiet_held s _ r s0). }
  split; [|split; [done|]].
  - pose proof (run_holds_grows p g s s0 Hg (proj1 Hq)) as (pod & Hh & Hf & Hpod & Herr).
    destruct o as [e|a|g']; cbn in Ho; [| |by destruct g'].
    + eexists. split; [done|]. exists pod. split; [done|]. split; [done|]. split; [done|].
      cbn [r_err]. intros err. destruct e; cbn [pull_error]; try apply Herr.
      cbn in He. subst s0. destruct r as [u|e']; [done|]. intros [= ->].
      exists image. apply elem_of_app. right. by apply list_elem_of_singleton.
    + destruct a as [pod'|[] q|q st|n|n q|n q| | | |]; try done;
        try (by exists g; split; [|exists pod]).
      subst q. eexists. split; [done|]. exists pod. split; [done|]. split; [done|].
      split; [|done]. cbn [r_pod]. intros q [= <-].
      destruct He as (pick & m & He & ->). cbn in He.
      destruct (heap (mem s) !! p) as [pod'|] eqn:Hp; [|done]. injection He as <- <-.
      cbn [mem] in Hh. rewrite list_lookup_fmap, Hp in Hh. by injection Hh.
  - apply (log_ok s o r s0 Hi He (proj1 Hq)). destruct o as [e|a|g']; try done.
    destruct Ho as (q & Hq' & Hc). destruct e; try done. cbn. exists q. split; [|done].
    destruct Hg as (pod & _ & Hf & Hpod & _). apply (first_received_fixed _ pod); [|done].
    specialize (Hpod q Hq'). subst pod. done.
Qed.

(** ** The invariant is kept *)

Lemma quiet_start s s0 : quiet s s0 -> same_start s s0.
Proof. intros (_ & _ & Ht). unfold same_start. by rewrite Ht. Qed.

(** What an operation of a goroutine gives: it goes on as it should, the others are not
    disturbed, and the goroutines it starts know what they need. *)
Definition stepped (ro : role) (p : gprog unit) (s s0 : state) : Prop :=
  knows s0 (ro, p) /\ grows s s0 /\
  (ro <> Watch -> same_watch s s0) /\ (ro <> Main -> same_start s s0) /\
  Forall (event_ok (rcv s0)) (log s0) /\
  exists new, threads s0 = threads s ++ new /\ Forall (knows s0) new /\
    count Main new.*1 = 0%nat /\ (count Watch (roles s0) <= 1)%nat /\
    (count Report (roles s0) <= 1)%nat.

Lemma stepped_quiet ro p s s0 :
  Inv s -> knows s0 (ro, p) -> quiet s s0 -> Forall (event_ok (rcv s0)) (log s0) ->
  stepped ro p s s0.
Proof.
  intros Hi Hk Hq Hl. pose proof (quiet_start _ _ Hq) as Hs. destruct Hq as (Hg & Hw & Ht).
  split; [done|]. split; [done|]. split; [done|]. split; [done|]. split; [done|].
  exists []. rewrite app_nil_r, Ht. split; [done|]. split; [constructor|]. split; [done|].
  split; [apply (inv_watch s Hi)|apply (inv_report s Hi)].
Qed.

Lemma report_stepped s o kk r s0 :
  Inv s -> knows s (Report, GCall o kk) -> effect s o r s0 -> stepped Report (kk r) s s0.
Proof.
  intros Hi (g & [Ho Hk] & Hg) He.
  destruct (report_step s g o r s0 Hi Hg Ho He) as ((g' & Hr & Hg') & Hq & Hl).
  apply stepped_quiet; [done| |done..]. exists g'. split; [by apply (Hk r)|done].
Qed.

Lemma run_stepped p s o kk r s0 :
  Inv s -> knows s (RunPod p, GCall o kk) -> effect s o r s0 -> stepped (RunPod p) (kk r) s s0.
Proof.
  intros Hi (g & [Ho Hk] & Hg) He.
  destruct (run_step p s g o r s0 Hi Hg Ho He) as ((g' & Hr & Hg') & Hq & Hl).
  apply stepped_quiet; [done| |done..]. exists g'. split; [by apply (Hk r)|done].
Qed.

Lemma count_singleton g g' : count g [g'] = if decide (g' = g) then 1%nat else 0%nat.
Proof. unfold count. cbn. by repeat case_decide; case_bool_decide. Qed.

(** Starting a goroutine does nothing else. *)
Lemma spawn_frame s g s0 :
  effect s (Spawn g) () s0 ->
  grows s s0 /\ threads s0 = threads s ++ [(g, code g)] /\ roles s0 = roles s ++ [g] /\
  mem s0 = mem s /\ log s0 = log s.
Proof.
  cbn. intros ->. split; [by apply grows_same|]. split; [done|]. split; [apply roles_snoc|done].
Qed.

Lemma main_spawn s g kk s0 ghost ghost' :
  Inv s -> (g = Watch /\ count Watch (roles s) = 0%nat \/
            g = Report /\ count Report (roles s) = 0%nat) ->
  effect s (Spawn g) () s0 ->
  (follows may_start starts start_ends (kk ()) ghost') -> start_holds ghost s ->
  starts ghost (Spawn g) () ghost' -> stepped Main (kk ()) s s0.
Proof.
  intros Hi Hg He Hk [Hw Hr] Hs.
  destruct (spawn_frame s g s0 He) as (Hgr & Ht & Hro & Hmem & Hlog).
  assert (Hsame : same_watch s s0).
  { unfold same_watch. rewrite Hmem, Hlog, Hro, started_app.
    assert (started [g] = []) as -> by by destruct Hg as [[-> _]|[-> _]].
    by rewrite app_nil_r. }
  pose proof (inv_watch s Hi). pose proof (inv_report s Hi).
  split; [|split; [done|split; [done|split; [done|split; [by rewrite Hlog; apply (inv_log s Hi)|]]]]].
  - exists ghost'. split; [done|]. unfold start_holds.
    rewrite Hro, !count_app, !count_singleton.
    destruct Hg as [[-> Hc]|[-> Hc]]; cbn in Hs; subst ghost'; cbn [fst snd];
      repeat case_decide; try done; destruct ghost as [[] []]; cbn in *; lia.
  - exists [(g, code g)]. split; [done|]. split; [|split].
    + constructor; [|done]. destruct Hg as [[-> Hc]|[-> Hc]].
      * exists (mkWatching [] ∅ [] [] [] Idle). split; [by apply watchPods_follows|].
        by apply (watch_holds_same _ s); [apply (inv_before s Hi)|].
      * exists ∅. split; [by apply updatePodStatuses_follows|]. apply map_Forall_empty.
    + by destruct Hg as [[-> _]|[-> _]].
    + rewrite Hro, !count_app, !count_singleton.
      destruct Hg as [[-> Hc]|[-> Hc]]; repeat case_decide; try done; lia.
Qed.

Lemma main_stepped s o kk r s0 :
  Inv s -> knows s (Main, GCall o kk) -> effect s o r s0 -> stepped Main (kk r) s s0.
Proof.
  intros Hi (g & [Ho Hk] & Hg) He. destruct o as [e|a|ro]; [|done|].
  - assert (Hq : quiet s s0).
    { apply (quiet_outside s e r); [done|]. destruct e; try done. cbn in Ho |- *. subst method.
      by rewrite bool_decide_eq_false_2. }
    apply stepped_quiet; [done| |done|].
    + exists g. split; [by apply (Hk r)|]. destruct (quiet_start _ _ Hq) as [Ew Er].
      unfold start_holds. by rewrite Ew, Er.
    + apply (log_ok s (Outside e) r s0 Hi He (proj1 Hq)). destruct e; try done. by left.
  - destruct r. assert (Hg' := Hg). destruct Hg' as [Hw Hr]. destruct ro; try done; cbn in Ho.
    + eapply (main_spawn s Watch kk s0 g (true, g.2)); try done; [|by apply Hk].
      left. by rewrite Hw, Ho.
    + eapply (main_spawn s Report kk s0 g (g.1, true)); try done; [|by apply Hk].
      right. by rewrite Hr, Ho.
Qed.

Lemma watch_stepped s o kk r s0 :
  Inv s -> knows s (Watch, GCall o kk) -> effect s o r s0 -> stepped Watch (kk r) s s0.
Proof.
  intros Hi (g & [Ho Hk] & Hg) He.
  destruct (watch_step s g o r s0 Hg Ho He) as (g' & Hr & Hg' & Hgr).
  pose proof (inv_watch s Hi). pose proof (inv_report s Hi).
  assert (Hev : Forall (event_ok (rcv s0)) (log s0)).
  { apply (log_ok s o r s0 Hi He Hgr). destruct o as [e|a|g2]; try done. destruct e; try done.
    right; left. by destruct Ho. }
  assert (Hspawn : (exists p, o = Spawn (RunPod p)) \/ threads s0 = threads s).
  { destruct o as [e|a|[| | |p]]; try done; [..|by left; eexists]; right;
      [by rewrite He|by destruct He as (pick & m & _ & ->)]. }
  split; [by exists g'; split; [apply (Hk r)|]|]. split; [done|]. split; [done|].
  destruct Hspawn as [[p ->]|Ht].
  - destruct r. destruct (spawn_frame s (RunPod p) s0 He) as (_ & Ht & Hro & Hmem & Hlog).
    split; [|split; [done|]].
    { intros _. unfold same_start. rewrite Hro, !count_app, !count_singleton.
      repeat case_decide; try done; lia. }
    exists [(RunPod p, code (RunPod p))]. split; [done|].
    split; [|split; [done|rewrite Hro, !count_app, !count_singleton; repeat case_decide; try done; lia]].
    constructor; [|done]. exists (mkRunning None None). split; [apply runPod_follows|].
    destruct Hg as (Hh & _ & _ & _ & Hrc & Ha). cbn in Ho. assert (Ha' := Ha).
    unfold agree in Ha'. pose proof (next_first g) as Hnext.
    destruct (Kubelet.runNewPods k0 (w_done g)) as [k' st]. rewrite Ho in Ha'.
    destruct Ha' as (_ & pod & rest & Hpend & Hnone & Hp & _).
    exists (fixed pod). rewrite Hmem, Hlog, Hh, Hrc. split; [done|].
    split; [|done]. apply (first_received_fixed _ pod); [done|]. by eapply Hnext.
  - split; [intros _; unfold same_start; by rewrite Ht|]. split; [done|].
    exists []. rewrite app_nil_r, Ht. split; [done|]. by split; [constructor|].
Qed.

Lemma op_stepped ro s o kk r s0 :
  Inv s -> knows s (ro, GCall o kk) -> effect s o r s0 -> stepped ro (kk r) s s0.
Proof.
  destruct ro; [apply main_stepped|apply watch_stepped|apply report_stepped|apply run_stepped].
Qed.

(** Where a goroutine stands does not matter to the others. *)
Lemma knows_roles s s' t :
  knows s t -> mem s' = mem s -> log s' = log s -> roles s' = roles s -> knows s' t.
Proof.
  intros Hk Hm Hl Hr. apply (knows_frame s); [done|by apply grows_same; rewrite ?Hm, ?Hl|..]; intros _.
  - unfold same_watch. by rewrite Hm, Hl, Hr.
  - unfold same_start. by rewrite Hr.
Qed.

Lemma knows_others s s0 i ro p t j :
  Inv s -> stepped ro p s s0 -> roles s !! i = Some ro -> threads s !! j = Some t -> i <> j ->
  knows s0 t.
Proof.
  intros Hi (_ & Hg & Hw & Hm & _) Hro Hj Hne.
  assert (Hrj : roles s !! j = Some t.1) by by rewrite list_lookup_fmap, Hj.
  apply (knows_frame s); [by apply (Forall_lookup_1 _ _ _ _ (inv_threads s Hi) Hj)|done|..].
  - intros Ht. apply Hw. intros ->. apply Hne. rewrite Ht in Hrj.
    by apply (count_one Watch (roles s)); [apply (inv_watch s Hi)|..].
  - intros Ht. apply Hm. intros ->. apply Hne. rewrite Ht in Hrj.
    by apply (count_one Main (roles s)); [apply (inv_main s Hi)|..].
Qed.

(** The map after a step. *)
Lemma map_stepped ro p s s0 :
  Inv s -> stepped ro p s s0 -> forall n q, podmap (mem s0) !! n = Some q ->
  exists pod, Pod_Name pod = n /\ fixed_heap s0 !! q = Some (fixed pod) /\
    first_received (rcv s0) pod.
Proof.
  intros Hi (Hk & Hg & Hw & _) n q Hq. destruct (decide (ro = Watch)) as [->|Hne].
  - destruct Hk as (g & _ & Hh & Hm & _ & _ & Hr & Ha). rewrite Hm in Hq. rewrite Hh, Hr.
    by apply map_first.
  - destruct (Hw Hne) as (Eh & Em & _ & _ & Er). rewrite Em in Hq. rewrite Eh, Er.
    by apply (inv_map s Hi).
Qed.

Lemma before_stepped ro p s s0 i :
  Inv s -> stepped ro p s s0 -> roles s !! i = Some ro -> count Watch (roles s0) = 0%nat ->
  watch_holds (mkWatching [] ∅ [] [] [] Idle) s0.
Proof.
  intros Hi (_ & _ & Hw & _ & _ & new & Ht & _) Hro Hc.
  rewrite Ht, fmap_app, count_app in Hc.
  apply (watch_holds_same _ s); [apply (inv_before s Hi); lia|]. apply Hw. intros ->.
  assert (Hone : (1 <= count Watch (roles s))%nat); [|lia].
  apply list_elem_of_lookup_2 in Hro. apply list_elem_of_split in Hro as (l1 & l2 & ->).
  change (Watch :: l2) with ([Watch] ++ l2). rewrite !count_app, count_singleton.
  by case_decide; [lia|].
Qed.

Lemma Inv_op s i ro o kk r s0 :
  Inv s -> threads s !! i = Some (ro, GCall o kk) -> effect s o r s0 ->
  Inv (mkState (mem s0) (set_prog i (kk r) (threads s0)) (log s0) None).
Proof.
  intros Hi Hti He.
  assert (Hro : roles s !! i = Some ro) by by rewrite list_lookup_fmap, Hti.
  pose proof (op_stepped ro s o kk r s0 Hi
    (Forall_lookup_1 _ _ _ _ (inv_threads s Hi) Hti) He) as Hst.
  assert (Hst' := Hst). destruct Hst' as (Hk & _ & _ & _ & Hl & new & Ht & Hnew & Hcm & Hcw & Hcr).
  assert (Hroles : roles (mkState (mem s0) (set_prog i (kk r) (threads s0)) (log s0) None) =
    roles s0) by apply set_prog_roles.
  split; rewrite ?Hroles; try done.
  - apply Forall_lookup_2. intros j t. cbn [threads]. unfold set_prog. intros Hj.
    apply (knows_roles s0); [|done|done|done].
    destruct (decide (i = j)) as [<-|Hne].
    + rewrite list_lookup_alter_eq, Ht, (lookup_app_l_Some _ _ _ _ Hti) in Hj.
      by injection Hj as <-.
    + rewrite list_lookup_alter_ne in Hj by done. rewrite Ht in Hj.
      apply lookup_app_Some in Hj as [Hj|[_ Hj]].
      * by apply (knows_others s s0 i ro (kk r) t j).
      * by apply (Forall_lookup_1 _ _ _ _ Hnew Hj).
  - rewrite Ht, fmap_app, count_app, Hcm, Nat.add_0_r. apply (inv_main s Hi).
  - intros Hc. destruct (before_stepped ro (kk r) s s0 i Hi Hst Hro Hc)
      as (Hh & Hm & Hs & Hw & Hr & Ha).
    split; [done|]. split; [done|]. split; [by rewrite Hroles|done].
  - exact (map_stepped ro (kk r) s s0 Hi Hst).
Qed.

Lemma Inv_crash s msg :
  Inv s -> crash_ok s msg -> Inv (mkState (mem s) (threads s) (log s) (Some msg)).
Proof.
  intros Hi Hc. destruct Hi. split; try done. by intros ? [= <-].
Qed.

(** Who may panic. *)
Lemma knows_panic s ro msg : knows s (ro, GHalt (Panic msg)) -> crash_ok s msg.
Proof.
  destruct ro as [| | |p]; intros (g & Hf & Hg); cbn in Hf; try done.
  - destruct Hf as [?|[Hn Hin]]; [done|]. right; right. split; [done|].
    destruct Hg as (_ & _ & _ & _ & -> & _). apply elem_of_app. by right.
  - destruct Hf as [?|(err & Herr & [= ->])]; [done|]. right; left.
    destruct Hg as (_ & _ & _ & _ & Hlog). destruct (Hlog err Herr) as [image Hin]. eauto.
Qed.

(** An access that ends the process: the reporting goroutine met an assignment. *)
Lemma knows_access s ro a kk pick msg :
  knows s (ro, GCall (Inside a) kk) -> exec_access (mem s) pick a = Crash msg -> crash_ok s msg.
Proof.
  destruct ro as [| | |p]; intros (g & [Ho _] & Hg) Ha; [done|..].
  - destruct Hg as (Hh & _ & _ & Hw & _).
    assert (Hidle : w_phase g = Idle -> writing (mem s) = true -> False).
    { intros Hi [p Hp]%Hw. congruence. }
    destruct a as [pod|[] p|p st|n|n p|n p| | | |]; cbn in Ho, Ha; try done.
    + rewrite <- Hh, list_lookup_fmap in Ho. destruct (heap (mem s) !! p); [done|].
      by apply is_Some_None in Ho.
    + destruct (writing (mem s)) eqn:Hwr; [|done]. by destruct (Hidle (proj1 Ho)).
    + destruct (writing (mem s)) eqn:Hwr; [|done]. by destruct (Hidle (proj1 Ho)).
  - assert (Hknown : forall q, is_Some (g !! q) -> is_Some (heap (mem s) !! q)).
    { intros q [pod Hq]. destruct (Hg q pod Hq) as [Hh _]. rewrite list_lookup_fmap in Hh.
      by destruct (heap (mem s) !! q); [eexists|]. }
    destruct a as [pod|f p|p st|n|n p|n p| |keys seen| |]; cbn in Ho, Ha; try done.
    + by destruct (Hknown p Ho) as [pod Hp]; rewrite Hp in Ha.
    + by destruct (Hknown p Ho) as [pod Hp]; rewrite Hp in Ha.
    + case_bool_decide; [done|].
      destruct (writing (mem s)) eqn:Hwr; [injection Ha as <-; by left|].
      by repeat case_match.
    + by case_bool_decide.
  - destruct Hg as (pod & Hh & _).
    destruct a as [q|[] q|q st|n|n q|n q| | | |]; cbn in Ho, Ha; try done.
    + subst q. rewrite list_lookup_fmap in Hh. by destruct (heap (mem s) !! p).
    + by case_bool_decide.
Qed.

Lemma Inv_step a s s' : Inv s -> exec code a s = Some s' -> Inv s'.
Proof.
  destruct a as [i pick ans]. unfold exec. intros Hi.
  destruct (crashed s); [done|]. destruct (threads s !! i) as [[ro p]|] eqn:Hti; [|done].
  pose proof (Forall_lookup_1 _ _ _ _ (inv_threads s Hi) Hti) as Hk.
  destruct p as [|[e|a|g] kk|h]; [done|..].
  - intros [= <-]. by apply (Inv_op s i ro (Outside e) kk (ans e)
      (mkState (mem s) (threads s) (log s ++ [Ev e (ans e)]) None)).
  - destruct (exec_access (mem s) pick a) as [r m|msg|] eqn:Ha; [| |done]; intros [= <-].
    + apply (Inv_op s i ro (Inside a) kk r (mkState m (threads s) (log s) None)); [done..|].
      by exists pick, m.
    + apply Inv_crash; [done|]. by eapply knows_access.
  - intros [= <-]. pose proof (Inv_op s i ro (Spawn g) kk ()
      (mkState (mem s) (threads s ++ [(g, code g)]) (log s) None) Hi Hti eq_refl) as Hs.
    cbn [mem threads log] in Hs. by rewrite (set_prog_app _ _ _ _ _ Hti) in Hs.
  - destruct h; try done. intros [= <-]. apply Inv_crash; [done|]. by eapply knows_panic.
Qed.

Lemma Inv_initial : Inv (initial code).
Proof.
  split; cbn [threads log crashed mem initial]; try done; try (by repeat constructor).
  - constructor; [|done]. exists (false, false). split; [apply Start_follows|done].
  - intros _. split; [done|]. split; [done|]. split; [done|]. split.
    { split; [done|]. by intros [p Hp]. }
    split; [done|]. unfold agree. cbn. split; [done|]. intros n. by rewrite !lookup_empty.
Qed.

Lemma Inv_reachable s : reachable code (initial code) s -> Inv s.
Proof.
  intros Hr. remember (initial code) as s1 eqn:Hs1. assert (Hi : Inv s1) by (subst; apply Inv_initial).
  clear Hs1. induction Hr as [|s1 s2 s3 [a Ha] _ IH]; [done|]. apply IH. by eapply Inv_step.
Qed.

(** ** Data races *)

(** What the goroutines share and assign after it was made. *)
Inductive location := TheMap | StatusOf (p : ptr).

(** The location an operation accesses, and whether it writes it. *)
Definition accesses (o : op) : option (location * bool) :=
  match o with
  | Inside (MapGet _) | Inside RangeStart | Inside (RangeNext _ _) => Some (TheMap, false)
  | Inside (MapAssign _ _) | Inside (MapAssigned _ _) => Some (TheMap, true)
  | Inside (Load All p) => Some (StatusOf p, false)
  | Inside (SetStatus p _) => Some (StatusOf p, true)
  | _ => None
  end.

(** Two goroutines are about to access one location, and one of them to write it. *)
Definition racing (s : state) (i j : nat) (x : location) : Prop :=
  exists ri rj oi oj ki kj wi wj,
    threads s !! i = Some (ri, GCall oi ki) /\ threads s !! j = Some (rj, GCall oj kj) /\
    i <> j /\ accesses oi = Some (x, wi) /\ accesses oj = Some (x, wj) /\ wi || wj = true.

(** Who accesses what. *)
Lemma knows_accesses s ro o kk x w :
  knows s (ro, GCall o kk) -> accesses o = Some (x, w) ->
  (ro = Watch /\ x = TheMap) \/ (ro = Report /\ (x = TheMap -> w = false)).
Proof.
  destruct ro as [| | |p]; intros (g & [Ho _] & _) Ha;
    (destruct o as [e|[pod|[] q|q st|n|n q|n q| | | |]|g']; cbn in Ho, Ha; try done);
    injection Ha as <- <-; tauto || (right; split; [done|]; done).
Qed.

Lemma races_on_map s i j x :
  Inv s -> racing s i j x ->
  x = TheMap /\ (roles s !! i = Some Watch /\ roles s !! j = Some Report \/
                 roles s !! i = Some Report /\ roles s !! j = Some Watch).
Proof.
  intros Hi (ri & rj & oi & oj & ki & kj & wi & wj & Hti & Htj & Hne & Hai & Haj & Hw).
  pose proof (Forall_lookup_1 _ _ _ _ (inv_threads s Hi) Hti) as Hki.
  pose proof (Forall_lookup_1 _ _ _ _ (inv_threads s Hi) Htj) as Hkj.
  assert (Hri : roles s !! i = Some ri) by by rewrite list_lookup_fmap, Hti.
  assert (Hrj : roles s !! j = Some rj) by by rewrite list_lookup_fmap, Htj.
  apply (knows_accesses _ _ _ _ _ _ Hki) in Hai. apply (knows_accesses _ _ _ _ _ _ Hkj) in Haj.
  destruct Hai as [[-> ->]|[-> Hmi]], Haj as [[-> Hx]|[-> Hmj]]; subst.
  - destruct Hne. by eapply count_one; [apply (inv_watch s Hi)|..].
  - by split; [|left].
  - by split; [|right].
  - destruct Hne. by eapply count_one; [apply (inv_report s Hi)|..].
Qed.

(** ** Properties *)

(** The pods of a list of pointers, up to their status. *)
Definition runs (s : state) (ps : list ptr) (pods : list Pod) : Prop :=
  Forall2 (fun p pod => fixed_heap s !! p = Some (fixed pod)) ps pods.

(** C6: pods are started as the reference function says, in every interleaving.  Whatever
    the schedule and the answers, the goroutines [runPod] that were started are, in order,
    those of [Kubelet.runNewPods] for a prefix of the pods received from the API server:
    one for every name, for the first version received.  Whenever the watching goroutine
    waits for something outside the process, this prefix is all that was received. *)
Theorem kubelet_starts_reference (s : state) :
  reachable code (initial code) s ->
  exists done pending, rcv s = (Some <$> done) ++ pending /\
    runs s (started (roles s)) (Kubelet.runNewPods k0 done).2 /\
    NoDup (Pod_Name <$> (Kubelet.runNewPods k0 done).2) /\
    (forall i e kk, threads s !! i = Some (Watch, GCall (Outside e) kk) -> pending = []).
Proof.
  intros Hi%Inv_reachable.
  assert (Hg : exists g, watch_holds g s /\
    forall i e kk, threads s !! i = Some (Watch, GCall (Outside e) kk) -> w_pending g = []).
  { destruct (decide (Watch ∈ roles s)) as [Hin|Hnot].
    - apply list_elem_of_lookup in Hin as [j Hj]. rewrite list_lookup_fmap in Hj.
      destruct (threads s !! j) as [[ro q]|] eqn:Htj; [|done]. injection Hj as ->.
      destruct (Forall_lookup_1 _ _ _ _ (inv_threads s Hi) Htj) as (g & Hf & Hg).
      exists g. split; [done|]. intros i e kk Hti.
      assert (i = j) as ->.
      { by eapply (count_one Watch (roles s)); [apply (inv_watch s Hi)|..];
          rewrite list_lookup_fmap, ?Hti, ?Htj. }
      rewrite Htj in Hti. injection Hti as ->. destruct Hf as [Ho _]. destruct e; try done;
        cbn in Ho; tauto.
    - exists (mkWatching [] ∅ [] [] [] Idle). split; [apply (inv_before s Hi)|done].
      by apply count_none. }
  destruct Hg as (g & (Hh & _ & Hs & _ & Hr & Ha) & Hpend).
  exists (w_done g), (w_pending g). split; [done|].
  pose proof (Kubelet.runNewPods_spec k0 (w_done g)) as Hspec. unfold agree in Ha.
  destruct (Kubelet.runNewPods k0 (w_done g)) as [k' st]. destruct Ha as [Hst _].
  split; [|split; [by destruct Hspec as (_ & Hnd & _)|done]].
  unfold runs. by rewrite Hh, Hs.
Qed.

(** C9: what the kubelet tells the outside, in every interleaving.  Every status report is
    a PUT of a pod that the API server sent, in the version first received and with nothing
    but the status changed, to the URL of that pod; every container is created for a
    container of the spec of such a pod; the other requests are the registration and the
    polls. *)
Theorem kubelet_reports_received (s : state) :
  reachable code (initial code) s -> Forall (event_ok (rcv s)) (log s).
Proof. intros Hi%Inv_reachable. apply (inv_log s Hi). Qed.

(** C11: the ways the kubelet ends, in every interleaving: the reporting goroutine ranges
    over the map during an assignment to it; the image of a container cannot be pulled; or
    the API server sent a null pod.  Nothing else crashes. *)
Theorem kubelet_crashes (s : state) (msg : string) :
  reachable code (initial code) s -> crashed s = Some msg -> crash_ok s msg.
Proof. intros Hi%Inv_reachable. apply (inv_crash s Hi). Qed.

(** C12: the data races of the kubelet.  In every reachable state two goroutines that are
    about to access the same location, one of them writing it, are the watching and the
    reporting goroutine at the map; the status of a pod is never raced for. *)
Theorem kubelet_races (s : state) (i j : nat) (x : location) :
  reachable code (initial code) s -> racing s i j x ->
  x = TheMap /\ (roles s !! i = Some Watch /\ roles s !! j = Some Report \/
                 roles s !! i = Some Report /\ roles s !! j = Some Watch).
Proof. intros Hi%Inv_reachable. by apply races_on_map. Qed.
End safety.

(** An observation of an executed schedule is one of a reachable state. *)
Lemma executed {A} code l (f : state -> A) x :
  f <$> exec_all code l (initial code) = Some x ->
  exists s, reachable code (initial code) s /\ f s = x.
Proof.
  destruct (exec_all code l (initial code)) as [s|] eqn:Hl; [|done]. intros [= <-].
  exists s. split; [|done]. by eapply schedule_reachable.
Qed.

(** ** A concrete kubelet *)

Module Witness.
#[export] Instance decoder : Kubelet.PodListDecoder := fun s =>
  match ser_get (A:=list (option Pod)) s with
  | Some (l, _) => Ok (Some l)
  | None => Err (ErrText "cannot decode")
  end.

Definition pod (name : string) : Pod :=
  mkPod (meta_named name) (mkPodSpec (Some [mkContainer "web" "nginx"]) 1) "n1" PodScheduled.
Definition k : Kubelet := mkKubelet "n1" "localhost:8080" ∅.
Definition code : role -> gprog unit := body (fun _ => Ok ()) k 100.

(** Answers from outside: every call succeeds, and an HTTP request gets [r]. *)
Definition ok (r : Z * string) (e : ext) : resp e :=
  (ref_handle e (mkRefWorld ∅ [] 0 0 [] ∅ [Ok r])).1.

(** An external call that did not fail. *)
Definition went_well (ev : event) : bool :=
  let 'Ev e r := ev in
  match e return resp e -> bool with
  | HttpDo _ _ _ => fun r => is_Ok r
  | ImagePull _ | ImageCopy _ | ContainerStart _ => fun r => is_Ok r
  | ContainerCreate _ _ _ => fun r => is_Ok r
  | ContainerInspect _ => fun r => match r with InspectError _ => false | _ => true end
  | _ => fun _ => true
  end r.

(** Goroutine [i] does [n] operations. *)
Definition does (i n : nat) (r : Z * string) : list action := replicate n (Run i None (ok r)).

Definition assigned : string := ser_put [Some (pod "a"); Some (pod "b"); Some (pod "a")] "".

(** The node is registered and both goroutines are started; the pods arrive and the first
    is looked up. *)
Definition prelude : list action :=
  does 0 3 (Kubelet.StatusCreated, "") ++ does 1 1 (Kubelet.StatusOK, assigned) ++ does 1 5 (Kubelet.StatusOK, "").

(** The first pod is in the map; the assignment of the second begins, the ticker fires, and
    the map is ranged over. *)
Definition to_crash : list action :=
  prelude ++ does 1 6 (Kubelet.StatusOK, "") ++ does 2 3 (Kubelet.StatusOK, "").

(** The poll is finished, and the first pod is reported. *)
Definition to_report : list action :=
  prelude ++ does 1 11 (Kubelet.StatusOK, "") ++ does 2 2 (Kubelet.StatusOK, "") ++
  [Run 2 (Some "a") (ok (Kubelet.StatusOK, ""))] ++ does 2 6 (Kubelet.StatusOK, "").
End Witness.

#[local] Existing Instance Witness.decoder.

(** The kubelet can crash although everything outside works.  The node is registered,
    a poll brings pods, Docker answers; while the watching goroutine assigns to the map the
    ticker of the reporting goroutine fires and it ranges over the map, which ends the
    process. *)
Theorem kubelet_map_crash :
  exists s, reachable Witness.code (initial Witness.code) s /\
    crashed s = Some "concurrent map iteration and map write" /\
    forallb Witness.went_well (log s) = true.
Proof.
  destruct (executed Witness.code Witness.to_crash
    (fun s => (crashed s, forallb Witness.went_well (log s)))
    (Some "concurrent map iteration and map write", true)) as (s & Hr & Hs);
    [vm_compute; reflexivity|].
  injection Hs as Hc Hl. exists s. split; [exact Hr|split; [exact Hc|exact Hl]].
Qed.

(** The pods started and the requests sent in the run that goes well. *)
Lemma report_run :
  (fun s => (started (threads s).*1, length (log s), crashed s)) <$>
    exec_all Witness.code Witness.to_report (initial Witness.code) =
  Some ([0; 1]%nat, 6%nat, None).
Proof. vm_compute. reflexivity. Qed.

Lemma kubelet_starts_reference_witness :
  exists s, reachable Witness.code (initial Witness.code) s /\
    started (threads s).*1 = [0; 1]%nat /\
    exists done pending, received (log s) = (Some <$> done) ++ pending /\
      runs s (started (threads s).*1) (Kubelet.runNewPods Witness.k done).2 /\
      NoDup (Pod_Name <$> (Kubelet.runNewPods Witness.k done).2) /\
      (forall i e kk, threads s !! i = Some (Watch, GCall (Outside e) kk) -> pending = []).
Proof.
  destruct (executed Witness.code Witness.to_report (fun s => started (threads s).*1) [0; 1]%nat)
    as (s & Hr & Hs); [vm_compute; reflexivity|].
  exists s. split; [exact Hr|]. split; [exact Hs|].
  exact (kubelet_starts_reference (fun _ => Ok ()) Witness.k 100 s Hr).
Defined.

Lemma kubelet_reports_received_witness :
  exists s, reachable Witness.code (initial Witness.code) s /\ length (log s) = 6%nat /\
    Forall (event_ok Witness.k (received (log s))) (log s).
Proof.
  destruct (executed Witness.code Witness.to_report (fun s => length (log s)) 6%nat)
    as (s & Hr & Hs); [vm_compute; reflexivity|].
  exists s. split; [exact Hr|]. split; [exact Hs|].
  exact (kubelet_reports_received (fun _ => Ok ()) Witness.k 100 s Hr).
Defined.

Lemma kubelet_crashes_witness :
  exists s, reachable Witness.code (initial Witness.code) s /\
    crash_ok s "concurrent map iteration and map write".
Proof.
  destruct (executed Witness.code Witness.to_crash crashed
    (Some "concurrent map iteration and map write")) as (s & Hr & Hs); [vm_compute; reflexivity|].
  exists s. split; [exact Hr|].
  exact (kubelet_crashes (fun _ => Ok ()) Witness.k 100 s _ Hr Hs).
Defined.

(** What two goroutines are about to do. *)
Definition about (i j : nat) (s : state) :=
  match threads s !! i, threads s !! j with
  | Some (_, GCall oi _), Some (_, GCall oj _) => (accesses oi, accesses oj)
  | _, _ => (None, None)
  end.

Lemma about_racing i j s x wi wj :
  about i j s = (Some (x, wi), Some (x, wj)) -> i <> j -> wi || wj = true -> racing s i j x.
Proof.
  unfold about, racing. intros Ha Hne Hw.
  destruct (threads s !! i) as [[ri [|oi ki|]]|]; try done.
  destruct (threads s !! j) as [[rj [|oj kj|]]|]; try done.
  injection Ha as Hi Hj. by exists ri, rj, oi, oj, ki, kj, wi, wj.
Qed.

Lemma kubelet_races_witness :
  exists s, reachable Witness.code (initial Witness.code) s /\ racing s 1 2 TheMap /\
    (TheMap = TheMap /\
     ((threads s).*1 !! 1%nat = Some Watch /\ (threads s).*1 !! 2%nat = Some Report \/
      (threads s).*1 !! 1%nat = Some Report /\ (threads s).*1 !! 2%nat = Some Watch)).
Proof.
  destruct (executed Witness.code (removelast Witness.to_crash) (about 1 2)
    (Some (TheMap, true), Some (TheMap, false))) as (s & Hr & Hs); [vm_compute; reflexivity|].
  assert (Hrace : racing s 1 2 TheMap) by (by eapply about_racing).
  exists s. split; [exact Hr|]. split; [exact Hrace|].
  exact (kubelet_races (fun _ => Ok ()) Witness.k 100 s 1 2 TheMap Hr Hrace).
Defined.
End KubeletSafety.
