(* ===== verification/Commands.v ===== *)
(** * Commands: the four programs (src/cmd)

    The [main] and [run] functions of the API server, the scheduler, the controller and the
    kubelet, as programs over the operating system: signals, the embedded etcd, clients,
    contexts and the goroutines they start, whose bodies are the components' programs
    ([scheduler_body], [controller_body]).  The ledger of [EmbeddedEtcd] accounts for what
    [main] holds; [Process] lets the goroutines run beside it, so that an exit in one of them
    ends the process ([daemons_outcome]).  Parsing the command line (cobra) is outside;
    [execution] is its result. *)

From Stdlib Require Import Ascii.
From stdpp Require Import pretty relations.
From S2P Require Import Prelude Errors Effects Api Storage Names Reference Ledger EmbeddedEtcd Process.
From S2P Require Import PodRegistry NodeRegistry ReplicaSetRegistry Scheduler Controller.
From S2P Require Import Handlers Kubelet.

Module Commands.
Import EmbeddedEtcd.

(** ** Command lines *)

(** What [rootCmd.Execute()] does: it runs the command with the flags, or only shows the
    help, or reports an error of the command line. *)
Inductive execution (F : Type) := RunWith (flags : F) | HelpShown | ExecError (err : error).
Arguments RunWith {F} flags.
Arguments HelpShown {F}.
Arguments ExecError {F} err.

(** [fmt.Fprintf(os.Stderr, "error: %v\n", err); os.Exit(1)]. *)
Definition fail {A} (err : error) : prog A :=
  _ ← os_call (Printf true ("error: " +:+ Error err)); Halt (Exit 1).

Definition execute {F} (run : F -> prog (result unit)) (x : execution F) : prog unit :=
  match x with
  | RunWith flags =>
      err ← run flags;
      match err with
      | Err err => fail err
      | Ok _ => mret ()
      end
  | HelpShown => mret ()
  | ExecError err => fail err
  end.

(** [time.Duration.String]. *)
Fixpoint trim_zeros (s : string) : string :=
  match s with
  | EmptyString => ""
  | String c s =>
      match trim_zeros s with
      | EmptyString => if Ascii.eqb c "0" then "" else String c ""
      | t => String c t
      end
  end.

Definition str_tail (s : string) : string := match s with EmptyString => "" | String _ s => s end.

(** The part below one unit of [10^prec], without trailing zeros. *)
Definition fmt_frac (v : Z) (prec : Z) : string :=
  match trim_zeros (str_tail (pretty (10 ^ prec + v mod 10 ^ prec))) with
  | EmptyString => ""
  | digits => "." +:+ digits
  end.

Definition Duration_String (d : Z) : string :=
  let u := Z.abs d in
  let text :=
    if u =? 0 then "0s"
    else if u <? 1000 then pretty u +:+ "ns"
    else if u <? 1000000 then
      pretty (u / 1000) +:+ fmt_frac u 3 +:+ String (ascii_of_nat 194) (String (ascii_of_nat 181) "s")
    else if u <? Second then pretty (u / 1000000) +:+ fmt_frac u 6 +:+ "ms"
    else
      let secs := u / Second in
      let mins := secs / 60 in
      let hours := mins / 60 in
      (if 0 <? hours then pretty hours +:+ "h" else "") +:+
      (if 0 <? mins then pretty (mins mod 60) +:+ "m" else "") +:+
      pretty (secs mod 60) +:+ fmt_frac u 9 +:+ "s" in
  if d <? 0 then "-" +:+ text else text.

(** ** The API server (cmd/apiserver/apiserver.go, [Start] of pkg/api/server/server.go) *)

Record APIServerFlags := mkAPIServerFlags {
  address : string;
  etcdPeerPort : Z;
  etcdClientPort : Z }.

Definition default_APIServerFlags : APIServerFlags := mkAPIServerFlags ":8080" 0 2379.

Definition runAPIServer (flags : APIServerFlags) : prog (result unit) :=
  _ ← os_call SignalNotify;
  r ← StartEmbeddedEtcdWithPort (etcdPeerPort flags) (etcdClientPort flags);
  match r with
  | Err err => mret (Err (ErrText ("failed to start etcd: " +:+ Error err)))
  | Ok (etcdServer, port) =>
      connected ← call (EtcdConnect ["http://localhost:" +:+ pretty port] (5 * Second));
      match connected with
      | Err err => mret (Err (ErrText ("failed to create etcd client: " +:+ Error err)))
      | Ok cli =>
          deferred (_ ← call (EtcdClose cli); mret ()) (
            _ ← os_call (Printf false ("Starting API server on " +:+ address flags));
            _ ← call (Go (GoServe (address flags)));
            ended ← os_call ServedOrSignal;
            match ended with
            | Some err => _ ← StopEmbeddedEtcd etcdServer; mret (Err err)
            | None =>
                _ ← os_call (Printf false "Received shutdown signal. Stopping services...");
                _ ← StopEmbeddedEtcd etcdServer;
                mret (Ok ())
            end)
      end
  end.

Definition main_apiserver : execution APIServerFlags -> prog unit := execute runAPIServer.

(** ** The scheduler (cmd/scheduler/scheduler.go) *)





(** ** The controller (cmd/controller/controller.go) *)





(** ** The kubelet (cmd/kubelet/kubelet.go) *)

Record KubeletFlags := mkKubeletFlags { flag_nodeName : string; flag_apiServerURL : string }.

Definition default_KubeletFlags : KubeletFlags := mkKubeletFlags "" "localhost:8080".

(** [docker] is the outcome of making the Docker client. *)
Definition runKubelet `{Object Node} (docker : result unit) (flags : KubeletFlags)
  : prog (result unit) :=
  match Kubelet.NewKubelet (flag_nodeName flags) (flag_apiServerURL flags) docker with
  | Err err => mret (Err (ErrText ("failed to create kubelet: " +:+ Error err)))
  | Ok k =>
      err ← Kubelet.Start k;
      match err with
      | Err err => mret (Err (ErrText ("failed to start kubelet: " +:+ Error err)))
      | Ok _ => Halt Blocked
      end
  end.

Definition main_kubelet `{Object Node} (docker : result unit) : execution KubeletFlags -> prog unit :=
  execute (runKubelet docker).

(** ** The goroutines *)

Section bodies.
Context `{Validator, Object Pod, Object Node, Object ReplicaSet}.
Context `{EntityReader Pod, EntityReader Node, EntityReader ReplicaSet}.

(** [func (s *APIServer) Start(address string) error]: the routes that are registered, and
    the call that serves them until it fails. *)
Definition Start (s : APIServer.APIServer) (address : string)
  : list APIServer.Route * prog error :=
  let container := APIServer.registerRoutes s in
  (container, os_call (ListenAndServe address)).




End bodies.

Example durations :
  Duration_String <$> [0; 999; 1500; 2000000; 10 * Second; 90 * Second; 3661 * Second + 2000000]
  = ["0s"; "999ns"; "1.5" +:+ String (ascii_of_nat 194) (String (ascii_of_nat 181) "s"); "2ms"; "10s";
     "1m30s"; "1h1m1.002s"].
Proof. vm_compute. reflexivity. Qed.

(** ** What the commands leave *)

#[local] Abbreviation accounts := (tracks answers update).


Lemma close_tracks cli (P : held -> Prop) g :
  P (update (EtcdClose cli) (Ok ()) g) ->
  accounts (fun o g' => o = Val () /\ P g') (_ ← call (EtcdClose cli); mret ()) g.
Proof. intros HP. track. track. intros r _. cbn [continue]. by track. Qed.

(** A deferred call that returns. *)
Lemma deferred_val {A} (I : outcome A -> held -> Prop) (Q : outcome A -> held -> Prop) d p g :
  accounts (fun o g' => (exists a, o = Val a) /\ I o g') p g ->
  (forall o g', I o g' -> accounts (fun r g'' => r = Val () /\ Q o g'') d g') ->
  accounts Q (deferred d p) g.
Proof.
  intros Hp Hd. track. eapply tracks_mono; [exact Hp|]. intros o g1 [[a ->] HI].
  cbn [after_body]. track. eapply tracks_mono; [exact (Hd _ _ HI)|].
  intros o g2 [-> HQ]. cbn [continue]. by track.
Qed.





(** How a run of the API server ends.  Once the server goroutine was started, everything is
    released, whether a signal came or serving failed.  Before that, either etcd could not be
    started, and then no etcd runs, but its listeners stay open if it took too long to start;
    or no client could be created, and then etcd is left running with its listeners and its
    data directory. *)
Definition api_ended (addr : string) (r : result unit) (g : held) : Prop :=
  clients g = [] /\
  (running g = [] /\ serving g = [] /\ spawned g = [GoServe addr] \/
   spawned g = [] /\ exists cause,
     r = Err (ErrText ("failed to start etcd: " +:+ Error cause)) /\ running g = [] /\
       (serving g = [] \/
        cause = ErrText "server took too long to start" /\ exists s, serving g = [s]) \/
     r = Err (ErrText ("failed to create etcd client: " +:+ Error cause)) /\
       exists s d, running g = [s] /\ serving g = [s] /\ dirs g = [d]).

Definition served (addr : string) (o : outcome (result unit)) (g : held) : Prop :=
  match o with Val r => api_ended addr r g | Halted _ => False end.

Lemma stop_serving_tracks {A} e (a : A) g (Q : outcome A -> held -> Prop) :
  running g = [] -> serving g = [] -> cfg_Dir (etcd_config e) ∉ dirs g ->
  (forall g', running g' = [] -> serving g' = [] -> clients g' = clients g ->
     contexts g' = contexts g -> spawned g' = spawned g -> Q (Val a) g') ->
  accounts Q (_ ← StopEmbeddedEtcd e; mret a)
    (with_server (etcd_server e) (with_dir (cfg_Dir (etcd_config e)) g)).
Proof.
  intros Hr Hs Hd HQ. track. eapply tracks_mono.
  { apply stop_tracks; [rewrite Hr|rewrite Hs|done]; set_solver. }
  intros o g' [-> [->| ->]]; cbn [continue]; track; by apply HQ.
Qed.

Lemma runAPIServer_tracks flags :
  accounts (served (address flags)) (runAPIServer flags) nothing_held.
Proof.
  unfold runAPIServer, os_call. track. track. intros [] _. cbn [continue]. track.
  eapply tracks_mono; [apply start_tracks|].
  intros [[[e port]|err]|h] g Hs; cbn [started continue] in *; [| |done].
  2: { destruct Hs as (Hr & Hc & _ & Hsp & _ & Hsv & _). track. split; [done|]. right.
       split; [done|]. exists err. left. done. }
  destruct Hs as (-> & _ & _ & Hd & _). track. track.
  intros [cli|err] Hc; cbn [continue].
  2: { track. split; [done|]. right. split; [done|]. exists err. right. split; [done|].
       by eexists _, _. }
  apply (deferred_val (fun o g => served (address flags) o (set_clients (remove cli (clients g)) [] g)
                         /\ contexts g = [])).
  - track. track. intros [] _. cbn [continue]. track. track. intros [] _. cbn [continue].
    track. track. set (g1 := mkHeld [] [] [] [] [cli] [] [GoServe (address flags)] []).
    assert (Hrem : remove cli [cli] = []) by (apply remove_fresh; set_solver).
    intros [err|] _; cbn [continue].
    + apply (stop_serving_tracks e (Err err) g1); [done..|].
      intros g' H1 H2 H3 H4 H5. split; [by eexists|]. split; [|done].
      split; [cbn; by rewrite H3|]. left. auto.
    + track. track. intros [] _. cbn [continue].
      apply (stop_serving_tracks e (Ok ()) g1); [done..|].
      intros g' H1 H2 H3 H4 H5. split; [by eexists|]. split; [|done].
      split; [cbn; by rewrite H3|]. left. auto.
  - intros o g' [Ho Hctx]. apply close_tracks. destruct o as [[[]|err]|h]; [..|done].
    + exact Ho.
    + exact Ho.
Qed.


(** ** The loops beside [main] *)




Section loops.
Context `{Validator, Object Pod, Object Node, Object ReplicaSet}.
Variable P : halt -> Prop.

#[local] Abbreviation etcd := EtcdStorage.NewEtcdStorage.

(** Sequences, lock scopes and branches without an exit. *)
Ltac no_exit :=
  repeat first
    [ exact I
    | lazymatch goal with
      | |- stops _ (_ ≫= _) => apply stops_bind
      | |- stops _ (locked _ _ _) => apply stops_locked
      | |- stops _ (call _) => intros ?; exact I
      end
    | progress intros | case_match ].

Lemma stops_Get `{Object A} key : stops P (Get etcd (A:=A) key).
Proof. cbn. unfold EtcdStorage.Get. no_exit. Qed.
Lemma stops_List `{Object A} p (l : ListObj A) : stops P (List etcd p l).
Proof. cbn. unfold EtcdStorage.List. no_exit. Qed.
Lemma stops_Create `{Object A} key (a : A) : stops P (Create etcd key a).
Proof. cbn. unfold EtcdStorage.Create. no_exit. Qed.
Lemma stops_Update `{Object A} key (a : A) : stops P (Update etcd key a).
Proof. cbn. unfold EtcdStorage.Update. no_exit. Qed.

Create HintDb no_exit.
#[local] Hint Resolve stops_Get stops_List stops_Create stops_Update : no_exit.

End loops.

Section daemons.
Context `{Validator, Object Pod, Object Node, Object ReplicaSet}.







End daemons.

(** ** Properties *)

(** C23: how the API server ends.  For every command line and in every behaviour of the
    operating system, [runAPIServer] returns and the process ends with status 0 if it returned
    nil and with status 1 otherwise, having closed its client.  Everything is released (etcd,
    its listeners) when a signal came and when serving failed.  If etcd could not be started no
    etcd runs, but its listeners are still open if it took too long to start.  If the client
    could not be created, etcd is left running, with its listeners and its data directory.
    For the help nothing happens, for a wrong command line the status is 1. *)
Theorem apiserver_outcome (x : execution APIServerFlags) :
  (forall flags, tracks answers update (fun o g => exists r, o = Val r /\ api_ended (address flags) r g)
     (runAPIServer flags) nothing_held) /\
  tracks answers update (fun o g =>
    match x, o with
    | RunWith flags, Val _ => api_ended (address flags) (Ok ()) g
    | RunWith flags, Halted h => h = Exit 1 /\ exists err, api_ended (address flags) (Err err) g
    | HelpShown, Val _ => g = nothing_held
    | ExecError _, Halted h => h = Exit 1 /\ g = nothing_held
    | _, _ => False
    end) (main_apiserver x) nothing_held.
Proof.
  split.
  { intros flags. eapply tracks_mono; [apply runAPIServer_tracks|].
    intros [r|h] g Ho; [by exists r|done]. }
  destruct x as [flags| |err].
  2: { unfold main_apiserver. cbn [execute]. by track. }
  2: { unfold main_apiserver. cbn [execute]. unfold fail, os_call. track. track. intros [] _.
       cbn [continue]. by track. }
  unfold main_apiserver. cbn [execute]. track. eapply tracks_mono; [apply runAPIServer_tracks|].
  intros [[[]|err]|h] g Ho; cbn [served continue] in *; [| |done].
  - by track.
  - unfold fail, os_call. track. track. intros [] _. cbn [continue]. track. eauto.
Qed.


(** The goroutine of the kubelet's [main] ends with status 1 when it cannot register its
    node, and blocks for ever once it has. *)
Theorem kubelet_main_outcome `{Object Node} (docker : result unit) (xk : execution KubeletFlags) :
  tracks answers update (fun o g => g = nothing_held /\
      match o with
      | Val _ => forall flags, xk <> RunWith flags
      | Halted h => h = Exit 1 \/ h = Blocked
      end) (main_kubelet docker xk) nothing_held.
Proof.
  unfold main_kubelet. destruct xk as [flags| |err]; cbn [execute]; [|by track|].
  2: { unfold fail, os_call. track. track. intros [] _. cbn [continue]. track. split; auto. }
  unfold runKubelet, Kubelet.NewKubelet, Kubelet.Start, Kubelet.registerNode.
  unfold tracks, fail, os_call, call, mbind, prog_mbind, mret, prog_mret.
  destruct docker as [[]|derr]; cbn [prog_bind]; [|by auto].
  case_match; cbn [prog_bind]; [|by auto].
  intros [[code body]|herr] _; cbn [prog_bind]; [|by auto].
  destruct (code =? Kubelet.StatusCreated); cbn [prog_bind]; auto.
Qed.

(** ** A concrete execution *)


End Commands.
