(* ===== verification/EtcdHistory.v ===== *)
(** * EtcdHistory: what a client sees of etcd's revisions

    etcd is not part of the repository.  The watches are verified for every history it may
    have: a parameter [at_rev] says what is stored at each revision, with the laws of etcd's
    data model (a key carries the revision that last modified it and the one that created
    it).  On top of it stand the documented guarantees of the client calls the watches use:
    a prefix read returns what was stored at the revision of its header, later reads see
    later revisions, and a watch delivers the changes of the revisions from its first one
    on, in order, whole revisions at a time and without gaps.  An event carries the previous
    version of its key if the watch asked for it and etcd still has it.

    [reports] says that a list of events tells exactly the changes of a range of revisions;
    following such a list leads from the values before the range to the values after it
    ([follow_reports]).  [HistoryOf] is a concrete history, which shows that the laws can
    hold. *)

From S2P Require Import Prelude Errors Effects Ledger.

#[export] Instance KeyValue_eq_dec : EqDecision KeyValue.
Proof. solve_decision. Defined.

(** ** Histories *)

Class EtcdHistory := {
  at_rev : Z -> gmap string KeyValue;
  (** whether the version of a key before a change is still there (not compacted) when the
      change is reported *)
  retained : Z -> string -> bool;
  at_rev_key : forall r k kv, at_rev r !! k = Some kv -> kv_key kv = k;
  (** a stored version was written at its [mod_revision] and is there since then *)
  at_rev_mod : forall r k kv, at_rev r !! k = Some kv ->
    kv_mod_revision kv <= r /\
    forall r', kv_mod_revision kv <= r' <= r -> at_rev r' !! k = Some kv;
  (** [create_revision] is [mod_revision] exactly if the key was created by that change *)
  at_rev_create : forall r k kv, at_rev r !! k = Some kv ->
    kv_create_revision kv = kv_mod_revision kv <-> at_rev (kv_mod_revision kv - 1) !! k = None }.

(** The part of a store under a prefix. *)
Definition part_for (p : string) (m : gmap string KeyValue) : gmap string KeyValue :=
  filter (fun kv => HasPrefix kv.1 p = true) m.

Section history.
Context `{EtcdHistory}.

Definition changed (r : Z) (k : string) : Prop := at_rev r !! k <> at_rev (r - 1) !! k.

#[export] Instance changed_dec r k : Decision (changed r k).
Proof. unfold changed. apply _. Defined.

(** The value of a key at a revision. *)
Definition value_at (r : Z) (k : string) : option string := kv_value <$> at_rev r !! k.

(** A change writes its own revision. *)
Lemma changed_mod r k kv : changed r k -> at_rev r !! k = Some kv -> kv_mod_revision kv = r.
Proof.
  intros Hc Hk. destruct (at_rev_mod _ _ _ Hk) as [Hle Hsince].
  destruct (decide (kv_mod_revision kv = r)) as [|Hne]; [done|]. exfalso. apply Hc.
  by rewrite Hk, (Hsince (r - 1)) by lia.
Qed.

Lemma unchanged_until a b k :
  a <= b -> (forall r, a < r <= b -> ~ changed r k) -> at_rev b !! k = at_rev a !! k.
Proof.
  intros Hab Hno. replace b with (a + Z.of_nat (Z.to_nat (b - a))) in * by lia.
  clear Hab. induction (Z.to_nat (b - a)) as [|n IH]; [by rewrite Z.add_0_r|].
  rewrite <- IH by (intros r Hr; apply Hno; lia).
  destruct (decide (changed (a + Z.of_nat (S n)) k)) as [Hc|Hc].
  - by destruct (Hno (a + Z.of_nat (S n))); [lia|].
  - unfold changed in Hc. apply dec_stable in Hc. rewrite Hc. f_equal. f_equal. lia.
Qed.

(** ** Events that tell the changes of a range of revisions *)

Section reports.
Context {E : Type}.
Variable key_of : E -> string.
(** what an event says of the change of its key at a revision *)
Variable says : Z -> E -> Prop.

(** One revision: every changed key under the prefix exactly once, in any order. *)
Definition reports_at (p : string) (r : Z) (es : list E) : Prop :=
  NoDup (key_of <$> es) /\
  Forall (fun e => HasPrefix (key_of e) p = true /\ changed r (key_of e) /\ says r e) es /\
  forall k, HasPrefix k p = true -> changed r k -> k ∈ key_of <$> es.

(** The revisions [a], ..., [b - 1], in order. *)
Inductive reports (p : string) : Z -> Z -> list E -> Prop :=
| reports_nil a : reports p a a []
| reports_rev a b es1 es2 :
    reports_at p a es1 -> reports p (a + 1) b es2 -> reports p a b (es1 ++ es2).

Lemma reports_le p a b es : reports p a b es -> a <= b.
Proof. induction 1; lia. Qed.

Lemma reports_app p a b c es1 es2 :
  reports p a b es1 -> reports p b c es2 -> reports p a c (es1 ++ es2).
Proof.
  intros Hr Hr2. induction Hr as [|a b es1 es1' Hat _ IH]; [done|].
  rewrite <- app_assoc. apply reports_rev; [done|by apply IH].
Qed.

(** *** Following the events *)

(** A map that is updated by each event as the event says. *)
Variable apply : gmap string string -> E -> gmap string string.
Hypothesis apply_says : forall r e m, says r e ->
  apply m e = match value_at r (key_of e) with
              | Some v => <[key_of e := v]> m
              | None => delete (key_of e) m
              end.

Lemma apply_lookup r e m k :
  says r e -> apply m e !! k = if decide (key_of e = k) then value_at r k else m !! k.
Proof.
  intros Hs. rewrite (apply_says r) by done.
  destruct (decide (key_of e = k)) as [<-|Hne], (value_at r (key_of e)) eqn:Hv;
    by rewrite ?lookup_insert_eq, ?lookup_delete_eq, ?lookup_insert_ne, ?lookup_delete_ne.
Qed.

Lemma follow_revision r es m k :
  Forall (says r) es ->
  foldl apply m es !! k = if decide (k ∈ key_of <$> es) then value_at r k else m !! k.
Proof.
  intros Hes. revert m; induction Hes as [|e es He _ IH]; intros m; [done|]. cbn [foldl].
  rewrite IH, (apply_lookup r) by done. rewrite fmap_cons.
  destruct (decide (k ∈ key_of <$> es)) as [Hin|Hin].
  - by rewrite decide_True by by right.
  - destruct (decide (key_of e = k)) as [<-|Hne].
    + by rewrite decide_True by by left.
    + rewrite decide_False; [done|]. by intros [->|?]%elem_of_cons.
Qed.

Lemma follow_reports_at p r es m k :
  reports_at p r es ->
  foldl apply m es !! k =
  if decide (HasPrefix k p = true /\ changed r k) then value_at r k else m !! k.
Proof.
  intros (_ & Hes & Hall). rewrite (follow_revision r).
  2: { eapply Forall_impl; [done|]. by intros e (_ & _ & ?). }
  destruct (decide (k ∈ _)) as [Hin|Hin].
  - rewrite decide_True; [done|]. apply list_elem_of_fmap in Hin as (e & -> & He).
    rewrite Forall_forall in Hes. by destruct (Hes e He) as (? & ? & _).
  - rewrite decide_False; [done|]. intros [? ?]. auto.
Qed.

(** After the events of a range every key that changed in it has its value at the end of
    the range, the others are as before. *)
Lemma follow_reports p a b es m k :
  reports p a b es ->
  (HasPrefix k p = true /\ (exists r, a <= r < b /\ changed r k) /\
   foldl apply m es !! k = value_at (b - 1) k) \/
  ((HasPrefix k p = true -> forall r, a <= r < b -> ~ changed r k) /\
   foldl apply m es !! k = m !! k).
Proof.
  intros Hr. revert m; induction Hr as [a|a b es1 es2 Hat Hr IH]; intros m.
  { right. split; [|done]. intros _ r Hr. lia. }
  pose proof (reports_le _ _ _ _ Hr) as Hle. rewrite foldl_app.
  destruct (IH (foldl apply m es1)) as [(Hp & (r & Hrr & Hc) & ->)|[Hno ->]].
  { left. split; [done|]. split; [|done]. exists r. split; [lia|done]. }
  rewrite (follow_reports_at p a) by done.
  destruct (decide (HasPrefix k p = true /\ changed a k)) as [[Hp Hc]|Hnc].
  - left. split; [done|]. split; [by exists a; split; [lia|]|].
    unfold value_at. by rewrite (unchanged_until a (b - 1)) by (lia || (intros r Hrr; apply Hno; [done|lia])).
  - right. split; [|done]. intros Hp r Hrr.
    destruct (decide (r = a)) as [->|Hne]; [tauto|]. apply Hno; [done|lia].
Qed.
End reports.

(** Translated events tell the same changes. *)
Lemma reports_map {E E'} (key_of : E -> string) (says : Z -> E -> Prop)
    (key_of' : E' -> string) (says' : Z -> E' -> Prop) (f : E -> E') p a b es :
  (forall e, key_of' (f e) = key_of e) ->
  (forall r e, changed r (key_of e) -> says r e -> says' r (f e)) ->
  reports key_of says p a b es -> reports key_of' says' p a b (f <$> es).
Proof.
  intros Hkey Hsays. induction 1 as [a|a b es1 es2 (Hnd & Hes & Hall) _ IH]; [constructor|].
  assert (Hkeys : key_of' <$> (f <$> es1) = key_of <$> es1).
  { rewrite <- list_fmap_compose. apply list_fmap_ext. intros ? e _. apply Hkey. }
  rewrite fmap_app. constructor; [|done]. unfold reports_at. rewrite Hkeys.
  split; [done|]. split; [|done]. apply Forall_fmap. eapply Forall_impl; [done|].
  cbn. intros e (? & ? & ?). rewrite Hkey. auto.
Qed.

(** ** The client calls *)

(** The event etcd reports for a change, in a watch with or without the previous version. *)
Definition etcd_says (prevKV : bool) (r : Z) (e : EtcdEvent) : Prop :=
  let k := kv_key (ev_kv e) in
  match at_rev r !! k with
  | Some kv => ev_type e = EvPut /\ ev_kv e = kv
  | None => ev_type e = EvDelete /\ kv_mod_revision (ev_kv e) = r
  end /\
  ev_prev e = if prevKV && retained r k then at_rev (r - 1) !! k else None.

Definition ev_key (e : EtcdEvent) : string := kv_key (ev_kv e).

(** The revision after the last one an event list is about. *)
Definition next_after (n : Z) (es : list EtcdEvent) : Z :=
  match last es with Some e => kv_mod_revision (ev_kv e) + 1 | None => n end.

(** A watch: its prefix, whether it asked for previous versions, and the first revision it
    has not reported yet. *)
Record open_watch := mkWatch { w_prefix : string; w_prevKV : bool; w_next : Z }.

(** What a client has seen and done: the latest revision it knows, its watch, the events it
    has sent on a channel, and whether something kept it from going on (an etcd call or a
    send failed, or there was no client). *)
Record feed := mkFeed {
  f_now : Z;
  f_watch : option open_watch;
  f_sent : list ChanMsg;
  f_failed : bool }.

Definition set_now (r : Z) (g : feed) : feed := mkFeed r (f_watch g) (f_sent g) (f_failed g).
Definition set_watch (w : open_watch) (g : feed) : feed :=
  mkFeed (f_now g) (Some w) (f_sent g) (f_failed g).
Definition add_sent (m : ChanMsg) (g : feed) : feed :=
  mkFeed (f_now g) (f_watch g) (f_sent g ++ [m]) (f_failed g).
Definition fail (g : feed) : feed := mkFeed (f_now g) (f_watch g) (f_sent g) true.

(** A read of a prefix is answered with what is stored under it at the revision of the
    answer, each key once, and never from the past.  A response of a watch is cancelled
    exactly if it has an error; the others deliver complete revisions.  A send without a
    [default] branch does not find the channel full. *)
Definition feed_answers (g : feed) (e : ext) : resp e -> Prop :=
  match e with
  | EtcdGetPrefix p => fun r =>
      match r with
      | Ok resp =>
          f_now g <= resp_revision resp /\
          resp_kvs resp ≡ₚ (map_to_list (part_for p (at_rev (resp_revision resp)))).*2
      | Err _ => True
      end
  | WatchNext _ => fun r =>
      match r, f_watch g with
      | Received wr, Some w =>
          wr_canceled wr = bool_decide (is_Some (wr_err wr)) /\
          (wr_err wr = None ->
           reports ev_key (etcd_says (w_prevKV w)) (w_prefix w) (w_next w)
             (next_after (w_next w) (wr_events wr)) (wr_events wr))
      | Received _, None => False
      | _, _ => True
      end
  | ChanSend _ _ => fun r => r <> SendFull
  | _ => fun _ => True
  end.

(** A watch without a revision starts at one of etcd's choice. *)
Variable start : Z.

Definition feed_update (e : ext) : resp e -> feed -> feed :=
  match e with
  | EtcdGetPrefix _ => fun r g =>
      match r with Ok resp => set_now (resp_revision resp) g | Err _ => fail g end
  | ClientGet => fun r g => match r with Some _ => g | None => fail g end
  | EtcdWatch p rev prevKV => fun _ g =>
      set_watch (mkWatch p prevKV (if rev =? 0 then start else rev)) g
  | WatchNext _ => fun r g =>
      match r, f_watch g with
      | Received wr, Some w =>
          set_watch (mkWatch (w_prefix w) (w_prevKV w) (next_after (w_next w) (wr_events wr))) g
      | _, _ => g
      end
  | ChanPush _ m => fun _ g => add_sent m g
  | ChanSend _ m => fun r g => match r with Sent => add_sent m g | _ => fail g end
  | _ => fun _ g => g
  end.

(** Programs that send nothing leave what was sent, and what went wrong. *)
Definition mute (e : ext) : Prop :=
  match e with ChanPush _ _ | ChanSend _ _ => False | _ => True end.

Lemma mute_tracks {A} (Q : A -> Prop) (p : prog A) g :
  behaves mute Q p ->
  tracks feed_answers feed_update (fun o g' => (forall a, o = Val a -> Q a) /\
    f_sent g' = f_sent g /\ (f_failed g = true -> f_failed g' = true)) p g.
Proof.
  intros Hp. assert (Hcall : forall e r g, mute e -> f_sent (feed_update e r g) = f_sent g /\
    (f_failed g = true -> f_failed (feed_update e r g) = true)).
  { intros e r g' He. destruct e; try done; cbn [feed_update]; repeat case_match; done. }
  revert g Hp; induction p as [a|e k IH|m md k IH|m md k IH|h]; intros g Hp;
    unfold tracks; fold (@tracks feed feed_answers feed_update A); cbn [behaves] in Hp; auto;
    [by split; [intros ? [= <-]|]| |by split].
  intros r _. destruct Hp as [He Hk]. destruct (Hcall e r g He) as [Hs Hf].
  eapply tracks_mono; [by apply IH|]. cbn. intros o g' (Ho & -> & Hf'). auto.
Qed.
End history.

(** ** A concrete history *)

(** A list of changes, of which number [i] (from 1) makes revision [i]. *)
Inductive change := Put (k v : string) | Del (k : string).

Module HistoryOf.
Section changes.
Variable h : list change.

Definition step (r : Z) (c : change) (m : gmap string KeyValue) : gmap string KeyValue :=
  match c with
  | Put k v =>
      <[k := mkKeyValue k v
              (match m !! k with Some kv => kv_create_revision kv | None => r end) r]> m
  | Del k => delete k m
  end.

Fixpoint stored_after (n : nat) : gmap string KeyValue :=
  match n with
  | O => ∅
  | S n =>
      match h !! n with
      | Some c => step (Z.of_nat (S n)) c (stored_after n)
      | None => stored_after n
      end
  end.

(** What is stored under a key after [n] changes is what the last of them wrote. *)
Definition written (n : nat) (k : string) (kv : KeyValue) : Prop :=
  kv_key kv = k /\ kv_create_revision kv <= kv_mod_revision kv /\
  exists j, kv_mod_revision kv = Z.of_nat (S j) /\ (j < n)%nat /\
    (forall i, (S j <= i <= n)%nat -> stored_after i !! k = Some kv) /\
    (kv_create_revision kv = kv_mod_revision kv <-> stored_after j !! k = None).

Lemma stored_written n k kv : stored_after n !! k = Some kv -> written n k kv.
Proof.
  revert kv; induction n as [|n IH]; intros kv Hk; [done|].
  assert (Hsame : stored_after n !! k = Some kv -> written (S n) k kv).
  { intros (H1 & H2 & j & Hj & Hlt & Hsince & Hc)%IH. split; [done|]. split; [done|].
    exists j. split; [done|]. split; [lia|]. split; [|done]. intros i Hi.
    destruct (decide (i = S n)) as [->|Hne]; [done|]. apply Hsince. lia. }
  cbn [stored_after] in Hk. destruct (h !! n) as [[k' v|k']|] eqn:Hn; [| |by apply Hsame].
  - cbn [step] in Hk. destruct (decide (k' = k)) as [->|Hne].
    + rewrite lookup_insert_eq in Hk. injection Hk as <-.
      assert (Hle : forall kv0, stored_after n !! k = Some kv0 ->
        kv_create_revision kv0 <= Z.of_nat n).
      { intros kv0 (_ & ? & j & ? & ? & _)%IH. lia. }
      split; [done|]. cbn [kv_create_revision kv_mod_revision]. split.
      { destruct (stored_after n !! k) as [kv0|] eqn:H0; [|lia]. specialize (Hle _ eq_refl). lia. }
      exists n. split; [done|]. split; [lia|]. split.
      * intros i Hi. replace i with (S n) by lia. cbn [stored_after]. rewrite Hn. cbn [step].
        by rewrite lookup_insert_eq.
      * destruct (stored_after n !! k) as [kv0|] eqn:H0; [|done].
        specialize (Hle _ eq_refl). split; [lia|done].
    + rewrite lookup_insert_ne in Hk by done. auto.
  - cbn [step] in Hk. apply lookup_delete_Some in Hk as [_ Hk]. auto.
Qed.

(** Every change's previous version is retained. *)
#[export] Program Instance history : EtcdHistory := {|
  at_rev := fun r => stored_after (Z.to_nat r);
  retained := fun _ _ => true |}.
Next Obligation. by intros r k kv (? & _)%stored_written. Qed.
Next Obligation.
  cbn. intros r k kv (_ & _ & j & Hj & Hlt & Hsince & _)%stored_written.
  split; [lia|]. intros r' Hr'. apply Hsince. lia.
Qed.
Next Obligation.
  cbn. intros r k kv (_ & _ & j & Hj & _ & _ & Hc)%stored_written. rewrite Hc.
  by replace (Z.to_nat (kv_mod_revision kv - 1)) with j by lia.
Qed.

(** *** Its watches *)

Variable prevKV : bool.

(** The events of change number [n + 1]. *)
Definition event (n : nat) : list EtcdEvent :=
  match h !! n with
  | Some (Put k v) =>
      option_list ((fun kv => mkEtcdEvent EvPut kv (if prevKV then stored_after n !! k else None))
                     <$> stored_after (S n) !! k)
  | Some (Del k) =>
      option_list ((fun kv => mkEtcdEvent EvDelete (mkKeyValue k "" 0 (Z.of_nat (S n)))
                                (if prevKV then Some kv else None)) <$> stored_after n !! k)
  | None => []
  end.

Definition events_under (p : string) (n : nat) : list EtcdEvent :=
  List.filter (fun e => HasPrefix (ev_key e) p) (event n).

Lemma changed_after n k :
  changed (Z.of_nat (S n)) k <-> stored_after (S n) !! k <> stored_after n !! k.
Proof.
  unfold changed. cbn [at_rev history].
  by replace (Z.to_nat (Z.of_nat (S n) - 1)) with n by lia;
    replace (Z.to_nat (Z.of_nat (S n))) with (S n) by lia.
Qed.

(** The single event of a change that is one. *)
Lemma one_event n e :
  event n = [e] -> changed (Z.of_nat (S n)) (ev_key e) -> etcd_says prevKV (Z.of_nat (S n)) e ->
  (forall k, k <> ev_key e -> stored_after (S n) !! k = stored_after n !! k) ->
  forall p, reports_at ev_key (etcd_says prevKV) p (Z.of_nat (S n)) (events_under p n).
Proof.
  intros He Hc Hs Hother p. unfold events_under. rewrite He. cbn [List.filter].
  destruct (HasPrefix (ev_key e) p) eqn:Hp.
  - split; [apply NoDup_singleton|]. split; [by apply Forall_singleton|].
    intros k _ Hk%changed_after. destruct (decide (k = ev_key e)) as [->|Hne]; [by left|].
    by apply Hother in Hne.
  - split; [apply NoDup_nil_2|]. split; [constructor|]. intros k Hpk Hk%changed_after.
    destruct (decide (k = ev_key e)) as [->|Hne]; [congruence|by apply Hother in Hne].
Qed.

Lemma events_reports_at p n :
  reports_at ev_key (etcd_says prevKV) p (Z.of_nat (S n)) (events_under p n).
Proof.
  assert (Hnone : event n = [] -> (forall k, stored_after (S n) !! k = stored_after n !! k) ->
    reports_at ev_key (etcd_says prevKV) p (Z.of_nat (S n)) (events_under p n)).
  { intros He Hsame. unfold events_under. rewrite He. split; [apply NoDup_nil_2|].
    split; [constructor|]. intros k _ Hk%changed_after. destruct Hk. apply Hsame. }
  assert (Hrev : forall e, etcd_says prevKV (Z.of_nat (S n)) e <->
    match stored_after (S n) !! ev_key e with
    | Some kv => ev_type e = EvPut /\ ev_kv e = kv
    | None => ev_type e = EvDelete /\ kv_mod_revision (ev_kv e) = Z.of_nat (S n)
    end /\ ev_prev e = if prevKV then stored_after n !! ev_key e else None).
  { intros e. unfold etcd_says, ev_key. cbn [at_rev retained history]. rewrite andb_true_r.
    by replace (Z.to_nat (Z.of_nat (S n) - 1)) with n by lia;
      replace (Z.to_nat (Z.of_nat (S n))) with (S n) by lia. }
  destruct (h !! n) as [[k v|k]|] eqn:Hn.
  - destruct (stored_after (S n) !! k) as [kv|] eqn:Hkv.
    2: { cbn [stored_after step] in Hkv. rewrite Hn in Hkv. cbn [step] in Hkv.
         by rewrite lookup_insert_eq in Hkv. }
    destruct (stored_written (S n) k kv Hkv) as (Hkey & _ & _).
    apply (one_event n (mkEtcdEvent EvPut kv (if prevKV then stored_after n !! k else None)));
      unfold ev_key; cbn [ev_kv]; rewrite ?Hkey.
    + unfold event. by rewrite Hn, Hkv.
    + apply changed_after. rewrite Hkv. intros Heq. symmetry in Heq.
      destruct (stored_written _ _ _ Heq) as (_ & _ & j & Hj & Hlt & _).
      cbn [stored_after] in Hkv. rewrite Hn in Hkv. cbn [step] in Hkv.
      rewrite lookup_insert_eq in Hkv. injection Hkv as <-. cbn in Hj. lia.
    + apply Hrev. unfold ev_key. cbn [ev_kv ev_type ev_prev]. rewrite Hkey, Hkv. done.
    + intros k' Hne. cbn [stored_after]. rewrite Hn. cbn [step]. by rewrite lookup_insert_ne.
  - destruct (stored_after n !! k) as [kv|] eqn:Hkv.
    + assert (Hgone : stored_after (S n) !! k = None).
      { cbn [stored_after]. rewrite Hn. apply lookup_delete_eq. }
      apply (one_event n (mkEtcdEvent EvDelete (mkKeyValue k "" 0 (Z.of_nat (S n)))
        (if prevKV then Some kv else None))); unfold ev_key; cbn [ev_kv kv_key].
      * unfold event. by rewrite Hn, Hkv.
      * apply changed_after. by rewrite Hgone, Hkv.
      * apply Hrev. unfold ev_key. cbn [ev_kv ev_type ev_prev kv_key]. by rewrite Hgone, Hkv.
      * intros k' Hne. cbn [stored_after]. rewrite Hn. cbn [step]. by rewrite lookup_delete_ne.
    + apply Hnone; [unfold event; by rewrite Hn, Hkv|]. intros k'. cbn [stored_after].
      rewrite Hn. cbn [step]. by rewrite delete_id.
  - apply Hnone; [unfold event; by rewrite Hn|]. intros k. cbn [stored_after]. by rewrite Hn.
Qed.

(** The events of the changes [a + 1], ..., [a + n]. *)
Definition events (p : string) (a n : nat) : list EtcdEvent :=
  concat (events_under p <$> seq a n).

Lemma events_reports p a n :
  reports ev_key (etcd_says prevKV) p (Z.of_nat (S a)) (Z.of_nat (S a) + Z.of_nat n) (events p a n).
Proof.
  revert a; induction n as [|n IH]; intros a; unfold events; cbn [seq fmap list_fmap concat].
  { rewrite Z.add_0_r. constructor. }
  constructor; [apply events_reports_at|].
  replace (Z.of_nat (S a) + 1) with (Z.of_nat (S (S a))) by lia.
  replace (Z.of_nat (S a) + Z.of_nat (S n)) with (Z.of_nat (S (S a)) + Z.of_nat n) by lia.
  apply IH.
Qed.
End changes.
End HistoryOf.
