(* ===== verification/StorageWatch.v ===== *)
(** * StorageWatch: watching through the storage (src/pkg/storage/etcd_storage.go)

    [Watch], the translation of etcd's watch responses into the storage's own events, and
    the goroutine that forwards them to the caller's channel.  For every history of etcd
    ([EtcdHistory]) the events on the channel tell exactly the changes since the watch
    started, in order ([watch_reports]). *)

From S2P Require Import Prelude Errors Effects Ledger EtcdHistory.

Module StorageWatch.

Definition EventType : Type := string.
Definition EventAdd : EventType := "ADD".
Definition EventUpdate : EventType := "UPDATE".
Definition EventDelete : EventType := "DELETE".

(** [OldValue] is nil when the event carries no previous version: [None]. *)
Record WatchEvent := mkWatchEvent {
  Type_ : EventType;
  Key : string;
  Value : string;
  OldValue : option string }.

Definition convertEventType (event : EtcdEvent) : EventType :=
  match ev_type event with
  | EvPut => match ev_prev event with None => EventAdd | Some _ => EventUpdate end
  | EvDelete => EventDelete
  | EvOther => ""
  end.

Definition convertToWatchEvent (event : EtcdEvent) : WatchEvent :=
  mkWatchEvent (convertEventType event) (kv_key (ev_kv event)) (kv_value (ev_kv event))
    (kv_value <$> ev_prev event).

(** A [WatchEvent] on a channel. *)
Definition to_msg (e : WatchEvent) : ChanMsg :=
  mkChanMsg (Type_ e) (Key e) (Value e) (OldValue e) "".

Section ops.
Variable watchChan : nat.

(** The loop over the events of a response; it ends early when the context does. *)
Fixpoint process_events (events : list EtcdEvent) : prog unit :=
  match events with
  | [] => mret ()
  | event :: events =>
      let watchEvent := convertToWatchEvent event in
      r ← call (ChanSend watchChan (to_msg watchEvent));
      match r with
      | SendDone _ => mret ()
      | _ => process_events events
      end
  end.

Definition processWatchResponse (resp : WatchResponse) : prog unit :=
  process_events (wr_events resp).

(** [handleWatchEvents] closes the channel on every way out; [fuel] bounds the number of
    responses. *)
Fixpoint handle_loop (fuel : nat) : prog unit :=
  match fuel with
  | O => Halt NoFuel
  | S fuel =>
      got ← call (WatchNext true);
      match got with
      | RecvDone _ | Closed => mret ()
      | Received resp =>
          if wr_canceled resp then mret ()
          else _ ← processWatchResponse resp; handle_loop fuel
      end
  end.

Definition handleWatchEvents (fuel : nat) : prog unit :=
  deferred (call (ChanClose watchChan)) (handle_loop fuel).
End ops.

(** [Watch]: the channel is made and returned, the watch asks for previous versions, and
    [handleWatchEvents] is left running.  It never returns an error. *)
Definition Watch (prefix : string) : prog (result nat) :=
  watchChan ← call (ChanMake 0);
  _ ← call (EtcdWatch prefix 0 true);
  _ ← call (Go (GoStorageWatch watchChan));
  mret (Ok watchChan).

(** ** A reader of the channel *)

(** The map a reader keeps by applying the events in order. *)
Definition apply_event (m : gmap string string) (e : WatchEvent) : gmap string string :=
  if bool_decide (Type_ e = EventDelete) then delete (Key e) m
  else <[Key e := Value e]> m.

Definition replay (m : gmap string string) (es : list WatchEvent) : gmap string string :=
  foldl apply_event m es.


(** ** What the events say *)

Section history.
Context `{EtcdHistory}.

(** The value a key had before a change, if etcd still has it. *)
Definition known_before (r : Z) (k : string) : option string :=
  if retained r k then value_at (r - 1) k else None.

(** An event says the whole truth about the change of its key at a revision: the key was
    deleted, or it has a value, and then it was updated if its previous value is known and
    added if not; the previous value comes with it. *)
Definition says (r : Z) (e : WatchEvent) : Prop :=
  match value_at r (Key e) with
  | None => Type_ e = EventDelete
  | Some v =>
      Value e = v /\
      Type_ e = match known_before r (Key e) with Some _ => EventUpdate | None => EventAdd end
  end /\
  OldValue e = known_before r (Key e).

Lemma convert_says r e : etcd_says true r e -> says r (convertToWatchEvent e).
Proof.
  unfold etcd_says, says, known_before, value_at, convertToWatchEvent, convertEventType.
  cbn [Type_ Key Value OldValue andb]. intros [Hkv Hprev]. rewrite Hprev.
  destruct (retained r (kv_key (ev_kv e))).
  2: { destruct (at_rev r !! kv_key (ev_kv e)) as [kv|].
       - destruct Hkv as [-> ->]. done.
       - destruct Hkv as [-> _]. done. }
  destruct (at_rev r !! kv_key (ev_kv e)) as [kv|].
  - destruct Hkv as [-> ->]. by destruct (at_rev (r - 1) !! kv_key kv).
  - destruct Hkv as [-> _]. done.
Qed.

Lemma apply_says r e m :
  says r e ->
  apply_event m e = match value_at r (Key e) with
                    | Some v => <[Key e := v]> m
                    | None => delete (Key e) m
                    end.
Proof.
  unfold says, apply_event. intros [He _]. destruct (value_at r (Key e)) as [v|].
  - destruct He as [-> ->]. by destruct (known_before r (Key e)).
  - by rewrite He.
Qed.

(** A reader that starts with the values before the watch ends with those after it. *)
Lemma replay_reports p a b es m k :
  reports Key says p a b es -> HasPrefix k p = true -> m !! k = value_at (a - 1) k ->
  replay m es !! k = value_at (b - 1) k.
Proof.
  intros Hr Hp Hm. pose proof (reports_le _ _ _ _ _ _ Hr) as Hle.
  destruct (follow_reports Key says apply_event apply_says p a b es m k Hr)
    as [(_ & _ & Hv)|[Hno Hv]]; [done|].
  unfold replay. rewrite Hv, Hm. unfold value_at.
  rewrite (unchanged_until (a - 1) (b - 1)); [done|lia|]. intros r Hrr. apply Hno; [done|lia].
Qed.

(** ** What is sent *)

Variable start : Z.

#[local] Abbreviation feeds := (tracks feed_answers (feed_update start)).

(** The events of one response are sent in order; some may be left out once a send was
    given up because the context is done. *)
Lemma process_events_tracks ch events g :
  feeds (fun o g' => o = Val () /\ f_watch g' = f_watch g /\
      exists ws, f_sent g' = f_sent g ++ (to_msg <$> ws) /\
        ws `sublist_of` (convertToWatchEvent <$> events) /\
        (f_failed g' = false -> f_failed g = false /\ ws = convertToWatchEvent <$> events))
    (process_events ch events) g.
Proof.
  revert g; induction events as [|event events IH]; intros g; cbn [process_events].
  { track. split; [done|]. split; [done|]. exists []. by rewrite app_nil_r. }
  cbv zeta. track. track. intros [|err|] Hr; cbn [continue feed_update]; [| |done].
  - eapply tracks_mono; [apply IH|]. intros o g' (-> & Hw & ws & Hs & Hsub & Hf).
    split; [done|]. split; [done|]. exists (convertToWatchEvent event :: ws).
    rewrite Hs. cbn [add_sent f_sent f_failed] in *. rewrite <- app_assoc.
    split; [done|]. split; [by constructor|]. intros [? ->]%Hf. done.
  - track. split; [done|]. split; [done|]. exists []. rewrite app_nil_r.
    split; [done|]. split; [apply sublist_nil_l|done].
Qed.

(** What the channel has carried: the changes of the revisions from [start] on, all of them
    and in order unless the context was found done. *)
Definition reported (p : string) (g : feed) (n : Z) (es : list WatchEvent) : Prop :=
  reports Key says p start n es /\ f_sent g `sublist_of` (to_msg <$> es) /\
  (f_failed g = false -> f_sent g = to_msg <$> es).

Lemma handle_loop_tracks p ch fuel g n es :
  f_watch g = Some (mkWatch p true n) -> reported p g n es ->
  feeds (fun o g' => exists n es, reported p g' n es) (handle_loop ch fuel) g.
Proof.
  revert g n es; induction fuel as [|fuel IH]; intros g n es Hw Hrep; cbn [handle_loop].
  { track. eauto. }
  track. track. intros [wr| |err] Hr; cbn [continue feed_update feed_answers] in *;
    [|track; eauto..].
  rewrite Hw in *. cbn [w_prefix w_prevKV w_next] in *. destruct Hr as [Hcan Hevs].
  destruct Hrep as (Hrep & Hsub & Hall).
  destruct (wr_canceled wr) eqn:Hc; [track; by exists n, es|].
  assert (Hnone : wr_err wr = None).
  { destruct (wr_err wr); [|done]. by rewrite bool_decide_eq_true_2 in Hcan by by eexists. }
  track. eapply tracks_mono; [apply process_events_tracks|].
  intros o g' (-> & Hw' & ws & Hs & Hws & Hf). cbn [continue].
  apply (IH g' _ (es ++ (convertToWatchEvent <$> wr_events wr)) Hw'). cbn [set_watch f_sent f_failed f_watch] in *. split; [|split].
  - eapply reports_app; [exact Hrep|].
    apply (reports_map ev_key (etcd_says true) Key says convertToWatchEvent);
      [by intros []|intros r e _; apply convert_says|by apply Hevs].
  - rewrite Hs, fmap_app. apply sublist_app; [done|]. by apply fmap_sublist.
  - intros Hff. destruct (Hf Hff) as [Hff0 ->]. by rewrite Hs, fmap_app, Hall.
Qed.
End history.

(** The messages of the forwarding goroutine: conversions of the events received. *)
Lemma process_events_behaves ch events :
  behaves (fun e => exists ev, ev ∈ events /\ e = ChanSend ch (to_msg (convertToWatchEvent ev)))
    (fun _ => True) (process_events ch events).
Proof.
  induction events as [|ev events IH]; cbn [process_events]; [done|].
  eapply (behaves_bind _ (fun _ => True)).
  - apply behaves_call. exists ev. split; [by left|done].
  - intros r _.
    assert (Hrest : behaves (fun e => exists ev', ev' ∈ ev :: events /\
      e = ChanSend ch (to_msg (convertToWatchEvent ev'))) (fun _ => True)
      (process_events ch events)).
    { eapply behaves_mono; [exact IH| |done]. intros e (ev' & Hin & ->).
      exists ev'. split; [by right|done]. }
    by destruct r.
Qed.

(** ** Properties *)

(** C33: the watch of the storage is faithful.  For every history of etcd and whatever
    revision the watch starts at, what [Watch] and the goroutine it leaves running put on
    the caller's channel are the changes of the keys under the prefix from that revision
    on: every changed key of every revision exactly once, revision by revision, a deletion
    exactly if the key is gone, an update with the previous value exactly if the key had one
    that etcd still knows (the watch asks for it), an addition otherwise.  Events are left
    out only after a send was given up because the context is done.  A reader that starts
    with the values before the watch and applies the events has the values at the end. *)
Theorem watch_reports `{EtcdHistory} (p : string) (fuel : nat) (start : Z) :
  tracks feed_answers (feed_update start) (fun _ g =>
      exists n es, reported start p g n es /\
        forall m, (forall k, HasPrefix k p = true -> m !! k = value_at (start - 1) k) ->
          forall k, HasPrefix k p = true -> replay m es !! k = value_at (n - 1) k)
    (started ← Watch p;
     match started with Ok ch => handleWatchEvents ch fuel | Err _ => mret () end)
    (mkFeed 0 None [] false).
Proof.
  unfold Watch. track. track. track. intros ch _. cbn [continue]. track. track. intros [] _.
  cbn [continue]. track. track. intros [] _. cbn [continue]. track. cbn [continue].
  unfold handleWatchEvents. track.
  eapply tracks_mono; [apply (handle_loop_tracks start p ch fuel _ start []); [done|]|].
  { split; [constructor|]. split; [apply sublist_nil_l|done]. }
  intros o g (n & es & Hrep).
  assert (Hq : exists n es, reported start p g n es /\
    forall m, (forall k, HasPrefix k p = true -> m !! k = value_at (start - 1) k) ->
      forall k, HasPrefix k p = true -> replay m es !! k = value_at (n - 1) k).
  { exists n, es. split; [done|]. intros m Hm k Hk. eapply replay_reports; [apply Hrep|done|auto]. }
  destruct o as [[]|[]]; cbn [after_body]; try exact Hq; (track; track; intros [] _; cbn [continue];
    track; exact Hq).
Qed.

(** Nothing else is sent.  Whatever etcd delivers and whatever the reader does, the
    forwarding goroutine receives responses, sends translations of their events to its
    channel, and closes that channel as its last call. *)
Theorem handleWatchEvents_behaves (ch fuel : nat) :
  behaves (fun e =>
    match e with
    | WatchNext true => True
    | ChanSend ch' m => ch' = ch /\ exists ev, m = to_msg (convertToWatchEvent ev)
    | ChanClose ch' => ch' = ch
    | _ => False
    end) (fun _ => True) (handleWatchEvents ch fuel).
Proof.
  unfold handleWatchEvents. apply behaves_deferred; [by apply behaves_call|].
  induction fuel as [|fuel IH]; cbn [handle_loop]; [done|].
  eapply (behaves_bind _ (fun _ => True)); [by apply behaves_call|].
  intros [resp| |err] _; [|done|done]. destruct (wr_canceled resp); [done|].
  eapply (behaves_bind _ (fun _ => True)); [|by intros].
  eapply behaves_mono; [apply process_events_behaves| |done].
  intros e (ev & _ & ->). split; [done|by exists ev].
Qed.

(** ** The property at a concrete history *)

Module Witness.
Definition h : list change := [Put "/a" "1"; Put "/a" "2"; Put "x" "9"; Del "/a"].
#[export] Instance history : EtcdHistory := HistoryOf.history h.

(** All four revisions in one response. *)
Definition response : WatchResponse := mkWatchResponse (HistoryOf.events h true "/" 0 4) false None.

Definition told : list WatchEvent :=
  [mkWatchEvent EventAdd "/a" "1" None; mkWatchEvent EventUpdate "/a" "2" (Some "1");
   mkWatchEvent EventDelete "/a" "" (Some "2")].

Definition seen : feed :=
  mkFeed 0 (Some (mkWatch "/" true 5)) (to_msg <$> told) false.
End Witness.
#[local] Existing Instance Witness.history.

(** The three changes under the prefix are sent, then the watch is closed. *)
Lemma watch_reports_witness :
  exists n es, reported 1 "/" Witness.seen n es /\
    forall m, (forall k, HasPrefix k "/" = true -> m !! k = value_at (1 - 1) k) ->
      forall k, HasPrefix k "/" = true -> replay m es !! k = value_at (n - 1) k.
Proof.
  exact (watch_reports "/" 2 1 7%nat I () I () I (Received Witness.response)
    (conj eq_refl (fun _ => HistoryOf.events_reports Witness.h true "/" 0 4))
    Sent ltac:(discriminate) Sent ltac:(discriminate) Sent ltac:(discriminate)
    Closed I () I).
Defined.
End StorageWatch.
