(* ===== verification/Metrics.v ===== *)
(** * Metrics: the Prometheus metrics of the list-watch (src/pkg/listwatch/metrics.go)

    The descriptions of the metrics, and [newMetrics], which creates and registers them the
    first time it is called ([sync.Once]) and returns the same ones afterwards.  The
    Prometheus registry is outside: registering is an external call that fails for a name
    that is taken, and [MustRegister] panics when it does. *)

From S2P Require Import Prelude Errors Effects Ledger.

Module Metrics.

(** ** The metrics *)

Inductive metric_kind := Counter | Gauge | Histogram (buckets : list (Z * Z)).

(** [prometheus.DefBuckets], as fractions: 0.005, 0.01, ..., 10 seconds. *)
Definition DefBuckets : list (Z * Z) :=
  [(5, 1000); (1, 100); (25, 1000); (5, 100); (1, 10); (25, 100); (5, 10); (1, 1); (25, 10);
   (5, 1); (10, 1)].

(** The options of a metric with the names of its variable labels. *)
Record metric := mkMetric {
  m_kind : metric_kind;
  m_name : string;
  m_help : string;
  m_constLabels : list (string * string);
  m_labels : list string }.

Record metrics := mkMetrics {
  watchFailures : metric;
  listLatency : metric;
  watchLatency : metric;
  eventProcessed : metric;
  retryCount : metric;
  eventsByType : metric;
  connectionState : metric;
  watchSessionDuration : metric;
  errorsByType : metric }.

Definition component : list (string * string) := [("component", "listwatch")].

Definition created : metrics := {|
  watchFailures := mkMetric Counter "listwatch_watch_failures_total"
    "Total number of watch operation failures" component [];
  listLatency := mkMetric (Histogram DefBuckets) "listwatch_list_duration_seconds"
    "Duration of list operations in seconds" component [];
  watchLatency := mkMetric (Histogram DefBuckets) "listwatch_watch_event_duration_seconds"
    "Duration of watch event processing in seconds" component [];
  eventProcessed := mkMetric Counter "listwatch_events_processed_total"
    "Total number of events processed" component [];
  retryCount := mkMetric Counter "listwatch_retry_attempts_total"
    "Total number of retry attempts" component [];
  eventsByType := mkMetric Counter "listwatch_events_by_type_total"
    "Total number of events by type (add/modify/delete)" component ["event_type"];
  connectionState := mkMetric Gauge "listwatch_connection_state"
    "Current connection state (1=connected, 0=disconnected)" component [];
  watchSessionDuration := mkMetric (Histogram DefBuckets)
    "listwatch_watch_session_duration_seconds" "Duration of watch sessions in seconds" component [];
  errorsByType := mkMetric Counter "listwatch_errors_by_type_total"
    "Total number of errors by type" component ["error_type"] |}.

(** The arguments of [MustRegister]. *)
Definition registered (m : metrics) : list metric :=
  [watchFailures m; listLatency m; watchLatency m; eventProcessed m; retryCount m;
   eventsByType m; connectionState m; watchSessionDuration m; errorsByType m].

(** ** Registration *)

Fixpoint MustRegister (cs : list metric) : prog unit :=
  match cs with
  | [] => mret ()
  | c :: cs =>
      err ← call (MetricRegister (m_name c));
      match err with
      | Err err => Halt (Panic (Error err))
      | Ok _ => MustRegister cs
      end
  end.

(** The package variables [defaultMetrics] and [metricsOnce]: [None] before the first call.
    The new value of the variables is returned with the metrics. *)
Definition newMetrics (defaultMetrics : option metrics) : prog (metrics * option metrics) :=
  match defaultMetrics with
  | Some m => mret (m, defaultMetrics)
  | None =>
      let m := created in
      _ ← MustRegister (registered m);
      mret (m, Some m)
  end.

(** [n] calls in a row. *)
Fixpoint newMetrics_times (n : nat) (s : option metrics) : prog (list metrics * option metrics) :=
  match n with
  | O => mret ([], s)
  | S n =>
      out ← newMetrics s;
      let '(m, s) := (out : metrics * option metrics) in
      rest ← newMetrics_times n s;
      mret (m :: rest.1, rest.2)
  end.

(** ** The registry *)

(** A registry of Prometheus: the names registered so far.  It accepts exactly the names it
    does not hold. *)
Definition answers (g : list string) (e : ext) : resp e -> Prop :=
  match e with
  | MetricRegister name => fun r => match r with Ok _ => name ∉ g | Err _ => name ∈ g end
  | _ => fun _ => True
  end.

Definition update (e : ext) : resp e -> list string -> list string :=
  match e with
  | MetricRegister name => fun r g => match r with Ok _ => g ++ [name] | Err _ => g end
  | _ => fun _ g => g
  end.

#[local] Abbreviation registers := (tracks answers update).

Definition metric_names : list string := m_name <$> registered created.

Lemma metric_names_distinct : NoDup metric_names.
Proof. apply (bool_decide_eq_true_1 _). vm_compute. reflexivity. Qed.

Lemma MustRegister_tracks cs g :
  NoDup (m_name <$> cs) -> (forall n, n ∈ (m_name <$> cs) -> n ∉ g) ->
  registers (fun o g' => o = Val () /\ g' = g ++ (m_name <$> cs)) (MustRegister cs) g.
Proof.
  revert g; induction cs as [|c cs IH]; intros g Hnd Hg; cbn [MustRegister].
  { track. by rewrite fmap_nil, app_nil_r. }
  rewrite fmap_cons in *. apply NoDup_cons in Hnd as [Hc Hnd].
  track. track. intros [[]|err] Ha; cbn [answers update continue] in *.
  2: { by destruct (Hg (m_name c) ltac:(left)). }
  eapply tracks_mono; [apply IH; [done|]|].
  - intros n Hn [Hin|Hin]%elem_of_app; [by apply (Hg n); [right|]|].
    apply list_elem_of_singleton in Hin as ->. done.
  - intros o g' [-> ->]. by rewrite <- app_assoc.
Qed.

(** ** Properties *)

(** The metrics are registered once.  In a process whose registry holds none of their
    names, any number of list-watches get the same nine metrics, the names are registered
    by the first one and never again, and no registration panics. *)
Theorem newMetrics_registers_once (n : nat) (g : list string) :
  (forall name, name ∈ metric_names -> name ∉ g) ->
  tracks answers update (fun o g' =>
      o = Val (replicate (S n) created, Some created) /\ g' = g ++ metric_names)
    (newMetrics_times (S n) None) g.
Proof.
  intros Hg. cbn [newMetrics_times]. track. unfold newMetrics. track.
  eapply tracks_mono; [apply MustRegister_tracks; [apply metric_names_distinct|exact Hg]|].
  intros o g' [-> ->]. cbn [continue]. track. cbn [continue]. track.
  assert (Hlater : forall g', registers (fun o g'' =>
    o = Val (replicate n created, Some created) /\ g'' = g') (newMetrics_times n (Some created)) g').
  { clear. induction n as [|n IH]; intros g'; cbn [newMetrics_times]; [by track|].
    track. cbn [newMetrics]. track. cbn [continue]. track. eapply tracks_mono; [apply IH|].
    intros o g2 [-> ->]. cbn [continue]. by track. }
  eapply tracks_mono; [apply Hlater|]. intros o g' [-> ->]. cbn [continue]. by track.
Qed.

Lemma newMetrics_registers_once_witness :
  tracks answers update (fun o g' =>
      o = Val ([created; created; created], Some created) /\
      g' = ["go_goroutines"] ++ metric_names)
    (newMetrics_times 3 None) ["go_goroutines"].
Proof.
  apply (newMetrics_registers_once 2 ["go_goroutines"]).
  intros name Hn Hg. apply list_elem_of_singleton in Hg as ->. revert Hn.
  apply (bool_decide_eq_true_1 _). vm_compute. reflexivity.
Defined.
End Metrics.
