(* ===== verification/ListWatch.v ===== *)
(** * ListWatch: listing and watching a prefix (src/pkg/listwatch/listwatch.go)

    The list-watch as programs over channels: a [select] is an external call whose answer
    says which branch was taken.  The field [lw.etcdCli], the channels and the contexts live
    in the world; a [go] statement is a call that names the goroutine, and the goroutines are
    programs of their own: [watch_goroutine] feeds the channel of [Watch],
    [monitor_goroutine] reports a lost connection, [runListWatchLoop] serves the channel that
    [ListAndWatch] returns.  How they run together is in ListWatchRuntime. *)

From S2P Require Import Prelude Errors Effects Reference Retry Ledger Metrics EtcdHistory StorageWatch.

Module ListWatch.

Definition defaultErrorRetryAttempts : Z := 3.
Definition Millisecond : Z := 1000000.
Definition defaultErrorRetryDelay : Z := 10 * Millisecond.

Definition EventType : Type := string.
Definition Added : EventType := "ADDED".
Definition Modified : EventType := "MODIFIED".
Definition Deleted : EventType := "DELETED".
Definition Error : EventType := "ERROR".

Record Event := mkEvent {
  Type_ : EventType;
  Key : string;
  Value : string;
  Prefix : string }.

(** [None] is nil. *)
Definition validate (e : Event) : option error :=
  if bool_decide (Type_ e = "") then Some (ErrText "event type cannot be empty")
  else if bool_decide (Key e = "") && bool_decide (Type_ e <> Error)
  then Some (ErrText "event key cannot be empty for non-error events")
  else if bool_decide (Prefix e = "") then Some (ErrText "event prefix cannot be empty")
  else None.

Record Options := mkOptions {
  DialTimeout : Z;
  RetryOpts : Retry.Options;
  EventChannelBuffer : Z }.

Definition DefaultOptions : Options :=
  mkOptions (5 * Retry.Second) Retry.DefaultOptions 100.

(** Without the field [etcdCli], which lives in the world.  [logger] says whether the
    interface [Logger] holds a logger. *)
Record ListWatch := mkListWatch {
  endpoints : list string;
  watchPrefix : string;
  opts : Options;
  metrics : Metrics.metrics;
  logger : bool }.

(** An [Event] on a channel, and back. *)
Definition to_msg (e : Event) : ChanMsg := mkChanMsg (Type_ e) (Key e) (Value e) None (Prefix e).
Definition of_msg (m : ChanMsg) : Event :=
  mkEvent (msg_type m) (msg_key m) (msg_value m) (msg_prefix m).

(** [Event{Type: Error, Value: []byte(msg)}]. *)
Definition error_event (errMsg : string) : Event := mkEvent Error "" errMsg "".

(** [context.Canceled]. *)
Definition Canceled : sentinel := Sentinel "context.Canceled" "context canceled".

(** ** Logging and metrics *)

Definition nil_dereference {A} : prog A :=
  Halt (Panic "invalid memory address or nil pointer dereference").

(** [lw.logger.Error(msg, ...)] and [lw.logger.Info(msg)]: a method of a nil interface
    panics. *)
Definition log_error (lw : ListWatch) (msg : string) : prog unit :=
  if logger lw then call (Log "error" msg) else nil_dereference.
Definition log_info (lw : ListWatch) (msg : string) : prog unit :=
  if logger lw then call (Log "info" msg) else nil_dereference.

Definition inc (m : Metrics.metric) (labels : list string) : prog unit :=
  call (Metric (MetricInc (Metrics.m_name m) labels)).
Definition set_gauge (m : Metrics.metric) (v : Z) : prog unit :=
  call (Metric (MetricSet (Metrics.m_name m) v)).
Definition observe (m : Metrics.metric) : prog unit :=
  call (Metric (MetricObserve (Metrics.m_name m))).

(** ** The etcd client *)

Definition closeEtcdClient : prog unit :=
  etcdCli ← call ClientGet;
  match etcdCli with
  | None => mret ()
  | Some cli => _ ← call (EtcdClose cli); call (ClientSet None)
  end.

(** A call through a nil client panics. *)
Definition with_client {A} (body : prog A) : prog A :=
  etcdCli ← call ClientGet;
  match etcdCli with
  | None => nil_dereference
  | Some _ => body
  end.

(** [defaultMetrics] is the state of the package's metrics. *)
Definition NewListWatch (defaultMetrics : option Metrics.metrics) (eps : list string)
    (prefix : string) (o : Options) (log : bool)
  : prog (result ListWatch * option Metrics.metrics) :=
  if bool_decide (prefix = "") then mret (Err (ErrText "prefix cannot be empty"), defaultMetrics)
  else
    cli ← call (EtcdConnect eps (DialTimeout o));
    match cli with
    | Err err =>
        mret (Err (ErrText ("failed to create etcd client: " +:+ Errors.Error err)), defaultMetrics)
    | Ok cli =>
        ms ← Metrics.newMetrics defaultMetrics;
        _ ← call (ClientSet (Some cli));
        mret (Ok (mkListWatch eps prefix o ms.1 log), ms.2)
    end.

Section methods.
Variable lw : ListWatch.

(** ** Sending *)

Section sending.
Variable ch : nat.

(** One attempt of [tryToSendErrorEvent]. *)
Definition try_send (e : Event) : prog (result unit) :=
  r ← call (ChanTrySend ch (to_msg e));
  match r with
  | Sent => mret (Ok ())
  | SendDone err => mret (Err err)
  | SendFull => mret (Err (ErrText "channel full"))
  end.

Definition tryToSendErrorEvent (errMsg : string) : prog bool :=
  err ← Retry.WithRetries (try_send (error_event errMsg)) defaultErrorRetryAttempts
          defaultErrorRetryDelay;
  mret (is_Ok err).

Definition sendEvent (event : Event) : prog (result unit) :=
  match validate event with
  | Some err =>
      _ ← log_error lw "Invalid event";
      mret (Err (ErrText ("invalid event: " +:+ Errors.Error err)))
  | None =>
      r ← call (ChanSend ch (to_msg event));
      match r with
      | SendDone err => mret (Err err)
      | _ => _ ← inc (Metrics.eventProcessed (metrics lw)) []; mret (Ok ())
      end
  end.

Definition ensureConnected : prog (result unit) :=
  etcdCli ← call ClientGet;
  match etcdCli with
  | Some _ => mret (Ok ())
  | None =>
      cli ← call (EtcdConnect (endpoints lw) (DialTimeout (opts lw)));
      match cli with
      | Err err =>
          _ ← log_error lw "Failed to create etcd client";
          _ ← set_gauge (Metrics.connectionState (metrics lw)) 0;
          _ ← inc (Metrics.errorsByType (metrics lw)) ["connection_failed"];
          _ ← tryToSendErrorEvent ("failed to create etcd client: " +:+ Errors.Error err);
          mret (Err err)
      | Ok cli =>
          _ ← call (ClientSet (Some cli));
          _ ← set_gauge (Metrics.connectionState (metrics lw)) 1;
          mret (Ok ())
      end
  end.
End sending.

(** ** Listing *)

(** The event of a listed key. *)
Definition list_event (prefix : string) (kv : KeyValue) : Event :=
  mkEvent (if bool_decide (kv_create_revision kv <> kv_mod_revision kv) then Modified else Added)
    (kv_key kv) (kv_value kv) prefix.

Definition List : prog (result (list Event)) :=
  with_client (
    r ← call (EtcdGetPrefix (watchPrefix lw));
    match r with
    | Err err => mret (Err (ErrText ("failed to list keys: " +:+ Errors.Error err)))
    | Ok resp => mret (Ok (list_event (watchPrefix lw) <$> resp_kvs resp))
    end).

(** The loop that sends the listed events. *)
Fixpoint send_all (ch : nat) (events : list Event) : prog (result unit) :=
  match events with
  | [] => mret (Ok ())
  | event :: events =>
      err ← sendEvent ch event;
      match err with
      | Err e => mret (Err e)
      | Ok _ => send_all ch events
      end
  end.

Definition listAndSendExisting (ch : nat) : prog (result unit) :=
  existing ← List;
  _ ← observe (Metrics.listLatency (metrics lw));
  match existing with
  | Err err =>
      _ ← log_error lw "Failed to list items";
      _ ← tryToSendErrorEvent ch ("failed to list items: " +:+ Errors.Error err);
      _ ← closeEtcdClient;
      _ ← inc (Metrics.retryCount (metrics lw)) [];
      mret (Err err)
  | Ok existing => send_all ch existing
  end.

(** ** Watching *)

(** The event of a change reported by etcd; other event types give the empty type. *)
Definition watch_event (prefix : string) (event : EtcdEvent) : Event :=
  let eventType :=
    match ev_type event with
    | EvPut =>
        if bool_decide (kv_create_revision (ev_kv event) = kv_mod_revision (ev_kv event))
        then Added else Modified
    | EvDelete => Deleted
    | EvOther => ""
    end in
  mkEvent eventType (kv_key (ev_kv event)) (kv_value (ev_kv event)) prefix.

Fixpoint push_all (ch : nat) (events : list EtcdEvent) : prog unit :=
  match events with
  | [] => mret ()
  | event :: events =>
      let event := watch_event (watchPrefix lw) event in
      _ ← call (ChanPush ch (to_msg event));
      _ ← inc (Metrics.eventsByType (metrics lw)) [Type_ event];
      push_all ch events
  end.

(** The goroutine of [Watch]: forwards the responses until the watch ends or fails, then
    closes its channel; [fuel] bounds the number of responses. *)
Fixpoint watch_loop (fuel : nat) (ch : nat) : prog unit :=
  match fuel with
  | O => Halt NoFuel
  | S fuel =>
      got ← call (WatchNext false);
      match got with
      | Closed | RecvDone _ => mret ()
      | Received watchResp =>
          match wr_err watchResp with
          | Some err =>
              _ ← inc (Metrics.errorsByType (metrics lw)) ["watch_error"];
              call (ChanPush ch (to_msg (error_event (Errors.Error err))))
          | None => _ ← push_all ch (wr_events watchResp); watch_loop fuel ch
          end
      end
  end.

Definition watch_goroutine (fuel : nat) (ch : nat) : prog unit :=
  deferred (call (ChanClose ch)) (watch_loop fuel ch).

(** [Watch]: the revision is read by a [Get] of its own; the watch starts after it.  The
    channel is returned; the cancel function is [watchCancel]. *)
Definition Watch : prog (result nat) :=
  deferred (observe (Metrics.watchSessionDuration (metrics lw))) (
    with_client (
      r ← call (EtcdGetPrefix (watchPrefix lw));
      match r with
      | Err err =>
          _ ← inc (Metrics.errorsByType (metrics lw)) ["get_revision_failed"];
          mret (Err (ErrText ("failed to get current revision: " +:+ Errors.Error err)))
      | Ok resp =>
          ch ← call (ChanMake 100);
          _ ← call (EtcdWatch (watchPrefix lw) (resp_revision resp + 1) false);
          _ ← call (Go (GoWatch ch));
          mret (Ok ch)
      end)).

(** The cancel function [Watch] returns: it closes the client but keeps the field. *)
Definition watchCancel : prog unit :=
  etcdCli ← call ClientGet;
  match etcdCli with
  | None => mret ()
  | Some cli => _ ← call (EtcdClose cli); mret ()
  end.

Fixpoint close_attempts (n : nat) (ch : nat) : prog (result unit) :=
  match n with
  | O =>
      _ ← closeEtcdClient; mret (Err (ErrText "watch channel closed"))
  | S n =>
      r ← call (ChanTrySend ch (to_msg (error_event "watch channel closed unexpectedly")));
      match r with
      | Sent => _ ← closeEtcdClient; mret (Err (ErrText "watch channel closed"))
      | SendDone err => mret (Err err)
      | SendFull => _ ← call (Sleep (10 * Millisecond)); close_attempts n ch
      end
  end.

Definition handleWatchChannelClose (ch : nat) : prog (result unit) :=
  _ ← log_error lw "Watch channel closed unexpectedly";
  close_attempts 3 ch.

(** The goroutine that waits for the end of the watch context. *)
Definition monitor_goroutine (watchCtx ch : nat) : prog unit :=
  _ ← call (CtxWait watchCtx);
  err ← call CtxErr;
  match err with
  | None => _ ← tryToSendErrorEvent ch "etcd connection lost"; mret ()
  | Some _ => mret ()
  end.

(** The loop of [watchAndForwardEvents] on the channel [watchCh] of [Watch]; [fuel] bounds
    the events that are received, and is met only when one more arrives. *)
Fixpoint forward_loop (fuel : nat) (watchCtx watchCh ch : nat) : prog (result unit) :=
  got ← call (ChanRecv watchCh);
  match got with
  | RecvDone _ =>
      _ ← tryToSendErrorEvent ch "watch stopped: context cancelled";
      err ← call CtxErr;
      mret (match err with Some e => Err e | None => Ok () end)
  | Closed => _ ← call (CtxCancel watchCtx); handleWatchChannelClose ch
  | Received m =>
      match fuel with
      | O => Halt NoFuel
      | S fuel =>
          err ← sendEvent ch (of_msg m);
          match err with
          | Err e => mret (Err e)
          | Ok _ => forward_loop fuel watchCtx watchCh ch
          end
      end
  end.

Definition watchAndForwardEvents (fuel : nat) (ch : nat) : prog (result unit) :=
  started ← Watch;
  match started with
  | Err err =>
      _ ← log_error lw "Failed to start watch";
      _ ← tryToSendErrorEvent ch ("failed to start watch: " +:+ Errors.Error err);
      _ ← closeEtcdClient;
      mret (Err err)
  | Ok watchCh =>
      deferred watchCancel (
        watchCtx ← call CtxWithCancel;
        deferred (call (CtxCancel watchCtx)) (
          _ ← call (Go (GoMonitor watchCtx ch));
          forward_loop fuel watchCtx watchCh ch))
  end.

(** ** The loop *)

(** The operation [runListWatchLoop] retries. *)
Definition list_watch_once (fuel : nat) (ch : nat) : prog (result unit) :=
  err ← ensureConnected ch;
  match err with
  | Err e => mret (Err e)
  | Ok _ =>
      err ← listAndSendExisting ch;
      match err with
      | Err e => mret (Err e)
      | Ok _ => watchAndForwardEvents fuel ch
      end
  end.

Definition handleCleanup (ch done : nat) : prog unit :=
  _ ← closeEtcdClient;
  _ ← set_gauge (Metrics.connectionState (metrics lw)) 0;
  err ← call CtxErr;
  _ ← (match err with
       | Some _ =>
           _ ← inc (Metrics.errorsByType (metrics lw)) ["context_cancelled"];
           err ← call CtxErr;
           _ ← tryToSendErrorEvent ch ("context cancelled: " +:+
                 match err with Some e => Errors.Error e | None => "<nil>" end);
           mret ()
       | None => mret ()
       end);
  _ ← call (ChanClose ch);
  _ ← call (ChanClose done);
  log_info lw "ListWatch goroutine stopped".

(** [fuel] bounds the rounds, and is met only when the context is not done. *)
Fixpoint main_loop (fuel : nat) (ch : nat) : prog unit :=
  err ← call CtxErr;
  match err with
  | Some _ => mret ()
  | None =>
      match fuel with
      | O => Halt NoFuel
      | S fuel' =>
          err ← Retry.WithExponentialBackoff (list_watch_once fuel ch) fuel (RetryOpts (opts lw));
          _ ← (match err with
               | Err e =>
                   if bool_decide (e = ErrVar Canceled) then mret ()
                   else log_error lw "ListWatch loop failed"
               | Ok _ => mret ()
               end);
          main_loop fuel' ch
      end
  end.

Definition runListWatchLoop (fuel : nat) (ch done : nat) : prog unit :=
  deferred (handleCleanup ch done) (main_loop fuel ch).

(** [ListAndWatch] returns the channel and what its cancel function captures: the context
    and the channel [done]. *)
Definition ListAndWatch : prog (nat * (nat * nat)) :=
  if EventChannelBuffer (opts lw) <? 0 then Halt (Panic "makechan: size out of range")
  else
    ch ← call (ChanMake (EventChannelBuffer (opts lw)));
    done ← call (ChanMake 0);
    watchCtx ← call CtxWithCancel;
    _ ← call (Go (GoListWatch watchCtx ch done));
    mret (ch, (watchCtx, done)).

(** The cancel function of [ListAndWatch]. *)
Definition cancel (watchCtx done : nat) : prog unit :=
  _ ← call (CtxCancel watchCtx);
  _ ← call (ChanTake done);
  mret ().
End methods.

(** ** A reader of the channel *)

(** The map a reader keeps by applying the events in order. *)
Definition apply_event (m : gmap string string) (e : Event) : gmap string string :=
  if bool_decide (Type_ e = Deleted) then delete (Key e) m
  else if bool_decide (Type_ e = Added) || bool_decide (Type_ e = Modified)
  then <[Key e := Value e]> m
  else m.

Definition replay (m : gmap string string) (es : list Event) : gmap string string :=
  foldl apply_event m es.

(** ** What the events say *)

Section history.
Context `{EtcdHistory}.

(** An event says the whole truth about the change of its key at a revision: whether the
    key was there before and is there now, and its value. *)
Definition says (p : string) (r : Z) (e : Event) : Prop :=
  Prefix e = p /\
  match value_at (r - 1) (Key e), value_at r (Key e) with
  | None, Some v => Type_ e = Added /\ Value e = v
  | Some _, Some v => Type_ e = Modified /\ Value e = v
  | Some _, None => Type_ e = Deleted
  | None, None => False
  end.

(** A listed event gives the value of its key at the revision of the list, as added if the
    change that wrote it created the key. *)
Definition listed (p : string) (r : Z) (e : Event) : Prop :=
  Prefix e = p /\
  exists kv, at_rev r !! Key e = Some kv /\ Value e = kv_value kv /\
    Type_ e = if decide (at_rev (kv_mod_revision kv - 1) !! Key e = None) then Added else Modified.

(** Every key under the prefix exactly once. *)
Definition listing (p : string) (r : Z) (es : list Event) : Prop :=
  NoDup (Key <$> es) /\
  Forall (fun e => HasPrefix (Key e) p = true /\ listed p r e) es /\
  forall k, HasPrefix k p = true -> is_Some (at_rev r !! k) -> k ∈ Key <$> es.

Lemma watch_event_says p r e :
  changed r (ev_key e) -> etcd_says false r e -> says p r (watch_event p e).
Proof.
  unfold etcd_says, says, value_at, watch_event, ev_key. cbn [Type_ Key Value Prefix].
  intros Hc [Hkv _]. split; [done|].
  destruct (at_rev r !! kv_key (ev_kv e)) as [kv|] eqn:Hk.
  - destruct Hkv as [-> <-]. pose proof (changed_mod _ _ _ Hc Hk) as Hmod.
    pose proof (at_rev_create _ _ _ Hk) as Hcr. rewrite Hmod in Hcr.
    destruct (at_rev (r - 1) !! kv_key (ev_kv e)); cbn [fmap option_fmap option_map];
      (split; [|done]).
    + rewrite bool_decide_eq_false_2; [done|]. rewrite Hmod. by intros ?%Hcr.
    + rewrite bool_decide_eq_true_2; [done|]. rewrite Hmod. by apply Hcr.
  - destruct Hkv as [-> _]. unfold changed in Hc. rewrite Hk in Hc.
    by destruct (at_rev (r - 1) !! kv_key (ev_kv e)).
Qed.

Lemma list_event_listed p r kv :
  at_rev r !! kv_key kv = Some kv -> listed p r (list_event p kv).
Proof.
  intros Hk. split; [done|]. exists kv. split; [done|]. split; [done|].
  unfold list_event. cbn [Type_ Key]. pose proof (at_rev_create _ _ _ Hk) as Hcr.
  destruct (decide _) as [Hn|Hn].
  - rewrite bool_decide_eq_false_2; [done|]. intros Hne. by apply Hne, Hcr.
  - rewrite bool_decide_eq_true_2; [done|]. by intros ?%Hcr.
Qed.

Lemma list_events_listing p r kvs :
  kvs ≡ₚ (map_to_list (part_for p (at_rev r))).*2 -> listing p r (list_event p <$> kvs).
Proof.
  intros Hkvs.
  assert (Hin : forall kv, kv ∈ kvs <->
    HasPrefix (kv_key kv) p = true /\ at_rev r !! kv_key kv = Some kv).
  { intros kv. rewrite Hkvs, list_elem_of_fmap. split.
    - intros ([k kv'] & -> & Hin%elem_of_map_to_list). cbn.
      apply map_lookup_filter_Some in Hin as [Hk Hp]. cbn in Hp.
      by rewrite (at_rev_key _ _ _ Hk).
    - intros [Hp Hk]. exists (kv_key kv, kv). split; [done|]. apply elem_of_map_to_list.
      by apply map_lookup_filter_Some. }
  assert (Hkeys : Key <$> (list_event p <$> kvs) = kv_key <$> kvs).
  { rewrite <- list_fmap_compose. by apply list_fmap_ext. }
  unfold listing. rewrite Hkeys. split; [|split].
  - rewrite Hkvs, <- list_fmap_compose.
    replace ((kv_key ∘ snd) <$> map_to_list (part_for p (at_rev r)))
      with ((map_to_list (part_for p (at_rev r))).*1); [apply NoDup_fst_map_to_list|].
    apply Forall_fmap_ext_1, Forall_forall. intros [k kv] Hk%elem_of_map_to_list. cbn.
    apply map_lookup_filter_Some in Hk as [Hk _]. by rewrite (at_rev_key _ _ _ Hk).
  - apply Forall_fmap, Forall_forall. intros kv [Hp Hk]%Hin. cbn. split; [done|].
    by apply list_event_listed.
  - intros k Hp [kv Hk]. pose proof (at_rev_key _ _ _ Hk) as Hkey. subst k.
    apply list_elem_of_fmap. exists kv. split; [done|]. by apply Hin.
Qed.

(** *** A reader of the events *)

Lemma apply_says_event p r e m :
  says p r e ->
  apply_event m e = match value_at r (Key e) with
                    | Some v => <[Key e := v]> m
                    | None => delete (Key e) m
                    end.
Proof.
  unfold says, apply_event. intros [_ He].
  destruct (value_at (r - 1) (Key e)), (value_at r (Key e)); try done.
  - by destruct He as [-> ->].
  - by rewrite He.
  - by destruct He as [-> ->].
Qed.

Lemma apply_listed p r e m :
  listed p r e ->
  apply_event m e = match value_at r (Key e) with
                    | Some v => <[Key e := v]> m
                    | None => delete (Key e) m
                    end.
Proof.
  intros (_ & kv & Hk & Hv & Ht). unfold value_at, apply_event. rewrite Hk, Hv, Ht. cbn.
  by destruct (decide _).
Qed.

Lemma replay_listing p r es k :
  listing p r es -> HasPrefix k p = true -> replay ∅ es !! k = value_at r k.
Proof.
  intros (_ & Hes & Hall) Hp. unfold replay.
  rewrite (follow_revision Key (listed p) apply_event (apply_listed p) r).
  2: { eapply Forall_impl; [done|]. by intros e [_ ?]. }
  destruct (decide _) as [Hin|Hin]; [done|]. rewrite lookup_empty. unfold value_at.
  destruct (at_rev r !! k) eqn:Hk; [|done]. by destruct Hin; apply Hall.
Qed.

(** Reading a list at revision [L] and then the changes of the revisions [R + 1], ...,
    [n - 1]: the keys that changed after [R] are right, the others are as listed. *)
Lemma replay_gap p L R n es ws errs :
  listing p L es -> reports Key (says p) p (R + 1) n ws ->
  errs = [] \/ (exists msg, errs = [error_event msg]) ->
  (forall k, HasPrefix k p = true -> replay ∅ (es ++ ws ++ errs) !! k = value_at (n - 1) k) <->
  (forall k, HasPrefix k p = true -> (forall r, R < r < n -> ~ changed r k) ->
     value_at L k = value_at R k).
Proof.
  intros Hes Hws Herr. pose proof (reports_le _ _ _ _ _ _ Hws) as Hle.
  assert (Hreplay : forall k, replay ∅ (es ++ ws ++ errs) !! k =
    foldl apply_event (replay ∅ es) ws !! k).
  { intros k. unfold replay. rewrite !foldl_app. by destruct Herr as [->|[msg ->]]. }
  assert (Hquiet : forall k, (forall r, R < r < n -> ~ changed r k) ->
    value_at (n - 1) k = value_at R k).
  { intros k Hno. unfold value_at. rewrite (unchanged_until R (n - 1)); [done|lia|].
    intros r Hr. apply Hno. lia. }
  pose proof (fun k => follow_reports Key (says p) apply_event (apply_says_event p) p _ _ _
    (replay ∅ es) k Hws) as Hfollow.
  split; intros Heq k Hp.
  - intros Hno. specialize (Heq k Hp). rewrite Hreplay in Heq.
    destruct (Hfollow k) as [(_ & (r & Hr & Hc) & _)|[_ Hf]].
    { by destruct (Hno r); [lia|]. }
    rewrite Hf, (replay_listing p L), Hquiet in Heq; done.
  - rewrite Hreplay. destruct (Hfollow k) as [(_ & _ & Hf)|[Hno Hf]]; [done|].
    rewrite Hf, (replay_listing p L) by done.
    assert (Hno' : forall r, R < r < n -> ~ changed r k) by (intros r Hr; apply Hno; [done|lia]).
    rewrite Hquiet by done. by apply Heq.
Qed.

(** ** What is sent *)

Variable start : Z.

#[local] Abbreviation feeds := (tracks feed_answers (feed_update start)).

Section feeding.
Variable lw : ListWatch.

Lemma push_all_tracks ch events g :
  feeds (fun o g' => o = Val () /\ f_watch g' = f_watch g /\ f_failed g' = f_failed g /\
      f_sent g' = f_sent g ++ (to_msg <$> (watch_event (watchPrefix lw) <$> events)))
    (push_all lw ch events) g.
Proof.
  revert g; induction events as [|e events IH]; intros g; cbn [push_all].
  { track. by rewrite !fmap_nil, app_nil_r. }
  cbv zeta. track. track. intros [] _. cbn [continue]. unfold inc. track. track. intros [] _.
  cbn [continue]. eapply tracks_mono; [apply IH|]. cbn [feed_update add_sent f_sent f_watch f_failed].
  intros o g' (-> & -> & -> & ->). by rewrite !fmap_cons, <- app_assoc.
Qed.

Lemma sendEvent_tracks ch e g :
  validate e = None ->
  feeds (fun o g' => o = Val (Ok ()) /\ g' = add_sent (to_msg e) g \/
                     (exists err, o = Val (Err err)) /\ g' = fail g)
    (sendEvent lw ch e) g.
Proof.
  intros Hv. unfold sendEvent. rewrite Hv. track. track.
  intros [|err|] Hr; cbn [continue feed_update]; [| |by destruct (Hr eq_refl)].
  - unfold inc. track. track. intros [] _. cbn [continue]. track. by left.
  - track. right. by split; [eexists|].
Qed.

(** The list is sent in order, all of it unless a send is given up. *)
Lemma send_all_tracks ch es g :
  Forall (fun e => validate e = None) es ->
  feeds (fun o g' => f_now g' = f_now g /\ f_watch g' = f_watch g /\
      (o = Val (Ok ()) /\ f_failed g' = f_failed g /\ f_sent g' = f_sent g ++ (to_msg <$> es) \/
       (exists err, o = Val (Err err)) /\ f_failed g' = true /\
         exists pre, pre `prefix_of` (to_msg <$> es) /\ f_sent g' = f_sent g ++ pre))
    (send_all lw ch es) g.
Proof.
  intros Hes. revert g; induction Hes as [|e es He _ IH]; intros g; cbn [send_all].
  { track. split; [done|]. split; [done|]. left. by rewrite fmap_nil, app_nil_r. }
  track. eapply tracks_mono; [by apply sendEvent_tracks|].
  intros o g1 [[-> ->]|[[err ->] ->]]; cbn [continue].
  - eapply tracks_mono; [apply IH|]. cbn [add_sent f_now f_watch f_sent f_failed].
    intros o g' (-> & -> & [(-> & -> & ->)|(Herr & Hf & pre & Hpre & ->)]);
      (split; [done|]); (split; [done|]); [left|right].
    + by rewrite fmap_cons, <- app_assoc.
    + split; [done|]. split; [done|]. exists (to_msg e :: pre). rewrite fmap_cons, <- app_assoc.
      split; [by apply prefix_cons|done].
  - track. split; [done|]. split; [done|]. right. split; [by eexists|]. split; [done|].
    exists []. rewrite app_nil_r. split; [apply prefix_nil|done].
Qed.

Lemma listed_valid p r e : p <> "" -> HasPrefix (Key e) p = true -> listed p r e -> validate e = None.
Proof.
  intros Hp Hk (Hpre & kv & _ & _ & Ht). unfold validate. rewrite Hpre, Ht.
  assert (Hkey : Key e <> "").
  { intros Heq. rewrite Heq in Hk. apply HasPrefix_spec in Hk as [t Ht']. by destruct p. }
  rewrite (bool_decide_eq_false_2 (Key e = "")), (bool_decide_eq_false_2 (p = "")) by done.
  by destruct (decide _).
Qed.

#[local] Abbreviation p := (watchPrefix lw).

(** What the list at revision [L] and the watch after revision [R] have sent when the watch
    has come to revision [n - 1]: the list, the changes since [R], and at most one error. *)
Definition tells (L R n : Z) (es ws errs : list Event) (g : feed) : Prop :=
  L <= R < n /\ listing p L es /\ reports Key (says p) p (R + 1) n ws /\
  (errs = [] \/ exists msg, errs = [error_event msg]) /\
  f_sent g = to_msg <$> (es ++ ws ++ errs).

(** The list was not finished. *)
Definition cut_short (g : feed) : Prop :=
  f_failed g = true /\ exists L es, listing p L es /\ f_sent g `prefix_of` (to_msg <$> es).

Lemma watch_loop_tracks fuel ch g L R n es ws :
  f_watch g = Some (mkWatch p false n) -> tells L R n es ws [] g ->
  feeds (fun _ g' => exists n ws errs, tells L R n es ws errs g') (watch_loop lw fuel ch) g.
Proof.
  revert g n ws; induction fuel as [|fuel IH]; intros g n ws Hw Hd; cbn [watch_loop].
  { track. eauto. }
  track. track. intros [wr| |err] Hr; cbn [continue feed_update feed_answers] in *; [|track; eauto..].
  rewrite Hw in *. cbn [w_prefix w_prevKV w_next] in *. destruct Hr as [_ Hevs].
  destruct Hd as (HL & Hes & Hws & _ & Hs). rewrite app_nil_r in Hs.
  destruct (wr_err wr) as [err|] eqn:He.
  - unfold inc. track. track. intros [] _. cbn [continue]. track. intros [] _.
    exists n, ws, [error_event (Errors.Error err)]. split; [done|]. split; [done|].
    split; [done|]. split; [by right; eexists|]. cbn [feed_update add_sent set_watch f_sent].
    by rewrite Hs, app_assoc, (fmap_app _ (es ++ ws)).
  - specialize (Hevs eq_refl). track. eapply tracks_mono; [apply push_all_tracks|].
    intros o g' (-> & Hw' & _ & Hs'). cbn [continue].
    apply (IH g' _ (ws ++ (watch_event p <$> wr_events wr)) Hw').
    pose proof (reports_le _ _ _ _ _ _ Hevs) as Hle. split; [lia|]. split; [done|].
    split; [|split; [by left|]].
    + eapply reports_app; [exact Hws|].
      apply (reports_map ev_key (etcd_says false) Key (says p) (watch_event p));
        [by intros []|apply watch_event_says|done].
    + rewrite Hs', app_nil_r. cbn [set_watch f_sent].
      by rewrite Hs, !fmap_app, <- app_assoc.
Qed.

(** [Watch] opens a watch after the revision of its own read. *)
Lemma Watch_tracks g :
  1 <= f_now g ->
  feeds (fun o g' => f_sent g' = f_sent g /\
      match o with
      | Val (Ok _) => exists R, f_now g <= R /\ f_watch g' = Some (mkWatch p false (R + 1))
      | _ => f_failed g' = true
      end) (Watch lw) g.
Proof.
  intros Hnow. unfold Watch, with_client, nil_dereference. track. track. track.
  intros [cli|] _; cbn [continue feed_update].
  2: { track. cbn [after_body]. unfold observe. track. track. intros [] _. done. }
  track. track. intros [resp|err] Hr; cbn [continue feed_update].
  - destruct Hr as [Hge _]. track. track. intros ch _. cbn [continue]. track. track. intros [] _.
    cbn [continue]. track. track. intros [] _. cbn [continue]. track. cbn [after_body].
    unfold observe. track. track. intros [] _. cbn [continue]. track. split; [done|].
    exists (resp_revision resp). split; [done|]. cbn [feed_update set_watch f_watch].
    by rewrite (proj2 (Z.eqb_neq _ _)) by lia.
  - unfold inc. track. track. intros [] _. cbn [continue]. track. cbn [after_body].
    unfold observe. track. track. by intros [] _.
Qed.

Lemma failed_list_mute ch err :
  behaves mute (fun r => is_Ok r = false)
    (_ ← log_error lw "Failed to list items";
     _ ← tryToSendErrorEvent ch ("failed to list items: " +:+ Errors.Error err);
     _ ← closeEtcdClient;
     _ ← inc (Metrics.retryCount (metrics lw)) [];
     mret (Err (A:=unit) err)).
Proof.
  unfold log_error, nil_dereference, tryToSendErrorEvent, Retry.WithRetries, closeEtcdClient, inc.
  change (Z.to_nat defaultErrorRetryAttempts) with 3%nat. unfold Retry.retries_loop, try_send.
  repeat first
    [ exact I | reflexivity | progress intros | eapply (behaves_bind _ (fun _ => True))
    | by apply behaves_call | case_match ].
Qed.

Lemma listing_exists : exists L es, listing p L es.
Proof. exists 0. eexists. by apply list_events_listing. Qed.

Lemma list_tracks ch g :
  p <> "" -> 1 <= f_now g -> f_sent g = [] -> f_failed g = false ->
  feeds (fun o g' =>
      match o with
      | Val (Ok _) => exists es, 1 <= f_now g' /\ listing p (f_now g') es /\
          f_sent g' = to_msg <$> es
      | _ => cut_short g'
      end) (listAndSendExisting lw ch) g.
Proof.
  intros Hp Hnow Hs Hf. destruct listing_exists as (L0 & es0 & Hes0).
  assert (Hcut : forall g', f_sent g' = [] -> f_failed g' = true -> cut_short g').
  { intros g' Hs' Hf'. split; [done|]. exists L0, es0. rewrite Hs'. split; [done|apply prefix_nil]. }
  unfold listAndSendExisting, List, with_client, nil_dereference. track. track. track.
  intros [cli|] _; cbn [continue feed_update]; [|track; by apply Hcut].
  track. track. intros [resp|err] Hr; cbn [continue feed_update feed_answers] in *.
  - destruct Hr as [Hge Hkvs]. track. cbn [continue]. track. unfold observe. track. intros [] _.
    cbn [continue]. apply list_events_listing in Hkvs.
    set (es := list_event p <$> resp_kvs resp) in *.
    eapply tracks_mono; [apply (send_all_tracks ch es)|].
    { destruct Hkvs as (_ & Hes & _). eapply Forall_impl; [exact Hes|].
      cbn. intros e [? ?]. by eapply listed_valid. }
    cbn [feed_update set_now f_now f_watch f_sent f_failed]. rewrite Hs.
    intros o g' (Hn & _ & [(-> & _ & Hs')|([err ->] & Hf' & pre & Hpre & Hs')]).
    + exists es. rewrite Hn. split; [lia|done].
    + split; [done|]. exists (resp_revision resp), es. rewrite Hs'. done.
  - track. cbn [continue]. track. unfold observe. track. intros [] _. cbn [continue].
    eapply tracks_mono; [apply mute_tracks, failed_list_mute|].
    cbn [feed_update fail f_sent f_failed]. rewrite Hs. intros o g' (Ho & Hs' & Hf').
    assert (Hc : cut_short g') by auto. destruct o as [[[]|]|]; [|done|done].
    by specialize (Ho _ eq_refl).
Qed.
End feeding.
End history.

(** ** What the loop sends *)

(** The calls of the serving goroutine: events sent to the reader with [sendEvent] are
    well-formed, the others are error events. *)
Definition serving_call (ch : nat) (e : ext) : Prop :=
  match e with
  | ChanSend c m => c = ch /\ validate (of_msg m) = None
  | ChanTrySend c m => c = ch /\ exists errMsg, m = to_msg (error_event errMsg)
  | ChanPush _ _ => False
  | _ => True
  end.

#[local] Abbreviation serves ch p := (behaves (serving_call ch) (fun _ => True) p).

Lemma serves_bind {A B} ch (p : prog A) (f : A -> prog B) :
  serves ch p -> (forall a, serves ch (f a)) -> serves ch (p ≫= f).
Proof. intros Hp Hf. by eapply behaves_bind. Qed.

Lemma serves_deferred {A} ch d (p : prog A) :
  serves ch d -> serves ch p -> serves ch (deferred d p).
Proof. intros Hd Hp. by eapply behaves_deferred. Qed.

(** A call that is no send. *)
Lemma serves_call ch e : serving_call ch e -> serves ch (call e).
Proof. apply behaves_call. Qed.

Create HintDb serves.
#[local] Hint Resolve serves_bind serves_deferred serves_call : serves.

(** Follow a program through its calls. *)
Ltac serve :=
  repeat first
    [ progress intros
    | exact I
    | lazymatch goal with
      | |- behaves _ _ (mret _) => exact I
      | |- behaves _ _ (Ret _) => exact I
      | |- behaves _ _ (Halt _) => exact I
      | |- behaves _ _ (_ ≫= _) => apply serves_bind
      | |- behaves _ _ (deferred _ _) => apply serves_deferred
      | |- behaves _ _ (call _) => apply serves_call; exact I
      | |- behaves _ _ (if ?b then _ else _) => destruct b
      | |- behaves _ _ (match ?x with _ => _ end) => destruct x
      | |- behaves _ _ (let _ := _ in _) => cbv zeta
      end
    | solve [eauto with serves] ].

Section serving.
Variables (lw : ListWatch) (ch : nat).

Lemma serves_log_error msg : serves ch (log_error lw msg).
Proof. unfold log_error, nil_dereference. serve. Qed.

Lemma serves_log_info msg : serves ch (log_info lw msg).
Proof. unfold log_info, nil_dereference. serve. Qed.

Lemma serves_try_send msg : serves ch (try_send ch (error_event msg)).
Proof. apply serves_bind; [|serve]. apply behaves_call. split; [done|by exists msg]. Qed.

Lemma serves_retries op n d : serves ch op -> serves ch (Retry.retries_loop op n d).
Proof. intros Hop. induction n as [|n IH]; cbn [Retry.retries_loop]; serve. Qed.

Lemma serves_error msg : serves ch (tryToSendErrorEvent ch msg).
Proof. apply serves_bind; [|done]. apply serves_retries, serves_try_send. Qed.

Lemma serves_backoff op fuel o d : serves ch op -> serves ch (Retry.backoff_loop op fuel o d).
Proof.
  intros Hop. revert d; induction fuel as [|fuel IH]; intros d; cbn [Retry.backoff_loop]; serve.
Qed.

Lemma serves_close : serves ch closeEtcdClient.
Proof. unfold closeEtcdClient. serve. Qed.

Lemma serves_with_client {A} (p : prog A) : serves ch p -> serves ch (with_client p).
Proof. intros Hp. unfold with_client, nil_dereference. serve. Qed.

#[local] Hint Resolve serves_log_error serves_log_info serves_error serves_close
  serves_with_client : serves.

Lemma serves_send event : serves ch (sendEvent lw ch event).
Proof.
  unfold sendEvent. destruct (validate event) as [e|] eqn:Hv; [serve|].
  apply serves_bind; [|unfold inc; serve]. apply behaves_call. split; [done|]. by destruct event.
Qed.
#[local] Hint Resolve serves_send : serves.

Lemma serves_send_all events : serves ch (send_all lw ch events).
Proof. induction events as [|e events IH]; cbn [send_all]; serve. Qed.
#[local] Hint Resolve serves_send_all : serves.

Lemma serves_close_attempts n : serves ch (close_attempts n ch).
Proof.
  induction n as [|n IH]; cbn [close_attempts]; [serve|].
  apply serves_bind; [apply behaves_call; split; [done|by eexists]|]. serve.
Qed.
#[local] Hint Resolve serves_close_attempts : serves.

Lemma serves_forward watchCtx watchCh fuel : serves ch (forward_loop lw fuel watchCtx watchCh ch).
Proof.
  induction fuel as [|fuel IH]; cbn [forward_loop]; unfold handleWatchChannelClose; serve.
Qed.
#[local] Hint Resolve serves_forward : serves.

Lemma serves_once fuel : serves ch (list_watch_once lw fuel ch).
Proof.
  unfold list_watch_once, ensureConnected, listAndSendExisting, List, watchAndForwardEvents,
    Watch, with_client, watchCancel, nil_dereference, set_gauge, inc, observe. serve.
Qed.
#[local] Hint Resolve serves_once serves_backoff : serves.

Lemma serves_main fuel : serves ch (main_loop lw fuel ch).
Proof.
  induction fuel as [|fuel IH]; cbn [main_loop]; unfold Retry.WithExponentialBackoff; serve.
Qed.

Lemma serves_cleanup done : serves ch (handleCleanup lw ch done).
Proof. unfold handleCleanup, set_gauge, inc. serve. Qed.
End serving.

(** ** How the serving goroutine can end *)

(** Programs that meet their bound only after a live answer, and whose only other exit is
    a nil pointer dereference. *)
Definition orderly {A} (q : prog A) : Prop :=
  patient q /\
  stops (fun h => h = Panic "invalid memory address or nil pointer dereference" \/ h = NoFuel) q.

Lemma orderly_ret {A} (a : A) : orderly (Ret a).
Proof. done. Qed.

Lemma orderly_nil {A} : orderly (A:=A) nil_dereference.
Proof. split; [done|by left]. Qed.

Lemma orderly_bind {A B} (q : prog A) (f : A -> prog B) :
  orderly q -> (forall a, orderly (f a)) -> orderly (q ≫= f).
Proof.
  intros [Hp Hs] Hf. split; [apply patient_bind; [done|apply Hf]|apply stops_bind; [done|apply Hf]].
Qed.

Lemma orderly_deferred {A} d (q : prog A) : orderly d -> orderly q -> orderly (deferred d q).
Proof. intros [? ?] [? ?]. split; [by apply patient_deferred|by apply stops_deferred]. Qed.

Lemma orderly_call e : orderly (call e).
Proof. split; [by intros r; right|done]. Qed.

(** A call whose live answers may meet the bound. *)
Lemma orderly_bound {A} e (f : resp e -> prog A) :
  (forall r, (live e r = true /\ f r = Halt NoFuel) \/ orderly (f r)) -> orderly (call e ≫= f).
Proof.
  intros Hf. split; intros r; destruct (Hf r) as [[Hl Hk]|[Hp Hs]]; auto.
  change (stops (fun h => h = Panic "invalid memory address or nil pointer dereference" \/ h = NoFuel)
    (f r)). rewrite Hk. by right.
Qed.

Create HintDb orderly.
#[local] Hint Resolve orderly_ret orderly_nil orderly_bind orderly_deferred orderly_call : orderly.

(** Follow a program through its calls. *)
Ltac orderly :=
  repeat first
    [ progress intros
    | lazymatch goal with
      | |- orderly (mret _) => apply orderly_ret
      | |- orderly (Ret _) => apply orderly_ret
      | |- orderly (_ ≫= _) => apply orderly_bind
      | |- orderly (deferred _ _) => apply orderly_deferred
      | |- orderly (call _) => apply orderly_call
      | |- orderly nil_dereference => apply orderly_nil
      | |- orderly (if ?b then _ else _) => destruct b
      | |- orderly (match ?x with _ => _ end) => destruct x
      | |- orderly (let _ := _ in _) => cbv zeta
      end
    | solve [eauto with orderly] ].

Section ends.
Variables (lw : ListWatch) (ch : nat).

Lemma orderly_log_error msg : orderly (log_error lw msg).
Proof. unfold log_error. orderly. Qed.

Lemma orderly_retries op n d : orderly op -> orderly (Retry.retries_loop op n d).
Proof. intros Hop. induction n as [|n IH]; cbn [Retry.retries_loop]; orderly. Qed.

Lemma orderly_error msg : orderly (tryToSendErrorEvent ch msg).
Proof. apply orderly_bind; [|orderly]. apply orderly_retries. unfold try_send. orderly. Qed.

Lemma orderly_close : orderly closeEtcdClient.
Proof. unfold closeEtcdClient. orderly. Qed.

#[local] Hint Resolve orderly_log_error orderly_error orderly_close : orderly.

Lemma orderly_send event : orderly (sendEvent lw ch event).
Proof. unfold sendEvent, inc. orderly. Qed.
#[local] Hint Resolve orderly_send : orderly.

Lemma orderly_send_all events : orderly (send_all lw ch events).
Proof. induction events as [|e events IH]; cbn [send_all]; orderly. Qed.

Lemma orderly_close_attempts n : orderly (close_attempts n ch).
Proof. induction n as [|n IH]; cbn [close_attempts]; orderly. Qed.
#[local] Hint Resolve orderly_send_all orderly_close_attempts : orderly.

Lemma orderly_forward watchCtx watchCh fuel : orderly (forward_loop lw fuel watchCtx watchCh ch).
Proof.
  induction fuel as [|fuel IH]; cbn [forward_loop]; unfold handleWatchChannelClose;
    apply orderly_bound; intros [m| |err]; first [by left|right; orderly].
Qed.
#[local] Hint Resolve orderly_forward : orderly.

Lemma orderly_once fuel : orderly (list_watch_once lw fuel ch).
Proof.
  unfold list_watch_once, ensureConnected, listAndSendExisting, List, watchAndForwardEvents,
    Watch, with_client, watchCancel, set_gauge, inc, observe. orderly.
Qed.

Lemma orderly_backoff op fuel o d : orderly op -> orderly (Retry.backoff_loop op fuel o d).
Proof.
  intros Hop. revert d; induction fuel as [|fuel IH]; intros d; cbn [Retry.backoff_loop];
    (apply orderly_bind; [done|]); intros [[]|e]; [orderly| |orderly|];
    apply orderly_bound; intros [e'|]; first [by left|right; orderly].
Qed.
#[local] Hint Resolve orderly_once orderly_backoff : orderly.

Lemma orderly_main fuel : orderly (main_loop lw fuel ch).
Proof.
  induction fuel as [|fuel IH]; cbn [main_loop]; unfold Retry.WithExponentialBackoff;
    apply orderly_bound; intros [e|]; first [by left|right; orderly].
Qed.

Lemma orderly_cleanup done : orderly (handleCleanup lw ch done).
Proof. unfold handleCleanup, set_gauge, inc, log_info. orderly. Qed.

Lemma orderly_serving fuel done : orderly (runListWatchLoop lw fuel ch done).
Proof. apply orderly_deferred; [apply orderly_cleanup|apply orderly_main]. Qed.

(** Without a logger the cleanup does not return. *)
Lemma never_returns {G} (answers : G -> forall e, resp e -> Prop) (update : forall e, resp e -> G -> G)
    fuel done g :
  logger lw = false ->
  tracks answers update (fun o _ => match o with Val _ => False | Halted _ => True end)
    (runListWatchLoop lw fuel ch done) g.
Proof.
  intros Hlog. unfold runListWatchLoop. track. eapply tracks_mono; [apply tracks_any|].
  assert (Hclean : forall A (f : unit -> prog A) g,
    tracks answers update (fun o _ => match o with Val _ => False | Halted _ => True end)
      (handleCleanup lw ch done ≫= f) g).
  { intros A f g'. track. unfold handleCleanup.
    do 6 (track; eapply tracks_mono; [apply tracks_any|];
          intros [?|?] ? _; cbn [continue]; [|done]).
    unfold log_info. by rewrite Hlog. }
  intros [[]|[]] g' _; cbn [after_body]; first [apply Hclean|done].
Qed.
End ends.

(** ** Properties *)

(** C32: what a list-watch delivers.  For every history of etcd, take the calls of one round:
    the list that is sent to the caller ([listAndSendExisting]), the opening of the watch
    ([Watch], which reads the revision to watch from with a request of its own) and the
    goroutine of the watch ([watch_loop]).  Unless an etcd call or a send fails in the list
    or there is no client, what they put on their channels is: the keys under the prefix at
    some revision [L], each once, with its value, as added exactly if its last change created
    it; then the changes of the revisions after [R], [R] being a revision not before [L], up
    to the last one delivered: every changed key of every revision once, in order, as added,
    modified or deleted exactly as it was; then at most one error.  So a reader that applies
    the events has the values of etcd at the end if and only if every key that did not change
    after [R] had the same value at [L] and at [R]: changes between the list and the watch
    are lost. *)
Theorem list_watch_delivers `{EtcdHistory} (lw : ListWatch) (fuel ch : nat) (start : Z) :
  watchPrefix lw <> "" ->
  tracks feed_answers (feed_update start) (fun _ g =>
      cut_short lw g \/
      exists L R n es ws errs, tells lw L R n es ws errs g /\
        ((forall k, HasPrefix k (watchPrefix lw) = true ->
            replay ∅ (es ++ ws ++ errs) !! k = value_at (n - 1) k) <->
         (forall k, HasPrefix k (watchPrefix lw) = true ->
            (forall r, R < r < n -> ~ changed r k) -> value_at L k = value_at R k)))
    (err ← listAndSendExisting lw ch;
     match err with
     | Err _ => mret ()
     | Ok _ =>
         started ← Watch lw;
         match started with Err _ => mret () | Ok watchCh => watch_loop lw fuel watchCh end
     end)
    (mkFeed 1 None [] false).
Proof.
  intros Hp. track. eapply tracks_mono; [by apply (list_tracks start lw ch)|].
  intros [[[]|err]|h] g Hl; cbn [continue]; [|track; by left|by left].
  destruct Hl as (es & Hnow & Hes & Hs). track. eapply tracks_mono; [by apply Watch_tracks|].
  intros o g1 [Hs1 Hw].
  destruct o as [[watchCh|err]|h]; cbn [continue];
    [|track; left; split; [done|]; exists (f_now g), es; by rewrite Hs1, Hs
     |left; split; [done|]; exists (f_now g), es; by rewrite Hs1, Hs].
  destruct Hw as (R & HR & Hw). eapply tracks_mono.
  { apply (watch_loop_tracks start lw fuel watchCh g1 (f_now g) R (R + 1) es [] Hw).
    split; [lia|]. split; [done|]. split; [constructor|]. split; [by left|].
    rewrite Hs1, Hs. by rewrite app_nil_r. }
  intros o g2 (n & ws & errs & Hd). right. exists (f_now g), R, n, es, ws, errs.
  split; [done|]. destruct Hd as (_ & Hl & Hws & Herr & _). by apply replay_gap.
Qed.

(** The two watches agree.  On every change of every history whose previous version etcd
    still has, the list-watch, which compares the revisions of the key, reports an addition,
    a modification or a deletion exactly when the storage's watch, which looks for the
    previous version, reports an addition, an update or a deletion. *)
Theorem event_types_agree `{EtcdHistory} (p : string) (r : Z) (e e' : EtcdEvent) :
  changed r (ev_key e) -> ev_key e' = ev_key e -> etcd_says false r e -> etcd_says true r e' ->
  retained r (ev_key e) = true ->
  (Type_ (watch_event p e) = Added <->
     StorageWatch.convertEventType e' = StorageWatch.EventAdd) /\
  (Type_ (watch_event p e) = Modified <->
     StorageWatch.convertEventType e' = StorageWatch.EventUpdate) /\
  (Type_ (watch_event p e) = Deleted <->
     StorageWatch.convertEventType e' = StorageWatch.EventDelete).
Proof.
  intros Hc Hkey He He' Hret. pose proof (watch_event_says p r e Hc He) as [_ Hs].
  apply StorageWatch.convert_says in He' as [Hs' _].
  unfold StorageWatch.known_before in Hs'.
  change (StorageWatch.Key _) with (ev_key e') in Hs'. rewrite Hkey, Hret in Hs'.
  change (Key _) with (ev_key e) in Hs. change (StorageWatch.Type_ _) with
    (StorageWatch.convertEventType e') in Hs'.
  destruct (value_at (r - 1) (ev_key e)), (value_at r (ev_key e)); try done;
    repeat match goal with H : _ /\ _ |- _ => destruct H end;
    repeat match goal with
      | H : Type_ _ = _ |- _ => rewrite H; clear H
      | H : StorageWatch.convertEventType _ = _ |- _ => rewrite H; clear H
      end; by split_and!.
Qed.

(** *** Forwarding *)

(** What the forwarding loop has received and sent, and whether a send was given up. *)
Record forwarding := mkForwarding { w_received : list Event; w_sent : list Event; w_gave_up : bool }.

Definition forward_update (e : ext) : resp e -> forwarding -> forwarding :=
  match e with
  | ChanRecv _ => fun r g =>
      match r with
      | Received m => mkForwarding (w_received g ++ [of_msg m]) (w_sent g) (w_gave_up g)
      | _ => g
      end
  | ChanSend _ m => fun r g =>
      match r with
      | Sent => mkForwarding (w_received g) (w_sent g ++ [of_msg m]) (w_gave_up g)
      | _ => mkForwarding (w_received g) (w_sent g) true
      end
  | _ => fun _ g => g
  end.

Definition forward_answers (_ : forwarding) (e : ext) : resp e -> Prop :=
  match e with ChanSend _ _ => fun r => r <> SendFull | _ => fun _ => True end.

(** All that was received was sent on, in order, but possibly for the last event: it was
    refused as invalid, its send was given up, or the bound of the model was met. *)
Definition forwarded (o : outcome (result unit)) (g : forwarding) : Prop :=
  w_received g = w_sent g \/
  exists e, w_received g = w_sent g ++ [e] /\
    (validate e <> None \/ w_gave_up g = true \/ o = Halted NoFuel).

(** Programs after which nothing was received or sent. *)
Lemma idle_tracks {A} (q : prog A) g :
  behaves (fun e => match e with ChanRecv _ | ChanSend _ _ => False | _ => True end) (fun _ => True) q ->
  tracks forward_answers forward_update (fun _ g' => g' = g) q g.
Proof.
  intros Hq. revert Hq; induction q as [a|e k IH|m md k IH|m md k IH|h]; intros Hq;
    unfold tracks; fold (@tracks forwarding forward_answers forward_update A);
    cbn [behaves] in Hq; auto.
  intros r _. destruct Hq as [He Hk].
  assert (Hg : forward_update e r g = g) by by destruct e. rewrite Hg. auto.
Qed.

(** C37: the forwarding loop keeps the order and loses nothing.  Whatever arrives on the
    channel of the watch, the loop of [watchAndForwardEvents] sends it to the caller event by
    event, in the order it was received; when it ends, at most the last event received was
    not sent, and then it was not well-formed or the send was given up because the context
    is done. *)
Theorem forward_loop_in_order (lw : ListWatch) (fuel watchCtx watchCh ch : nat) :
  tracks forward_answers forward_update forwarded
    (forward_loop lw fuel watchCtx watchCh ch) (mkForwarding [] [] false).
Proof.
  cut (forall l, tracks forward_answers forward_update forwarded
    (forward_loop lw fuel watchCtx watchCh ch) (mkForwarding l l false)); [auto|].
  assert (Hidle : forall l (q : prog (result unit)),
    behaves (fun e => match e with ChanRecv _ | ChanSend _ _ => False | _ => True end)
      (fun _ => True) q ->
    tracks forward_answers forward_update forwarded q (mkForwarding l l false)).
  { intros l q Hq. eapply tracks_mono; [by apply idle_tracks|]. intros o g ->. by left. }
  induction fuel as [|fuel IH]; intros l; cbn [forward_loop]; track; track;
    intros [m| |err] _; cbn [continue forward_update w_received w_sent w_gave_up];
    try (apply Hidle; unfold handleWatchChannelClose, log_error, nil_dereference,
           tryToSendErrorEvent, Retry.WithRetries, closeEtcdClient;
         change (Z.to_nat defaultErrorRetryAttempts) with 3%nat;
         unfold Retry.retries_loop, try_send, close_attempts, closeEtcdClient;
         repeat first
           [ exact I | progress intros | eapply (behaves_bind _ (fun _ => True))
           | by apply behaves_call | case_match ]).
  - track. right. exists (of_msg m). auto.
  - track. unfold sendEvent. destruct (validate (of_msg m)) as [e|] eqn:Hv.
    + track. eapply tracks_mono; [apply idle_tracks; unfold log_error; by case_match|].
      intros o g ->. assert (Hf : forall o, forwarded o (mkForwarding (l ++ [of_msg m]) l false)).
      { intros o'. right. exists (of_msg m). split; [done|]. left. by rewrite Hv. }
      destruct o as [[]|h]; cbn [continue]; [track; cbn [continue]; track|]; apply Hf.
    + track. track. intros [|err|] Hr; cbn [continue forward_update w_received w_sent w_gave_up];
        [| |by destruct (Hr eq_refl)].
      * unfold inc. track. track. intros [] _. cbn [continue]. track. cbn [continue].
        destruct m. apply IH.
      * track. cbn [continue]. track. right. exists (of_msg m). auto.
Qed.

(** Errors of the watch do not reach the reader.  The goroutine of [Watch] puts an error
    event without a prefix on its channel; [sendEvent] refuses it, so the forwarding loop
    returns at once, having logged the refusal and sent nothing. *)
Theorem watch_errors_dropped `{World W} lw fuel watchCtx watchCh ch errMsg (w w1 : W) :
  logger lw = true ->
  handle (ChanRecv watchCh) w = (Received (to_msg (error_event errMsg)), w1) ->
  run (forward_loop lw (S fuel) watchCtx watchCh ch) w =
  (Val (Err (ErrText "invalid event: event prefix cannot be empty")),
   (handle (Log "error" "Invalid event") w1).2).
Proof.
  intros Hlog Hrecv. cbn [forward_loop]. rewrite run_bind. unfold call. cbn [run].
  rewrite Hrecv. rewrite run_bind.
  assert (Hs : sendEvent lw ch (of_msg (to_msg (error_event errMsg))) =
    Call (Log "error" "Invalid event") (fun _ => Ret (Err (ErrText
      "invalid event: event prefix cannot be empty")))).
  { unfold sendEvent, log_error. by rewrite Hlog. }
  rewrite Hs. cbn [run]. by destruct (handle (Log _ _) w1).
Qed.

(** What the serving goroutine sends.  In every world, every event it sends with
    [sendEvent] is well-formed (it has a type, a prefix, and a key unless it is an error),
    everything else it sends is an error event, and all go to the caller's channel. *)
Theorem runListWatchLoop_sends lw fuel ch done :
  behaves (serving_call ch) (fun _ => True) (runListWatchLoop lw fuel ch done).
Proof. apply serves_deferred; [apply serves_cleanup|apply serves_main]. Qed.

(** C38: without a logger the serving goroutine panics.  Although the package calls the
    logger optional, with a nil logger no behaviour of etcd and of the caller lets the
    serving goroutine return: it ends with a nil pointer dereference, at the latest in its
    cleanup, when it logs that it has stopped.  The bound of the model is met only directly
    after an answer by which the context is not done or an event has arrived, that is while
    the loop of the code goes on. *)
Theorem runListWatchLoop_needs_logger lw fuel ch done :
  logger lw = false ->
  tracks (fun (_ : bool) _ _ => True) (fun e r _ => live e r)
    (fun o last => o = Halted (Panic "invalid memory address or nil pointer dereference") \/
                   o = Halted NoFuel /\ last = true)
    (runListWatchLoop lw fuel ch done) false.
Proof.
  intros Hlog. eapply tracks_mono.
  { apply tracks_and; [apply tracks_and|].
    - apply patient_tracks. left. apply orderly_serving.
    - apply tracks_stops, orderly_serving.
    - by apply never_returns. }
  intros [[]|h] last [[Hlast Hh] Hv]; [done|].
  destruct Hh as [->| ->]; [by left|right; auto].
Qed.

(** ** The properties at concrete inputs *)

Module Witness.
Definition lw : ListWatch :=
  mkListWatch ["localhost:2379"] "/" DefaultOptions Metrics.created true.

(** A world in which a watch error is waiting on every channel. *)
#[export] Instance error_world : World unit := fun e _ =>
  match e return resp e * unit with
  | ChanRecv _ => (Received (to_msg (error_event "compacted")), ())
  | e' => ((Reference.ref_handle e' Reference.empty_world).1, ())
  end.
End Witness.
#[local] Existing Instance Witness.error_world.

(** *** A history *)

Module History.
Definition h : list change :=
  [Put "/a" "1"; Put "/a" "2"; Put "/b" "3"; Put "/c" "4"; Put "/a" "5"; Del "/a"; Put "x" "6"].
#[export] Instance history : EtcdHistory := HistoryOf.history h.

Definition kvs (r : Z) : list KeyValue := (map_to_list (part_for "/" (at_rev r))).*2.

(** The list is read at revision 2 and the revision to watch from at revision 3: the key
    "/b" was created in between. *)
Definition at_2 : GetResponse := mkGetResponse 2 [mkKeyValue "/a" "2" 1 2].
Definition at_3 : GetResponse :=
  mkGetResponse 3 [mkKeyValue "/a" "2" 1 2; mkKeyValue "/b" "3" 3 3].
Definition response : WatchResponse :=
  mkWatchResponse
    [mkEtcdEvent EvPut (mkKeyValue "/c" "4" 4 4) None;
     mkEtcdEvent EvPut (mkKeyValue "/a" "5" 1 5) None;
     mkEtcdEvent EvDelete (mkKeyValue "/a" "" 0 6) None] false None.

Definition told : list Event :=
  [mkEvent Modified "/a" "2" "/"; mkEvent Added "/c" "4" "/"; mkEvent Modified "/a" "5" "/";
   mkEvent Deleted "/a" "" "/"].

Definition seen : feed := mkFeed 3 (Some (mkWatch "/" false 7)) (to_msg <$> told) false.
End History.
#[local] Existing Instance History.history.

Lemma history_at_2 : resp_kvs History.at_2 ≡ₚ History.kvs 2.
Proof. apply reflexive_eq. vm_compute. reflexivity. Qed.

Lemma history_at_3 : resp_kvs History.at_3 ≡ₚ History.kvs 3.
Proof. apply reflexive_eq. vm_compute. reflexivity. Qed.

Lemma history_response :
  reports ev_key (etcd_says false) "/" 4 7 (wr_events History.response).
Proof.
  replace (wr_events History.response) with (HistoryOf.events History.h false "/" 3 3)
    by (vm_compute; reflexivity).
  apply (HistoryOf.events_reports History.h false "/" 3 3).
Qed.

(** The listed key, then three changes; the watch is closed. *)
Lemma list_watch_delivers_witness :
  exists L R n es ws errs, tells Witness.lw L R n es ws errs History.seen /\
    ((forall k, HasPrefix k "/" = true ->
        replay ∅ (es ++ ws ++ errs) !! k = value_at (n - 1) k) <->
     (forall k, HasPrefix k "/" = true ->
        (forall r, R < r < n -> ~ changed r k) -> value_at L k = value_at R k)).
Proof.
  match goal with |- ?told =>
    assert (H : cut_short Witness.lw History.seen \/ told) end;
    [|by destruct H as [[Hf _]|H]].
  refine (list_watch_delivers Witness.lw 2 0 0 ltac:(discriminate)
    (Some 7%nat) I (Ok History.at_2) (conj _ history_at_2) () I Sent ltac:(discriminate) () I
    (Some 7%nat) I (Ok History.at_3) (conj _ history_at_3) 5%nat I () I () I () I
    (Received History.response) (conj eq_refl (fun _ => history_response))
    () I () I () I () I () I () I Closed I); discriminate.
Defined.

(** What such a reader misses: "/b" is stored at revision 6, but no event told of it. *)
Lemma list_watch_misses :
  replay ∅ History.told !! "/b" = None /\ value_at 6 "/b" = Some "3".
Proof. split; vm_compute; reflexivity. Qed.

Lemma runListWatchLoop_needs_logger_witness :
  tracks (fun (_ : bool) _ _ => True) (fun e r _ => live e r)
    (fun o last => o = Halted (Panic "invalid memory address or nil pointer dereference") \/
                   o = Halted NoFuel /\ last = true)
    (runListWatchLoop (mkListWatch [] "/" DefaultOptions Metrics.created false) 3 0 1) false.
Proof. apply runListWatchLoop_needs_logger. reflexivity. Defined.

Lemma watch_errors_dropped_witness :
  run (forward_loop Witness.lw 5 0 1 2) () =
  (Val (Err (ErrText "invalid event: event prefix cannot be empty")), ()).
Proof.
  exact (watch_errors_dropped Witness.lw 4 0 1 2 "compacted" () () eq_refl eq_refl).
Defined.
End ListWatch.
