(* ===== verification/GoRuntime.v ===== *)
(** * GoRuntime: goroutines, channels and contexts

    An operational semantics for programs that start goroutines and communicate over
    channels.  A state holds the channels, the contexts, the goroutines with the context
    each of them works under, and the field [lw.etcdCli]; a step runs one goroutine for one
    call.  Where Go chooses (which ready branch of a [select], when a timer fires, what etcd
    answers) the step takes the choice as an argument, so that a schedule with its choices
    can be executed ([exec]) and "in every execution" means for all of them ([reachable]).

    What Go does on misuse is part of the semantics: sending on a closed channel, closing a
    channel twice and any [panic] that is not recovered end the process.  The reader of the
    channels that are handed out ([out]) and whoever cancels contexts from outside are the
    environment.  Unbuffered channels are supported towards the environment only: the
    channels between goroutines in this repository are buffered. *)

From stdpp Require Import relations.
From S2P Require Import Prelude Errors Effects Ledger.

(** ** States *)

Record chan := mkChan { c_cap : Z; c_buf : list ChanMsg; c_closed : bool }.

(** The context a goroutine works under, and what is left of it. *)
Record thread := mkThread { t_ctx : nat; t_prog : prog unit }.

(** A context is given by itself and its ancestors; it is done when one of them was
    cancelled. *)
Record state := mkState {
  chans : list chan;
  ctxs : list (list nat);
  cancelled : list nat;
  client : option nat;
  threads : list thread;
  delivered : list (nat * ChanMsg);
  crashed : option string }.

Definition set_chans (x : list chan) (s : state) : state :=
  mkState x (ctxs s) (cancelled s) (client s) (threads s) (delivered s) (crashed s).
Definition set_ctxs (x : list (list nat)) (s : state) : state :=
  mkState (chans s) x (cancelled s) (client s) (threads s) (delivered s) (crashed s).
Definition set_cancelled (x : list nat) (s : state) : state :=
  mkState (chans s) (ctxs s) x (client s) (threads s) (delivered s) (crashed s).
Definition set_client (x : option nat) (s : state) : state :=
  mkState (chans s) (ctxs s) (cancelled s) x (threads s) (delivered s) (crashed s).
Definition set_threads (x : list thread) (s : state) : state :=
  mkState (chans s) (ctxs s) (cancelled s) (client s) x (delivered s) (crashed s).
Definition set_delivered (x : list (nat * ChanMsg)) (s : state) : state :=
  mkState (chans s) (ctxs s) (cancelled s) (client s) (threads s) x (crashed s).
Definition set_crashed (x : option string) (s : state) : state :=
  mkState (chans s) (ctxs s) (cancelled s) (client s) (threads s) (delivered s) x.

Definition line (s : state) (c : nat) : list nat := default [] (ctxs s !! c).

Definition ctx_done (s : state) (c : nat) : bool :=
  existsb (fun a => bool_decide (a ∈ cancelled s)) (line s c).

(** [context.Canceled], what [ctx.Err()] returns. *)
Definition canceled_error : error := ErrVar (Sentinel "context.Canceled" "context canceled").

Definition ctx_err (s : state) (c : nat) : option error :=
  if ctx_done s c then Some canceled_error else None.

(** ** One call *)

(** The branch of a [select] that is taken: the communication (or the timer), the context,
    or the default. *)
Inductive branch := BComm | BDone | BDefault.

Inductive after (R : Type) := Goes (r : R) (s : state) | Crash (msg : string) | Stuck.
Arguments Goes {R} r s.
Arguments Crash {R} msg.
Arguments Stuck {R}.

Definition room (k : chan) : bool := Z.of_nat (length (c_buf k)) <? c_cap k.

(** The communication of a send: into the buffer, or to the environment when there is
    none. *)
Definition send {R} (s : state) (c : nat) (m : ChanMsg) (sent : R) : after R :=
  match chans s !! c with
  | None => Stuck
  | Some k =>
      if c_closed k then Crash "send on closed channel"
      else if room k
      then Goes sent (set_chans (<[c := mkChan (c_cap k) (c_buf k ++ [m]) false]> (chans s)) s)
      else if c_cap k =? 0
      then Goes sent (set_delivered (delivered s ++ [(c, m)]) s)
      else Stuck
  end.

(** The communication of a receive. *)
Definition receive {R} (s : state) (c : nat) (got : ChanMsg -> R) (closed : R) : after R :=
  match chans s !! c with
  | None => Stuck
  | Some k =>
      match c_buf k with
      | m :: buf => Goes (got m) (set_chans (<[c := mkChan (c_cap k) buf (c_closed k)]> (chans s)) s)
      | [] => if c_closed k then Goes closed s else Stuck
      end
  end.

(** The branch of the context. *)
Definition on_done {R} (s : state) (ctx : nat) (r : error -> R) : after R :=
  if ctx_done s ctx then Goes (r canceled_error) s else Stuck.

(** Whether no other branch of a non-blocking send is ready; a receiver on an unbuffered
    channel may or may not be waiting. *)
Definition not_ready (s : state) (ctx c : nat) : bool :=
  match chans s !! c with
  | None => negb (ctx_done s ctx)
  | Some k => negb (c_closed k) && negb (room k) && negb (ctx_done s ctx)
  end.

Section semantics.
(** The context and the program of the goroutine of a [go] statement executed under a
    context; the channels the environment reads and the contexts it may cancel. *)
Variable body : go_stmt -> nat -> thread.
Variables out held : nat -> bool.

(** A call of a goroutine that works under [ctx]; [ans] is the answer of the calls that
    leave the process. *)
Definition exec_call (s : state) (ctx : nat) (b : branch) (e : ext) : resp e -> after (resp e) :=
  match e return resp e -> after (resp e) with
  | ChanMake cap => fun _ =>
      Goes (length (chans s)) (set_chans (chans s ++ [mkChan cap [] false]) s)
  | ChanSend c m => fun _ =>
      match b with
      | BComm => send s c m Sent
      | BDone => on_done s ctx SendDone
      | BDefault => Stuck
      end
  | ChanTrySend c m => fun _ =>
      match b with
      | BComm => send s c m Sent
      | BDone => on_done s ctx SendDone
      | BDefault => if not_ready s ctx c then Goes SendFull s else Stuck
      end
  | ChanPush c m => fun _ => send s c m ()
  | ChanRecv c => fun _ =>
      match b with
      | BComm => receive s c Received Closed
      | BDone => on_done s ctx RecvDone
      | BDefault => Stuck
      end
  | ChanTake c => fun _ => receive s c Some None
  | ChanClose c => fun _ =>
      match chans s !! c with
      | None => Crash "close of nil channel"
      | Some k =>
          if c_closed k then Crash "close of closed channel"
          else Goes () (set_chans (<[c := mkChan (c_cap k) (c_buf k) true]> (chans s)) s)
      end
  | CtxWithCancel | CtxWithTimeout _ => fun _ =>      (* a deadline is left to [EnvCancel] *)
      Goes (length (ctxs s)) (set_ctxs (ctxs s ++ [length (ctxs s) :: line s ctx]) s)
  | CtxCancel c => fun _ => Goes () (set_cancelled (c :: cancelled s) s)
  | CtxWait c => fun _ => if ctx_done s c then Goes () s else Stuck
  | CtxErr => fun _ => Goes (ctx_err s ctx) s
  | CtxOrTimer _ => fun _ =>
      match b with
      | BComm => Goes None s
      | BDone => on_done s ctx Some
      | BDefault => Stuck
      end
  | ClientGet => fun _ => Goes (client s) s
  | ClientSet c => fun _ => Goes () (set_client c s)
  | Go g => fun _ => Goes () (set_threads (threads s ++ [body g ctx]) s)
  | _ => fun ans => Goes ans s
  end.

(** ** Steps *)

Inductive action :=
| Run (i : nat) (b : branch) (ans : forall e, resp e)
| EnvCancel (c : nat)
| EnvRecv (c : nat).

Definition set_prog (i : nat) (p : prog unit) (s : state) : state :=
  set_threads (alter (fun t => mkThread (t_ctx t) p) i (threads s)) s.

(** One step; [None] when the goroutine cannot go on.  Nothing happens after a crash. *)
Definition exec (a : action) (s : state) : option state :=
  match crashed s with
  | Some _ => None
  | None =>
      match a with
      | EnvCancel c => if held c then Some (set_cancelled (c :: cancelled s) s) else None
      | EnvRecv c =>
          if out c then
            match receive s c Some None with
            | Goes (Some m) s' => Some (set_delivered (delivered s' ++ [(c, m)]) s')
            | _ => None
            end
          else None
      | Run i b ans =>
          match threads s !! i with
          | None => None
          | Some t =>
              match t_prog t with
              | Call e k =>
                  match exec_call s (t_ctx t) b e (ans e) with
                  | Goes r s' => Some (set_prog i (k r) s')
                  | Crash msg => Some (set_crashed (Some msg) s)
                  | Stuck => None
                  end
              | Lock _ _ k | Unlock _ _ k => Some (set_prog i k s)
              | Halt (Panic msg) | Halt (Fatal msg) => Some (set_crashed (Some msg) s)
              | Halt _ | Ret _ => None
              end
          end
      end
  end.

Definition step (s s' : state) : Prop := exists a, exec a s = Some s'.

Definition reachable : relation state := rtc step.

Fixpoint exec_all (l : list action) (s : state) : option state :=
  match l with
  | [] => Some s
  | a :: l => exec a s ≫= exec_all l
  end.

Lemma exec_all_reachable l s s' : exec_all l s = Some s' -> reachable s s'.
Proof.
  revert s; induction l as [|a l IH]; intros s; cbn [exec_all].
  { intros [= <-]. apply rtc_refl. }
  destruct (exec a s) as [s1|] eqn:Ha; cbn; [|done].
  intros Hl. eapply rtc_l; [by exists a|by apply IH].
Qed.

(** An invariant of every execution. *)
Lemma reachable_invariant (I : state -> Prop) s s' :
  (forall a s s', I s -> exec a s = Some s' -> I s') -> reachable s s' -> I s -> I s'.
Proof.
  intros Hstep. induction 1 as [s|s s1 s2 [a Ha] _ IH]; [done|]. eauto.
Qed.
End semantics.

(** A program alone in its process, under the background context 0. *)
Definition started (p : prog unit) : state := mkState [] [[0%nat]] [] None [mkThread 0 p] [] None.
