(* ===== verification/ListWatchProtocol.v ===== *)
(** * ListWatchProtocol: what each goroutine of the list-watch does to the shared state

    The serving goroutine of [ListAndWatch], the goroutine of a watch and its monitor share
    channels, a context and the etcd client.  Each follows a protocol, a ledger of Ledger
    whose calls are permitted only in certain states: the serving goroutine closes the
    caller's channel and then [done], once each, after it has seen its context done and
    given up the client, and uses no nil client ([serving_follows]); a watch goroutine sends
    on its channel and closes it once ([watch_follows]); a monitor may send an error event
    ([monitor_follows]).  How they run together is in ListWatchRuntime. *)

From S2P Require Import Prelude Errors Effects Ledger Retry Metrics ListWatch.

Module ListWatchProtocol.
Import ListWatch.

(** What [ListAndWatch] hands to its caller: the channel 0, the channel [done] and the
    context of its stop function. *)
Definition out_ch : nat := 0.
Definition done_ch : nat := 1.
Definition watch_ctx : nat := 1.

(** ** The protocol of the serving goroutine *)

(** The client it works with, whether it has seen its context done, whether it has closed
    the caller's channel and [done], and the channel of a watch it has made but whose
    goroutine it has not started yet. *)
Record serving := mkServing {
  g_client : option nat;
  g_seen : bool;
  g_ch : bool;
  g_done : bool;
  g_fresh : option nat }.

(** What may be put on the caller's channel: well-formed events, and error events. *)
Definition reader_event (m : ChanMsg) : Prop :=
  validate (of_msg m) = None \/ exists errMsg, m = to_msg (error_event errMsg).

Definition permitted (g : serving) (e : ext) : Prop :=
  match e with
  | ChanSend c m | ChanTrySend c m => c = out_ch /\ g_ch g = false /\ reader_event m
  | ChanPush _ _ | ChanTake _ | CtxWait _ => False
  | ChanClose c =>
      g_client g = None /\ g_seen g = true /\ g_fresh g = None /\
      (c = out_ch /\ g_ch g = false \/ c = done_ch /\ g_ch g = true /\ g_done g = false)
  | ClientSet (Some _) => g_ch g = false
  | ChanMake _ => g_ch g = false /\ g_fresh g = None
  | Go (GoWatch c) => g_ch g = false /\ g_fresh g = Some c
  | Go (GoMonitor _ c) => c = out_ch
  | Go _ => False
  | _ => True
  end.

Definition answers (g : serving) (e : ext) : resp e -> Prop :=
  match e with
  | ClientGet => fun r => r = g_client g
  | ChanMake _ => fun c => c <> out_ch /\ c <> done_ch
  | _ => fun _ => True
  end.

Definition saw (b : bool) (g : serving) : serving :=
  mkServing (g_client g) (g_seen g || b) (g_ch g) (g_done g) (g_fresh g).

Definition update (e : ext) : resp e -> serving -> serving :=
  match e with
  | ClientSet c => fun _ g => mkServing c (g_seen g) (g_ch g) (g_done g) (g_fresh g)
  | CtxErr | CtxOrTimer _ => fun r g => saw (match r with Some _ => true | None => false end) g
  | ChanSend _ _ | ChanTrySend _ _ => fun r g =>
      saw (match r with SendDone _ => true | _ => false end) g
  | ChanRecv _ => fun r g => saw (match r with RecvDone _ => true | _ => false end) g
  | ChanClose c => fun _ g =>
      mkServing (g_client g) (g_seen g) (g_ch g || bool_decide (c = out_ch))
        (g_done g || bool_decide (c = done_ch)) (g_fresh g)
  | ChanMake _ => fun c g => mkServing (g_client g) (g_seen g) (g_ch g) (g_done g) (Some c)
  | Go (GoWatch _) => fun _ g => mkServing (g_client g) (g_seen g) (g_ch g) (g_done g) None
  | _ => fun _ g => g
  end.

#[local] Abbreviation follows := (obeys permitted answers update).

(** The goroutine ends after the cleanup, or at the bound of the model. *)
Definition served {A} (o : outcome A) (g : serving) : Prop :=
  match o with
  | Val _ => g_ch g = true /\ g_done g = true
  | Halted h => h = NoFuel
  end.

(** Nothing is closed and no channel waits for its goroutine. *)
Definition is_open (g : serving) : Prop := g_ch g = false /\ g_done g = false /\ g_fresh g = None.

(** Programs that keep it so and do not touch the client ([steady]); programs that keep it
    so ([calm]). *)
Definition steady_post {A} (g : serving) (o : outcome A) (g' : serving) : Prop :=
  (exists a, o = Val a) /\ is_open g' /\ g_client g' = g_client g /\
  (g_seen g = true -> g_seen g' = true).

Definition steady {A} (p : prog A) : Prop := forall g, is_open g -> follows (steady_post g) p g.

Definition calm_post {A} (o : outcome A) (g' : serving) : Prop :=
  ((exists a, o = Val a) \/ o = Halted NoFuel) /\ is_open g'.

Lemma steady_ret {A} (a : A) : steady (Ret a).
Proof. intros g Hg. by split; [eexists|]. Qed.

Lemma steady_bind {A B} (p : prog A) (f : A -> prog B) :
  steady p -> (forall a, steady (f a)) -> steady (p ≫= f).
Proof.
  intros Hp Hf g Hg. apply obeys_bind. eapply obeys_mono; [by apply Hp|].
  intros o g1 ([a ->] & Ho & Hc & Hs). cbn [obeys_then].
  eapply obeys_mono; [by apply Hf|]. intros o g2 (Hv & Ho2 & Hc2 & Hs2).
  split; [done|]. split; [done|]. split; [by rewrite Hc2|auto].
Qed.

(** Use a steady program in front of something else. *)
Lemma steady_then {A B} (Q : outcome B -> serving -> Prop) (p : prog A) f g :
  steady p -> is_open g ->
  (forall a g', is_open g' -> g_client g' = g_client g ->
     (g_seen g = true -> g_seen g' = true) -> follows Q (f a) g') ->
  follows Q (p ≫= f) g.
Proof.
  intros Hp Hg Hf. apply obeys_bind. eapply obeys_mono; [by apply Hp|].
  intros o g1 ([a ->] & Ho & Hc & Hs). by apply Hf.
Qed.

(** The calls a steady program may make. *)
Definition steady_call (e : ext) : Prop :=
  match e with
  | ChanSend c m | ChanTrySend c m => c = out_ch /\ reader_event m
  | ChanPush _ _ | ChanTake _ | CtxWait _ | ChanClose _ | ClientSet _ | ChanMake _ => False
  | Go (GoMonitor _ c) => c = out_ch
  | Go _ => False
  | _ => True
  end.

Lemma steady_of_call e : steady_call e -> steady (call e).
Proof.
  intros He g (H1 & H2 & H3). apply obeys_call. split.
  - destruct e; cbn in *; try done; try (by destruct He). by destruct g0.
  - intros r _. split; [by eexists|]. unfold is_open. destruct e; cbn in *; try done;
      try (repeat split; try done; intros ->; done). by destruct g0.
Qed.

Definition calm {A} (p : prog A) : Prop := forall g, is_open g -> follows calm_post p g.

Lemma calm_of_steady {A} (p : prog A) : steady p -> calm p.
Proof.
  intros Hp g Hg. eapply obeys_mono; [by apply Hp|]. intros o g' (Hv & Ho & _). by split; [left|].
Qed.

Lemma calm_bind {A B} (p : prog A) (f : A -> prog B) :
  calm p -> (forall a, calm (f a)) -> calm (p ≫= f).
Proof.
  intros Hp Hf g Hg. apply obeys_bind. eapply obeys_mono; [by apply Hp|].
  intros o g1 [[[a ->]| ->] Ho]; cbn [obeys_then]; [by apply Hf|]. by split; [right|].
Qed.

(** The bound of the model. *)
Lemma calm_bound {A} : calm (Halt (A:=A) NoFuel).
Proof. intros g Hg. by split; [right|]. Qed.

(** A deferred call after a calm body. *)
Lemma calm_deferred {A} (d : prog unit) (p : prog A) : steady d -> calm p -> calm (deferred d p).
Proof.
  intros Hd Hp g Hg. apply obeys_deferred. eapply obeys_mono; [by apply Hp|].
  intros o g1 [[[a ->]| ->] Ho]; cbn [obeys_after]; [|by split; [right|]].
  apply (calm_of_steady (d ≫= fun _ => Ret a)); [|done].
  apply steady_bind; [done|]. intros _. apply steady_ret.
Qed.

Create HintDb steady.
#[local] Hint Resolve steady_ret steady_bind steady_of_call calm_of_steady : steady.

(** Follow a program through its steady parts. *)
Ltac steady :=
  repeat first
    [ progress intros
    | lazymatch goal with
      | |- steady (mret _) => apply steady_ret
      | |- steady (Ret _) => apply steady_ret
      | |- steady (_ ≫= _) => apply steady_bind
      | |- steady (call _) =>
          apply steady_of_call; first
            [exact I|reflexivity|split; [reflexivity|right; eexists; reflexivity]]
      | |- steady (if ?b then _ else _) => destruct b
      | |- steady (match ?x with _ => _ end) => destruct x
      end
    | solve [eauto with steady] ].

Section parts.
Variable lw : ListWatch.
Hypothesis Hlog : logger lw = true.

Lemma steady_log_error msg : steady (log_error lw msg).
Proof. unfold log_error. rewrite Hlog. steady. Qed.

Lemma steady_log_info msg : steady (log_info lw msg).
Proof. unfold log_info. rewrite Hlog. steady. Qed.

Lemma steady_inc m l : steady (inc m l).
Proof. unfold inc. steady. Qed.
Lemma steady_gauge m v : steady (set_gauge m v).
Proof. unfold set_gauge. steady. Qed.
Lemma steady_observe m : steady (observe m).
Proof. unfold observe. steady. Qed.

Lemma steady_retries op n d : steady op -> steady (Retry.retries_loop op n d).
Proof. intros Hop. induction n as [|n IH]; cbn [Retry.retries_loop]; steady. Qed.

Lemma steady_error msg : steady (tryToSendErrorEvent out_ch msg).
Proof.
  apply steady_bind; [|steady]. apply steady_retries. unfold try_send. steady.
Qed.

#[local] Hint Resolve steady_log_error steady_log_info steady_inc steady_gauge steady_observe
  steady_error : steady.

Lemma steady_send event : steady (sendEvent lw out_ch event).
Proof.
  unfold sendEvent. destruct (validate event) eqn:Hv; [steady|].
  apply steady_bind; [|steady]. apply steady_of_call. split; [done|]. left. by destruct event.
Qed.
#[local] Hint Resolve steady_send : steady.

Lemma steady_send_all events : steady (send_all lw out_ch events).
Proof. induction events as [|e events IH]; cbn [send_all]; steady. Qed.
#[local] Hint Resolve steady_send_all : steady.

(** After closing, the client is gone. *)
Definition closed_post (g : serving) (o : outcome unit) (g' : serving) : Prop :=
  o = Val () /\ is_open g' /\ g_client g' = None /\ (g_seen g = true -> g_seen g' = true).

Lemma close_follows g : is_open g -> follows (closed_post g) closeEtcdClient g.
Proof.
  intros (H1 & H2 & H3). unfold closeEtcdClient. apply obeys_bind, obeys_call. split; [exact I|].
  intros [cli|]; cbn [answers]; intros Hc; cbn [obeys_then update].
  - apply obeys_bind, obeys_call. split; [exact I|]. intros r _. cbn [obeys_then update].
    apply obeys_call. split; [exact I|]. intros [] _. by repeat split.
  - by repeat split.
Qed.

Lemma calm_close {A} (f : unit -> prog A) : calm (f ()) -> calm (closeEtcdClient ≫= f).
Proof.
  intros Hf g Hg. apply obeys_bind. eapply obeys_mono; [by apply close_follows|].
  intros o g' (-> & Ho & _). by apply Hf.
Qed.

Lemma calm_close_attempts n : calm (close_attempts n out_ch).
Proof.
  induction n as [|n IH]; cbn [close_attempts].
  { apply calm_close. apply calm_of_steady, steady_ret. }
  apply calm_bind; [apply calm_of_steady; steady|]. intros [].
  - apply calm_close. apply calm_of_steady, steady_ret.
  - apply calm_of_steady, steady_ret.
  - apply calm_bind; [apply calm_of_steady; steady|done].
Qed.

Lemma calm_forward fuel watchCtx watchCh : calm (forward_loop lw fuel watchCtx watchCh out_ch).
Proof.
  assert (Hclosed : calm (_ ← call (CtxCancel watchCtx); handleWatchChannelClose lw out_ch)).
  { apply calm_bind; [apply calm_of_steady; steady|intros _]. unfold handleWatchChannelClose.
    apply calm_bind; [apply calm_of_steady; steady|intros _]. apply calm_close_attempts. }
  induction fuel as [|fuel IH]; cbn [forward_loop];
    (apply calm_bind; [apply calm_of_steady; steady|]); intros [m| |err];
    try exact Hclosed; try (solve [apply calm_of_steady; steady]).
  - apply calm_bound.
  - apply calm_bind; [apply calm_of_steady; steady|]. intros [[]|e]; [done|].
    apply calm_of_steady, steady_ret.
Qed.

(** With a client: no nil dereference. *)
Lemma with_client_follows {A} (Q : outcome A -> serving -> Prop) (p : prog A) g :
  g_client g <> None -> follows Q p g -> follows Q (with_client p) g.
Proof.
  intros Hc Hp. unfold with_client. apply obeys_bind, obeys_call. split; [exact I|].
  intros [cli|] Ha; cbn [answers obeys_then update] in *; [done|]. by rewrite <- Ha in Hc.
Qed.

Lemma ensureConnected_follows g :
  is_open g ->
  follows (fun o g' => is_open g' /\ exists r, o = Val r /\
             (is_Ok r = true -> g_client g' <> None)) (ensureConnected lw out_ch) g.
Proof.
  intros Hg. unfold ensureConnected. apply obeys_bind, obeys_call. split; [exact I|].
  intros [cli|] Ha; cbn [answers obeys_then update] in *.
  { split; [done|]. eexists. split; [done|]. by rewrite <- Ha. }
  apply obeys_bind, obeys_call. split; [exact I|].
  destruct Hg as (H1 & H2 & H3). intros [cli|err] _; cbn [obeys_then update].
  - apply obeys_bind, obeys_call. split; [done|]. intros [] _. cbn [obeys_then update].
    apply obeys_bind, obeys_call. split; [exact I|]. intros [] _. cbn [obeys_then update].
    split; [done|]. by eexists.
  - assert (Hg : is_open g) by done.
    apply steady_then; [steady|done|]. intros _ g1 Hg1 _ _.
    apply steady_then; [steady|done|]. intros _ g2 Hg2 _ _.
    apply steady_then; [steady|done|]. intros _ g3 Hg3 _ _.
    apply steady_then; [steady|done|]. intros _ g4 Hg4 _ _.
    split; [done|]. by eexists.
Qed.

(** A list: the events, with the client still there, or an error. *)
Lemma listAndSendExisting_follows g :
  is_open g -> g_client g <> None ->
  follows (fun o g' => is_open g' /\ exists r, o = Val r /\
             (is_Ok r = true -> g_client g' <> None)) (listAndSendExisting lw out_ch) g.
Proof.
  intros Hg Hc. unfold listAndSendExisting. apply obeys_bind.
  apply (obeys_mono _ _ _ (fun o g' => exists r, o = Val r /\ g' = g)).
  { apply with_client_follows; [done|]. apply obeys_bind, obeys_call. split; [exact I|].
    intros [resp|err] _; cbn [obeys_then update]; by eexists. }
  intros o g1 (r & -> & ->). cbn [obeys_then].
  apply steady_then; [steady|done|]. intros _ g1 Hg1 Hc1 _. rewrite <- Hc1 in Hc.
  destruct r as [events|err].
  - eapply obeys_mono; [by apply steady_send_all|].
    intros o g2 ([a ->] & Ho & Hc2 & _). split; [done|]. exists a. split; [done|]. by rewrite Hc2.
  - apply steady_then; [steady|done|]. intros _ g2 Hg2 _ _.
    apply steady_then; [steady|done|]. intros _ g3 Hg3 _ _.
    apply obeys_bind. eapply obeys_mono; [by apply close_follows|].
    intros o g4 (-> & Hg4 & _). cbn [obeys_then].
    apply steady_then; [steady|done|]. intros _ g5 Hg5 _ _. split; [done|]. by eexists.
Qed.

Lemma steady_watchCancel : steady watchCancel.
Proof. unfold watchCancel. steady. Qed.
#[local] Hint Resolve steady_watchCancel : steady.

(** Opening a watch with a client: its goroutine gets the channel that was made for it. *)
Lemma Watch_follows g :
  is_open g -> g_client g <> None -> follows calm_post (Watch lw) g.
Proof.
  intros Hg Hc. unfold Watch. apply obeys_deferred.
  apply (obeys_mono _ _ _ (fun o g' => (exists r, o = Val r) /\ is_open g')).
  - apply with_client_follows; [done|]. apply obeys_bind, obeys_call. split; [exact I|].
    intros [resp|err] _; cbn [obeys_then update].
    + pose proof Hg as (H1 & H2 & H3). apply obeys_bind, obeys_call. split; [done|].
      intros c [Hc1 Hc2]. cbn [obeys_then update].
      apply obeys_bind, obeys_call. split; [exact I|]. intros [] _. cbn [obeys_then update].
      apply obeys_bind, obeys_call. split; [done|]. intros [] _. cbn [obeys_then update].
      split; [by eexists|]. by repeat split.
    + apply steady_then; [steady|done|]. intros _ g1 Hg1 _ _. split; [by eexists|done].
  - intros o g1 [[r ->] Hg1]. cbn [obeys_after].
    apply (calm_of_steady (observe _ ≫= fun _ => Ret r)); [steady|done].
Qed.

Lemma watchAndForward_follows fuel g :
  is_open g -> g_client g <> None ->
  follows calm_post (watchAndForwardEvents lw fuel out_ch) g.
Proof.
  intros Hg Hc. unfold watchAndForwardEvents. apply obeys_bind.
  eapply obeys_mono; [by apply Watch_follows|].
  intros o g1 [[[r ->]| ->] Hg1]; cbn [obeys_then]; [|by split; [right|]].
  destruct r as [watchCh|err].
  - apply calm_deferred; [steady| |done].
    apply calm_bind; [apply calm_of_steady; steady|intros watchCtx].
    apply calm_deferred; [steady|].
    apply calm_bind; [apply calm_of_steady; steady|intros _]. apply calm_forward.
  - apply steady_then; [steady|done|]. intros _ g2 Hg2 _ _.
    apply steady_then; [steady|done|]. intros _ g3 Hg3 _ _.
    apply calm_close; [|done]. apply calm_of_steady, steady_ret.
Qed.

Lemma calm_once fuel : calm (list_watch_once lw fuel out_ch).
Proof.
  intros g Hg. unfold list_watch_once. apply obeys_bind.
  eapply obeys_mono; [by apply ensureConnected_follows|].
  intros o g1 (Hg1 & r & -> & Hr). cbn [obeys_then].
  destruct r as [[]|e]; [|by split; [left; eexists|]].
  apply obeys_bind. eapply obeys_mono; [apply listAndSendExisting_follows; auto|].
  intros o g2 (Hg2 & r & -> & Hr2). cbn [obeys_then].
  destruct r as [[]|e]; [|by split; [left; eexists|]].
  apply watchAndForward_follows; auto.
Qed.

Lemma calm_backoff op fuel o d : calm op -> calm (Retry.backoff_loop op fuel o d).
Proof.
  intros Hop. revert d; induction fuel as [|fuel IH]; intros d; cbn [Retry.backoff_loop];
    (apply calm_bind; [done|]); (intros [[]|e]; [apply calm_of_steady; steady|]);
    (apply calm_bind; [apply calm_of_steady; steady|]);
    (intros [e'|]; [apply calm_of_steady; steady|]); [apply calm_bound|apply IH].
Qed.

(** The loop returns only when it has seen its context done. *)
Lemma main_follows fuel g :
  is_open g ->
  follows (fun o g' => is_open g' /\ (o = Val () /\ g_seen g' = true \/ o = Halted NoFuel))
    (main_loop lw fuel out_ch) g.
Proof.
  revert g; induction fuel as [|fuel IH]; intros g Hg; cbn [main_loop];
    (apply obeys_bind, obeys_call; split; [exact I|]);
    (intros [e|] _; cbn [obeys_then update];
      [split; [by destruct Hg as (?&?&?)|]; left; split; [done|]; cbn; apply orb_true_r|]).
  { split; [by destruct Hg as (?&?&?)|by right]. }
  apply obeys_bind. eapply obeys_mono.
  { apply calm_backoff; [apply calm_once|]. by destruct Hg as (?&?&?). }
  intros o g1 [[[r ->]| ->] Hg1]; cbn [obeys_then]; [|split; [done|by right]].
  apply steady_then; [steady|done|]. intros _ g2 Hg2 _ _. by apply IH.
Qed.

Lemma cleanup_follows g :
  is_open g -> g_seen g = true -> follows served (handleCleanup lw out_ch done_ch) g.
Proof.
  intros Hg Hs. unfold handleCleanup. apply obeys_bind.
  eapply obeys_mono; [by apply close_follows|]. intros o g1 (-> & Hg1 & Hc1 & Hs1).
  cbn [obeys_then]. apply steady_then; [steady|done|]. intros _ g2 Hg2 Hc2 Hs2.
  apply steady_then; [steady|done|]. intros err g3 Hg3 Hc3 Hs3.
  apply steady_then; [destruct err; steady|done|]. intros _ g4 (H1 & H2 & H3) Hc4 Hs4.
  assert (Hc : g_client g4 = None) by congruence. assert (Hseen : g_seen g4 = true) by auto.
  apply obeys_bind, obeys_call. split; [split_and!; by auto|]. intros [] _.
  cbn [obeys_then].
  apply obeys_bind, obeys_call. split.
  { cbn. rewrite H1. split_and!; try done. right. by rewrite H2. }
  intros [] _.  cbn [obeys_then]. unfold log_info. rewrite Hlog. apply obeys_call. split; [exact I|].
  intros [] _. cbn. by rewrite H1, H2.
Qed.

Lemma serving_follows fuel g :
  is_open g -> follows served (runListWatchLoop lw fuel out_ch done_ch) g.
Proof.
  intros Hg. apply obeys_deferred. eapply obeys_mono; [by apply main_follows|].
  intros o g1 (Hg1 & [[-> Hs]| ->]); cbn [obeys_after]; [|done].
  apply obeys_bind. eapply obeys_mono; [by apply cleanup_follows|].
  by intros [[]|h] g2 Ho.
Qed.
End parts.

(** ** The protocols of the other goroutines *)

(** The goroutine of a watch sends on its channel and closes it once. *)
Definition watcher_permitted (c : nat) (closed : bool) (e : ext) : Prop :=
  match e with
  | ChanPush c' _ | ChanClose c' => c' = c /\ closed = false
  | WatchNext _ | Metric _ => True
  | _ => False
  end.

Definition watcher_update (e : ext) : resp e -> bool -> bool :=
  match e with ChanClose _ => fun _ _ => true | _ => fun _ b => b end.

Definition watched (o : outcome unit) (closed : bool) : Prop :=
  match o with Val _ => closed = true | Halted h => h = NoFuel end.

#[local] Abbreviation watches c :=
  (obeys (watcher_permitted c) (fun _ _ _ => True) watcher_update).

Lemma push_all_follows lw c events :
  watches c (fun o b => o = Val () /\ b = false) (push_all lw c events) false.
Proof.
  induction events as [|e events IH]; cbn [push_all]; [done|]. cbv zeta.
  apply obeys_bind, obeys_call. split; [done|]. intros [] _. cbn [obeys_then].
  apply obeys_bind, obeys_call. split; [exact I|]. by intros [] _.
Qed.

Lemma watch_follows lw fuel c : watches c watched (watch_goroutine lw fuel c) false.
Proof.
  apply obeys_deferred. apply (obeys_mono _ _ _ (fun o b => (o = Val () \/ o = Halted NoFuel) /\
    b = false)).
  - induction fuel as [|fuel IH]; cbn [watch_loop]; [by split; [right|]|].
    apply obeys_bind, obeys_call. split; [exact I|]. intros [r| |e] _; cbn [obeys_then];
      [|by split; [left|]..].
    destruct (wr_err r) as [err|].
    + apply obeys_bind, obeys_call. split; [exact I|]. intros [] _. cbn [obeys_then].
      apply obeys_call. split; [done|]. intros [] _. by split; [left|].
    + apply obeys_bind. eapply obeys_mono; [apply push_all_follows|]. by intros o b [-> ->].
  - intros o b [[-> | ->] ->]; cbn [obeys_after]; [|done].
    apply obeys_bind, obeys_call. split; [done|]. by intros [] _.
Qed.

(** The monitor waits for its context and may send an error event. *)
Definition monitor_permitted (_ : unit) (e : ext) : Prop :=
  match e with
  | ChanTrySend c m => c = out_ch /\ reader_event m
  | CtxWait _ | CtxErr | CtxOrTimer _ => True
  | _ => False
  end.

#[local] Abbreviation monitors :=
  (obeys monitor_permitted (fun _ _ _ => True) (fun _ _ g => g)).

Lemma monitor_error msg : monitors (fun o _ => exists b, o = Val b) (tryToSendErrorEvent out_ch msg) ().
Proof.
  apply obeys_bind. apply (obeys_mono _ _ _ (fun o _ => exists r, o = Val r)).
  2: { intros o [] [r ->]. by eexists. }
  unfold Retry.WithRetries. generalize (Z.to_nat defaultErrorRetryAttempts) as n.
  induction n as [|n IH]; cbn [Retry.retries_loop]; [by eexists|].
  apply obeys_bind. unfold try_send. apply obeys_bind, obeys_call.
  split; [split; [done|right; by eexists]|].
  assert (Hrest : forall err, monitors (fun o _ => exists r, o = Val r)
    (if (n =? 0)%nat then mret (Err err) else
       done ← call (CtxOrTimer defaultErrorRetryDelay);
       match done with
       | Some ctx_err => mret (Err ctx_err)
       | None => Retry.retries_loop (try_send out_ch (error_event msg)) n defaultErrorRetryDelay
       end) ()).
  { intros err. destruct (n =? 0)%nat; [by eexists|].
    apply obeys_bind, obeys_call. split; [exact I|]. intros [e|] _; cbn [obeys_then]; [by eexists|done]. }
  intros [|err|] _; cbn [obeys_then]; [by eexists|apply Hrest..].
Qed.

Lemma monitor_follows watchCtx : monitors (fun o _ => o = Val ()) (monitor_goroutine watchCtx out_ch) ().
Proof.
  unfold monitor_goroutine. apply obeys_bind, obeys_call. split; [exact I|]. intros [] _.
  cbn [obeys_then]. apply obeys_bind, obeys_call. split; [exact I|].
  intros [e|] _; cbn [obeys_then]; [done|].
  apply obeys_bind. eapply obeys_mono; [apply monitor_error|]. by intros o [] [b ->].
Qed.
End ListWatchProtocol.
