(* ===== verification/ListWatchRuntime.v ===== *)
(** * ListWatchRuntime: the goroutines of the list-watch together

    [ListAndWatch] starts a goroutine that serves the caller's channel; every watch it opens
    starts a goroutine that feeds it and one that monitors it.  Here they run together under
    GoRuntime, interleaved in every way, with etcd and the caller answering anything at any
    moment.  From the protocols of ListWatchProtocol:
    - when the stop function returns, everything is cleaned up ([stop_cleans_up]), and it can
      always return ([stop_returns]);
    - the only way the process can crash is a send on the closed channel by the monitor
      ([only_monitor_crashes]), and that does happen ([monitor_can_crash]);
    - the caller receives only well-formed events and error events
      ([caller_receives_events]);
    - a watch goroutine can stay behind for ever ([watch_goroutine_leaks]). *)

From stdpp Require Import relations.
From S2P Require Import Prelude Errors Effects Reference Ledger Retry Metrics ListWatch GoRuntime.
From S2P Require Import ListWatchProtocol.

Module ListWatchRuntime.
Import ListWatch ListWatchProtocol.

#[local] Abbreviation follows := (obeys permitted answers update).
#[local] Abbreviation watches c :=
  (obeys (watcher_permitted c) (fun _ _ _ => True) watcher_update).
#[local] Abbreviation monitors :=
  (obeys monitor_permitted (fun _ _ _ => True) (fun _ _ g => g)).

(** ** The process *)

(** The goroutine of a [go] statement of the list-watch; [fuel] bounds its loops. *)
Definition body (lw : ListWatch) (fuel : nat) (g : go_stmt) (ctx : nat) : thread :=
  match g with
  | GoListWatch watchCtx ch done => mkThread watchCtx (runListWatchLoop lw fuel ch done)
  | GoWatch ch => mkThread ctx (watch_goroutine lw fuel ch)
  | GoMonitor watchCtx ch => mkThread ctx (monitor_goroutine watchCtx ch)
  | _ => mkThread ctx (Ret ())
  end.

Definition caller_reads (c : nat) : bool := (c =? out_ch)%nat.
Definition caller_cancels (c : nat) : bool := (c <=? watch_ctx)%nat.

#[local] Abbreviation lw_reachable lw fuel :=
  (reachable (body lw fuel) caller_reads caller_cancels).

(** The process after [NewListWatch] and [ListAndWatch]. *)
Definition launched (lw : ListWatch) (fuel cli : nat) : state :=
  mkState [mkChan (EventChannelBuffer (opts lw)) [] false; mkChan 0 [] false]
    [[0%nat]; [1; 0]%nat] [] (Some cli)
    [mkThread 0 (Ret ()); mkThread watch_ctx (runListWatchLoop lw fuel out_ch done_ch)] [] None.

(** Answers that stand for no particular outside. *)
Definition any_answer : forall e, resp e := fun e =>
  (Reference.ref_handle e Reference.empty_world).1.

(** It is the state in which [ListAndWatch] returns. *)
Lemma launched_by_ListAndWatch lw fuel cli :
  0 <= EventChannelBuffer (opts lw) ->
  exec_all (body lw fuel) caller_reads caller_cancels
    (replicate 4 (Run 0 BComm any_answer))
    (set_client (Some cli) (started (_ ← ListAndWatch lw; mret ()))) =
  Some (launched lw fuel cli).
Proof.
  intros Hcap. unfold ListAndWatch. rewrite (proj2 (Z.ltb_ge _ _)) by done. reflexivity.
Qed.

(** ** The invariant of the process *)

(** The part a goroutine plays, and the channels only it may close. *)
Inductive role := Server (fresh : option nat) | Watcher (c : nat) | Monitor | Caller.

Definition owned (r : role) : list nat :=
  match r with
  | Server fresh => out_ch :: done_ch :: option_list fresh
  | Watcher c => [c]
  | _ => []
  end.

(** Whether a channel is closed; [None] when there is no such channel. *)
Definition closed_in (s : state) (c : nat) : option bool := c_closed <$> chans s !! c.

(** What the protocol remembers is true of the state. *)
Record matches (s : state) (fresh : option nat) (g : serving) : Prop := {
  m_client : g_client g = client s;
  m_ch : closed_in s out_ch = Some (g_ch g);
  m_done : closed_in s done_ch = Some (g_done g);
  m_fresh : g_fresh g = fresh;
  m_new : forall c, fresh = Some c -> closed_in s c = Some false;
  m_seen : g_seen g = true -> ctx_done s watch_ctx = true;
  m_end : g_ch g = true -> g_client g = None /\ g_seen g = true /\ g_fresh g = None;
  m_last : g_done g = true -> g_ch g = true }.

Definition role_ok (s : state) (r : role) (t : thread) : Prop :=
  match r with
  | Server fresh => t_ctx t = watch_ctx /\ exists g, follows served (t_prog t) g /\ matches s fresh g
  | Watcher c => exists b, closed_in s c = Some b /\ watches c watched (t_prog t) b
  | Monitor => monitors (fun o _ => o = Val ()) (t_prog t) ()
  | Caller => t_prog t = Ret ()
  end.

(** What is on the caller's channel, or was read from it. *)
Definition messages_ok (s : state) : Prop :=
  (forall k, chans s !! out_ch = Some k ->
     Forall reader_event (c_buf k) /\ Z.of_nat (length (c_buf k)) <= Z.max 0 (c_cap k)) /\
  Forall (fun cm => cm.1 = out_ch -> reader_event cm.2) (delivered s).

Definition crash_ok (s : state) : Prop :=
  match crashed s with
  | None => True
  | Some msg => msg = "send on closed channel" /\ closed_in s out_ch = Some true
  end.

Definition inv (s : state) : Prop :=
  messages_ok s /\ crash_ok s /\
  exists roles, Forall2 (role_ok s) roles (threads s) /\ NoDup (roles ≫= owned) /\
    exists fresh, roles !! 1%nat = Some (Server fresh).

(** *** Frames *)

(** A change that concerns nobody but the owner of the channels [own]. *)
Definition evolves (own : list nat) (s s' : state) : Prop :=
  (forall c b, c ∉ own -> closed_in s c = Some b -> closed_in s' c = Some b) /\
  (out_ch ∈ own \/ client s' = client s) /\
  (forall c, ctx_done s c = true -> ctx_done s' c = true).

Lemma role_frame own s s' r t :
  evolves own s s' -> (forall c, c ∈ owned r -> c ∉ own) -> role_ok s r t -> role_ok s' r t.
Proof.
  intros (Hcl & Hcli & Hctx) Hdis. destruct r as [fresh|c| |]; cbn [role_ok owned] in *; [| |done|done].
  - intros (Hc & g & Hf & [H1 H2 H3 H4 H5 H6 H7 H8]). split; [done|]. exists g. split; [done|].
    assert (Hout : out_ch ∉ own) by (apply Hdis; set_solver).
    assert (Hdone : done_ch ∉ own) by (apply Hdis; set_solver).
    destruct Hcli as [Hcli|Hcli]; [done|]. constructor; auto; [congruence|].
    intros c ->. apply Hcl; [|by apply H5]. apply Hdis. cbn. set_solver.
  - intros (b & Hb & Hw). exists b. split; [|done]. apply Hcl; [|done]. apply Hdis. set_solver.
Qed.

(** A change that closes nothing and leaves the client and the contexts. *)
Definition quiet (s s' : state) : Prop :=
  threads s' = threads s /\ client s' = client s /\ crashed s' = crashed s /\
  ctxs s' = ctxs s /\ cancelled s' = cancelled s /\ forall c, closed_in s' c = closed_in s c.

Lemma quiet_refl s : quiet s s.
Proof. by repeat split. Qed.

Lemma quiet_evolves own s s' : quiet s s' -> evolves own s s'.
Proof.
  intros (_ & Hcl & _ & Hx & Hd & Hc). split; [|split; [by right|]].
  - intros c b _. by rewrite Hc.
  - intros c. unfold ctx_done, line. by rewrite Hx, Hd.
Qed.

Lemma closed_in_insert s c k buf :
  chans s !! c = Some k ->
  forall c', closed_in (set_chans (<[c := mkChan (c_cap k) buf (c_closed k)]> (chans s)) s) c' =
             closed_in s c'.
Proof.
  intros Hk c'. unfold closed_in. cbn. destruct (decide (c' = c)) as [->|Hne].
  - rewrite list_lookup_insert_eq by by eapply lookup_lt_Some. by rewrite Hk.
  - by rewrite list_lookup_insert_ne.
Qed.

Lemma send_quiet {R} s c m (x r : R) s' : send s c m x = Goes r s' -> r = x /\ quiet s s'.
Proof.
  unfold send. destruct (chans s !! c) as [k|] eqn:Hk; [|done].
  destruct (c_closed k) eqn:Hcl; [done|]. destruct (room k); [|destruct (_ =? 0); [|done]];
    intros [= <- <-]; (split; [done|]); [|by repeat split].
  repeat split. intros c'. rewrite <- Hcl. by apply closed_in_insert.
Qed.

Lemma receive_quiet {R} s c (f : ChanMsg -> R) x r s' : receive s c f x = Goes r s' -> quiet s s'.
Proof.
  unfold receive. destruct (chans s !! c) as [k|] eqn:Hk; [|done].
  destruct (c_buf k) as [|m buf].
  - destruct (c_closed k); [|done]. intros [= <- <-]. apply quiet_refl.
  - intros [= <- <-]. repeat split. by apply closed_in_insert.
Qed.

Lemma messages_quiet s s' :
  chans s' = chans s -> delivered s' = delivered s -> messages_ok s -> messages_ok s'.
Proof. intros Hc Hd [H1 H2]. split; [by rewrite Hc|by rewrite Hd]. Qed.

Lemma messages_send {R} s c m (x r : R) s' :
  messages_ok s -> (c = out_ch -> reader_event m) -> send s c m x = Goes r s' -> messages_ok s'.
Proof.
  intros [Hb Hd] Hm. unfold send. destruct (chans s !! c) as [k|] eqn:Hk; [|done].
  destruct (c_closed k); [done|]. destruct (room k) eqn:Hroom.
  - intros [= <- <-]. split; [|done]. intros k'. cbn.
    destruct (decide (c = out_ch)) as [->|Hne]; [|rewrite list_lookup_insert_ne by done; apply Hb].
    rewrite list_lookup_insert_eq by by eapply lookup_lt_Some. intros [= <-]. cbn.
    destruct (Hb k Hk) as [Hbuf _]. split.
    + apply Forall_app. split; [done|]. apply Forall_singleton. auto.
    + unfold room in Hroom. rewrite length_app. cbn. lia.
  - destruct (_ =? 0); [|done]. intros [= <- <-]. split; [done|]. cbn.
    apply Forall_app. split; [done|]. by apply Forall_singleton.
Qed.

Lemma messages_receive {R} s c (f : ChanMsg -> R) x r s' :
  messages_ok s -> receive s c f x = Goes r s' ->
  messages_ok s' /\
  (delivered s' = delivered s /\ (r = x \/ exists m, r = f m /\ (c = out_ch -> reader_event m))).
Proof.
  intros [Hb Hd]. unfold receive. destruct (chans s !! c) as [k|] eqn:Hk; [|done].
  destruct (c_buf k) as [|m buf] eqn:Hbuf.
  { destruct (c_closed k); [|done]. intros [= <- <-]. split; [done|]. auto. }
  intros [= <- <-]. split; [split; [|done]|split; [done|right; exists m; split; [done|]]].
  - intros k'. cbn.
    destruct (decide (c = out_ch)) as [->|Hne]; [|rewrite list_lookup_insert_ne by done; apply Hb].
    rewrite list_lookup_insert_eq by by eapply lookup_lt_Some. intros [= <-]. cbn.
    destruct (Hb k Hk) as [H1 H2]. rewrite Hbuf in H1, H2. apply Forall_cons in H1 as [_ H1].
    split; [done|]. cbn in H2. lia.
  - intros ->. destruct (Hb k Hk) as [H1 _]. rewrite Hbuf in H1. by apply Forall_cons in H1 as [? _].
Qed.

(** *** One call of a goroutine *)

Section calls.
Variables (lw : ListWatch) (fuel : nat).

(** What a call leaves: the state, the role of the goroutine afterwards, and the goroutine
    it started, if any. *)
Definition goes_ok {R} (s : state) (r : role) (ctx : nat) (k : R -> prog unit) (x : R) (s' : state)
  : Prop :=
  messages_ok s' /\ crashed s' = crashed s /\ evolves (owned r) s s' /\
  exists r' extra ts, threads s' = threads s ++ ts /\ Forall2 (role_ok s') extra ts /\
    role_ok s' r' (mkThread ctx (k x)) /\
    ((exists f, r = Server f) -> exists f, r' = Server f) /\
    NoDup (owned r' ++ (extra ≫= owned)) /\
    forall c, c ∈ owned r' ++ (extra ≫= owned) -> c ∈ owned r \/ (length (chans s) <= c)%nat.

Definition after_ok {R} (s : state) (r : role) (ctx : nat) (k : R -> prog unit) (a : after R) : Prop :=
  match a with
  | Goes x s' => goes_ok s r ctx k x s'
  | Crash msg => msg = "send on closed channel" /\ closed_in s out_ch = Some true
  | Stuck => True
  end.

(** A call after which the goroutine plays the same part. *)
Lemma goes_same {R} s r ctx (k : R -> prog unit) x s' :
  NoDup (owned r) -> quiet s s' -> messages_ok s' -> role_ok s' r (mkThread ctx (k x)) ->
  goes_ok s r ctx k x s'.
Proof.
  intros Hnd Hq Hm Hr. split; [done|]. split; [by apply Hq|]. split; [by apply quiet_evolves|].
  exists r, [], []. destruct Hq as (Ht & _). cbn. rewrite !app_nil_r.
  split_and!; [done|by constructor|done|done|done|auto].
Qed.

Lemma monitor_call s ctx b e k a :
  messages_ok s -> role_ok s Monitor (mkThread ctx (Call e k)) ->
  after_ok s Monitor ctx k (exec_call (body lw fuel) s ctx b e a).
Proof.
  intros Hm [He Hk]. cbn in He.
  assert (Hsame : forall s', quiet s s' -> messages_ok s' -> forall x, goes_ok s Monitor ctx k x s').
  { intros s' Hq Hm' x. apply goes_same; [by constructor|done|done|]. by apply Hk. }
  destruct e; cbn in He |- *; try done.
  - apply Hsame; [apply quiet_refl|done].
  - destruct b; cbn; [apply Hsame; [apply quiet_refl|done]| |done]. unfold on_done.
    destruct (ctx_done s ctx); [apply Hsame; [apply quiet_refl|done]|done].
  - destruct He as [-> He]. destruct b.
    + destruct (send s out_ch m Sent) as [x s'|msg|] eqn:Hs; [| |done].
      * apply Hsame; [by eapply send_quiet|by eapply messages_send].
      * unfold send in Hs. destruct (chans s !! out_ch) as [kc|] eqn:Hkc; [|done].
        destruct (c_closed kc) eqn:Hcl; [|by repeat case_match]. injection Hs as <-.
        split; [done|]. unfold closed_in. rewrite Hkc. cbn. by rewrite Hcl.
    + unfold on_done. destruct (ctx_done s ctx); [apply Hsame; [apply quiet_refl|done]|done].
    + destruct (not_ready s ctx out_ch); [apply Hsame; [apply quiet_refl|done]|done].
  - destruct (ctx_done s c); [apply Hsame; [apply quiet_refl|done]|done].
Qed.

(** Closing a channel that is open. *)
Definition close (c : nat) (k : chan) (s : state) : state :=
  set_chans (<[c := mkChan (c_cap k) (c_buf k) true]> (chans s)) s.

Lemma closed_in_close s c k c' :
  chans s !! c = Some k -> closed_in (close c k s) c' = if decide (c' = c) then Some true else closed_in s c'.
Proof.
  intros Hk. unfold closed_in, close. cbn. destruct (decide (c' = c)) as [->|Hne].
  - by rewrite list_lookup_insert_eq by by eapply lookup_lt_Some.
  - by rewrite list_lookup_insert_ne.
Qed.

Lemma close_evolves s c k own :
  chans s !! c = Some k -> c ∈ own -> evolves own s (close c k s).
Proof.
  intros Hk Hc. split; [|split; [by right|done]]. intros c' b Hc' Hb.
  rewrite (closed_in_close s c k c' Hk). by destruct (decide (c' = c)) as [->|].
Qed.

Lemma close_messages s c k : chans s !! c = Some k -> messages_ok s -> messages_ok (close c k s).
Proof.
  intros Hk [Hb Hd]. split; [|done]. intros k'. cbn.
  destruct (decide (c = out_ch)) as [->|Hne]; [|rewrite list_lookup_insert_ne by done; apply Hb].
  rewrite list_lookup_insert_eq by by eapply lookup_lt_Some. intros [= <-]. exact (Hb k Hk).
Qed.

Lemma exec_close s ctx b c a k :
  chans s !! c = Some k -> c_closed k = false ->
  exec_call (body lw fuel) s ctx b (ChanClose c) a = Goes () (close c k s).
Proof. intros Hk Hcl. cbn. by rewrite Hk, Hcl. Qed.

Lemma closed_in_Some s c b : closed_in s c = Some b -> exists k, chans s !! c = Some k /\ c_closed k = b.
Proof. unfold closed_in. intros (k & Hk & ->)%fmap_Some. by exists k. Qed.

Lemma send_no_crash {R} s c m (x : R) msg : closed_in s c = Some false -> send s c m x <> Crash msg.
Proof.
  intros (k & Hk & Hcl)%closed_in_Some. unfold send. rewrite Hk, Hcl. by repeat case_match.
Qed.

Lemma watcher_call s c ctx b e k a :
  messages_ok s -> c <> out_ch -> role_ok s (Watcher c) (mkThread ctx (Call e k)) ->
  after_ok s (Watcher c) ctx k (exec_call (body lw fuel) s ctx b e a).
Proof.
  intros Hm Hne (cl & Hcl & He & Hk). cbn in He.
  assert (Hnd : NoDup (owned (Watcher c))) by apply NoDup_singleton.
  destruct e; try done.
  - apply goes_same; [done|apply quiet_refl|done|]. exists cl. split; [done|]. by apply Hk.
  - destruct He as [-> ->]. cbn [exec_call].
    destruct (send s c m ()) as [[] s'|msg|] eqn:Hs; [| |done].
    + pose proof (send_quiet _ _ _ _ _ _ Hs) as [_ Hq].
      apply goes_same; [done|done|by eapply messages_send|]. exists false.
      split; [|by apply (Hk ())]. by rewrite (proj2 (proj2 (proj2 (proj2 (proj2 Hq))))).
    + by apply send_no_crash in Hs.
  - destruct He as [-> ->]. apply closed_in_Some in Hcl as (kc & Hkc & Hcl).
    rewrite (exec_close s ctx b c a kc Hkc Hcl). split; [by apply close_messages|]. split; [done|].
    split; [apply close_evolves; [done|]; apply list_elem_of_singleton; done|].
    exists (Watcher c), [], []. cbn [owned]. rewrite !app_nil_r.
    split_and!; [done|by constructor| |by intros [? ?]|done|auto].
    exists true. split; [|by apply (Hk ())]. rewrite (closed_in_close s c kc c Hkc).
    by rewrite decide_True.
  - apply goes_same; [done|apply quiet_refl|done|]. exists cl. split; [done|]. by apply Hk.
Qed.

(** The serving goroutine. *)

Lemma matches_quiet s s' f g : quiet s s' -> matches s f g -> matches s' f g.
Proof.
  intros (_ & Hcl & _ & Hx & Hd & Hc) [H1 H2 H3 H4 H5 H6 H7 H8].
  constructor; auto; rewrite ?Hc; try congruence; auto.
  - intros c ->. rewrite Hc. by apply H5.
  - intros Hs. unfold ctx_done, line. rewrite Hx, Hd. by apply H6.
Qed.

Lemma matches_saw s f g b :
  (b = true -> ctx_done s watch_ctx = true) -> matches s f g -> matches s f (saw b g).
Proof.
  intros Hb [H1 H2 H3 H4 H5 H6 H7 H8]. constructor; cbn; auto.
  - intros [?|?]%orb_true_iff; auto.
  - intros Hch. destruct (H7 Hch) as (? & -> & ?). auto.
Qed.

Lemma matches_cancel s f g c : matches s f g -> matches (set_cancelled (c :: cancelled s) s) f g.
Proof.
  intros [H1 H2 H3 H4 H5 H6 H7 H8]. constructor; auto. intros Hs. specialize (H6 Hs).
  unfold ctx_done in *. cbn. apply existsb_exists in H6 as (a & Ha & Hin). apply existsb_exists.
  exists a. split; [done|]. apply bool_decide_eq_true in Hin. apply bool_decide_eq_true. set_solver.
Qed.

(** Contexts stay done. *)
Lemma ctx_done_cancel s x c : ctx_done s c = true -> ctx_done (set_cancelled (x :: cancelled s) s) c = true.
Proof.
  unfold ctx_done. cbn. intros (a & Ha & Hin)%existsb_exists. apply existsb_exists.
  exists a. split; [done|]. apply bool_decide_eq_true in Hin. apply bool_decide_eq_true. set_solver.
Qed.

Lemma ctx_done_new s l c : ctx_done s c = true -> ctx_done (set_ctxs (ctxs s ++ [l]) s) c = true.
Proof.
  unfold ctx_done, line. cbn. destruct (ctxs s !! c) as [a|] eqn:Ha; [|done].
  by rewrite (lookup_app_l_Some _ _ _ _ Ha).
Qed.

Section server_calls.
Variables (s : state) (f : option nat) (g : serving) (ctx : nat).
Hypotheses (Hm : messages_ok s) (Hnd : NoDup (owned (Server f))) (Hctx : ctx = watch_ctx).
Hypothesis Hg : matches s f g.

(** A call after which the state is as before, up to buffers. *)
Lemma server_quiet {R} (k : R -> prog unit) x s' b :
  quiet s s' -> messages_ok s' -> (b = true -> ctx_done s watch_ctx = true) ->
  follows served (k x) (saw b g) -> goes_ok s (Server f) ctx k x s'.
Proof.
  intros Hq Hm' Hb Hk. apply goes_same; [done|done|done|]. split; [done|].
  exists (saw b g). split; [done|]. apply (matches_quiet s); [done|]. by apply matches_saw.
Qed.

Lemma saw_false : saw false g = g.
Proof. unfold saw. rewrite orb_false_r. by destruct g. Qed.

Lemma server_same {R} (k : R -> prog unit) x s' :
  quiet s s' -> messages_ok s' -> follows served (k x) g -> goes_ok s (Server f) ctx k x s'.
Proof. intros Hq Hm' Hk. apply (server_quiet k x s' false); [done..|]. by rewrite saw_false. Qed.

Lemma server_done {R} (k : R -> prog unit) (r : error -> R) :
  (forall e, follows served (k (r e)) (saw true g)) ->
  after_ok s (Server f) ctx k (on_done s ctx r).
Proof.
  intros Hk. unfold on_done. rewrite Hctx. destruct (ctx_done s watch_ctx) eqn:Hd; [|done].
  rewrite <- Hctx. by apply (server_quiet k (r canceled_error) s true); [apply quiet_refl|..].
Qed.

Lemma server_send {R} (k : R -> prog unit) m x :
  g_ch g = false -> reader_event m -> follows served (k x) g ->
  after_ok s (Server f) ctx k (send s out_ch m x).
Proof.
  intros Hch He Hk. pose proof (m_ch _ _ _ Hg) as Hcl. rewrite Hch in Hcl.
  destruct (send s out_ch m x) as [y s'|msg|] eqn:Hs; [| |done].
  - pose proof (send_quiet _ _ _ _ _ _ Hs) as [-> Hq].
    apply server_same; [done|by eapply messages_send|done].
  - by apply send_no_crash in Hs.
Qed.

(** A call that starts a goroutine or changes what the server owns. *)
Lemma server_goes {R} (k : R -> prog unit) x s' f' g' extra ts :
  messages_ok s' -> crashed s' = crashed s -> evolves (owned (Server f)) s s' ->
  threads s' = threads s ++ ts -> Forall2 (role_ok s') extra ts ->
  follows served (k x) g' -> matches s' f' g' ->
  NoDup (owned (Server f') ++ (extra ≫= owned)) ->
  (forall c, c ∈ owned (Server f') ++ (extra ≫= owned) ->
     c ∈ owned (Server f) \/ (length (chans s) <= c)%nat) ->
  goes_ok s (Server f) ctx k x s'.
Proof.
  intros. split; [done|]. split; [done|]. split; [done|]. exists (Server f'), extra, ts.
  split_and!; [done|done| |by eauto|done|done]. split; [done|]. by exists g'.
Qed.

(** Making the channel of a watch. *)
Lemma server_make (k : nat -> prog unit) cap :
  g_ch g = false -> g_fresh g = None ->
  (forall c, c <> out_ch /\ c <> done_ch -> follows served (k c)
     (mkServing (g_client g) (g_seen g) (g_ch g) (g_done g) (Some c))) ->
  goes_ok s (Server f) ctx k (length (chans s)) (set_chans (chans s ++ [mkChan cap [] false]) s).
Proof.
  intros Hch Hfr Hk. set (c := length (chans s)). destruct Hg as [H1 H2 H3 H4 H5 H6 H7 H8].
  assert (Hold : forall c' b, closed_in s c' = Some b ->
    closed_in (set_chans (chans s ++ [mkChan cap [] false]) s) c' = Some b).
  { intros c' b (kc & Hkc & Hb)%closed_in_Some. unfold closed_in. cbn.
    rewrite (lookup_app_l_Some _ _ _ _ Hkc). cbn. by rewrite Hb. }
  assert (Hlt : (out_ch < c)%nat /\ (done_ch < c)%nat).
  { apply closed_in_Some in H2 as (? & H2 & _), H3 as (? & H3 & _).
    apply lookup_lt_Some in H2, H3. done. }
  destruct Hlt as [Ho Hd]. assert (Hf : f = None) by congruence.
  eapply (server_goes k c _ (Some c) _ [] []); [|done| |by rewrite app_nil_r|by constructor|
    apply Hk; lia| | |].
  - destruct Hm as [Hb Hdel]. split; [|done]. intros kc. cbn.
    destruct (lookup_lt_is_Some_2 (chans s) out_ch Ho) as [ko Hko].
    rewrite (lookup_app_l_Some _ _ _ _ Hko). rewrite <- Hko. apply Hb.
  - split; [|split; [by right|done]]. intros c' b _. apply Hold.
  - constructor; cbn; auto; [|by rewrite Hch].
    intros c' [= <-]. unfold closed_in. cbn. by rewrite list_lookup_middle.
  - cbn [owned option_list mbind list_bind]. rewrite app_nil_r. unfold out_ch, done_ch in *.
    apply NoDup_cons; split; [set_unfold; lia|]. apply NoDup_cons; split; [set_unfold; lia|].
    apply NoDup_singleton.
  - rewrite Hf. cbn [owned option_list]. rewrite app_nil_r. set_unfold. intros c'. lia.
Qed.

(** Starting its goroutine. *)
Lemma server_go_watch (k : unit -> prog unit) c :
  g_fresh g = Some c ->
  follows served (k ()) (mkServing (g_client g) (g_seen g) (g_ch g) (g_done g) None) ->
  goes_ok s (Server f) ctx k ()
    (set_threads (threads s ++ [mkThread ctx (watch_goroutine lw fuel c)]) s).
Proof.
  intros Hfr Hk. destruct Hg as [H1 H2 H3 H4 H5 H6 H7 H8].
  assert (Hf : f = Some c) by congruence. rewrite Hf in Hnd.
  eapply (server_goes k () _ None _ [Watcher c] [_]); [done|done| |done| |exact Hk| | |].
  - by split; [|split; [right|]].
  - apply Forall2_cons; split; [|by constructor]. exists false.
    split; [by apply H5|apply watch_follows].
  - constructor; cbn; auto; [done|]. intros Hch. destruct (H7 Hch) as (? & ? & ?). auto.
  - done.
  - rewrite Hf. set_solver.
Qed.

(** The [go] statements of the serving goroutine. *)
Lemma server_go (k : unit -> prog unit) stmt :
  permitted g (Go stmt) -> follows served (k ()) (update (Go stmt) () g) ->
  goes_ok s (Server f) ctx k () (set_threads (threads s ++ [body lw fuel stmt ctx]) s).
Proof.
  intros He Hk. destruct stmt as [| | | | |wctx c| | |]; try done.
  - destruct He as [Hch Hfr]. by apply server_go_watch.
  - cbn in He. rewrite He.
    eapply (server_goes k _ _ f g [Monitor] [_]); [done|done| |done| |exact Hk| |
      by rewrite app_nil_r|rewrite app_nil_r; auto].
    + by split; [|split; [right|]].
    + apply Forall2_cons; split; [apply monitor_follows|by constructor].
    + destruct Hg as [H1 H2 H3 H4 H5 H6 H7 H8]. by constructor.
Qed.

(** Closing a channel of its own. *)
Lemma server_close (k : unit -> prog unit) c b a :
  permitted g (ChanClose c) ->
  follows served (k ()) (update (ChanClose c) () g) ->
  after_ok s (Server f) ctx k (exec_call (body lw fuel) s ctx b (ChanClose c) a).
Proof.
  intros (Hc & Hs & Hf & Hcase) Hk. pose proof Hg as [H1 H2 H3 H4 H5 H6 H7 H8].
  assert (Hopen : closed_in s c = Some false /\ c ∈ owned (Server f)).
  { destruct Hcase as [[-> Hch]|[-> [Hch Hd]]]; (split; [congruence|set_solver]). }
  destruct Hopen as [(kc & Hkc & Hcl)%closed_in_Some Hown].
  rewrite (exec_close s ctx b c a kc Hkc Hcl).
  eapply (server_goes k () _ f _ [] []); [by apply close_messages|done|by apply close_evolves|
    by rewrite app_nil_r|by constructor|exact Hk| |by rewrite app_nil_r|].
  2: { rewrite app_nil_r. auto. }
  assert (Hfn : f = None) by congruence.
  constructor; cbn; auto; try congruence; rewrite ?(closed_in_close s c kc _ Hkc).
  - destruct Hcase as [[-> Hch]|[-> [Hch Hd]]]; [by rewrite decide_True, Hch|].
    rewrite decide_False by done. rewrite H2, Hch. done.
  - destruct Hcase as [[-> Hch]|[-> [Hch Hd]]]; [|by rewrite decide_True, Hd].
    rewrite decide_False by done. rewrite H3. by rewrite orb_false_r.
  - destruct Hcase as [[-> Hch]|[-> [Hch Hd]]]; [by rewrite orb_true_r|by rewrite Hch].
Qed.

(** A change of the client or of the contexts. *)
Lemma server_keep {R} (k : R -> prog unit) x s' g' :
  messages_ok s' -> crashed s' = crashed s -> threads s' = threads s ->
  evolves (owned (Server f)) s s' -> follows served (k x) g' -> matches s' f g' ->
  goes_ok s (Server f) ctx k x s'.
Proof.
  intros Hm' Hcr Ht Hev Hk Hg'.
  eapply (server_goes k x s' f g' [] []); [done..| |by constructor|done|done| |];
    rewrite ?app_nil_r; auto.
Qed.

Lemma server_new_ctx {R} (k : R -> prog unit) x l :
  follows served (k x) g -> goes_ok s (Server f) ctx k x (set_ctxs (ctxs s ++ [l]) s).
Proof.
  intros Hk. eapply server_keep; [done|done|done| |exact Hk|].
  - split; [done|]. split; [by right|]. intros c. apply ctx_done_new.
  - destruct Hg as [H1 H2 H3 H4 H5 H6 H7 H8]. constructor; auto. intros Hs. by apply ctx_done_new, H6.
Qed.

Lemma server_client_set (k : unit -> prog unit) c :
  permitted g (ClientSet c) -> follows served (k ()) (update (ClientSet c) () g) ->
  goes_ok s (Server f) ctx k () (set_client c s).
Proof.
  intros He Hk. eapply server_keep; [done|done|done| |exact Hk|].
  - split; [done|]. split; [left|done]. cbn. set_solver.
  - destruct Hg as [H1 H2 H3 H4 H5 H6 H7 H8]. constructor; cbn; auto.
    intros Hch. destruct (H7 Hch) as (? & ? & ?). split; [|done].
    destruct c; [|done]. cbn in He. congruence.
Qed.

Lemma server_recv (k : receiving ChanMsg -> prog unit) c :
  (forall x, follows served (k x) (update (ChanRecv c) x g)) ->
  after_ok s (Server f) ctx k (receive s c Received Closed).
Proof.
  intros Hk. destruct (receive s c Received Closed) as [x s'|msg|] eqn:Hr; [| |done].
  - destruct (messages_receive s c _ _ _ _ Hm Hr) as (Hm' & _ & Hx).
    apply (server_quiet k x s' false); [by eapply receive_quiet|done|done|].
    specialize (Hk x). by destruct Hx as [->|(m & -> & _)].
  - unfold receive in Hr. by repeat case_match.
Qed.

(** Every call the protocol permits. *)
Lemma server_call b e k a :
  follows served (Call e k) g ->
  after_ok s (Server f) ctx k (exec_call (body lw fuel) s ctx b e a).
Proof.
  intros [He Hk].
  assert (Hsame : forall x, answers g e x -> update e x g = g -> goes_ok s (Server f) ctx k x s).
  { intros x Hx Hu. apply server_same; [apply quiet_refl|done|]. rewrite <- Hu. by apply Hk. }
  assert (Hsaw : forall b x, answers g e x -> update e x g = saw b g ->
    (b = true -> ctx_done s watch_ctx = true) -> goes_ok s (Server f) ctx k x s).
  { intros b' x Hx Hu Hb. apply (server_quiet k x s b'); [apply quiet_refl|done|done|].
    rewrite <- Hu. by apply Hk. }
  destruct e; try (exfalso; exact He); try (by apply Hsame).
  - cbn [exec_call after_ok]. unfold ctx_err. rewrite Hctx.
    destruct (ctx_done s watch_ctx) eqn:Hd; rewrite <- Hctx;
      [by apply (Hsaw true)|by apply (Hsaw false)].
  - destruct b; cbn [exec_call]; [by apply (Hsaw false)| |done].
    apply server_done. intros err. by apply (Hk (Some err)).
  - apply Hsame; [symmetry; exact (m_client _ _ _ Hg)|done].
  - apply server_client_set; [done|]. by apply Hk.
  - destruct He as [Hch Hfr]. apply server_make; [done|done|]. intros c Hc. by apply Hk.
  - destruct He as (-> & Hch & He). destruct b; cbn [exec_call]; [| |done].
    + apply server_send; [done|done|]. rewrite <- saw_false. by apply (Hk Sent).
    + apply server_done. intros err. by apply (Hk (SendDone err)).
  - destruct He as (-> & Hch & He). destruct b; cbn [exec_call].
    + apply server_send; [done|done|]. rewrite <- saw_false. by apply (Hk Sent).
    + apply server_done. intros err. by apply (Hk (SendDone err)).
    + destruct (not_ready s ctx out_ch); [by apply (Hsaw false)|done].
  - destruct b; cbn [exec_call]; [| |done].
    + apply server_recv. intros x. by apply Hk.
    + apply server_done. intros err. by apply (Hk (RecvDone err)).
  - apply server_close; [done|]. by apply Hk.
  - by apply server_new_ctx, Hk.
  - by apply server_new_ctx, Hk.
  - eapply server_keep; [done|done|done| |by apply Hk|by apply matches_cancel].
    split; [done|]. split; [by right|]. intros c'. apply ctx_done_cancel.
  - by apply server_go; [|apply Hk].
Qed.
End server_calls.

(** *** Every step *)

(** The state apart from the goroutines. *)
Lemma role_threads s r t x : role_ok s r t -> role_ok (set_threads x s) r t.
Proof.
  apply (role_frame []); [by split; [|split; [right|]]|]. intros c _. apply not_elem_of_nil.
Qed.

Lemma roles_frame own s s' (rs : list role) ts :
  evolves own s s' -> (forall c, c ∈ rs ≫= owned -> c ∉ own) ->
  Forall2 (role_ok s) rs ts -> Forall2 (role_ok s') rs ts.
Proof.
  intros Hev Hdis Hall. induction Hall as [|r t rs ts Hr Hall IH]; constructor.
  - eapply role_frame; [done| |done]. intros c Hc. apply Hdis. cbn. set_solver.
  - apply IH. intros c Hc. apply Hdis. cbn. set_solver.
Qed.

Lemma owned_exists s (rs : list role) ts c :
  Forall2 (role_ok s) rs ts -> c ∈ rs ≫= owned -> (c < length (chans s))%nat.
Proof.
  intros Hall Hc. apply list_elem_of_bind in Hc as (r & Hc & Hr).
  apply list_elem_of_lookup in Hr as [i Hi].
  destruct (Forall2_lookup_l _ _ _ _ _ Hall Hi) as (t & _ & Hok).
  assert (Hb : exists b, closed_in s c = Some b).
  { destruct r as [f|c'| |]; cbn [role_ok owned] in *; [| |by apply not_elem_of_nil in Hc..].
    - destruct Hok as (_ & g & _ & [H1 H2 H3 H4 H5 H6 H7 H8]).
      apply elem_of_cons in Hc as [->|Hc]; [eauto|]. apply elem_of_cons in Hc as [->|Hc]; [eauto|].
      destruct f as [c'|]; [|by apply not_elem_of_nil in Hc].
      apply list_elem_of_singleton in Hc as ->. eauto.
    - destruct Hok as (b & Hb & _). apply list_elem_of_singleton in Hc as ->. eauto. }
  destruct Hb as (b & (k & Hk & _)%closed_in_Some). by eapply lookup_lt_Some.
Qed.

Lemma NoDup_replace (L1 X L2 X' E : list nat) n :
  NoDup (L1 ++ X ++ L2) -> NoDup (X' ++ E) ->
  (forall c, c ∈ X' ++ E -> c ∈ X \/ (n <= c)%nat) ->
  (forall c, c ∈ L1 ++ L2 -> (c < n)%nat) -> NoDup (L1 ++ X' ++ L2 ++ E).
Proof.
  intros H1 H2 H3 H4.
  assert (Hp : L1 ++ X' ++ L2 ++ E ≡ₚ (L1 ++ L2) ++ (X' ++ E)) by solve_Permutation.
  rewrite Hp. assert (Hq : L1 ++ X ++ L2 ≡ₚ (L1 ++ L2) ++ X) by solve_Permutation.
  rewrite Hq in H1. apply NoDup_app in H1 as (H5 & H6 & _). apply NoDup_app.
  split; [done|]. split; [|done]. intros c Hc Hc'. destruct (H3 c Hc') as [Hx|Hx].
  - by apply (H6 c).
  - specialize (H4 c Hc). lia.
Qed.

Lemma inv_goes {R} s i r t (rs : list role) (k : R -> prog unit) x s' :
  Forall2 (role_ok s) rs (threads s) -> NoDup (rs ≫= owned) ->
  (exists f, rs !! 1%nat = Some (Server f)) -> crashed s = None -> rs !! i = Some r -> threads s !! i = Some t ->
  goes_ok s r (t_ctx t) k x s' -> inv (set_prog i (k x) s').
Proof.
  intros Hall Hnd Hserver Hcr Hi Ht (Hm & Hcr' & Hev & r' & extra & ts & Hts & Hex & Hr' & Hsr & Hn & Hown).
  apply list_elem_of_split_length in Hi as (l1 & l2 & -> & Hlen).
  apply Forall2_app_inv_l in Hall as (t1 & t2 & Hall1 & Hall2 & Heq).
  apply Forall2_cons_inv_l in Hall2 as (t0 & t2' & Hrt & Hall2 & ->).
  pose proof (Forall2_length _ _ _ Hall1) as Hi. rewrite Hi in Hlen. subst i.
  rewrite Heq, list_lookup_middle in Ht by done. injection Ht as ->.
  rewrite bind_app, bind_cons in Hnd.
  split; [by apply (messages_quiet s')|]. split; [by unfold crash_ok; cbn; rewrite Hcr', Hcr|].
  exists (l1 ++ r' :: l2 ++ extra). split; [|split].
  - unfold set_prog. cbn. rewrite Hts, Heq, <- app_assoc. cbn.
    rewrite <- (Nat.add_0_r (length t1)), alter_app_r. cbn.
    assert (Hd1 : forall c, c ∈ l1 ≫= owned -> c ∉ owned r).
    { intros c Hc Hc'. apply NoDup_app in Hnd as (_ & Hnd & _). apply (Hnd c Hc). set_solver. }
    assert (Hd2 : forall c, c ∈ l2 ≫= owned -> c ∉ owned r).
    { intros c Hc Hc'. apply NoDup_app in Hnd as (_ & _ & Hnd).
      apply NoDup_app in Hnd as (_ & Hnd & _). by apply (Hnd c Hc'). }
    apply Forall2_app; [|apply Forall2_cons; split; [|apply Forall2_app]].
    + eapply Forall2_impl; [by eapply (roles_frame (owned r) s s')|]. intros. by apply role_threads.
    + by apply role_threads.
    + eapply Forall2_impl; [by eapply (roles_frame (owned r) s s')|]. intros. by apply role_threads.
    + eapply Forall2_impl; [done|]. intros. by apply role_threads.
  - rewrite bind_app, bind_cons, bind_app. eapply NoDup_replace; [exact Hnd|done|done|].
    intros c [Hc|Hc]%elem_of_app; [by eapply (owned_exists s l1)|by eapply (owned_exists s l2)].
  - destruct Hserver as [f Hf]. destruct (decide (1%nat = length l1)) as [Hl|Hl].
    + rewrite list_lookup_middle in Hf |- * by done. injection Hf as ->.
      destruct Hsr as [f' ->]; [by eexists|]. by exists f'.
    + exists f. rewrite lookup_app in Hf |- *. destruct (l1 !! 1%nat) eqn:Hl1; [done|].
      apply lookup_ge_None in Hl1. destruct (1 - length l1)%nat eqn:Hsub; [lia|].
      cbn in *. by apply lookup_app_l_Some.
Qed.

(** A step by the environment. *)
Lemma inv_env s s' :
  inv s -> threads s' = threads s -> crashed s' = crashed s -> messages_ok s' ->
  evolves [] s s' -> inv s'.
Proof.
  intros (Hm & Hcr & rs & Hall & Hnd & Hs) Ht Hc Hm' Hev. split; [done|]. split.
  - unfold crash_ok in *. rewrite Hc. destruct (crashed s); [|done]. destruct Hcr as [-> Hcl].
    split; [done|]. apply (proj1 Hev); [apply not_elem_of_nil|done].
  - exists rs. split; [|done]. rewrite Ht. eapply (roles_frame []); [done| |done].
    intros c _. apply not_elem_of_nil.
Qed.

(** The goroutine's own step: whatever its part, it may not halt in a crash. *)
Lemma role_call s r t e k b a :
  messages_ok s -> NoDup (owned r) -> (forall c, r = Watcher c -> c <> out_ch) ->
  role_ok s r t -> t_prog t = Call e k ->
  after_ok s r (t_ctx t) k (exec_call (body lw fuel) s (t_ctx t) b e a).
Proof.
  intros Hm Hnd Hne Hr Hp. destruct t as [ctx p]. cbn in Hp. subst p.
  destruct r as [f|c| |]; cbn [t_ctx t_prog].
  - destruct Hr as (Hctx & g & Hf & Hg). by eapply server_call.
  - apply watcher_call; [done|by apply Hne|done].
  - by apply monitor_call.
  - done.
Qed.

Lemma role_halt s r t h : role_ok s r t -> t_prog t = Halt h -> h = NoFuel.
Proof.
  destruct t as [ctx p]. cbn. intros Hr ->. destruct r as [f|c| |]; cbn in Hr.
  - by destruct Hr as (_ & g & Hf & _).
  - by destruct Hr as (b & _ & Hf).
  - done.
  - done.
Qed.

Lemma role_lock s r ctx m md p q :
  q = Lock m md p \/ q = Unlock m md p -> role_ok s r (mkThread ctx q) -> role_ok s r (mkThread ctx p).
Proof. by intros [->| ->]; destruct r. Qed.

(** Distinct goroutines own distinct channels. *)
Lemma owned_once (rs : list role) r : NoDup (rs ≫= owned) -> r ∈ rs -> NoDup (owned r).
Proof.
  intros Hnd (l1 & l2 & ->)%list_elem_of_split. rewrite bind_app, bind_cons in Hnd.
  by apply NoDup_app in Hnd as (_ & _ & (Hnd & _)%NoDup_app).
Qed.

Lemma owned_by_one (rs : list role) r1 r2 c :
  NoDup (rs ≫= owned) -> r1 ∈ rs -> r2 ∈ rs -> c ∈ owned r1 -> c ∈ owned r2 -> r1 = r2.
Proof.
  intros Hnd (l1 & l2 & ->)%list_elem_of_split Hr2 Hc1 Hc2. rewrite bind_app, bind_cons in Hnd.
  apply NoDup_app in Hnd as (_ & Hd1 & (_ & Hd2 & _)%NoDup_app).
  apply elem_of_app in Hr2 as [Hr2|[->|Hr2]%elem_of_cons]; [|done|]; exfalso.
  - apply (Hd1 c); [|set_solver]. apply list_elem_of_bind. by exists r2.
  - apply (Hd2 c Hc1). apply list_elem_of_bind. by exists r2.
Qed.

(** The invariant is kept by every step of every goroutine and of the environment. *)
Lemma step_inv act s s' :
  inv s -> exec (body lw fuel) caller_reads caller_cancels act s = Some s' -> inv s'.
Proof.
  intros Hinv. pose proof Hinv as (Hm & Hcr & rs & Hall & Hnd & Hs). unfold exec.
  destruct (crashed s) eqn:Hnc; [done|]. destruct act as [i b ans|c|c].
  - destruct (threads s !! i) as [t|] eqn:Ht; [|done].
    destruct (Forall2_lookup_r _ _ _ _ _ Hall Ht) as (r & Hr & Hok).
    assert (Hin : r ∈ rs) by by eapply list_elem_of_lookup_2.
    pose proof (owned_once _ _ Hnd Hin) as Hown.
    assert (Hne : forall c, r = Watcher c -> c <> out_ch).
    { intros c -> ->. destruct Hs as [f Hf%list_elem_of_lookup_2].
      assert (Watcher out_ch = Server f); [|done].
      apply (owned_by_one rs _ _ out_ch); [done..| |]; cbn; set_solver. }
    assert (Hlock : forall p, role_ok s r (mkThread (t_ctx t) p) -> inv (set_prog i p s)).
    { intros p Hp. apply (inv_goes s i r t rs (fun _ : unit => p) () s); try done.
      apply goes_same; [done|apply quiet_refl|done|done]. }
    destruct (t_prog t) as [|e k|m md p|m md p|h] eqn:Hp; [done|..].
    + pose proof (role_call s r t e k b (ans e) Hm Hown Hne Hok Hp) as Ha.
      destruct (exec_call _ _ _ _ _ _) as [x s1|msg|]; [| |done]; intros [= <-].
      * by eapply inv_goes.
      * split; [done|]. split; [exact Ha|]. exists rs. split; [|split; [exact Hnd|exact Hs]].
        apply (roles_frame [] s); [by split; [|split; [right|]]| |done].
        intros c _. apply not_elem_of_nil.
    + intros [= <-]. apply Hlock.
      apply (role_lock s r (t_ctx t) m md p (t_prog t)); [by left|by destruct t].
    + intros [= <-]. apply Hlock.
      apply (role_lock s r (t_ctx t) m md p (t_prog t)); [by right|by destruct t].
    + by rewrite (role_halt s r t h Hok Hp).
  - destruct (caller_cancels c); [|done]. intros [= <-]. eapply inv_env; [done..|].
    split; [done|]. split; [by right|]. intros c'. apply ctx_done_cancel.
  - destruct (caller_reads c); [|done].
    destruct (receive s c Some None) as [[m|] s1| |] eqn:Hr; [|done..]. intros [= <-].
    pose proof (receive_quiet _ _ _ _ _ _ Hr) as (Ht & Hq).
    destruct (messages_receive s c _ _ _ _ Hm Hr) as (Hm1 & Hd & Hx).
    apply (inv_env s); [done|done|apply Hq| |].
    + destruct Hm1 as [Hb1 Hb2]. split; [done|]. cbn. apply Forall_app. split; [done|].
      apply Forall_singleton. cbn. destruct Hx as [|(m' & [= <-] & Hm')]; done.
    + by apply quiet_evolves.
Qed.

(** At the start. *)
Hypothesis Hlog : logger lw = true.

Lemma launched_inv cli : inv (launched lw fuel cli).
Proof.
  split; [split; [|by constructor]|split; [done|]].
  - intros k [= <-]. cbn. split; [by constructor|lia].
  - exists [Caller; Server None]. split; [|split; [|by exists None]].
    + apply Forall2_cons; split; [done|]. apply Forall2_cons; split; [|by constructor].
      split; [done|]. exists (mkServing (Some cli) false false false None).
      split; [by apply serving_follows|]. by constructor.
    + apply (bool_decide_eq_true_1 _). vm_compute. reflexivity.
Qed.

Lemma reachable_inv cli s : lw_reachable lw fuel (launched lw fuel cli) s -> inv s.
Proof.
  intros Hr. eapply reachable_invariant; [|exact Hr|apply launched_inv]. intros. by eapply step_inv.
Qed.

Lemma inv_server s : inv s -> exists f g, matches s f g.
Proof.
  intros (_ & _ & rs & Hall & _ & f & Hi).
  destruct (Forall2_lookup_l _ _ _ _ _ Hall Hi) as (t & _ & _ & g & _ & Hg). by exists f, g.
Qed.

(** *** Stopping *)

(** Once its context is done, no call of the serving goroutine has to wait, and none has to
    be answered as if the context were not done. *)
Definition steps_to (s s' : state) : Prop :=
  crashed s' = crashed s /\ ctx_done s' watch_ctx = true /\
  exists ts, threads s' = threads s ++ ts.

Lemma server_can_step s f g e (k : resp e -> prog unit) :
  matches s f g -> follows served (Call e k) g -> ctx_done s watch_ctx = true ->
  exists b x s', exec_call (body lw fuel) s watch_ctx b e (any_answer e) = Goes x s' /\
    live e x = false /\ steps_to s s'.
Proof.
  intros Hg [He _] Hd.
  assert (Hsame : forall s', crashed s' = crashed s -> threads s' = threads s ->
    ctx_done s' watch_ctx = true -> steps_to s s').
  { intros s' H1 H2 H3. split; [done|]. split; [done|]. exists []. by rewrite app_nil_r. }
  destruct e; try (exfalso; exact He);
    try (by exists BDone; eexists _, s; split; [cbn; unfold on_done; by rewrite Hd|];
            split; [reflexivity|by apply Hsame]);
    try (by exists BComm; eexists _, s; split; [reflexivity|]; split;
            [cbn; unfold ctx_err; rewrite ?Hd; reflexivity|by apply Hsame]).
  - exists BComm. eexists _, _. split; [reflexivity|]. split; [done|by apply Hsame].
  - exists BComm. eexists _, _. split; [reflexivity|]. split; [done|by apply Hsame].
  - destruct Hg as [_ H2 H3 _ _ _ _ _]. destruct He as (_ & _ & _ & He).
    assert (Hopen : closed_in s ch = Some false).
    { destruct He as [[-> Hch]|[-> [_ Hdn]]]; congruence. }
    apply closed_in_Some in Hopen as (kc & Hkc & Hcl). exists BComm, (), (close ch kc s).
    by rewrite (exec_close s watch_ctx BComm ch _ kc Hkc Hcl); split; [|split; [|apply Hsame]].
  - exists BComm. eexists _, _. split; [reflexivity|]. split; [done|].
    apply Hsame; [done..|]. by apply ctx_done_new.
  - exists BComm. eexists _, _. split; [reflexivity|]. split; [done|].
    apply Hsame; [done..|]. by apply ctx_done_new.
  - exists BComm. eexists _, _. split; [reflexivity|]. split; [done|].
    apply Hsame; [done..|]. by apply ctx_done_cancel.
  - exists BComm. eexists _, _. split; [reflexivity|]. split; [done|].
    split; [done|]. split; [done|]. by eexists.
Qed.

Lemma inv_thread s :
  inv s -> exists t f g, threads s !! 1%nat = Some t /\ t_ctx t = watch_ctx /\
    follows served (t_prog t) g /\ matches s f g.
Proof.
  intros (_ & _ & rs & Hall & _ & f & Hi).
  destruct (Forall2_lookup_l _ _ _ _ _ Hall Hi) as (t & Ht & Hctx & g & Hf & Hg). by exists t, f, g.
Qed.

(** The serving goroutine meets its bound only after a live answer; unless it has met it, it
    has not been stopped by it. *)
Definition server_patient (s : state) : Prop :=
  exists t, threads s !! 1%nat = Some t /\ (patient (t_prog t) \/ t_prog t = Halt NoFuel).

Lemma exec_call_threads s ctx b e a x s' :
  exec_call (body lw fuel) s ctx b e a = Goes x s' -> exists ts, threads s' = threads s ++ ts.
Proof.
  intros Hx. assert (Hsame : threads s' = threads s -> exists ts, threads s' = threads s ++ ts).
  { intros ->. exists []. by rewrite app_nil_r. }
  destruct e; cbn in Hx; unfold on_done, send, receive in Hx; repeat case_match; simplify_eq;
    first [by apply Hsame|by eexists].
Qed.

Lemma server_patient_step act s s' :
  server_patient s -> exec (body lw fuel) caller_reads caller_cancels act s = Some s' ->
  server_patient s'.
Proof.
  intros (t & Ht & Hp). unfold exec. destruct (crashed s); [done|].
  assert (Hsame : forall s', threads s' = threads s -> server_patient s').
  { intros s1 Hs1. exists t. by rewrite Hs1. }
  assert (Hother : forall i q s1, i <> 1%nat -> (exists ts, threads s1 = threads s ++ ts) ->
    server_patient (set_prog i q s1)).
  { intros i q s1 Hi [ts Hts]. exists t. split; [|done]. unfold set_prog. cbn.
    rewrite list_lookup_alter_ne, Hts by done. by apply lookup_app_l_Some. }
  assert (Hown : forall q s1, (exists ts, threads s1 = threads s ++ ts) ->
    patient q \/ q = Halt NoFuel -> server_patient (set_prog 1 q s1)).
  { intros q s1 [ts Hts] Hq. exists (mkThread (t_ctx t) q). split; [|done]. unfold set_prog. cbn.
    by rewrite list_lookup_alter_eq, Hts, (lookup_app_l_Some _ _ _ _ Ht). }
  destruct act as [i b ans|c|c].
  - destruct (threads s !! i) as [t'|] eqn:Ht'; [|done].
    assert (Hself : exists ts, threads s = threads s ++ ts) by (exists []; by rewrite app_nil_r).
    destruct (decide (i = 1%nat)) as [->|Hi].
    + rewrite Ht in Ht'. injection Ht' as <-.
      destruct (t_prog t) as [|e k|m md q|m md q|h]; [done| | | |].
      * destruct (exec_call _ _ _ _ _ _) as [x s1|msg|] eqn:Hx; [| |done]; intros [= <-];
          [|by apply Hsame].
        apply Hown; [by eapply exec_call_threads|]. destruct Hp as [Hp|]; [|done].
        destruct (Hp x) as [[_ ?]|]; auto.
      * intros [= <-]. apply Hown; [done|]. by destruct Hp; [left|].
      * intros [= <-]. apply Hown; [done|]. by destruct Hp; [left|].
      * destruct h; try done; intros [= <-]; by apply Hsame.
    + destruct (t_prog t') as [|e k|m md q|m md q|h]; [done| | | |].
      * destruct (exec_call _ _ _ _ _ _) as [x s1|msg|] eqn:Hx; [| |done]; intros [= <-];
          [|by apply Hsame]. apply Hother; [done|]. by eapply exec_call_threads.
      * intros [= <-]. by apply Hother.
      * intros [= <-]. by apply Hother.
      * destruct h; try done; intros [= <-]; by apply Hsame.
  - destruct (caller_cancels c); [|done]. intros [= <-]. by apply Hsame.
  - destruct (caller_reads c); [|done].
    destruct (receive s c Some None) as [[m|] s1| |] eqn:Hr; [|done..]. intros [= <-].
    apply Hsame. cbn. by destruct (receive_quiet _ _ _ _ _ _ Hr) as (-> & _).
Qed.

Lemma reachable_patient cli s :
  lw_reachable lw fuel (launched lw fuel cli) s -> server_patient s.
Proof.
  intros Hr. eapply reachable_invariant; [|exact Hr|].
  - intros. by eapply server_patient_step.
  - eexists. split; [done|]. left. apply orderly_serving.
Qed.

(** The steps of the serving goroutine alone. *)
Definition own_step (a : action) : Prop := exists b, a = Run 1 b any_answer.

(** What it reaches by its own steps. *)
Definition finishes (s : state) : Prop :=
  exists l s', Forall own_step l /\
    exec_all (body lw fuel) caller_reads caller_cancels l s = Some s' /\ inv s' /\
    threads s' !! 1%nat = Some (mkThread watch_ctx (Ret ())).

(** A lock operation is a step of its own. *)
Lemma server_passes_lock m md q0 q s :
  q0 = Lock m md q \/ q0 = Unlock m md q -> inv s -> crashed s = None ->
  threads s !! 1%nat = Some (mkThread watch_ctx q0) ->
  (forall s1, inv s1 -> crashed s1 = None -> ctx_done s1 watch_ctx = ctx_done s watch_ctx ->
     threads s1 !! 1%nat = Some (mkThread watch_ctx q) -> finishes s1) ->
  finishes s.
Proof.
  intros Hq Hinv Hcr Ht Hgo.
  assert (Hstep : exec (body lw fuel) caller_reads caller_cancels (Run 1 BComm any_answer) s =
    Some (set_prog 1 q s)) by (unfold exec; rewrite Hcr, Ht; by destruct Hq as [-> | ->]).
  destruct (Hgo (set_prog 1 q s)) as (l & s' & Hl & Hrun & H2);
    [by eapply step_inv|done|done|unfold set_prog; cbn; by rewrite list_lookup_alter_eq, Ht|].
  exists (Run 1 BComm any_answer :: l), s'. split; [constructor; [by exists BComm|done]|].
  split; [|done]. cbn [exec_all]. by rewrite Hstep.
Qed.

(** Left alone, it returns. *)
Lemma server_finishes q s :
  inv s -> crashed s = None -> ctx_done s watch_ctx = true -> patient q ->
  threads s !! 1%nat = Some (mkThread watch_ctx q) -> finishes s.
Proof.
  revert s; induction q as [[]|e k IH|m md q IH|m md q IH|h]; intros s Hinv Hcr Hd Hp Ht.
  - exists [], s. split; [constructor|]. done.
  - destruct (inv_thread s Hinv) as (t & f & g & Ht' & _ & Hf & Hg).
    rewrite Ht in Ht'. injection Ht' as <-.
    destruct (server_can_step s f g e k Hg Hf Hd)
      as (b & x & s1 & Hx & Hlive & Hcr1 & Hd1 & ts & Hts).
    assert (Hstep : exec (body lw fuel) caller_reads caller_cancels (Run 1 b any_answer) s =
      Some (set_prog 1 (k x) s1)).
    { unfold exec. rewrite Hcr, Ht. cbn [t_prog t_ctx]. by rewrite Hx. }
    destruct (Hp x) as [[Hl _]|Hpx]; [congruence|].
    destruct (IH x (set_prog 1 (k x) s1)) as (l & s2 & Hl & Hrun & H2);
      [by eapply step_inv|cbn; congruence|done|done| |].
    { unfold set_prog. cbn. by rewrite list_lookup_alter_eq, Hts, (lookup_app_l_Some _ _ _ _ Ht). }
    exists (Run 1 b any_answer :: l), s2. split; [constructor; [by exists b|done]|].
    split; [|done]. cbn [exec_all]. by rewrite Hstep.
  - eapply server_passes_lock; [by left|done|done|done|]. intros s1 H1 H2 H3 H4.
    apply IH; [done|done|by rewrite H3|exact Hp|done].
  - eapply server_passes_lock; [by right|done|done|done|]. intros s1 H1 H2 H3 H4.
    apply IH; [done|done|by rewrite H3|exact Hp|done].
  - destruct (inv_thread s Hinv) as (t & f & g & Ht' & _ & Hf & Hg).
    rewrite Ht in Ht'. injection Ht' as <-. by destruct (Hp Hf).
Qed.

(** ** Properties *)

(** C20: stopping cleans up.  In every execution of a list-watch with a logger, when the stop
    function has returned (it waits for [done] to be closed), the caller's channel is closed,
    the etcd client is given up and the context is cancelled; and the caller's channel is
    never closed before the context was cancelled. *)
Theorem stop_cleans_up cli s :
  reachable (body lw fuel) caller_reads caller_cancels (launched lw fuel cli) s ->
  (closed_in s done_ch = Some true -> closed_in s out_ch = Some true) /\
  (closed_in s out_ch = Some true -> client s = None /\ ctx_done s watch_ctx = true).
Proof.
  intros (f & g & [H1 H2 H3 H4 H5 H6 H7 H8])%reachable_inv%inv_server.
  rewrite H2, H3. split.
  - intros [= Hd]. by rewrite H8.
  - intros [= Hc]. destruct (H7 Hc) as (Hcli & Hs & _). split; [congruence|auto].
Qed.

(** C21: the stop function returns.  From every state of every execution of a list-watch with
    a logger in which the context was cancelled and the process has not crashed, steps of the
    serving goroutine alone, whatever the caller and the other goroutines do or do not do,
    lead to a state in which it has closed [done], on which the stop function waits: it never
    waits for anybody, and does not go round its loops again.  The state must not be one in
    which the goroutine was cut off by the bound of the model before, which happens only
    directly after an answer by which the context was not done or an event had arrived
    ([patient]). *)
Theorem stop_returns cli s :
  reachable (body lw fuel) caller_reads caller_cancels (launched lw fuel cli) s ->
  crashed s = None -> ctx_done s watch_ctx = true ->
  threads s !! 1%nat <> Some (mkThread watch_ctx (Halt NoFuel)) ->
  exists l s', Forall own_step l /\
    exec_all (body lw fuel) caller_reads caller_cancels l s = Some s' /\
    closed_in s' done_ch = Some true.
Proof.
  intros Hr Hcr Hd Hnf. pose proof (reachable_inv cli s Hr) as Hinv.
  destruct (inv_thread s Hinv) as ([ctx q] & f & g & Ht & Hctx & _). cbn in Hctx. subst ctx.
  destruct (reachable_patient cli s Hr) as (t & Ht' & Hp). rewrite Ht in Ht'. injection Ht' as <-.
  destruct Hp as [Hp|Hq]; [|cbn in Hq; by rewrite Ht, Hq in Hnf].
  destruct (server_finishes q s Hinv Hcr Hd Hp Ht) as (l & s' & Hl & Hrun & Hinv' & Hret).
  exists l, s'. split; [done|]. split; [done|].
  destruct (inv_thread s' Hinv') as (t' & f' & g' & Ht2 & _ & Hf & Hg).
  rewrite Hret in Ht2. injection Ht2 as <-. destruct Hf as [_ Hdone].
  by rewrite (m_done _ _ _ Hg), Hdone.
Qed.

(** C22: how a list-watch can crash.  In every execution of a list-watch with a logger there
    is one way only for the process to crash: a goroutine sends on the caller's channel
    after it was closed.  No nil client is used, no channel is closed twice, and no watch
    goroutine sends on its closed channel. *)
Theorem only_monitor_crashes cli s msg :
  reachable (body lw fuel) caller_reads caller_cancels (launched lw fuel cli) s ->
  crashed s = Some msg -> msg = "send on closed channel" /\ closed_in s out_ch = Some true.
Proof.
  intros (_ & Hcr & _)%reachable_inv Hmsg. unfold crash_ok in Hcr. by rewrite Hmsg in Hcr.
Qed.

(** C30: what the caller receives.  In every execution everything that is on the caller's
    channel or was read from it is a well-formed event (it has a type, a prefix, and a key
    unless it is an error) or an error event, and the channel never holds more than its
    capacity. *)
Theorem caller_receives_events cli s :
  reachable (body lw fuel) caller_reads caller_cancels (launched lw fuel cli) s ->
  (forall k, chans s !! out_ch = Some k ->
     Forall reader_event (c_buf k) /\ Z.of_nat (length (c_buf k)) <= Z.max 0 (c_cap k)) /\
  Forall (fun cm => cm.1 = out_ch -> reader_event cm.2) (delivered s).
Proof. by intros (Hm & _)%reachable_inv. Qed.
End calls.

(** ** Concrete executions *)

Module Witness.
Definition lw : ListWatch :=
  mkListWatch ["localhost:2379"] "/" DefaultOptions Metrics.created true.

Definition serve (n : nat) (b : branch) : list action := replicate n (Run 1 b any_answer).

(** The watch is opened; its goroutine ends at once and closes its channel; the serving
    goroutine reports it and gives up the client; the monitor sees that the context still
    lives. *)
Definition watch_ends : list action :=
  serve 13 BComm ++ replicate 2 (Run 2 BComm any_answer) ++ serve 9 BComm ++
  replicate 2 (Run 3 BComm any_answer).

(** Then the caller stops the list-watch, and all is cleaned up. *)
Definition stop_after : list action :=
  EnvCancel watch_ctx :: serve 1 BDone ++ serve 6 BComm ++ serve 2 BDone ++ serve 3 BComm.

(** An answer of the watch with 101 changes. *)
Definition changes : list EtcdEvent :=
  replicate 101 (mkEtcdEvent EvPut (mkKeyValue "/a" "1" 1 1) None).
Definition many : forall e, resp e := fun e =>
  match e with
  | WatchNext _ => Received (mkWatchResponse changes false None)
  | e => any_answer e
  end.

(** The watch goroutine fills its channel; the caller stops the list-watch before the
    serving goroutine reads from it; all is cleaned up. *)
Definition watch_floods : list action :=
  serve 13 BComm ++ Run 2 BComm many :: replicate 200 (Run 2 BComm any_answer) ++
  EnvCancel watch_ctx :: serve 3 BDone ++ serve 4 BComm ++ serve 1 BDone ++ serve 8 BComm ++
  serve 2 BDone ++ serve 3 BComm ++ replicate 2 (Run 3 BComm any_answer).

Definition run_actions (l : list action) : option state :=
  exec_all (body lw 5) caller_reads caller_cancels l (launched lw 5 7).
End Witness.
Import Witness.

Lemma run_actions_reachable l s :
  run_actions l = Some s ->
  reachable (body lw 5) caller_reads caller_cancels (launched lw 5 7) s.
Proof. apply exec_all_reachable. Qed.


(** *** A goroutine that stays behind *)

(** Everybody but goroutine 2 has ended, and that one sends on a full channel. *)
Definition stranded (s : state) : bool :=
  match threads s, chans s !! 2%nat with
  | [t0; t1; t2; t3], Some k =>
      match t_prog t0, t_prog t1, t_prog t2, t_prog t3 with
      | Ret _, Ret _, Call (ChanPush 2 _) _, Ret _ =>
          negb (c_closed k) && negb (room k) && (0 <? c_cap k)
      | _, _, _, _ => false
      end
  | _, _ => false
  end.

Lemma stranded_step lw fuel a s s' :
  stranded s = true -> exec (body lw fuel) caller_reads caller_cancels a s = Some s' ->
  stranded s' = true /\ threads s' = threads s.
Proof.
  unfold stranded. intros Hs. destruct (threads s) as [|t0 [|t1 [|t2 [|t3 []]]]] eqn:Ht; try done.
  destruct (chans s !! 2%nat) as [k|] eqn:Hk; [|done].
  destruct (t_prog t0) eqn:H0; try done. destruct (t_prog t1) eqn:H1; try done.
  destruct (t_prog t2) as [|e k2| | |] eqn:H2; try done. destruct e; try done.
  do 3 (destruct ch as [|ch]; try done). destruct (t_prog t3) eqn:H3; try done.
  apply andb_prop in Hs as [[Hc Hr]%andb_prop Hcap].
  unfold exec. destruct (crashed s); [done|]. destruct a as [i b ans|c|c].
  - rewrite Ht. destruct i as [|[|[|[|i]]]]; cbn; rewrite ?H0, ?H1, ?H2, ?H3; try done.
    cbn. unfold send. rewrite Hk. destruct (c_closed k); [done|]. destruct (room k); [done|].
    destruct (Z.eqb_spec (c_cap k) 0); [lia|done].
  - destruct (caller_cancels c); [|done]. intros [= <-]. cbn. split; [|done].
    rewrite Ht, Hk, H0, H1, H2, H3. by rewrite Hc, Hr, Hcap.
  - destruct (caller_reads c) eqn:Hrd; [|done]. apply Nat.eqb_eq in Hrd as ->.
    unfold receive. destruct (chans s !! out_ch) as [k0|] eqn:Hk0; [|done].
    destruct (c_buf k0); [by destruct (c_closed k0)|]. intros [= <-]. cbn. split; [|done].
    rewrite Ht, list_lookup_insert_ne, Hk, H0, H1, H2, H3 by done. by rewrite Hc, Hr, Hcap.
Qed.

Lemma stranded_sends s :
  stranded s = true ->
  exists t m k, threads s !! 2%nat = Some t /\ t_prog t = Call (ChanPush 2 m) k.
Proof.
  unfold stranded. destruct (threads s) as [|t0 [|t1 [|t2 [|t3 []]]]]; try done.
  destruct (chans s !! 2%nat); [|done]. intros Hs. exists t2.
  destruct (t_prog t0); try done. destruct (t_prog t1); try done.
  destruct (t_prog t2) as [|e' k'| | |] eqn:Hp; try done. destruct e'; try done.
  do 3 (destruct ch as [|ch]; try done). by exists m, k'.
Qed.

(** C39: A watch goroutine can stay behind for ever.  There is an execution in which the stop
    function has returned and everything is cleaned up, but the goroutine of a watch is
    still sending a change on its channel, which is full and which nobody will read: in
    every continuation it stays where it is, before that send. *)
Theorem watch_goroutine_leaks :
  exists s, reachable (body lw 5) caller_reads caller_cancels (launched lw 5 7) s /\
    closed_in s done_ch = Some true /\
    exists t m k, t_prog t = Call (ChanPush 2 m) k /\
      forall s', reachable (body lw 5) caller_reads caller_cancels s s' ->
        threads s' !! 2%nat = Some t.
Proof.
  assert (H : (fun s => (stranded s, closed_in s done_ch)) <$> run_actions watch_floods =
    Some (true, Some true)) by (vm_compute; reflexivity).
  destruct (run_actions _) as [s|] eqn:Hs; [|done]. injection H as Hst Hd. exists s.
  split; [by eapply run_actions_reachable|]. split; [done|].
  destruct (stranded_sends s Hst) as (t & m & k & Ht & Hp). exists t, m, k. split; [done|].
  intros s' Hr.
  enough (stranded s' = true /\ threads s' !! 2%nat = Some t) by tauto.
  eapply (reachable_invariant _ _ _ (fun s => stranded s = true /\ threads s !! 2%nat = Some t));
    [|exact Hr|exact (conj Hst Ht)].
  intros a s1 s2 [Hs1 Ht1] He. destruct (stranded_step _ _ _ _ _ Hs1 He) as [Hs2 Heq].
  split; [exact Hs2|]. rewrite Heq. exact Ht1.
Qed.

Lemma stop_cleans_up_witness :
  exists s, run_actions (watch_ends ++ stop_after) = Some s /\
    closed_in s done_ch = Some true /\ closed_in s out_ch = Some true /\
    client s = None /\ ctx_done s watch_ctx = true.
Proof.
  assert (H : (fun s => closed_in s done_ch) <$> run_actions (watch_ends ++ stop_after) =
    Some (Some true)) by (vm_compute; reflexivity).
  destruct (run_actions (watch_ends ++ stop_after)) as [s|] eqn:Hs; [|done]. injection H as Hd.
  exists s. split; [done|]. split; [done|].
  destruct (stop_cleans_up lw 5 eq_refl 7 s) as [H1 H2]; [by eapply run_actions_reachable|]. auto.
Defined.

(** The caller cancels right at the start. *)
Lemma stop_returns_witness :
  exists s l s', run_actions [EnvCancel watch_ctx] = Some s /\ Forall own_step l /\
    exec_all (body lw 5) caller_reads caller_cancels l s = Some s' /\
    closed_in s' done_ch = Some true.
Proof.
  destruct (run_actions [EnvCancel watch_ctx]) as [s|] eqn:Hs; [|discriminate Hs]. exists s.
  destruct (stop_returns lw 5 eq_refl 7 s) as (l & s' & Hl & Hrun & Hd).
  - by eapply run_actions_reachable.
  - by injection Hs as <-.
  - by injection Hs as <-.
  - by injection Hs as <-.
  - by exists l, s'.
Defined.

Lemma only_monitor_crashes_witness :
  exists s, run_actions (watch_ends ++ stop_after ++ [Run 3 BComm any_answer]) = Some s /\
    closed_in s out_ch = Some true.
Proof.
  assert (H : run_actions (watch_ends ++ stop_after ++ [Run 3 BComm any_answer]) ≫= crashed =
    Some "send on closed channel") by (vm_compute; reflexivity).
  destruct (run_actions _) as [s|] eqn:Hs; [|done]. exists s. split; [done|].
  apply (only_monitor_crashes lw 5 eq_refl 7 s "send on closed channel"); [|done].
  by eapply run_actions_reachable.
Defined.

Lemma caller_receives_events_witness :
  exists s, run_actions watch_ends = Some s /\
    exists k, chans s !! out_ch = Some k /\ length (c_buf k) = 1%nat /\ Forall reader_event (c_buf k).
Proof.
  assert (H : (fun s => (fun k => length (c_buf k)) <$> chans s !! out_ch) <$> run_actions watch_ends =
    Some (Some 1%nat)) by (vm_compute; reflexivity).
  destruct (run_actions watch_ends) as [s|] eqn:Hs; [|done]. injection H as Hk.
  apply fmap_Some in Hk as (k & Hk & Hlen). exists s. split; [done|]. exists k. split; [done|].
  split; [done|]. apply (proj1 (caller_receives_events lw 5 eq_refl 7 s (run_actions_reachable _ _ Hs))).
  done.
Defined.
End ListWatchRuntime.
