(* ===== verification/Concurrency.v ===== *)
(** * Concurrency: goroutines that share a world and its mutexes

    A pool of programs over one world, stepped one external call or lock operation at a
    time in any order: the goroutines of a process (the HTTP server runs one per request)
    and, with different mutexes, the processes of the control plane.  The critical
    sections of [sync.RWMutex] are the [Lock]/[Unlock] nodes of [prog].

    Three general results about pools, used for the registries in [ConcurrentRegistry]:
    every execution is finite; programs whose calls are all made inside sections of one
    mutex (at most one call in a read section) behave as if every section ran alone
    ([atomic_simulation]), and do not deadlock; and an invariant of the world that
    every call of every thread keeps holds throughout ([pool_invariant]). *)

From stdpp Require Import relations.
From S2P Require Import Prelude Errors Effects.

(** ** The step relation *)

(** Who holds each mutex and how: a map from mutexes to their holders.  A goroutine
    releases only what it took itself, since every unlock is deferred by the function that
    locked. *)
Abbreviation locks := (gmap nat (gmap nat mode)).

Definition holders (L : locks) (m : nat) : gmap nat mode := default ∅ (L !! m).

Record pool (W A : Type) := mkPool {
  pool_world : W;
  pool_locks : locks;
  pool_threads : list (prog A) }.
Arguments mkPool {W A} _ _ _.
Arguments pool_world {W A} _.
Arguments pool_locks {W A} _.
Arguments pool_threads {W A} _.

(** When goroutine [i] may take the mutex: a writer waits for everybody, a reader for a
    writer. *)
Definition may_lock (h : gmap nat mode) (i : nat) (md : mode) : Prop :=
  match md with
  | Writer => h = ∅
  | Reader => h !! i = None /\ map_Forall (fun _ md => md = Reader) h
  end.

#[export] Instance may_lock_dec h i md : Decision (may_lock h i md).
Proof. destruct md; cbn; apply _. Defined.

Section step.
Context `{World W} {A : Type}.

Inductive cstep : relation (pool W A) :=
| step_call i w L ts e k :
    ts !! i = Some (Call e k) ->
    cstep (mkPool w L ts)
          (mkPool (handle e w).2 L (<[i := k (handle e w).1]> ts))
| step_lock i w L ts m md k :
    ts !! i = Some (Lock m md k) -> may_lock (holders L m) i md ->
    cstep (mkPool w L ts) (mkPool w (<[m := <[i := md]> (holders L m)]> L) (<[i := k]> ts))
| step_unlock i w L ts m md k :
    ts !! i = Some (Unlock m md k) -> holders L m !! i = Some md ->
    cstep (mkPool w L ts) (mkPool w (<[m := delete i (holders L m)]> L) (<[i := k]> ts)).

(** Goroutines started together on a world, no mutex held. *)
Definition start (w : W) (ts : list (prog A)) : pool W A := mkPool w ∅ ts.

(** The schedule as a list of goroutines to step; [None] when one of them cannot. *)
Definition step_thread (i : nat) (c : pool W A) : option (pool W A) :=
  match c with
  | mkPool w L ts =>
      match ts !! i with
      | Some (Call e k) => let '(r, w') := handle e w in Some (mkPool w' L (<[i := k r]> ts))
      | Some (Lock m md k) =>
          if decide (may_lock (holders L m) i md)
          then Some (mkPool w (<[m := <[i := md]> (holders L m)]> L) (<[i := k]> ts))
          else None
      | Some (Unlock m md k) =>
          if decide (holders L m !! i = Some md)
          then Some (mkPool w (<[m := delete i (holders L m)]> L) (<[i := k]> ts))
          else None
      | _ => None
      end
  end.

Fixpoint run_schedule (sched : list nat) (c : pool W A) : option (pool W A) :=
  match sched with
  | [] => Some c
  | i :: sched => step_thread i c ≫= run_schedule sched
  end.

Lemma step_thread_sound i c c' : step_thread i c = Some c' -> cstep c c'.
Proof.
  destruct c as [w L ts]. cbn. destruct (ts !! i) as [[]|] eqn:Hi; try done.
  - destruct (handle e w) as [r w'] eqn:Hh. intros [= <-].
    pose proof (step_call i w L ts e k Hi) as Hs. by rewrite Hh in Hs.
  - case_decide; [|done]. intros [= <-]. by eapply step_lock.
  - case_decide; [|done]. intros [= <-]. by eapply step_unlock.
Qed.

Lemma run_schedule_sound sched c c' : run_schedule sched c = Some c' -> rtc cstep c c'.
Proof.
  revert c; induction sched as [|i sched IH]; intros c; cbn.
  { intros [= <-]. apply rtc_refl. }
  destruct (step_thread i c) as [c1|] eqn:Hi; cbn; [|done].
  intros Hr. eapply rtc_l; [by eapply step_thread_sound|auto].
Qed.
End step.

(** ** Every execution is finite *)

Section finite.
Context {A : Type}.

(** The programs reachable from a program by one step, whatever the world answers. *)
Definition child (q p : prog A) : Prop :=
  match p with
  | Call e k => exists r, q = k r
  | Lock _ _ k | Unlock _ _ k => q = k
  | Ret _ | Halt _ => False
  end.

Lemma child_wf : well_founded child.
Proof.
  intros p. induction p as [a|e k IH|m md k IH|m md k IH|h];
    constructor; intros q Hq; cbn in Hq; subst; try destruct Hq as [r ->]; done || auto.
Qed.

(** One element of a list moves down. *)
Inductive update1 : relation (list (prog A)) :=
| update1_intro i p q ts : ts !! i = Some p -> child q p -> update1 (<[i := q]> ts) ts.

Lemma update1_acc ts : Acc update1 ts.
Proof.
  induction ts as [|p ts IH].
  { constructor. intros ts' H. by inversion H. }
  revert ts IH. induction (child_wf p) as [p _ IHp]. intros ts Hts.
  induction Hts as [ts Hts IHts]. constructor. intros ts' H.
  inversion H as [[|i] p' q ? Hi Hc]; subst; cbn in *.
  - simplify_eq. apply IHp; [done|]. by constructor.
  - apply IHts. by econstructor.
Qed.

Context `{World W}.

Lemma cstep_update1 (c c' : pool W A) :
  cstep c c' -> update1 (pool_threads c') (pool_threads c).
Proof. destruct 1; cbn; econstructor; try done; cbn; eauto. Qed.

(** There is no infinite execution, whatever the world answers and the scheduler does. *)
Lemma cstep_sn (c : pool W A) : Acc (flip cstep) c.
Proof.
  remember (pool_threads c) as ts eqn:Hts. revert c Hts.
  induction (update1_acc ts) as [ts _ IH]. intros c ->.
  constructor. intros c' Hc. eapply IH; [|done]. by apply cstep_update1.
Qed.

(** Progress step by step gives completion: where every reachable pool that is not [done]
    can step, some execution ends [done]. *)
Lemma run_to_completion (fin : pool W A -> Prop) c :
  (forall c', rtc cstep c c' -> fin c' \/ exists c'', cstep c' c'') ->
  exists c', rtc cstep c c' /\ fin c'.
Proof.
  induction (cstep_sn c) as [c _ IH]. intros Hp.
  destruct (Hp c) as [Hd|[c1 H1]]; [apply rtc_refl|by exists c; split; [apply rtc_refl|]|].
  destruct (IH c1 H1) as (c2 & H2 & Hd).
  { intros c' Hc'. apply Hp. by eapply rtc_l. }
  exists c2. split; [by eapply rtc_l|done].
Qed.
End finite.

(** ** An invariant that every call keeps *)

Section invariant.
Context `{World W} {A : Type} (P : ext -> Prop) (Q : A -> Prop) (I : W -> Prop).
Context (HI : forall e w, P e -> I w -> I (handle e w).2).

(** Whatever the interleaving and the mutexes: if each thread only makes calls of [P], and
    these keep [I], then [I] holds throughout and the threads keep behaving. *)
Lemma pool_invariant (c c' : pool W A) :
  rtc cstep c c' -> I (pool_world c) -> Forall (behaves P Q) (pool_threads c) ->
  I (pool_world c') /\ Forall (behaves P Q) (pool_threads c').
Proof.
  induction 1 as [|c1 c2 c3 Hs _ IH]; [done|]. intros Hi Hb. apply IH; clear IH.
  - destruct Hs as [i w L ts e k Hk| |]; cbn in *; [|done..].
    apply HI; [|done]. apply (Forall_lookup_1 _ _ _ _ Hb Hk).
  - destruct Hs as [i w L ts e k Hk|i w L ts m md k Hk _|i w L ts m md k Hk _];
      cbn in *; apply Forall_insert; try done; apply (Forall_lookup_1 _ _ _ _ Hb Hk).
Qed.
End invariant.

(** ** Sections of one mutex run as if alone *)

(** Where a goroutine is: outside, in a write section, or in a read section with the one
    call it may make before it or behind it. *)
Inductive phase := Outside | InWrite | InRead (call_left : bool).

Definition enter (md : mode) : phase :=
  match md with Writer => InWrite | Reader => InRead true end.

Definition after_call (ph : phase) : option phase :=
  match ph with
  | InWrite => Some InWrite
  | InRead true => Some (InRead false)
  | InRead false | Outside => None
  end.

Definition inside (md : mode) (ph : phase) : Prop :=
  match md, ph with
  | Writer, InWrite | Reader, InRead _ => True
  | _, _ => False
  end.

(** Every call is made inside a section of the mutex [m], a read section makes at most one,
    and the program neither nests sections nor exits. *)
Fixpoint guarded {A} (m : nat) (ph : phase) (p : prog A) : Prop :=
  match p with
  | Ret _ => ph = Outside
  | Lock m' md k => ph = Outside /\ m' = m /\ guarded m (enter md) k
  | Unlock m' md k => m' = m /\ inside md ph /\ guarded m Outside k
  | Call e k =>
      match after_call ph with
      | Some ph' => forall r, guarded m ph' (k r)
      | None => False
      end
  | Halt _ => False
  end.

Lemma guarded_bind {A B} m (f : A -> prog B) p ph :
  guarded m ph p -> (forall a, guarded m Outside (f a)) -> guarded m ph (p ≫= f).
Proof.
  unfold mbind, prog_mbind. intros Hp Hf. revert ph Hp.
  induction p as [a|e k IH|m' md k IH|m' md k IH|h]; intros ph; cbn; [by intros ->| | | |done].
  - destruct (after_call ph); [|done]. eauto.
  - intros (? & ? & ?). auto.
  - intros (? & ? & ?). auto.
Qed.

(** A lock scope: its body is followed by the unlock. *)
Fixpoint body_ok {A} (ph : phase) (p : prog A) : Prop :=
  match p with
  | Ret _ => True
  | Call e k =>
      match after_call ph with
      | Some ph' => forall r, body_ok ph' (k r)
      | None => False
      end
  | _ => False
  end.

Lemma inside_after_call md ph ph' : inside md ph -> after_call ph = Some ph' -> inside md ph'.
Proof. destruct md, ph as [| |[]]; naive_solver. Qed.

Lemma guarded_locked {A} m md (p : prog A) :
  body_ok (enter md) p -> guarded m Outside (locked m md p).
Proof.
  intros Hp. unfold locked, mbind, prog_mbind. cbn. split; [done|]. split; [done|].
  assert (Hin : inside md (enter md)) by by destruct md.
  revert Hin Hp. generalize (enter md). induction p as [a|e k IH| | |]; intros ph Hin; cbn.
  2: destruct (after_call ph) as [ph'|] eqn:Hph; [|done].
  2: intros Hk r; apply IH; [by eapply inside_after_call|done].
  all: done.
Qed.

Section atomic.
Context `{World W} {A : Type} (m : nat).

(** Run a section to its unlock. *)
Fixpoint run_section (p : prog A) (w : W) : option (prog A * W) :=
  match p with
  | Call e k => let '(r, w') := handle e w in run_section (k r) w'
  | Unlock _ _ k => Some (k, w)
  | _ => None
  end.

(** The coarse semantics: a goroutine at its lock runs the whole section in one step. *)
Inductive astep : relation (W * list (prog A)) :=
| astep_intro i w ts md k k' w' :
    ts !! i = Some (Lock m md k) -> run_section k w = Some (k', w') ->
    astep (w, ts) (w', <[i := k']> ts).

(** How a goroutine [p] of the fine semantics (world [w]) relates to its counterpart [q] of
    the coarse one (world [v]), by how it holds the mutex.  A write section takes effect
    at its unlock, a read section at its call. *)
Definition corresponds (v w : W) (held : option mode) (p q : prog A) : Prop :=
  match held with
  | None => p = q /\ guarded m Outside p
  | Some Writer =>
      guarded m InWrite p /\
      exists k, q = Lock m Writer k /\ run_section k v = run_section p w
  | Some Reader =>
      (q = Lock m Reader p /\ guarded m (InRead true) p) \/
      (p = Unlock m Reader q /\ guarded m Outside q)
  end.

Record simulates (c : pool W A) (v : W) (qs : list (prog A)) : Prop := {
  sim_length : length qs = length (pool_threads c);
  sim_thread : forall i p q, pool_threads c !! i = Some p -> qs !! i = Some q ->
    corresponds v (pool_world c) (holders (pool_locks c) m !! i) p q;
  sim_holder : forall i, is_Some (holders (pool_locks c) m !! i) ->
    is_Some (pool_threads c !! i);
  sim_exclusive : forall i j, holders (pool_locks c) m !! i = Some Writer ->
    is_Some (holders (pool_locks c) m !! j) -> j = i;
  sim_world : (forall i, holders (pool_locks c) m !! i <> Some Writer) -> v = pool_world c }.
End atomic.

#[global] Arguments holders : simpl never.

Lemma holders_insert L m h : holders (<[m := h]> L) m = h.
Proof. unfold holders. by rewrite lookup_insert_eq. Qed.

Lemma Forall_or {X} (P : X -> Prop) (Q : Prop) (l : list X) :
  (forall i x, l !! i = Some x -> P x \/ Q) -> Forall P l \/ Q.
Proof.
  induction l as [|x l IH]; intros Hl; [by left|].
  destruct (Hl 0%nat x) as [Hx|]; [done| |by right].
  destruct IH as [Hf|]; [|by left; constructor|by right].
  intros i y Hy. by apply (Hl (S i)).
Qed.

Section simulation.
Context `{World W} {A : Type} (m : nat).

#[local] Abbreviation sim := (simulates (A:=A) m).
#[local] Abbreviation corr := (corresponds (A:=A) m).

(** Only a writer's counterpart depends on the worlds. *)
Lemma corresponds_world v w v' w' held p q :
  corr v w held p q -> held <> Some Writer -> corr v' w' held p q.
Proof. by destruct held as [[]|]. Qed.

(** One goroutine moves while no other one writes. *)
Lemma sim_update i p q p' q' w w' L L' ts v v' qs :
  sim (mkPool w L ts) v qs -> ts !! i = Some p -> qs !! i = Some q ->
  (forall j, j <> i -> holders L' m !! j = holders L m !! j) ->
  (forall j, j <> i -> holders L m !! j <> Some Writer) ->
  corr v' w' (holders L' m !! i) p' q' ->
  (holders L' m !! i = Some Writer -> forall j, j <> i -> holders L m !! j = None) ->
  (holders L' m !! i <> Some Writer -> v' = w') ->
  sim (mkPool w' L' (<[i := p']> ts)) v' (<[i := q']> qs).
Proof.
  intros [Hl Ht Hh He Hw] Hp Hq HL Hnw Hc Hx Hv. cbn in *.
  pose proof (lookup_lt_Some _ _ _ Hp) as Hi.
  split; cbn.
  - by rewrite !length_insert.
  - intros j p1 q1. destruct (decide (j = i)) as [->|Hj].
    + rewrite !list_lookup_insert_eq by congruence. naive_solver.
    + rewrite !list_lookup_insert_ne by done. intros Hp1 Hq1. rewrite HL by done.
      eapply corresponds_world; [by apply (Ht j)|auto].
  - intros j Hj. destruct (decide (j = i)) as [->|Hne].
    + rewrite list_lookup_insert_eq; [done|congruence].
    + rewrite list_lookup_insert_ne by done. apply Hh. by rewrite <- HL.
  - intros j1 j2 H1 [md H2]. destruct (decide (j1 = i)) as [->|Hj1].
    + destruct (decide (j2 = i)) as [|Hj2]; [done|].
      rewrite HL, (Hx H1) in H2; done.
    + rewrite HL in H1 by done. by apply Hnw in H1.
  - eauto.
Qed.

Lemma sim_counterpart c v qs i p :
  sim c v qs -> pool_threads c !! i = Some p ->
  exists q, qs !! i = Some q /\ corr v (pool_world c) (holders (pool_locks c) m !! i) p q.
Proof.
  intros Hs Hp. destruct (lookup_lt_is_Some_2 qs i) as [q Hq].
  { rewrite (sim_length _ _ _ _ Hs). by apply lookup_lt_Some in Hp. }
  exists q. split; [done|]. by apply (sim_thread _ _ _ _ Hs i).
Qed.

Lemma sim_others c v qs i :
  sim c v qs -> is_Some (holders (pool_locks c) m !! i) ->
  forall j, j <> i -> holders (pool_locks c) m !! j <> Some Writer.
Proof. intros Hs Hi j Hj Hw. apply Hj. symmetry. by apply (sim_exclusive _ _ _ _ Hs j i). Qed.

Lemma sim_reader_world c v qs i :
  sim c v qs -> holders (pool_locks c) m !! i = Some Reader -> v = pool_world c.
Proof.
  intros Hs Hi. apply (sim_world _ _ _ _ Hs). intros j Hj.
  destruct (decide (j = i)) as [->|Hne]; [congruence|]. revert Hj. by apply (sim_others c v qs i).
Qed.

Lemma sim_alone c v qs i :
  sim c v qs -> holders (pool_locks c) m !! i = Some Writer ->
  forall j, j <> i -> holders (pool_locks c) m !! j = None.
Proof.
  intros Hs Hi j Hj. destruct (holders _ m !! j) eqn:Hh; [|done].
  by destruct Hj; apply (sim_exclusive _ _ _ _ Hs i j).
Qed.

#[local] Abbreviation simulated c v qs :=
  (exists v' qs', rtc (astep m) (v, qs) (v', qs') /\ sim c v' qs').

Lemma sim_stutter c v qs : sim c v qs -> simulated c v qs.
Proof. intros Hs. exists v, qs. split; [apply rtc_refl|done]. Qed.

Lemma sim_once c v qs v' qs' : astep m (v, qs) (v', qs') -> sim c v' qs' -> simulated c v qs.
Proof. intros Ha Hs. exists v', qs'. split; [by apply rtc_once|done]. Qed.

Lemma run_section_call e (k : resp e -> prog A) (w : W) :
  run_section (Call e k) w = run_section (k (handle e w).1) (handle e w).2.
Proof. cbn. by destruct (handle e w). Qed.

Lemma sim_step_call i w L ts e k v qs :
  sim (mkPool w L ts) v qs -> ts !! i = Some (Call e k) ->
  simulated (mkPool (handle e w).2 L (<[i := k (handle e w).1]> ts)) v qs.
Proof.
  intros Hs Hi. destruct (sim_counterpart _ _ _ _ _ Hs Hi) as (q & Hq & Hc). cbn in Hc.
  destruct (holders L m !! i) as [[]|] eqn:Hh; cbn in Hc; [|destruct Hc as [Hg Hr]|by destruct Hc].
  - pose proof (sim_reader_world _ _ _ _ Hs Hh) as ->. cbn in *.
    destruct Hc as [[-> Hg]|[? _]]; [|done]. specialize (Hg (handle e w).1).
    destruct (k (handle e w).1) as [| | |m' md k'|] eqn:Hk; cbn in Hg; try (by destruct Hg) || done.
    destruct Hg as (-> & Hmd & Hg), md; [|done].
    eapply (sim_once _ _ _ (handle e w).2 (<[i := k']> qs)).
    { econstructor; [done|]. by rewrite run_section_call, Hk. }
    eapply sim_update; try done.
    + by apply (sim_others _ _ _ _ Hs).
    + rewrite Hh. by right.
    + by rewrite Hh.
  - apply sim_stutter. rewrite <- (list_insert_id qs i q Hq).
    eapply sim_update; try done.
    + by apply (sim_others _ _ _ _ Hs).
    + rewrite Hh. split; [apply Hg|]. destruct Hr as (k0 & -> & Hr).
      exists k0. rewrite Hr. by destruct (handle e w).
    + intros _. by apply (sim_alone _ _ _ _ Hs).
Qed.

Lemma sim_step_lock i w L ts m' md k v qs :
  sim (mkPool w L ts) v qs -> ts !! i = Some (Lock m' md k) ->
  may_lock (holders L m') i md ->
  simulated (mkPool w (<[m' := <[i := md]> (holders L m')]> L) (<[i := k]> ts)) v qs.
Proof.
  intros Hs Hi Hm. destruct (sim_counterpart _ _ _ _ _ Hs Hi) as (q & Hq & Hc). cbn in Hc.
  destruct (holders L m !! i) as [[]|] eqn:Hh; cbn in Hc; [by destruct Hc as [(_ & ? & _)|[? _]]|by destruct Hc as [[? _] _]|].
  destruct Hc as (<- & _ & -> & Hg).
  assert (Hw : forall j, holders L m !! j <> Some Writer).
  { intros j Hj. destruct md; cbn in Hm; [by apply Hm in Hj|by rewrite Hm in Hj]. }
  pose proof (sim_world _ _ _ _ Hs Hw) as ->. cbn in *.
  apply sim_stutter. rewrite <- (list_insert_id qs i (Lock m md k) Hq).
  eapply sim_update; try done; rewrite ?holders_insert, ?lookup_insert_eq.
  - intros j Hj. by rewrite lookup_insert_ne.
  - destruct md; [by left|]. split; [done|by exists k].
  - intros [= ->] j Hj. cbn in Hm. by rewrite Hm.
Qed.

Lemma sim_step_unlock i w L ts m' md k v qs :
  sim (mkPool w L ts) v qs -> ts !! i = Some (Unlock m' md k) ->
  holders L m' !! i = Some md ->
  simulated (mkPool w (<[m' := delete i (holders L m')]> L) (<[i := k]> ts)) v qs.
Proof.
  intros Hs Hi Hm. destruct (sim_counterpart _ _ _ _ _ Hs Hi) as (q & Hq & Hc). cbn in Hc.
  assert (Hupd : m' = m -> guarded m Outside k ->
    sim (mkPool w (<[m' := delete i (holders L m')]> L) (<[i := k]> ts)) w (<[i := k]> qs)).
  { intros -> Hk. eapply sim_update; try done; rewrite ?holders_insert, ?lookup_delete_eq.
    - intros j Hj. by rewrite lookup_delete_ne.
    - by apply (sim_others _ _ _ _ Hs).
    - done.
    - done. }
  destruct (holders L m !! i) as [[]|] eqn:Hh; cbn in Hc.
  - pose proof (sim_reader_world _ _ _ _ Hs Hh) as ->. cbn in *.
    destruct Hc as [(-> & -> & _ & Hg)|[[= -> -> ->] Hg]].
    + eapply sim_once; [by econstructor|by apply Hupd].
    + apply sim_stutter. pose proof (Hupd eq_refl Hg) as Hu. by rewrite (list_insert_id _ _ _ Hq) in Hu.
  - destruct Hc as [(-> & Hmd & Hg) (k0 & -> & Hr)].
    eapply sim_once; [by econstructor|by apply Hupd].
  - by destruct Hc as (_ & _ & Hmd & _), md.
Qed.

Lemma sim_step c c' v qs : cstep c c' -> sim c v qs -> simulated c' v qs.
Proof.
  destruct 1; eauto using sim_step_call, sim_step_lock, sim_step_unlock.
Qed.

Lemma sim_steps c c' v qs : rtc cstep c c' -> sim c v qs -> simulated c' v qs.
Proof.
  intros Hr. revert v qs. induction Hr as [c|c1 c2 c3 H1 _ IH]; intros v qs Hs.
  { by apply sim_stutter. }
  destruct (sim_step _ _ _ _ H1 Hs) as (v1 & qs1 & Ha1 & Hs1).
  destruct (IH _ _ Hs1) as (v2 & qs2 & Ha2 & Hs2).
  exists v2, qs2. split; [by etrans|done].
Qed.

Lemma sim_start w ts : Forall (guarded m Outside) ts -> sim (start w ts) w ts.
Proof.
  intros Hg. split; cbn; try done.
  - intros i p q Hp Hq. simplify_eq. split; [done|]. by apply (Forall_lookup_1 _ _ _ _ Hg Hp).
  - intros i [md Hmd]. done.
Qed.

(** Every execution of guarded goroutines that has come to rest outside the sections is an
    execution of whole sections, one after the other. *)
Lemma atomic_simulation w ts (c : pool W A) :
  Forall (guarded m Outside) ts -> rtc cstep (start w ts) c ->
  holders (pool_locks c) m = ∅ ->
  rtc (astep m) (w, ts) (pool_world c, pool_threads c).
Proof.
  intros Hg Hr Hfree.
  destruct (sim_steps _ _ _ _ Hr (sim_start w ts Hg)) as (v & qs & Ha & Hs).
  replace (pool_threads c) with qs.
  - assert (Hv : v = pool_world c).
    { apply (sim_world _ _ _ _ Hs). intros i. by rewrite Hfree. }
    by rewrite <- Hv.
  - apply list_eq_same_length with (length qs); [by rewrite (sim_length _ _ _ _ Hs)|done|].
    intros i q p _ Hq Hp. pose proof (sim_thread _ _ _ _ Hs i p q Hp Hq) as Hc.
    rewrite Hfree in Hc. by destruct Hc.
Qed.

(** Of a pool of guarded goroutines either all have returned or one can step: there is no
    deadlock. *)
Lemma sim_progress c v qs :
  sim c v qs -> Forall (fun p => exists a, p = Ret a) (pool_threads c) \/ exists c', cstep c c'.
Proof.
  intros Hs. destruct c as [w L ts].
  destruct (decide (holders L m = ∅)) as [Hfree|(i & md & Hi)%map_choose].
  - apply Forall_or. intros i p Hp.
    destruct (sim_counterpart _ _ _ _ _ Hs Hp) as (q & _ & Hc). cbn in Hc.
    rewrite Hfree in Hc. destruct Hc as [_ Hg].
    destruct p as [a|e k|m' md k|m' md k|h]; cbn in Hg; [by eauto|done| |by destruct Hg as (_ & ? & _), md|done].
    right. destruct Hg as (_ & -> & _). eexists. eapply step_lock; [done|].
    rewrite Hfree. destruct md; [split; [done|apply map_Forall_empty]|done].
  - right. destruct (sim_holder _ _ _ _ Hs i) as [p Hp]; [by eexists|]. cbn in Hp.
    destruct (sim_counterpart _ _ _ _ _ Hs Hp) as (q & _ & Hc). cbn in Hc. rewrite Hi in Hc.
    assert (Hg : exists ph, ph <> Outside /\ guarded m ph p /\ inside md ph).
    { destruct md; [destruct Hc as [[_ ?]|[-> ?]]|destruct Hc as [? _]];
        [by exists (InRead true)|by exists (InRead false)|by exists InWrite]. }
    destruct Hg as (ph & Hph & Hg & Hin).
    destruct p as [a|e k|m' md' k|m' md' k|h]; cbn in Hg; [done| |by destruct Hg| |done].
    + eexists. by eapply step_call.
    + destruct Hg as (-> & Hin' & _). eexists. eapply step_unlock; [done|].
      rewrite Hi. by destruct md, md', ph.
Qed.

(** So whatever has happened, the goroutines can all run to their end. *)
Lemma guarded_complete w ts (c : pool W A) :
  Forall (guarded m Outside) ts -> rtc cstep (start w ts) c ->
  exists c', rtc cstep c c' /\ Forall (fun p => exists a, p = Ret a) (pool_threads c').
Proof.
  intros Hg Hr. apply run_to_completion. intros c' Hc'.
  destruct (sim_steps (start w ts) c' w ts) as (v & qs & _ & Hs); [by etrans| |].
  { by apply sim_start. }
  by eapply sim_progress.
Qed.

(** When all have returned nobody holds the mutex. *)
Lemma guarded_released w ts (c : pool W A) :
  Forall (guarded m Outside) ts -> rtc cstep (start w ts) c ->
  Forall (fun p => exists a, p = Ret a) (pool_threads c) -> holders (pool_locks c) m = ∅.
Proof.
  intros Hg Hr Hd. destruct (sim_steps _ _ _ _ Hr (sim_start w ts Hg)) as (v & qs & _ & Hs).
  apply map_empty. intros i. destruct (holders (pool_locks c) m !! i) as [md|] eqn:Hi; [|done].
  destruct (sim_holder _ _ _ _ Hs i) as [p Hp]; [by eexists|].
  destruct (sim_counterpart _ _ _ _ _ Hs Hp) as (q & _ & Hc).
  destruct (Forall_lookup_1 _ _ _ _ Hd Hp) as [a ->]. rewrite Hi in Hc.
  destruct md; [by destruct Hc as [[_ ?]|[? _]]|by destruct Hc].
Qed.
End simulation.
