(* ===== verification/Linearizability.v ===== *)
(** * Linearizability: clients of an object behind one mutex

    Clients that each issue a sequence of operations on a shared object, where every
    operation is one section of the object's mutex.  Given that the operations, run alone,
    implement a sequential specification, every concurrent execution implements it too:
    the clients get the answers of an interleaving of their sequences ([linearizable]). *)

From stdpp Require Import relations.
From S2P Require Import Prelude Errors Effects Concurrency.

(** ** One section *)

Lemma Forall_Ret {A} (ps : list (prog A)) :
  Forall (fun p => exists a, p = Ret a) ps -> exists l, ps = Ret <$> l.
Proof.
  induction 1 as [|p ps [a ->] _ [l ->]]; [by exists []|by exists (a :: l)].
Qed.

Section sections.
Context `{World W} (m : nat).

(** [p] is at a section of [m]; run from [w] it ends it with [q] left to do, in [w']. *)
Definition section {A} (p q : prog A) (w w' : W) : Prop :=
  exists md k, p = Lock m md k /\ run_section k w = Some (q, w').

Lemma run_section_bind {A B} (f : A -> prog B) (k k1 : prog A) (w w1 : W) :
  run_section k w = Some (k1, w1) -> run_section (k ≫= f) w = Some (k1 ≫= f, w1).
Proof.
  unfold mbind, prog_mbind.
  revert w; induction k as [a|e k IH|m' md k IH|m' md k IH|h]; intros w; cbn; try done.
  - destruct (handle e w). apply IH.
  - by intros [= <- <-].
Qed.

Lemma section_bind {A B} (f : A -> prog B) p q w w' :
  section p q w w' -> section (p ≫= f) (q ≫= f) w w'.
Proof.
  intros (md & k & -> & Hk). exists md, (k ≫= f). split; [done|]. by apply run_section_bind.
Qed.

Lemma section_run {A} (p : prog A) a w w' :
  section p (Ret a) w w' -> run p w = (Val a, w').
Proof.
  intros (md & k & -> & Hk). cbn. revert w Hk.
  induction k as [b|e k IH|m' md' k IH|m' md' k IH|h]; intros w; cbn; try done.
  - destruct (handle e w). apply IH.
  - by intros [= -> ->].
Qed.

Lemma section_locked {A} md ph (body : prog A) w :
  body_ok ph body -> exists a w', section (locked m md body) (Ret a) w w'.
Proof.
  intros Hb.
  assert (Hr : exists a w', run_section (body ≫= fun a => Unlock m md (Ret a)) w
                            = Some (Ret a, w')).
  { unfold mbind, prog_mbind. revert ph w Hb.
    induction body as [a|e k IH| | |]; intros ph w; cbn; try done.
    - eauto.
    - destruct (after_call ph) as [ph'|]; [|done]. intros Hk. destruct (handle e w) as [r w1].
      by apply (IH r ph' w1). }
  destruct Hr as (a & w' & Hr). exists a, w', md. eauto.
Qed.

(** A lock scope followed by computation without effects is one section. *)
Lemma section_then {A B} (f : A -> prog B) (g : A -> B) p w :
  (forall a, f a = Ret (g a)) -> (exists a w', section p (Ret a) w w') ->
  exists b w', section (p ≫= f) (Ret b) w w'.
Proof.
  intros Hf (a & w' & Hs). exists (g a), w'. rewrite <- Hf.
  by apply (section_bind f) in Hs.
Qed.
End sections.

(** ** Clients *)

Section clients.
Context `{World W} {Op Out State : Type}.
Variable m : nat.                               (* the object's mutex *)
Variable exec : Op -> prog Out.
Variable answer : Op -> State -> Out -> Prop.   (* the sequential specification *)
Variable next : Op -> State -> State.
Variable Rep : W -> State -> Prop.              (* which state a world represents *)
Variable ok : Op -> Prop.

Hypothesis exec_guarded : forall op, guarded m Outside (exec op).
Hypothesis exec_section : forall op w, exists out w', section m (exec op) (Ret out) w w'.
Hypothesis exec_spec : forall op w s, ok op -> Rep w s ->
  twp (exec op) (fun out w' => answer op s out /\ Rep w' (next op s)) w.

(** A client: its operations in sequence, collecting the answers. *)
Fixpoint client (ops : list Op) : prog (list Out) :=
  match ops with
  | [] => mret []
  | op :: ops => out ← exec op; outs ← client ops; mret (out :: outs)
  end.

(** The abstract system: every client has operations to do and answers received; a step
    performs one operation of one client on the state. *)
Inductive client_step : relation (State * list (list Op * list Out)) :=
| client_step_intro i s cs op ops outs out :
    cs !! i = Some (op :: ops, outs) -> answer op s out ->
    client_step (s, cs) (next op s, <[i := (ops, outs ++ [out])]> cs).

(** A client that has received [outs], as a program. *)
Definition received (outs : list Out) (p : prog (list Out)) : prog (list Out) :=
  foldr (fun o p => os ← p; mret (o :: os)) p outs.

Lemma received_snoc outs out p :
  received (outs ++ [out]) p = received outs (os ← p; mret (out :: os)).
Proof. unfold received. by rewrite foldr_app. Qed.

Lemma received_ret outs l : received outs (Ret l) = Ret (outs ++ l).
Proof. unfold received. induction outs as [|o outs IH]; cbn; [done|]. by rewrite IH. Qed.

Lemma received_section outs p q w w' :
  section m p q w w' -> section m (received outs p) (received outs q) w w'.
Proof.
  intros Hs. induction outs as [|o outs IH]; [done|]. by apply (section_bind m _ _ _ _ _ IH).
Qed.

(** The goroutines of clients in a given state. *)
Definition thread (c : list Op * list Out) : prog (list Out) := received c.2 (client c.1).

Definition matches (v : W) (ps : list (prog (list Out)))
    (s : State) (cs : list (list Op * list Out)) : Prop :=
  Rep v s /\ ps = thread <$> cs /\ Forall (fun c => Forall ok c.1) cs.

Lemma thread_step c md k k' (v v' : W) :
  thread c = Lock m md k -> run_section k v = Some (k', v') ->
  exists op ops out, c.1 = op :: ops /\ run (exec op) v = (Val out, v') /\
    k' = thread (ops, c.2 ++ [out]).
Proof.
  destruct c as [[|op ops] outs]; cbn [fst snd]; unfold thread; cbn [fst snd client].
  { unfold mret, prog_mret. by rewrite received_ret. }
  intros Hl Hr. destruct (exec_section op v) as (out & w' & Hs).
  pose proof (section_run _ _ _ _ _ Hs) as Hrun.
  apply (section_bind m (fun out => outs ← client ops; mret (out :: outs))) in Hs.
  apply (received_section outs) in Hs as (md' & k1 & Heq & Hk1).
  unfold mret in *. rewrite Hl in Heq. injection Heq as -> ->.
  rewrite Hk1 in Hr. injection Hr as <- ->.
  exists op, ops, out. split; [done|]. split; [done|]. by rewrite received_snoc.
Qed.

Lemma astep_matches v ps v' ps' s cs :
  astep m (v, ps) (v', ps') -> matches v ps s cs ->
  exists s' cs', client_step (s, cs) (s', cs') /\ matches v' ps' s' cs'.
Proof.
  intros Ha (Hrep & -> & Hok). inversion Ha as [i ? ? md k k' ? Hi Hr]; subst.
  rewrite list_lookup_fmap in Hi. destruct (cs !! i) as [c|] eqn:Hc; [|done].
  injection Hi as Hi. destruct (thread_step _ _ _ _ _ _ Hi Hr) as (op & ops & out & Hc1 & Hrun & ->).
  pose proof (Forall_lookup_1 _ _ _ _ Hok Hc) as Hops. cbn beta in Hops. rewrite Hc1 in Hops.
  inversion Hops as [|? ? Hop Hops']; subst.
  pose proof (exec_spec op v s Hop Hrep) as Hs. unfold twp in Hs. rewrite Hrun in Hs.
  destruct Hs as [Hans Hrep']. destruct c as [ops0 outs]; cbn in *; subst ops0.
  eexists _, _. split; [by econstructor|]. split; [done|]. split.
  - by rewrite list_fmap_insert.
  - by apply Forall_insert.
Qed.

Lemma asteps_match v ps v' ps' s cs :
  rtc (astep m) (v, ps) (v', ps') -> matches v ps s cs ->
  exists s' cs', rtc client_step (s, cs) (s', cs') /\ matches v' ps' s' cs'.
Proof.
  intros Hr. remember (v, ps) as x eqn:Hx. remember (v', ps') as y eqn:Hy.
  revert v ps s cs Hx. induction Hr as [x|x [v1 ps1] z H1 _ IH]; intros v ps s cs -> Hm.
  { simplify_eq. exists s, cs. split; [apply rtc_refl|done]. }
  destruct (astep_matches _ _ _ _ _ _ H1 Hm) as (s1 & cs1 & Hs1 & Hm1).
  destruct (IH Hy v1 ps1 s1 cs1 eq_refl Hm1) as (s2 & cs2 & Hs2 & Hm2).
  exists s2, cs2. split; [by eapply rtc_l|done].
Qed.

Lemma client_guarded ops : guarded m Outside (client ops).
Proof.
  induction ops as [|op ops IH]; cbn [client]; [done|].
  apply guarded_bind; [done|]. intros out. by apply guarded_bind.
Qed.

Lemma thread_done (w : W) c outs : thread c = Ret outs -> c = ([], outs).
Proof.
  destruct c as [[|op ops] os]; unfold thread; cbn [fst snd client].
  { unfold mret, prog_mret. rewrite received_ret, app_nil_r. by intros [= ->]. }
  intros Heq. exfalso. destruct (exec_section op w) as (out & w' & Hs).
  apply (section_bind m (fun out => outs ← client ops; mret (out :: outs))) in Hs.
  apply (received_section os) in Hs as (md & k & Hk & _). unfold mret in *. congruence.
Qed.

(** Every execution in which the clients have returned gives them the answers of some
    interleaving of their operations on the abstract state, and its final world represents
    the final state. *)
Lemma linearizable w s opss (c : pool W (list Out)) outss :
  Rep w s -> Forall (Forall ok) opss ->
  rtc cstep (start w (client <$> opss)) c -> pool_threads c = Ret <$> outss ->
  exists s', rtc client_step (s, (., []) <$> opss) (s', ([],.) <$> outss) /\
    Rep (pool_world c) s'.
Proof.
  intros Hrep Hok Hr Hdone.
  assert (Hg : Forall (guarded m Outside) (client <$> opss)).
  { apply Forall_fmap, Forall_true. intros ops. apply client_guarded. }
  assert (Hfree : holders (pool_locks c) m = ∅).
  { eapply guarded_released; [done|done|]. rewrite Hdone.
    apply Forall_fmap, Forall_true. intros a. by exists a. }
  pose proof (atomic_simulation m _ _ _ Hg Hr Hfree) as Ha.
  destruct (asteps_match _ _ _ _ s ((., []) <$> opss) Ha) as (s' & cs & Hs & Hrep' & Hps & _).
  { split; [done|]. split; [by rewrite <- list_fmap_compose|by apply Forall_fmap]. }
  exists s'. split; [|done]. replace (([],.) <$> outss) with cs; [done|].
  rewrite Hdone in Hps. clear -Hps exec_section w. revert cs Hps.
  induction outss as [|outs outss IH]; intros [|c0 cs]; cbn; try done.
  intros [= H1 H2]. symmetry in H1. apply (thread_done w) in H1 as ->.
  by rewrite <- (IH cs H2).
Qed.

(** And every execution can be continued until all clients have returned. *)
Lemma clients_complete w opss (c : pool W (list Out)) :
  rtc cstep (start w (client <$> opss)) c ->
  exists c' outss, rtc cstep c c' /\ pool_threads c' = Ret <$> outss.
Proof.
  intros Hr.
  destruct (guarded_complete m w (client <$> opss) c) as (c' & Hc' & Hd); [|done|].
  { apply Forall_fmap, Forall_true. intros ops. apply client_guarded. }
  apply Forall_Ret in Hd as [outss Hd]. eauto.
Qed.
End clients.
