(* ===== verification/ConcurrentRegistry.v ===== *)
(** * ConcurrentRegistry: the registries used by several goroutines and processes

    - The pod registry of one process serialises its operations with a [sync.RWMutex]:
      whatever the interleaving of the goroutines, the clients get the answers of a finite
      map ([pods_linearizable]), and all of them return ([pods_complete]).  So does the
      ReplicaSet registry ([replicasets_linearizable]).
    - The node registry takes no lock: two creations of one node can both succeed and one
      is lost ([CreateNode_race]).
    - A mutex does not span processes, nor the two operations of a scheduling pass: a pod
      deleted through the API can be written back ([scheduler_resurrects]).
    - What survives every interleaving, of any number of processes, is in ControlPlane.

    Everything here is about the etcd storage: how many calls an operation makes matters. *)

From stdpp Require Import relations.
From S2P Require Import Prelude Errors Effects Api Storage Registry Reference GoPath Names.
From S2P Require Import PodRegistry NodeRegistry ReplicaSetRegistry Scheduler Controller.
From S2P Require Import Handlers Concurrency Linearizability.

Module ConcurrentRegistry.

#[local] Abbreviation etcd := EtcdStorage.NewEtcdStorage.

(** ** Every operation is one section of the registry's mutex *)

(** The body of an operation: calls and branches, once its definitions are unfolded. *)
Ltac solve_body :=
  repeat first
    [ done
    | progress cbn [body_ok after_call enter call prog_bind mret prog_mret]
    | progress unfold mbind, prog_mbind
    | progress cbn [PodRegistry.storage PodRegistry.NewPodRegistry Storage.Get Storage.Create
        Storage.Update Storage.Delete Storage.List EtcdStorage.NewEtcdStorage
        ReplicaSetRegistry.storage ReplicaSetRegistry.NewReplicaSetRegistry]
    | progress unfold EtcdStorage.Create, EtcdStorage.Update, EtcdStorage.Get,
        EtcdStorage.Delete, EtcdStorage.List
    | progress intros
    | case_match ].

Section bodies.
Context `{Validator, Object Pod, Object ReplicaSet}.
Variable mu : nat.

#[local] Abbreviation preg := (PodRegistry.NewPodRegistry etcd mu).
#[local] Abbreviation rreg := (ReplicaSetRegistry.NewReplicaSetRegistry etcd mu).

(** A program that is one lock scope, then computation. *)
Definition one_section {A} (p : prog A) : Prop :=
  guarded mu Outside p /\
  forall (W : Type) (HW : World W) (w : W), exists a w', section mu p (Ret a) w w'.

Lemma one_section_locked {A} md (body : prog A) :
  body_ok (enter md) body -> one_section (locked mu md body).
Proof.
  intros Hb. split; [by apply guarded_locked|]. intros. by eapply section_locked.
Qed.

Lemma one_section_then {A B} (f : A -> prog B) (g : A -> B) p :
  (forall a, f a = Ret (g a)) -> one_section p -> one_section (p ≫= f).
Proof.
  intros Hf [Hg Hs]. split.
  - apply guarded_bind; [done|]. intros a. by rewrite Hf.
  - intros. by eapply section_then.
Qed.

Lemma pod_op_section op : one_section (PodRegistry.exec_op preg op).
Proof.
  destruct op; cbn [PodRegistry.exec_op];
    (eapply one_section_then; [intros; reflexivity|]).
  1-5: apply one_section_locked; solve_body.
  unfold PodRegistry.listPodsByStatus.
  eapply (one_section_then _ (fun got => match got with
    | Err err => Err (Errorf_w PodRegistry.ErrListPodsFailed (": " +:+ Error err))
    | Ok pods => Ok (Some (List.filter (fun pod => bool_decide (Pod_Status pod = status))
                             (elems pods)))
    end)); [by intros []|].
  apply one_section_locked; solve_body.
Qed.

Lemma rs_op_section op : one_section (ReplicaSetRegistry.exec_op rreg op).
Proof.
  destruct op; cbn [ReplicaSetRegistry.exec_op];
    (eapply one_section_then; [intros; reflexivity|]); apply one_section_locked; solve_body.
Qed.
End bodies.

(** ** The pod registry is linearizable *)

Definition pod_client_step :=
  client_step (Op:=PodRegistry.pod_op) PodRegistry.spec_answer PodRegistry.spec_step.

Section pods.
Context `{EtcdLaws W} `{!RandLaws W} `{ValidatorLaws} `{ObjectLaws Pod}.
Variable mu : nat.

#[local] Abbreviation reg := (PodRegistry.NewPodRegistry etcd mu).

(** The goroutines of the clients. *)
Definition pod_clients (w : W) (opss : list (list PodRegistry.pod_op)) : pool W _ :=
  start w (PodRegistry.exec_ops reg <$> opss).

Lemma pod_clients_eq w opss :
  pod_clients w opss = start w (client (PodRegistry.exec_op reg) <$> opss).
Proof. done. Qed.

(** C14: the pod registry of a process is linearizable.  Any number of goroutines perform
    sequences of registry operations on one registry, interleaved in any way at the
    granularity of single etcd calls.  When all have returned, their answers are those of
    some interleaving of whole operations on a finite map from names to pods, each client's
    operations in its own order; the store represents the map this interleaving ends with,
    and nothing outside "/pods/" has changed. *)
Theorem pods_linearizable opss (w : W) m (c : pool W (list PodRegistry.pod_result)) outss :
  up w -> PodRegistry.pods_view w m -> Forall (Forall PodRegistry.op_storable) opss ->
  rtc cstep (pod_clients w opss) c -> pool_threads c = Ret <$> outss ->
  exists m', rtc pod_client_step (m, (., []) <$> opss) (m', ([],.) <$> outss) /\
    PodRegistry.pods_view (pool_world c) m' /\
    unchanged_outside PodRegistry.pod_key w (pool_world c).
Proof.
  intros Hup Hv Hst Hr Hd. rewrite pod_clients_eq in Hr.
  unshelve epose proof (linearizable mu (PodRegistry.exec_op reg) PodRegistry.spec_answer
    PodRegistry.spec_step
    (fun w' m => up w' /\ PodRegistry.pods_view w' m /\
                 unchanged_outside PodRegistry.pod_key w w')
    PodRegistry.op_storable _ _ _ w m opss c outss _ Hst Hr Hd) as (m' & ? & _ & ? & ?).
  - intros op. apply pod_op_section.
  - intros op w'. by apply pod_op_section.
  - intros op w1 s Hop (Hup1 & Hv1 & Hu1).
    eapply twp_mono; [by apply (PodRegistry.exec_op_spec mu w1 s op)|].
    intros out w2 (Hans & Hv2 & Hfr & Hu2). split; [done|].
    split; [by eapply frame_up|]. split; [done|]. by eapply unchanged_trans.
  - split; [done|]. split; [done|]. by apply unchanged_same.
  - eauto.
Qed.

(** C27: goroutines that use one pod registry always finish.  Whatever etcd answers and
    however they are interleaved, no execution goes on for ever, and every execution can be
    continued until all of them have returned: nobody waits for the mutex for ever. *)
Theorem pods_complete opss (w : W) :
  Acc (flip cstep) (pod_clients w opss) /\
  forall c, rtc cstep (pod_clients w opss) c ->
    exists c' outss, rtc cstep c c' /\ pool_threads c' = Ret <$> outss.
Proof.
  split; [apply cstep_sn|]. intros c. rewrite pod_clients_eq. intros Hr.
  eapply clients_complete; [|done]. intros op. apply pod_op_section.
Qed.
End pods.

(** ** The ReplicaSet registry is linearizable *)

Definition rs_client_step :=
  client_step (Op:=ReplicaSetRegistry.rs_op) ReplicaSetRegistry.spec_answer
    ReplicaSetRegistry.spec_step.

Section replicasets.
Context `{EtcdLaws W} `{!RandLaws W} `{ObjectLaws ReplicaSet}.
Variable mu : nat.

#[local] Abbreviation reg := (ReplicaSetRegistry.NewReplicaSetRegistry etcd mu).

(** The goroutines of the clients. *)
Definition rs_clients (w : W) (opss : list (list ReplicaSetRegistry.rs_op)) : pool W _ :=
  start w (client (ReplicaSetRegistry.exec_op reg) <$> opss).

(** C18: the ReplicaSet registry of a process is linearizable, and its clients finish.  Any
    number of goroutines perform sequences of operations on one registry, interleaved at
    single etcd calls.  No execution goes on for ever and every one can be continued until
    all have returned; then their answers are those of some interleaving of whole operations
    on a finite map from names to ReplicaSets, each client's in its own order, the store
    represents the map this interleaving ends with, and no key outside "/replicasets/" has
    changed. *)
Theorem replicasets_linearizable opss (w : W) m :
  up w -> ReplicaSetRegistry.rs_view w m -> ReplicaSetRegistry.no_stray_rs_keys w ->
  Forall (Forall ReplicaSetRegistry.op_storable) opss ->
  Acc (flip cstep) (rs_clients w opss) /\
  forall c, rtc cstep (rs_clients w opss) c ->
    (exists c' outss, rtc cstep c c' /\ pool_threads c' = Ret <$> outss) /\
    forall outss, pool_threads c = Ret <$> outss ->
      exists m', rtc rs_client_step (m, (., []) <$> opss) (m', ([],.) <$> outss) /\
        ReplicaSetRegistry.rs_view (pool_world c) m' /\
        unchanged_outside ReplicaSetRegistry.rs_key w (pool_world c).
Proof.
  intros Hup Hv Hk Hst. split; [apply cstep_sn|]. intros c Hr. split.
  { eapply clients_complete; [|done]. intros op. apply rs_op_section. }
  intros outss Hd.
  unshelve epose proof (linearizable mu (ReplicaSetRegistry.exec_op reg)
    ReplicaSetRegistry.spec_answer ReplicaSetRegistry.spec_step
    (fun w' m => up w' /\ ReplicaSetRegistry.rs_view w' m /\
                 unchanged_outside ReplicaSetRegistry.rs_key w w')
    ReplicaSetRegistry.op_storable _ _ _ w m opss c outss _ Hst Hr Hd) as (m' & ? & _ & ? & ?).
  - intros op. apply rs_op_section.
  - intros op w'. by apply rs_op_section.
  - intros op w1 s Hop (Hup1 & Hv1 & Hu1). eapply twp_mono.
    { apply (ReplicaSetRegistry.rs_exec_op_spec mu w1 s op); [done..| |done].
      by eapply ReplicaSetRegistry.no_stray_step. }
    intros out w2 (Hans & Hv2 & Hfr & Hu2). split; [done|].
    split; [by eapply frame_up|]. split; [done|]. by eapply unchanged_trans.
  - split; [done|]. split; [done|]. by apply unchanged_same.
  - eauto.
Qed.
End replicasets.

(** ** The node registry takes no lock *)

Section nodes.
Context `{EtcdLaws W} `{ValidatorLaws} `{ObjectLaws Node}.

#[local] Abbreviation reg := (NodeRegistry.NewNodeRegistry etcd).
#[local] Abbreviation key n := (NodeRegistry.generateKey NodeRegistry.nodePrefix (Node_Name n)).

(** The last step of a creation. *)
Definition node_written (r : result unit) : prog (result unit) :=
  match r with
  | Err err => mret (Err (Errorf_w ErrEtcdClient (": " +:+ Error err)))
  | Ok _ => mret (Ok ())
  end.

(** A creation is a read followed by a write that no longer depends on the store. *)
Lemma CreateNode_steps n d resp :
  Node_tags n = true -> Encode n = Ok d -> resp_kvs resp = [] ->
  exists k, NodeRegistry.CreateNode reg n = Call (EtcdGet (key n)) k /\
    k (Ok resp) = Call (EtcdPut (key n) d) node_written.
Proof.
  intros Ht Hd Hr. eexists. split; [reflexivity|]. cbn. rewrite Hr. cbn.
  destruct (Node_Validate_cases n) as [[_ ->]|[Hf _]]; [|congruence].
  cbn. unfold EtcdStorage.Create. by rewrite Hd.
Qed.

Lemma get_absent k (w : W) :
  up w -> stored w !! k = None ->
  exists resp w', handle (EtcdGet k) w = (Ok resp, w') /\ resp_kvs resp = [] /\
    stored w' = stored w /\ up w'.
Proof.
  intros Hup Hk. pose proof (etcd_get k w) as Hg. pose proof (etcd_up (EtcdGet k) w Hup) as Hu.
  destruct (handle (EtcdGet k) w) as [[resp|e] w']; cbn in *; [|by destruct Hg].
  destruct Hg as [Hs Hkv]. rewrite Hk in Hkv. exists resp, w'.
  split; [done|]. split; [by destruct (resp_kvs resp)|done].
Qed.

Lemma put_up k d (w : W) :
  up w -> exists w', handle (EtcdPut k d) w = (Ok (), w') /\
    stored w' = <[k:=d]> (stored w) /\ up w'.
Proof.
  intros Hup. pose proof (etcd_put k d w) as Hp. pose proof (etcd_up (EtcdPut k d) w Hup) as Hu.
  destruct (handle (EtcdPut k d) w) as [[[]|e] w']; cbn in *; [by eauto|by destruct Hp].
Qed.

(** Two concurrent creations of one node can both succeed.  Whenever etcd answers and
    no node of that name is stored, there is an interleaving of two [CreateNode] calls for
    valid nodes of the same name in which both return nil; the store then holds the second
    node, and the first, whose creation was reported, is lost. *)
Theorem CreateNode_race n1 n2 (w : W) :
  up w -> Node_tags n1 = true -> Node_tags n2 = true -> storable n1 -> storable n2 ->
  Node_Name n1 = Node_Name n2 -> stored w !! key n1 = None ->
  exists c d, rtc cstep (start w [NodeRegistry.CreateNode reg n1;
                                  NodeRegistry.CreateNode reg n2]) c /\
    pool_threads c = [Ret (Ok ()); Ret (Ok ())] /\
    Encode n2 = Ok d /\ stored (pool_world c) = <[key n1 := d]> (stored w).
Proof.
  intros Hup Ht1 Ht2 (d1 & He1 & _)%Decode_Encode (d2 & He2 & _)%Decode_Encode Hn Hk.
  destruct (get_absent _ w Hup Hk) as (r1 & w1 & Hh1 & Hr1 & Hs1 & Hu1).
  destruct (get_absent (key n1) w1 Hu1) as (r2 & w2 & Hh2 & Hr2 & Hs2 & Hu2); [by rewrite Hs1|].
  destruct (put_up (key n1) d1 w2 Hu2) as (w3 & Hh3 & Hs3 & Hu3).
  destruct (put_up (key n1) d2 w3 Hu3) as (w4 & Hh4 & Hs4 & _).
  destruct (CreateNode_steps n1 d1 r1 Ht1 He1 Hr1) as (k1 & -> & Hk1).
  destruct (CreateNode_steps n2 d2 r2 Ht2 He2 Hr2) as (k2 & -> & Hk2).
  rewrite <- Hn in *. exists (mkPool w4 ∅ [Ret (Ok ()); Ret (Ok ())]), d2.
  split; [|split; [done|split; [done|]]; cbn [pool_world];
           by rewrite Hs4, Hs3, Hs2, Hs1, insert_insert_eq].
  apply (run_schedule_sound [0; 1; 0; 1]%nat). unfold start.
  cbn. rewrite Hh1. cbn. rewrite Hh2. cbn. rewrite Hk1. cbn. rewrite Hh3. cbn.
  rewrite Hk2. cbn. by rewrite Hh4.
Qed.
End nodes.

(** ** Concrete interleavings *)

Module Witness.
Import PodRegistry.

Definition c1 : Container := mkContainer "web" "nginx".
Definition p1 : Pod := mkPod (meta_named "a") (mkPodSpec (Some [c1]) 1) "" "".
Definition p2 : Pod := mkPod (meta_named "a") (mkPodSpec (Some [c1]) 2) "" "".
Definition node1 : Node := mkNode (meta_named "n") (mkNodeSpec false "one") "Ready".
Definition node2 : Node := mkNode (meta_named "n") (mkNodeSpec false "two") "Ready".

(** Two goroutines create the pod "a" and read it back; a third lists the pods. *)
Definition clients : list (list pod_op) :=
  [[OpCreate p1; OpGet "a"]; [OpCreate p2; OpGet "a"]; [OpList]].

(** The list and the first read overlap; both creations wait for each other. *)
Definition schedule : list nat :=
  [0; 0; 0; 0;  0; 2; 0; 2; 2; 0;  1; 1; 1;  1; 1; 1]%nat.

(** A store with the pending pod "a" and the node "n". *)
Definition cluster : ref_world :=
  world_with {[ generateKey "a" := ser_put (default_status p1) "";
                NodeRegistry.node_key_of "n" := ser_put node1 "" ]}.

(** The API server (first goroutine) deletes the pod "a" after the scheduler (second
    goroutine) has listed it. *)
Definition deleting_and_scheduling : pool ref_world (result unit) :=
  start cluster
    [ DeletePod (NewPodRegistry etcd 1) "a";
      Scheduler.schedulePendingPods (Scheduler.NewScheduler (NewPodRegistry etcd 2)
        (NodeRegistry.NewNodeRegistry etcd) 1) ].

Definition late_delete : list nat := [1; 1; 1; 1; 1;  0; 0; 0;  1; 1; 1]%nat.
End Witness.

Lemma pods_linearizable_witness :
  exists c outss,
    rtc cstep (pod_clients 1 empty_world Witness.clients) c /\ pool_threads c = Ret <$> outss /\
    exists m', rtc pod_client_step (∅, (., []) <$> Witness.clients) (m', ([],.) <$> outss) /\
      PodRegistry.pods_view (pool_world c) m' /\
      unchanged_outside PodRegistry.pod_key empty_world (pool_world c).
Proof.
  destruct (run_schedule Witness.schedule (pod_clients 1 empty_world Witness.clients))
    as [c|] eqn:Hc; [|vm_compute in Hc; done].
  assert (Hd : exists outss, pool_threads c = Ret <$> outss).
  { vm_compute in Hc. injection Hc as <-. cbn [pool_threads].
    by eexists [_; _; _]. }
  destruct Hd as [outss Hd]. exists c, outss. apply run_schedule_sound in Hc.
  split; [done|]. split; [done|].
  apply (pods_linearizable 1 Witness.clients empty_world ∅ c outss); [..|done|done].
  - apply Forall_nil_2.
  - apply PodRegistry.empty_pods_view.
  - by repeat constructor.
Defined.

(** Two creations of "web" and a list, one client after the other. *)
Definition rs_clients_ops : list (list ReplicaSetRegistry.rs_op) :=
  [[ReplicaSetRegistry.OpCreate ReplicaSetRegistry.Witness.rs1; ReplicaSetRegistry.OpGet "web"];
   [ReplicaSetRegistry.OpCreate ReplicaSetRegistry.Witness.rs1; ReplicaSetRegistry.OpList]].

Lemma replicasets_linearizable_witness :
  exists c outss,
    rtc cstep (rs_clients 1 empty_world rs_clients_ops) c /\ pool_threads c = Ret <$> outss /\
    exists m', rtc rs_client_step (∅, (., []) <$> rs_clients_ops) (m', ([],.) <$> outss) /\
      ReplicaSetRegistry.rs_view (pool_world c) m' /\
      unchanged_outside ReplicaSetRegistry.rs_key empty_world (pool_world c).
Proof.
  destruct (replicasets_linearizable 1 rs_clients_ops empty_world ∅) as [_ Hall];
    [apply Forall_nil_2 | intros n; by rewrite !lookup_empty
    | intros k [d Hd]; cbn in Hd; by rewrite lookup_empty in Hd | by repeat constructor |].
  destruct (Hall _ (rtc_refl _ _)) as [(c & outss & Hr & Hd) _]. exists c, outss.
  split; [exact Hr|]. split; [exact Hd|]. by apply (Hall c Hr).
Defined.

Lemma CreateNode_race_witness :
  exists c d,
    rtc cstep (start empty_world
      [NodeRegistry.CreateNode (NodeRegistry.NewNodeRegistry etcd) Witness.node1;
       NodeRegistry.CreateNode (NodeRegistry.NewNodeRegistry etcd) Witness.node2]) c /\
    pool_threads c = [Ret (Ok ()); Ret (Ok ())] /\ Encode Witness.node2 = Ok d /\
    stored (pool_world c) =
      <[NodeRegistry.generateKey NodeRegistry.nodePrefix "n" := d]> (stored empty_world).
Proof.
  apply (CreateNode_race Witness.node1 Witness.node2 empty_world); try done.
  apply Forall_nil_2.
Defined.

(** A deleted pod comes back: the deletion returns nil, the pass ends without an error,
    and the pod is stored again, assigned to the node. *)
Lemma scheduler_resurrects :
  exists c, rtc cstep Witness.deleting_and_scheduling c /\
    pool_threads c = [Ret (Ok ()); Ret (Ok ())] /\
    stored (pool_world c) !! PodRegistry.generateKey "a" =
      Some (ser_put (Scheduler.assign Witness.node1 (PodRegistry.default_status Witness.p1)) "").
Proof.
  destruct (run_schedule Witness.late_delete Witness.deleting_and_scheduling)
    as [c|] eqn:Hc; [|vm_compute in Hc; done].
  exists c. split; [by apply run_schedule_sound in Hc|].
  vm_compute in Hc. injection Hc as <-. by split; vm_compute.
Qed.

End ConcurrentRegistry.
