(* ===== verification/ControlPlane.v ===== *)
(** * ControlPlane: what holds under every interleaving of the processes

    API servers, schedulers and controllers run as separate processes with mutexes of their
    own and share only etcd.  The registries' refinement theorems speak of one client at a
    time; here any number of requests, scheduling loops and controller loops are
    interleaved call by call, over an etcd that may fail.  The invariant of the store that
    survives this: every object is kept under its own name, and the pods and nodes passed
    validation. *)

From stdpp Require Import relations.
From S2P Require Import Prelude Errors Effects Api Storage Registry Reference GoPath Names.
From S2P Require Import PodRegistry NodeRegistry ReplicaSetRegistry Scheduler Controller.
From S2P Require Import Handlers Concurrency.

Module ControlPlane.

#[local] Abbreviation etcd := EtcdStorage.NewEtcdStorage.

(** ** The invariant *)

Section invariant.
Context `{Object Pod, Object Node, Object ReplicaSet}.

(** What may be stored under a key: if it is the key of a pod, a valid pod of that name; if
    it is the key of a node, a valid node of that name; if it is the key of a ReplicaSet, a
    ReplicaSet of that name. *)
Definition entry_ok (k d : string) : Prop :=
  (forall n, k = PodRegistry.generateKey n ->
     exists p, Encode p = Ok d /\ Pod_Name p = n /\ Pod_tags p = true) /\
  (forall n, k = NodeRegistry.node_key_of n ->
     exists x, Encode x = Ok d /\ Node_Name x = n /\ Node_tags x = true) /\
  (forall n, k = ReplicaSetRegistry.generateKey n ->
     exists rs, Encode rs = Ok d /\ RS_Name rs = n).

Definition store_ok `{StoreView W} (w : W) : Prop := map_Forall entry_ok (stored w).

(** The calls of the control plane: reads and deletions, writes of good entries, and calls
    that stay within the process. *)
Definition safe_call (e : ext) : Prop :=
  match e with
  | EtcdPut k d => entry_ok k d
  | EtcdGet _ | EtcdGetPrefix _ | EtcdDelete _ | EtcdDeletePrefix _ => True
  | e => is_local e = true
  end.

Definition safe {A} (p : prog A) : Prop := behaves safe_call (fun _ => True) p.

Lemma safe_call_keeps `{EtcdLaws W} e (w : W) :
  safe_call e -> store_ok w -> store_ok (handle e w).2.
Proof.
  unfold store_ok. intros He Hw.
  destruct e; cbn [safe_call] in He; try done;
    try (rewrite etcd_local; done).
  - pose proof (etcd_put key val w) as Hl.
    assert (map_Forall entry_ok (<[key:=val]> (stored w))) by by apply map_Forall_insert_2.
    destruct (handle (EtcdPut key val) w) as [[]]; cbn;
      [by rewrite Hl|by destruct Hl as [_ [-> | ->]]].
  - pose proof (etcd_get key w) as Hl.
    destruct (handle (EtcdGet key) w) as [[]]; cbn;
      [by destruct Hl as [-> _]|by destruct Hl as [_ ->]].
  - rename prefix0 into p. pose proof (etcd_get_prefix p w) as Hl.
    destruct (handle (EtcdGetPrefix p) w) as [[]]; cbn;
      [by destruct Hl as [-> _]|by destruct Hl as [_ ->]].
  - pose proof (etcd_delete key w) as Hl.
    assert (map_Forall entry_ok (delete key (stored w))) by by apply map_Forall_delete.
    destruct (handle (EtcdDelete key) w) as [[]]; cbn;
      [by rewrite Hl|by destruct Hl as [_ [-> | ->]]].
  - rename prefix0 into p. pose proof (etcd_delete_prefix p w) as Hl.
    assert (map_Forall entry_ok (without_prefix p (stored w))).
    { intros k d Hk. apply map_lookup_filter_Some in Hk as [Hk _]. by apply Hw. }
    destruct (handle (EtcdDeletePrefix p) w) as [[]]; cbn;
      [by rewrite Hl|by destruct Hl as [_ [-> | ->]]].
Qed.

(** ** What each part of the control plane writes *)

Lemma safe_bind {A B} (p : prog A) (f : A -> prog B) :
  safe p -> (forall a, safe (f a)) -> safe (p ≫= f).
Proof. intros Hp Hf. eapply behaves_bind; [done|]. intros a _. apply Hf. Qed.

Lemma safe_locked {A} m md (p : prog A) : safe p -> safe (locked m md p).
Proof. apply behaves_locked. Qed.

Lemma safe_ret {A} (a : A) : safe (Ret a).
Proof. done. Qed.

Lemma safe_Get `{Object A} key : safe (Get etcd (A:=A) key).
Proof. apply safe_bind; [done|]. intros r. by repeat case_match. Qed.

Lemma safe_List `{Object A} p (l : ListObj A) : safe (List etcd p l).
Proof. apply safe_bind; [done|]. intros r. by repeat case_match. Qed.

Lemma safe_Delete key : safe (Delete etcd key).
Proof. apply safe_bind; [done|]. intros r. by repeat case_match. Qed.

Lemma safe_Create `{Object A} key (a : A) :
  (forall d, Encode a = Ok d -> entry_ok key d) -> safe (Create etcd key a).
Proof.
  intros Hok. cbn. unfold EtcdStorage.Create.
  destruct (Encode a) as [d|e]; [|done]. apply safe_bind; [by split; [apply Hok|]|].
  intros r. by repeat case_match.
Qed.

Lemma safe_Update `{Object A} key (a : A) :
  (forall d, Encode a = Ok d -> entry_ok key d) -> safe (Update etcd key a).
Proof. apply safe_Create. Qed.

Lemma pod_entry_ok p d :
  Encode p = Ok d -> Pod_tags p = true -> entry_ok (PodRegistry.generateKey (Pod_Name p)) d.
Proof.
  intros Hd Ht. split; [|split]; intros n Hn; [|by inversion Hn..].
  apply (inj _) in Hn as <-. eauto.
Qed.

Lemma node_entry_ok x d :
  Encode x = Ok d -> Node_tags x = true -> entry_ok (NodeRegistry.node_key_of (Node_Name x)) d.
Proof.
  intros Hd Ht. split; [|split]; intros n Hn; [by inversion Hn| |by inversion Hn].
  apply (inj _) in Hn as <-. eauto.
Qed.

Lemma rs_entry_ok rs d :
  Encode rs = Ok d -> entry_ok (ReplicaSetRegistry.generateKey (RS_Name rs)) d.
Proof.
  intros Hd. split; [|split]; intros n Hn; [by inversion Hn|by inversion Hn|].
  apply (inj _) in Hn as <-. eauto.
Qed.
End invariant.

Create HintDb safe discriminated.
#[local] Hint Resolve safe_bind safe_locked safe_ret safe_Get safe_List safe_Delete : safe.

(** Sequences, lock scopes and branches, down to the calls of a registry. *)
Ltac solve_safe :=
  repeat first
    [ done | by eauto with safe
    | lazymatch goal with
      | |- safe (_ ≫= _) => apply safe_bind
      | |- safe (locked _ _ _) => apply safe_locked
      | |- safe (let _ := _ in _) => cbv zeta
      end
    | progress intros | case_match ].

Section registries.
Context `{ValidatorLaws} `{Object Pod, Object Node, Object ReplicaSet}.
Variable mu : nat.

#[local] Abbreviation preg := (PodRegistry.NewPodRegistry etcd mu).
#[local] Abbreviation nreg := (NodeRegistry.NewNodeRegistry etcd).
#[local] Abbreviation rreg := (ReplicaSetRegistry.NewReplicaSetRegistry etcd mu).

Lemma safe_CreatePod pod : safe (PodRegistry.CreatePod preg pod).
Proof.
  unfold PodRegistry.CreatePod. fold (PodRegistry.default_status pod).
  apply safe_locked, safe_bind; [apply safe_Get|]. intros [p|e]; [done|].
  destruct (Pod_Validate_cases (PodRegistry.default_status pod)) as [[Ht ->]|[_ [err ->]]]; [|done].
  apply safe_bind; [|done]. apply safe_Create. intros d Hd.
  rewrite <- (PodRegistry.default_status_name pod). by apply pod_entry_ok.
Qed.

Lemma safe_UpdatePod pod : safe (PodRegistry.UpdatePod preg pod).
Proof.
  unfold PodRegistry.UpdatePod. apply safe_locked.
  destruct (Pod_Validate_cases pod) as [[Ht ->]|[_ [err ->]]]; [|done].
  apply safe_Update. intros d Hd. by apply pod_entry_ok.
Qed.

Lemma safe_DeletePod name : safe (PodRegistry.DeletePod preg name).
Proof. unfold PodRegistry.DeletePod. solve_safe. Qed.

Lemma safe_GetPod name : safe (PodRegistry.GetPod preg name).
Proof. unfold PodRegistry.GetPod. solve_safe. Qed.

Lemma safe_ListPods : safe (PodRegistry.ListPods preg).
Proof. unfold PodRegistry.ListPods. solve_safe. Qed.

#[local] Hint Resolve safe_ListPods : safe.

Lemma safe_listPodsByStatus status : safe (PodRegistry.listPodsByStatus preg status).
Proof. unfold PodRegistry.listPodsByStatus. solve_safe. Qed.

(** A node name that [path.Join] leaves as it is, or no name at all (which validation
    refuses).  Names with "..", "." or empty elements are not kept. *)
Definition kept_by_Join (name : string) : Prop :=
  name = "" \/ NodeRegistry.generateKey NodeRegistry.nodePrefix name = NodeRegistry.node_key_of name.

Lemma kept_by_Join_entry_ok node d :
  kept_by_Join (Node_Name node) -> Node_tags node = true -> Encode node = Ok d ->
  entry_ok (NodeRegistry.generateKey NodeRegistry.nodePrefix (Node_Name node)) d.
Proof.
  intros [Hn| ->] Ht Hd; [|by apply node_entry_ok]. by rewrite Node_tags_unnamed in Ht.
Qed.

Lemma safe_CreateNode node :
  kept_by_Join (Node_Name node) -> safe (NodeRegistry.CreateNode nreg node).
Proof.
  intros Hp. unfold NodeRegistry.CreateNode.
  apply safe_bind; [apply safe_Get|]. intros [p|e]; [done|].
  destruct (Node_Validate_cases node) as [[Ht ->]|[_ [err ->]]]; [|done].
  apply safe_Create. intros d. by apply kept_by_Join_entry_ok.
Qed.

Lemma safe_UpdateNode node :
  kept_by_Join (Node_Name node) -> safe (NodeRegistry.UpdateNode nreg node).
Proof.
  intros Hp. unfold NodeRegistry.UpdateNode.
  destruct (Node_Validate_cases node) as [[Ht ->]|[_ [err ->]]]; [|done].
  apply safe_Update. intros d. by apply kept_by_Join_entry_ok.
Qed.

Lemma safe_GetNode name : safe (NodeRegistry.GetNode nreg name).
Proof. unfold NodeRegistry.GetNode. solve_safe. Qed.

Lemma safe_DeleteNode name : safe (NodeRegistry.DeleteNode nreg name).
Proof. unfold NodeRegistry.DeleteNode. solve_safe. Qed.

Lemma safe_ListNodes : safe (NodeRegistry.ListNodes nreg).
Proof. unfold NodeRegistry.ListNodes. solve_safe. Qed.

Lemma safe_rs_write rs :
  (forall d, Encode rs = Ok d -> entry_ok (ReplicaSetRegistry.generateKey (RS_Name rs)) d).
Proof. intros d. apply rs_entry_ok. Qed.

#[local] Hint Resolve safe_Create safe_Update safe_rs_write : safe.

Lemma safe_rs_Create rs : safe (ReplicaSetRegistry.Create rreg rs).
Proof. unfold ReplicaSetRegistry.Create. solve_safe. Qed.

Lemma safe_rs_Update rs : safe (ReplicaSetRegistry.Update rreg rs).
Proof. unfold ReplicaSetRegistry.Update. solve_safe. Qed.

Lemma safe_rs_Get name : safe (ReplicaSetRegistry.Get rreg name).
Proof. unfold ReplicaSetRegistry.Get. solve_safe. Qed.

Lemma safe_rs_Delete name : safe (ReplicaSetRegistry.Delete rreg name).
Proof. unfold ReplicaSetRegistry.Delete. solve_safe. Qed.

Lemma safe_rs_List : safe (ReplicaSetRegistry.List rreg).
Proof. unfold ReplicaSetRegistry.List. solve_safe. Qed.
End registries.
#[local] Hint Resolve safe_CreatePod safe_UpdatePod safe_DeletePod safe_GetPod safe_ListPods
  safe_listPodsByStatus safe_CreateNode safe_UpdateNode safe_GetNode safe_DeleteNode
  safe_ListNodes safe_rs_Create safe_rs_Update safe_rs_Get safe_rs_Delete safe_rs_List : safe.

Section processes.
Context `{ValidatorLaws} `{Object Pod, Object Node, Object ReplicaSet}.
Context `{EntityReader Pod, EntityReader Node, EntityReader ReplicaSet}.

(** The requests whose body is read as a node: POST and PUT of the node routes. *)
Definition carries_node (r : APIServer.Route) : bool :=
  HasPrefix (APIServer.r_path r) "/nodes" &&
  (bool_decide (APIServer.r_method r = "POST") || bool_decide (APIServer.r_method r = "PUT")).

(** A node that is sent has a name [path.Join] keeps (the others leave the registry's part
    of the key space); nothing is asked of any other request. *)
Definition request_ok (r : APIServer.Route) (req : Request) : Prop :=
  carries_node r = true ->
  forall node : Node, read_entity (body req) = Ok node -> kept_by_Join (Node_Name node).

Ltac unfold_handlers :=
  unfold APIServer.healthz,
    PodHandler.CreatePod, PodHandler.ListPods, PodHandler.LoadPodIntoRequest,
    PodHandler.GetPod, PodHandler.UpdatePod, PodHandler.DeletePod,
    PodHandler.ListUnassignedPods, PodRegistry.ListUnassignedPods,
    NodeHandler.CreateNode, NodeHandler.ListNodes, NodeHandler.LoadNodeIntoRequest,
    NodeHandler.GetNode, NodeHandler.UpdateNode, NodeHandler.DeleteNode,
    ReplicasetHandler.CreateReplicaset, ReplicasetHandler.ListReplicasets,
    ReplicasetHandler.LoadReplicasetIntoRequest, ReplicasetHandler.GetReplicaset,
    ReplicasetHandler.UpdateReplicaset, ReplicasetHandler.DeleteReplicaset;
  cbn [PodHandler.podRegistry NodeHandler.nodeRegistry ReplicasetHandler.replicasetRegistry].

(** Every handler behind every route. *)
Lemma safe_route mu1 mu2 r req :
  r ∈ APIServer.registerRoutes (APIServer.NewAPIServer etcd mu1 mu2) ->
  request_ok r req -> safe (APIServer.r_handler r req []).
Proof.
  intros Hr.
  assert (Hroutes : Forall (fun r => request_ok r req -> safe (APIServer.r_handler r req []))
    (APIServer.registerRoutes (APIServer.NewAPIServer etcd mu1 mu2))).
  { unfold APIServer.registerRoutes, APIServer.NewAPIServer, APIServer.RegisterPodRoutes,
      APIServer.RegisterNodeRoutes, APIServer.RegisterReplicasetRoutes.
    cbn [app]. repeat (apply Forall_cons; split); [..|apply Forall_nil_2]; intros Hreq;
      try specialize (Hreq eq_refl);
      cbn [APIServer.r_handler APIServer.podRegistry APIServer.nodeRegistry
        APIServer.replicasetRegistry]; unfold_handlers; solve_safe. }
  rewrite Forall_forall in Hroutes. by apply Hroutes.
Qed.

Lemma safe_local e : is_local e = true -> safe (call e).
Proof. intros He. split; [|done]. by destruct e. Qed.

#[local] Hint Resolve safe_local : safe.

Section scheduler.
Variables (mu : nat) (rate : Z).

#[local] Abbreviation sched :=
  (Scheduler.NewScheduler (PodRegistry.NewPodRegistry etcd mu)
     (NodeRegistry.NewNodeRegistry etcd) rate).

Lemma safe_schedule_loop nodes pods : safe (Scheduler.schedule_loop sched nodes pods).
Proof.
  induction pods as [|pod pods IH]; cbn [Scheduler.schedule_loop]; [done|].
  apply safe_bind; [by apply safe_local|]. intros i. destruct (nodes !! Z.to_nat i); [|done].
  cbv zeta. apply safe_bind; [apply safe_UpdatePod|]. by intros [[]|e].
Qed.

#[local] Hint Resolve safe_schedule_loop : safe.

Lemma safe_schedulePendingPods : safe (Scheduler.schedulePendingPods sched).
Proof.
  unfold Scheduler.schedulePendingPods, PodRegistry.ListPendingPods.
  apply safe_bind; [apply safe_listPodsByStatus|]. intros [pods|e]; [|done].
  apply safe_bind; [apply safe_ListNodes|]. intros [nodes|e]; [|done].
  destruct (_ =? _)%nat; [done|apply safe_schedule_loop].
Qed.

Lemma safe_Scheduler_Start rounds : safe (Scheduler.Start sched rounds).
Proof.
  induction rounds as [|rounds IH]; cbn [Scheduler.Start]; [done|].
  apply safe_bind; [by apply safe_local|]. intros [e|]; [done|].
  apply safe_bind; [apply safe_schedulePendingPods|done].
Qed.
End scheduler.

Section controller.
Variables (mu1 mu2 : nat) (fuel : nat).

#[local] Abbreviation ctl :=
  (Controller.NewReplicaSetController (ReplicaSetRegistry.NewReplicaSetRegistry etcd mu1)
     (PodRegistry.NewPodRegistry etcd mu2)).

Lemma safe_GenerateName base : safe (Names.GenerateName fuel base).
Proof.
  eapply behaves_mono; [apply Names.GenerateName_behaves|by intros ? <-|done].
Qed.

Lemma safe_create_pods base cs : safe (Controller.create_pods ctl fuel base cs).
Proof.
  induction cs as [|c cs IH]; cbn [Controller.create_pods]; [done|].
  apply safe_bind; [apply safe_GenerateName|]. intros name.
  apply safe_bind; [apply safe_CreatePod|]. by intros [[[]|e] p].
Qed.

Lemma safe_create_replicas base cs n : safe (Controller.create_replicas ctl fuel base cs n).
Proof.
  induction n as [|n IH]; cbn [Controller.create_replicas]; [done|].
  apply safe_bind; [apply safe_create_pods|]. by intros [[]|e].
Qed.

Lemma safe_Reconcile rs : safe (Controller.Reconcile ctl fuel rs).
Proof.
  unfold Controller.Reconcile. apply safe_bind; [apply safe_rs_Get|]. intros [cur|e]; [|done].
  apply safe_bind; [apply safe_ListPods|]. intros [pods|e]; [|done].
  cbn [Controller.getPodsForReplicaSet]. cbv zeta.
  destruct (_ <? _); [|destruct (_ <? _); [apply safe_rs_Update|done]].
  apply safe_bind; [apply safe_create_replicas|]. intros [[]|e]; [apply safe_rs_Update|done].
Qed.

Lemma safe_Run : safe (Controller.Run ctl fuel).
Proof.
  unfold Controller.Run. apply safe_bind; [apply safe_rs_List|]. intros [rss|e]; [|done].
  induction (elems rss) as [|rs l IH]; cbn [Controller.reconcile_all]; [done|].
  apply safe_bind; [apply safe_Reconcile|]. by intros [[]|e].
Qed.

Lemma safe_Controller_Start rounds : safe (Controller.Start ctl fuel rounds).
Proof.
  induction rounds as [|rounds IH]; cbn [Controller.Start]; [done|].
  apply safe_bind; [by apply safe_local|]. intros [e|]; [done|].
  apply safe_bind; [apply safe_Run|done].
Qed.
End controller.

(** ** Any number of processes *)

(** A goroutine of the control plane: a request served by some API server, the loop of some
    scheduler or of some controller (for any number of rounds).  Every process has mutexes
    of its own. *)
Inductive activity :=
| Serving (mu1 mu2 : nat) (route : nat) (req : Request)
| Scheduling (mu : nat) (rate : Z) (rounds : nat)
| Controlling (mu1 mu2 fuel : nat) (rounds : nat).

Definition perform (a : activity) : prog unit :=
  match a with
  | Serving mu1 mu2 i req =>
      match APIServer.registerRoutes (APIServer.NewAPIServer etcd mu1 mu2) !! i with
      | Some r => _ ← APIServer.r_handler r req []; mret ()
      | None => mret ()
      end
  | Scheduling mu rate rounds =>
      Scheduler.Start (Scheduler.NewScheduler (PodRegistry.NewPodRegistry etcd mu)
        (NodeRegistry.NewNodeRegistry etcd) rate) rounds
  | Controlling mu1 mu2 fuel rounds =>
      Controller.Start (Controller.NewReplicaSetController
        (ReplicaSetRegistry.NewReplicaSetRegistry etcd mu1)
        (PodRegistry.NewPodRegistry etcd mu2)) fuel rounds
  end.

Definition activity_ok (a : activity) : Prop :=
  match a with
  | Serving mu1 mu2 i req =>
      forall r, APIServer.registerRoutes (APIServer.NewAPIServer etcd mu1 mu2) !! i = Some r ->
        request_ok r req
  | _ => True
  end.

Lemma safe_perform a : activity_ok a -> safe (perform a).
Proof.
  destruct a as [mu1 mu2 i req| |]; cbn [perform activity_ok]; intros Ha.
  - destruct (_ !! i) as [r|] eqn:Hr; [|done]. apply safe_bind; [|done].
    eapply safe_route; [by eapply list_elem_of_lookup_2|by apply Ha].
  - apply safe_Scheduler_Start.
  - apply safe_Controller_Start.
Qed.

(** C5: the invariant of the store under every interleaving.  Any number of requests to
    any number of API servers, of schedulers and of ReplicaSet controllers run at the same
    time, interleaved call by call, over an etcd that may fail at any moment (a failed
    write may or may not have taken effect).  At every moment every stored object is the
    encoding of an object kept under its own name, and the pods and nodes passed
    validation.  Condition ([request_ok]): a node that is POSTed or PUT to the node routes
    has a name that [path.Join] leaves as it is, or an empty one; pods, ReplicaSets and
    all other requests are unrestricted.  The condition is needed:
    [NodeRegistry.CreateNode_escapes_prefix]. *)
Theorem control_plane_keeps_store_ok `{EtcdLaws W} acts (w : W) (c : pool W unit) :
  store_ok w -> Forall activity_ok acts ->
  rtc cstep (start w (perform <$> acts)) c -> store_ok (pool_world c).
Proof.
  intros Hw Ha Hr.
  apply (pool_invariant safe_call (fun _ => True) store_ok safe_call_keeps _ _ Hr); [done|].
  apply Forall_fmap. eapply Forall_impl; [done|]. apply safe_perform.
Qed.
End processes.

(** ** A concrete control plane *)

Module Witness.
#[export] Instance reader `{Object A} : EntityReader A := Decode.

Definition pod : Pod :=
  mkPod (meta_named "a") (mkPodSpec (Some [mkContainer "web" "nginx"]) 1) "" "".
Definition node : Node := mkNode (meta_named "n") (mkNodeSpec false "one") "Ready".

Definition post (b : string) : Request := mkRequest ∅ ∅ b ∅.

(** Two API servers create a pod and a node (routes 1 and 7) while a scheduler and a
    controller run. *)
Definition acts : list activity :=
  [Serving 1 2 1 (post (ser_put pod "")); Serving 3 4 7 (post (ser_put node ""));
   Scheduling 5 1 2; Controlling 6 7 100 2].

Definition schedule : list nat := [0; 1; 2; 0; 1; 0; 0; 3; 3; 2; 2; 2; 2]%nat.
End Witness.

#[local] Existing Instance Witness.reader.

Lemma control_plane_keeps_store_ok_witness :
  exists c, run_schedule Witness.schedule (start empty_world (perform <$> Witness.acts)) = Some c /\
    size (stored (pool_world c)) = 2%nat /\ store_ok (pool_world c).
Proof.
  assert (Hs : (fun c => size (stored (pool_world c))) <$>
    run_schedule Witness.schedule (start empty_world (perform <$> Witness.acts)) = Some 2%nat)
    by (vm_compute; reflexivity).
  destruct (run_schedule Witness.schedule _) as [c|] eqn:Hc; [|done].
  exists c. split; [done|]. split.
  - by injection Hs.
  - apply (control_plane_keeps_store_ok Witness.acts empty_world).
    + apply map_Forall_empty.
    + apply Forall_cons; split; [|apply Forall_cons; split; [|by repeat constructor]];
        intros r [= <-] Hr; [discriminate Hr|].
      intros node Hnode. vm_compute in Hnode. injection Hnode as <-. right. vm_compute. reflexivity.
    + by eapply run_schedule_sound.
Defined.

End ControlPlane.
