(* ===== verification/Cluster.v ===== *)
(** * Cluster: the kubelet and the API server over HTTP

    The kubelet's programs make HTTP requests; the API server's programs answer them.
    [link] puts the two together: every request of a program is served by the server's
    route, on the store.  What lies between is net/http and go-restful, whose behaviour is
    a parameter ([Http]) with laws ([HttpLaws]): which route a URL of the kubelet leads to,
    that JSON arrives as it was sent, and that the client sees the status first written. *)

From stdpp Require Import pretty.
From S2P Require Import Prelude Errors Effects Api Storage Registry Reference GoPath Names.
From S2P Require Import PodRegistry NodeRegistry ReplicaSetRegistry Scheduler Handlers.
From S2P Require Import ApiServer Kubelet.

Module Cluster.

Lemma filter_bool_NoDup {A} (f : A -> bool) l : NoDup l -> NoDup (List.filter f l).
Proof.
  induction 1 as [|a l Ha _ IH]; cbn; [constructor|]. destruct (f a); [|done].
  constructor; [|done]. by intros [Hin _]%elem_of_filter_bool.
Qed.

(** ** HTTP between the kubelet and the server *)

(** [dispatch]: the request that reaches the server's routes for a method, a URL and a body;
    [None] when no route matches, which is answered with 404.  [wire]: the status and the
    body the client gets for the writes of a handler. *)
Class Http := {
  dispatch : string -> string -> string -> option api_op;
  wire : Response -> Z * string }.

Definition write_status (wr : write) : Z :=
  match wr with
  | WriteHeader s | WriteHeaderAndEntity s _ | WriteErr s _ => s
  end.

(** Letters that mean themselves in a URL: letters, digits and [-._~]. *)
Definition unreserved (c : Ascii.ascii) : bool :=
  Names.occurs c
    "abcdefghijklmnopqrstuvwxyzABCDEFGHIJKLMNOPQRSTUVWXYZ0123456789-._~".

Definition url_safe (s : string) : Prop := str_forall unreserved s = true.

(** net/http and go-restful for a server at [addr]. *)
Class HttpLaws (addr : string) `{Http, Kubelet.PodListDecoder}
    `{EntityReader Pod, EntityReader Node} `{ObjectLaws Pod, ObjectLaws Node} := {
  post_nodes : forall (node : Node) b, storable node -> Encode node = Ok b ->
    exists req,
      dispatch "POST" ("http://" +:+ addr +:+ "/api/v1/nodes") b = Some (OpPost KNode req) /\
      ReadEntity req = Ok node;
  get_pods : forall n, url_safe n ->
    exists req,
      dispatch "GET" ("http://" +:+ addr +:+ "/api/v1/pods?nodeName=" +:+ n) "" =
        Some (OpListAll KPod req) /\
      QueryParameter req "nodeName" = n;
  put_pod : forall n (pod : Pod) b, url_safe n -> plain n -> storable pod -> Encode pod = Ok b ->
    exists req,
      dispatch "PUT" ("http://" +:+ addr +:+ "/api/v1/pods/" +:+ n) b =
        Some (OpNamed PUT KPod req) /\
      PathParameter req "name" = n /\ ReadEntity req = Ok pod;
  wire_status : forall wr rest, (wire (wr :: rest)).1 = write_status wr;
  wire_pods : forall s l, Forall storable l ->
    Kubelet.decode_pods (wire [WriteHeaderAndEntity s (EPods (Some l))]).2 =
      Ok (Some (Some <$> l)) }.

(** ** Linking *)

Section link.
Context `{Validator, Object Pod, Object Node, Object ReplicaSet}.
Context `{EntityReader Pod, EntityReader Node, EntityReader ReplicaSet} `{Http}.
Variable server : APIServer.APIServer.

Definition http_do (m u b : string) : prog (result (Z * string)) :=
  match dispatch m u b with
  | Some op => resp ← serve server op; mret (Ok (wire resp))
  | None => mret (Ok (wire [WriteHeader StatusNotFound]))
  end.

(** Every HTTP request of a program is served. *)
Fixpoint link {A} (p : prog A) : prog A :=
  match p with
  | Ret a => Ret a
  | Call e k =>
      match e return (resp e -> prog A) -> prog A with
      | HttpDo m u b => fun rest => http_do m u b ≫= rest
      | e => fun rest => Call e rest
      end (fun r => link (k r))
  | Lock m md k => Lock m md (link k)
  | Unlock m md k => Unlock m md (link k)
  | Halt h => Halt h
  end.
End link.

Section cluster.
Context {St : Storage} `{StorageLaws St W} `{ValidatorLaws}
  `{ObjectLaws Pod, ObjectLaws Node, ObjectLaws ReplicaSet}
  `{EntityReader Pod, EntityReader Node, EntityReader ReplicaSet}
  `{Kubelet.PodListDecoder} `{Http}.
Variables mu1 mu2 : nat.
Variable k : Kubelet.Kubelet.
Context {HL : HttpLaws (Kubelet.apiServerURL k)}.

#[local] Abbreviation server := (APIServer.NewAPIServer St mu1 mu2).
#[local] Abbreviation linked := (link server).

(** A request that reaches a route is answered by the contract. *)
Lemma http_do_spec m u b op (w : W) c :
  dispatch m u b = Some op -> represents w c -> op_ok op ->
  twp (http_do server m u b) (fun r w' =>
    exists resp, r = Ok (wire resp) /\ spec_response op c resp /\ represents w' (spec_next op c)) w.
Proof.
  intros Hd Hw Hok. unfold http_do. rewrite Hd. prog_step.
  eapply twp_mono; [by apply (serve_spec mu1 mu2 op w c)|].
  intros resp w' [Hresp Hw']. rewrite twp_ret. by exists resp.
Qed.

(** The status of an answer. *)
Lemma writes_status wr rest a :
  writes wr a -> (wire (wr :: rest)).1 = match a with Status s | StatusWith s _ => s end.
Proof.
  intros Hw. rewrite wire_status. destruct wr, a; cbn in *; naive_solver.
Qed.

(** ** Registration *)

Definition own_node : Node :=
  mkNode (meta_named (Kubelet.nodeName k)) (mkNodeSpec false "") NodeReady.

(** What the registration comes to: with a name that is free the node is stored, with one
    that is taken the server answers 409 and nothing changes. *)
Definition registration (c : cluster) : result unit * cluster :=
  match c_nodes c !! Kubelet.nodeName k with
  | Some _ => (Err (ErrText ("failed to register node, status code: " +:+ pretty StatusConflict)), c)
  | None => (Ok (), mkCluster (c_pods c) (<[Kubelet.nodeName k := own_node]> (c_nodes c)) (c_rss c))
  end.

Lemma registerNode_spec (w : W) c :
  represents w c -> plain (Kubelet.nodeName k) -> storable own_node ->
  twp (linked (Kubelet.registerNode k)) (fun out w' =>
    out = (registration c).1 /\ represents w' (registration c).2) w.
Proof.
  intros Hw Hp Hst. unfold Kubelet.registerNode. fold own_node.
  destruct (Decode_Encode own_node Hst) as (b & Henc & _). rewrite Henc. cbn [link].
  destruct (post_nodes own_node b Hst Henc) as (req & Hd & Hread).
  unfold call, mbind, prog_mbind. cbn [prog_bind link].
  change (prog_bind ?f ?p) with (p ≫= f). rewrite twp_bind.
  eapply twp_mono; [apply (http_do_spec _ _ _ _ w c Hd Hw)|].
  { cbn. rewrite Hread. intros node [= <-]. by split; [right|]. }
  intros r w' (resp & -> & Hresp & Hw'). cbn in Hresp, Hw'. rewrite Hread in *.
  unfold registration. unfold spec_post in Hresp, Hw'. cbn [k_name k_valid NodeKind] in Hresp, Hw'.
  change (Node_Name own_node) with (Kubelet.nodeName k) in *.
  assert (Htags : Node_tags own_node = true).
  { unfold Node_tags, ObjectMeta_tags, required_string. apply bool_decide_eq_true_2. by destruct Hp. }
  destruct (c_nodes c !! Kubelet.nodeName k) as [old|]; [|rewrite Htags in Hresp, Hw'];
    cbn [fst snd k_conflict k_entity k_default id] in Hresp, Hw';
    apply Forall2_cons_inv_r in Hresp as (wr & rest & Hwr & Hrest & ->);
    pose proof (writes_status wr rest _ Hwr) as Hcode; destruct (wire (wr :: rest)) as [code body];
    cbn [fst] in Hcode; subst code; cbn; rewrite twp_ret; (split; [done|]); [by destruct c|done].
Qed.

(** ** Polling *)

Definition pods_storable (c : cluster) : Prop := map_Forall (fun _ p => storable p) (c_pods c).

(** The pods of this node, in some order. *)
Definition own_pods (m : gmap string Pod) (l : list Pod) : Prop :=
  NoDup l /\
  forall p, p ∈ l <-> NodeName p = Kubelet.nodeName k /\ m !! Pod_Name p = Some p.

Lemma own_pods_filter (m : gmap string Pod) l :
  named_by PodKind m -> l ≡ₚ (map_to_list m).*2 ->
  own_pods m (List.filter (fun p => bool_decide (NodeName p = Kubelet.nodeName k)) l).
Proof.
  intros Hnm Hperm. split.
  - apply filter_bool_NoDup. rewrite Hperm. apply NoDup_fmap_2_strong; [|apply NoDup_map_to_list].
    intros [n p] [n' p'] Hp%elem_of_map_to_list Hp'%elem_of_map_to_list Heq. cbn in Heq. subst p'.
    pose proof (Hnm _ _ Hp). pose proof (Hnm _ _ Hp'). cbn in *. by subst.
  - intros p. rewrite elem_of_filter_bool, bool_decide_eq_true, (Scheduler.elem_of_values m) by done.
    split.
    + intros [[n Hn] Hnode]. split; [done|]. pose proof (Hnm _ _ Hn) as Hname. cbn in Hname.
      by rewrite Hname.
    + intros [Hnode Hp]. split; [by eexists|done].
Qed.

Lemma getPodAssignments_spec (w : W) c :
  represents w c -> pods_storable c ->
  url_safe (Kubelet.nodeName k) -> Kubelet.nodeName k <> "" ->
  twp (linked (Kubelet.getPodAssignments k)) (fun out w' =>
    represents w' c /\ exists l, out = Ok (Some (Some <$> l)) /\ own_pods (c_pods c) l) w.
Proof.
  intros Hw Hst Hurl Hne. destruct (get_pods (Kubelet.nodeName k) Hurl) as (req & Hd & Hq).
  unfold Kubelet.getPodAssignments, call, mbind, prog_mbind. cbn [prog_bind link].
  change (prog_bind ?f ?p) with (p ≫= f). rewrite twp_bind.
  eapply twp_mono; [apply (http_do_spec _ _ _ _ w c Hd Hw); done|].
  intros r w' (resp & -> & (l & Hperm & ->) & Hw'). rewrite Hq in *.
  rewrite bool_decide_eq_true_2 by done.
  assert (Hnm : named_by PodKind (c_pods c)) by apply Hw.
  pose proof (own_pods_filter (c_pods c) l Hnm Hperm) as Hown.
  set (mine := List.filter _ l) in *. pose proof (wire_pods StatusOK mine) as Hwire.
  destruct (wire [WriteHeaderAndEntity StatusOK (EPods (Some mine))]) as [code body].
  cbn [snd] in Hwire. cbn [link prog_bind]. rewrite Hwire.
  - cbn. rewrite twp_ret. split; [done|]. by exists mine.
  - apply Forall_forall. intros p [_ Hp]%Hown. by apply (Hst _ _ Hp).
Qed.

(** ** Reporting *)

(** The error for a status that is not 200. *)
Definition refused (status : Z) : result unit :=
  Err (ErrText ("failed to update pod status, status code: " +:+ pretty status)).

(** What a report of [pod] comes to: the stored pod is replaced by the kubelet's. *)
Definition report (pod : Pod) (c : cluster) : result unit * cluster :=
  match c_pods c !! Pod_Name pod with
  | None => (refused StatusNotFound, c)
  | Some _ =>
      if Pod_tags pod
      then (Ok (), mkCluster (<[Pod_Name pod := pod]> (c_pods c)) (c_nodes c) (c_rss c))
      else (refused StatusBadRequest, c)
  end.

Lemma updatePodStatus_spec url_ok pod (w : W) c :
  represents w c -> url_safe (Pod_Name pod) -> plain (Pod_Name pod) -> storable pod ->
  (forall u, url_ok u = Ok ()) ->
  twp (linked (Kubelet.updatePodStatus k url_ok pod)) (fun out w' =>
    out = (report pod c).1 /\ represents w' (report pod c).2) w.
Proof.
  intros Hw Hurl Hp Hst Hok. unfold Kubelet.updatePodStatus.
  destruct (Decode_Encode pod Hst) as (b & Henc & _). rewrite Henc, Hok.
  destruct (put_pod (Pod_Name pod) pod b Hurl Hp Hst Henc) as (req & Hd & Hname & Hread).
  unfold call, mbind, prog_mbind. cbn [prog_bind link].
  change (prog_bind ?f ?p) with (p ≫= f). rewrite twp_bind.
  eapply twp_mono; [apply (http_do_spec _ _ _ _ w c Hd Hw)|].
  { cbn. rewrite Hread. by intros ? [= <-]. }
  intros r w' (resp & -> & Hresp & Hw'). cbn in Hresp, Hw'. rewrite Hname, Hread in *.
  unfold report. unfold spec_named in Hresp, Hw'. cbn [k_name k_valid PodKind] in Hresp, Hw'.
  rewrite bool_decide_eq_false_2 in Hresp, Hw' by (intros Hd'; by apply Hd').
  destruct (c_pods c !! Pod_Name pod) as [old|]; [destruct (Pod_tags pod)|];
    cbn [fst snd k_entity] in Hresp, Hw';
    apply Forall2_cons_inv_r in Hresp as (wr & rest & Hwr & Hrest & ->);
    pose proof (writes_status wr rest _ Hwr) as Hcode; destruct (wire (wr :: rest)) as [code body];
    cbn [fst] in Hcode; subst code; cbn; rewrite twp_ret; (split; [done|]); [done|by destruct c..].
Qed.

(** ** A poll of new pods *)

(** A pod that a poll lists and the kubelet does not know is started. *)
Lemma runNewPods_starts (kb : Kubelet.Kubelet) m l pod :
  own_pods m l -> pod ∈ l -> Kubelet.pods kb !! Pod_Name pod = None ->
  pod ∈ (Kubelet.runNewPods kb l).2.
Proof.
  intros [_ Hown] Hin Hnew. pose proof (Kubelet.runNewPods_spec kb l) as Hspec.
  destruct (Kubelet.runNewPods kb l) as [k' st]. cbn [snd].
  destruct Hspec as (_ & _ & Hst & Hpods & Hall). rewrite Forall_forall in Hst, Hall.
  destruct (Hall pod Hin) as [q Hq]. rewrite Hpods, Hnew in Hq.
  apply List.find_some in Hq as [Hq Hname%bool_decide_eq_true].
  apply list_elem_of_In in Hq. destruct (Hst q Hq) as [_ Hql].
  assert (q = pod) as <-; [|done].
  apply Hown in Hin as [_ Hp]. apply Hown in Hql as [_ Hq']. rewrite Hname in Hq'. congruence.
Qed.

Lemma scheduled_named_by nodes m m' :
  Scheduler.scheduled nodes m m' -> named_by PodKind m -> named_by PodKind m'.
Proof.
  intros Hs Hnm n p' Hp'. specialize (Hs n). destruct (m !! n) as [p|] eqn:Hm; [|congruence].
  specialize (Hnm _ _ Hm). cbn in *. destruct (Scheduler.pending p).
  - destruct Hs as (nn & node & _ & Hm'). rewrite Hm' in Hp'. by injection Hp' as <-.
  - rewrite Hs in Hp'. by injection Hp' as <-.
Qed.

Lemma scheduled_storable nodes m m' :
  Scheduler.scheduled nodes m m' -> map_Forall (fun _ p => storable p) m ->
  (forall n p nn node, m !! n = Some p -> Scheduler.pending p = true ->
     nodes !! nn = Some node -> storable (Scheduler.assign node p)) ->
  map_Forall (fun _ p => storable p) m'.
Proof.
  intros Hs Hm Hst n p' Hp'. specialize (Hs n). destruct (m !! n) as [p|] eqn:Hp; [|congruence].
  destruct (Scheduler.pending p) eqn:Hpend.
  - destruct Hs as (nn & node & Hnode & Hm'). rewrite Hm' in Hp'. injection Hp' as <-. eauto.
  - rewrite Hs in Hp'. injection Hp' as <-. eauto.
Qed.

Section schedule.
Variables (mu : nat) (rate : Z).

#[local] Abbreviation sched :=
  (Scheduler.NewScheduler (PodRegistry.NewPodRegistry St mu) (NodeRegistry.NewNodeRegistry St) rate).

(** A pass of the scheduler schedules every pending pod and changes nothing else. *)
Lemma schedule_spec (w : W) c :
  represents w c -> PodRegistry.pods_wf (c_pods c) -> c_nodes c <> ∅ ->
  (forall n p nn node, c_pods c !! n = Some p -> Scheduler.pending p = true ->
     c_nodes c !! nn = Some node -> storable (Scheduler.assign node p)) ->
  twp (Scheduler.schedulePendingPods sched) (fun out w' => out = Ok () /\
    exists m', Scheduler.scheduled (c_nodes c) (c_pods c) m' /\
      represents w' (mkCluster m' (c_nodes c) (c_rss c))) w.
Proof.
  intros Hw Hwf Hne Hassign. assert (Hw' := Hw). destruct Hw' as (Hup & [Hpv Hpn] & [Hnv _] & _).
  eapply twp_mono;
    [by apply (Scheduler.schedulePendingPods_spec mu rate w (c_pods c) (c_nodes c))|].
  intros out w1 (-> & Hup1 & Hu1 & m' & Hv1 & Hs). split; [done|]. exists m'. split; [done|].
  by apply (represents_new_pods w w1 c); [..|eapply scheduled_named_by].
Qed.

Lemma schedule_then_poll (w : W) c :
  represents w c -> PodRegistry.pods_wf (c_pods c) -> c_nodes c <> ∅ -> pods_storable c ->
  (forall n p nn node, c_pods c !! n = Some p -> Scheduler.pending p = true ->
     c_nodes c !! nn = Some node -> storable (Scheduler.assign node p)) ->
  url_safe (Kubelet.nodeName k) -> Kubelet.nodeName k <> "" ->
  twp (_ ← Scheduler.schedulePendingPods sched; linked (Kubelet.getPodAssignments k))
    (fun out w' => exists m' l, Scheduler.scheduled (c_nodes c) (c_pods c) m' /\
       represents w' (mkCluster m' (c_nodes c) (c_rss c)) /\
       out = Ok (Some (Some <$> l)) /\ own_pods m' l) w.
Proof.
  intros Hw Hwf Hne Hst Hassign Hurl Hn.
  rewrite twp_bind. eapply twp_mono; [by apply (schedule_spec w c)|].
  intros out w1 (_ & m' & Hs & Hw1). eapply twp_mono.
  { apply (getPodAssignments_spec w1 (mkCluster m' (c_nodes c) (c_rss c))); [done|..|done|done].
    by eapply scheduled_storable. }
  intros res w2 (Hw2 & l & Hl & Hown). by exists m', l.
Qed.

(** ** Properties *)

(** C8: a pending pod reaches its kubelet.  After a pass of the scheduler, the next poll of a
    kubelet over HTTP gets exactly the pods of its node; every pod that was pending is
    stored as scheduled on some node, and if that is the kubelet's node and the kubelet does
    not know the pod yet, the poll starts it. *)
Theorem scheduled_pods_reach_kubelet (w : W) (c : cluster) :
  represents w c -> PodRegistry.pods_wf (c_pods c) -> c_nodes c <> ∅ -> pods_storable c ->
  (forall n p nn node, c_pods c !! n = Some p -> Scheduler.pending p = true ->
     c_nodes c !! nn = Some node -> storable (Scheduler.assign node p)) ->
  url_safe (Kubelet.nodeName k) -> Kubelet.nodeName k <> "" ->
  exists w' m' l,
    run (_ ← Scheduler.schedulePendingPods sched; linked (Kubelet.getPodAssignments k)) w =
      (Val (Ok (Some (Some <$> l))), w') /\
    represents w' (mkCluster m' (c_nodes c) (c_rss c)) /\ own_pods m' l /\
    forall n p, c_pods c !! n = Some p -> Scheduler.pending p = true ->
      exists nn node, c_nodes c !! nn = Some node /\ m' !! n = Some (Scheduler.assign node p) /\
        (Node_Name node = Kubelet.nodeName k -> Kubelet.pods k !! n = None ->
         Scheduler.assign node p ∈ (Kubelet.runNewPods k l).2).
Proof.
  intros Hw Hwf Hne Hst Hassign Hurl Hn.
  pose proof (schedule_then_poll w c Hw Hwf Hne Hst Hassign Hurl Hn) as Hrun.
  apply twp_run in Hrun as (out & w' & Hrun & m' & l & Hs & Hw' & -> & Hown).
  exists w', m', l. split; [done|]. split; [done|]. split; [done|].
  intros n p Hp Hpend. pose proof (Hs n) as Hsn. rewrite Hp, Hpend in Hsn.
  destruct Hsn as (nn & node & Hnode & Hm'). exists nn, node. split; [done|]. split; [done|].
  intros Hmine Hnew.
  assert (Hname : Pod_Name (Scheduler.assign node p) = n) by apply (Hwf _ _ Hp).
  apply (runNewPods_starts k m' l); [done| |by rewrite Hname].
  apply Hown. split; [done|]. by rewrite Hname.
Qed.
End schedule.

(** What [Start] makes of the registration. *)
Definition start_result (r : result unit) : result (list Kubelet.goroutine) :=
  match r with
  | Ok _ => Ok [Kubelet.WatchPods; Kubelet.UpdatePodStatuses]
  | Err e => Err (Kubelet.wrapf "failed to register node" e)
  end.

(** Linking goes through a sequence. *)
Lemma link_bind {A B} (p : prog A) (f : A -> prog B) (Q : B -> W -> Prop) w :
  twp (linked p) (fun a w' => twp (linked (f a)) Q w') w -> twp (linked (p ≫= f)) Q w.
Proof.
  unfold mbind, prog_mbind. revert w.
  induction p as [a|e kk IH|m md kk IH|m md kk IH|h]; intros w; cbn [prog_bind link]; try done.
  - destruct e; try (unfold twp; cbn [run]; destruct (handle _ w) as [r w']; apply (IH r w')).
    change (prog_bind ?f ?p) with (p ≫= f). rewrite !twp_bind. intros Hp.
    eapply twp_mono; [exact Hp|]. intros r w'. apply IH.
  - apply IH.
  - apply IH.
Qed.

Lemma Start_spec (w : W) c :
  represents w c -> plain (Kubelet.nodeName k) -> storable own_node ->
  twp (linked (Kubelet.Start k)) (fun out w' =>
    out = start_result (registration c).1 /\ represents w' (registration c).2) w.
Proof.
  intros Hw Hp Hst. unfold Kubelet.Start. apply link_bind.
  eapply twp_mono; [by apply (registerNode_spec w c)|]. intros r w' [-> Hw'].
  by destruct (registration c) as [[[]|e] c']; split.
Qed.

(** C13: a kubelet starts once.  [Start] against a running API server registers the node if
    its name is free, and fails with status 409 and changes nothing if it is taken; a
    second start of a kubelet of this name, after a restart for example, always fails with
    409. *)
Theorem kubelet_starts_once (w : W) (c : cluster) :
  represents w c -> plain (Kubelet.nodeName k) -> storable own_node ->
  exists w1 w2,
    run (linked (Kubelet.Start k)) w = (Val (start_result (registration c).1), w1) /\
    represents w1 (registration c).2 /\
    run (linked (Kubelet.Start k)) w1 =
      (Val (Err (Kubelet.wrapf "failed to register node"
         (ErrText ("failed to register node, status code: " +:+ pretty StatusConflict)))), w2) /\
    represents w2 (registration c).2.
Proof.
  intros Hw Hp Hst.
  pose proof (Start_spec w c Hw Hp Hst) as (out1 & w1 & Hrun1 & -> & Hw1)%twp_run.
  pose proof (Start_spec w1 _ Hw1 Hp Hst) as (out2 & w2 & Hrun2 & -> & Hw2)%twp_run.
  assert (Htaken : registration (registration c).2 =
    (Err (ErrText ("failed to register node, status code: " +:+ pretty StatusConflict)),
     (registration c).2)).
  { unfold registration. destruct (c_nodes c !! Kubelet.nodeName k) eqn:Hn; cbn [fst snd];
      [by rewrite Hn|]. cbn [c_nodes]. by rewrite lookup_insert_eq. }
  rewrite Htaken in Hrun2, Hw2. by exists w1, w2.
Qed.

(** C10: a status report replaces the stored pod.  Over HTTP a report of the kubelet's copy of
    a pod answers 404 when the pod was deleted; otherwise it stores the copy as it is, with
    the metadata, spec and node the kubelet first saw, whatever was stored meanwhile. *)
Theorem report_replaces_pod url_ok (pod : Pod) (s : PodStatus) (w : W) (c : cluster) :
  let copy := set_status s pod in
  represents w c -> url_safe (Pod_Name pod) -> plain (Pod_Name pod) -> storable copy ->
  Pod_tags pod = true -> (forall u, url_ok u = Ok ()) ->
  exists w',
    run (linked (Kubelet.updatePodStatus k url_ok copy)) w =
      (Val match c_pods c !! Pod_Name pod with
           | Some _ => Ok ()
           | None => refused StatusNotFound
           end, w') /\
    represents w' (mkCluster (alter (fun _ => copy) (Pod_Name pod) (c_pods c)) (c_nodes c) (c_rss c)).
Proof.
  cbn zeta. intros Hw Hurl Hp Hst Htags Hok.
  pose proof (updatePodStatus_spec url_ok (set_status s pod) w c Hw Hurl Hp Hst Hok)
    as (out & w' & Hrun & -> & Hw')%twp_run.
  unfold report in Hrun, Hw'. change (Pod_Name (set_status s pod)) with (Pod_Name pod) in *.
  change (Pod_tags (set_status s pod)) with (Pod_tags pod) in *. rewrite Htags in *.
  exists w'. destruct (c_pods c !! Pod_Name pod) as [old|] eqn:Hold; cbn [fst snd] in *;
    (split; [done|]).
  - replace (alter _ _ _) with (<[Pod_Name pod := set_status s pod]> (c_pods c)); [done|].
    apply map_eq. intros n. destruct (decide (Pod_Name pod = n)) as [<-|Hne].
    + by rewrite lookup_insert_eq, lookup_alter_eq, Hold.
    + by rewrite lookup_insert_ne, lookup_alter_ne.
  - replace (alter _ _ _) with (c_pods c); [by destruct c|].
    apply map_eq. intros n. destruct (decide (Pod_Name pod = n)) as [<-|Hne].
    + by rewrite lookup_alter_eq, Hold.
    + by rewrite lookup_alter_ne.
Qed.
End cluster.

(** ** A concrete cluster *)

Module Witness.
#[export] Instance reader `{Object A} : EntityReader A := Decode.

#[export] Instance decoder : Kubelet.PodListDecoder := fun s =>
  match ser_get (A:=list (option Pod)) s with
  | Some (l, _) => Ok (Some l)
  | None => Err (ErrText "cannot decode")
  end.

(** What follows a prefix. *)
Fixpoint strip (p s : string) : option string :=
  match p, s with
  | EmptyString, s => Some s
  | String a p, String b s => if Ascii.eqb a b then strip p s else None
  | String _ _, EmptyString => None
  end.

Definition base : string := "http://localhost:8080/api/v1".

#[export] Instance http : Http := {
  dispatch m u b :=
    if bool_decide (m = "POST") then
      if bool_decide (u = base +:+ "/nodes") then Some (OpPost KNode (mkRequest ∅ ∅ b ∅)) else None
    else if bool_decide (m = "GET") then
      (fun n => OpListAll KPod (mkRequest ∅ {[ "nodeName" := n ]} b ∅)) <$>
        strip (base +:+ "/pods?nodeName=") u
    else
      (fun n => OpNamed PUT KPod (mkRequest {[ "name" := n ]} ∅ b ∅)) <$>
        strip (base +:+ "/pods/") u;
  wire resp :=
    match resp with
    | [] => (StatusOK, "")
    | wr :: _ =>
        (write_status wr,
         match wr with
         | WriteHeaderAndEntity _ (EPods (Some l)) => ser_put (Some <$> l) ""
         | _ => ""
         end)
    end }.

Definition k : Kubelet.Kubelet := Kubelet.mkKubelet "node-1" "localhost:8080" ∅.
Definition server : APIServer.APIServer := APIServer.NewAPIServer EtcdStorage.NewEtcdStorage 1 2.
Definition stale : Pod := set_node "node-1" Scheduler.Witness.p2.
Definition c : cluster := mkCluster Scheduler.Witness.pods Scheduler.Witness.nodes ∅.
End Witness.
#[local] Existing Instances Witness.reader Witness.decoder Witness.http.

Lemma strip_app p s : Witness.strip p (p +:+ s) = Some s.
Proof.
  induction p as [|a p IH]; [done|]. rewrite str_app_cons. cbn [Witness.strip].
  by rewrite Ascii.eqb_refl.
Qed.

Lemma decode_encoded `{ObjectLaws A} (a : A) b :
  storable a -> Encode a = Ok b -> Decode b = Ok a.
Proof. intros Hst Henc. destruct (Decode_Encode a Hst) as (d & Henc' & Hd). congruence. Qed.

#[local] Instance Witness_laws : HttpLaws (Kubelet.apiServerURL Witness.k).
Proof.
  split.
  - intros node b Hst Henc. exists (mkRequest ∅ ∅ b ∅). split; [vm_compute; reflexivity|].
    exact (decode_encoded node b Hst Henc).
  - intros n _. eexists. split.
    + cbn [dispatch Witness.http]. rewrite bool_decide_eq_false_2, bool_decide_eq_true_2 by done.
      change ("http://" +:+ Kubelet.apiServerURL Witness.k +:+ "/api/v1/pods?nodeName=" +:+ n)
        with ((Witness.base +:+ "/pods?nodeName=") +:+ n).
      by rewrite strip_app.
    + cbn. unfold QueryParameter. cbn [queryParameters]. by rewrite lookup_singleton_eq.
  - intros n pod b _ _ Hst Henc. eexists. split; [|split].
    + cbn [dispatch Witness.http]. rewrite bool_decide_eq_false_2, bool_decide_eq_false_2 by done.
      change ("http://" +:+ Kubelet.apiServerURL Witness.k +:+ "/api/v1/pods/" +:+ n)
        with ((Witness.base +:+ "/pods/") +:+ n).
      by rewrite strip_app.
    + unfold PathParameter. cbn [pathParameters]. by rewrite lookup_singleton_eq.
    + exact (decode_encoded pod b Hst Henc).
  - done.
  - intros st l _. cbv [Kubelet.decode_pods Witness.decoder]. cbn [wire Witness.http snd].
    by rewrite ser_law.
Qed.

Lemma w0_represents : represents Scheduler.Witness.w0 Witness.c.
Proof.
  split; [apply Forall_nil_2|].
  split; [split; [apply Scheduler.w0_pods|]|].
  { apply map_Forall_insert_2; [done|]. by apply map_Forall_singleton. }
  split; [split; [apply Scheduler.w0_nodes|by apply map_Forall_singleton]|].
  assert (Hno : forall key, HasPrefix key ReplicaSetRegistry.replicaSetPrefix = true ->
    stored Scheduler.Witness.w0 !! key = None).
  { intros key Hkey. cbn. rewrite !lookup_insert_ne, lookup_singleton_ne; [done|..];
      intros <-; by vm_compute in Hkey. }
  split; [split; [|apply map_Forall_empty]|].
  - intros n. rewrite Hno by apply HasPrefix_app. done.
  - split; [intros key [d Hd] Hkey; by rewrite Hno in Hd|]. split; vm_compute; reflexivity.
Qed.

Lemma kubelet_starts_once_witness :
  exists w1 w2,
    run (link Witness.server (Kubelet.Start Witness.k)) empty_world =
      (Val (start_result (registration Witness.k (mkCluster ∅ ∅ ∅)).1), w1) /\
    represents w1 (registration Witness.k (mkCluster ∅ ∅ ∅)).2 /\
    run (link Witness.server (Kubelet.Start Witness.k)) w1 =
      (Val (Err (Kubelet.wrapf "failed to register node"
         (ErrText ("failed to register node, status code: " +:+ pretty StatusConflict)))), w2) /\
    represents w2 (registration Witness.k (mkCluster ∅ ∅ ∅)).2.
Proof.
  apply (kubelet_starts_once (St:=EtcdStorage.NewEtcdStorage) 1 2 Witness.k empty_world
    (mkCluster ∅ ∅ ∅)); [apply empty_represents | by apply plain_of | done].
Defined.

Lemma scheduled_pods_reach_kubelet_witness :
  exists w' m' l,
    run (_ ← Scheduler.schedulePendingPods (Scheduler.NewScheduler
               (PodRegistry.NewPodRegistry EtcdStorage.NewEtcdStorage 1)
               (NodeRegistry.NewNodeRegistry EtcdStorage.NewEtcdStorage) 10);
         link Witness.server (Kubelet.getPodAssignments Witness.k)) Scheduler.Witness.w0 =
      (Val (Ok (Some (Some <$> l))), w') /\
    represents w' (mkCluster m' (c_nodes Witness.c) (c_rss Witness.c)) /\
    own_pods Witness.k m' l /\
    forall n p, c_pods Witness.c !! n = Some p -> Scheduler.pending p = true ->
      exists nn node, c_nodes Witness.c !! nn = Some node /\
        m' !! n = Some (Scheduler.assign node p) /\
        (Node_Name node = Kubelet.nodeName Witness.k -> Kubelet.pods Witness.k !! n = None ->
         Scheduler.assign node p ∈ (Kubelet.runNewPods Witness.k l).2).
Proof.
  apply (scheduled_pods_reach_kubelet (St:=EtcdStorage.NewEtcdStorage) 1 2 Witness.k 1 10
    Scheduler.Witness.w0 Witness.c);
    [apply w0_represents
    | apply map_Forall_insert_2; [by vm_compute|]; by apply map_Forall_singleton
    | done | intros n p _; exact I | intros; exact I | reflexivity | done].
Defined.

(** A stale copy of the pod "b", which is now on the node "n9", is written over it. *)
Lemma report_replaces_pod_witness :
  exists w',
    run (link Witness.server (Kubelet.updatePodStatus Witness.k (fun _ => Ok ())
           (set_status PodSucceeded Witness.stale))) Scheduler.Witness.w0 =
      (Val (Ok ()), w') /\
    represents w' (mkCluster (alter (fun _ => set_status PodSucceeded Witness.stale) "b"
      (c_pods Witness.c)) (c_nodes Witness.c) (c_rss Witness.c)).
Proof.
  apply (report_replaces_pod (St:=EtcdStorage.NewEtcdStorage) 1 2 Witness.k (fun _ => Ok ())
    Witness.stale PodSucceeded Scheduler.Witness.w0 Witness.c);
    [apply w0_represents | reflexivity | by apply plain_of | exact I | reflexivity | done].
Defined.

End Cluster.
