(* ===== verification/Deployment.v ===== *)
(** * Deployment: from a ReplicaSet to the pods its kubelets run

    The whole way of a ReplicaSet through the system: the controller reconciles it, the
    scheduler places the pods that were created, and the kubelets of the nodes poll the API
    server over HTTP and start what they are given.  [deploy] runs the programs of Controller,
    Scheduler and Kubelet one after the other on one store; the theorem counts the pods that
    reach the kubelets. *)

From S2P Require Import Prelude Errors Effects Api Storage Registry Reference GoPath Names.
From S2P Require Import PodRegistry NodeRegistry ReplicaSetRegistry Scheduler Controller Handlers.
From S2P Require Import ApiServer Kubelet Cluster.

Module Deployment.

(** A pod that counts for a ReplicaSet. *)
Definition counts (rs : ReplicaSet) (p : Pod) : bool := IsPodActiveAndOwnedBy p (RS_ObjectMeta rs).

(** ** Counting pods *)

(** The active pods are the pods of a submap. *)
Definition active_part (rs : ReplicaSet) (m : gmap string Pod) : gmap string Pod :=
  filter (fun np => counts rs np.2 = true) m.

Lemma active_count_size rs m :
  Controller.active_count rs m = Z.of_nat (size (active_part rs m)).
Proof.
  unfold active_part. induction m as [|n p m Hn IH] using map_ind; [done|].
  rewrite Controller.active_count_insert, IH by done. fold (counts rs p).
  destruct (counts rs p) eqn:Hp.
  - rewrite map_filter_insert_True by done. rewrite map_size_insert_None; [lia|].
    rewrite map_lookup_filter, Hn. done.
  - rewrite map_filter_insert_False by (cbn; congruence).
    rewrite delete_id by done. lia.
Qed.

Lemma counts_assign rs node p :
  Scheduler.pending p = true -> counts rs (Scheduler.assign node p) = counts rs p.
Proof.
  intros Hp%bool_decide_eq_true. unfold counts, IsPodActiveAndOwnedBy, IsActive.
  change (IsOwnedBy (Scheduler.assign node p) ?m) with (IsOwnedBy p m).
  rewrite Hp. by rewrite !bool_decide_eq_true_2.
Qed.

(** Scheduling does not change how many pods count. *)
Lemma scheduled_count rs nodes m m' :
  Scheduler.scheduled nodes m m' -> Controller.active_count rs m' = Controller.active_count rs m.
Proof.
  intros Hs. rewrite !active_count_size. f_equal. rewrite <- !size_dom. f_equal.
  apply set_eq. intros n. rewrite !elem_of_dom. unfold active_part, is_Some.
  setoid_rewrite map_lookup_filter_Some. cbn. specialize (Hs n).
  destruct (m !! n) as [p|] eqn:Hm; [|rewrite Hs; naive_solver].
  destruct (Scheduler.pending p) eqn:Hp; [|by rewrite Hs].
  destruct Hs as (nn & node & _ & ->). pose proof (counts_assign rs node p Hp). naive_solver.
Qed.

Lemma elem_of_active rs m p :
  named_by PodKind m ->
  p ∈ Controller.active rs m <-> counts rs p = true /\ m !! Pod_Name p = Some p.
Proof.
  intros Hnm. unfold Controller.active. rewrite elem_of_filter_bool.
  fold (counts rs p). rewrite (Scheduler.elem_of_values m) by done. split.
  - intros [[n Hn] Hc]. split; [done|]. pose proof (Hnm _ _ Hn) as Hname. cbn in Hname.
    by rewrite Hname.
  - intros [Hc Hp]. split; [by eexists|done].
Qed.

Lemma active_NoDup rs m : named_by PodKind m -> NoDup (Controller.active rs m).
Proof.
  intros Hnm. apply Cluster.filter_bool_NoDup, NoDup_fmap_2_strong; [|apply NoDup_map_to_list].
  intros [n p] [n' p'] Hp%elem_of_map_to_list Hp'%elem_of_map_to_list Heq. cbn in Heq. subst p'.
  pose proof (Hnm _ _ Hp). pose proof (Hnm _ _ Hp'). cbn in *. by subst.
Qed.

(** ** Placement *)

(** Every pod that counts waits for a node or is on one of the nodes [names]. *)
Definition placed (names : list string) (rs : ReplicaSet) (m : gmap string Pod) : Prop :=
  map_Forall (fun _ p => counts rs p = true ->
    Scheduler.pending p = true \/ NodeName p ∈ names) m.

Lemma creates_placed names rs base cs m ok m' :
  Controller.creates base cs m ok m' -> placed names rs m -> placed names rs m'.
Proof.
  induction 1 as [m|c cs s m ok m' _ _ _ IH|]; intros Hm; [done| |done].
  apply IH, map_Forall_insert_2; [|done]. by left.
Qed.

Lemma creates_storable `{ObjectLaws Pod} base cs m ok m' :
  Controller.creates base cs m ok m' -> Controller.pods_storable base cs ->
  map_Forall (fun _ p => storable p) m -> map_Forall (fun _ p => storable p) m'.
Proof.
  induction 1 as [m|c cs s m ok m' Hs _ _ IH|]; intros Hcs Hm; [done| |done].
  apply IH.
  - intros t d Ht Hd. apply Hcs; [done|by right].
  - apply map_Forall_insert_2; [|done]. apply Hcs; [done|by left].
Qed.

(** After scheduling every pod that counts is on a node. *)
Lemma scheduled_placed names rs nodes m m' p :
  Scheduler.scheduled nodes m m' -> placed names rs m -> named_by PodKind m' ->
  (forall nn node, nodes !! nn = Some node -> Node_Name node ∈ names) ->
  p ∈ Controller.active rs m' -> NodeName p ∈ names.
Proof.
  intros Hs Hm Hnm Hnodes [Hc Hp]%elem_of_active; [|done]. specialize (Hs (Pod_Name p)).
  destruct (m !! Pod_Name p) as [q|] eqn:Hq; [|congruence].
  destruct (Scheduler.pending q) eqn:Hpend.
  - destruct Hs as (nn & node & Hnode & Hp'). rewrite Hp in Hp'. injection Hp' as ->.
    by apply (Hnodes nn).
  - rewrite Hp in Hs. injection Hs as ->. by destruct (Hm _ _ Hq Hc) as [?|?]; [congruence|].
Qed.

(** ** Polls of several kubelets *)

(** What the polls of the kubelets [ks] list of the pods [m]. *)
Abbreviation polled := (fun m => Forall2 (fun k l => Cluster.own_pods k m l)).

Lemma elem_of_polled m ks ls p :
  polled m ks ls ->
  p ∈ concat ls <-> (NodeName p ∈ Kubelet.nodeName <$> ks) /\ m !! Pod_Name p = Some p.
Proof.
  induction 1 as [|k l ks ls [_ Hl] _ IH]; cbn [concat].
  { rewrite fmap_nil. split; [intros []%not_elem_of_nil|intros [[]%not_elem_of_nil _]]. }
  rewrite elem_of_app, IH, Hl, fmap_cons, elem_of_cons. tauto.
Qed.

Lemma polled_NoDup m ks ls :
  polled m ks ls -> NoDup (Kubelet.nodeName <$> ks) -> NoDup (concat ls).
Proof.
  induction 1 as [|k l ks ls [Hnd Hl] Hls IH]; cbn [concat]; [constructor|].
  rewrite fmap_cons. intros [Hk Hks]%NoDup_cons. apply NoDup_app. split; [done|].
  split; [|by apply IH]. intros p [Hnode _]%Hl [Hin _]%(elem_of_polled _ _ _ _ Hls).
  by rewrite Hnode in Hin.
Qed.

(** Kubelets that cover the nodes list together exactly the pods that count. *)
Lemma polled_active rs m ks ls :
  named_by PodKind m -> polled m ks ls -> NoDup (Kubelet.nodeName <$> ks) ->
  (forall p, p ∈ Controller.active rs m -> NodeName p ∈ Kubelet.nodeName <$> ks) ->
  List.filter (counts rs) (concat ls) ≡ₚ Controller.active rs m.
Proof.
  intros Hnm Hls Hks Hon. apply NoDup_Permutation.
  - apply Cluster.filter_bool_NoDup. by apply (polled_NoDup m ks).
  - by apply active_NoDup.
  - intros p. rewrite elem_of_filter_bool, (elem_of_polled m ks ls) by done.
    specialize (Hon p). rewrite elem_of_active in * by done. tauto.
Qed.

(** ** The deployment *)

Section deployment.
Context {St : Storage} `{StorageLaws St W} `{!Names.RandFair W} `{ValidatorLaws}
  `{ObjectLaws Pod, ObjectLaws Node, ObjectLaws ReplicaSet}
  `{EntityReader Pod, EntityReader Node, EntityReader ReplicaSet}
  `{Kubelet.PodListDecoder} `{Http : Cluster.Http}.

(** The mutexes of the API server's, the controller's and the scheduler's registries, the
    bound of the name generator, the scheduler's rate and the API server's address. *)
Variables mu1 mu2 mu_rs mu_pod mu fuel : nat.
Variables (rate : Z) (addr : string).
Hypothesis Hfuel : (12 * Names.fair_draws <= fuel)%nat.
Context {HL : Cluster.HttpLaws addr}.

#[local] Abbreviation server := (APIServer.NewAPIServer St mu1 mu2).
#[local] Abbreviation rsc :=
  (Controller.NewReplicaSetController (ReplicaSetRegistry.NewReplicaSetRegistry St mu_rs)
     (PodRegistry.NewPodRegistry St mu_pod)).
#[local] Abbreviation sched :=
  (Scheduler.NewScheduler (PodRegistry.NewPodRegistry St mu) (NodeRegistry.NewNodeRegistry St) rate).

(** Every kubelet polls once. *)
Fixpoint poll_all (ks : list Kubelet.Kubelet) : prog (list (result (slice (option Pod)))) :=
  match ks with
  | [] => mret []
  | k :: ks =>
      got ← Cluster.link server (Kubelet.getPodAssignments k);
      rest ← poll_all ks;
      mret (got :: rest)
  end.

(** A round of the system for the ReplicaSet [rs]. *)
Definition deploy (rs : ReplicaSet) (ks : list Kubelet.Kubelet)
  : prog (result unit * list (result (slice (option Pod)))) :=
  out ← Controller.Reconcile rsc fuel rs;
  _ ← Scheduler.schedulePendingPods sched;
  polls ← poll_all ks;
  mret (out, polls).

(** A kubelet of this API server whose name can stand in a URL. *)
Definition reachable_kubelet (k : Kubelet.Kubelet) : Prop :=
  Kubelet.apiServerURL k = addr /\ Cluster.url_safe (Kubelet.nodeName k) /\
  Kubelet.nodeName k <> "".

(** The answer that lists [l]. *)
Definition listing (l : list Pod) : result (slice (option Pod)) := Ok (Some (Some <$> l)).

Lemma poll_spec k (w : W) c :
  represents w c -> Cluster.pods_storable c -> reachable_kubelet k ->
  twp (Cluster.link server (Kubelet.getPodAssignments k)) (fun out w' =>
    represents w' c /\ exists l, out = listing l /\ Cluster.own_pods k (c_pods c) l) w.
Proof.
  intros Hw Hst (Haddr & Hurl & Hne). destruct k as [n u ps]. cbn in Haddr. subst u.
  by apply (Cluster.getPodAssignments_spec mu1 mu2 (Kubelet.mkKubelet n addr ps) w c).
Qed.

Lemma poll_all_spec ks (w : W) c :
  represents w c -> Cluster.pods_storable c -> Forall reachable_kubelet ks ->
  twp (poll_all ks) (fun out w' =>
    represents w' c /\ exists ls, out = listing <$> ls /\ polled (c_pods c) ks ls) w.
Proof.
  intros Hw Hst Hks. revert w Hw. induction Hks as [|k ks Hk _ IH]; intros w Hw; cbn [poll_all].
  { rewrite twp_ret. split; [done|]. exists []. by split. }
  prog_step. eapply twp_mono; [by apply (poll_spec k w c)|].
  intros got w1 (Hw1 & l & -> & Hl). prog_step. eapply twp_mono; [by apply (IH w1)|].
  intros rest w2 (Hw2 & ls & -> & Hls). rewrite twp_ret. split; [done|].
  exists (l :: ls). split; [done|by constructor].
Qed.

(** A reconciliation leaves a represented cluster with the same nodes. *)
Lemma represents_controller (w w' : W) c m rsm :
  represents w c -> up w' -> unchanged_outside Controller.controller_key w w' ->
  view PodRegistry.generateKey w' m -> named_by PodKind m ->
  view ReplicaSetRegistry.generateKey w' rsm -> named_by ReplicaSetKind rsm ->
  represents w' (mkCluster m (c_nodes c) rsm).
Proof.
  intros (_ & _ & [Hn ?] & _ & Hst & Hnn) Hup Hu Hv Hnm Hrv Hrnm.
  split; [done|]. split; [done|].
  split; [split; [eapply view_unchanged; [done..|]|done]|].
  { unfold Controller.controller_key. by intros n [?|?]. }
  split; [done|].
  split; [|eapply nodes_have_names_unchanged; [done..|by intros [?|?]|apply Hnn]].
  eapply no_stray_unchanged; [done..| |].
  - intros k [Hk|Hk] Hp; [|done]. destruct (keys_apart _ _ _ Hk Hp eq_refl eq_refl).
  - unfold Controller.controller_key, PodRegistry.pod_key, ReplicaSetRegistry.rs_key. apply _.
Qed.

(** A ReplicaSet the controller can bring to its count: it is stored, its template has one
    container, its name is not cut when pod names are generated, and it has not too many
    pods. *)
Record scalable (c : cluster) (rs cur : ReplicaSet) : Prop := {
  sc_stored : c_rss c !! RS_Name rs = Some cur;
  sc_ok : Controller.reconcilable cur;
  sc_name : (String.length (RS_Name cur) <= Names.MaxGeneratedNameLength)%nat;
  sc_one : length (Controller.template_containers cur) = 1%nat;
  sc_count : Controller.active_count cur (c_pods c) <= RSSpec_Replicas (RS_Spec cur) }.

(** A kubelet for every node, each under a name of its own; there is a node, and the pods
    that count are on these nodes or wait for one. *)
Record covered (c : cluster) (cur : ReplicaSet) (ks : list Kubelet.Kubelet) : Prop := {
  cv_some : c_nodes c <> ∅;
  cv_nodes : forall n, is_Some (c_nodes c !! n) -> n ∈ Kubelet.nodeName <$> ks;
  cv_names : NoDup (Kubelet.nodeName <$> ks);
  cv_reach : Forall reachable_kubelet ks;
  cv_placed : placed (Kubelet.nodeName <$> ks) cur (c_pods c) }.

(** Pods as the API server stores them, which survive the encoding on every node. *)
Record pods_ok (c : cluster) : Prop := {
  po_wf : PodRegistry.pods_wf (c_pods c);
  po_storable : Cluster.pods_storable c;
  po_assign : forall n node (p : Pod), c_nodes c !! n = Some node -> storable p ->
    storable (Scheduler.assign node p) }.

Lemma pods_wf_named_by m : PodRegistry.pods_wf m -> named_by PodKind m.
Proof. intros Hm n p Hp. by destruct (Hm _ _ Hp). Qed.

(** The count after a successful reconciliation. *)
Lemma reconciled_count c rs cur m rsm :
  scalable c rs cur -> Controller.reconciled cur (c_pods c) (c_rss c) (Ok ()) m rsm ->
  Controller.active_count cur m = RSSpec_Replicas (RS_Spec cur).
Proof.
  intros [_ _ Hname Hone Hle] Hr.
  destruct (Z.lt_total (Controller.active_count cur (c_pods c)) (RSSpec_Replicas (RS_Spec cur)))
    as [Hlt|[Heq|Hgt]]; [| |lia].
  - apply Controller.reconciled_up in Hr as [Hcr _]; [|done].
    rewrite (Controller.creates_count cur _ _ _ _ true) with (2:=Hcr).
    + rewrite Controller.replica_count, Hone by done. lia.
    + intros s _. by apply Controller.generated_owned.
  - unfold Controller.reconciled in Hr. rewrite Heq, Z.compare_refl in Hr.
    by destruct Hr as (_ & -> & _).
Qed.

(** What a reconciliation adds: pods for containers of the template, and the status. *)
Lemma reconciled_shape cur m rsm out m' rsm' :
  Controller.reconciled cur m rsm out m' rsm' ->
  (exists cs ok, Forall (fun d => d ∈ Controller.template_containers cur) cs /\
     Controller.creates (RS_Name cur) cs m ok m') /\
  (rsm' = rsm \/ rsm' = <[RS_Name cur := Controller.recorded cur]> rsm) /\
  (out = Ok () \/ agrees out (Some PodRegistry.ErrPodAlreadyExists)).
Proof.
  unfold Controller.reconciled. destruct (Z.compare _ _).
  - intros (-> & -> & ->). split; [|auto]. exists [], true. by split; constructor.
  - intros (ok & Hcr & Hout). split; [|destruct ok; naive_solver]. eexists _, ok.
    split; [|exact Hcr]. apply Forall_concat, Forall_replicate, Forall_forall. auto.
  - intros (-> & -> & ->). split; [|auto]. exists [], true. by split; constructor.
Qed.

Lemma reconcile_cluster rs cur ks (w : W) c :
  represents w c -> pods_ok c -> scalable c rs cur -> covered c cur ks ->
  twp (Controller.Reconcile rsc fuel rs) (fun out w1 => exists m rsm,
    represents w1 (mkCluster m (c_nodes c) rsm) /\ PodRegistry.pods_wf m /\
    map_Forall (fun _ p => storable p) m /\ placed (Kubelet.nodeName <$> ks) cur m /\
    (out = Ok () /\ Controller.active_count cur m = RSSpec_Replicas (RS_Spec cur) \/
     agrees out (Some PodRegistry.ErrPodAlreadyExists))) w.
Proof.
  intros Hw [Hwf Hst _] Hsc [_ _ _ _ Hpl]. assert (Hw' := Hw).
  destruct Hw' as (Hup & [Hpv _] & _ & [Hrv Hrn] & _).
  pose proof (Hrn _ _ (sc_stored _ _ _ Hsc)) as Hname. cbn in Hname.
  eapply twp_mono.
  { apply (Controller.Reconcile_spec mu_rs mu_pod fuel Hfuel rs cur w (c_pods c) (c_rss c));
      [done..|apply Hsc|done|apply Hsc]. }
  intros out w1 (Hup1 & Hu1 & _ & m & rsm & Hv1 & Hrv1 & Hr). exists m, rsm.
  destruct (sc_ok _ _ _ Hsc) as (_ & Htags & Hps & _). rewrite Forall_forall in Htags.
  destruct (reconciled_shape _ _ _ _ _ _ Hr) as ((cs & ok & Hcs & Hcr) & Hrsm & Hout).
  rewrite Forall_forall in Hcs.
  assert (Hwf1 : PodRegistry.pods_wf m).
  { eapply Controller.creates_wf; [exact Hcr| |done]. apply Forall_forall. auto. }
  assert (Hrn1 : named_by ReplicaSetKind rsm).
  { destruct Hrsm as [->| ->]; [done|]. by apply map_Forall_insert_2. }
  split; [by eapply represents_controller; eauto using pods_wf_named_by|]. split; [done|].
  split; [|split; [by eapply creates_placed|]].
  { eapply creates_storable; [exact Hcr| |done]. intros t d Ht Hd. by apply Hps, Hcs. }
  destruct Hout as [->|Hout]; [left|by right]. split; [done|]. by eapply reconciled_count.
Qed.

(** The kubelet has a pod already, or starts it with this poll. *)
Definition runs (k : Kubelet.Kubelet) (l : list Pod) (p : Pod) : Prop :=
  is_Some (Kubelet.pods k !! Pod_Name p) \/ p ∈ (Kubelet.runNewPods k l).2.

Lemma polled_runs m ks ls :
  polled m ks ls -> Forall2 (fun k l => forall p, p ∈ l -> runs k l p) ks ls.
Proof.
  intros Hls. eapply Forall2_impl; [exact Hls|]. intros k l Hl p Hp. unfold runs.
  destruct (Kubelet.pods k !! Pod_Name p) as [q|] eqn:Hq; [by left; eexists|right].
  by apply (Cluster.runNewPods_starts k k m l).
Qed.

(** Scheduling and polling after the reconciliation. *)
Lemma schedule_and_poll ks cur m rsm (w : W) c :
  represents w (mkCluster m (c_nodes c) rsm) -> PodRegistry.pods_wf m ->
  map_Forall (fun _ p => storable p) m -> pods_ok c -> covered c cur ks ->
  twp (_ ← Scheduler.schedulePendingPods sched; poll_all ks) (fun out w' => exists m' ls,
    represents w' (mkCluster m' (c_nodes c) rsm) /\ out = listing <$> ls /\
    Scheduler.scheduled (c_nodes c) m m' /\ polled m' ks ls) w.
Proof.
  intros Hw Hwf Hst Hok Hcv.
  assert (Hassign : forall n p nn node, m !! n = Some p -> Scheduler.pending p = true ->
    c_nodes c !! nn = Some node -> storable (Scheduler.assign node p)).
  { intros n p nn node Hp _ Hnode. apply (po_assign _ Hok nn); [done|]. by eapply Hst. }
  rewrite twp_bind. eapply twp_mono.
  { apply (Cluster.schedule_spec mu rate w (mkCluster m (c_nodes c) rsm)); [done..|apply Hcv|done]. }
  intros out w1 (_ & m' & Hs & Hw1). eapply twp_mono.
  { apply (poll_all_spec ks w1 (mkCluster m' (c_nodes c) rsm)); [done| |apply Hcv].
    by eapply Cluster.scheduled_storable. }
  intros out' w2 (Hw2 & ls & -> & Hls). by exists m', ls.
Qed.

(** C7: a ReplicaSet is deployed.  Take a cluster with a kubelet for every node, and a stored
    ReplicaSet with one container, a name of at most 58 bytes and not more active pods than
    it wants.  After one reconciliation, one pass of the scheduler and one poll of every
    kubelet over HTTP, unless a generated name was taken, the kubelets together were given
    exactly the active pods of the ReplicaSet, as many as it wants, each on one node; and
    every kubelet runs all that it was given. *)
Theorem deployed_replicas_run rs cur ks (w : W) (c : cluster) :
  represents w c -> pods_ok c -> scalable c rs cur -> covered c cur ks ->
  exists out ls w' m' rsm',
    run (deploy rs ks) w = (Val (out, listing <$> ls), w') /\
    represents w' (mkCluster m' (c_nodes c) rsm') /\
    Forall2 (fun k l => forall p, p ∈ l -> runs k l p) ks ls /\
    (out = Ok () /\
       List.filter (counts cur) (concat ls) ≡ₚ Controller.active cur m' /\
       Z.of_nat (length (List.filter (counts cur) (concat ls))) = RSSpec_Replicas (RS_Spec cur) \/
     agrees out (Some PodRegistry.ErrPodAlreadyExists)).
Proof.
  intros Hw Hok Hsc Hcv. pose proof (reconcile_cluster rs cur ks w c Hw Hok Hsc Hcv)
    as (out & w1 & Hrun1 & m & rsm & Hw1 & Hwf & Hst & Hpl & Hout)%twp_run.
  pose proof (schedule_and_poll ks cur m rsm w1 c Hw1 Hwf Hst Hok Hcv)
    as (polls & w2 & Hrun2 & m' & ls & Hw2 & -> & Hs & Hls)%twp_run.
  exists out, ls, w2, m', rsm. split.
  { unfold deploy. rewrite run_bind, Hrun1, run_bind. rewrite run_bind in Hrun2.
    destruct (run (Scheduler.schedulePendingPods sched) w1) as [[a|h] w1']; [|done].
    by rewrite run_bind, Hrun2. }
  split; [done|]. split; [by eapply polled_runs|].
  destruct Hout as [[-> Hcount]|Hout]; [left|by right]. split; [done|].
  assert (Hnm : named_by PodKind m') by apply Hw2.
  assert (Hperm : List.filter (counts cur) (concat ls) ≡ₚ Controller.active cur m').
  { eapply polled_active; [done..|apply Hcv|]. intros p Hp.
    eapply scheduled_placed; [done..| |done]. intros nn node Hnode.
    assert (Hn : named_by NodeKind (c_nodes c)) by apply Hw. pose proof (Hn _ _ Hnode) as Hname.
    cbn in Hname. rewrite Hname. apply (cv_nodes _ _ _ Hcv). by eexists. }
  split; [done|]. rewrite Hperm. fold (Controller.active_count cur m').
  by rewrite (scheduled_count _ _ _ _ Hs).
Qed.
End deployment.

(** ** A concrete deployment *)

Module Witness.
Definition kubelet (n : string) : Kubelet.Kubelet := Kubelet.mkKubelet n "localhost:8080" ∅.
Definition node (n : string) : Node := mkNode (meta_named n) (mkNodeSpec false "") NodeReady.
Definition ks : list Kubelet.Kubelet := [kubelet "node-1"; kubelet "node-2"].
Definition web : ReplicaSet := Controller.Witness.web.
Definition w_rs : ref_world := Controller.Witness.world_of web.
Definition with_node (n : string) (w : ref_world) : ref_world :=
  world_with (<[NodeRegistry.node_key_of n := ser_put (node n) ""]> (stored w)).
Definition w : ref_world := with_node "node-2" (with_node "node-1" w_rs).
Definition c : cluster :=
  mkCluster ∅ (<["node-2" := node "node-2"]> (<["node-1" := node "node-1"]> ∅)) {[ "web" := web ]}.
End Witness.

Lemma with_node_represents n (w : ref_world) c :
  n <> "" -> represents w c ->
  represents (Witness.with_node n w)
    (mkCluster (c_pods c) (<[n := Witness.node n]> (c_nodes c)) (c_rss c)).
Proof.
  intros Hne (_ & [Hp ?] & [Hn ?] & [Hr ?] & Hst & Hnn).
  assert (Hu : unchanged_outside NodeRegistry.node_key w (Witness.with_node n w)).
  { eapply unchanged_mono; [by eapply unchanged_insert|]. intros k <-. apply HasPrefix_app. }
  split; [apply Forall_nil_2|].
  split; [split; [eapply view_unchanged; [done..|by intros ?]|done]|].
  destruct (Decode_Encode (Witness.node n)) as (d & [= <-] & Hd); [exact I|].
  split; [split; [by eapply (view_insert _ w)|by apply map_Forall_insert_2]|].
  split; [split; [eapply view_unchanged; [done..|by intros ?]|done]|].
  split; [|eapply nodes_have_names_unchanged; [done..|cbn; rewrite lookup_insert_ne; [apply Hnn|done]]].
  eapply no_stray_unchanged; [done..| |unfold NodeRegistry.node_key; apply _].
  intros k Hk Hk'. destruct (keys_apart _ _ _ Hk Hk' eq_refl eq_refl).
Qed.

Lemma w_represents : represents Witness.w Witness.c.
Proof.
  assert (Hrs : represents Witness.w_rs (mkCluster ∅ ∅ {[ "web" := Witness.web ]}));
    [|refine (with_node_represents "node-2" _ _ _ (with_node_represents "node-1" _ _ _ Hrs)); done].
  destruct (Controller.world_of_holds Witness.web) as (Hup & Hv & Hrv & _).
  split; [done|]. split; [split; [done|apply map_Forall_empty]|].
  split; [split; [|apply map_Forall_empty]|].
  { intros n. cbn. rewrite lookup_singleton_ne, lookup_empty; done. }
  split; [split; [done|by apply map_Forall_singleton]|].
  split; [|split; [by cbn; rewrite lookup_singleton_ne|done]].
  intros k [d Hd] _. cbn in Hd. apply lookup_singleton_Some in Hd as [<- _]. reflexivity.
Qed.

#[local] Existing Instances Cluster.Witness.reader Cluster.Witness.decoder Cluster.Witness.http
  Cluster.Witness_laws.

Lemma witness_pods_ok : pods_ok Witness.c.
Proof. split; [apply map_Forall_empty|apply map_Forall_empty|done]. Qed.

Lemma witness_scalable : scalable Witness.c Witness.web Witness.web.
Proof.
  split; [reflexivity|apply Controller.web_reconcilable|vm_compute; lia|reflexivity|done].
Qed.

Lemma witness_covered : covered "localhost:8080" Witness.c Witness.web Witness.ks.
Proof.
  split.
  - apply insert_non_empty.
  - intros n [nd Hn]. cbn in Hn.
    apply lookup_insert_Some in Hn as [[<- _]|[_ Hn]]; [by right; left|].
    apply lookup_insert_Some in Hn as [[<- _]|[_ Hn]]; [|by rewrite lookup_empty in Hn].
    by left.
  - apply (bool_decide_eq_true_1 _). vm_compute. reflexivity.
  - repeat constructor; done.
  - apply map_Forall_empty.
Qed.

(** Two pods of "web" on two fresh kubelets. *)
Lemma deployed_replicas_run_witness :
  exists ls w' m' rsm',
    run (deploy (St:=EtcdStorage.NewEtcdStorage) 1 2 3 4 5 12 10 Witness.web Witness.ks) Witness.w =
      (Val (Ok (), listing <$> ls), w') /\
    represents w' (mkCluster m' (c_nodes Witness.c) rsm') /\
    Forall2 (fun k l => forall p, p ∈ l -> runs k l p) Witness.ks ls /\
    length (List.filter (counts Witness.web) (concat ls)) = 2%nat.
Proof.
  destruct (deployed_replicas_run (St:=EtcdStorage.NewEtcdStorage) 1 2 3 4 5 12 10 "localhost:8080"
    Controller.ref_fuel Witness.web Witness.web Witness.ks Witness.w Witness.c
    w_represents witness_pods_ok witness_scalable witness_covered)
    as (out & ls & w' & m' & rsm' & Hrun & Hw' & Hruns & Hout).
  assert (Hok : out = Ok ()).
  { apply (f_equal (fun r => match r.1 with Val o => Some o.1 | Halted _ => None end)) in Hrun.
    vm_compute in Hrun. injection Hrun as <-. reflexivity. }
  subst out. exists ls, w', m', rsm'. split; [exact Hrun|]. split; [exact Hw'|].
  split; [exact Hruns|]. destruct Hout as [(_ & _ & Hlen)|[]].
  cbn in Hlen. lia.
Defined.
End Deployment.
